(* ===== verification/_CoqProject ===== *)
-Q . S2P
Prelude.v
LinkList.v
Timeout.v
CoCtx.v
CoCtx32.v
Coroutine.v
CoLife.v
CoCond.v
Poll.v
CoroutinePool.v
Http.v
Io.v
Server.v
EventLoop.v
Hook.v
CoEnv.v
TimeRound.v
LogFile.v
LogLine.v
KQueue.v
Task.v
Specific.v
Scheduler.v
Closure.v
EchoServer.v
CoLoop.v
ExamplePoll.v
EchoClient.v
ExampleCond.v
ExampleSetenv.v
