(* ===== verification/Prelude.v ===== *)
(** * A model of the coroutine-pool web server

    The program is a web server in C++ whose event loops can hand their
    connections to coroutines.  It carries its own copy of libco, which switches
    stacks, multiplexes waits over one epoll instance per thread and replaces
    the blocking system calls.  This library translates both into Rocq
    functions and proves what they promise.

    ** Parts, files and sources

    libco (libco/co_routine.cpp, co_routine_inner.h, coctx.cpp, coctx_swap.S,
    co_hook_sys_call.cpp):
    - [LinkList]: the intrusive list templates.  The store maps addresses to
      nodes and headers; [represents] relates it to abstract lists.  The classes
      [LinkOps] and [LinkLaws] are the interface that [Timeout], [CoCond] and
      [Poll] are written and proved against; [heap_ops] and its laws implement it.
    - [Timeout]: the wheel of milliseconds ([stTimeout_t]), with the narrowing of
      times to [int].
    - [CoCtx]: the x86-64 instructions of [coctx_swap], and [coctx_make];
      [CoCtx32]: the same for i386.
    - [Coroutine]: creation of coroutines, the call stack of [co_resume] and
      [co_yield_env], shared stacks in [co_swap], specific values, the hook flag.
    - [CoLife]: [co_create] and [CoRoutineFunc], from the first call in a thread to
      the end of a coroutine.
    - [CoCond]: condition variables, and the class [CondOps]/[CondLaws] that
      states what they promise to the pool.
    - [Poll]: [co_poll_inner], [OnPollPreparePfn] and the half of [co_eventloop]
      that fills the active list, over the lists, the wheel and the interest
      list of the kernel.
    - [Scheduler]: the composition of these: any coroutines that call [poll], the
      loop that resumes them, and the abstract scheduler that it implements.
    - [Hook]: the functions that replace system calls, as programs of system
      calls ([prog]) whose replies are given by a system [step].
    - [CoEnv]: the environment variables that each coroutine has for itself.
    - [Specific] (co_routine_specific.h, co_hook_sys_call.cpp): the objects that
      each coroutine has for itself, and [gethostbyname] over one of them.
    - [KQueue] (co_epoll.cpp, co_epoll.h): epoll for systems that have kqueue.
    - [Closure] (co_closure.h): the macros that count and visit their arguments,
      and the types and values of the classes that they generate.
    - [CoLoop]: [co_eventloop] as a whole, over the iterations of [Scheduler].
    - The examples: [EchoServer] (example_echosvr.cpp) and [EchoClient]
      (example_echocli.cpp), the coroutines of a process as transition systems;
      [ExamplePoll] (example_poll.cpp), over any [poll]; [ExampleCond]
      (example_cond.cpp), over any [CondOps]; [ExampleSetenv] (example_setenv.cpp),
      over [CoEnv].

    The server:
    - [CoroutinePool] (CoroutinePool.cpp): the task queue, the workers and [Run],
      over any [CondOps]; handlers are resumptions.
    - [Http] (Httpdata.cpp): parsing a request and building the response.
    - [Io] (otherFun.cpp, channel.cpp): the loops around [read] and [write].
    - [Server] (Epoll.cpp, channel.cpp, Httpdata.cpp, EventLoopThreadPool.cpp):
      the registry of a thread's connections with the kernel's copy of it and the
      open descriptors, [handle_event], and the dispatch to the worker threads.
    - [EventLoop] (Eventloop.cpp, main.cpp): an iteration of the loops, and [main].
    - [TimeRound] (TimeRound.h, TimeRoundItem.h): the wheel of seconds that closes
      idle connections.
    - [LogFile] (Log.h, Log.cpp, LogFile.cpp): the message buffer, and the threads
      of the log as a transition system; [LogLine] (Log.h, Log.cpp): what a
      statement [LOG << ...] hands to the log.
    - [Task] (Task.cpp, ThreadPool.cpp): the queue of tasks and the threads that
      take them, as a transition system too.

    [EventLoop] composes [Server] with [CoroutinePool], [Server] composes [Http]
    with [Io], and [CoroutinePool] runs on [CoCond], hence on [Timeout] and
    [LinkList].  [Hook] relies on [Poll] through the system call [CPoll] only:
    a wait is one step that some time later returns the events.

    ** Conventions

    An operation that the code would carry out with a [NULL] or dangling
    pointer, an index outside an array or a failed assertion returns [None].
    So "[= Some]" in a theorem says that this does not happen.  Integers are of
    type [Z], with [s32], [u64], ... where the code narrows them.  What system
    calls return is an argument: a list of results ([Io], [Server]), a stepping
    function ([Hook]), or the list of reported events ([Poll], [Scheduler],
    [EventLoop], [KQueue]); the resolver behind [gethostbyname] is a function of
    the size of its buffer.  The functions of the C library that the code hands
    names to are parameters of [CoEnv], except for [qsort], a merge sort, and [bsearch],
    a binary search; files and directories are the record [os] of [Http].  What is
    found at a pointer to a temporary that is gone is an argument, too ([LogLine]).

    ** Theorems

    - C1 to C4: the lists refine sequences under any run of operations; the wheel
      files and expires items exactly, up to 2^31 ms without use; what its [int]s do
      to it after that.
    - C5, C6, C15: contexts survive a switch and coroutines start in their function,
      on x86-64 and on i386.
    - C7, C9: the contents of a shared stack are restored, resume and yield leave
      the call stack in bounds exactly up to 128 coroutines.
    - C11, C31: the emulation of epoll keeps the interest list of an epoll, also
      when the kernel refuses a filter, which may leave another one dangling, and
      reports the events of each descriptor together.
    - C12: the event loop refines the abstract scheduler, for any coroutines and any
      number of iterations, and no call of [poll] outlives its time limit.
    - C13: [gethostbyname] ends with the resolver's answer, however large.
    - C16: the types and values of the members of a closure.
    - C17: [Run] ends with every task started once in order and finished.
    - C18, C24: no task is lost or overtaken in any interleaving, and every task
      that is put gets handled.
    - C19: the life of a coroutine from [co_create] to its end.
    - C20 to C22: requests are parsed back, responses are framed by their length
      field; the length from which [/hello] overflows its buffer.
    - C23, C25: the loops of input and output for every sequence of results.
    - C26 to C30, C32: a request is served, no handler damages the registry or another
      connection, connections reach their worker, an iteration with coroutines
      equals one without, with or without it ends and serves what is reported;
      every way in which [main] starts or ends.
    - C8, C33, C34: a hooked [connect] on every branch; hooked writes send a prefix,
      or all; the life of a hooked socket.
    - C35: the names of the private environment are sorted as its binary search
      needs it, and it is a finite map of each coroutine.
    - C36: an idle connection is closed at the right move of the wheel; no node of
      the wheel is lost or deleted twice.
    - C10: [poll] registers its descriptors and waits.
    - C38: a line of the log begins with its time and has the pieces that fit, with
      whatever the memory of a temporary holds for its numbers.
    - C39, C40: no log message is lost or overtaken in any interleaving, and the
      threads of the log never block each other for ever.
    - C14: the echo server keeps its tasks and connections in order and sends back
      what it receives, as long as its writes are complete.
    - C37: the polling example ends and closes its descriptors, but takes the wrong
      ones for ready.
    - Besides, of the examples: the counters of the echo client leave out one pass for
      each line they print, and it closes its sockets ([echo_client]); the consumer
      misses no task and no signal ([producer_consumer]); the three routines read
      their own values back ([routines_print_their_own]).

    ** Fuel

    The fuel of [co_cond_broadcast], and of [drain], [co_eventloop], [run_loop] and
    [Run] in [CoroutinePool], bounds loops that the code leaves unbounded;
    [co_cond_broadcast_correct] and C17 state from which fuel on there is a result.
    The loops of [Io] and [write_rest] consume the results of the system calls or
    send at least one byte in each round.  [work] and [task_work] bound the number
    of steps of the log and of the task threads.  The fuel of [iterate] bounds the
    coroutines that one iteration resumes: one more than the pending calls is
    enough (C12).  [poll_loop] needs one round more than there are descriptors
    (C37), and an iteration of [ExampleCond] four steps.  That of [resolve_loop]
    bounds the times the buffer is doubled (C13).  The other recursions are on the
    data.

    ** Not modelled

    - The programs that only show one call of libco (example_specific, example_copystack,
      example_thread, example_closure), and what CMake left in libco/build.  Of the
      other examples, the sockets they make and [fork].
    - [FreeEpoll] and [FreeTimeout], which nothing calls; [GetTickMS], whose value is
      an argument of the operations that read the time.
    - Signals; memory that only [free] sees.
    - Creation of threads and sockets: the model starts after it.  The event loops
      are modelled one thread at a time; what threads share is the counter of an
      event descriptor, the wheel of seconds, whose operations hold its mutex,
      and the log.
    - Log messages about the program's own progress on standard output.

    This file holds the conventions and the lemmas that the others share. *)

From stdpp Require Export prelude gmap list strings sorting relations.
From Stdlib Require Export ZArith Lia.

(** ** Pointers

    An address is an integer, and a C pointer is an address or [NULL]. *)

Abbreviation addr := Z (only parsing).
Abbreviation ptr := (option Z).
Abbreviation NULL := (@None Z).

(** ** Machine integers

    A C integer is a [Z]; these functions write out the conversion to an
    unsigned or signed type of [w] bits. *)

Definition wrapu (w z : Z) : Z := (z mod 2 ^ w)%Z.

Definition wraps (w z : Z) : Z := ((z + 2 ^ (w - 1)) mod 2 ^ w - 2 ^ (w - 1))%Z.

Declare Scope cint_scope.
Delimit Scope cint_scope with cint.
Notation "'u64' z" := (wrapu 64 z) (at level 10) : cint_scope.
Notation "'u32' z" := (wrapu 32 z) (at level 10) : cint_scope.
Notation "'s64' z" := (wraps 64 z) (at level 10) : cint_scope.
Notation "'s32' z" := (wraps 32 z) (at level 10) : cint_scope.

Create HintDb cserver discriminated.
Create Rewrite HintDb cserver.

(** ** Lemmas on machine integers *)

Lemma wrapu_id (w z : Z) : (0 ≤ z < 2 ^ w)%Z → wrapu w z = z.
Proof. intros. unfold wrapu. by rewrite Z.mod_small. Qed.

Lemma wrapu_range (w z : Z) : (0 ≤ w)%Z → (0 ≤ wrapu w z < 2 ^ w)%Z.
Proof. intros. apply Z.mod_pos_bound. by apply Z.pow_pos_nonneg. Qed.

Lemma pow2_double (w : Z) : (0 < w)%Z → (2 ^ w = 2 * 2 ^ (w - 1))%Z.
Proof.
  intros. rewrite <-(Z.pow_succ_r 2 (w - 1)) by lia. f_equal. lia.
Qed.

Lemma wraps_id (w z : Z) :
  (0 < w)%Z → (- 2 ^ (w - 1) ≤ z < 2 ^ (w - 1))%Z → wraps w z = z.
Proof.
  intros Hw Hz. unfold wraps. pose proof (pow2_double w Hw).
  rewrite Z.mod_small; lia.
Qed.

Lemma wraps_range (w z : Z) :
  (0 < w)%Z → (- 2 ^ (w - 1) ≤ wraps w z < 2 ^ (w - 1))%Z.
Proof.
  intros Hw. unfold wraps. pose proof (pow2_double w Hw).
  pose proof (Z.mod_pos_bound (z + 2 ^ (w - 1)) (2 ^ w)).
  assert (0 < 2 ^ (w - 1))%Z by (apply Z.pow_pos_nonneg; lia). lia.
Qed.

(** ** Lemmas on lists *)

Definition hd_or {A} (d : option A) (xs : list A) : option A :=
  match xs with [] => d | x :: _ => Some x end.

Definition last_or {A} (d : option A) (xs : list A) : option A :=
  match last xs with None => d | Some x => Some x end.

Lemma hd_or_app {A} (d : option A) xs ys :
  hd_or d (xs ++ ys) = hd_or (hd_or d ys) xs.
Proof. by destruct xs. Qed.

Lemma last_or_app {A} (d : option A) xs ys :
  last_or d (xs ++ ys) = last_or (last_or d xs) ys.
Proof.
  unfold last_or. rewrite last_app. by destruct (last ys).
Qed.

Lemma last_or_snoc {A} (d : option A) xs x : last_or d (xs ++ [x]) = Some x.
Proof. unfold last_or. by rewrite last_snoc. Qed.

Lemma last_or_cons {A} (d : option A) x xs :
  last_or d (x :: xs) = last_or (Some x) xs.
Proof. exact (last_or_app d [x] xs). Qed.

Lemma last_or_nil {A} (d : option A) : last_or d [] = d.
Proof. done. Qed.

Lemma last_or_elem {A} (a y : A) xs : last_or (Some a) xs = Some y → y ∈ a :: xs.
Proof.
  destruct xs as [|b xs _] using rev_ind.
  - rewrite last_or_nil. intros [= ->]. left.
  - rewrite last_or_snoc. intros [= ->]. set_solver.
Qed.

Lemma hd_or_elem {A} (a y : A) xs : hd_or (Some a) xs = Some y → y ∈ xs ++ [a].
Proof. destruct xs; simpl; intros [= ->]; set_solver. Qed.

Lemma hd_or_some {A} (d d' : option A) x xs : hd_or d (xs ++ [x]) = hd_or d' (xs ++ [x]).
Proof. by destruct xs. Qed.

Lemma filter_ne_notin `{EqDecision A} (x : A) (xs : list A) :
  x ∉ xs → filter (λ y, y ≠ x) xs = xs.
Proof.
  induction xs as [|y xs IH]; [done|]. intros Hx.
  rewrite filter_cons_True by set_solver. f_equal. apply IH. set_solver.
Qed.

Lemma filter_ne_middle `{EqDecision A} (x : A) (xs ys : list A) :
  NoDup (xs ++ x :: ys) → filter (λ y, y ≠ x) (xs ++ x :: ys) = xs ++ ys.
Proof.
  intros (Hxs & Hn & Hys)%NoDup_app. apply NoDup_cons in Hys as [Hx _].
  rewrite filter_app, filter_cons_False by naive_solver.
  rewrite !filter_ne_notin; [done| |]; set_solver.
Qed.

Lemma filter_all {A} (P : A → Prop) `{∀ x, Decision (P x)} (xs : list A) :
  (∀ x, x ∈ xs → P x) → filter P xs = xs.
Proof.
  induction xs as [|x xs IH]; intros Hx; [done|].
  rewrite filter_cons_True by (apply Hx; left). f_equal. apply IH. intros y Hy. apply Hx. by right.
Qed.

Lemma filter_ext_in {A} (P Q : A → Prop) `{∀ x, Decision (P x)} `{∀ x, Decision (Q x)} (xs : list A) :
  (∀ x, x ∈ xs → P x ↔ Q x) → filter P xs = filter Q xs.
Proof.
  induction xs as [|x xs IH]; intros Hx; [done|].
  assert (filter P xs = filter Q xs) as Heq by (apply IH; intros y Hy; apply Hx; by right).
  pose proof (Hx x (list_elem_of_here x xs)). destruct (decide (P x)).
  - rewrite !filter_cons_True by naive_solver. by f_equal.
  - rewrite !filter_cons_False by naive_solver. done.
Qed.

Lemma filter_filter {A} (P Q : A → Prop) `{∀ x, Decision (P x)} `{∀ x, Decision (Q x)} (xs : list A) :
  filter P (filter Q xs) = filter (λ x, P x ∧ Q x) xs.
Proof.
  induction xs as [|x xs IH]; [done|]. destruct (decide (Q x)).
  - rewrite (filter_cons_True Q) by done. destruct (decide (P x)).
    + rewrite !filter_cons_True by done. by f_equal.
    + rewrite !filter_cons_False by naive_solver. done.
  - rewrite !(filter_cons_False _ x) by naive_solver. done.
Qed.

Lemma sum_list_app (xs ys : list nat) : sum_list (xs ++ ys) = (sum_list xs + sum_list ys)%nat.
Proof. induction xs as [|x xs IH]; simpl; [done|]. rewrite IH. lia. Qed.

Lemma sum_list_insert {A} (f : A → nat) (l : list A) i x y : l !! i = Some x →
  (sum_list (f <$> <[i := y]> l) + f x = sum_list (f <$> l) + f y)%nat.
Proof.
  revert i. induction l as [|z l IH]; intros [|i] Hi; simplify_eq/=; [lia|].
  rewrite <-!Nat.add_assoc. f_equal. exact (IH i Hi).
Qed.

Lemma sum_list_fmap_le {A} (f : A → nat) (g : A → A) (n : nat) (l : list A) : (∀ x, (f (g x) ≤ f x + n)%nat) →
  (sum_list (f <$> (g <$> l)) ≤ sum_list (f <$> l) + n * length l)%nat.
Proof.
  assert (∀ a l, sum_list (a :: l) = a + sum_list l)%nat as Hc by done.
  intros Hg. induction l as [|x l IH]; [simpl; lia|]. rewrite !fmap_cons, !Hc, length_cons.
  specialize (Hg x). rewrite Nat.mul_succ_r. lia.
Qed.

Lemma NoDup_middle {A} (xs : list A) x ys : NoDup (xs ++ x :: ys) → NoDup (xs ++ ys).
Proof.
  intros Hn. eapply sublist_NoDup; [exact Hn|].
  apply sublist_app; [done|]. by apply sublist_cons.
Qed.

(** ** Step relations with a measure *)

Section measure.
Context {A : Type} (step : relation A) (good : A → Prop) (work : A → nat).
Context (step_good : ∀ x y, good x → step x y → good y).
Context (step_less : ∀ x y, good x → step x y → (work y < work x)%nat).

Lemma nsteps_work n x y : good x → nsteps step n x y → (n + work y ≤ work x)%nat.
Proof.
  intros Hg Hs. induction Hs as [x|n x1 x2 x3 Hs _ IH]; [done|].
  pose proof (step_less x1 x2 Hg Hs). specialize (IH (step_good _ _ Hg Hs)). lia.
Qed.

Lemma reaches_end (stuck : A → Prop) x :
  (∀ x, (∃ y, step x y) ∨ stuck x) → good x → ∃ y, rtc step x y ∧ stuck y.
Proof.
  intros Hor. remember (work x) as n eqn:Hn. revert x Hn.
  induction (lt_wf n) as [n _ IH]. intros x -> Hg. destruct (Hor x) as [(y & Hs)|Hs]; [|by exists x].
  destruct (IH (work y) (step_less x y Hg Hs) y eq_refl (step_good _ _ Hg Hs)) as (z & H1 & H2).
  exists z. split; [by eapply rtc_l|done].
Qed.
End measure.

(** ** Evaluation

    For a closed term [x], [succeeds] proves [x = Some (default d x)]. *)

Definition some_b {A} (x : option A) : bool := match x with Some _ => true | None => false end.

Lemma some_b_default {A} (d : A) (x : option A) : some_b x = true → x = Some (default d x).
Proof. by destruct x. Qed.

Definition such_b {A} (f : A → bool) (x : option A) : bool :=
  match x with Some y => f y | None => false end.

Lemma such_b_some {A} (f : A → bool) (x : option A) :
  such_b f x = true → ∃ y, x = Some y ∧ f y = true.
Proof. destruct x; [by eauto|done]. Qed.

Ltac evaluates := vm_compute; reflexivity.
Ltac succeeds := apply some_b_default; evaluates.
Ltac decides := match goal with |- ?P => refine (proj1 (bool_decide_eq_true P) _); evaluates end.

#[export] Hint Rewrite @hd_or_app @last_or_nil @last_or_app @last_or_snoc : cserver.
#[export] Hint Resolve wrapu_range wraps_range : cserver.
