(* ===== verification/LinkList.v ===== *)
(** * Intrusive doubly linked lists (libco/co_routine.cpp)

    The templates [RemoveFromLink], [AddTail], [PopHead] and [Join] of
    co_routine.cpp over an explicit store of nodes and list headers, the
    abstract lists they implement, and the interface [LinkOps]/[LinkLaws]
    through which the time wheel, the condition variables and the event loop
    use them.  A pointer that is [NULL] or dangling makes an operation
    return [None], so that "[Some]" in a theorem says that the code
    dereferences only live pointers and passes its assertion. *)

From S2P Require Import Prelude.

(** ** The store

    [node] holds the three link fields of [stTimeoutItem_t] and of
    [stCoCondItem_t]; their payload lives with the clients. *)

Record node := Node { pPrev : ptr; pNext : ptr; pLink : ptr }.

Record link := Link { l_head : ptr; l_tail : ptr }.

Record heap := Heap { nodes : gmap Z node; links : gmap Z link }.

Definition set_pPrev (v : ptr) (n : node) : node := Node v (pNext n) (pLink n).
Definition set_pNext (v : ptr) (n : node) : node := Node (pPrev n) v (pLink n).
Definition set_pLink (v : ptr) (n : node) : node := Node (pPrev n) (pNext n) v.
Definition set_head (v : ptr) (l : link) : link := Link v (l_tail l).
Definition set_tail (v : ptr) (l : link) : link := Link (l_head l) v.

(** A store through the pointer [a]. *)
Definition upd_node (a : addr) (f : node → node) (h : heap) : option heap :=
  n ← nodes h !! a; Some (Heap (<[a := f n]> (nodes h)) (links h)).

Definition upd_link (a : addr) (f : link → link) (h : heap) : option heap :=
  l ← links h !! a; Some (Heap (nodes h) (<[a := f l]> (links h))).

(** A store through a pointer that the code has tested against [NULL]. *)
Definition upd_if (p : ptr) (f : node → node) (h : heap) : option heap :=
  match p with Some a => upd_node a f h | None => Some h end.

Definition free_node : node := Node NULL NULL NULL.
Definition empty_link : link := Link NULL NULL.

(** ** The operations *)

Definition RemoveFromLink (ap : addr) (h : heap) : option heap :=
  n ← nodes h !! ap;
  match pLink n with
  | None => Some h
  | Some lst =>
      l ← links h !! lst;
      guard (is_Some (l_head l) ∧ is_Some (l_tail l));;
      h ← (if decide (l_head l = Some ap)
           then h ← upd_link lst (set_head (pNext n)) h;
                upd_if (pNext n) (set_pPrev NULL) h
           else upd_if (pPrev n) (set_pNext (pNext n)) h);
      l ← links h !! lst;
      n ← nodes h !! ap;
      h ← (if decide (l_tail l = Some ap)
           then h ← upd_link lst (set_tail (pPrev n)) h;
                upd_if (pPrev n) (set_pNext NULL) h
           else nx ← pNext n; upd_node nx (set_pPrev (pPrev n)) h);
      h ← upd_node ap (λ n, set_pPrev NULL (set_pNext NULL n)) h;
      upd_node ap (set_pLink NULL) h
  end.

Definition AddTail (apLink ap : addr) (h : heap) : option heap :=
  n ← nodes h !! ap;
  match pLink n with
  | Some _ => Some h
  | None =>
      l ← links h !! apLink;
      h ← match l_tail l with
          | Some t =>
              h ← upd_node t (set_pNext (Some ap)) h;
              h ← upd_node ap (λ n, set_pPrev (Some t) (set_pNext NULL n)) h;
              upd_link apLink (set_tail (Some ap)) h
          | None =>
              h ← upd_link apLink (λ _, Link (Some ap) (Some ap)) h;
              upd_node ap (λ n, set_pNext NULL (set_pPrev NULL n)) h
          end;
      upd_node ap (set_pLink (Some apLink)) h
  end.

Definition PopHead (apLink : addr) (h : heap) : option heap :=
  l ← links h !! apLink;
  match l_head l with
  | None => Some h
  | Some lp =>
      n ← nodes h !! lp;
      h ← (if decide (l_head l = l_tail l)
           then upd_link apLink (λ _, Link NULL NULL) h
           else upd_link apLink (set_head (pNext n)) h);
      h ← upd_node lp (λ _, Node NULL NULL NULL) h;
      l ← links h !! apLink;
      upd_if (l_head l) (set_pPrev NULL) h
  end.

(** The loop of [Join] that gives every node of the other list its new
    owner; the fuel bounds the number of nodes it may visit. *)
Fixpoint relink (fuel : nat) (lp : ptr) (apLink : addr) (h : heap) : option heap :=
  match lp, fuel with
  | None, _ => Some h
  | Some _, O => None
  | Some a, S fuel =>
      h ← upd_node a (set_pLink (Some apLink)) h;
      n ← nodes h !! a;
      relink fuel (pNext n) apLink h
  end.

Definition Join (apLink apOther : addr) (h : heap) : option heap :=
  o ← links h !! apOther;
  match l_head o with
  | None => Some h
  | Some lp =>
      h ← relink (size (nodes h)) (Some lp) apLink h;
      l ← links h !! apLink;
      h ← match l_tail l with
          | Some t =>
              h ← upd_node t (set_pNext (Some lp)) h;
              h ← upd_node lp (set_pPrev (Some t)) h;
              upd_link apLink (set_tail (l_tail o)) h
          | None => upd_link apLink (λ _, Link (l_head o) (l_tail o)) h
          end;
      upd_link apOther (λ _, Link NULL NULL) h
  end.

(** [calloc] of a node and of a list header at a fresh address. *)
Definition NewNode (a : addr) (h : heap) : option heap :=
  guard (nodes h !! a = None);; Some (Heap (<[a := free_node]> (nodes h)) (links h)).

Definition NewLink (a : addr) (h : heap) : option heap :=
  guard (links h !! a = None);; Some (Heap (nodes h) (<[a := empty_link]> (links h))).

(** [lst->head] and [ap->pNext]. *)
Definition link_head (l : addr) (h : heap) : option ptr := l_head <$> links h !! l.
Definition node_next (a : addr) (h : heap) : option ptr := pNext <$> nodes h !! a.

(** ** The abstract lists

    What the operations promise: a finite map from list headers to the
    sequences of nodes they hold, and the set of allocated nodes. *)

Record lists := Lists { ls : gmap Z (list Z); its : gset Z }.

Definition linked (s : lists) (x : addr) : Prop :=
  map_Exists (λ _ xs, x ∈ xs) (ls s).

#[export] Instance linked_dec s x : Decision (linked s x).
Proof. unfold linked. apply _. Defined.

Definition remove_spec (x : addr) (s : lists) : lists :=
  Lists (filter (λ y, y ≠ x) <$> ls s) (its s).

Definition add_tail_spec (l x : addr) (s : lists) : lists :=
  if decide (linked s x) then s else Lists (alter (λ xs, xs ++ [x]) l (ls s)) (its s).

Definition pop_head_spec (l : addr) (s : lists) : lists :=
  Lists (alter tail l (ls s)) (its s).

Definition join_spec (l o : addr) (s : lists) : lists :=
  let ys := default [] (ls s !! o) in
  Lists (<[o := []]> (alter (λ xs, xs ++ ys) l (ls s))) (its s).

Definition new_node_spec (x : addr) (s : lists) : lists := Lists (ls s) ({[x]} ∪ its s).
Definition new_link_spec (l : addr) (s : lists) : lists := Lists (<[l := []]> (ls s)) (its s).

(** ** Representation

    [seg ns l p xs n]: the nodes [xs] form a segment of the list with header
    [l], between the nodes [p] and [n]. *)

Fixpoint seg (ns : gmap Z node) (l : addr) (p : ptr) (xs : list Z) (n : ptr) : Prop :=
  match xs with
  | [] => True
  | x :: xs' => ns !! x = Some (Node p (hd_or n xs') (Some l)) ∧ seg ns l (Some x) xs' n
  end.

Definition is_list (h : heap) (l : addr) (xs : list Z) : Prop :=
  links h !! l = Some (Link (hd_or None xs) (last_or None xs)) ∧
  seg (nodes h) l None xs None ∧ NoDup xs.

(** The store [h] holds exactly the abstract lists [s]. *)
Record represents (h : heap) (s : lists) : Prop := {
  rep_links : dom (links h) = dom (ls s);
  rep_nodes : dom (nodes h) = its s;
  rep_lists : ∀ l xs, ls s !! l = Some xs → is_list h l xs;
  rep_free : ∀ x, x ∈ its s → ¬ linked s x → nodes h !! x = Some free_node;
}.

(** ** Sequences of operations *)

Inductive cmd :=
  | CRemove (x : addr)
  | CAddTail (l x : addr)
  | CPopHead (l : addr)
  | CJoin (l o : addr)
  | CNewNode (x : addr)
  | CNewLink (l : addr).

Definition run_cmd (c : cmd) (h : heap) : option heap :=
  match c with
  | CRemove x => RemoveFromLink x h
  | CAddTail l x => AddTail l x h
  | CPopHead l => PopHead l h
  | CJoin l o => Join l o h
  | CNewNode x => NewNode x h
  | CNewLink l => NewLink l h
  end.

Definition spec_cmd (c : cmd) (s : lists) : lists :=
  match c with
  | CRemove x => remove_spec x s
  | CAddTail l x => add_tail_spec l x s
  | CPopHead l => pop_head_spec l s
  | CJoin l o => join_spec l o s
  | CNewNode x => new_node_spec x s
  | CNewLink l => new_link_spec l s
  end.

(** The pointers a caller may pass. *)
Definition ok_cmd (c : cmd) (s : lists) : Prop :=
  match c with
  | CRemove x => x ∈ its s
  | CAddTail l x => l ∈ dom (ls s) ∧ x ∈ its s
  | CPopHead l => l ∈ dom (ls s)
  | CJoin l o => l ∈ dom (ls s) ∧ o ∈ dom (ls s) ∧ l ≠ o
  | CNewNode x => x ∉ its s
  | CNewLink l => l ∉ dom (ls s)
  end.

Fixpoint run_cmds (cs : list cmd) (h : heap) : option heap :=
  match cs with [] => Some h | c :: cs => h ← run_cmd c h; run_cmds cs h end.

Fixpoint spec_cmds (cs : list cmd) (s : lists) : lists :=
  match cs with [] => s | c :: cs => spec_cmds cs (spec_cmd c s) end.

Fixpoint ok_cmds (cs : list cmd) (s : lists) : Prop :=
  match cs with [] => True | c :: cs => ok_cmd c s ∧ ok_cmds cs (spec_cmd c s) end.

Definition empty_heap : heap := Heap ∅ ∅.
Definition empty_lists : lists := Lists ∅ ∅.

(** [touches h h' l T]: [h'] differs from [h] in the header [l] and in the
    nodes [T] only. *)
Definition touches (h h' : heap) (l : addr) (T : list Z) : Prop :=
  (∀ l', l' ≠ l → links h' !! l' = links h !! l') ∧
  (∀ y, y ∉ T → nodes h' !! y = nodes h !! y) ∧
  dom (nodes h') = dom (nodes h).

(** A concrete sequence of operations. *)
Definition demo_cmds : list cmd :=
  [CNewLink 100; CNewLink 200; CNewNode 1; CNewNode 2; CNewNode 3; CNewNode 4;
   CAddTail 100 1; CAddTail 100 2; CAddTail 200 3; CAddTail 200 4; CJoin 100 200;
   CRemove 2; CPopHead 100; CAddTail 200 2]%Z.

(** ** The interface *)

Class LinkOps (H : Type) := {
  op_remove : addr → H → option H;
  op_add_tail : addr → addr → H → option H;
  op_pop_head : addr → H → option H;
  op_join : addr → addr → H → option H;
  op_new_node : addr → H → option H;
  op_new_link : addr → H → option H;
  op_head : addr → H → option ptr;
  op_next : addr → H → option ptr;
}.

(** The promises: each operation is defined where its pointers are live, and
    simulates its abstract counterpart. *)
Class LinkLaws (H : Type) `{LinkOps H} := {
  rep : H → lists → Prop;
  rep_its : ∀ h s l xs x, rep h s → ls s !! l = Some xs → x ∈ xs → x ∈ its s;
  rep_nodup : ∀ h s l xs, rep h s → ls s !! l = Some xs → NoDup xs;
  rep_disj : ∀ h s l1 l2 xs1 xs2 x, rep h s → ls s !! l1 = Some xs1 →
    ls s !! l2 = Some xs2 → x ∈ xs1 → x ∈ xs2 → l1 = l2;
  op_head_law : ∀ h s l xs, rep h s → ls s !! l = Some xs →
    op_head l h = Some (hd_or None xs);
  op_next_law : ∀ h s l xs1 x xs2, rep h s → ls s !! l = Some (xs1 ++ x :: xs2) →
    op_next x h = Some (hd_or None xs2);
  op_remove_law : ∀ h s x, rep h s → x ∈ its s →
    ∃ h', op_remove x h = Some h' ∧ rep h' (remove_spec x s);
  op_add_tail_law : ∀ h s l x, rep h s → l ∈ dom (ls s) → x ∈ its s →
    ∃ h', op_add_tail l x h = Some h' ∧ rep h' (add_tail_spec l x s);
  op_pop_head_law : ∀ h s l, rep h s → l ∈ dom (ls s) →
    ∃ h', op_pop_head l h = Some h' ∧ rep h' (pop_head_spec l s);
  op_join_law : ∀ h s l o, rep h s → l ∈ dom (ls s) → o ∈ dom (ls s) → l ≠ o →
    ∃ h', op_join l o h = Some h' ∧ rep h' (join_spec l o s);
  op_new_node_law : ∀ h s x, rep h s → x ∉ its s →
    ∃ h', op_new_node x h = Some h' ∧ rep h' (new_node_spec x s);
  op_new_link_law : ∀ h s l, rep h s → l ∉ dom (ls s) →
    ∃ h', op_new_link l h = Some h' ∧ rep h' (new_link_spec l s);
}.

#[export] Instance heap_ops : LinkOps heap := {
  op_remove := RemoveFromLink;
  op_add_tail := AddTail;
  op_pop_head := PopHead;
  op_join := Join;
  op_new_node := NewNode;
  op_new_link := NewLink;
  op_head := link_head;
  op_next := node_next;
}.

(** ** Segments *)

Lemma seg_app ns l p xs ys n :
  seg ns l p (xs ++ ys) n ↔
  seg ns l p xs (hd_or n ys) ∧ seg ns l (last_or p xs) ys n.
Proof.
  revert p. induction xs as [|x xs IH]; intros p; simpl.
  - unfold last_or; simpl. naive_solver.
  - rewrite IH, hd_or_app, last_or_cons. naive_solver.
Qed.

Lemma seg_frame ns ns' l p xs n :
  (∀ x, x ∈ xs → ns' !! x = ns !! x) → seg ns l p xs n → seg ns' l p xs n.
Proof.
  revert p. induction xs as [|x xs IH]; intros p Hf; simpl; [done|].
  intros [Hx Hs]. split; [rewrite Hf; set_solver|]. apply IH; set_solver.
Qed.

Lemma seg_insert ns l p xs n x v :
  x ∉ xs → seg ns l p xs n → seg (<[x := v]> ns) l p xs n.
Proof.
  intros Hx. apply seg_frame. intros y Hy. apply lookup_insert_ne. set_solver.
Qed.

Lemma seg_cons ns l p x xs n :
  seg ns l p (x :: xs) n ↔
  ns !! x = Some (Node p (hd_or n xs) (Some l)) ∧ seg ns l (Some x) xs n.
Proof. done. Qed.

Lemma seg_snoc ns l p xs x n :
  seg ns l p (xs ++ [x]) n ↔
  seg ns l p xs (Some x) ∧ ns !! x = Some (Node (last_or p xs) n (Some l)).
Proof. rewrite seg_app. simpl. naive_solver. Qed.

Lemma seg_owner ns l p xs n x :
  seg ns l p xs n → x ∈ xs → ∃ nd, ns !! x = Some nd ∧ pLink nd = Some l.
Proof.
  revert p. induction xs as [|y xs IH]; intros p; simpl; [set_solver|].
  intros [Hy Hs] [->|Hx]%elem_of_cons; eauto.
Qed.

Lemma seg_middle ns l xs x ys :
  seg ns l None (xs ++ x :: ys) None →
  ns !! x = Some (Node (last_or None xs) (hd_or None ys) (Some l)).
Proof. rewrite seg_app. simpl. naive_solver. Qed.

#[export] Hint Resolve seg_insert : cserver.

(** ** One list at a time *)

Lemma is_list_owner h l xs x :
  is_list h l xs → x ∈ xs → ∃ nd, nodes h !! x = Some nd ∧ pLink nd = Some l.
Proof. intros (_ & Hs & _). by eapply seg_owner. Qed.

Lemma is_list_frame h h' l xs :
  links h' !! l = links h !! l → (∀ x, x ∈ xs → nodes h' !! x = nodes h !! x) →
  is_list h l xs → is_list h' l xs.
Proof.
  intros Hl Hn (H1 & H2 & H3). split; [congruence|]. split; [|done].
  by eapply seg_frame.
Qed.

Lemma linked_spec s x : linked s x ↔ ∃ l xs, ls s !! l = Some xs ∧ x ∈ xs.
Proof. unfold linked, map_Exists. naive_solver. Qed.

Lemma represents_disj h s l1 l2 xs1 xs2 x :
  represents h s → ls s !! l1 = Some xs1 → ls s !! l2 = Some xs2 →
  x ∈ xs1 → x ∈ xs2 → l1 = l2.
Proof.
  intros Hr H1 H2 Hx1 Hx2.
  destruct (is_list_owner h l1 xs1 x) as (n1 & ? & ?); [by apply Hr|done|].
  destruct (is_list_owner h l2 xs2 x) as (n2 & ? & ?); [by apply Hr|done|].
  congruence.
Qed.

Lemma represents_its h s l xs x :
  represents h s → ls s !! l = Some xs → x ∈ xs → x ∈ its s.
Proof.
  intros Hr H1 Hx. rewrite <-(rep_nodes _ _ Hr).
  destruct (is_list_owner h l xs x) as (n1 & ? & ?); [by apply Hr|done|].
  apply elem_of_dom. eauto.
Qed.

Lemma represents_unlinked h s x n :
  represents h s → nodes h !! x = Some n → pLink n = None → ¬ linked s x.
Proof.
  intros Hr Hx Hp (l & xs & Hl & Hin)%linked_spec.
  destruct (is_list_owner h l xs x) as (n1 & ? & ?); [by apply Hr|done|].
  congruence.
Qed.

(** A store that represents [s] is changed into one that represents [m']:
    outside the nodes [T] nothing moved, and a list of [m'] is either rebuilt
    or one of [s] that avoids [T]. *)
Lemma represents_update h h' s m' (T : list Z) :
  represents h s → dom (links h') = dom m' → dom (nodes h') = dom (nodes h) →
  (∀ y, y ∉ T → nodes h' !! y = nodes h !! y) →
  (∀ k zs, m' !! k = Some zs → is_list h' k zs ∨
     ls s !! k = Some zs ∧ links h' !! k = links h !! k ∧ ∀ y, y ∈ zs → y ∉ T) →
  (∀ y, y ∈ T → ¬ linked (Lists m' (its s)) y → nodes h' !! y = Some free_node) →
  (∀ y, y ∉ T → linked s y → linked (Lists m' (its s)) y) →
  represents h' (Lists m' (its s)).
Proof.
  intros Hr Hdl Hdn Hn Hls Hfree Hcov. split; simpl.
  - done.
  - by rewrite Hdn, (rep_nodes _ _ Hr).
  - intros k zs [?|(Hk & Hlk & Hz)]%Hls; [done|].
    eapply is_list_frame; [exact Hlk| |by apply Hr]. naive_solver.
  - intros x Hx Hnl. destruct (decide (x ∈ T)) as [HxT|HxT]; [by apply Hfree|].
    rewrite Hn by done. apply Hr; naive_solver.
Qed.

Lemma linked_insert s l xs x :
  x ∈ xs → linked (Lists (<[l := xs]> (ls s)) (its s)) x.
Proof. intros Hx. apply linked_spec. exists l, xs. simpl. by rewrite lookup_insert_eq. Qed.

Lemma represents_change h h' s l xs xs' T :
  represents h s → ls s !! l = Some xs → touches h h' l T →
  (∀ y, y ∈ T → y ∈ xs ∨ ¬ linked s y) →
  is_list h' l xs' →
  (∀ y, y ∈ T → y ∉ xs' → nodes h' !! y = Some free_node) →
  (∀ y, y ∈ xs → y ∈ T ∨ y ∈ xs') →
  represents h' (Lists (<[l := xs']> (ls s)) (its s)).
Proof.
  intros Hr Hl (Hlk & Hn & Hd) HT Hxs' Hfree Hcov.
  apply (represents_update h h' s _ T); [done| |done|done| | |].
  - apply set_eq. intros k. rewrite dom_insert_L, elem_of_union, elem_of_singleton.
    destruct (decide (k = l)) as [->|Hk].
    + destruct Hxs' as [Hxs' _]. rewrite elem_of_dom, Hxs'. naive_solver.
    + rewrite <-(rep_links _ _ Hr), !elem_of_dom, Hlk by done. naive_solver.
  - intros k ys. destruct (decide (k = l)) as [->|Hk].
    { rewrite lookup_insert_eq. intros [= <-]. by left. }
    rewrite lookup_insert_ne by done. intros Hys. right. split_and!; [done|by apply Hlk|].
    intros y Hy [HyT|HyT]%HT.
    + apply Hk. by eapply represents_disj.
    + apply HyT, linked_spec. eauto.
  - intros y Hy Hnl. apply Hfree; [done|]. intros ?. by apply Hnl, linked_insert.
  - intros y Hy (k & zs & Hk & Hz)%linked_spec.
    destruct (decide (k = l)) as [->|Hkl].
    + apply linked_insert. simplify_eq. naive_solver.
    + apply linked_spec. exists k, zs. simpl. by rewrite lookup_insert_ne.
Qed.

(** The stores of the operations, as equations on the tables. *)
Lemma upd_node_eq h a f n :
  nodes h !! a = Some n → upd_node a f h = Some (Heap (<[a := f n]> (nodes h)) (links h)).
Proof. intros Ha. unfold upd_node. by rewrite Ha. Qed.

Lemma upd_link_eq h a f n :
  links h !! a = Some n → upd_link a f h = Some (Heap (nodes h) (<[a := f n]> (links h))).
Proof. intros Ha. unfold upd_link. by rewrite Ha. Qed.

(** Runs the stores of an operation whose lookups are known. *)
Ltac run_stores :=
  repeat first
    [ progress simplify_map_eq
    | rewrite decide_True by (simpl; congruence)
    | rewrite decide_False by (simpl; congruence)
    | erewrite upd_node_eq by (simpl; simplify_map_eq; reflexivity)
    | erewrite upd_link_eq by (simpl; simplify_map_eq; reflexivity)
    | rewrite option_guard_True by (simpl; eauto)
    | progress simpl ].

Ltac solve_touches :=
  split; [|split]; simpl;
  [ intros; by rewrite ?lookup_insert_ne by done
  | intros; by rewrite ?lookup_insert_ne by set_solver
  | by repeat (rewrite dom_insert_lookup_L; [|simplify_map_eq; by eauto]) ].

Ltac keep_seg :=
  eapply seg_frame; [|eassumption];
  let y := fresh "y" in let Hy := fresh "Hy" in
  intros y Hy; rewrite ?lookup_insert_ne by (intros ->; done); done.

(** Closes an operation's goal but for the shape of its list. *)
Ltac finish_op :=
  eexists; split; [done|]; split; [|split; [simpl; by simplify_map_eq|solve_touches]].

Lemma RemoveFromLink_list h l xs x ys :
  is_list h l (xs ++ x :: ys) →
  ∃ h', RemoveFromLink x h = Some h' ∧ is_list h' l (xs ++ ys) ∧
    nodes h' !! x = Some free_node ∧ touches h h' l (xs ++ x :: ys).
Proof.
  intros (Hl & Hs & Hnd). pose proof (seg_middle _ _ _ _ _ Hs) as Hx.
  pose proof (NoDup_middle _ _ _ Hnd) as Hnd'.
  unfold RemoveFromLink, is_list. rewrite Hx. simpl. rewrite Hl. simpl.
  rewrite hd_or_app, last_or_app, last_or_cons in *. simpl in *.
  rewrite option_guard_True by (destruct xs; unfold last_or; destruct (last ys); simpl; eauto). simpl.
  apply NoDup_app in Hnd as (Hxs & Hdisj & [Hxys Hys]%NoDup_cons).
  apply seg_app in Hs as [Hs1 [_ Hs2]].
  destruct xs as [|a xs _] using rev_ind; destruct ys as [|b ys]; simpl in *.
  - rewrite last_or_nil in *. run_stores. finish_op.
    simpl. simplify_map_eq. done.
  - destruct Hs2 as [Hb Hs2]. rewrite ?last_or_nil, ?last_or_cons in *.
    assert (x ≠ b ∧ b ∉ ys ∧ x ∉ ys) as (?&?&?) by (apply NoDup_cons in Hys; set_solver).
    assert (last_or (Some b) ys ≠ Some x) by (intros ?%last_or_elem; set_solver).
    run_stores. rewrite ?last_or_nil. run_stores.
    finish_op.
    simpl. simplify_map_eq. split_and!; [done|done| |done]. keep_seg.
  - rewrite ?last_or_snoc, ?last_or_nil in *. apply seg_snoc in Hs1 as [Hs1 Ha].
    apply NoDup_app in Hxs as (Hxs & Hxa & _).
    assert (x ≠ a ∧ a ∉ xs ∧ x ∉ xs) as (?&?&?) by set_solver.
    assert (hd_or (Some x) (xs ++ [a]) ≠ Some x) by (rewrite hd_or_app; intros ?%hd_or_elem; set_solver).
    run_stores.
    finish_op.
    simpl. rewrite !app_nil_r, last_or_snoc, seg_snoc in *. simplify_map_eq.
      unfold set_tail; simpl. split_and!; [f_equal; f_equal; apply hd_or_some|keep_seg|done|done].
  - destruct Hs2 as [Hb Hs2]. rewrite ?last_or_snoc, ?last_or_cons in *. apply seg_snoc in Hs1 as [Hs1 Ha].
    apply NoDup_app in Hxs as (Hxs & Hxa & _).
    assert (x ≠ a ∧ a ∉ xs ∧ x ∉ xs) as (?&?&?) by set_solver.
    assert (x ≠ b ∧ b ∉ ys ∧ x ∉ ys) as (?&?&?) by (apply NoDup_cons in Hys; set_solver).
    assert (a ≠ b ∧ a ∉ ys ∧ b ∉ xs) as (?&?&?) by set_solver.
    assert (hd_or (Some x) (xs ++ [a]) ≠ Some x) by (rewrite hd_or_app; intros ?%hd_or_elem; set_solver).
    assert (last_or (Some b) ys ≠ Some x) by (intros ?%last_or_elem; set_solver).
    run_stores.
    finish_op.
    simpl. rewrite hd_or_app, last_or_app, last_or_cons, seg_app, seg_snoc, last_or_snoc. simpl. simplify_map_eq.
      unfold set_tail; rewrite hd_or_app; simpl. rewrite hd_or_app. simpl. split_and!; try done; keep_seg.
Qed.


Lemma AddTail_list h l xs x p q :
  is_list h l xs → nodes h !! x = Some (Node p q None) →
  ∃ h', AddTail l x h = Some h' ∧ is_list h' l (xs ++ [x]) ∧ touches h h' l (xs ++ [x]).
Proof.
  intros Hl Hx.
  assert (x ∉ xs) as Hxs.
  { intros (n & Hn & Ho)%(is_list_owner h l); [|done]. by simplify_eq. }
  destruct Hl as (Hl & Hs & Hnd).
  assert (NoDup (xs ++ [x])) as Hnd' by (apply NoDup_app; set_solver by auto using NoDup_singleton).
  unfold AddTail, is_list. rewrite Hx. simpl. rewrite Hl. simpl.
  destruct xs as [|a xs _] using rev_ind; simpl in *.
  - rewrite last_or_nil in *. run_stores.
    eexists; split; [done|]; split; [|solve_touches].
    simpl. by simplify_map_eq.
  - rewrite ?last_or_snoc in *. apply seg_snoc in Hs as [Hs Ha].
    apply NoDup_app in Hnd as (Hnd & Hxa & _).
    assert (x ≠ a ∧ a ∉ xs ∧ x ∉ xs) as (?&?&?) by set_solver.
    run_stores.
    eexists; split; [done|]; split; [|solve_touches].
    simpl. rewrite hd_or_app, !seg_snoc, last_or_snoc. simpl. simplify_map_eq.
    unfold set_tail, set_pNext, set_pLink. simpl. rewrite ?hd_or_app. simpl. rewrite ?hd_or_app.
    split_and!; try done. keep_seg.
Qed.

Lemma PopHead_list h l x xs :
  is_list h l (x :: xs) →
  ∃ h', PopHead l h = Some h' ∧ is_list h' l xs ∧
    nodes h' !! x = Some free_node ∧ touches h h' l (x :: xs).
Proof.
  intros (Hl & [Hx Hs] & [Hxs Hnd]%NoDup_cons). simpl in *.
  unfold PopHead, is_list. rewrite Hl. simpl. rewrite Hx. simpl.
  rewrite ?last_or_cons. destruct xs as [|b xs]; simpl in *.
  - rewrite ?last_or_nil in *. run_stores. finish_op. simpl. by simplify_map_eq.
  - destruct Hs as [Hb Hs]. rewrite ?last_or_cons in *.
    assert (x ≠ b ∧ b ∉ xs ∧ x ∉ xs) as (?&?&?) by (apply NoDup_cons in Hnd; set_solver).
    assert (last_or (Some b) xs ≠ Some x) by (intros ?%last_or_elem; set_solver).
    run_stores. finish_op. simpl. simplify_map_eq. unfold set_head. simpl.
    split_and!; try done. keep_seg.
Qed.

Lemma relink_seg l o ys h p fuel :
  seg (nodes h) o p ys None → NoDup ys → length ys ≤ fuel →
  ∃ h', relink fuel (hd_or None ys) l h = Some h' ∧ links h' = links h ∧
    seg (nodes h') l p ys None ∧ (∀ y, y ∉ ys → nodes h' !! y = nodes h !! y) ∧
    dom (nodes h') = dom (nodes h).
Proof.
  revert h p fuel. induction ys as [|y ys IH]; intros h p fuel; simpl.
  { intros. eexists. by destruct fuel. }
  intros [Hy Hs] [Hyys Hnd]%NoDup_cons Hf. destruct fuel as [|fuel]; [lia|]. simpl.
  run_stores.
  set (h1 := Heap _ _).
  destruct (IH h1 (Some y) fuel) as (h' & Hh' & Hl & Hs' & Hn & Hd); [|done|lia|].
  { simpl. keep_seg. }
  exists h'. split; [done|]. split; [done|]. split_and!.
  - rewrite Hn by done. simpl. by simplify_map_eq.
  - done.
  - intros z Hz. rewrite Hn by set_solver. simpl. rewrite lookup_insert_ne; set_solver.
  - rewrite Hd. simpl. rewrite dom_insert_lookup_L; [done|]. by simplify_map_eq.
Qed.

Lemma seg_length ns l p xs n : seg ns l p xs n → NoDup xs → length xs ≤ size ns.
Proof.
  intros Hs Hnd. rewrite <-size_dom, <-(size_list_to_set (C:=gset Z)) by done.
  apply subseteq_size. intros x Hx%elem_of_list_to_set.
  destruct (seg_owner _ _ _ _ _ _ Hs Hx) as (? & ? & _). apply elem_of_dom. eauto.
Qed.

Lemma Join_list h l o xs ys :
  l ≠ o → is_list h l xs → is_list h o ys →
  ∃ h', Join l o h = Some h' ∧ is_list h' l (xs ++ ys) ∧ is_list h' o [] ∧
    (∀ k, k ≠ l → k ≠ o → links h' !! k = links h !! k) ∧
    (∀ y, y ∉ xs ++ ys → nodes h' !! y = nodes h !! y) ∧
    dom (nodes h') = dom (nodes h).
Proof.
  intros Hne Hlx Hly.
  assert (∀ z, z ∈ xs → z ∉ ys) as Hdisj.
  { intros z Hz1 Hz2. destruct (is_list_owner _ _ _ _ Hlx Hz1) as (? & ? & ?).
    destruct (is_list_owner _ _ _ _ Hly Hz2) as (? & ? & ?). congruence. }
  destruct Hlx as (Hl & Hs & Hnd), Hly as (Ho & Hso & Hndo).
  assert (NoDup (xs ++ ys)) as Hnd' by (by apply NoDup_app).
  pose proof (seg_length _ _ _ _ _ Hso Hndo) as Hlen.
  unfold Join. rewrite Ho. simpl. destruct ys as [|b ys]; simpl.
  { exists h. rewrite app_nil_r. unfold is_list. naive_solver. }
  destruct (relink_seg l o (b :: ys) h None (size (nodes h))) as (h1 & Hh1 & Hl1 & Hs1 & Hn1 & Hd1); [done..|].
  destruct h1 as [n1 k1]. simpl in *. subst k1. rewrite Hh1. simpl. rewrite Hl. simpl.
  assert (seg n1 l None xs None) as Hsx by (eapply seg_frame; [|done]; eauto).
  destruct Hs1 as [Hb Hs1]. apply NoDup_cons in Hndo as [Hby _].
  destruct xs as [|a xs _] using rev_ind; simpl in *.
  - rewrite ?last_or_nil in *. run_stores. eexists; split; [done|].
    unfold is_list; simpl. simplify_map_eq. split_and!; try done. intros. by rewrite !lookup_insert_ne by done.
  - rewrite ?last_or_snoc in *. apply seg_snoc in Hsx as [Hsx Ha].
    apply NoDup_app in Hnd as (Hndx & Hxa & _).
    assert (a ≠ b ∧ a ∉ ys ∧ b ∉ xs ∧ a ∉ xs) as (?&?&?&?) by set_solver.
    assert (∀ y, y ∈ ys → y ∉ xs) by set_solver.
    run_stores. eexists; split; [done|]. unfold is_list, set_tail, set_pNext, set_pPrev; simpl.
    rewrite seg_app, seg_snoc, !hd_or_app, !last_or_app, last_or_nil, !last_or_cons, last_or_nil.
    simpl. simplify_map_eq. split_and!; try done; try keep_seg.
    + constructor.
    + intros. by rewrite !lookup_insert_ne by done.
    + intros y Hy. rewrite !lookup_insert_ne by set_solver. apply Hn1. set_solver.
    + by repeat (rewrite dom_insert_lookup_L; [|simplify_map_eq; by eauto]).
Qed.

(** ** The operations on the whole store *)

Lemma in_its h s x : represents h s → x ∈ its s → is_Some (nodes h !! x).
Proof. intros Hr Hx. rewrite <-(rep_nodes _ _ Hr) in Hx. by apply elem_of_dom. Qed.

Lemma remove_spec_unlinked x s : ¬ linked s x → remove_spec x s = s.
Proof.
  intros Hn. destruct s as [m X]. unfold remove_spec. simpl. f_equal.
  apply map_eq. intros k. rewrite lookup_fmap. destruct (m !! k) as [zs|] eqn:Hk; [|done].
  simpl. f_equal. apply filter_ne_notin. intros Hx. apply Hn, linked_spec. eauto.
Qed.

Lemma remove_spec_linked h s l xs ys x :
  represents h s → ls s !! l = Some (xs ++ x :: ys) →
  remove_spec x s = Lists (<[l := xs ++ ys]> (ls s)) (its s).
Proof.
  intros Hr Hl. unfold remove_spec. f_equal. apply map_eq. intros k.
  rewrite lookup_fmap. destruct (decide (k = l)) as [->|Hk].
  - rewrite Hl, lookup_insert_eq. simpl. f_equal. apply filter_ne_middle.
    by apply (rep_lists _ _ Hr _ _ Hl).
  - rewrite lookup_insert_ne by done. destruct (ls s !! k) as [zs|] eqn:Hz; [|done].
    simpl. f_equal. apply filter_ne_notin. intros Hx.
    apply Hk. eapply represents_disj; [done..|]. set_solver.
Qed.

Lemma RemoveFromLink_rep h s x :
  represents h s → x ∈ its s →
  ∃ h', RemoveFromLink x h = Some h' ∧ represents h' (remove_spec x s).
Proof.
  intros Hr Hx. destruct (decide (linked s x)) as [Hl|Hn].
  - apply linked_spec in Hl as (l & zs & Hl & (xs & ys & ->)%list_elem_of_split).
    destruct (RemoveFromLink_list h l xs x ys) as (h' & Hh' & Hl' & Hfree & Ht); [by apply Hr|].
    exists h'. split; [done|]. rewrite (remove_spec_linked h s l xs ys x) by done.
    assert (NoDup (xs ++ x :: ys)) as Hnd by (by apply (rep_lists _ _ Hr _ _ Hl)).
    eapply represents_change; [done|done|exact Ht|naive_solver|done| |naive_solver].
    intros y Hy Hny. assert (y = x) as -> by set_solver. done.
  - rewrite remove_spec_unlinked by done. exists h. split; [|done].
    unfold RemoveFromLink. by rewrite (rep_free _ _ Hr x).
Qed.

Lemma AddTail_rep h s l x :
  represents h s → l ∈ dom (ls s) → x ∈ its s →
  ∃ h', AddTail l x h = Some h' ∧ represents h' (add_tail_spec l x s).
Proof.
  intros Hr [xs Hl]%elem_of_dom Hx. unfold add_tail_spec. case_decide as Hn.
  - apply linked_spec in Hn as (k & zs & Hk & Hz).
    destruct (is_list_owner h k zs x) as (n & Hn & Ho); [by apply Hr|done|].
    exists h. split; [|done]. unfold AddTail. rewrite Hn. simpl. by rewrite Ho.
  - destruct (AddTail_list h l xs x None None) as (h' & Hh' & Hl' & Ht);
      [by apply Hr|by apply Hr|].
    exists h'. split; [done|].
    replace (alter _ _ _) with (<[l := xs ++ [x]]> (ls s)).
    2:{ apply map_eq. intros k. destruct (decide (k = l)) as [->|];
        simplify_map_eq; done. }
    eapply represents_change; [done|done|exact Ht| |done|done|set_solver].
    intros y [Hy|Hy%list_elem_of_singleton]%elem_of_app; subst; auto.
Qed.

Lemma PopHead_rep h s l :
  represents h s → l ∈ dom (ls s) →
  ∃ h', PopHead l h = Some h' ∧ represents h' (pop_head_spec l s).
Proof.
  intros Hr [xs Hl]%elem_of_dom. unfold pop_head_spec.
  replace (alter tail l (ls s)) with (<[l := tail xs]> (ls s)).
  2:{ apply map_eq. intros k. destruct (decide (k = l)) as [->|]; simplify_map_eq; done. }
  pose proof (rep_lists _ _ Hr _ _ Hl) as Hlist. destruct xs as [|x xs].
  - exists h. split.
    + unfold PopHead. destruct Hlist as [-> _]. done.
    + simpl. rewrite insert_id by done. by destruct s.
  - destruct (PopHead_list h l x xs Hlist) as (h' & Hh' & Hl' & Hfree & Ht).
    exists h'. split; [done|].
    eapply represents_change; [done|done|exact Ht|naive_solver|done| |naive_solver].
    intros y Hy Hny. simpl in *. assert (y = x) as -> by set_solver. done.
Qed.

Lemma Join_rep h s l o :
  represents h s → l ∈ dom (ls s) → o ∈ dom (ls s) → l ≠ o →
  ∃ h', Join l o h = Some h' ∧ represents h' (join_spec l o s).
Proof.
  intros Hr [xs Hl]%elem_of_dom [ys Ho]%elem_of_dom Hne.
  destruct (Join_list h l o xs ys) as (h' & Hh' & Hll & Hlo & Hk & Hn & Hd);
    [done|by apply Hr..|].
  exists h'. split; [done|]. unfold join_spec. rewrite Ho. simpl.
  set (m' := <[o := []]> _).
  assert (m' !! l = Some (xs ++ ys)) as Hml by (unfold m'; simplify_map_eq; done).
  assert (m' !! o = Some []) as Hmo by (unfold m'; simplify_map_eq; done).
  assert (∀ k, k ≠ l → k ≠ o → m' !! k = ls s !! k) as Hmk.
  { intros. unfold m'. by rewrite lookup_insert_ne, lookup_alter_ne. }
  apply (represents_update h h' s m' (xs ++ ys)); [done| |done|done| | |].
  - apply set_eq. intros k. rewrite !elem_of_dom.
    destruct (decide (k = l)) as [->|]; [destruct Hll as [-> _]; rewrite Hml; naive_solver|].
    destruct (decide (k = o)) as [->|]; [destruct Hlo as [-> _]; rewrite Hmo; naive_solver|].
    rewrite Hk, Hmk, <-!elem_of_dom, (rep_links _ _ Hr) by done. done.
  - intros k zs Hz. destruct (decide (k = l)) as [->|]; [left; naive_solver|].
    destruct (decide (k = o)) as [->|]; [left; naive_solver|].
    right. rewrite Hmk in Hz by done. split_and!; [done|by apply Hk|].
    intros y Hy [Hx|Hx]%elem_of_app; eauto using represents_disj.
  - intros y Hy []. apply linked_spec. eauto.
  - intros y Hy (k & zs & Hz & Hin)%linked_spec. apply linked_spec.
    destruct (decide (k = l)) as [->|]; [simplify_eq; set_solver|].
    destruct (decide (k = o)) as [->|]; [simplify_eq; set_solver|].
    exists k, zs. simpl. by rewrite Hmk.
Qed.

Lemma NewNode_rep h s x :
  represents h s → x ∉ its s →
  ∃ h', NewNode x h = Some h' ∧ represents h' (new_node_spec x s).
Proof.
  intros Hr Hx0. pose proof Hx0 as Hx.
  rewrite <-(rep_nodes _ _ Hr), not_elem_of_dom in Hx.
  unfold NewNode. rewrite option_guard_True by done. simpl. eexists. split; [done|].
  split; simpl.
  - apply Hr.
  - by rewrite dom_insert_L, (rep_nodes _ _ Hr).
  - intros l xs Hl. eapply (is_list_frame h); [done| |by apply Hr].
    intros y Hy. simpl. rewrite lookup_insert_ne; [done|]. intros <-.
    by eapply Hx0, represents_its.
  - intros y Hy Hn. destruct (decide (y = x)) as [->|].
    + by rewrite lookup_insert_eq.
    + rewrite lookup_insert_ne by done. apply Hr; [set_solver|done].
Qed.

Lemma NewLink_rep h s l :
  represents h s → l ∉ dom (ls s) →
  ∃ h', NewLink l h = Some h' ∧ represents h' (new_link_spec l s).
Proof.
  intros Hr Hl. pose proof Hl as Hs. apply not_elem_of_dom in Hs.
  rewrite <-(rep_links _ _ Hr), not_elem_of_dom in Hl.
  unfold NewLink. rewrite option_guard_True by done. simpl. eexists. split; [done|].
  apply (represents_update h _ s _ []); simpl; [done| |done..| | |].
  - by rewrite !dom_insert_L, (rep_links _ _ Hr).
  - intros k zs. destruct (decide (k = l)) as [->|].
    + rewrite lookup_insert_eq. intros [= <-]. left. split; simpl; [by simplify_map_eq|].
      split; [done|constructor].
    + rewrite lookup_insert_ne by done. intros. right. simpl. simplify_map_eq.
      split_and!; [done|done|set_solver].
  - set_solver.
  - intros y _ (k & zs & Hk & Hz)%linked_spec. apply linked_spec. exists k, zs. simpl.
    rewrite lookup_insert_ne by congruence. done.
Qed.

Lemma empty_represents : represents empty_heap empty_lists.
Proof. by split. Qed.

#[export] Hint Resolve RemoveFromLink_rep AddTail_rep PopHead_rep Join_rep
  NewNode_rep NewLink_rep empty_represents : cserver.

Lemma run_cmd_rep c h s :
  represents h s → ok_cmd c s →
  ∃ h', run_cmd c h = Some h' ∧ represents h' (spec_cmd c s).
Proof. destruct c; simpl; intros; destruct_and?; eauto with cserver. Qed.

#[export] Instance heap_laws : LinkLaws heap.
Proof.
  refine {| rep := represents |}; simpl.
  - intros. by eapply represents_its.
  - intros h s l xs Hr Hl. by apply (rep_lists _ _ Hr _ _ Hl).
  - intros. by eapply represents_disj.
  - intros h s l xs Hr Hl. unfold link_head.
    by destruct (rep_lists _ _ Hr _ _ Hl) as [-> _].
  - intros h s l xs1 x xs2 Hr Hl. unfold node_next.
    destruct (rep_lists _ _ Hr _ _ Hl) as (_ & Hs & _).
    by rewrite (seg_middle _ _ _ _ _ Hs).
  - eauto with cserver.
  - eauto with cserver.
  - eauto with cserver.
  - eauto with cserver.
  - eauto with cserver.
  - eauto with cserver.
Defined.

Lemma run_cmds_rep cs h s :
  represents h s → ok_cmds cs s →
  ∃ h', run_cmds cs h = Some h' ∧ represents h' (spec_cmds cs s).
Proof.
  revert h s. induction cs as [|c cs IH]; simpl; intros h s Hr Hok; [by eauto|].
  destruct Hok as [Hc Hok]. destruct (run_cmd_rep c h s Hr Hc) as (h1 & -> & Hr1).
  by apply IH.
Qed.

(** ** Properties *)

(** C1.  Refinement: any sequence of [RemoveFromLink], [AddTail], [PopHead],
    [Join] and allocations whose arguments are live runs without touching a
    dangling or [NULL] pointer and without failing an assertion, and leaves
    the pointer structure representing exactly the abstract lists that the
    same sequence of list operations produces. *)
Theorem link_ops_refine (cs : list cmd) (h : heap) (s : lists) :
  represents h s → ok_cmds cs s →
  ∃ h', run_cmds cs h = Some h' ∧ represents h' (spec_cmds cs s).
Proof. apply run_cmds_rep. Qed.

Lemma link_ops_refine_witness :
  spec_cmds demo_cmds empty_lists = Lists {[100%Z := [3; 4]%Z; 200%Z := [2]%Z]} {[1; 2; 3; 4]}%Z ∧
  ∃ h', run_cmds demo_cmds empty_heap = Some h' ∧
    represents h' (spec_cmds demo_cmds empty_lists).
Proof.
  split; [by vm_compute|].
  apply (link_ops_refine demo_cmds empty_heap empty_lists empty_represents).
  by vm_compute.
Defined.
