(* ===== verification/Timeout.v ===== *)
(** * The millisecond time wheel (libco/co_routine.cpp)

    [stTimeout_t] with [AllocTimeout], [AddTimeout] and [TakeAllTimeout],
    over any implementation of the intrusive lists.  Slot [i] of the array
    [pItems] is the list header at address [pItems + i] (addresses count in
    units of [stTimeoutItemLink_t]); an index outside the array makes the
    operation return [None].  The narrowing of 64-bit times to [int] is
    written out. *)

From S2P Require Import Prelude LinkList.

Local Open Scope Z_scope.
Local Open Scope cint_scope.

(** ** Data *)

Record stTimeout_t := Wheel {
  pItems : addr;
  iItemSize : Z;
  ullStart : Z;
  llStartIdx : Z;
}.

(** The values of [__LINE__] that [AddTimeout] returns. *)
Definition LINE_now_before_start : Z := 459.
Definition LINE_expired : Z := 467.
Definition LINE_too_far : Z := 478.

(** [apTimeout->pItems + idx], for an index inside the array. *)
Definition slot_at (t : stTimeout_t) (idx : Z) : option addr :=
  guard (0 ≤ idx < iItemSize t);; Some (pItems t + idx).

(** The initialisation that opens [AddTimeout] and [TakeAllTimeout]. *)
Definition wheel_init (t : stTimeout_t) (allNow : Z) : stTimeout_t :=
  if decide (ullStart t = 0) then Wheel (pItems t) (iItemSize t) allNow 0 else t.

(** ** Operations *)

Section ops.
Context {H : Type} `{LinkOps H}.

Fixpoint new_links (n : nat) (a : addr) (h : H) : option H :=
  match n with
  | O => Some h
  | S n => h ← op_new_link a h; new_links n (a + 1) h
  end.

Definition AllocTimeout (base iSize now : Z) (h : H) : option (stTimeout_t * H) :=
  h ← new_links (Z.to_nat iSize) base h; Some (Wheel base iSize now 0, h).

Definition AddTimeout (t : stTimeout_t) (apItem : addr) (ullExpireTime allNow : Z)
    (h : H) : option (Z * stTimeout_t * H) :=
  let t := wheel_init t allNow in
  if decide (allNow < ullStart t) then Some (LINE_now_before_start, t, h)
  else if decide (ullExpireTime < allNow) then Some (LINE_expired, t, h)
  else
    let diff := s32 (u64 (ullExpireTime - ullStart t)) in
    if decide (iItemSize t ≤ diff) then Some (LINE_too_far, t, h)
    else
      slot ← slot_at t (Z.rem (s64 (llStartIdx t + diff)) (iItemSize t));
      h ← op_add_tail slot apItem h;
      Some (0, t, h).

(** The loop of [TakeAllTimeout] from iteration [i] on. *)
Fixpoint take_slots (n : nat) (i : Z) (t : stTimeout_t) (apResult : addr) (h : H)
    : option H :=
  match n with
  | O => Some h
  | S n =>
      slot ← slot_at t (s32 (Z.rem (s64 (llStartIdx t + i)) (iItemSize t)));
      h ← op_join apResult slot h;
      take_slots n (i + 1) t apResult h
  end.

Definition TakeAllTimeout (t : stTimeout_t) (allNow : Z) (apResult : addr) (h : H)
    : option (stTimeout_t * H) :=
  let t := wheel_init t allNow in
  if decide (allNow < ullStart t) then Some (t, h)
  else
    let cnt := s32 (u64 (u64 (allNow - ullStart t) + 1)) in
    let cnt := if decide (iItemSize t < cnt) then iItemSize t else cnt in
    if decide (cnt < 0) then Some (t, h)
    else
      h ← take_slots (Z.to_nat cnt) 0 t apResult h;
      Some (Wheel (pItems t) (iItemSize t) allNow (s64 (llStartIdx t + (cnt - 1))), h).
End ops.

(** ** The abstract wheel

    [exp x] is the [ullExpireTime] of item [x].  A wheel covers the times
    [ullStart .. ullStart + iItemSize - 1], one slot for each. *)

Definition slot_of (t : stTimeout_t) (time : Z) : addr :=
  pItems t + (llStartIdx t + (time - ullStart t)) mod iItemSize t.

Definition covers (t : stTimeout_t) (time : Z) : Prop :=
  ullStart t ≤ time < ullStart t + iItemSize t.

Definition is_slot (t : stTimeout_t) (a : addr) : Prop :=
  pItems t ≤ a < pItems t + iItemSize t.

Definition in_wheel (t : stTimeout_t) (s : lists) (x : addr) : Prop :=
  ∃ a xs, is_slot t a ∧ ls s !! a = Some xs ∧ x ∈ xs.

Record wheel_inv (t : stTimeout_t) (exp : addr → Z) (s : lists) : Prop := {
  wi_size : 0 < iItemSize t < 2 ^ 31;
  wi_idx : 0 ≤ llStartIdx t < 2 ^ 62;
  wi_start : 0 < ullStart t < 2 ^ 63;
  wi_slots : ∀ a, is_slot t a → a ∈ dom (ls s);
  wi_items : ∀ a xs x, is_slot t a → ls s !! a = Some xs → x ∈ xs →
    covers t (exp x) ∧ a = slot_of t (exp x);
}.

(** What the loop of [TakeAllTimeout] does to the abstract lists. *)
Fixpoint take_spec (n : nat) (i : Z) (t : stTimeout_t) (r : addr) (s : lists) : lists :=
  match n with
  | O => s
  | S n => take_spec n (i + 1) t r (join_spec r (slot_of t (ullStart t + i)) s)
  end.

Definition slot_items (s : lists) (a : addr) : list Z := default [] (ls s !! a).

(** The items of the times [ullStart + i .. ullStart + i + n - 1], in order. *)
Definition due (n : nat) (i : Z) (t : stTimeout_t) (s : lists) : list Z :=
  mjoin ((λ j, slot_items s (slot_of t (ullStart t + j))) <$> seqZ i (Z.of_nat n)).

(** [cnt] of [TakeAllTimeout] before its bound, modulo 2^32. *)
Definition late_count (t : stTimeout_t) (now : Z) : Z := (now - ullStart t + 1) mod 2 ^ 32.

(** [diff] of [AddTimeout], as the [int] it is. *)
Definition int_diff (t : stTimeout_t) (time : Z) : Z :=
  let d := (time - ullStart t) mod 2 ^ 32 in if decide (d < 2 ^ 31) then d else d - 2 ^ 32.

(** A concrete wheel of four slots at the addresses 0 to 3, with a result list
    at 100, item 7 due at 1001, item 8 at 1003 and item 9 in no list. *)
Definition demo_wheel : stTimeout_t := Wheel 0 4 1000 2.

Definition demo_setup : list cmd :=
  [CNewLink 0; CNewLink 1; CNewLink 2; CNewLink 3; CNewLink 100;
   CNewNode 7; CNewNode 8; CNewNode 9; CAddTail 3 7; CAddTail 1 8].

Definition demo_heap : heap := default empty_heap (run_cmds demo_setup empty_heap).
Definition demo_lists : lists := spec_cmds demo_setup empty_lists.
Definition demo_exp (e9 x : Z) : Z := if decide (x = 7) then 1001 else if decide (x = 8) then 1003 else e9.

(** ** Slots *)

Lemma slot_of_is_slot t time : 0 < iItemSize t → is_slot t (slot_of t time).
Proof.
  intros Hs. unfold is_slot, slot_of.
  pose proof (Z.mod_pos_bound (llStartIdx t + (time - ullStart t)) (iItemSize t) Hs). lia.
Qed.

Lemma slot_of_inj t x y :
  0 < iItemSize t → covers t x → covers t y → slot_of t x = slot_of t y → x = y.
Proof.
  unfold covers, slot_of. intros Hs Hx Hy Heq.
  assert (Hm : (llStartIdx t + (x - ullStart t)) mod iItemSize t =
    (llStartIdx t + (y - ullStart t)) mod iItemSize t) by lia.
  pose proof (Z.div_mod (llStartIdx t + (x - ullStart t)) (iItemSize t)).
  pose proof (Z.div_mod (llStartIdx t + (y - ullStart t)) (iItemSize t)).
  set (qx := (llStartIdx t + (x - ullStart t)) / iItemSize t) in *.
  set (qy := (llStartIdx t + (y - ullStart t)) / iItemSize t) in *.
  assert (Hd : x - y = iItemSize t * (qx - qy)) by lia.
  assert (qx - qy < 1) by nia. assert (-1 < qx - qy) by nia. nia.
Qed.

Lemma slot_at_eq t idx :
  0 < iItemSize t → 0 ≤ idx → slot_at t (Z.rem idx (iItemSize t)) =
  Some (pItems t + idx mod iItemSize t).
Proof.
  intros Hs Hi. unfold slot_at. rewrite Z.rem_mod_nonneg by lia.
  pose proof (Z.mod_pos_bound idx (iItemSize t) Hs). by rewrite option_guard_True.
Qed.

Lemma slot_of_eq t time :
  0 < iItemSize t → 0 ≤ llStartIdx t < 2 ^ 62 → covers t time → iItemSize t < 2 ^ 31 →
  slot_at t (Z.rem (s64 (llStartIdx t + (time - ullStart t))) (iItemSize t)) =
  Some (slot_of t time).
Proof.
  unfold covers. intros. rewrite wraps_id by lia. rewrite slot_at_eq by lia. done.
Qed.

Lemma wheel_init_id t now : ullStart t ≠ 0 → wheel_init t now = t.
Proof. intros. unfold wheel_init. by rewrite decide_False. Qed.

(** The width conversions of [AddTimeout] and [TakeAllTimeout] are exact as
    long as the wheel is at most 2^31 - 1 ms behind. *)
Lemma narrow_id z : 0 ≤ z < 2 ^ 31 → s32 (u64 z) = z.
Proof. intros. rewrite wrapu_id by lia. rewrite wraps_id; lia. Qed.

(** ** AllocTimeout *)

Section laws.
Context {H : Type} `{LinkLaws H}.

Lemma new_links_rep n a h s :
  rep h s → (∀ k, a ≤ k < a + Z.of_nat n → k ∉ dom (ls s)) →
  ∃ h' s', new_links n a h = Some h' ∧ rep h' s' ∧ its s' = its s ∧
    (∀ k, ls s' !! k = if decide (a ≤ k < a + Z.of_nat n) then Some [] else ls s !! k).
Proof.
  revert a h s. induction n as [|n IH]; intros a h s Hr Hf.
  { exists h, s. split_and!; [done..|]. intros k. rewrite decide_False; [done|lia]. }
  simpl. destruct (op_new_link_law h s a Hr) as (h1 & Hh1 & Hr1); [apply Hf; lia|].
  rewrite Hh1. simpl. destruct (IH (a + 1) h1 (new_link_spec a s) Hr1) as (h' & s' & ? & ? & ? & Hs').
  { intros k Hk. simpl. rewrite dom_insert_L. apply not_elem_of_union. split.
    - rewrite elem_of_singleton. lia. - apply Hf. lia. }
  exists h', s'. split_and!; [done..|]. intros k. rewrite Hs'. simpl.
  destruct (decide (k = a)) as [->|].
  - rewrite decide_False by lia. rewrite decide_True by lia. by simplify_map_eq.
  - simplify_map_eq. repeat case_decide; done || lia.
Qed.

Lemma AllocTimeout_inv base iSize now h s exp :
  rep h s → 0 < iSize < 2 ^ 31 → 0 < now < 2 ^ 63 →
  (∀ k, base ≤ k < base + iSize → k ∉ dom (ls s)) →
  ∃ t h' s', AllocTimeout base iSize now h = Some (t, h') ∧ rep h' s' ∧
    its s' = its s ∧ wheel_inv t exp s' ∧ (∀ x, ¬ in_wheel t s' x) ∧
    (∀ k, k ∈ dom (ls s) → ls s' !! k = ls s !! k).
Proof.
  intros Hr Hz Hn Hf.
  destruct (new_links_rep (Z.to_nat iSize) base h s Hr) as (h' & s' & Hh & Hr' & Hi & Hs').
  { intros. apply Hf. lia. }
  unfold AllocTimeout. rewrite Hh. simpl. eexists _, h', s'. split; [done|].
  assert (He : ∀ a, base ≤ a < base + iSize → ls s' !! a = Some []).
  { intros. rewrite Hs'. rewrite decide_True; [done|lia]. }
  unfold in_wheel, is_slot. split_and!; [done..| | |].
  - split; simpl; [lia..| |]; unfold is_slot; simpl; intros a.
    + intros Ha. apply elem_of_dom. rewrite He; [by eauto|done].
    + intros xs x Ha Hl Hx. rewrite He in Hl by done. simplify_eq. set_solver.
  - simpl. intros x (a & xs & Ha & Hl & Hx). rewrite He in Hl by done. simplify_eq. set_solver.
  - intros k Hk. rewrite Hs'. rewrite decide_False; [done|]. intros ?.
    apply (Hf k); [lia|done].
Qed.
End laws.

(** ** TakeAllTimeout on the abstract lists *)

Lemma join_spec_lookup l o xs ys s k :
  l ≠ o → ls s !! l = Some xs → ls s !! o = Some ys →
  ls (join_spec l o s) !! k =
    if decide (k = o) then Some [] else if decide (k = l) then Some (xs ++ ys) else ls s !! k.
Proof.
  intros Hne Hl Ho. unfold join_spec. rewrite Ho. simpl.
  repeat case_decide; subst; by simplify_map_eq.
Qed.

Lemma due_S n i t s :
  due (S n) i t s = slot_items s (slot_of t (ullStart t + i)) ++ due n (i + 1) t s.
Proof.
  unfold due. rewrite (seqZ_cons i) by lia. simpl. do 4 f_equal; lia.
Qed.

Lemma due_ext n i t s s' :
  (∀ j, i ≤ j < i + Z.of_nat n →
    ls s' !! slot_of t (ullStart t + j) = ls s !! slot_of t (ullStart t + j)) →
  due n i t s' = due n i t s.
Proof.
  intros Hj. unfold due. f_equal. apply list_fmap_ext. intros k j Hk.
  apply lookup_seqZ in Hk as [-> ?]. unfold slot_items. rewrite Hj; [done|lia].
Qed.

Lemma slot_of_ne t i j :
  0 < iItemSize t → 0 ≤ i < iItemSize t → 0 ≤ j < iItemSize t → i ≠ j →
  slot_of t (ullStart t + i) ≠ slot_of t (ullStart t + j).
Proof.
  intros Hs Hi Hj Hne Heq. apply slot_of_inj in Heq; [lia|done|..]; unfold covers; lia.
Qed.

Lemma take_spec_lookup n i t r rs s :
  0 < iItemSize t → ¬ is_slot t r → (∀ a, is_slot t a → a ∈ dom (ls s)) →
  ls s !! r = Some rs → 0 ≤ i → i + Z.of_nat n ≤ iItemSize t →
  let s' := take_spec n i t r s in
  its s' = its s ∧ ls s' !! r = Some (rs ++ due n i t s) ∧
  (∀ j, i ≤ j < i + Z.of_nat n → ls s' !! slot_of t (ullStart t + j) = Some []) ∧
  (∀ k, k ≠ r → (∀ j, i ≤ j < i + Z.of_nat n → k ≠ slot_of t (ullStart t + j)) →
    ls s' !! k = ls s !! k).
Proof.
  intros Hz Hr. revert i rs s. induction n as [|n IH]; intros i rs s Hd Hrs Hi Hn.
  { simpl. unfold due. simpl. rewrite app_nil_r. split_and!; [done|done|lia|done]. }
  assert (Hsl : is_slot t (slot_of t (ullStart t + i))) by (by apply slot_of_is_slot).
  pose proof (Hd _ Hsl) as [ys Hys]%elem_of_dom.
  assert (Hne : r ≠ slot_of t (ullStart t + i)) by (intros ->; done).
  pose proof (λ k, join_spec_lookup _ _ rs ys s k Hne Hrs Hys) as Hk.
  set (s1 := join_spec r (slot_of t (ullStart t + i)) s) in *.
  assert (Hother : ∀ j, i + 1 ≤ j < i + 1 + Z.of_nat n →
    ls s1 !! slot_of t (ullStart t + j) = ls s !! slot_of t (ullStart t + j)).
  { intros j Hj. rewrite Hk, decide_False by (apply slot_of_ne; lia).
    rewrite decide_False; [done|]. intros <-. by apply Hr, slot_of_is_slot. }
  destruct (IH (i + 1) (rs ++ ys) s1) as (Hit & Hres & Htaken & Hkeep).
  { intros a Ha. apply elem_of_dom. rewrite Hk. repeat case_decide; [by eauto..|].
    by apply elem_of_dom, Hd. }
  { by rewrite Hk, decide_False, decide_True. }
  { lia. } { lia. }
  rewrite (due_ext n (i + 1) t s s1) in Hres by done.
  simpl. fold s1. split_and!; [done| | |].
  - rewrite Hres, due_S, <-app_assoc. unfold slot_items. by rewrite Hys.
  - intros j Hj. destruct (decide (j = i)) as [->|]; [|apply Htaken; lia].
    rewrite Hkeep; [by rewrite Hk, decide_True|done|].
    intros j Hj'. apply slot_of_ne; lia.
  - intros k Hkr Hkj. rewrite Hkeep; [|done|intros; apply Hkj; lia].
    rewrite Hk, decide_False by (apply Hkj; lia). by rewrite decide_False.
Qed.

Section take.
Context {H : Type} `{LinkLaws H}.

Lemma take_slots_rep n i t r h s :
  rep h s → 0 < iItemSize t < 2 ^ 31 → 0 ≤ llStartIdx t < 2 ^ 62 →
  ¬ is_slot t r → r ∈ dom (ls s) → (∀ a, is_slot t a → a ∈ dom (ls s)) →
  0 ≤ i → i + Z.of_nat n ≤ iItemSize t →
  ∃ h', take_slots n i t r h = Some h' ∧ rep h' (take_spec n i t r s).
Proof.
  intros Hrep Hz Hx Hr Hrd. revert i h s Hrep Hrd.
  induction n as [|n IH]; intros i h s Hrep Hrd Hd Hi Hn; simpl; [by eauto|].
  pose proof (slot_of_eq t (ullStart t + i)) as Hslot.
  replace (ullStart t + i - ullStart t) with i in Hslot by lia.
  pose proof (slot_of_is_slot t (ullStart t + i)) as Hsl.
  rewrite (wraps_id 32).
  2: lia. 2:{ rewrite wraps_id by lia. rewrite Z.rem_mod_nonneg by lia.
       pose proof (Z.mod_pos_bound (llStartIdx t + i) (iItemSize t)). lia. }
  rewrite Hslot by (unfold covers; lia). simpl.
  assert (Hne : r ≠ slot_of t (ullStart t + i)) by (intros ->; apply Hr, Hsl; lia).
  destruct (op_join_law h s r (slot_of t (ullStart t + i)) Hrep) as (h1 & -> & Hr1);
    [done|apply Hd, Hsl; lia|done|]. simpl.
  assert (Hdom : ∀ k, k ∈ dom (ls s) →
    k ∈ dom (ls (join_spec r (slot_of t (ullStart t + i)) s))).
  { intros k. unfold join_spec. simpl. rewrite dom_insert_L, dom_alter_L. set_solver. }
  apply IH; [done|by apply Hdom| |lia|lia]. intros a Ha. by apply Hdom, Hd.
Qed.
End take.
(** ** Items of the wheel *)

Lemma elem_of_due t exp s n i x :
  wheel_inv t exp s → 0 ≤ i → i + Z.of_nat n ≤ iItemSize t →
  x ∈ due n i t s ↔
  in_wheel t s x ∧ ullStart t + i ≤ exp x < ullStart t + i + Z.of_nat n.
Proof.
  intros Hw Hi Hn. pose proof (wi_size _ _ _ Hw) as Hz. split.
  - unfold due. intros (l & Hx & (j & -> & Hj%elem_of_seqZ)%list_elem_of_fmap)%list_elem_of_join.
    unfold slot_items in Hx.
    assert (Hsl : is_slot t (slot_of t (ullStart t + j))) by (apply slot_of_is_slot; lia).
    destruct (ls s !! slot_of t (ullStart t + j)) as [xs|] eqn:Hl; simpl in Hx; [|set_solver].
    destruct (wi_items _ _ _ Hw _ _ _ Hsl Hl Hx) as [Hc He].
    apply slot_of_inj in He; [|lia|unfold covers; lia|done]. split; [by eexists _, _|lia].
  - intros [(a & xs & Ha & Hl & Hx) He].
    destruct (wi_items _ _ _ Hw _ _ _ Ha Hl Hx) as [Hc Hs]. subst a.
    unfold due. apply list_elem_of_join. exists xs. split; [done|].
    apply list_elem_of_fmap. exists (exp x - ullStart t). rewrite elem_of_seqZ.
    split; [|lia]. unfold slot_items.
    replace (ullStart t + (exp x - ullStart t)) with (exp x) by lia. by rewrite Hl.
Qed.

Lemma due_sorted t exp s n i :
  wheel_inv t exp s → 0 ≤ i → i + Z.of_nat n ≤ iItemSize t →
  StronglySorted (λ x y, exp x ≤ exp y) (due n i t s).
Proof.
  intros Hw. revert i. induction n as [|n IH]; intros i Hi Hn; [constructor|].
  rewrite due_S. assert (Hone : due 1 i t s = slot_items s (slot_of t (ullStart t + i))).
  { rewrite due_S. unfold due. simpl. by rewrite app_nil_r. }
  rewrite <-Hone. apply StronglySorted_app_2.
  - intros x y Hx Hy. apply (elem_of_due t exp) in Hx, Hy; [lia|done|lia..|done|lia|lia].
  - rewrite Hone. assert (∀ x, x ∈ slot_items s (slot_of t (ullStart t + i)) → exp x = ullStart t + i) as He.
    { rewrite <-Hone. intros x Hx. apply (elem_of_due t exp) in Hx; [lia|done|lia..]. }
    clear Hone. induction (slot_items s (slot_of t (ullStart t + i))) as [|x xs IHx]; constructor.
    + apply IHx. set_solver.
    + apply Forall_forall. intros y Hy. rewrite (He x), (He y) by set_solver. done.
  - apply IH; lia.
Qed.

(** ** Properties *)

Section wheel.
Context {H : Type} `{LinkLaws H}.
Implicit Types (t : stTimeout_t) (h : H) (s : lists) (x r : addr) (now : Z).

Lemma add_tail_in_wheel t exp s x :
  wheel_inv t exp s → ¬ linked s x → covers t (exp x) →
  let s' := add_tail_spec (slot_of t (exp x)) x s in
  wheel_inv t exp s' ∧ ∀ y, in_wheel t s' y ↔ y = x ∨ in_wheel t s y.
Proof.
  intros Hw Hx Hc s'. pose proof (wi_size _ _ _ Hw) as Hz.
  assert (Hsl : is_slot t (slot_of t (exp x))) by (apply slot_of_is_slot; lia).
  destruct (proj1 (elem_of_dom _ _) (wi_slots _ _ _ Hw _ Hsl)) as [xs Hxs].
  assert (Hls : ∀ a, ls s' !! a = if decide (a = slot_of t (exp x)) then Some (xs ++ [x]) else ls s !! a).
  { intros a. unfold s', add_tail_spec. rewrite decide_False by done. simpl.
    case_decide; subst; by simplify_map_eq. }
  split.
  - split; try apply Hw.
    + intros a Ha. apply elem_of_dom. rewrite Hls. case_decide; [by eauto|].
      by apply elem_of_dom, Hw.
    + intros a ys y Ha. rewrite Hls. case_decide as Hd; [|by apply Hw].
      intros [= <-] [Hy|Hy%list_elem_of_singleton]%elem_of_app; subst; [by eapply Hw|done].
  - intros y. unfold in_wheel. setoid_rewrite Hls. split.
    + intros (a & ys & Ha & Hl & Hy). case_decide as Hd; [|by eauto 6].
      simplify_eq. apply elem_of_app in Hy as [Hy|Hy%list_elem_of_singleton]; eauto 6.
    + intros [->|(a & ys & Ha & Hl & Hy)].
      * exists (slot_of t (exp x)), (xs ++ [x]). rewrite decide_True by done. set_solver.
      * destruct (decide (a = slot_of t (exp x))) as [->|Hd].
        -- exists (slot_of t (exp x)), (xs ++ [x]). rewrite decide_True by done. set_solver.
        -- exists a, ys. by rewrite decide_False.
Qed.

Lemma AddTimeout_spec t exp h s x now :
  rep h s → wheel_inv t exp s → x ∈ its s → ¬ linked s x →
  exp x < ullStart t + 2 ^ 31 →
  (now < ullStart t → AddTimeout t x (exp x) now h = Some (459, t, h)) ∧
  (ullStart t ≤ now → exp x < now → AddTimeout t x (exp x) now h = Some (467, t, h)) ∧
  (ullStart t ≤ now ≤ exp x → ullStart t + iItemSize t ≤ exp x →
    AddTimeout t x (exp x) now h = Some (478, t, h)) ∧
  (ullStart t ≤ now ≤ exp x → exp x < ullStart t + iItemSize t →
    ∃ h', AddTimeout t x (exp x) now h = Some (0, t, h') ∧
      let s' := add_tail_spec (slot_of t (exp x)) x s in
      rep h' s' ∧ wheel_inv t exp s' ∧
      ∀ y, in_wheel t s' y ↔ y = x ∨ in_wheel t s y).
Proof.
  intros Hr Hw Hx Hnl Hb.
  pose proof (wi_size _ _ _ Hw). pose proof (wi_idx _ _ _ Hw). pose proof (wi_start _ _ _ Hw).
  unfold AddTimeout. rewrite wheel_init_id by lia. cbv zeta.
  split_and!; intros.
  - by rewrite decide_True.
  - by rewrite decide_False, decide_True by lia.
  - rewrite !decide_False, narrow_id, decide_True by lia. done.
  - rewrite !decide_False, narrow_id, decide_False by lia.
    rewrite slot_of_eq by (unfold covers; lia). simpl.
    assert (Hsl : is_slot t (slot_of t (exp x))) by (apply slot_of_is_slot; lia).
    destruct (op_add_tail_law h s (slot_of t (exp x)) x Hr) as (h' & -> & Hr');
      [by apply Hw|done|].
    exists h'. split; [done|]. split; [done|].
    apply add_tail_in_wheel; [done|done|]. unfold covers. lia.
Qed.

(** C2.  [AddTimeout] on every branch.  Given a well-formed wheel and an item
    that is in no list, it rejects a clock that runs behind the wheel, an
    expiry already past and an expiry beyond the wheel, each with its line
    number and without any change; otherwise it returns 0, appends the item
    to the one slot of its expiry time and keeps the wheel well-formed. *)
Theorem AddTimeout_correct t exp h s x now :
  rep h s → wheel_inv t exp s → x ∈ its s → ¬ linked s x →
  exp x < ullStart t + 2 ^ 31 →
  (now < ullStart t → AddTimeout t x (exp x) now h = Some (459, t, h)) ∧
  (ullStart t ≤ now → exp x < now → AddTimeout t x (exp x) now h = Some (467, t, h)) ∧
  (ullStart t ≤ now ≤ exp x → ullStart t + iItemSize t ≤ exp x →
    AddTimeout t x (exp x) now h = Some (478, t, h)) ∧
  (ullStart t ≤ now ≤ exp x → exp x < ullStart t + iItemSize t →
    ∃ h', AddTimeout t x (exp x) now h = Some (0, t, h') ∧
      let s' := add_tail_spec (slot_of t (exp x)) x s in
      rep h' s' ∧ wheel_inv t exp s' ∧
      ∀ y, in_wheel t s' y ↔ y = x ∨ in_wheel t s y).
Proof. apply AddTimeout_spec. Qed.

Lemma slot_times_dec t n a :
  (∃ j, 0 ≤ j < Z.of_nat n ∧ a = slot_of t (ullStart t + j)) ∨
  (∀ j, 0 ≤ j < Z.of_nat n → a ≠ slot_of t (ullStart t + j)).
Proof.
  destruct (decide (Exists (λ j, a = slot_of t (ullStart t + j)) (seqZ 0 (Z.of_nat n))))
    as [(j & Hj%elem_of_seqZ & ->)%Exists_exists|Hne]; [left|right].
  - exists j. split; [lia|done].
  - intros j Hj ->. apply Hne, Exists_exists. exists j. rewrite elem_of_seqZ.
    split; [lia|done].
Qed.

(** After the loop, a slot is empty or holds what it held, all of it late. *)
Lemma take_spec_fate t exp s r rs now n a xs :
  wheel_inv t exp s → ¬ is_slot t r → ls s !! r = Some rs → ullStart t ≤ now →
  Z.of_nat n = Z.min (now - ullStart t + 1) (iItemSize t) →
  is_slot t a → ls (take_spec n 0 t r s) !! a = Some xs →
  xs = [] ∨ ls s !! a = Some xs ∧ ∀ x, x ∈ xs → now < exp x.
Proof.
  intros Hw Hr Hrs Hnow Hn Ha Hl. pose proof (wi_size _ _ _ Hw).
  destruct (take_spec_lookup n 0 t r rs s) as (_ & _ & Htaken & Hkeep);
    [lia|done|apply Hw|done|lia|lia|].
  destruct (slot_times_dec t n a) as [(j & Hj & ->)|Hk].
  { left. rewrite Htaken in Hl by lia. by simplify_eq. }
  right. rewrite Hkeep in Hl; [|by intros ->|intros; apply Hk; lia]. split; [done|].
  intros x Hx. destruct (wi_items _ _ _ Hw _ _ _ Ha Hl Hx) as [Hc He]. unfold covers in Hc.
  destruct (decide (now < exp x)) as [|Hge]; [done|exfalso].
  apply (Hk (exp x - ullStart t)); [lia|]. rewrite He. f_equal. lia.
Qed.

Lemma take_due_inv t exp s r rs now n :
  wheel_inv t exp s → ¬ is_slot t r → ls s !! r = Some rs →
  ullStart t ≤ now → now < 2 ^ 63 → llStartIdx t + iItemSize t ≤ 2 ^ 62 →
  Z.of_nat n = Z.min (now - ullStart t + 1) (iItemSize t) →
  let t' := Wheel (pItems t) (iItemSize t) now (llStartIdx t + (Z.of_nat n - 1)) in
  let s' := take_spec n 0 t r s in
  wheel_inv t' exp s' ∧ (∀ x, in_wheel t' s' x ↔ in_wheel t s x ∧ now < exp x).
Proof.
  intros Hw Hr Hrs Hnow Hnb Hib Hn t' s'.
  pose proof (wi_size _ _ _ Hw). pose proof (wi_idx _ _ _ Hw). pose proof (wi_start _ _ _ Hw).
  pose proof (λ a xs, take_spec_fate t exp s r rs now n a xs Hw Hr Hrs Hnow Hn) as Hfate.
  destruct (take_spec_lookup n 0 t r rs s) as (_ & _ & Htaken & Hkeep);
    [lia|done|apply Hw|done|lia|lia|]. fold s' in Hfate, Htaken, Hkeep.
  split; [split; simpl; [lia..| |]|].
  - intros a Ha. apply elem_of_dom. destruct (slot_times_dec t n a) as [(j & Hj & ->)|Hk].
    + rewrite Htaken by lia. by eauto.
    + rewrite Hkeep; [by apply elem_of_dom, Hw|by intros ->|intros; apply Hk; lia].
  - intros a xs x Ha Hl Hx. destruct (Hfate a xs Ha Hl) as [->|[Hl' He]]; [set_solver|].
    destruct (wi_items _ _ _ Hw _ _ _ Ha Hl' Hx) as [Hc Hs]. specialize (He x Hx).
    unfold covers, slot_of in *. simpl. split; [lia|]. rewrite Hs. do 2 f_equal. lia.
  - intros x. split.
    + intros (a & xs & Ha & Hl & Hx). destruct (Hfate a xs Ha Hl) as [->|[Hl' He]]; [set_solver|].
      split; [by exists a, xs|by apply He].
    + intros [(a & xs & Ha & Hl & Hx) He]. exists a, xs. split; [done|]. split; [|done].
      destruct (wi_items _ _ _ Hw _ _ _ Ha Hl Hx) as [Hc Hs]. unfold covers in Hc.
      rewrite Hkeep; [done|by intros ->|]. intros j Hj Hjs. subst a.
      apply slot_of_inj in Hjs; [lia|lia|unfold covers; lia..].
Qed.

Lemma TakeAllTimeout_spec t exp h s r rs now :
  rep h s → wheel_inv t exp s → ¬ is_slot t r → ls s !! r = Some rs →
  ullStart t ≤ now < ullStart t + 2 ^ 31 - 1 → now < 2 ^ 63 →
  llStartIdx t + iItemSize t ≤ 2 ^ 62 →
  ∃ t' h' s' taken,
    TakeAllTimeout t now r h = Some (t', h') ∧ rep h' s' ∧ wheel_inv t' exp s' ∧
    ullStart t' = now ∧ its s' = its s ∧
    ls s' !! r = Some (rs ++ taken) ∧
    (∀ x, x ∈ taken ↔ in_wheel t s x ∧ exp x ≤ now) ∧
    StronglySorted (λ x y, exp x ≤ exp y) taken ∧
    (∀ x, in_wheel t' s' x ↔ in_wheel t s x ∧ now < exp x) ∧
    (∀ k, k ≠ r → ¬ is_slot t k → ls s' !! k = ls s !! k).
Proof.
  intros Hr Hw Hnr Hrs Hnow Hnb Hib.
  pose proof (wi_size _ _ _ Hw). pose proof (wi_idx _ _ _ Hw). pose proof (wi_start _ _ _ Hw).
  unfold TakeAllTimeout. rewrite wheel_init_id by lia. cbv zeta.
  rewrite (decide_False (P := now < ullStart t)) by lia.
  rewrite (wrapu_id 64 (now - ullStart t)), narrow_id by lia.
  set (cnt := if decide (iItemSize t < now - ullStart t + 1) then _ else _).
  assert (Hcnt : cnt = Z.min (now - ullStart t + 1) (iItemSize t)).
  { unfold cnt. case_decide; lia. }
  set (n := Z.to_nat cnt). assert (Hn : Z.of_nat n = cnt) by (unfold n; lia).
  rewrite decide_False by lia.
  destruct (take_slots_rep n 0 t r h s) as (h' & -> & Hr'); [done|lia|lia|done| |apply Hw|lia|lia|].
  { apply elem_of_dom. by rewrite Hrs. }
  simpl. rewrite wraps_id by lia. rewrite <-Hn.
  destruct (take_spec_lookup n 0 t r rs s) as (Hits & Hres & _ & Hkeep);
    [lia|done|apply Hw|done|lia|lia|].
  destruct (take_due_inv t exp s r rs now n) as [Hw' Hin]; [done|done|done|lia..|].
  eexists _, h', (take_spec n 0 t r s), (due n 0 t s). split_and!; try done.
  - intros x. rewrite (elem_of_due t exp) by (done || lia). split; [intros [??]; split; [done|lia]|].
    intros [Hx Hle]. split; [done|]. destruct Hx as (a & xs & Ha & Hl & Hx).
    destruct (wi_items _ _ _ Hw _ _ _ Ha Hl Hx) as [Hc _]. unfold covers in Hc. lia.
  - apply (due_sorted t exp); [done|lia|lia].
  - intros k Hkr Hk. apply Hkeep; [done|]. intros j _ ->. apply Hk, slot_of_is_slot. lia.
Qed.

(** C3.  [TakeAllTimeout] at a time [now] not before the wheel's start, and
    less than 2^31 ms after it, moves exactly the items that expire at or
    before [now] to the end of the result list, in order of expiry; every
    other item stays in the wheel, every other list is untouched, and the
    wheel is well-formed with [now] as its new start. *)
Theorem TakeAllTimeout_correct t exp h s r rs now :
  rep h s → wheel_inv t exp s → ¬ is_slot t r → ls s !! r = Some rs →
  ullStart t ≤ now < ullStart t + 2 ^ 31 - 1 → now < 2 ^ 63 →
  llStartIdx t + iItemSize t ≤ 2 ^ 62 →
  ∃ t' h' s' taken,
    TakeAllTimeout t now r h = Some (t', h') ∧ rep h' s' ∧ wheel_inv t' exp s' ∧
    ullStart t' = now ∧ its s' = its s ∧
    ls s' !! r = Some (rs ++ taken) ∧
    (∀ x, x ∈ taken ↔ in_wheel t s x ∧ exp x ≤ now) ∧
    StronglySorted (λ x y, exp x ≤ exp y) taken ∧
    (∀ x, in_wheel t' s' x ↔ in_wheel t s x ∧ now < exp x) ∧
    (∀ k, k ≠ r → ¬ is_slot t k → ls s' !! k = ls s !! k).
Proof. apply TakeAllTimeout_spec. Qed.

(** ** The narrowing to [int] *)

Lemma s32_u64 z :
  s32 (u64 z) = if decide (z mod 2 ^ 32 < 2 ^ 31) then z mod 2 ^ 32 else z mod 2 ^ 32 - 2 ^ 32.
Proof.
  assert (Hm : (z mod 2 ^ 64) mod 2 ^ 32 = z mod 2 ^ 32).
  { symmetry. apply Znumtheory.Zmod_div_mod; [lia..|]. by exists (2 ^ 32). }
  unfold wrapu, wraps. change (2 ^ (32 - 1)) with (2 ^ 31).
  rewrite <-Z.add_mod_idemp_l, Hm by lia.
  pose proof (Z.mod_pos_bound z (2 ^ 32) ltac:(lia)). set (m := z mod 2 ^ 32) in *.
  case_decide.
  - rewrite Z.mod_small; lia.
  - replace (m + 2 ^ 31) with ((m - 2 ^ 31) + 1 * 2 ^ 32) by lia.
    rewrite Z.mod_add, Z.mod_small; lia.
Qed.

Lemma TakeAllTimeout_narrow t exp h s r rs now :
  rep h s → wheel_inv t exp s → ¬ is_slot t r → ls s !! r = Some rs →
  ullStart t ≤ now < 2 ^ 63 → llStartIdx t + iItemSize t ≤ 2 ^ 62 →
  let c := late_count t now in
  let n := Z.to_nat (Z.min c (iItemSize t)) in
  (2 ^ 31 ≤ c → TakeAllTimeout t now r h = Some (t, h)) ∧
  (c < 2 ^ 31 → ∃ h' s',
    TakeAllTimeout t now r h =
      Some (Wheel (pItems t) (iItemSize t) now (llStartIdx t + Z.min c (iItemSize t) - 1), h') ∧
    rep h' s' ∧ its s' = its s ∧
    ls s' !! r = Some (rs ++ due n 0 t s) ∧
    (∀ y, y ∈ due n 0 t s ↔
      in_wheel t s y ∧ exp y < ullStart t + Z.min c (iItemSize t)) ∧
    (∀ k, k ≠ r → (∀ j, 0 ≤ j < Z.min c (iItemSize t) → k ≠ slot_of t (ullStart t + j)) →
      ls s' !! k = ls s !! k)).
Proof.
  intros Hr Hw Hnr Hrs Hnow Hib c n.
  pose proof (wi_size _ _ _ Hw). pose proof (wi_idx _ _ _ Hw). pose proof (wi_start _ _ _ Hw).
  pose proof (Z.mod_pos_bound (now - ullStart t + 1) (2 ^ 32) ltac:(lia)) as Hc.
  fold (late_count t now) in Hc. fold c in Hc.
  unfold TakeAllTimeout. rewrite wheel_init_id by lia. cbv zeta.
  rewrite (decide_False (P := now < ullStart t)) by lia.
  rewrite (wrapu_id 64 (now - ullStart t)), s32_u64 by lia.
  fold (late_count t now). fold c. split; intros Hcase.
  - rewrite (decide_False (P := c < 2 ^ 31)) by lia.
    rewrite (decide_False (P := iItemSize t < _)) by lia. by rewrite decide_True by lia.
  - rewrite (decide_True (P := c < 2 ^ 31)) by done.
    replace (if decide (iItemSize t < c) then iItemSize t else c) with (Z.min c (iItemSize t))
      by (case_decide; lia).
    rewrite decide_False by lia. fold n. assert (Hn : Z.of_nat n = Z.min c (iItemSize t)) by lia.
    destruct (take_slots_rep n 0 t r h s) as (h' & -> & Hr'); [done|lia|lia|done| |apply Hw|lia|lia|].
    { apply elem_of_dom. by rewrite Hrs. }
    cbn [mbind option_bind]. rewrite wraps_id by lia.
    replace (llStartIdx t + (Z.min c (iItemSize t) - 1))
      with (llStartIdx t + Z.min c (iItemSize t) - 1) by lia.
    destruct (take_spec_lookup n 0 t r rs s) as (Hits & Hres & _ & Hkeep);
      [lia|done|apply Hw|done|lia|lia|].
    exists h', (take_spec n 0 t r s). rewrite <-Hn. split_and!; [done..| |].
    + intros y. rewrite (elem_of_due t exp) by (done || lia).
      split; [intros [??]; split; [done|lia]|].
      intros [Hy Hlt]. split; [done|]. destruct Hy as (a & xs & Ha & Hl & Hy).
      destruct (wi_items _ _ _ Hw _ _ _ Ha Hl Hy) as [Hcv _]. unfold covers in Hcv. lia.
    + intros k Hkr Hk. apply Hkeep; [done|]. intros j Hj. apply Hk. lia.
Qed.

Lemma slot_at_rem t z :
  0 < iItemSize t →
  slot_at t (Z.rem z (iItemSize t)) =
    if decide (z < 0 ∧ z mod iItemSize t ≠ 0) then None else Some (pItems t + z mod iItemSize t).
Proof.
  intros Hs. unfold slot_at. case_decide as Hz.
  - rewrite option_guard_False; [done|]. intros [Hge _]. apply Hz.
    assert (Hz0 : Z.rem z (iItemSize t) = 0).
    { pose proof (Z.rem_nonpos z (iItemSize t) ltac:(lia) ltac:(lia)). by apply Z.le_antisymm. }
    apply Z.rem_divide in Hz0; [|lia]. by apply Z.mod_divide; [lia|].
  - pose proof (Z.mod_pos_bound z (iItemSize t) Hs).
    destruct (decide (z < 0)) as [Hlt|].
    + assert (Hm : z mod iItemSize t = 0) by (destruct (decide (z mod iItemSize t = 0)); naive_solver).
      assert (Hrem : Z.rem z (iItemSize t) = 0).
      { apply Z.rem_divide; [lia|]. by apply Z.mod_divide; [lia|]. }
      rewrite Hrem, Hm, option_guard_True; [done|lia].
    + rewrite Z.rem_mod_nonneg by lia. by rewrite option_guard_True.
Qed.

Lemma AddTimeout_narrow t exp h s x now :
  rep h s → wheel_inv t exp s → x ∈ its s → ¬ linked s x →
  ullStart t ≤ now ≤ exp x → exp x < 2 ^ 63 →
  let z := llStartIdx t + int_diff t (exp x) in
  (iItemSize t ≤ int_diff t (exp x) → AddTimeout t x (exp x) now h = Some (478, t, h)) ∧
  (int_diff t (exp x) < iItemSize t → z < 0 → z mod iItemSize t ≠ 0 →
    AddTimeout t x (exp x) now h = None) ∧
  (int_diff t (exp x) < iItemSize t → 0 ≤ z ∨ z mod iItemSize t = 0 → ∃ h',
    AddTimeout t x (exp x) now h = Some (0, t, h') ∧
    rep h' (add_tail_spec (pItems t + z mod iItemSize t) x s)).
Proof.
  intros Hr Hw Hx Hnl Hnow Hb z.
  pose proof (wi_size _ _ _ Hw). pose proof (wi_idx _ _ _ Hw). pose proof (wi_start _ _ _ Hw).
  assert (Hd : - 2 ^ 31 ≤ int_diff t (exp x) < 2 ^ 31).
  { unfold int_diff. pose proof (Z.mod_pos_bound (exp x - ullStart t) (2 ^ 32) ltac:(lia)).
    cbv zeta. case_decide; lia. }
  unfold AddTimeout. rewrite wheel_init_id by lia. cbv zeta.
  rewrite (decide_False (P := now < _)), (decide_False (P := exp x < now)) by lia.
  rewrite s32_u64. fold (int_diff t (exp x)). split_and!; intros Hsz.
  - by rewrite decide_True.
  - intros Hz Hm. rewrite decide_False by lia. fold z. rewrite wraps_id by lia.
    rewrite slot_at_rem, decide_True by (done || lia). done.
  - intros Hz. rewrite decide_False by lia. fold z. rewrite wraps_id by lia.
    rewrite slot_at_rem, decide_False by (naive_solver lia). cbn [mbind option_bind].
    destruct (op_add_tail_law h s (pItems t + z mod iItemSize t) x Hr) as (h' & -> & Hr'); [|done|].
    { apply Hw. unfold is_slot. pose proof (Z.mod_pos_bound z (iItemSize t)). lia. }
    by exists h'.
Qed.

(** C4.  What the two narrowings to [int] do, for every time since the wheel
    was last used.  With [c] the number of slots that are late, modulo 2^32:
    when [c] is 2^31 or more, [TakeAllTimeout] takes nothing and leaves the
    wheel where it is, however late its items are; otherwise it takes the
    items of the first [c] milliseconds (of all of them, when [c] is the size
    or more), which after 2^32 - 1 ms may be fewer than are due, and sets the
    start to [now] all the same, so that what it left behind is no longer in
    the slot of its time ([c = 0] turns the index back by one).  [AddTimeout]
    computes with the distance as an [int]: beyond the size it refuses the
    item; a slot index that is negative and not a multiple of the size lies
    before the array; in every other case it files the item and returns 0.  (The
    times are below 2^63 and the index below 2^62.) *)
Theorem wheel_narrows_time t exp h s r rs now :
  rep h s → wheel_inv t exp s → ¬ is_slot t r → ls s !! r = Some rs →
  ullStart t ≤ now < 2 ^ 63 → llStartIdx t + iItemSize t ≤ 2 ^ 62 →
  let c := late_count t now in
  let n := Z.to_nat (Z.min c (iItemSize t)) in
  (2 ^ 31 ≤ c → TakeAllTimeout t now r h = Some (t, h)) ∧
  (c < 2 ^ 31 → ∃ h' s',
    TakeAllTimeout t now r h =
      Some (Wheel (pItems t) (iItemSize t) now (llStartIdx t + Z.min c (iItemSize t) - 1), h') ∧
    rep h' s' ∧ its s' = its s ∧
    ls s' !! r = Some (rs ++ due n 0 t s) ∧
    (∀ y, y ∈ due n 0 t s ↔
      in_wheel t s y ∧ exp y < ullStart t + Z.min c (iItemSize t)) ∧
    (∀ k, k ≠ r → (∀ j, 0 ≤ j < Z.min c (iItemSize t) → k ≠ slot_of t (ullStart t + j)) →
      ls s' !! k = ls s !! k)) ∧
  (∀ x, x ∈ its s → ¬ linked s x → now ≤ exp x < 2 ^ 63 →
    let z := llStartIdx t + int_diff t (exp x) in
    (iItemSize t ≤ int_diff t (exp x) → AddTimeout t x (exp x) now h = Some (478, t, h)) ∧
    (int_diff t (exp x) < iItemSize t → z < 0 → z mod iItemSize t ≠ 0 →
      AddTimeout t x (exp x) now h = None) ∧
    (int_diff t (exp x) < iItemSize t → 0 ≤ z ∨ z mod iItemSize t = 0 → ∃ h',
      AddTimeout t x (exp x) now h = Some (0, t, h') ∧
      rep h' (add_tail_spec (pItems t + z mod iItemSize t) x s))).
Proof.
  intros Hr Hw Hnr Hrs Hnow Hib c n.
  destruct (TakeAllTimeout_narrow t exp h s r rs now Hr Hw Hnr Hrs Hnow Hib) as [? ?].
  split_and!; [done..|]. intros x Hx Hnl He. apply AddTimeout_narrow; done || lia.
Qed.
End wheel.

(** ** Witnesses *)

Lemma demo_rep : rep demo_heap demo_lists.
Proof.
  destruct (run_cmds_rep demo_setup empty_heap empty_lists) as (h' & Hh' & Hr);
    [apply empty_represents|by vm_compute|].
  unfold demo_heap. rewrite Hh'. exact Hr.
Qed.

Lemma demo_slots (P : Z → Prop) : P 0 → P 1 → P 2 → P 3 → ∀ a, is_slot demo_wheel a → P a.
Proof.
  intros ? ? ? ? a. unfold is_slot. simpl. intros.
  assert (a = 0 ∨ a = 1 ∨ a = 2 ∨ a = 3) as [->|[->|[->| ->]]] by lia; done.
Qed.

Lemma demo_inv e9 : wheel_inv demo_wheel (demo_exp e9) demo_lists.
Proof.
  split; [done..| |].
  - apply demo_slots; by apply elem_of_dom; vm_compute; eauto.
  - intros a xs x Ha. revert a Ha.
    apply (demo_slots (λ a, ls demo_lists !! a = Some xs → x ∈ xs → _));
      vm_compute (ls demo_lists !! _); intros [= <-] Hx;
      rewrite ?list_elem_of_singleton, ?elem_of_nil in Hx; subst; done.
Qed.

Lemma AddTimeout_correct_witness :
  ∃ h', AddTimeout demo_wheel 9 (demo_exp 1002 9) 1001 demo_heap = Some (0, demo_wheel, h') ∧
    represents h' (add_tail_spec 0 9 demo_lists).
Proof.
  destruct (AddTimeout_correct (H:=heap) demo_wheel (demo_exp 1002) demo_heap demo_lists 9 1001
    demo_rep (demo_inv 1002)) as (_ & _ & _ & Hok).
  - apply (bool_decide_eq_true_1 _). by vm_compute.
  - apply (bool_decide_eq_false_1 (linked demo_lists 9)). by vm_compute.
  - done.
  - destruct Hok as (h' & Hh' & Hr & _); [done..|]. exists h'. split; [exact Hh'|exact Hr].
Defined.

Lemma TakeAllTimeout_correct_witness :
  ∃ t' h' s' taken, TakeAllTimeout demo_wheel 1002 100 demo_heap = Some (t', h') ∧
    represents h' s' ∧ ls s' !! 100 = Some ([] ++ taken) ∧ 7 ∈ taken ∧ in_wheel t' s' 8.
Proof.
  destruct (TakeAllTimeout_correct (H:=heap) demo_wheel (demo_exp 1002) demo_heap demo_lists 100 [] 1002)
    as (t' & h' & s' & tk & Ht & Hr & _ & _ & _ & Hres & Htk & _ & Hin & _);
    [exact demo_rep|exact (demo_inv 1002)|unfold is_slot; simpl; lia|by vm_compute|done..|].
  exists t', h', s', tk. split_and!; [exact Ht|exact Hr|exact Hres| |].
  - apply Htk. split; [|done]. exists 3, [7]. split; [unfold is_slot; simpl; lia|split; [vm_compute; reflexivity|left]].
  - apply Hin. split; [|done]. exists 1, [8]. split; [unfold is_slot; simpl; lia|split; [vm_compute; reflexivity|left]].
Defined.

Lemma wheel_narrows_time_witness :
  TakeAllTimeout demo_wheel (1005 + 2 ^ 31) 100 demo_heap = Some (demo_wheel, demo_heap) ∧
  AddTimeout demo_wheel 9 (1011 + 2 ^ 31) (1005 + 2 ^ 31) demo_heap = None ∧
  ∃ h', TakeAllTimeout demo_wheel (999 + 2 ^ 32) 100 demo_heap =
    Some (Wheel 0 4 (999 + 2 ^ 32) 1, h').
Proof.
  destruct (wheel_narrows_time (H:=heap) demo_wheel (demo_exp (1011 + 2 ^ 31)) demo_heap
    demo_lists 100 [] (1005 + 2 ^ 31)) as (Htake & _ & Hadd);
    [exact demo_rep|exact (demo_inv _)|unfold is_slot; simpl; lia|by vm_compute|simpl; lia|done|].
  destruct (wheel_narrows_time (H:=heap) demo_wheel (demo_exp (1011 + 2 ^ 31)) demo_heap
    demo_lists 100 [] (999 + 2 ^ 32)) as (_ & Hwrap & _);
    [exact demo_rep|exact (demo_inv _)|unfold is_slot; simpl; lia|by vm_compute|simpl; lia|done|].
  split_and!; [apply Htake; by vm_compute| |].
  - destruct (Hadd 9) as (_ & Hneg & _).
    + apply (bool_decide_eq_true_1 _). by vm_compute.
    + apply (bool_decide_eq_false_1 (linked demo_lists 9)). by vm_compute.
    + vm_compute. by split.
    + apply Hneg; by vm_compute.
  - destruct Hwrap as (h' & s' & Ht & _); [by vm_compute|]. exists h'. exact Ht.
Defined.
