(* ===== verification/CoCtx.v ===== *)
(** * Context switching (libco/coctx.cpp, libco/coctx_swap.S)

    The x86-64 branch of [coctx_swap], instruction by instruction over a
    machine of 64-bit registers and word-addressed memory, and [coctx_make]
    and [coctx_init], which prepare a context.  Addresses are multiples of 8
    and do not wrap. *)

From S2P Require Import Prelude.

Local Open Scope Z_scope.

(** ** The machine *)

Inductive reg :=
  | RAX | RBX | RCX | RDX | RSI | RDI | RBP | RSP
  | R8 | R9 | R10 | R11 | R12 | R13 | R14 | R15.

#[export] Instance reg_eq_dec : EqDecision reg.
Proof. solve_decision. Defined.

Record machine := Machine {
  regs : reg → Z;
  mem : Z → Z;
  rip : Z;
}.

Definition set_reg (r : reg) (v : Z) (m : machine) : machine :=
  Machine (λ r', if decide (r' = r) then v else regs m r') (mem m) (rip m).

Definition set_mem (a v : Z) (m : machine) : machine :=
  Machine (regs m) (λ a', if decide (a' = a) then v else mem m a') (rip m).

Definition set_rip (v : Z) (m : machine) : machine := Machine (regs m) (mem m) v.

(** The instructions of coctx_swap.S, in AT&T operand order. *)
Inductive instr :=
  | Leaq (disp : Z) (base dst : reg)
  | Pushq (src : reg)
  | PushqMem (disp : Z) (base : reg)
  | Popq (dst : reg)
  | Movq (src dst : reg)
  | XorlSelf (r : reg)
  | Ret.

Definition push (v : Z) (m : machine) : machine :=
  let m := set_reg RSP (regs m RSP - 8) m in set_mem (regs m RSP) v m.

(** [popq %rsp] leaves the popped value in [rsp]: the increment comes first. *)
Definition exec (i : instr) (m : machine) : machine :=
  match i with
  | Leaq d b dst => set_reg dst (regs m b + d) m
  | Pushq r => push (regs m r) m
  | PushqMem d b => push (mem m (regs m b + d)) m
  | Popq r =>
      let v := mem m (regs m RSP) in
      set_reg r v (set_reg RSP (regs m RSP + 8) m)
  | Movq s d => set_reg d (regs m s) m
  | XorlSelf r => set_reg r 0 m
  | Ret =>
      let v := mem m (regs m RSP) in
      set_rip v (set_reg RSP (regs m RSP + 8) m)
  end.

Fixpoint exec_all (code : list instr) (m : machine) : machine :=
  match code with [] => m | i :: code => exec_all code (exec i m) end.

(** ** coctx_swap *)

(** The first half stores the caller's registers downwards from
    [&regs\[14\]]; the second loads the other context upwards from
    [&regs\[0\]]. *)
Definition swap_save : list instr :=
  [ Leaq 8 RSP RAX; Leaq 112 RDI RSP;
    Pushq RAX; Pushq RBX; Pushq RCX; Pushq RDX;
    PushqMem (-8) RAX;
    Pushq RSI; Pushq RDI; Pushq RBP; Pushq R8; Pushq R9;
    Pushq R12; Pushq R13; Pushq R14; Pushq R15 ].

Definition swap_load : list instr :=
  [ Movq RSI RSP;
    Popq R15; Popq R14; Popq R13; Popq R12; Popq R9; Popq R8; Popq RBP;
    Popq RDI; Popq RSI; Popq RAX; Popq RDX; Popq RCX; Popq RBX; Popq RSP;
    Pushq RAX; XorlSelf RAX; Ret ].

Definition coctx_swap (m : machine) : machine := exec_all (swap_save ++ swap_load) m.

(** ** coctx_t and coctx_make *)

(** The layout of [coctx_t]: [regs\[14\]], [ss_size], [ss_sp]. *)
Definition reg_at (ctx k : Z) : Z := ctx + 8 * k.
Definition ss_size_at (ctx : Z) : Z := ctx + 112.
Definition ss_sp_at (ctx : Z) : Z := ctx + 120.

Definition kRDI : Z := 7.
Definition kRSI : Z := 8.
Definition kRETAddr : Z := 9.
Definition kRSP : Z := 13.

(** [memset] of [n] words to zero. *)
Fixpoint zero_words (n : nat) (a : Z) (m : machine) : machine :=
  match n with O => m | S n => zero_words n (a + 8) (set_mem a 0 m) end.

Definition coctx_make (ctx pfn s s1 : Z) (m : machine) : machine :=
  let sp := mem m (ss_sp_at ctx) + mem m (ss_size_at ctx) in
  let sp := Z.land sp (-16) in
  let m := zero_words 14 ctx m in
  let m := set_mem (reg_at ctx kRSP) (sp - 8) m in
  let m := set_mem (reg_at ctx kRETAddr) pfn m in
  let m := set_mem (reg_at ctx kRDI) s m in
  set_mem (reg_at ctx kRSI) s1 m.

Definition coctx_init (ctx : Z) (m : machine) : machine := zero_words 16 ctx m.

(** ** What a saved context means *)

(** The slot of [regs] in which [coctx_swap] keeps a register. *)
Definition slot_of_reg (r : reg) : option Z :=
  match r with
  | R15 => Some 0 | R14 => Some 1 | R13 => Some 2 | R12 => Some 3
  | R9 => Some 4 | R8 => Some 5 | RBP => Some 6 | RDI => Some 7 | RSI => Some 8
  | RDX => Some 10 | RCX => Some 11 | RBX => Some 12
  | RAX | RSP | R10 | R11 => None
  end.

(** [ctx] holds the registers of [m0] and its continuation after the call
    that [m0] is about to return from. *)
Definition saved (ctx : Z) (m0 m : machine) : Prop :=
  (∀ r k, slot_of_reg r = Some k → mem m (reg_at ctx k) = regs m0 r) ∧
  mem m (reg_at ctx kRETAddr) = mem m0 (regs m0 RSP) ∧
  mem m (reg_at ctx kRSP) = regs m0 RSP + 8.

(** The machine [m] runs on as [m0] would after returning: its registers and
    stack pointer, with 0 as the result. *)
Definition resumes (m0 m : machine) : Prop :=
  (∀ r k, slot_of_reg r = Some k → regs m r = regs m0 r) ∧
  regs m RSP = regs m0 RSP + 8 ∧ rip m = mem m0 (regs m0 RSP) ∧ regs m RAX = 0.

(** [m'] has loaded the context [ctx] of [m]. *)
Definition loaded (ctx : Z) (m m' : machine) : Prop :=
  (∀ r k, slot_of_reg r = Some k → regs m' r = mem m (reg_at ctx k)) ∧
  regs m' RSP = mem m (reg_at ctx kRSP) ∧ rip m' = mem m (reg_at ctx kRETAddr) ∧
  regs m' RAX = 0 ∧ regs m' R10 = regs m R10 ∧ regs m' R11 = regs m R11.

(** [a] is outside the register array of [ctx]. *)
Definition outside (ctx a : Z) : Prop := a < ctx ∨ ctx + 112 ≤ a.

(** The register arrays of two contexts do not overlap. *)
Definition apart (c1 c2 : Z) : Prop := c1 + 112 ≤ c2 ∨ c2 + 112 ≤ c1.

(** A machine whose caller runs in the context at 1000 and is about to switch
    to the one at 2000, and the machine that switches back. *)
Definition demo_machine : machine :=
  Machine
    (λ r, match r with RDI => 1000 | RSI => 2000 | RSP => 5000 | RBX => 3 | _ => 0 end)
    (λ a, if decide (a = 5000) then 400
          else if decide (a = 2104) then 7008
          else if decide (a = 2072) then 500
          else if decide (a = 2112) then 100
          else if decide (a = 2120) then 8000 else a)
    100.

Definition demo_back : machine :=
  set_reg RDI 2000 (set_reg RSI 1000 (set_reg RBX 9 (coctx_swap demo_machine))).

Definition demo_fresh : machine := coctx_make 2000 77 78 79 demo_machine.

(** ** Executing the two halves *)

Lemma slot_of_reg_bound r k :
  slot_of_reg r = Some k →
  0 ≤ k < 14 ∧ k ≠ kRSP ∧ k ≠ kRETAddr ∧ (r ≠ RDI → k ≠ kRDI) ∧ (r ≠ RSI → k ≠ kRSI).
Proof. by destruct r; simpl; intros [= <-]. Qed.

Lemma mem_set a v m a' : mem (set_mem a v m) a' = if decide (a' = a) then v else mem m a'.
Proof. done. Qed.

Lemma swap_save_spec m :
  let m' := exec_all swap_save m in
  outside (regs m RDI) (regs m RSP) →
  saved (regs m RDI) m m' ∧ (∀ r, r ≠ RAX → r ≠ RSP → regs m' r = regs m r) ∧
  (∀ a, outside (regs m RDI) a → mem m' a = mem m a).
Proof.
  intros m' Ho. unfold outside in Ho. unfold saved, m', swap_save. simpl.
  unfold reg_at, kRETAddr, kRSP.
  split; [split; [|split]|split].
  - intros r k. destruct r; simpl; intros [= <-]; repeat (rewrite decide_False by lia); by rewrite decide_True by lia.
  - repeat (rewrite decide_False by lia). rewrite decide_True by lia.
    repeat (rewrite decide_False by lia). f_equal. lia.
  - repeat (rewrite decide_False by lia). by rewrite decide_True by lia.
  - intros r ??. by repeat (rewrite decide_False by done).
  - intros a Ha. unfold outside in Ha. by repeat (rewrite decide_False by lia).
Qed.

Lemma swap_load_spec m :
  let m' := exec_all swap_load m in
  let sp := mem m (reg_at (regs m RSI) kRSP) in
  loaded (regs m RSI) m m' ∧
  (∀ a, mem m' a = if decide (a = sp - 8) then mem m (reg_at (regs m RSI) kRETAddr) else mem m a).
Proof.
  intros m' sp. unfold loaded, m', sp, swap_load. simpl. unfold reg_at, kRETAddr, kRSP.
  rewrite ?decide_True by done.
  split; [split; [|split_and!]|].
  - intros r k. destruct r; simpl; intros [= <-]; f_equal; lia.
  - match goal with |- mem m ?x - 8 + 8 = _ => replace x with (regs m RSI + 8 * 13) by lia end. lia.
  - f_equal; lia.
  - done.
  - done.
  - done.
  - intros a.
    match goal with |- (if decide (_ = mem m ?x - 8) then _ else _) = _ => replace x with (regs m RSI + 8 * 13) by lia end.
    case_decide; [f_equal; lia|done].
Qed.

Lemma exec_all_app c1 c2 m : exec_all (c1 ++ c2) m = exec_all c2 (exec_all c1 m).
Proof. revert m. induction c1; simpl; auto. Qed.

Lemma coctx_swap_halves m m1 m' :
  m1 = exec_all swap_save m → m' = coctx_swap m → m' = exec_all swap_load m1.
Proof. intros -> ->. apply exec_all_app. Qed.

Lemma swap_spec m :
  outside (regs m RDI) (regs m RSP) → apart (regs m RDI) (regs m RSI) →
  let m' := coctx_swap m in
  let sp := mem m (reg_at (regs m RSI) kRSP) in
  (outside (regs m RDI) (sp - 8) → saved (regs m RDI) m m') ∧
  loaded (regs m RSI) m m' ∧
  (∀ a, outside (regs m RDI) a → a ≠ sp - 8 → mem m' a = mem m a) ∧
  mem m' (sp - 8) = mem m (reg_at (regs m RSI) kRETAddr).
Proof.
  intros Ho Ha m' sp.
  pose proof (swap_save_spec m Ho) as (Hs & Hr & Hm).
  remember (exec_all swap_save m) as m1 eqn:Hm1.
  assert (Hm' : m' = exec_all swap_load m1) by (by apply (coctx_swap_halves m)).
  destruct (swap_load_spec m1) as (Hl & Hm2). rewrite <-Hm' in Hl, Hm2.
  clear Hm' Hm1. clearbody m'.
  rewrite (Hr RSI) in Hl, Hm2 by done.
  assert (Hb : ∀ k, 0 ≤ k < 14 → mem m1 (reg_at (regs m RSI) k) = mem m (reg_at (regs m RSI) k)).
  { intros k Hk. apply Hm. unfold outside, reg_at, apart in *. lia. }
  rewrite (Hb kRSP), (Hb kRETAddr) in Hm2 by done. fold sp in Hm2.
  split_and!.
  - intros Hsp. destruct Hs as (Hs1 & Hs2 & Hs3).
    assert (Hne : ∀ k, 0 ≤ k < 14 → mem m' (reg_at (regs m RDI) k) = mem m1 (reg_at (regs m RDI) k)).
    { intros k Hk. rewrite Hm2, decide_False; [done|]. unfold outside, reg_at in *. lia. }
    split_and!; [|by rewrite Hne..]. intros r k Hk. rewrite Hne; [by apply Hs1|].
    by apply slot_of_reg_bound in Hk as [? _].
  - destruct Hl as (H1 & H2 & H3 & H4 & H5 & H6). rewrite (Hb kRSP) in H2 by done.
    rewrite (Hb kRETAddr) in H3 by done. rewrite !Hr in H5, H6 by done.
    split_and!; [|done..]. intros r k Hk. rewrite <-Hb; [by apply H1|].
    by apply slot_of_reg_bound in Hk as [? _].
  - intros a Hoa Hne. rewrite Hm2, decide_False by done. by apply Hm.
  - by rewrite Hm2, decide_True.
Qed.

Lemma zero_words_spec n a m :
  let m' := zero_words n a m in
  (∀ k, 0 ≤ k < Z.of_nat n → mem m' (a + 8 * k) = 0) ∧
  (∀ x, x < a ∨ a + 8 * Z.of_nat n ≤ x → mem m' x = mem m x) ∧
  regs m' = regs m ∧ rip m' = rip m.
Proof.
  revert a m. induction n as [|n IH]; intros a m; simpl; [by split_and!; [lia|..]|].
  destruct (IH (a + 8) (set_mem a 0 m)) as (Hz & Hk & -> & ->). split_and!; [|..|done|done].
  - intros k Hk'. destruct (decide (k = 0)) as [->|].
    + rewrite Hk by lia. simpl. by rewrite decide_True by lia.
    + replace (a + 8 * k) with (a + 8 + 8 * (k - 1)) by lia. apply Hz. lia.
  - intros x Hx. rewrite Hk by lia. simpl. by rewrite decide_False by lia.
Qed.

Lemma land_m16 z : Z.land z (-16) = z - z mod 16.
Proof.
  replace (-16) with (Z.lnot (Z.ones 4)) by done.
  rewrite <-Z.ldiff_land, Z.ldiff_ones_r, Z.shiftl_mul_pow2, Z.shiftr_div_pow2 by lia.
  replace (2 ^ 4) with 16 by done. pose proof (Z.div_mod z 16). lia.
Qed.

(** The context that [coctx_make] leaves behind. *)
Lemma coctx_make_spec ctx pfn s s1 m :
  let m' := coctx_make ctx pfn s s1 m in
  let sp := Z.land (mem m (ss_sp_at ctx) + mem m (ss_size_at ctx)) (-16) in
  mem m' (reg_at ctx kRSP) = sp - 8 ∧ mem m' (reg_at ctx kRETAddr) = pfn ∧
  mem m' (reg_at ctx kRDI) = s ∧ mem m' (reg_at ctx kRSI) = s1 ∧
  (∀ k, 0 ≤ k < 14 → k ≠ kRSP → k ≠ kRETAddr → k ≠ kRDI → k ≠ kRSI → mem m' (reg_at ctx k) = 0) ∧
  (∀ a, outside ctx a → mem m' a = mem m a) ∧ regs m' = regs m.
Proof.
  intros m' sp. unfold m', coctx_make. fold sp.
  pose proof (zero_words_spec 14 ctx m) as (Hz & Hk & Hr & _).
  set (z := zero_words 14 ctx m) in *. clearbody z. simpl. unfold reg_at, kRSP, kRETAddr, kRDI, kRSI, outside in *. split_and!.
  - repeat (rewrite decide_False by lia). by rewrite decide_True by lia.
  - repeat (rewrite decide_False by lia). by rewrite decide_True by lia.
  - repeat (rewrite decide_False by lia). by rewrite decide_True by lia.
  - by rewrite decide_True by lia.
  - intros k Hk' ????. repeat (rewrite decide_False by lia). by apply Hz.
  - intros a Ha. repeat (rewrite decide_False by lia). by apply Hk.
  - exact Hr.
Qed.

#[local] Opaque coctx_swap coctx_make.

(** ** Properties *)

(** C5.  A switch away and back is a call that returns.  Let the context [a]
    be stored by a [coctx_swap] out of the machine [m0].  Whatever runs in
    between, if the 14 words of [a] are as they were stored when another
    context calls [coctx_swap] to switch to [a], then execution continues
    at the return address of the first call, with the stack pointer just above
    it, all the registers of [m0] that [coctx_t] keeps, and 0 as the result;
    no memory changes but the register array that the second switch fills and
    the word of the return address. *)
Theorem coctx_swap_roundtrip (m0 m2 : machine) :
  let a := regs m0 RDI in
  outside a (regs m0 RSP) → apart a (regs m0 RSI) →
  outside a (mem m0 (reg_at (regs m0 RSI) kRSP) - 8) →
  (∀ k, 0 ≤ k < 14 → mem m2 (reg_at a k) = mem (coctx_swap m0) (reg_at a k)) →
  regs m2 RSI = a → outside (regs m2 RDI) (regs m2 RSP) → apart (regs m2 RDI) a →
  resumes m0 (coctx_swap m2) ∧
  (∀ x, outside (regs m2 RDI) x → x ≠ regs m0 RSP → mem (coctx_swap m2) x = mem m2 x).
Proof.
  intros a Ho0 Ha0 Hsp Hkeep Hsi Ho2 Ha2.
  destruct (swap_spec m0 Ho0 Ha0) as (Hsaved & _). fold a in Hsaved.
  destruct (Hsaved Hsp) as (Hs1 & Hs2 & Hs3).
  destruct (swap_spec m2 Ho2) as (_ & (Hl1 & Hl2 & Hl3 & Hl4 & _ & _) & Hmem & _); [by rewrite Hsi|].
  unfold a in *. rewrite Hsi in Hl1, Hl2, Hl3, Hmem.
  rewrite (Hkeep kRSP), Hs3 in Hl2, Hmem by done. rewrite (Hkeep kRETAddr), Hs2 in Hl3 by done.
  split; [split_and!|].
  - intros r k Hk. rewrite (Hl1 r k Hk), Hkeep; [by apply Hs1|].
    by apply slot_of_reg_bound in Hk as [? _].
  - done.
  - done.
  - done.
  - intros x Hx Hne. apply Hmem; [done|lia].
Qed.

(** C6.  The first switch to a fresh context enters its function.  After
    [coctx_make] on a context whose stack has at least 32 bytes, a switch to
    it from any machine that left its register array alone starts [pfn] with
    the two arguments in [rdi] and [rsi], the other saved registers zero, and
    the stack pointer inside the stack block, 8 modulo 16 as the ABI requires
    at a function's entry; the only stack word it writes is below the stack
    pointer and inside the block. *)
Theorem coctx_make_entry (ctx pfn s s1 : Z) (m m2 : machine) :
  let base := mem m (ss_sp_at ctx) in
  let size := mem m (ss_size_at ctx) in
  32 ≤ size →
  (∀ k, 0 ≤ k < 14 →
    mem m2 (reg_at ctx k) = mem (coctx_make ctx pfn s s1 m) (reg_at ctx k)) →
  regs m2 RSI = ctx → outside (regs m2 RDI) (regs m2 RSP) → apart (regs m2 RDI) ctx →
  let m' := coctx_swap m2 in
  rip m' = pfn ∧ regs m' RDI = s ∧ regs m' RSI = s1 ∧
  (∀ r k, slot_of_reg r = Some k → r ≠ RDI → r ≠ RSI → regs m' r = 0) ∧
  regs m' RSP mod 16 = 8 ∧ base ≤ regs m' RSP - 8 ∧ regs m' RSP + 8 ≤ base + size ∧
  (∀ x, outside (regs m2 RDI) x → base ≤ x < base + size → x ≠ regs m' RSP - 8 →
    mem m' x = mem m2 x).
Proof.
  intros base size Hsize Hkeep Hsi Ho Ha m'.
  destruct (coctx_make_spec ctx pfn s s1 m) as (Hsp & Hret & Hdi & Hs & Hz & _ & _).
  destruct (swap_spec m2 Ho) as (_ & (Hl1 & Hl2 & Hl3 & _) & Hmem & _); [by rewrite Hsi|].
  fold m' in Hl1, Hl2, Hl3, Hmem. rewrite Hsi in *.
  rewrite (Hkeep kRSP), Hsp in Hl2 by done. rewrite (Hkeep kRSP), Hsp in Hmem by done.
  fold base size in Hl2, Hmem. rewrite land_m16 in Hl2, Hmem.
  pose proof (Z.mod_pos_bound (base + size) 16).
  split_and!.
  - by rewrite Hl3, Hkeep.
  - by rewrite (Hl1 RDI 7), Hkeep.
  - by rewrite (Hl1 RSI 8), Hkeep.
  - intros r k Hk ??. destruct (slot_of_reg_bound r k Hk) as (? & ? & ? & ? & ?).
    rewrite (Hl1 r k Hk), Hkeep by done. apply Hz; auto.
  - rewrite Hl2. pose proof (Z.div_mod (base + size) 16).
    replace (base + size - (base + size) mod 16 - 8) with (8 + ((base + size) / 16 - 1) * 16) by lia.
    by rewrite Z.mod_add by lia.
  - lia.
  - lia.
  - intros x Hx Hb Hne. apply Hmem; [done|lia].
Qed.

(** ** Witnesses *)

Lemma mem_set_reg r v m : mem (set_reg r v m) = mem m.
Proof. done. Qed.

Lemma coctx_swap_roundtrip_witness :
  resumes demo_machine (coctx_swap demo_back) ∧ regs (coctx_swap demo_back) RBX = 3.
Proof.
  destruct (coctx_swap_roundtrip demo_machine demo_back) as [Hr _].
  - right. vm_compute. congruence.
  - left. vm_compute. congruence.
  - right. vm_compute. congruence.
  - intros k Hk. unfold demo_back. by rewrite !mem_set_reg.
  - reflexivity.
  - right. vm_compute. congruence.
  - right. vm_compute. congruence.
  - split; [exact Hr|vm_compute; reflexivity].
Defined.

Lemma coctx_make_entry_witness :
  let m' := coctx_swap demo_fresh in
  rip m' = 77 ∧ regs m' RDI = 78 ∧ regs m' RSI = 79 ∧ regs m' RSP mod 16 = 8.
Proof.
  destruct (coctx_make_entry 2000 77 78 79 demo_machine demo_fresh)
    as (H1 & H2 & H3 & _ & H4 & _).
  - vm_compute. congruence.
  - intros k Hk. reflexivity.
  - reflexivity.
  - right. vm_compute. congruence.
  - left. vm_compute. congruence.
  - split; [exact H1|split; [exact H2|split; [exact H3|exact H4]]].
Defined.
