(* ===== verification/CoCtx32.v ===== *)
(** * Context switching on i386 (libco/coctx.cpp, libco/coctx_swap.S)

    The branch that is compiled for 32-bit x86: [coctx_swap] takes its two
    arguments from the stack, instruction by instruction over a machine of
    32-bit registers and word-addressed memory, and [coctx_make] puts the
    arguments of the coroutine on its stack.  Addresses are multiples of 4 and
    do not wrap. *)

From S2P Require Import Prelude.

Local Open Scope Z_scope.

(** ** The machine *)

Inductive reg := EAX | EBX | ECX | EDX | ESI | EDI | EBP | ESP.

#[export] Instance reg_eq_dec : EqDecision reg.
Proof. solve_decision. Defined.

Record machine := Machine {
  regs : reg → Z;
  mem : Z → Z;
  eip : Z;
}.

Definition set_reg (r : reg) (v : Z) (m : machine) : machine :=
  Machine (λ r', if decide (r' = r) then v else regs m r') (mem m) (eip m).

Definition set_mem (a v : Z) (m : machine) : machine :=
  Machine (regs m) (λ a', if decide (a' = a) then v else mem m a') (eip m).

Definition set_eip (v : Z) (m : machine) : machine := Machine (regs m) (mem m) v.

Inductive instr :=
  | Leal (disp : Z) (base dst : reg)
  | MovlMem (disp : Z) (base dst : reg)
  | Pushl (src : reg)
  | PushlMem (disp : Z) (base : reg)
  | Popl (dst : reg)
  | XorlSelf (r : reg)
  | Ret.

Definition push (v : Z) (m : machine) : machine :=
  let m := set_reg ESP (regs m ESP - 4) m in set_mem (regs m ESP) v m.

(** [popl %esp] leaves the popped value in [esp]: the increment comes first. *)
Definition exec (i : instr) (m : machine) : machine :=
  match i with
  | Leal d b dst => set_reg dst (regs m b + d) m
  | MovlMem d b dst => set_reg dst (mem m (regs m b + d)) m
  | Pushl r => push (regs m r) m
  | PushlMem d b => push (mem m (regs m b + d)) m
  | Popl r =>
      let v := mem m (regs m ESP) in
      set_reg r v (set_reg ESP (regs m ESP + 4) m)
  | XorlSelf r => set_reg r 0 m
  | Ret =>
      let v := mem m (regs m ESP) in
      set_eip v (set_reg ESP (regs m ESP + 4) m)
  end.

Fixpoint exec_all (code : list instr) (m : machine) : machine :=
  match code with [] => m | i :: code => exec_all code (exec i m) end.

(** ** coctx_swap *)

Definition swap_save : list instr :=
  [ Leal 4 ESP EAX; MovlMem 4 ESP ESP; Leal 32 ESP ESP;
    Pushl EAX; Pushl EBP; Pushl ESI; Pushl EDI; Pushl EDX; Pushl ECX; Pushl EBX;
    PushlMem (-4) EAX ].

Definition swap_load : list instr :=
  [ MovlMem 4 EAX ESP;
    Popl EAX; Popl EBX; Popl ECX; Popl EDX; Popl EDI; Popl ESI; Popl EBP; Popl ESP;
    Pushl EAX; XorlSelf EAX; Ret ].

Definition coctx_swap (m : machine) : machine := exec_all (swap_save ++ swap_load) m.

(** ** coctx_t and coctx_make *)

(** The layout of [coctx_t]: [regs\[8\]], [ss_size], [ss_sp]. *)
Definition reg_at (ctx k : Z) : Z := ctx + 4 * k.
Definition ss_size_at (ctx : Z) : Z := ctx + 32.
Definition ss_sp_at (ctx : Z) : Z := ctx + 36.

Definition kEIP : Z := 0.
Definition kESP : Z := 7.

Fixpoint zero_words (n : nat) (a : Z) (m : machine) : machine :=
  match n with O => m | S n => zero_words n (a + 4) (set_mem a 0 m) end.

(** [param->s1] and [param->s2] are the words at [sp]. *)
Definition coctx_make (ctx pfn s s1 : Z) (m : machine) : machine :=
  let sp := mem m (ss_sp_at ctx) + mem m (ss_size_at ctx) - 8 in
  let sp := Z.land sp (-16) in
  let m := set_mem sp s m in
  let m := set_mem (sp + 4) s1 m in
  let m := zero_words 8 ctx m in
  let m := set_mem (reg_at ctx kESP) (sp - 4) m in
  set_mem (reg_at ctx kEIP) pfn m.

Definition coctx_init (ctx : Z) (m : machine) : machine := zero_words 10 ctx m.

(** ** What a saved context means *)

(** The arguments of a call of [coctx_swap]: the contexts to store and to load. *)
Definition arg1 (m : machine) : Z := mem m (regs m ESP + 4).
Definition arg2 (m : machine) : Z := mem m (regs m ESP + 8).

Definition slot_of_reg (r : reg) : option Z :=
  match r with
  | EBX => Some 1 | ECX => Some 2 | EDX => Some 3 | EDI => Some 4 | ESI => Some 5 | EBP => Some 6
  | EAX | ESP => None
  end.

(** [ctx] holds the registers of [m0] and its continuation. *)
Definition saved (ctx : Z) (m0 m : machine) : Prop :=
  (∀ r k, slot_of_reg r = Some k → mem m (reg_at ctx k) = regs m0 r) ∧
  mem m (reg_at ctx kEIP) = mem m0 (regs m0 ESP) ∧ mem m (reg_at ctx kESP) = regs m0 ESP + 4.

(** [m] runs on as [m0] would after returning, with 0 as the result. *)
Definition resumes (m0 m : machine) : Prop :=
  (∀ r k, slot_of_reg r = Some k → regs m r = regs m0 r) ∧
  regs m ESP = regs m0 ESP + 4 ∧ eip m = mem m0 (regs m0 ESP) ∧ regs m EAX = 0.

(** [m'] has loaded the context [ctx] of [m]. *)
Definition loaded (ctx : Z) (m m' : machine) : Prop :=
  (∀ r k, slot_of_reg r = Some k → regs m' r = mem m (reg_at ctx k)) ∧
  regs m' ESP = mem m (reg_at ctx kESP) ∧ eip m' = mem m (reg_at ctx kEIP) ∧ regs m' EAX = 0.

Definition outside (ctx a : Z) : Prop := a < ctx ∨ ctx + 32 ≤ a.
Definition apart (c1 c2 : Z) : Prop := c1 + 32 ≤ c2 ∨ c2 + 32 ≤ c1.

(** A call of [coctx_swap]: the frame of the call, its return address and its two
    arguments, is outside the context that it stores. *)
Definition swap_call (m : machine) : Prop :=
  (∀ i, 0 ≤ i ≤ 2 → outside (arg1 m) (regs m ESP + 4 * i)) ∧ apart (arg1 m) (arg2 m).

(** The stack pointer that [coctx_make] computes. *)
Definition stack_top (ctx : Z) (m : machine) : Z := Z.land (mem m (ss_sp_at ctx) + mem m (ss_size_at ctx) - 8) (-16).

(** The caller runs in the context at 1000 and switches to a fresh one at 2000,
    whose stack is from 7000 on; the function switches back. *)
Definition demo_machine : machine :=
  Machine (λ r, match r with ESP => 5000 | EBX => 3 | _ => 0 end)
    (λ a, if decide (a = 5000) then 400 else if decide (a = 5004) then 1000 else if decide (a = 5008) then 2000
          else if decide (a = 2032) then 1000 else if decide (a = 2036) then 7000 else 0)
    100.
Definition demo_fresh : machine := coctx_make 2000 77 78 79 demo_machine.
Definition demo_entered : machine := coctx_swap demo_fresh.
Definition demo_leaves : machine :=
  set_mem 7908 1000 (set_mem 7904 2000 (set_mem 7900 500 (set_reg ESP 7900 (set_reg EBX 9 demo_entered)))).

(** ** Executing the two halves *)

Lemma slot_of_reg_bound32 r k : slot_of_reg r = Some k → 0 ≤ k < 8 ∧ k ≠ kESP ∧ k ≠ kEIP.
Proof. by destruct r; simpl; intros [= <-]. Qed.

Lemma swap_save_spec32 m :
  let m' := exec_all swap_save m in
  swap_call m →
  saved (arg1 m) m m' ∧ regs m' EAX = regs m ESP + 4 ∧ (∀ a, outside (arg1 m) a → mem m' a = mem m a).
Proof.
  intros m' [Ho _]. pose proof (Ho 0 ltac:(lia)) as Ho0. unfold outside in *.
  unfold saved, m', swap_save. simpl. change (mem m (regs m ESP + 4)) with (arg1 m). unfold reg_at, kEIP, kESP.
  split; [split; [|split]|split].
  - intros r k. destruct r; simpl; intros [= <-]; repeat (rewrite decide_False by lia); by rewrite decide_True by lia.
  - rewrite decide_True by lia. repeat (rewrite decide_False by lia). f_equal. lia.
  - repeat (rewrite decide_False by lia). by rewrite decide_True by lia.
  - done.
  - intros a Ha. by repeat (rewrite decide_False by lia).
Qed.

Lemma swap_load_spec32 m :
  let m' := exec_all swap_load m in
  let ctx := mem m (regs m EAX + 4) in
  let sp := mem m (reg_at ctx kESP) in
  loaded ctx m m' ∧ (∀ a, mem m' a = if decide (a = sp - 4) then mem m (reg_at ctx kEIP) else mem m a).
Proof.
  intros m' ctx sp. unfold loaded, m', sp, swap_load. simpl. fold ctx. unfold reg_at, kEIP, kESP.
  rewrite ?decide_True by done.
  split; [split; [|split_and!]|].
  - intros r k. destruct r; simpl; intros [= <-]; f_equal; lia.
  - match goal with |- mem m ?x - 4 + 4 = _ => replace x with (ctx + 4 * 7) by lia end. lia.
  - f_equal; lia.
  - done.
  - intros a. match goal with |- (if decide (_ = mem m ?x - 4) then _ else _) = _ => replace x with (ctx + 4 * 7) by lia end.
    case_decide; [f_equal; lia|done].
Qed.

Lemma exec_all_app32 c1 c2 m : exec_all (c1 ++ c2) m = exec_all c2 (exec_all c1 m).
Proof. revert m. induction c1; simpl; auto. Qed.

Lemma swap_halves32 m m1 m' : m1 = exec_all swap_save m → m' = coctx_swap m → m' = exec_all swap_load m1.
Proof. intros -> ->. apply exec_all_app32. Qed.

Lemma swap_spec32 m :
  swap_call m →
  let m' := coctx_swap m in
  let sp := mem m (reg_at (arg2 m) kESP) in
  (outside (arg1 m) (sp - 4) → saved (arg1 m) m m') ∧ loaded (arg2 m) m m' ∧
  (∀ a, outside (arg1 m) a → a ≠ sp - 4 → mem m' a = mem m a).
Proof.
  intros Hc m' sp. destruct (swap_save_spec32 m Hc) as ((Hs1 & Hs2 & Hs3) & Heax & Hm). destruct Hc as [Hf Ha].
  remember (exec_all swap_save m) as m1 eqn:Hm1.
  assert (m' = exec_all swap_load m1) as Hm' by by apply (swap_halves32 m).
  destruct (swap_load_spec32 m1) as ((Hl1 & Hl2 & Hl3 & Hl4) & Hm2). rewrite <-Hm' in *. clear Hm' Hm1. clearbody m'.
  rewrite Heax in *. replace (regs m ESP + 4 + 4) with (regs m ESP + 4 * 2) in * by lia.
  assert (mem m1 (regs m ESP + 4 * 2) = arg2 m) as E by (rewrite Hm by (apply Hf; lia); done). rewrite E in *. clear E.
  assert (∀ k, 0 ≤ k < 8 → mem m1 (reg_at (arg2 m) k) = mem m (reg_at (arg2 m) k)) as Hb.
  { intros k Hk. apply Hm. unfold outside, reg_at, apart in *. lia. }
  rewrite (Hb kESP) in Hl2, Hm2 by done. rewrite (Hb kEIP) in Hl3, Hm2 by done. fold sp in Hm2. split_and!.
  - intros Hsp. assert (∀ k, 0 ≤ k < 8 → mem m' (reg_at (arg1 m) k) = mem m1 (reg_at (arg1 m) k)) as Hne.
    { intros k Hk. rewrite Hm2, decide_False; [done|]. unfold outside, reg_at in *. lia. }
    split_and!; [|by rewrite Hne..]. intros r k Hk. rewrite Hne; [by apply Hs1|]. by apply slot_of_reg_bound32 in Hk as [? _].
  - split_and!; [|done..]. intros r k Hk. rewrite <-Hb; [by apply Hl1|]. by apply slot_of_reg_bound32 in Hk as [? _].
  - intros a Hoa Hne. rewrite Hm2, decide_False by done. by apply Hm.
Qed.

Lemma zero_words_spec32 n : ∀ a m,
  let m' := zero_words n a m in
  (∀ k, 0 ≤ k < Z.of_nat n → mem m' (a + 4 * k) = 0) ∧ (∀ x, x < a ∨ a + 4 * Z.of_nat n ≤ x → mem m' x = mem m x).
Proof.
  induction n as [|n IH]; intros a m; simpl; [by split; [lia|]|].
  destruct (IH (a + 4) (set_mem a 0 m)) as (Hz & Hk). split.
  - intros k Hk'. destruct (decide (k = 0)) as [->|].
    + rewrite Hk by lia. simpl. by rewrite decide_True by lia.
    + replace (a + 4 * k) with (a + 4 + 4 * (k - 1)) by lia. apply Hz. lia.
  - intros x Hx. rewrite Hk by lia. simpl. by rewrite decide_False by lia.
Qed.

(** The context and the arguments that [coctx_make] leaves behind. *)
Lemma coctx_make_spec32 ctx pfn s s1 m :
  let m' := coctx_make ctx pfn s s1 m in
  let sp := stack_top ctx m in
  outside ctx sp → outside ctx (sp + 4) →
  mem m' (reg_at ctx kESP) = sp - 4 ∧ mem m' (reg_at ctx kEIP) = pfn ∧ mem m' sp = s ∧ mem m' (sp + 4) = s1 ∧
  (∀ k, 0 ≤ k < 8 → k ≠ kESP → k ≠ kEIP → mem m' (reg_at ctx k) = 0).
Proof.
  intros m' sp Ho1 Ho2. unfold m', coctx_make. fold (stack_top ctx m). fold sp.
  destruct (zero_words_spec32 8 ctx (set_mem (sp + 4) s1 (set_mem sp s m))) as [Hz Hk].
  set (z := zero_words 8 ctx _) in *. clearbody z. simpl. unfold reg_at, kESP, kEIP, outside in *. split_and!.
  - rewrite decide_False by lia. by rewrite decide_True by lia.
  - by rewrite decide_True by lia.
  - do 2 (rewrite decide_False by lia). rewrite Hk by lia. simpl. rewrite decide_False by lia. by rewrite decide_True.
  - do 2 (rewrite decide_False by lia). rewrite Hk by lia. simpl. by rewrite decide_True.
  - intros k Hk' ??. do 2 (rewrite decide_False by lia). by apply Hz.
Qed.

Lemma stack_top_bounds ctx m :
  let top := mem m (ss_sp_at ctx) + mem m (ss_size_at ctx) in
  stack_top ctx m mod 16 = 0 ∧ top - 24 < stack_top ctx m ≤ top - 8.
Proof.
  intros top. unfold stack_top. fold top. replace (-16) with (Z.lnot (Z.ones 4)) by done.
  rewrite <-Z.ldiff_land, Z.ldiff_ones_r, Z.shiftl_mul_pow2, Z.shiftr_div_pow2 by lia. change (2 ^ 4) with 16.
  split; [by rewrite Z.mod_mul|]. pose proof (Z.div_mod (top - 8) 16). pose proof (Z.mod_pos_bound (top - 8) 16). lia.
Qed.

#[local] Opaque coctx_swap coctx_make.

(** ** Properties *)

(** C15. On i386 too a switch away and back is a call that returns: where the
    words of a stored context are as they were stored, switching to it continues
    behind the call that stored it, with its stack pointer and registers and 0 as
    the result, and no memory changes but the register array that is filled and
    the word of the return address.  And the first switch to a context that
    [coctx_make] has made enters its function like a C call: the two arguments
    are on the stack above the return address, the stack pointer is aligned as
    the ABI requires, the other registers are zero, and nothing below the block
    of the stack is touched. *)
Theorem i386_switch :
  (∀ m0 m2 : machine,
    let a := arg1 m0 in
    swap_call m0 → outside a (mem m0 (reg_at (arg2 m0) kESP) - 4) →
    (∀ k, 0 ≤ k < 8 → mem m2 (reg_at a k) = mem (coctx_swap m0) (reg_at a k)) →
    swap_call m2 → arg2 m2 = a →
    resumes m0 (coctx_swap m2) ∧
    (∀ x, outside (arg1 m2) x → x ≠ regs m0 ESP → mem (coctx_swap m2) x = mem m2 x)) ∧
  (∀ ctx pfn s s1 (m m2 : machine),
    let base := mem m (ss_sp_at ctx) in
    let top := base + mem m (ss_size_at ctx) in
    32 ≤ top - base → (top ≤ ctx ∨ ctx + 32 ≤ base) →
    (∀ x, (∃ k, 0 ≤ k < 8 ∧ x = reg_at ctx k) ∨ base ≤ x < top → mem m2 x = mem (coctx_make ctx pfn s s1 m) x) →
    swap_call m2 → arg2 m2 = ctx → (top ≤ arg1 m2 ∨ arg1 m2 + 32 ≤ base) →
    let m' := coctx_swap m2 in
    eip m' = pfn ∧ mem m' (regs m' ESP + 4) = s ∧ mem m' (regs m' ESP + 8) = s1 ∧
    (∀ r k, slot_of_reg r = Some k → regs m' r = 0) ∧ (regs m' ESP + 4) mod 16 = 0 ∧
    base ≤ regs m' ESP - 4 ∧ regs m' ESP + 12 ≤ top ∧
    (∀ x, outside (arg1 m2) x → x ≠ regs m' ESP - 4 → mem m' x = mem m2 x)).
Proof.
  split.
  - intros m0 m2 a Hc0 Hsp Hkeep Hc2 Ha.
    destruct (swap_spec32 m0 Hc0) as (Hsaved & _). fold a in Hsaved. destruct (Hsaved Hsp) as (Hs1 & Hs2 & Hs3).
    destruct (swap_spec32 m2 Hc2) as (_ & (Hl1 & Hl2 & Hl3 & Hl4) & Hmem). rewrite Ha in *.
    rewrite (Hkeep kESP), Hs3 in Hl2, Hmem by done. rewrite (Hkeep kEIP), Hs2 in Hl3 by done.
    split; [split_and!; [|done..]|].
    + intros r k Hk. rewrite (Hl1 r k Hk), Hkeep; [by apply Hs1|]. by apply slot_of_reg_bound32 in Hk as [? _].
    + intros x Hx Hne. apply Hmem; [done|lia].
  - intros ctx pfn s s1 m m2 base top Hsize Happ Hkeep Hc Hctx Happ2 m'.
    destruct (stack_top_bounds ctx m) as [Hal Hb]. fold base in Hb. fold top in Hb.
    destruct (coctx_make_spec32 ctx pfn s s1 m) as (Hsp & Hip & Hp1 & Hp2 & Hz); [unfold outside; lia..|].
    destruct (swap_spec32 m2 Hc) as (_ & (Hl1 & Hl2 & Hl3 & _) & Hmem). fold m' in Hl1, Hl2, Hl3, Hmem. rewrite Hctx in *.
    assert (∀ k, 0 ≤ k < 8 → mem m2 (reg_at ctx k) = mem (coctx_make ctx pfn s s1 m) (reg_at ctx k)) as Hreg.
    { intros k Hk. apply Hkeep. left. by exists k. }
    rewrite (Hreg kESP), Hsp in Hl2, Hmem by done. rewrite (Hreg kEIP), Hip in Hl3 by done.
    set (sp := stack_top ctx m) in *. clearbody sp.
    assert (∀ x, base ≤ x < top → x ≠ sp - 8 → mem m' x = mem (coctx_make ctx pfn s s1 m) x) as Hstack.
    { intros x Hx Hne. rewrite Hmem, Hkeep by (done || (by right) || (unfold outside; lia) || lia). done. }
    rewrite Hl2. split_and!; [done| | | |by replace (sp - 4 + 4) with sp by lia|lia|lia|].
    + replace (sp - 4 + 4) with sp by lia. by rewrite Hstack by lia.
    + replace (sp - 4 + 8) with (sp + 4) by lia. by rewrite Hstack by lia.
    + intros r k Hk. destruct (slot_of_reg_bound32 r k Hk) as (? & ? & ?). rewrite (Hl1 r k Hk), Hreg by done. by apply Hz.
    + intros x Hx Hne. apply Hmem; [done|lia].
Qed.

(** ** Witness *)

Lemma mem_set_reg32 r v m : mem (set_reg r v m) = mem m.
Proof. done. Qed.

Lemma mem_set_mem_ne a v m x : x ≠ a → mem (set_mem a v m) x = mem m x.
Proof. intros Hx. simpl. by rewrite decide_False. Qed.

(** The fresh context is entered and switches back to the caller. *)
Lemma i386_switch_witness :
  eip demo_entered = 77 ∧ mem demo_entered (regs demo_entered ESP + 4) = 78 ∧
  resumes demo_fresh (coctx_swap demo_leaves) ∧ regs (coctx_swap demo_leaves) EBX = 3.
Proof.
  destruct i386_switch as [Hback Henter].
  assert (swap_call demo_fresh) as Hc.
  { split; [|left; vm_compute; congruence]. intros i Hi. right. replace (arg1 demo_fresh) with 1000 by evaluates.
    replace (regs demo_fresh ESP) with 5000 by evaluates. lia. }
  destruct (Henter 2000 77 78 79 demo_machine demo_fresh) as (E1 & E2 & _);
    [vm_compute; congruence|right; vm_compute; congruence|intros x _; reflexivity|exact Hc|evaluates|right; vm_compute; congruence|].
  destruct (Hback demo_fresh demo_leaves) as [Hr _]; [exact Hc|right; vm_compute; congruence| | |evaluates|].
  - intros k Hk. replace (arg1 demo_fresh) with 1000 by evaluates. unfold demo_leaves, reg_at.
    rewrite !mem_set_mem_ne by lia. rewrite !mem_set_reg32. unfold demo_entered. reflexivity.
  - split; [|right; vm_compute; congruence]. intros i Hi. right. replace (arg1 demo_leaves) with 2000 by evaluates.
    replace (regs demo_leaves ESP) with 7900 by evaluates. lia.
  - split; [exact E1|]. split; [exact E2|]. split; [exact Hr|].
    rewrite (proj1 Hr EBX 1 eq_refl). evaluates.
Defined.
