(* ===== verification/Coroutine.v ===== *)
(** * Coroutines of a thread (libco/co_routine.cpp)

    Creation, the call stack that [co_resume] and [co_yield_env] maintain, the
    bookkeeping of [co_swap] for coroutines that share a stack, the
    coroutine-specific values and the hook flag.  [running] is the context the
    processor executes: [co_swap] runs up to its [coctx_swap] in the old
    context and, unless the new coroutine starts there, from that point on in
    the new one.  A [NULL] or dangling pointer and an index outside an array
    make an operation return [None]. *)

From S2P Require Import Prelude.

Local Open Scope Z_scope.
Local Open Scope cint_scope.

(** ** Data *)

Record stStackMem_t := StackMem {
  occupy_co : ptr;
  stack_size : Z;
  stack_bp : addr;
  stack_buffer : addr;
}.

Record stShareStack_t := ShareStack {
  alloc_idx : Z;
  share_stack_size : Z;
  count : Z;
  stack_array : list addr;
}.

Record stCoRoutine_t := CoRoutine {
  pfn : ptr;
  arg : Z;
  ss_sp : addr;
  ss_size : Z;
  cStart : bool;
  cEnd : bool;
  cIsMain : bool;
  cEnableSysHook : bool;
  cIsShareStack : bool;
  stack_mem : addr;
  stack_sp : addr;
  save_size : Z;
  save_buffer : option (list Z);
  aSpec : gmap Z Z;
}.

(** [pCallStack] is the array of 128 pointers. *)
Record stCoRoutineEnv_t := CoEnv {
  pCallStack : list ptr;
  iCallStackSize : Z;
  env_pending_co : ptr;
  env_occupy_co : ptr;
}.

Record stCoRoutineAttr_t := CoAttr { at_stack_size : Z; at_share_stack : ptr }.

(** What a thread's coroutines act on; [bytes] is the memory of the stacks. *)
Record world := World {
  cos : gmap Z stCoRoutine_t;
  mems : gmap Z stStackMem_t;
  shares : gmap Z stShareStack_t;
  bytes : Z → Z;
  env : stCoRoutineEnv_t;
  running : addr;
}.

(** ** Stores *)

Definition set_cStart (v : bool) (c : stCoRoutine_t) : stCoRoutine_t :=
  CoRoutine (pfn c) (arg c) (ss_sp c) (ss_size c) v (cEnd c) (cIsMain c) (cEnableSysHook c)
    (cIsShareStack c) (stack_mem c) (stack_sp c) (save_size c) (save_buffer c) (aSpec c).
Definition set_cEnd (v : bool) (c : stCoRoutine_t) : stCoRoutine_t :=
  CoRoutine (pfn c) (arg c) (ss_sp c) (ss_size c) (cStart c) v (cIsMain c) (cEnableSysHook c)
    (cIsShareStack c) (stack_mem c) (stack_sp c) (save_size c) (save_buffer c) (aSpec c).
Definition set_cIsMain (v : bool) (c : stCoRoutine_t) : stCoRoutine_t :=
  CoRoutine (pfn c) (arg c) (ss_sp c) (ss_size c) (cStart c) (cEnd c) v (cEnableSysHook c)
    (cIsShareStack c) (stack_mem c) (stack_sp c) (save_size c) (save_buffer c) (aSpec c).
Definition set_hook (v : bool) (c : stCoRoutine_t) : stCoRoutine_t :=
  CoRoutine (pfn c) (arg c) (ss_sp c) (ss_size c) (cStart c) (cEnd c) (cIsMain c) v
    (cIsShareStack c) (stack_mem c) (stack_sp c) (save_size c) (save_buffer c) (aSpec c).
Definition set_stack_sp (v : addr) (c : stCoRoutine_t) : stCoRoutine_t :=
  CoRoutine (pfn c) (arg c) (ss_sp c) (ss_size c) (cStart c) (cEnd c) (cIsMain c) (cEnableSysHook c)
    (cIsShareStack c) (stack_mem c) v (save_size c) (save_buffer c) (aSpec c).
Definition set_save (n : Z) (b : list Z) (c : stCoRoutine_t) : stCoRoutine_t :=
  CoRoutine (pfn c) (arg c) (ss_sp c) (ss_size c) (cStart c) (cEnd c) (cIsMain c) (cEnableSysHook c)
    (cIsShareStack c) (stack_mem c) (stack_sp c) n (Some b) (aSpec c).
Definition set_aSpec (v : gmap Z Z) (c : stCoRoutine_t) : stCoRoutine_t :=
  CoRoutine (pfn c) (arg c) (ss_sp c) (ss_size c) (cStart c) (cEnd c) (cIsMain c) (cEnableSysHook c)
    (cIsShareStack c) (stack_mem c) (stack_sp c) (save_size c) (save_buffer c) v.

Definition with_cos (m : gmap Z stCoRoutine_t) (w : world) : world :=
  World m (mems w) (shares w) (bytes w) (env w) (running w).
Definition with_mems (m : gmap Z stStackMem_t) (w : world) : world :=
  World (cos w) m (shares w) (bytes w) (env w) (running w).
Definition with_shares (m : gmap Z stShareStack_t) (w : world) : world :=
  World (cos w) (mems w) m (bytes w) (env w) (running w).
Definition with_bytes (f : Z → Z) (w : world) : world :=
  World (cos w) (mems w) (shares w) f (env w) (running w).
Definition with_env (e : stCoRoutineEnv_t) (w : world) : world :=
  World (cos w) (mems w) (shares w) (bytes w) e (running w).
Definition with_running (a : addr) (w : world) : world :=
  World (cos w) (mems w) (shares w) (bytes w) (env w) a.

Definition upd_co (a : addr) (f : stCoRoutine_t → stCoRoutine_t) (w : world) : option world :=
  c ← cos w !! a; Some (with_cos (<[a := f c]> (cos w)) w).

(** [memcpy] from and to stack memory. *)
Definition read_bytes (f : Z → Z) (a n : Z) : list Z := (λ i, f (a + i)) <$> seqZ 0 n.

Definition write_bytes (f : Z → Z) (a : Z) (bs : list Z) : Z → Z :=
  λ x, if decide (a ≤ x) then default (f x) (bs !! Z.to_nat (x - a)) else f x.

(** The array of 128 pointers. *)
Definition call_stack_at (e : stCoRoutineEnv_t) (i : Z) : option ptr :=
  guard (0 ≤ i < 128);; pCallStack e !! Z.to_nat i.

Definition set_call_stack (i : Z) (p : ptr) (e : stCoRoutineEnv_t) : option stCoRoutineEnv_t :=
  guard (0 ≤ i < 128);;
  Some (CoEnv (<[Z.to_nat i := p]> (pCallStack e)) (iCallStackSize e)
          (env_pending_co e) (env_occupy_co e)).

Definition set_size (n : Z) (e : stCoRoutineEnv_t) : stCoRoutineEnv_t :=
  CoEnv (pCallStack e) n (env_pending_co e) (env_occupy_co e).

Definition set_pending (p o : ptr) (e : stCoRoutineEnv_t) : stCoRoutineEnv_t :=
  CoEnv (pCallStack e) (iCallStackSize e) p o.

(** ** Stack memory *)

(** [mem] and [buf] are what the two [malloc]s return. *)
Definition co_alloc_stackmem (size : Z) (mem buf : addr) (w : world) : option world :=
  guard (mems w !! mem = None);;
  Some (with_mems (<[mem := StackMem NULL size (buf + size) buf]> (mems w)) w).

(** The stacks of a shared stack, at the addresses [malloc] gave. *)
Fixpoint alloc_stacks (places : list (addr * addr)) (size : Z) (w : world) : option world :=
  match places with
  | [] => Some w
  | (mem, buf) :: places => w ← co_alloc_stackmem size mem buf w; alloc_stacks places size w
  end.

Definition co_alloc_sharestack (places : list (addr * addr)) (size : Z) (share : addr)
    (w : world) : option world :=
  w ← alloc_stacks places size w;
  Some (with_shares
    (<[share := ShareStack 0 size (Z.of_nat (length places)) places.*1]> (shares w)) w).

Definition co_get_stackmem (share : addr) (w : world) : option (addr * world) :=
  s ← shares w !! share;
  guard (count s ≠ 0);;
  let idx := s32 ((alloc_idx s) mod (u32 (count s))) in
  guard (0 ≤ idx);;
  mem ← stack_array s !! Z.to_nat idx;
  Some (mem, with_shares
    (<[share := ShareStack (u32 (alloc_idx s + 1)) (share_stack_size s) (count s) (stack_array s)]>
       (shares w)) w).

(** ** Creation *)

(** The stack size that [co_create_env] settles on. *)
Definition round_stack_size (size : Z) : Z :=
  let size :=
    if decide (size ≤ 0) then 128 * 1024
    else if decide (1024 * 1024 * 8 < size) then 1024 * 1024 * 8 else size in
  if decide (Z.land size 0xFFF ≠ 0) then s32 (Z.land size (Z.lnot 0xFFF) + 0x1000) else size.

(** [stCoRoutineAttr_t()]. *)
Definition default_attr : stCoRoutineAttr_t := CoAttr (128 * 1024) NULL.

(** [co], [mem] and [buf] are the addresses the allocator returns. *)
Definition co_create_env (attr : option stCoRoutineAttr_t) (fn : ptr) (a : Z)
    (co mem buf : addr) (w : world) : option world :=
  let attr := default default_attr attr in
  let size := round_stack_size (at_stack_size attr) in
  guard (cos w !! co = None);;
  '(mem, size, w) ←
    match at_share_stack attr with
    | Some share =>
        '(m, w) ← co_get_stackmem share w;
        s ← shares w !! share;
        Some (m, share_stack_size s, w)
    | None => w ← co_alloc_stackmem size mem buf w; Some (mem, size, w)
    end;
  sm ← mems w !! mem;
  let c := CoRoutine fn a (stack_buffer sm) size false false false false
             (bool_decide (is_Some (at_share_stack attr))) mem 0 0 None ∅ in
  Some (with_cos (<[co := c]> (cos w)) w).

(** [co_init_curr_thread_env] on the zeroed environment of a thread; the
    epoll structure is allocated by the event loop's component.  [coctx_init] of
    the main coroutine ([CoCtx.coctx_init]) writes zeros into a context that
    [co_create_env] has zeroed already. *)
Definition co_init_curr_thread_env (self mem buf : addr) (w : world) : option world :=
  let w := with_env (CoEnv (replicate 128 NULL) 0 NULL NULL) w in
  w ← co_create_env None NULL 0 self mem buf w;
  w ← upd_co self (set_cIsMain true) w;
  let w := with_env (set_pending NULL NULL (env w)) w in
  e ← set_call_stack (iCallStackSize (env w)) (Some self) (env w);
  Some (with_running self (with_env (set_size (iCallStackSize e + 1) e) w)).

Definition co_free (co : addr) (w : world) : option world :=
  c ← cos w !! co;
  let w := if cIsShareStack c then w else with_mems (delete (stack_mem c) (mems w)) w in
  Some (with_cos (delete co (cos w)) w).

Definition co_release (co : addr) (w : world) : option world := co_free co w.

(** ** Switching *)

Definition save_stack_buffer (o : addr) (w : world) : option world :=
  c ← cos w !! o;
  sm ← mems w !! stack_mem c;
  let len := s32 (stack_bp sm - stack_sp c) in
  guard (0 ≤ len);;
  upd_co o (set_save len (read_bytes (bytes w) (stack_sp c) len)) w.

(** The part of [co_swap] that makes room for [pending] on its stack. *)
Definition co_take_stack (pending : addr) (w : world) : option world :=
  p ← cos w !! pending;
  if cIsShareStack p then
    let w := with_env (set_pending (Some pending) (env_occupy_co (env w)) (env w)) w in
    sm ← mems w !! stack_mem p;
    let occupy := occupy_co sm in
    let sm' := StackMem (Some pending) (stack_size sm) (stack_bp sm) (stack_buffer sm) in
    let w := with_mems (<[stack_mem p := sm']> (mems w)) w in
    let w := with_env (set_pending (env_pending_co (env w)) occupy (env w)) w in
    match occupy with
    | Some o => if decide (o = pending) then Some w else save_stack_buffer o w
    | None => Some w
    end
  else Some (with_env (set_pending NULL NULL (env w)) w).

(** [co_swap] up to the call of [coctx_swap]; [c_addr] is the address of the
    local variable [c]. *)
Definition co_swap_out (curr pending c_addr : addr) (w : world) : option world :=
  w ← upd_co curr (set_stack_sp c_addr) w;
  co_take_stack pending w.

(** [co_swap] after [coctx_swap] has returned in the resumed coroutine. *)
Definition co_swap_in (w : world) : option world :=
  match env_occupy_co (env w), env_pending_co (env w) with
  | Some o, Some p =>
      if decide (o = p) then Some w
      else
        c ← cos w !! p;
        match save_buffer c with
        | Some b =>
            if decide (0 < save_size c)
            then Some (with_bytes
                   (write_bytes (bytes w) (stack_sp c) (take (Z.to_nat (save_size c)) b)) w)
            else Some w
        | None => Some w
        end
  | _, _ => Some w
  end.

(** A coroutine that starts does not run the second half. *)
Definition co_swap (starts : bool) (curr pending c_addr : addr) (w : world) : option world :=
  w ← co_swap_out curr pending c_addr w;
  let w := with_running pending w in
  if starts then Some w else co_swap_in w.

Definition co_resume (co c_addr : addr) (w : world) : option world :=
  lpCurr ← call_stack_at (env w) (iCallStackSize (env w) - 1);
  curr ← lpCurr;
  c ← cos w !! co;
  let starts := negb (cStart c) in
  w ← (if starts then upd_co co (set_cStart true) w else Some w);
  e ← set_call_stack (iCallStackSize (env w)) (Some co) (env w);
  let w := with_env (set_size (iCallStackSize e + 1) e) w in
  co_swap starts curr co c_addr w.

Definition co_yield_env (c_addr : addr) (w : world) : option world :=
  lpLast ← call_stack_at (env w) (iCallStackSize (env w) - 2);
  lpCurr ← call_stack_at (env w) (iCallStackSize (env w) - 1);
  last ← lpLast;
  curr ← lpCurr;
  let w := with_env (set_size (iCallStackSize (env w) - 1) (env w)) w in
  co_swap false curr last c_addr w.

(** The end of [CoRoutineFunc], after the body has returned. *)
Definition CoRoutineFunc_end (co c_addr : addr) (w : world) : option world :=
  w ← upd_co co (set_cEnd true) w;
  co_yield_env c_addr w.

Definition GetCurrCo (e : stCoRoutineEnv_t) : option ptr := call_stack_at e (iCallStackSize e - 1).

(** [GetCurrThreadCo], once the thread has an environment. *)
Definition GetCurrThreadCo (w : world) : option addr := p ← GetCurrCo (env w); p.

Definition co_self (w : world) : option addr := GetCurrThreadCo w.

(** ** Hooks and specific values *)

Definition co_enable_hook_sys (w : world) : option world :=
  co ← GetCurrThreadCo w; upd_co co (set_hook true) w.

Definition co_disable_hook_sys (w : world) : option world :=
  co ← GetCurrThreadCo w; upd_co co (set_hook false) w.

Definition co_is_enable_sys_hook (w : world) : option bool :=
  co ← GetCurrThreadCo w; c ← cos w !! co; Some (cEnableSysHook c).

(** The 1024 values of a coroutine, zero at first; the main coroutine uses the
    thread's own, given by [pthread_get] and [pthread_set]. *)
Section specific.
Context {P : Type} (pthread_get : Z → P → Z) (pthread_set : Z → Z → P → Z * P).

Definition co_getspecific (key : Z) (w : world) (p : P) : option Z :=
  co ← GetCurrThreadCo w; c ← cos w !! co;
  if cIsMain c then Some (pthread_get key p)
  else guard (0 ≤ key < 1024);; Some (default 0 (aSpec c !! key)).

Definition co_setspecific (key value : Z) (w : world) (p : P) : option (Z * world * P) :=
  co ← GetCurrThreadCo w; c ← cos w !! co;
  if cIsMain c then let '(r, p) := pthread_set key value p in Some (r, w, p)
  else
    guard (0 ≤ key < 1024);;
    w ← upd_co co (set_aSpec (<[key := value]> (aSpec c))) w;
    Some (0, w, p).
End specific.

(** ** Well-formed threads

    [kept w a bs]: the suspended coroutine [a] shares its stack, and the part
    of it in use, from [stack_sp] to [stack_bp], is [bs]: either it is still
    in place, or it was copied to [save_buffer] when another coroutine took
    the stack. *)

Definition kept (w : world) (a : addr) (bs : list Z) : Prop :=
  ∃ c sm, cos w !! a = Some c ∧ cIsShareStack c = true ∧ cStart c = true ∧
    mems w !! stack_mem c = Some sm ∧
    stack_buffer sm ≤ stack_sp c ≤ stack_bp sm ∧
    Z.of_nat (length bs) = stack_bp sm - stack_sp c ∧
    (occupy_co sm = Some a ∧
       read_bytes (bytes w) (stack_sp c) (stack_bp sm - stack_sp c) = bs ∨
     ∃ o, occupy_co sm = Some o ∧ o ≠ a ∧ save_buffer c = Some bs ∧
       save_size c = stack_bp sm - stack_sp c).

(** The stacks and their owners. *)
Record stacks_ok (w : world) : Prop := {
  so_region : ∀ m sm, mems w !! m = Some sm →
    stack_buffer sm ≤ stack_bp sm ∧ stack_bp sm - stack_buffer sm < 2 ^ 31;
  so_disj : ∀ m1 m2 s1 s2, mems w !! m1 = Some s1 → mems w !! m2 = Some s2 → m1 ≠ m2 →
    stack_bp s1 ≤ stack_buffer s2 ∨ stack_bp s2 ≤ stack_buffer s1;
  so_mem : ∀ a c, cos w !! a = Some c → is_Some (mems w !! stack_mem c);
  so_private : ∀ a b ca cb, cos w !! a = Some ca → cos w !! b = Some cb → a ≠ b →
    cIsShareStack ca = false → stack_mem ca ≠ stack_mem cb;
  so_occ : ∀ m sm o, mems w !! m = Some sm → occupy_co sm = Some o →
    ∃ c, cos w !! o = Some c ∧ stack_mem c = m ∧ cIsShareStack c = true ∧ cStart c = true;
  so_run : ∀ c sm, cos w !! running w = Some c → cIsShareStack c = true →
    mems w !! stack_mem c = Some sm → cStart c = true ∧ occupy_co sm = Some (running w);
  so_kept : ∀ a c, cos w !! a = Some c → cIsShareStack c = true → cStart c = true →
    a ≠ running w → ∃ bs, kept w a bs;
}.

(** The active call stack. *)
Definition call_stack (w : world) : list ptr :=
  take (Z.to_nat (iCallStackSize (env w))) (pCallStack (env w)).

Record env_ok (w : world) : Prop := {
  eo_len : length (pCallStack (env w)) = 128%nat;
  eo_size : 1 ≤ iCallStackSize (env w) ≤ 128;
  eo_last : last (call_stack w) = Some (Some (running w));
  eo_live : ∀ p, p ∈ call_stack w → ∃ a c, p = Some a ∧ cos w !! a = Some c ∧
    (cIsShareStack c = true → cStart c = true);
  eo_nodup : NoDup (call_stack w);
}.

Definition thread_ok (w : world) : Prop := stacks_ok w ∧ env_ok w.

(** [ca] may be the address of a local variable of the running coroutine. *)
Definition local_addr (w : world) (ca : addr) : Prop :=
  ∀ c sm, cos w !! running w = Some c → cIsShareStack c = true →
    mems w !! stack_mem c = Some sm → stack_buffer sm ≤ ca ≤ stack_bp sm.

(** The running coroutine computes: it writes its own stack only. *)
Definition writes_own (w : world) (f : Z → Z) : Prop :=
  ∀ c sm x, cos w !! running w = Some c → mems w !! stack_mem c = Some sm →
    x < stack_buffer sm ∨ stack_bp sm ≤ x → f x = bytes w x.

(** The running coroutine resumes a coroutine that is not active, or yields. *)
Inductive co_leave (ca : addr) (w w' : world) : Prop :=
  | leave_resume co :
      local_addr w ca → Some co ∉ call_stack w → iCallStackSize (env w) < 128 →
      co_resume co ca w = Some w' → co_leave ca w w'
  | leave_yield :
      local_addr w ca → 2 ≤ iCallStackSize (env w) →
      co_yield_env ca w = Some w' → co_leave ca w w'.

(** One step of a thread: the running coroutine computes, sets its hook flag
    or one of its specific values, or leaves the processor to another one. *)
Inductive co_step (w : world) : world → Prop :=
  | step_run f : writes_own w f → co_step w (with_bytes f w)
  | step_enable w' : co_enable_hook_sys w = Some w' → co_step w w'
  | step_disable w' : co_disable_hook_sys w = Some w' → co_step w w'
  | step_specific (set : Z → Z → unit → Z * unit) key value r w' :
      co_setspecific set key value w () = Some (r, w', ()) → co_step w w'
  | step_leave ca w' : co_leave ca w w' → co_step w w'.

(** Any number of steps during which [X] does not run. *)
Inductive co_steps_without (X : addr) : world → world → Prop :=
  | without_refl w : co_steps_without X w w
  | without_step w1 w2 w3 :
      co_step w1 w2 → running w2 ≠ X → co_steps_without X w2 w3 →
      co_steps_without X w1 w3.

(** ** What the operations guarantee *)

(** Every started coroutine with a shared stack is suspended and intact, but
    for [ex]. *)
Record parked (ex : ptr) (w : world) : Prop := {
  pk_region : ∀ m sm, mems w !! m = Some sm →
    stack_buffer sm ≤ stack_bp sm ∧ stack_bp sm - stack_buffer sm < 2 ^ 31;
  pk_disj : ∀ m1 m2 s1 s2, mems w !! m1 = Some s1 → mems w !! m2 = Some s2 → m1 ≠ m2 →
    stack_bp s1 ≤ stack_buffer s2 ∨ stack_bp s2 ≤ stack_buffer s1;
  pk_mem : ∀ a c, cos w !! a = Some c → is_Some (mems w !! stack_mem c);
  pk_private : ∀ a b ca cb, cos w !! a = Some ca → cos w !! b = Some cb → a ≠ b →
    cIsShareStack ca = false → stack_mem ca ≠ stack_mem cb;
  pk_occ : ∀ m sm o, mems w !! m = Some sm → occupy_co sm = Some o →
    ∃ c, cos w !! o = Some c ∧ stack_mem c = m ∧ cIsShareStack c = true ∧ cStart c = true;
  pk_kept : ∀ a c, cos w !! a = Some c → cIsShareStack c = true → cStart c = true →
    Some a ≠ ex → ∃ bs, kept w a bs;
}.

(** The content of the stack that the running coroutine would leave at [ca]. *)
Definition own_stack (w : world) (ca : addr) : list Z :=
  match cos w !! running w with
  | Some c => match mems w !! stack_mem c with
              | Some sm => read_bytes (bytes w) ca (stack_bp sm - ca)
              | None => []
              end
  | None => []
  end.

Definition private_ok (m : gmap Z stCoRoutine_t) : Prop :=
  ∀ a b ca cb, m !! a = Some ca → m !! b = Some cb → a ≠ b →
    cIsShareStack ca = false → stack_mem ca ≠ stack_mem cb.

(** [pending] is on its own stack, and nothing else moved. *)
Record taken (pending : addr) (pc : stCoRoutine_t) (w0 w1 : world) : Prop := {
  tk_cos : ∀ a c, cos w1 !! a = Some c → ∃ c0, cos w0 !! a = Some c0 ∧
    (c = c0 ∨ a ≠ pending ∧ ∃ n b, c = set_save n b c0);
  tk_dom : ∀ a, is_Some (cos w0 !! a) → is_Some (cos w1 !! a);
  tk_pending : cos w1 !! pending = Some pc;
  tk_mems : mems w1 = if cIsShareStack pc
    then alter (λ sm, StackMem (Some pending) (stack_size sm) (stack_bp sm) (stack_buffer sm))
           (stack_mem pc) (mems w0) else mems w0;
  tk_bytes : bytes w1 = bytes w0;
  tk_running : running w1 = running w0;
  tk_stack : pCallStack (env w1) = pCallStack (env w0) ∧
    iCallStackSize (env w1) = iCallStackSize (env w0);
  tk_env : env_pending_co (env w1) = (if cIsShareStack pc then Some pending else NULL) ∧
    env_occupy_co (env w1) = (if cIsShareStack pc then mems w0 !! stack_mem pc ≫= occupy_co else NULL);
  tk_kept : ∀ a bs, a ≠ pending → kept w0 a bs → kept w1 a bs;
}.

(** [c'] is [c] but for what the switch stores in a coroutine. *)
Definition same_co (c c' : stCoRoutine_t) : Prop :=
  pfn c' = pfn c ∧ arg c' = arg c ∧ stack_mem c' = stack_mem c ∧ cIsShareStack c' = cIsShareStack c ∧
  cStart c' = cStart c ∧ cEnd c' = cEnd c ∧ cIsMain c' = cIsMain c ∧
  cEnableSysHook c' = cEnableSysHook c ∧ aSpec c' = aSpec c ∧ stack_sp c' = stack_sp c.

Definition same_mem (sm sm' : stStackMem_t) : Prop :=
  stack_bp sm' = stack_bp sm ∧ stack_buffer sm' = stack_buffer sm.

Record switched (starts : bool) (pending : addr) (w0 w2 : world) : Prop := {
  sw_stacks : stacks_ok w2;
  sw_running : running w2 = pending;
  sw_env : pCallStack (env w2) = pCallStack (env w0) ∧ iCallStackSize (env w2) = iCallStackSize (env w0);
  sw_cos : ∀ a c0, cos w0 !! a = Some c0 → ∃ c, cos w2 !! a = Some c ∧ same_co c0 c;
  sw_mems : ∀ m sm, mems w0 !! m = Some sm → ∃ sm', mems w2 !! m = Some sm' ∧ same_mem sm sm';
  sw_kept : ∀ a bs, starts = false ∨ a ≠ pending → kept w0 a bs → kept w2 a bs;
}.

(** What leaving the running coroutine at [ca] for [next] guarantees. *)
Record moved (starts : bool) (w : world) (ca next : addr) (e : stCoRoutineEnv_t) (w' : world) : Prop := {
  mv_stacks : stacks_ok w';
  mv_running : running w' = next;
  mv_stack : pCallStack (env w') = pCallStack e ∧ iCallStackSize (env w') = iCallStackSize e;
  mv_kept : ∀ a bs, a ≠ running w → kept w a bs → kept w' a bs;
  mv_own : ∀ c, cos w !! running w = Some c → cIsShareStack c = true →
    kept w' (running w) (own_stack w ca);
  mv_cos : ∀ a c0, cos w !! a = Some c0 → ∃ c', cos w' !! a = Some c' ∧
    same_co (if decide (a = running w) then set_stack_sp ca c0
             else if starts && bool_decide (a = next) then set_cStart true c0 else c0) c';
  mv_mems : ∀ m sm, mems w !! m = Some sm → ∃ sm', mems w' !! m = Some sm' ∧ same_mem sm sm';
}.

(** The fields of a coroutine that only it changes. *)
Definition same_own (c c' : stCoRoutine_t) : Prop :=
  stack_sp c' = stack_sp c ∧ stack_mem c' = stack_mem c ∧ cIsMain c' = cIsMain c ∧
  cEnableSysHook c' = cEnableSysHook c ∧ aSpec c' = aSpec c.

(** What a step guarantees of the coroutines that were not running. *)
Record undisturbed (w w' : world) : Prop := {
  ud_ok : thread_ok w';
  ud_kept : ∀ a bs, a ≠ running w → kept w a bs → kept w' a bs;
  ud_cos : ∀ a c0, a ≠ running w → cos w !! a = Some c0 →
    ∃ c, cos w' !! a = Some c ∧ same_own c0 c;
  ud_mems : ∀ m sm, mems w !! m = Some sm → ∃ sm', mems w' !! m = Some sm' ∧ same_mem sm sm';
}.

(** The shared stacks: coroutines with a stack of their own do not use them. *)
Record shares_ok (w : world) : Prop := {
  sh_mem : ∀ s sh m, shares w !! s = Some sh → m ∈ stack_array sh → is_Some (mems w !! m);
  sh_private : ∀ s sh m a c, shares w !! s = Some sh → m ∈ stack_array sh →
    cos w !! a = Some c → cIsShareStack c = false → stack_mem c ≠ m;
  sh_count : ∀ s sh, shares w !! s = Some sh →
    count sh = Z.of_nat (length (stack_array sh)) ∧ 0 < count sh < 2 ^ 31 ∧
    0 ≤ alloc_idx sh < 2 ^ 32;
}.

(** The allocator returns new memory. *)
Definition fresh_stack (w : world) (mem buf : addr) (size : Z) : Prop :=
  mems w !! mem = None ∧
  ∀ m sm, mems w !! m = Some sm → buf + size ≤ stack_buffer sm ∨ stack_bp sm ≤ buf.

Definition attr_ok (w : world) (attr : option stCoRoutineAttr_t) : Prop :=
  match at_share_stack (default default_attr attr) with
  | Some s => is_Some (shares w !! s)
  | None => True
  end.

(** What [co_create_env] changes: one coroutine is added, not started, with a
    stack of a shared stack or one of its own. *)
Record created (attr : option stCoRoutineAttr_t) (fn : ptr) (a : Z) (co mem buf : addr)
    (w w' : world) (c : stCoRoutine_t) : Prop := {
  cr_cos : cos w' = <[co := c]> (cos w);
  cr_new : pfn c = fn ∧ arg c = a ∧ cStart c = false ∧ cEnd c = false ∧ cIsMain c = false ∧
    cEnableSysHook c = false ∧ save_buffer c = None ∧ aSpec c = ∅ ∧ stack_sp c = 0 ∧
    (cIsShareStack c = true ↔ is_Some (at_share_stack (default default_attr attr)));
  cr_mems : ∀ m sm, mems w !! m = Some sm → mems w' !! m = Some sm;
  cr_own : cIsShareStack c = false → stack_mem c = mem ∧ ss_sp c = buf ∧
    ss_size c = round_stack_size (at_stack_size (default default_attr attr)) ∧
    mems w' = <[mem := StackMem NULL (ss_size c) (buf + ss_size c) buf]> (mems w) ∧
    shares w' = shares w;
  cr_shared : cIsShareStack c = true → mems w' = mems w ∧
    ∃ s sh, at_share_stack (default default_attr attr) = Some s ∧ shares w !! s = Some sh ∧
      stack_array sh !! Z.to_nat (alloc_idx sh mod count sh) = Some (stack_mem c) ∧
      shares w' = <[s := ShareStack (u32 (alloc_idx sh + 1)) (share_stack_size sh) (count sh)
        (stack_array sh)]> (shares w);
  cr_rest : bytes w' = bytes w ∧ env w' = env w ∧ running w' = running w;
}.

(** ** A thread of three coroutines

    The main coroutine 1 and the coroutines 2 and 3, which share one stack. *)

Definition demo_empty : world :=
  World ∅ {[10 := StackMem NULL 4096 9096 5000]} {[20 := ShareStack 0 4096 1 [10]]}
    (λ _, 0) (CoEnv (replicate 128 NULL) 0 NULL NULL) 0.
Definition demo_attr : option stCoRoutineAttr_t := Some (CoAttr 4096 (Some 20)).
Definition demo_main : world := default demo_empty (co_init_curr_thread_env 1 11 100000 demo_empty).
Definition demo_two : world :=
  default demo_main (co_create_env demo_attr NULL 0 2 12 500000 demo_main).
Definition demo_three : world :=
  default demo_main (co_create_env demo_attr NULL 0 3 13 600000 demo_two).
(** 2 starts, writes on its stack and yields. *)
Definition demo_start : world := default demo_three (co_resume 2 100100 demo_three).
Definition demo_wrote : world := with_bytes (write_bytes (bytes demo_start) 9000 [1; 2; 3]) demo_start.
Definition demo_yield : world := default demo_wrote (co_yield_env 9000 demo_wrote).
(** 3 starts on the same stack, overwrites it and yields; 2 is resumed. *)
Definition demo_start3 : world := default demo_yield (co_resume 3 100100 demo_yield).
Definition demo_wrote3 : world := with_bytes (write_bytes (bytes demo_start3) 9000 [7; 8; 9]) demo_start3.
Definition demo_yield3 : world := default demo_wrote3 (co_yield_env 8990 demo_wrote3).
Definition demo_back : world := default demo_yield3 (co_resume 2 100100 demo_yield3).

Definition local_addr_b (w : world) (ca : addr) : bool :=
  match cos w !! running w with
  | Some c => negb (cIsShareStack c) ||
      match mems w !! stack_mem c with
      | Some sm => (stack_buffer sm <=? ca) && (ca <=? stack_bp sm)
      | None => true
      end
  | None => true
  end.

Definition in_own_stack (w : world) (a n : Z) : bool :=
  match cos w !! running w with
  | Some c => match mems w !! stack_mem c with
              | Some sm => (stack_buffer sm <=? a) && (a + n <=? stack_bp sm)
              | None => true
              end
  | None => true
  end.

Definition shares_10 (c : stCoRoutine_t) : bool := cIsShareStack c && (stack_mem c =? 10).

Definition demo_set (_ _ : Z) (p : unit) : Z * unit := (0, p).

(** ** Memory *)

Lemma read_bytes_length f a n : 0 ≤ n → Z.of_nat (length (read_bytes f a n)) = n.
Proof. intros. unfold read_bytes. rewrite length_fmap, length_seqZ. lia. Qed.

Lemma read_bytes_ext f g a n :
  (∀ x, a ≤ x < a + n → f x = g x) → read_bytes f a n = read_bytes g a n.
Proof.
  intros Hx. unfold read_bytes. apply list_fmap_ext. intros k i Hi.
  apply lookup_seqZ in Hi as [-> ?]. apply Hx. lia.
Qed.

Lemma write_bytes_out f a bs x :
  x < a ∨ a + Z.of_nat (length bs) ≤ x → write_bytes f a bs x = f x.
Proof.
  intros Hx. unfold write_bytes. case_decide; [|done].
  rewrite lookup_ge_None_2; [done|lia].
Qed.

Lemma read_write_bytes f a bs :
  read_bytes (write_bytes f a bs) a (Z.of_nat (length bs)) = bs.
Proof.
  apply list_eq. intros i. unfold read_bytes. rewrite list_lookup_fmap.
  destruct (decide (i < length bs)%nat) as [Hi|Hi].
  - rewrite (proj2 (lookup_seqZ _ _ i (Z.of_nat i))) by lia. simpl.
    unfold write_bytes. rewrite decide_True by lia.
    replace (Z.to_nat (a + Z.of_nat i - a)) with i by lia.
    by destruct (lookup_lt_is_Some_2 bs i Hi) as [? ->].
  - rewrite lookup_seqZ_ge by lia. by rewrite lookup_ge_None_2 by lia.
Qed.
(** ** Parking the running coroutine *)

Lemma private_ok_insert m a c c' :
  private_ok m → m !! a = Some c → cIsShareStack c' = cIsShareStack c → stack_mem c' = stack_mem c →
  private_ok (<[a := c']> m).
Proof.
  intros Hm Ha Hs Hmem.
  assert (H : ∀ x y, <[a := c']> m !! x = Some y →
    ∃ y0, m !! x = Some y0 ∧ cIsShareStack y = cIsShareStack y0 ∧ stack_mem y = stack_mem y0).
  { intros x y [[<- <-]|[? ?]]%lookup_insert_Some; eauto. }
  intros x y cx cy (cx0 & Hx & -> & ->)%H (cy0 & Hy & _ & ->)%H. by apply Hm.
Qed.

Lemma kept_other w w' a bs :
  kept w a bs → (∀ c, cos w !! a = Some c → cos w' !! a = Some c) → mems w' = mems w →
  bytes w' = bytes w → kept w' a bs.
Proof.
  intros (c & sm & Hc & H1 & H2 & Hm & H3) Hcos Hmems Hb.
  exists c, sm. rewrite Hmems, Hb. auto 10.
Qed.

Lemma park_running w ca c :
  stacks_ok w → local_addr w ca → cos w !! running w = Some c →
  let w0 := with_cos (<[running w := set_stack_sp ca c]> (cos w)) w in
  parked NULL w0 ∧
  (∀ a bs, a ≠ running w → kept w a bs → kept w0 a bs) ∧
  (cIsShareStack c = true → kept w0 (running w) (own_stack w ca)).
Proof.
  intros Hw Hca Hc w0.
  assert (Hoth : ∀ a bs, a ≠ running w → kept w a bs → kept w0 a bs).
  { intros a bs Ha Hk. eapply kept_other; [done| |done..]. intros c' Hc'. simpl.
    by rewrite lookup_insert_ne. }
  assert (Hown : cIsShareStack c = true → kept w0 (running w) (own_stack w ca)).
  { intros Hsh. destruct (so_mem _ Hw _ _ Hc) as [sm Hsm].
    destruct (so_run _ Hw _ _ Hc Hsh Hsm) as [Hst Hocc].
    pose proof (Hca _ _ Hc Hsh Hsm) as Hr. unfold own_stack. rewrite Hc, Hsm.
    exists (set_stack_sp ca c), sm. simpl. rewrite lookup_insert_eq.
    rewrite read_bytes_length by lia. auto 10. }
  split; [|by split]. split; try apply Hw; simpl.
  - intros a c'. destruct (decide (a = running w)) as [->|Ha]; simplify_map_eq.
    + intros [= <-]. by apply (so_mem _ Hw _ _ Hc).
    + apply Hw.
  - eapply (private_ok_insert _ _ c); [exact (so_private _ Hw)|done..].
  - intros m sm o Hm Ho. destruct (so_occ _ Hw _ _ _ Hm Ho) as (c' & Hc' & ? & ? & ?).
    destruct (decide (o = running w)) as [->|Ha]; simplify_map_eq; [|by eauto].
    eexists. split; [done|]. auto.
  - intros a c'. destruct (decide (a = running w)) as [->|Ha]; simplify_map_eq.
    + intros [= <-] Hsh _ _. eauto.
    + intros Hc' Hsh Hst _. destruct (so_kept _ Hw _ _ Hc' Hsh Hst Ha) as [bs Hk]. eauto.
Qed.

(** ** Taking the stack of the coroutine to resume *)

Lemma save_stack_buffer_eq w o c sm :
  cos w !! o = Some c → mems w !! stack_mem c = Some sm →
  stack_buffer sm ≤ stack_sp c ≤ stack_bp sm → stack_bp sm - stack_buffer sm < 2 ^ 31 →
  save_stack_buffer o w =
    Some (with_cos (<[o := set_save (stack_bp sm - stack_sp c)
      (read_bytes (bytes w) (stack_sp c) (stack_bp sm - stack_sp c)) c]> (cos w)) w).
Proof.
  intros Hc Hm Hr Hb. unfold save_stack_buffer, upd_co. rewrite Hc. simpl. rewrite Hm. simpl.
  rewrite wraps_id by lia. by rewrite option_guard_True by lia.
Qed.

Lemma kept_take_stack pending pc sm0 w0 w1 a bs :
  mems w0 !! stack_mem pc = Some sm0 → a ≠ pending →
  mems w1 = <[stack_mem pc := StackMem (Some pending) (stack_size sm0) (stack_bp sm0) (stack_buffer sm0)]> (mems w0) →
  bytes w1 = bytes w0 →
  (∀ c sm, cos w0 !! a = Some c → mems w0 !! stack_mem c = Some sm →
     cos w1 !! a = Some c ∧ (stack_mem c = stack_mem pc → occupy_co sm ≠ Some a) ∨
     stack_mem c = stack_mem pc ∧ occupy_co sm = Some a ∧
     cos w1 !! a = Some (set_save (stack_bp sm - stack_sp c)
        (read_bytes (bytes w0) (stack_sp c) (stack_bp sm - stack_sp c)) c)) →
  kept w0 a bs → kept w1 a bs.
Proof.
  intros Hm0 Ha Hmems Hb Hcos (c & sm & Hc & Hsh & Hst & Hm & Hr & Hl & Hk).
  destruct (Hcos c sm Hc Hm) as [[Hc1 Hne]|(Heq & Ho & Hc1)].
  - destruct (decide (stack_mem c = stack_mem pc)) as [Heq|Hneq].
    + rewrite Heq in Hm. simplify_eq. destruct Hk as [[Ho _]|(o & Ho & Hoa & Hsave)]; [by destruct (Hne Heq)|].
      exists c, (StackMem (Some pending) (stack_size sm0) (stack_bp sm0) (stack_buffer sm0)).
      rewrite Hmems, Heq, lookup_insert_eq. simpl. split_and!; try done; [lia..|].
      right. exists pending. split_and!; [done|done|apply Hsave..].
    + exists c, sm. rewrite Hmems, lookup_insert_ne, Hb by done. auto 10.
  - rewrite Heq in Hm. simplify_eq. destruct Hk as [[_ Hbs]|(o & Ho' & Hoa & _)]; [|congruence].
    eexists _, (StackMem (Some pending) (stack_size sm0) (stack_bp sm0) (stack_buffer sm0)).
    split; [exact Hc1|]. simpl. rewrite Hmems, Heq, lookup_insert_eq. simpl. rewrite Hbs.
    split_and!; try done; [lia..|]. right. exists pending. auto.
Qed.

Lemma co_take_stack_spec ex pending pc w0 :
  parked ex w0 → ex = NULL ∨ ex = Some pending → cos w0 !! pending = Some pc →
  ∃ w1, co_take_stack pending w0 = Some w1 ∧ taken pending pc w0 w1.
Proof.
  intros Hw Hex Hpc. unfold co_take_stack. rewrite Hpc. simpl.
  destruct (cIsShareStack pc) eqn:Hsh.
  2:{ eexists. split; [done|]. split; simpl; rewrite ?Hsh; eauto 10. }
  destruct (pk_mem _ _ Hw _ _ Hpc) as [sm Hm]. rewrite Hm. simpl.
  set (sm' := StackMem _ _ _ _).
  assert (Hmems : <[stack_mem pc := sm']> (mems w0) = alter (λ sm, StackMem (Some pending)
    (stack_size sm) (stack_bp sm) (stack_buffer sm)) (stack_mem pc) (mems w0)).
  { apply map_eq. intros k. destruct (decide (k = stack_mem pc)) as [->|]; by simplify_map_eq. }
  destruct (occupy_co sm) as [o|] eqn:Ho.
  2:{ eexists. split; [done|]. split; simpl; rewrite ?Hsh, ?Hm; simpl; eauto 10.
      intros a bs Ha. eapply kept_take_stack; [done|done|done|done|]. intros c sm1 Hc Hm1.
      left. split; [done|]. intros Heq. rewrite Heq in Hm1. congruence. }
  destruct (decide (o = pending)) as [->|Hop].
  { eexists. split; [done|]. split; simpl; rewrite ?Hsh, ?Hm; simpl; eauto 10.
    intros a bs Ha. eapply kept_take_stack; [done|done|done|done|]. intros c sm1 Hc Hm1.
    left. split; [done|]. intros Heq. rewrite Heq in Hm1. congruence. }
  destruct (pk_occ _ _ Hw _ _ _ Hm Ho) as (co & Hco & Hcm & Hcs & Hct).
  destruct (pk_kept _ _ Hw _ _ Hco Hcs Hct) as (bs & c1 & sm1 & Hc1 & _ & _ & Hm1 & Hr & _);
    [naive_solver|]. rewrite Hco in Hc1. simplify_eq. rewrite Hcm, Hm in Hm1. simplify_eq.
  destruct (pk_region _ _ Hw _ _ Hm) as [_ Hlen].
  erewrite save_stack_buffer_eq; simpl; [|exact Hco|by rewrite Hcm, lookup_insert_eq|done|done].
  eexists. split; [done|]. simpl. split; simpl; rewrite ?Hsh, ?Hm; simpl; eauto.
  - intros a c. destruct (decide (a = o)) as [->|]; simplify_map_eq; [|by eauto].
    intros [= <-]. eexists. split; [done|]. eauto 10.
  - intros a Ha. apply lookup_insert_is_Some'. auto.
  - by simplify_map_eq.
  - intros a bs' Ha. eapply kept_take_stack; [done|done|done|done|]. simpl. intros c sm2 Hc Hm2.
    destruct (decide (a = o)) as [->|]; simplify_map_eq.
    + right. split_and!; congruence.
    + left. split; [done|]. intros Heq. rewrite Heq in Hm2. congruence.
Qed.
(** ** Back on the stack of the resumed coroutine *)

(** Writing to the used part of the stack that [p] occupies leaves the others
    intact. *)
Lemma kept_write w p c sm bs' a bs :
  (∀ m1 m2 s1 s2, mems w !! m1 = Some s1 → mems w !! m2 = Some s2 → m1 ≠ m2 →
    stack_bp s1 ≤ stack_buffer s2 ∨ stack_bp s2 ≤ stack_buffer s1) →
  mems w !! stack_mem c = Some sm → occupy_co sm = Some p → a ≠ p →
  stack_buffer sm ≤ stack_sp c → stack_sp c + Z.of_nat (length bs') ≤ stack_bp sm →
  kept w a bs → kept (with_bytes (write_bytes (bytes w) (stack_sp c) bs') w) a bs.
Proof.
  intros Hdisj Hm Ho Ha Hlo Hhi (ca & sa & Hc & H1 & H2 & Hma & H3 & H4 & Hk).
  exists ca, sa. simpl. split_and!; try done; [lia..|].
  destruct Hk as [[Hoa Hr]|Hk]; [left|by right]. split; [done|]. rewrite <-Hr.
  apply read_bytes_ext. intros x Hx. apply write_bytes_out.
  destruct (Hdisj (stack_mem ca) (stack_mem c) sa sm); [done|done|congruence|lia|lia].
Qed.

Lemma kept_unique w a bs bs' : kept w a bs → kept w a bs' → bs = bs'.
Proof.
  intros (c & sm & Hc & _ & _ & Hm & _ & _ & Hcase) (c' & sm' & Hc' & _ & _ & Hm' & _ & _ & Hcase').
  assert (c' = c) as -> by congruence. assert (sm' = sm) as -> by congruence.
  destruct Hcase as [[? ?]|(? & ? & ? & ? & ?)], Hcase' as [[? ?]|(? & ? & ? & ? & ?)]; congruence.
Qed.

(** Taking the stack does not make two stacks overlap. *)
Lemma taken_disj pending pc w0 w1 ex :
  parked ex w0 → taken pending pc w0 w1 → cIsShareStack pc = true →
  ∀ m1 m2 s1 s2, mems w1 !! m1 = Some s1 → mems w1 !! m2 = Some s2 → m1 ≠ m2 →
    stack_bp s1 ≤ stack_buffer s2 ∨ stack_bp s2 ≤ stack_buffer s1.
Proof.
  intros Hw Ht Hsh. rewrite (tk_mems _ _ _ _ Ht), Hsh. intros m1 m2 s1 s2 H1 H2 H12.
  apply lookup_alter_Some in H1, H2.
  destruct H1 as [(<- & s1' & H1 & ->)|[? H1]], H2 as [(<- & s2' & H2 & ->)|[? H2]]; simpl;
    by eapply (pk_disj _ _ Hw _ _ _ _ H1 H2).
Qed.

(** With its bytes back on the stack [pending] has what it had, and so have the
    others if they are not touched. *)
Lemma swapped_in_kept pending pc w0 w1 sm bs g :
  taken pending pc w0 w1 → cIsShareStack pc = true → cStart pc = true →
  mems w0 !! stack_mem pc = Some sm → kept w0 pending bs →
  stack_buffer sm ≤ stack_sp pc ≤ stack_bp sm → Z.of_nat (length bs) = stack_bp sm - stack_sp pc →
  read_bytes g (stack_sp pc) (stack_bp sm - stack_sp pc) = bs →
  (∀ a bs', a ≠ pending → kept w1 a bs' → kept (with_bytes g w1) a bs') →
  ∀ a bs', kept w0 a bs' → kept (with_bytes g (with_running pending w1)) a bs'.
Proof.
  intros Ht Hsh Hst Hm Hk Hr Hl Hg Hoth a bs' Hk'. destruct (decide (a = pending)) as [->|Hne].
  - rewrite (kept_unique _ _ _ _ Hk' Hk).
    exists pc, (StackMem (Some pending) (stack_size sm) (stack_bp sm) (stack_buffer sm)). simpl.
    rewrite (tk_pending _ _ _ _ Ht), (tk_mems _ _ _ _ Ht), Hsh, lookup_alter_eq, Hm.
    split_and!; try done; [lia|lia|by left].
  - eapply kept_other; [by eapply Hoth, tk_kept|done..].
Qed.

Lemma co_swap_in_own pending pc w0 w1 :
  cos w0 !! pending = Some pc → cIsShareStack pc = false → taken pending pc w0 w1 →
  co_swap_in (with_running pending w1) = Some (with_running pending w1) ∧
  ∀ a bs, kept w0 a bs → kept (with_running pending w1) a bs.
Proof.
  intros Hpc Hsh Ht. destruct (tk_env _ _ _ _ Ht) as [Hep Heo]. rewrite Hsh in Hep, Heo.
  unfold co_swap_in. simpl. rewrite Hep, Heo. split; [done|]. intros a bs Hk.
  destruct (decide (a = pending)) as [->|].
  { destruct Hk as (c & sm & Hc & Hcs & _). congruence. }
  eapply kept_other; [by eapply tk_kept|done..].
Qed.

Lemma co_swap_in_spec pending pc w0 w1 :
  parked NULL w0 → cos w0 !! pending = Some pc → (cIsShareStack pc = true → cStart pc = true) →
  taken pending pc w0 w1 →
  ∃ w2, co_swap_in (with_running pending w1) = Some w2 ∧
    (∀ a bs, kept w0 a bs → kept w2 a bs) ∧
    ∃ f, w2 = with_bytes f (with_running pending w1).
Proof.
  intros Hw Hpc Hst Ht. destruct (cIsShareStack pc) eqn:Hsh.
  2:{ destruct (co_swap_in_own pending pc w0 w1) as [E Hk]; [done..|].
      exists (with_running pending w1). split; [done|]. split; [done|by exists (bytes w1)]. }
  destruct (tk_env _ _ _ _ Ht) as [Hep Heo]. rewrite Hsh in Hep, Heo.
  unfold co_swap_in. simpl. rewrite Hep, Heo.
  destruct (pk_kept _ _ Hw _ _ Hpc Hsh (Hst eq_refl)) as (bs & Hkp); [done|].
  pose proof Hkp as (c & sm & Hc & _ & _ & Hm & Hr & Hl & Hcase).
  assert (c = pc) as -> by congruence. clear Hc. rewrite Hm. simpl.
  assert (Hdone := λ g, swapped_in_kept pending pc w0 w1 sm bs g Ht Hsh (Hst eq_refl) Hm Hkp Hr Hl).
  assert (Hstay : (occupy_co sm = Some pending ∨ stack_sp pc = stack_bp sm) →
    ∃ w2, Some (with_running pending w1) = Some w2 ∧ (∀ a bs', kept w0 a bs' → kept w2 a bs') ∧
      ∃ f, w2 = with_bytes f (with_running pending w1)).
  { intros Hno. exists (with_bytes (bytes w1) (with_running pending w1)). split; [done|].
    split; [|by exists (bytes w1)]. apply Hdone; [|done].
    rewrite (tk_bytes _ _ _ _ Ht). destruct Hcase as [[? ?]|(o & ? & ? & Hsv & Hss)]; [done|].
    destruct Hno as [?|Heq]; [congruence|]. rewrite Heq, Z.sub_diag in *.
    destruct bs; [done|simpl in Hl; lia]. }
  destruct Hcase as [[Ho Hrd]|(o & Ho & Hop & Hsv & Hss)]; rewrite Ho.
  { rewrite decide_True by done. apply Hstay. by left. }
  rewrite decide_False by done. rewrite (tk_pending _ _ _ _ Ht). simpl. rewrite Hsv.
  case_decide as Hpos; [|apply Hstay; right; lia].
  assert (Htake : take (Z.to_nat (save_size pc)) bs = bs) by (apply take_ge; lia).
  rewrite Htake. eexists. split; [done|]. split; [|by eexists]. apply Hdone.
  - rewrite <-Hl. apply read_write_bytes.
  - intros a bs' Ha Hk.
    eapply (kept_write w1 pending pc (StackMem (Some pending) (stack_size sm) (stack_bp sm) (stack_buffer sm)));
      simpl; try done; [by eapply taken_disj| |lia..].
    by rewrite (tk_mems _ _ _ _ Ht), Hsh, lookup_alter_eq, Hm.
Qed.

(** ** The switch *)

Lemma stacks_ok_taken ex pending pc w0 w1 w2 :
  parked ex w0 → ex = NULL ∨ ex = Some pending → (cIsShareStack pc = true → cStart pc = true) →
  cos w0 !! pending = Some pc → taken pending pc w0 w1 →
  cos w2 = cos w1 → mems w2 = mems w1 → running w2 = pending →
  (∀ a bs, a ≠ pending → kept w0 a bs → kept w2 a bs) →
  stacks_ok w2.
Proof.
  intros Hw Hex Hst Hpc Ht Hcos Hmems Hrun Hkept.
  assert (Hm : ∀ m sm2, mems w2 !! m = Some sm2 → ∃ sm, mems w0 !! m = Some sm ∧
    stack_buffer sm2 = stack_buffer sm ∧ stack_bp sm2 = stack_bp sm ∧
    (occupy_co sm2 = occupy_co sm ∨
     occupy_co sm2 = Some pending ∧ m = stack_mem pc ∧ cIsShareStack pc = true)).
  { intros m sm2. rewrite Hmems, (tk_mems _ _ _ _ Ht). destruct (cIsShareStack pc); [|by eauto 10].
    intros [(<- & sm & ? & ->)|[? ?]]%lookup_alter_Some; eauto 10. }
  assert (Hc1 : ∀ a c, cos w2 !! a = Some c → ∃ c0, cos w0 !! a = Some c0 ∧
    cIsShareStack c = cIsShareStack c0 ∧ cStart c = cStart c0 ∧ stack_mem c = stack_mem c0).
  { rewrite Hcos. intros a c Hc. destruct (tk_cos _ _ _ _ Ht _ _ Hc) as (c0 & Hc0 & Heq).
    exists c0. split; [done|]. by destruct Heq as [->|(_ & n & b & ->)]. }
  split.
  - intros m sm2 (sm & Hsm & -> & -> & _)%Hm. by eapply (pk_region _ _ Hw).
  - intros m1 m2 s1 s2 (s1' & H1 & -> & -> & _)%Hm (s2' & H2 & -> & -> & _)%Hm.
    by eapply (pk_disj _ _ Hw).
  - intros a c (c0 & Hc0 & _ & _ & ->)%Hc1. destruct (pk_mem _ _ Hw _ _ Hc0) as [sm Hsm].
    rewrite Hmems, (tk_mems _ _ _ _ Ht). destruct (cIsShareStack pc); [|by eauto 10].
    by apply lookup_alter_is_Some.
  - intros a b ca cb (ca0 & Ha & -> & _ & ->)%Hc1 (cb0 & Hb & _ & _ & ->)%Hc1.
    by apply (pk_private _ _ Hw).
  - intros m sm2 o (sm & Hsm & _ & _ & [Heq|(Heq & -> & Hsh)])%Hm Ho; rewrite Heq in Ho.
    + destruct (pk_occ _ _ Hw _ _ _ Hsm Ho) as (c0 & Hc0 & ? & ? & ?).
      destruct (tk_dom _ _ _ _ Ht o) as [c Hc]; [by eauto|].
      rewrite <-Hcos in Hc. destruct (Hc1 _ _ Hc) as (c0' & Hc0' & ? & ? & ?). simplify_eq.
      exists c. split_and!; congruence.
    + injection Ho as <-. exists pc. rewrite Hcos, (tk_pending _ _ _ _ Ht). auto.
  - rewrite Hrun, Hcos, (tk_pending _ _ _ _ Ht), Hmems, (tk_mems _ _ _ _ Ht).
    intros c sm [= <-] Hsh. rewrite Hsh.
    intros [(_ & sm' & ? & ->)|[? ?]]%lookup_alter_Some; [|done]. auto.
  - rewrite Hrun. intros a c (c0 & Hc0 & -> & -> & _)%Hc1 Hsh Hstart Hne.
    destruct (pk_kept _ _ Hw _ _ Hc0 Hsh Hstart) as [bs Hk]; [naive_solver|]. eauto.
Qed.

Lemma switch_spec (starts : bool) pending pc w0 :
  parked (if starts then Some pending else NULL) w0 → cos w0 !! pending = Some pc →
  (cIsShareStack pc = true → cStart pc = true) →
  ∃ w2, (w1 ← co_take_stack pending w0;
         let w1 := with_running pending w1 in if starts then Some w1 else co_swap_in w1) = Some w2 ∧
    switched starts pending w0 w2.
Proof.
  intros Hw Hpc Hst. set (ex := if starts then Some pending else NULL) in *.
  assert (Hex : ex = NULL ∨ ex = Some pending) by (unfold ex; destruct starts; auto).
  destruct (co_take_stack_spec _ _ _ _ Hw Hex Hpc) as (w1 & -> & Ht). simpl.
  assert (Hcos : ∀ a c0, cos w0 !! a = Some c0 → ∃ c, cos w1 !! a = Some c ∧ same_co c0 c).
  { intros a c0 Hc0. destruct (tk_dom _ _ _ _ Ht a) as [c Hc]; [by eauto|].
    exists c. split; [done|]. destruct (tk_cos _ _ _ _ Ht _ _ Hc) as (c0' & Hc0' & Heq).
    simplify_eq. by destruct Heq as [->|(_ & n & b & ->)]. }
  assert (Hmem : ∀ m sm, mems w0 !! m = Some sm → ∃ sm', mems w1 !! m = Some sm' ∧ same_mem sm sm').
  { intros m sm Hm. rewrite (tk_mems _ _ _ _ Ht). destruct (cIsShareStack pc); [|by exists sm].
    destruct (decide (m = stack_mem pc)) as [->|]; simplify_map_eq; by eexists. }
  destruct starts; simpl in *.
  - eexists. split; [done|].
    assert (Hk : ∀ a bs, a ≠ pending → kept w0 a bs → kept (with_running pending w1) a bs).
    { intros a bs Ha Hk. eapply kept_other; [by eapply tk_kept|done..]. }
    split; simpl; try done; [|by apply Ht|naive_solver].
    eapply (stacks_ok_taken _ pending pc w0 w1); done.
  - destruct (co_swap_in_spec _ _ _ _ Hw Hpc Hst Ht) as (w2 & -> & Hk & f & ->).
    eexists. split; [done|]. split; simpl; try done; [|by apply Ht|by eauto].
    eapply (stacks_ok_taken _ pending pc w0 w1); eauto.
Qed.

(** ** Resume and yield *)

Lemma park_start w pending pc :
  parked NULL w → cos w !! pending = Some pc → cStart pc = false →
  let w' := with_cos (<[pending := set_cStart true pc]> (cos w)) w in
  parked (Some pending) w' ∧ (∀ a bs, kept w a bs → a ≠ pending ∧ kept w' a bs).
Proof.
  intros Hw Hpc Hst w'.
  assert (Hk : ∀ a bs, kept w a bs → a ≠ pending ∧ kept w' a bs).
  { intros a bs Hk. pose proof Hk as (c & sm & Hc & ? & ? & _).
    assert (a ≠ pending) by congruence. split; [done|].
    eapply kept_other; [done| |done..]. intros c' Hc'. simpl. by rewrite lookup_insert_ne. }
  split; [|done]. split; try apply Hw; simpl.
  - intros a c'. destruct (decide (a = pending)) as [->|]; simplify_map_eq; [|apply Hw].
    intros [= <-]. by apply (pk_mem _ _ Hw _ _ Hpc).
  - eapply (private_ok_insert _ _ pc); [exact (pk_private _ _ Hw)|done..].
  - intros m sm o Hm Ho. destruct (pk_occ _ _ Hw _ _ _ Hm Ho) as (c' & Hc' & ? & ? & ?).
    destruct (decide (o = pending)) as [->|]; simplify_map_eq; by eauto.
  - intros a c'. intros Hc' Hsh Hs Hne. assert (a ≠ pending) by congruence. simplify_map_eq.
    destruct (pk_kept _ _ Hw _ _ Hc' Hsh Hs) as [bs Hb]; [done|]. exists bs. by apply Hk.
Qed.

Lemma co_swap_spec (starts : bool) w next ca c pc pc' e :
  stacks_ok w → local_addr w ca → cos w !! running w = Some c → cos w !! next = Some pc →
  next ≠ running w →
  (if starts then cStart pc = false else cIsShareStack pc = true → cStart pc = true) →
  pc' = (if starts then set_cStart true pc else pc) →
  ∃ w', co_swap starts (running w) next ca
          (with_env e (with_cos (<[next := pc']> (cos w)) w)) = Some w' ∧
    moved starts w ca next e w'.
Proof.
  intros Hw Hca Hc Hpc Hne Hst Hpc'.
  destruct (park_running _ _ _ Hw Hca Hc) as (Hpark & Hoth & Hown).
  set (w0 := with_cos _ w) in Hpark.
  assert (Hpc0 : cos w0 !! next = Some pc) by (simpl; by rewrite lookup_insert_ne).
  set (w1 := with_env e (with_cos (<[next := pc']> (cos w0)) w0)).
  assert (Hw1 : parked (if starts then Some next else NULL) w1 ∧
    (∀ a bs, kept w0 a bs → (starts = false ∨ a ≠ next) ∧ kept w1 a bs)).
  { destruct starts; subst pc'.
    - destruct (park_start _ _ _ Hpark Hpc0 Hst) as [Hp Hk]. split; [split; apply Hp|].
      intros a bs (? & ?)%Hk. eauto.
    - unfold w1. rewrite insert_id by done. split; [split; apply Hpark|]. eauto. }
  destruct Hw1 as [Hp1 Hk1].
  destruct (switch_spec starts next pc' w1 Hp1) as (w2 & Heq & Hs);
    [simpl; by rewrite lookup_insert_eq|by destruct starts; subst pc'|].
  exists w2. split.
  { unfold co_swap, co_swap_out, upd_co. simpl. rewrite lookup_insert_ne, Hc by done. simpl.
    rewrite <-Heq. unfold w1, w0. simpl. rewrite (insert_insert_ne _ (running w) next) by done.
    unfold with_cos, with_env. simpl. destruct (co_take_stack _ _); done. }
  split; [apply Hs|apply Hs|apply Hs|..|apply Hs].
  - intros a bs Ha Hk. destruct (Hk1 a bs) as [??]; [by apply Hoth|]. by apply Hs.
  - intros c' Hc' Hsh. assert (c' = c) as -> by congruence.
    destruct (Hk1 _ _ (Hown Hsh)). by apply Hs.
  - intros a c0 Hc0. case_decide as Hd.
    { subst a. assert (c0 = c) as -> by congruence. apply (sw_cos _ _ _ _ Hs).
      simpl. by rewrite lookup_insert_ne, lookup_insert_eq. }
    case_bool_decide as Hd'.
    + subst a. assert (c0 = pc) as -> by congruence. rewrite andb_true_r, <-Hpc'.
      apply (sw_cos _ _ _ _ Hs). simpl. by rewrite lookup_insert_eq.
    + rewrite andb_false_r. apply (sw_cos _ _ _ _ Hs). simpl. by rewrite !lookup_insert_ne.
Qed.

Lemma thread_ok_moved starts w ca next e w' :
  env_ok w → next ≠ running w → moved starts w ca next e w' → length (pCallStack e) = 128%nat →
  1 ≤ iCallStackSize e ≤ 128 →
  last (take (Z.to_nat (iCallStackSize e)) (pCallStack e)) = Some (Some next) →
  NoDup (take (Z.to_nat (iCallStackSize e)) (pCallStack e)) →
  (∀ p, p ∈ take (Z.to_nat (iCallStackSize e)) (pCallStack e) →
    p ∈ call_stack w ∨ p = Some next ∧ ∃ c, cos w !! next = Some c ∧ (starts = false → cStart c = true)) →
  thread_ok w'.
Proof.
  intros Hw Hne Hm Hlen Hsz Hlast Hnd Hlive. split; [apply Hm|].
  destruct (mv_stack _ _ _ _ _ _ Hm) as [H1 H2].
  assert (Hcs : call_stack w' = take (Z.to_nat (iCallStackSize e)) (pCallStack e)).
  { unfold call_stack. by rewrite H1, H2. }
  split; rewrite ?Hcs, ?H1, ?H2, ?(mv_running _ _ _ _ _ _ Hm); try done.
  assert (Hgo : ∀ a c0, cos w !! a = Some c0 →
    (cIsShareStack c0 = true → cStart c0 = true ∨ starts = true ∧ a = next) →
    ∃ a' c, Some a = Some a' ∧ cos w' !! a' = Some c ∧ (cIsShareStack c = true → cStart c = true)).
  { intros a c0 Hc0 Hs. destruct (mv_cos _ _ _ _ _ _ Hm _ _ Hc0) as (c & Hc & Hsc).
    exists a, c. split_and!; [done|done|]. intros Hsh.
    destruct Hsc as (_ & _ & _ & Hsh' & Hst' & _). rewrite Hst'. rewrite Hsh' in Hsh.
    destruct (decide (a = running w)) as [->|]; simpl in *.
    - destruct (Hs Hsh) as [Hs0|[_ Heq]]; [done|congruence].
    - assert (cIsShareStack c0 = true) as Hsh0 by (by destruct (starts && _)).
      destruct (Hs Hsh0) as [Hs0|[-> ->]]; [|by rewrite bool_decide_eq_true_2].
      by destruct (starts && _). }
  intros p Hp. destruct (Hlive p Hp) as [Hin|(-> & c & Hc & Hs)].
  - destruct (eo_live _ Hw p Hin) as (a & c & -> & Hc & Hs). eapply Hgo; [done|]. auto.
  - eapply Hgo; [done|]. intros _. destruct starts; auto.
Qed.

Lemma last_nth_error {A} (l : list A) x : last l = Some x → l !! (length l - 1)%nat = Some x.
Proof. rewrite last_lookup. by destruct (length l) as [|n]; rewrite ?Nat.sub_1_r. Qed.

Lemma call_stack_length w : env_ok w → Z.of_nat (length (call_stack w)) = iCallStackSize (env w).
Proof.
  intros Hw. destruct (eo_size _ Hw). pose proof (eo_len _ Hw). unfold call_stack.
  rewrite length_take. lia.
Qed.

Lemma call_stack_at_spec w i p :
  env_ok w → call_stack w !! i = Some p → call_stack_at (env w) (Z.of_nat i) = Some p.
Proof.
  intros Hw Hi. pose proof (lookup_lt_Some _ _ _ Hi). pose proof (call_stack_length w Hw).
  pose proof (eo_size _ Hw). unfold call_stack_at. rewrite option_guard_True by lia.
  simpl. rewrite Nat2Z.id. unfold call_stack in Hi. by rewrite lookup_take_lt in Hi by lia.
Qed.

Lemma running_at w :
  env_ok w → call_stack_at (env w) (iCallStackSize (env w) - 1) = Some (Some (running w)).
Proof.
  intros Hw. pose proof (call_stack_length w Hw). pose proof (eo_size _ Hw).
  replace (iCallStackSize (env w) - 1) with (Z.of_nat (length (call_stack w) - 1)) by lia.
  apply call_stack_at_spec; [done|]. apply last_nth_error, Hw.
Qed.

Lemma running_live w : env_ok w → ∃ c, cos w !! running w = Some c.
Proof.
  intros Hw. destruct (eo_live _ Hw (Some (running w))) as (a & c & [= <-] & ? & _); [|by eauto].
  eapply list_elem_of_lookup_2, last_nth_error, Hw.
Qed.

Lemma same_with_cos w a c : cos w !! a = Some c → with_cos (<[a := c]> (cos w)) w = w.
Proof. intros. unfold with_cos. rewrite insert_id by done. by destruct w. Qed.

Lemma call_stack_push (e : stCoRoutineEnv_t) (p : ptr) :
  length (pCallStack e) = 128%nat → 0 ≤ iCallStackSize e < 128 →
  take (Z.to_nat (iCallStackSize e + 1)) (<[Z.to_nat (iCallStackSize e) := p]> (pCallStack e)) =
  take (Z.to_nat (iCallStackSize e)) (pCallStack e) ++ [p].
Proof.
  intros Hl Hs. rewrite Z2Nat.inj_add by lia. rewrite Nat.add_1_r.
  rewrite (take_S_r _ _ p) by (apply list_lookup_insert_eq; lia).
  by rewrite take_insert_ge.
Qed.

Lemma co_resume_spec w co ca c :
  thread_ok w → local_addr w ca → cos w !! co = Some c → Some co ∉ call_stack w →
  iCallStackSize (env w) < 128 →
  ∃ w' e, co_resume co ca w = Some w' ∧ moved (negb (cStart c)) w ca co e w' ∧
    thread_ok w' ∧ call_stack w' = call_stack w ++ [Some co].
Proof.
  intros [Hs He] Hca Hc Hni Hsz. pose proof (eo_size _ He) as Hsz'. pose proof (eo_len _ He) as Hlen.
  destruct (running_live _ He) as [rc Hrc].
  assert (Hne : co ≠ running w).
  { intros ->. apply Hni. eapply list_elem_of_lookup_2, last_nth_error, He. }
  set (e := CoEnv (<[Z.to_nat (iCallStackSize (env w)) := Some co]> (pCallStack (env w)))
              (iCallStackSize (env w) + 1) (env_pending_co (env w)) (env_occupy_co (env w))).
  set (c' := if negb (cStart c) then set_cStart true c else c).
  destruct (co_swap_spec (negb (cStart c)) w co ca rc c c' e Hs Hca Hrc Hc Hne)
    as (w' & Heq & Hm); [by destruct (cStart c)|done|].
  exists w', e.
  assert (Hcs : take (Z.to_nat (iCallStackSize e)) (pCallStack e) = call_stack w ++ [Some co]).
  { simpl. rewrite call_stack_push by lia. done. }
  split_and!; [|done|..].
  - rewrite <-Heq. unfold co_resume. rewrite (running_at _ He). simpl. rewrite Hc. simpl.
    unfold upd_co. rewrite Hc. simpl. unfold c'.
    assert (Hset : set_call_stack (iCallStackSize (env w)) (Some co) (env w) = Some (CoEnv (<[Z.to_nat (iCallStackSize (env w)) := Some co]> (pCallStack (env w)))
              (iCallStackSize (env w)) (env_pending_co (env w)) (env_occupy_co (env w)))).
    { unfold set_call_stack. by rewrite option_guard_True by lia. }
    destruct (cStart c); simpl; rewrite Hset; simpl; [|done].
    by rewrite same_with_cos by done.
  - eapply thread_ok_moved; [exact He|exact Hne|exact Hm|..].
    + simpl. by rewrite length_insert.
    + simpl. lia.
    + rewrite Hcs. by rewrite last_snoc.
    + rewrite Hcs. apply NoDup_app. split_and!; [apply He|set_solver|apply NoDup_singleton].
    + rewrite Hcs. intros p [Hp|Hp]%elem_of_app; [by left|right].
      apply list_elem_of_singleton in Hp as ->. split; [done|]. exists c. split; [done|].
      by destruct (cStart c).
  - destruct (mv_stack _ _ _ _ _ _ Hm) as [H1 H2]. unfold call_stack at 1. by rewrite H1, H2.
Qed.

Lemma call_stack_snoc w l next :
  env_ok w → call_stack w = l ++ [Some next; Some (running w)] →
  take (Z.to_nat (iCallStackSize (env w) - 1)) (pCallStack (env w)) = l ++ [Some next].
Proof.
  intros He Hcs. pose proof (call_stack_length _ He) as Hl. rewrite Hcs, length_app in Hl. simpl in Hl.
  replace (take (Z.to_nat (iCallStackSize (env w) - 1)) (pCallStack (env w)))
    with (take (Z.to_nat (iCallStackSize (env w) - 1)) (call_stack w)).
  2:{ unfold call_stack. rewrite take_take. f_equal. lia. }
  rewrite Hcs. change [Some next; Some (running w)] with ([Some next] ++ [Some (running w)]).
  rewrite app_assoc. apply take_app_length'. rewrite length_app. simpl. lia.
Qed.

Lemma co_yield_spec w ca l next :
  thread_ok w → local_addr w ca → call_stack w = l ++ [Some next; Some (running w)] →
  ∃ w' e, co_yield_env ca w = Some w' ∧ moved false w ca next e w' ∧
    thread_ok w' ∧ call_stack w' = l ++ [Some next].
Proof.
  intros [Hs He] Hca Hcs. pose proof (eo_size _ He) as Hsz'. pose proof (eo_len _ He) as Hlen.
  pose proof (call_stack_length _ He) as Hl. rewrite Hcs, length_app in Hl. simpl in Hl.
  destruct (running_live _ He) as [rc Hrc].
  destruct (eo_live _ He (Some next)) as (? & pc & [= <-] & Hpc & Hst); [rewrite Hcs; set_solver|].
  assert (Hne : next ≠ running w).
  { intros ->. pose proof (eo_nodup _ He) as Hnd. rewrite Hcs in Hnd.
    apply NoDup_app in Hnd as (_ & _ & Hnd). apply NoDup_cons in Hnd as [Hnd _]. set_solver. }
  set (e := set_size (iCallStackSize (env w) - 1) (env w)).
  destruct (co_swap_spec false w next ca rc pc pc e Hs Hca Hrc Hpc Hne Hst eq_refl) as (w' & Heq & Hm).
  rewrite same_with_cos in Heq by done. exists w', e.
  pose proof (call_stack_snoc _ _ _ He Hcs) as Hcs'.
  split_and!; [|done|..].
  - rewrite <-Heq. unfold co_yield_env.
    replace (iCallStackSize (env w) - 2) with (Z.of_nat (length l)) by lia.
    rewrite (call_stack_at_spec _ _ (Some next) He) by (by rewrite Hcs, list_lookup_middle).
    rewrite (running_at _ He). done.
  - eapply thread_ok_moved; [exact He|exact Hne|exact Hm|done|simpl; lia|..]; simpl; rewrite Hcs'.
    + by rewrite last_snoc.
    + pose proof (eo_nodup _ He) as Hnd. rewrite Hcs in Hnd.
      eapply sublist_NoDup; [exact Hnd|]. apply sublist_app; [done|].
      apply sublist_skip, sublist_nil_l.
    + intros p Hp. left. rewrite Hcs. set_solver.
  - destruct (mv_stack _ _ _ _ _ _ Hm) as [H1 H2]. unfold call_stack at 1. by rewrite H1, H2.
Qed.

(** ** Steps *)

Lemma undisturbed_moved starts w ca next e w' :
  thread_ok w' → moved starts w ca next e w' → undisturbed w w'.
Proof.
  intros Hw Hm. split; [done|apply Hm| |apply Hm].
  intros a c0 Ha Hc0. destruct (mv_cos _ _ _ _ _ _ Hm _ _ Hc0) as (c & Hc & Hsc).
  exists c. split; [done|]. rewrite decide_False in Hsc by done.
  unfold same_own. unfold same_co in Hsc. destruct (starts && _); simpl in Hsc; intuition congruence.
Qed.

(** The running coroutine changes its flags or values. *)
Lemma own_undisturbed w c f :
  thread_ok w → cos w !! running w = Some c →
  cIsShareStack (f c) = cIsShareStack c → cStart (f c) = cStart c →
  stack_mem (f c) = stack_mem c →
  undisturbed w (with_cos (<[running w := f c]> (cos w)) w).
Proof.
  intros [Hs He] Hc H1 H2 H3.
  assert (Hk : ∀ a bs, a ≠ running w → kept w a bs →
    kept (with_cos (<[running w := f c]> (cos w)) w) a bs).
  { intros a bs Ha Hk. eapply kept_other; [done| |done..]. intros c' Hc'. simpl.
    by rewrite lookup_insert_ne. }
  assert (Hd : ∀ a c', <[running w := f c]> (cos w) !! a = Some c' → ∃ c0, cos w !! a = Some c0 ∧
    cIsShareStack c' = cIsShareStack c0 ∧ cStart c' = cStart c0 ∧ stack_mem c' = stack_mem c0).
  { intros a c' [[<- <-]|[? ?]]%lookup_insert_Some; eauto 10. }
  assert (Hu : ∀ a c0, cos w !! a = Some c0 → ∃ c', <[running w := f c]> (cos w) !! a = Some c' ∧
    cIsShareStack c' = cIsShareStack c0 ∧ cStart c' = cStart c0 ∧ stack_mem c' = stack_mem c0).
  { intros a c0 Hc0. destruct (decide (a = running w)) as [->|]; simplify_map_eq; eauto 10. }
  split; [|done| |]; [|intros a c0 Ha Hc0; exists c0; simpl; by rewrite lookup_insert_ne
    |intros; eexists; by eauto].
  split; split; simpl; try apply Hs; try apply He.
  - intros a c' (c0 & Hc0 & _ & _ & ->)%Hd. by apply (so_mem _ Hs _ _ Hc0).
  - apply (private_ok_insert _ _ c); [exact (so_private _ Hs)|done..].
  - intros m sm o Hm Ho. destruct (so_occ _ Hs _ _ _ Hm Ho) as (c0 & Hc0 & ? & ? & ?).
    destruct (Hu _ _ Hc0) as (c' & Hc' & ? & ? & ?). exists c'. split_and!; congruence.
  - intros c' sm. rewrite lookup_insert_eq. intros [= <-]. rewrite H1, H2, H3. by apply Hs.
  - intros a c' Hc' Hsh Hst Ha. destruct (Hd _ _ Hc') as (c0 & Hc0 & E1 & E2 & _).
    destruct (so_kept _ Hs a c0) as [bs ?]; [done|congruence..|]. eauto.
  - intros p Hp. destruct (eo_live _ He p Hp) as (a & c0 & -> & Hc0 & Hl).
    destruct (Hu _ _ Hc0) as (c' & Hc' & E1 & E2 & _). exists a, c'. rewrite E1, E2. auto.
Qed.

Lemma run_undisturbed w f : thread_ok w → writes_own w f → undisturbed w (with_bytes f w).
Proof.
  intros [Hs He] Hf. destruct (running_live _ He) as [rc Hrc].
  destruct (so_mem _ Hs _ _ Hrc) as [rm Hrm].
  assert (Hk : ∀ a bs, a ≠ running w → kept w a bs → kept (with_bytes f w) a bs).
  { intros a bs Ha (c & sm & Hc & Hsh & ? & Hm & ? & ? & Hcase). exists c, sm. simpl.
    split_and!; try done; [lia..|]. destruct Hcase as [[Ho Hr]|Hcase]; [left|by right].
    split; [done|]. rewrite <-Hr. apply read_bytes_ext. intros x Hx. eapply Hf; [done..|].
    assert (stack_mem c ≠ stack_mem rc) as Hne.
    { intros Heq. destruct (cIsShareStack rc) eqn:Hrs.
      - rewrite Heq, Hrm in Hm. destruct (so_run _ Hs _ _ Hrc Hrs Hrm). congruence.
      - by apply (so_private _ Hs (running w) a rc c). }
    destruct (so_disj _ Hs _ _ _ _ Hm Hrm Hne); lia. }
  split; [|done| |]; [|intros; eexists; split; [done|by split]|intros; eexists; by eauto].
  split; [|split; apply He]. split; try apply Hs. simpl.
  intros a c Hc Hsh Hst Ha. destruct (so_kept _ Hs _ _ Hc Hsh Hst Ha) as [bs ?]. eauto.
Qed.


Lemma yield_stack w :
  env_ok w → 2 ≤ iCallStackSize (env w) →
  ∃ l next, call_stack w = l ++ [Some next; Some (running w)].
Proof.
  intros He Hsz. pose proof (call_stack_length _ He) as Hl. pose proof (eo_last _ He) as Hlast.
  apply last_Some in Hlast as [l' Hl']. rewrite Hl', length_app in Hl.
  destruct l' as [|y l _] using rev_ind; [simpl in Hl; lia|].
  destruct (eo_live _ He y) as (a & _ & -> & _); [rewrite Hl', !elem_of_app; set_solver|].
  exists l, a. by rewrite Hl', <-app_assoc.
Qed.

Lemma co_leave_undisturbed w w' ca :
  thread_ok w → co_leave ca w w' →
  undisturbed w w' ∧ running w' ≠ running w ∧ ∃ starts next e, moved starts w ca next e w'.
Proof.
  intros Hw [co Hca Hni Hsz Hr|Hca Hsz Hy].
  - assert (is_Some (cos w !! co)) as [c Hc].
    { unfold co_resume in Hr. destruct (call_stack_at _ _) as [[?|]|]; try done. simpl in Hr.
      by destruct (cos w !! co). }
    destruct (co_resume_spec _ _ _ _ Hw Hca Hc Hni Hsz) as (w1 & e & Heq & Hm & Hok & _).
    rewrite Hr in Heq. injection Heq as <-. split_and!; [by eapply undisturbed_moved| |by eauto].
    rewrite (mv_running _ _ _ _ _ _ Hm). intros ->. apply Hni.
    eapply list_elem_of_lookup_2, last_nth_error, Hw.
  - destruct (yield_stack w) as (l & next & Hcs); [apply Hw|done|].
    destruct (co_yield_spec _ _ _ _ Hw Hca Hcs) as (w1 & e & Heq & Hm & Hok & _).
    rewrite Hy in Heq. injection Heq as <-. split_and!; [by eapply undisturbed_moved| |by eauto].
    rewrite (mv_running _ _ _ _ _ _ Hm). intros ->.
    pose proof (eo_nodup _ (proj2 Hw)) as Hnd. rewrite Hcs in Hnd.
    apply NoDup_app in Hnd as (_ & _ & Hnd). apply NoDup_cons in Hnd as [Hnd _]. set_solver.
Qed.

Lemma GetCurrThreadCo_running w : env_ok w → GetCurrThreadCo w = Some (running w).
Proof. intros He. unfold GetCurrThreadCo, GetCurrCo. by rewrite (running_at _ He). Qed.

Lemma co_step_undisturbed w w' : thread_ok w → co_step w w' → undisturbed w w'.
Proof.
  intros Hw Hst. destruct (running_live _ (proj2 Hw)) as [c Hc].
  pose proof (GetCurrThreadCo_running _ (proj2 Hw)) as Hcur.
  destruct Hst as [f Hf|w' He|w' He|set key v r w' He|ca w' Hl].
  - by apply run_undisturbed.
  - unfold co_enable_hook_sys, upd_co in He. rewrite Hcur in He. simpl in He. rewrite Hc in He.
    injection He as <-. by apply own_undisturbed.
  - unfold co_disable_hook_sys, upd_co in He. rewrite Hcur in He. simpl in He. rewrite Hc in He.
    injection He as <-. by apply own_undisturbed.
  - unfold co_setspecific, upd_co in He. rewrite Hcur in He. simpl in He. rewrite Hc in He. simpl in He.
    destruct (cIsMain c).
    { destruct (set key v ()). injection He as <- <-. destruct w. by apply run_undisturbed. }
    case_guard; [|done]. injection He as <- <-. by apply own_undisturbed.
  - by apply (co_leave_undisturbed _ _ ca).
Qed.

Lemma steps_without_undisturbed X w w' :
  co_steps_without X w w' → thread_ok w → running w ≠ X →
  thread_ok w' ∧ running w' ≠ X ∧ (∀ bs, kept w X bs → kept w' X bs) ∧
  (∀ c0, cos w !! X = Some c0 →
    ∃ c, cos w' !! X = Some c ∧ same_own c0 c) ∧
  (∀ m sm, mems w !! m = Some sm → ∃ sm', mems w' !! m = Some sm' ∧ same_mem sm sm').
Proof.
  induction 1 as [w|w1 w2 w3 Hst HX Hsts IH]; intros Hw Hr.
  { split_and!; eauto; intros; eexists; by split_and!. }
  pose proof (co_step_undisturbed _ _ Hw Hst) as Hu.
  destruct IH as (H1 & H2 & H3 & H4 & H5); [apply Hu|done|].
  split_and!; [done|done|..].
  - intros bs Hk. apply H3, Hu; done.
  - intros c0 Hc0. destruct (ud_cos _ _ Hu X c0) as (c1 & Hc1 & Hown); [done..|].
    destruct (H4 _ Hc1) as (c & Hc & Hown'). exists c. split; [done|].
    unfold same_own in *. intuition congruence.
  - intros m sm Hm. destruct (ud_mems _ _ Hu _ _ Hm) as (sm1 & Hm1 & [E1 E2]).
    destruct (H5 _ _ Hm1) as (sm2 & Hm2 & [E3 E4]). exists sm2. split; [done|split; congruence].
Qed.


(** ** Creation *)

Lemma land_4095 n : Z.land n 0xFFF = n mod 4096.
Proof. apply (Z.land_ones n 12). lia. Qed.

Lemma land_lnot_4095 n : Z.land n (Z.lnot 0xFFF) = n - n mod 4096.
Proof.
  rewrite <-Z.ldiff_land. change 0xFFF with (Z.ones 12). rewrite Z.ldiff_ones_r by lia.
  rewrite Z.shiftr_div_pow2, Z.shiftl_mul_pow2 by lia. change (2 ^ 12) with 4096.
  pose proof (Z.div_mod n 4096). lia.
Qed.

Lemma round_stack_size_eq size :
  round_stack_size size =
    if decide (size ≤ 0) then 131072
    else if decide (8388608 < size) then 8388608
    else (size + 4095) / 4096 * 4096.
Proof.
  unfold round_stack_size. change (1024 * 1024 * 8) with 8388608.
  destruct (decide (size ≤ 0)); [done|]. destruct (decide (8388608 < size)); [done|].
  rewrite land_4095, land_lnot_4095.
  pose proof (Z.mod_pos_bound size 4096). pose proof (Z.div_mod size 4096).
  case_decide as Hm.
  - rewrite wraps_id by lia. 
    replace ((size + 4095) / 4096) with (size / 4096 + 1); [lia|].
    apply Z.div_unique with (size mod 4096 - 1); lia.
  - replace ((size + 4095) / 4096) with (size / 4096); [lia|].
    apply Z.div_unique with 4095; lia.
Qed.

Lemma round_stack_size_range size : 4096 ≤ round_stack_size size ≤ 8388608.
Proof.
  rewrite round_stack_size_eq. repeat case_decide; [lia..|].
  pose proof (Z.div_mod (size + 4095) 4096). pose proof (Z.mod_pos_bound (size + 4095) 4096). lia.
Qed.

Lemma co_get_stackmem_spec w share sh :
  shares_ok w → shares w !! share = Some sh →
  ∃ m, stack_array sh !! Z.to_nat (alloc_idx sh mod count sh) = Some m ∧
    co_get_stackmem share w = Some (m, with_shares (<[share := ShareStack (u32 (alloc_idx sh + 1))
      (share_stack_size sh) (count sh) (stack_array sh)]> (shares w)) w).
Proof.
  intros Hw Hsh. destruct (sh_count _ Hw _ _ Hsh) as (Hc & Hr & Ha).
  unfold co_get_stackmem. rewrite Hsh. simpl. rewrite option_guard_True by lia. simpl.
  rewrite wrapu_id by lia. pose proof (Z.mod_pos_bound (alloc_idx sh) (count sh)).
  rewrite wraps_id by lia. rewrite option_guard_True by lia. simpl.
  destruct (lookup_lt_is_Some_2 (stack_array sh) (Z.to_nat (alloc_idx sh mod count sh))) as [m Hm];
    [lia|]. rewrite Hm. simpl. eauto.
Qed.

Lemma created_kept attr fn a co mem buf w w' c x bs :
  cos w !! co = None → created attr fn a co mem buf w w' c → kept w x bs → kept w' x bs.
Proof.
  intros Hco Hcr (cx & sm & Hx & ? & ? & Hm & Hrest).
  destruct (cr_rest _ _ _ _ _ _ _ _ _ Hcr) as (Hb & _ & _).
  pose proof (cr_mems _ _ _ _ _ _ _ _ _ Hcr) as Hms.
  exists cx, sm. rewrite Hb, (cr_cos _ _ _ _ _ _ _ _ _ Hcr).
  rewrite lookup_insert_ne by congruence. auto 10.
Qed.

(** The stacks after a creation are the old ones and the new private one. *)
Lemma created_mems attr fn a co mem buf w w' c m sm :
  created attr fn a co mem buf w w' c → mems w' !! m = Some sm →
  mems w !! m = Some sm ∨
  m = mem ∧ occupy_co sm = NULL ∧ stack_buffer sm = buf ∧
    stack_bp sm = buf + round_stack_size (at_stack_size (default default_attr attr)) ∧
    cIsShareStack c = false.
Proof.
  intros Hcr Hm. destruct (cIsShareStack c) eqn:Hsh.
  - destruct (cr_shared _ _ _ _ _ _ _ _ _ Hcr Hsh) as [E _]. rewrite E in Hm. by left.
  - destruct (cr_own _ _ _ _ _ _ _ _ _ Hcr Hsh) as (_ & _ & Hss & E & _). rewrite E, Hss in Hm.
    apply lookup_insert_Some in Hm as [[<- <-]|[? ?]]; [right|by left]. auto.
Qed.

(** The new coroutine has a stack, which is no private stack of another. *)
Lemma created_stack attr fn a co mem buf w w' c ex :
  parked ex w → shares_ok w → mems w !! mem = None → created attr fn a co mem buf w w' c →
  is_Some (mems w' !! stack_mem c) ∧
  ∀ x cx, cos w !! x = Some cx → cIsShareStack cx = false ∨ cIsShareStack c = false →
    stack_mem cx ≠ stack_mem c.
Proof.
  intros Hw Hs Hmem Hcr. destruct (cIsShareStack c) eqn:Hsh.
  - destruct (cr_shared _ _ _ _ _ _ _ _ _ Hcr Hsh) as [E (s & sh & _ & Hsh' & Hl & _)].
    apply list_elem_of_lookup_2 in Hl. split.
    + rewrite E. by eapply sh_mem.
    + intros x cx Hx [Hp|?]; [|done]. by eapply sh_private.
  - destruct (cr_own _ _ _ _ _ _ _ _ _ Hcr Hsh) as (E1 & _ & _ & E2 & _). split.
    + rewrite E2, E1, lookup_insert_eq. eauto.
    + intros x cx Hx _ Heq. destruct (pk_mem _ _ Hw _ _ Hx). congruence.
Qed.

Lemma created_shares attr fn a co mem buf w w' c s sh :
  created attr fn a co mem buf w w' c → shares w' !! s = Some sh →
  ∃ sh0, shares w !! s = Some sh0 ∧ stack_array sh = stack_array sh0 ∧ count sh = count sh0 ∧
    (alloc_idx sh = alloc_idx sh0 ∨ alloc_idx sh = u32 (alloc_idx sh0 + 1)).
Proof.
  intros Hcr. revert s sh. destruct (cIsShareStack c) eqn:Hsh.
  - destruct (cr_shared _ _ _ _ _ _ _ _ _ Hcr Hsh) as (_ & s & sh & _ & Hl & _ & ->).
    intros s' sh' [[<- <-]|[? ?]]%lookup_insert_Some; eauto 10.
  - destruct (cr_own _ _ _ _ _ _ _ _ _ Hcr Hsh) as (_ & _ & _ & _ & ->). eauto 10.
Qed.

Lemma created_parked attr fn a co mem buf w w' c ex :
  parked ex w → shares_ok w → cos w !! co = None →
  fresh_stack w mem buf (round_stack_size (at_stack_size (default default_attr attr))) →
  created attr fn a co mem buf w w' c → parked ex w'.
Proof.
  intros Hw Hs Hco [Hmem Hfr] Hcr. pose proof (cr_cos _ _ _ _ _ _ _ _ _ Hcr) as Hcos.
  destruct (cr_new _ _ _ _ _ _ _ _ _ Hcr) as (_ & _ & Hst & _).
  assert (Hrange := round_stack_size_range (at_stack_size (default default_attr attr))).
  assert (Hold := λ m sm, created_mems attr fn a co mem buf w w' c m sm Hcr).
  pose proof (cr_mems _ _ _ _ _ _ _ _ _ Hcr) as Hms.
  set (size := round_stack_size _) in *.
  destruct (created_stack attr fn a co mem buf w w' c ex) as [Hmemc Hdiff]; [done..|]. split.
  - intros m sm [Hm|(-> & _ & -> & -> & _)]%Hold; [by apply (pk_region _ _ Hw _ _ Hm)|lia].
  - intros m1 m2 s1 s2 [H1|(-> & _ & -> & -> & _)]%Hold [H2|(-> & _ & -> & -> & _)]%Hold Hne; [..|done].
    + by eapply (pk_disj _ _ Hw).
    + destruct (Hfr _ _ H1); auto.
    + by apply Hfr in H2.
  - rewrite Hcos. intros x cx [[<- <-]|[? Hx]]%lookup_insert_Some; [done|].
    destruct (pk_mem _ _ Hw _ _ Hx) as [sm ?]. eauto.
  - rewrite Hcos. intros x y cx cy [[<- <-]|[? Hx]]%lookup_insert_Some
      [[<- <-]|[? Hy]]%lookup_insert_Some Hne Hp; [done|..].
    + intros Heq. by eapply Hdiff; [exact Hy|right|].
    + eapply Hdiff; eauto.
    + by eapply (pk_private _ _ Hw).
  - intros m sm o [Hm|(_ & Hn & _)]%Hold Ho; [|congruence].
    destruct (pk_occ _ _ Hw _ _ _ Hm Ho) as (cx & Hx & ?). exists cx.
    rewrite Hcos, lookup_insert_ne by congruence. done.
  - rewrite Hcos. intros x cx [[<- <-]|[? Hx]]%lookup_insert_Some Hsh Hs' Hne; [congruence|].
    destruct (pk_kept _ _ Hw _ _ Hx Hsh Hs' Hne) as [bs ?]. exists bs. by eapply created_kept.
Qed.

Lemma created_shares_ok attr fn a co mem buf w w' c :
  shares_ok w → mems w !! mem = None → created attr fn a co mem buf w w' c → shares_ok w'.
Proof.
  intros Hs Hmem Hcr. pose proof (cr_mems _ _ _ _ _ _ _ _ _ Hcr) as Hms.
  assert (Hshr := λ s sh, created_shares attr fn a co mem buf w w' c s sh Hcr). split.
  - intros s sh m (sh0 & H0 & E & _)%Hshr Hm. rewrite E in Hm.
    destruct (sh_mem _ Hs _ _ _ H0 Hm) as [sm ?]. eauto.
  - rewrite (cr_cos _ _ _ _ _ _ _ _ _ Hcr).
    intros s sh m x cx (sh0 & H0 & E & _)%Hshr Hm [[<- <-]|[? Hx]]%lookup_insert_Some Hp;
      rewrite E in Hm; [|by eapply sh_private].
    destruct (cr_own _ _ _ _ _ _ _ _ _ Hcr Hp) as (-> & _). intros ->.
    destruct (sh_mem _ Hs _ _ _ H0 Hm). congruence.
  - intros s sh (sh0 & H0 & E1 & E2 & E3)%Hshr. rewrite E1, E2.
    destruct (sh_count _ Hs _ _ H0) as (? & ? & Hidx). split; [done|]. split; [done|].
    destruct E3 as [->| ->]; [done|]. apply wrapu_range. lia.
Qed.

Lemma created_ok attr fn a co mem buf w w' c ex :
  parked ex w → shares_ok w → cos w !! co = None →
  fresh_stack w mem buf (round_stack_size (at_stack_size (default default_attr attr))) →
  created attr fn a co mem buf w w' c → parked ex w' ∧ shares_ok w' ∧
  (∀ x bs, kept w x bs → kept w' x bs).
Proof.
  intros Hw Hs Hco Hf Hcr. split; [by eapply created_parked|]. split.
  - eapply created_shares_ok; [done|apply Hf|done].
  - intros x bs. by eapply created_kept.
Qed.

Lemma co_create_env_spec attr fn a co mem buf w :
  shares_ok w → cos w !! co = None → attr_ok w attr →
  fresh_stack w mem buf (round_stack_size (at_stack_size (default default_attr attr))) →
  ∃ w' c, co_create_env attr fn a co mem buf w = Some w' ∧ created attr fn a co mem buf w w' c.
Proof.
  intros Hs Hco Hattr [Hmem Hfr]. unfold co_create_env, attr_ok in *.
  set (at' := default default_attr attr) in *.
  rewrite option_guard_True by done. simpl.
  destruct (at_share_stack at') as [s|] eqn:Hat.
  - destruct Hattr as [sh Hsh]. destruct (co_get_stackmem_spec _ _ _ Hs Hsh) as (m & Hm & ->).
    simpl. rewrite lookup_insert_eq. simpl.
    destruct (sh_mem _ Hs _ _ m Hsh) as [sm Hsm]; [by eapply list_elem_of_lookup_2|].
    rewrite Hsm. simpl. do 2 eexists. split; [done|].
    split; simpl; fold at'; rewrite ?Hat; try done.

    intros _. split; [done|]. exists s, sh. split_and!; done.
  - unfold co_alloc_stackmem. rewrite option_guard_True by done. simpl.
    rewrite lookup_insert_eq. simpl. do 2 eexists. split; [done|].
    split; simpl; fold at'; rewrite ?Hat; try done.
    intros m sm Hm. rewrite lookup_insert_ne by congruence. done.

Qed.

Lemma stacks_parked w : stacks_ok w → parked (Some (running w)) w.
Proof.
  intros Hs. split; try apply Hs. intros a c Hc Hsh Hst Hne.
  apply (so_kept _ Hs a c); congruence.
Qed.

Lemma co_init_spec self mem buf w :
  parked NULL w → shares_ok w → cos w = ∅ → fresh_stack w mem buf 131072 →
  ∃ w', co_init_curr_thread_env self mem buf w = Some w' ∧ thread_ok w' ∧ shares_ok w' ∧
    call_stack w' = [Some self] ∧ (∃ c, cos w' = {[self := c]} ∧ cIsMain c = true) ∧
    mems w' = <[mem := StackMem NULL 131072 (buf + 131072) buf]> (mems w) ∧ shares w' = shares w.
Proof.
  intros Hp Hs Hcos Hfr. unfold co_init_curr_thread_env.
  set (w0 := with_env (CoEnv (replicate 128 NULL) 0 NULL NULL) w).
  assert (Hp0 : parked NULL w0) by (split; apply Hp).
  assert (Hs0 : shares_ok w0) by (split; apply Hs).
  assert (Hc0 : cos w0 !! self = None) by (simpl; by rewrite Hcos).
  destruct (co_create_env_spec None NULL 0 self mem buf w0 Hs0 Hc0) as (w1 & c & -> & Hcr); [done..|].
  simpl. destruct (created_ok None NULL 0 self mem buf w0 w1 c NULL Hp0 Hs0 Hc0 Hfr Hcr)
    as (Hp1 & Hs1 & _).
  pose proof (cr_cos _ _ _ _ _ _ _ _ _ Hcr) as Hcos1. simpl in Hcos1.
  rewrite Hcos, insert_empty in Hcos1.
  destruct (cr_new _ _ _ _ _ _ _ _ _ Hcr) as (_ & _ & Hst & _ & _ & _ & _ & _ & _ & Hsh).
  destruct (cr_rest _ _ _ _ _ _ _ _ _ Hcr) as (_ & He & _).
  destruct (cIsShareStack c) eqn:Hc; [by destruct (proj1 Hsh eq_refl)|].
  destruct (cr_own _ _ _ _ _ _ _ _ _ Hcr Hc) as (Hm & _ & Hsz & Hms & Hshr).
  unfold upd_co. rewrite Hcos1, lookup_singleton_eq. simpl. rewrite He. simpl.
  assert (Hone : ∀ x y, ({[self := c]} : gmap Z stCoRoutine_t) !! x = Some y → x = self ∧ y = c).
  { by intros x y [<- <-]%lookup_singleton_Some. }
  rewrite insert_singleton_eq.
  eexists. split; [done|]. split_and!; simpl; try done.
  - split; split; simpl; try done; try apply Hp1; try apply NoDup_singleton.
    + intros x y [<- <-]%lookup_singleton_Some. simpl. rewrite Hm, Hms, lookup_insert_eq. eauto.
    + intros x y cx cy [<- <-]%lookup_singleton_Some [<- <-]%lookup_singleton_Some. done.
    + intros m sm o Hm1 Ho. destruct (pk_occ _ _ Hp1 _ _ _ Hm1 Ho) as (c1 & Hc1 & _ & ? & ?).
      rewrite Hcos1 in Hc1. apply Hone in Hc1 as [-> ->]. congruence.
    + intros c1 sm [_ <-]%lookup_singleton_Some. simpl. congruence.
    + intros x y [<- <-]%lookup_singleton_Some. done.
    + intros p ->%list_elem_of_singleton. eexists _, _. split; [done|].
      rewrite lookup_singleton_eq. split; [done|]. simpl. congruence.
  - split; simpl; try apply Hs1. intros s sh m x y H1 H2 [<- <-]%lookup_singleton_Some Hn. simpl.
    apply (sh_private _ Hs1 _ _ _ self c H1 H2); [by rewrite Hcos1, lookup_singleton_eq|done].
  - eexists. split; [done|]. done.
  - by rewrite Hms, Hsz.
Qed.

Lemma kept_running w bs :
  thread_ok w → kept w (running w) bs →
  ∃ c sm, cos w !! running w = Some c ∧ mems w !! stack_mem c = Some sm ∧
    Z.of_nat (length bs) = stack_bp sm - stack_sp c ∧
    read_bytes (bytes w) (stack_sp c) (stack_bp sm - stack_sp c) = bs.
Proof.
  intros [Hs He] (c & sm & Hc & Hsh & _ & Hm & _ & Hl & Hcase). exists c, sm. split_and!; try done.
  destruct (so_run _ Hs _ _ Hc Hsh Hm) as [_ Ho].
  destruct Hcase as [[_ ?]|(o & ? & ? & _)]; [done|congruence].
Qed.

Lemma thread_ok_created attr fn a co mem buf w w' c :
  thread_ok w → shares_ok w → cos w !! co = None →
  fresh_stack w mem buf (round_stack_size (at_stack_size (default default_attr attr))) →
  created attr fn a co mem buf w w' c → thread_ok w' ∧ shares_ok w' ∧
  (∀ x bs, kept w x bs → kept w' x bs).
Proof.
  intros [Hst He] Hs Hco Hfr Hcr.
  destruct (created_ok _ _ _ _ _ _ _ _ _ _ (stacks_parked _ Hst) Hs Hco Hfr Hcr) as (Hp & Hs' & Hk).
  pose proof (cr_cos _ _ _ _ _ _ _ _ _ Hcr) as Hcos.
  destruct (cr_rest _ _ _ _ _ _ _ _ _ Hcr) as (Hb & Henv & Hr).
  destruct (running_live _ He) as [rc Hrc].
  assert (Hne : co ≠ running w) by congruence.
  assert (Hcs : call_stack w' = call_stack w) by (unfold call_stack; by rewrite Henv).
  split_and!; [|done..]. split.
  - split; try apply Hp.
    + rewrite Hr, Hcos, lookup_insert_ne, Hrc by done. intros c0 sm [= <-] Hsh Hm.
      destruct (so_mem _ Hst _ _ Hrc) as [sm0 Hm0].
      pose proof (cr_mems _ _ _ _ _ _ _ _ _ Hcr _ _ Hm0). simplify_eq.
      by apply (so_run _ Hst rc).
    + intros x cx Hx Hsh Hs0 Hne0. apply (pk_kept _ _ Hp x cx Hx Hsh Hs0). congruence.
  - split; rewrite ?Hcs, ?Hr, ?Henv; try apply He.
    intros p Hp0. destruct (eo_live _ He p Hp0) as (x & cx & -> & Hx & Hl).
    exists x, cx. rewrite Hcos, lookup_insert_ne by congruence. done.
Qed.

Lemma round_stack_size_page size : round_stack_size size mod 4096 = 0.
Proof. rewrite round_stack_size_eq. repeat case_decide; [done..|by apply Z.mod_mul]. Qed.

Lemma round_stack_size_fits size :
  0 < size ≤ 8388608 → size ≤ round_stack_size size < size + 4096.
Proof.
  intros ?. rewrite round_stack_size_eq. repeat case_decide; try lia.
  pose proof (Z.div_mod (size + 4095) 4096). pose proof (Z.mod_pos_bound (size + 4095) 4096). lia.
Qed.

(** ** The example *)

Lemma local_addr_b_ok w ca : local_addr_b w ca = true → local_addr w ca.
Proof.
  unfold local_addr_b. intros H c sm Hc Hsh Hm. rewrite Hc, Hsh, Hm in H. simpl in H.
  apply andb_true_iff in H as [?%Z.leb_le ?%Z.leb_le]. lia.
Qed.

Lemma in_own_stack_ok w a bs :
  in_own_stack w a (Z.of_nat (length bs)) = true → writes_own w (write_bytes (bytes w) a bs).
Proof.
  unfold in_own_stack. intros H c sm x Hc Hm Hx. rewrite Hc, Hm in H.
  apply andb_true_iff in H as [?%Z.leb_le ?%Z.leb_le]. apply write_bytes_out. lia.
Qed.

Lemma demo_empty_ok : parked NULL demo_empty ∧ shares_ok demo_empty ∧ fresh_stack demo_empty 11 100000 131072.
Proof.
  assert (H : ∀ m sm, mems demo_empty !! m = Some sm → m = 10 ∧ sm = StackMem NULL 4096 9096 5000).
  { unfold demo_empty. simpl. by intros m sm [<- <-]%lookup_singleton_Some. }
  assert (H' : ∀ s sh, shares demo_empty !! s = Some sh → sh = ShareStack 0 4096 1 [10]).
  { unfold demo_empty. simpl. by intros s sh [<- <-]%lookup_singleton_Some. }
  split_and!; split; try done.
  - by intros m sm [-> ->]%H.
  - by intros m1 m2 s1 s2 [-> ->]%H [-> ->]%H ?.
  - by intros m sm o [-> ->]%H ?.
  - intros s sh m ->%H' ->%list_elem_of_singleton. eexists. reflexivity.
  - by intros s sh ->%H'.
  - intros m sm [-> ->]%H. by right.
Qed.

Lemma demo_main_ok : thread_ok demo_main ∧ shares_ok demo_main ∧ call_stack demo_main = [Some 1] ∧
  mems demo_main = <[11 := StackMem NULL 131072 231072 100000]> (mems demo_empty).
Proof.
  destruct demo_empty_ok as (H1 & H2 & H3).
  destruct (co_init_spec 1 11 100000 demo_empty H1 H2 eq_refl H3) as (w & Heq & ? & ? & ? & _ & ? & _).
  assert (w = demo_main) as <- by (unfold demo_main; by rewrite Heq). auto.
Qed.

Lemma demo_fresh w mem buf :
  mems w = mems demo_main → buf = 500000 ∨ buf = 600000 → mem = 12 ∨ mem = 13 →
  fresh_stack w mem buf 4096.
Proof.
  intros Hm Hb Hme. destruct demo_main_ok as (_ & _ & _ & E). rewrite E in Hm. unfold demo_empty in Hm. simpl in Hm.
  split; rewrite Hm.
  - by destruct Hme as [->| ->].
  - intros m sm [[<- <-]|[_ [<- <-]%lookup_singleton_Some]]%lookup_insert_Some; simpl; lia.
Qed.

Lemma demo_create_ok w co mem buf w' :
  thread_ok w → shares_ok w → cos w !! co = None → is_Some (shares w !! 20) →
  fresh_stack w mem buf 4096 → co_create_env demo_attr NULL 0 co mem buf w = Some w' →
  thread_ok w' ∧ shares_ok w' ∧ mems w' = mems w.
Proof.
  intros Hok Hs Hco Hsh Hfr Heq.
  destruct (co_create_env_spec demo_attr NULL 0 co mem buf w Hs Hco Hsh Hfr) as (w1 & c & Heq1 & Hcr).
  assert (w1 = w') as -> by congruence.
  destruct (thread_ok_created demo_attr NULL 0 co mem buf w w' c Hok Hs Hco Hfr Hcr) as (? & ? & _).
  destruct (cr_new _ _ _ _ _ _ _ _ _ Hcr) as (_ & _ & _ & _ & _ & _ & _ & _ & _ & Hi).
  destruct (cr_shared _ _ _ _ _ _ _ _ _ Hcr) as [? _]; [by apply Hi; eexists|done].
Qed.

Lemma demo_three_ok : thread_ok demo_three ∧ shares_ok demo_three.
Proof.
  destruct demo_main_ok as (H1 & H2 & _).
  destruct (demo_create_ok demo_main 2 12 500000 demo_two H1 H2) as (H3 & H4 & E); try reflexivity.
  { eexists. reflexivity. }
  { apply demo_fresh; auto. }
  destruct (demo_create_ok demo_two 3 13 600000 demo_three H3 H4) as (H5 & H6 & _); try reflexivity.
  { eexists. reflexivity. }
  { apply demo_fresh; auto. }
  done.
Qed.

Ltac demo_resumes co :=
  apply (leave_resume _ _ _ co); [apply local_addr_b_ok; evaluates|decides|decides|succeeds].
Ltac demo_yields := apply leave_yield; [apply local_addr_b_ok; evaluates|decides|succeeds].
Ltac demo_writes := apply step_run, in_own_stack_ok; evaluates.

Lemma demo_steps :
  co_leave 100100 demo_three demo_start ∧ co_step demo_start demo_wrote ∧
  co_leave 9000 demo_wrote demo_yield ∧ co_leave 100100 demo_yield demo_start3 ∧
  co_step demo_start3 demo_wrote3 ∧ co_leave 8990 demo_wrote3 demo_yield3 ∧
  co_leave 100100 demo_yield3 demo_back.
Proof.
  split_and!.
  - demo_resumes 2.
  - demo_writes.
  - demo_yields.
  - demo_resumes 3.
  - demo_writes.
  - demo_yields.
  - demo_resumes 2.
Qed.

Lemma demo_ok : thread_ok demo_start ∧ thread_ok demo_wrote ∧ thread_ok demo_yield ∧ thread_ok demo_start3.
Proof.
  destruct demo_steps as (H1 & H2 & H3 & H4 & _). destruct demo_three_ok as [H _].
  pose proof (ud_ok _ _ (proj1 (co_leave_undisturbed _ _ _ H H1))) as K1.
  pose proof (ud_ok _ _ (co_step_undisturbed _ _ K1 H2)) as K2.
  pose proof (ud_ok _ _ (proj1 (co_leave_undisturbed _ _ _ K2 H3))) as K3.
  pose proof (ud_ok _ _ (proj1 (co_leave_undisturbed _ _ _ K3 H4))) as K4. auto.
Qed.

(** C7. The stack of a coroutine that shares it survives a suspension: when
    the coroutine leaves the processor at [ca], others run, resume and yield
    and it runs again, its stack pointer is [ca] and the memory from there to
    the bottom of the stack holds what it held, however often the stack was
    taken and copied out in between. *)
Theorem shared_stack_restored (w0 w1 w2 w3 : world) (ca : addr) (c : stCoRoutine_t)
    (sm : stStackMem_t) :
  thread_ok w0 → cos w0 !! running w0 = Some c → cIsShareStack c = true →
  mems w0 !! stack_mem c = Some sm →
  co_leave ca w0 w1 → co_steps_without (running w0) w1 w2 →
  co_step w2 w3 → running w3 = running w0 →
  ∃ c', cos w3 !! running w0 = Some c' ∧ stack_sp c' = ca ∧
    read_bytes (bytes w3) ca (stack_bp sm - ca) = read_bytes (bytes w0) ca (stack_bp sm - ca).
Proof.
  intros Hok Hc Hsh Hm Hl Hsts Hst Hr.
  destruct (co_leave_undisturbed _ _ _ Hok Hl) as (Hu1 & Hne & starts & next & e & Hmv).
  destruct (steps_without_undisturbed _ _ _ Hsts (ud_ok _ _ Hu1) Hne) as (Hok2 & Hne2 & Hk2 & Hc2 & Hm2).
  pose proof (co_step_undisturbed _ _ Hok2 Hst) as Hu3.
  pose proof (mv_own _ _ _ _ _ _ Hmv _ Hc Hsh) as Hk.
  apply Hk2, (ud_kept _ _ Hu3) in Hk; [|congruence].
  destruct (mv_cos _ _ _ _ _ _ Hmv _ _ Hc) as (c1 & Hc1 & Hs1). rewrite decide_True in Hs1 by done.
  destruct (Hc2 _ Hc1) as (c2 & Hcc2 & Hs2).
  destruct (ud_cos _ _ Hu3 _ _ (not_eq_sym Hne2) Hcc2) as (c3 & Hc3 & Hs3).
  destruct (mv_mems _ _ _ _ _ _ Hmv _ _ Hm) as (sm1 & Hsm1 & [Hb1 _]).
  destruct (Hm2 _ _ Hsm1) as (sm2 & Hsm2 & [Hb2 _]).
  destruct (ud_mems _ _ Hu3 _ _ Hsm2) as (sm3 & Hsm3 & [Hb3 _]).
  rewrite <-Hr in Hk. destruct (kept_running _ _ (ud_ok _ _ Hu3) Hk) as (c' & sm' & Hc' & Hm' & _ & Hread).
  rewrite Hr in Hc'. assert (c' = c3) as -> by congruence.
  unfold same_co, same_own in *. simpl in Hs1.
  destruct Hs1 as (_ & _ & Hmem1 & _ & _ & _ & _ & _ & _ & Hsp1).
  destruct Hs2 as (Hsp2 & Hmem2 & _), Hs3 as (Hsp3 & Hmem3 & _).
  assert (stack_mem c3 = stack_mem c) as Hmem by congruence.
  assert (stack_sp c3 = ca) as Hsp by congruence.
  rewrite Hmem, Hsm3 in Hm'. injection Hm' as <-.
  exists c3. split_and!; [done|done|].
  assert (stack_bp sm3 = stack_bp sm) as Hbp by congruence.
  rewrite Hbp, Hsp in Hread. rewrite Hread. unfold own_stack. by rewrite Hc, Hm.
Qed.

(** Resuming is a call and yielding the return: [co_resume] of an inactive
    coroutine by a running one succeeds, pushes it on the call stack and runs
    it, and when it yields, the resumer runs again with the call stack it had,
    whatever the coroutine wrote on its stack. *)
Theorem resume_then_yield (w : world) (co ca cb : addr) (c : stCoRoutine_t) (f : Z → Z) :
  thread_ok w → cos w !! co = Some c → Some co ∉ call_stack w → iCallStackSize (env w) < 128 →
  local_addr w ca →
  ∃ w1, co_resume co ca w = Some w1 ∧ thread_ok w1 ∧ running w1 = co ∧
    call_stack w1 = call_stack w ++ [Some co] ∧ GetCurrThreadCo w1 = Some co ∧
    (local_addr w1 cb → writes_own w1 f →
     ∃ w2, co_yield_env cb (with_bytes f w1) = Some w2 ∧ thread_ok w2 ∧
       running w2 = running w ∧ call_stack w2 = call_stack w).
Proof.
  intros Hok Hc Hni Hsz Hca.
  destruct (co_resume_spec _ _ _ _ Hok Hca Hc Hni Hsz) as (w1 & e & Heq & Hm & Hok1 & Hcs).
  pose proof (mv_running _ _ _ _ _ _ Hm) as Hr.
  exists w1. split_and!; try done.
  { rewrite <-Hr. by apply GetCurrThreadCo_running, Hok1. }
  intros Hcb Hf. pose proof (eo_last _ (proj2 Hok)) as Hlast.
  apply last_Some in Hlast as [l Hl].
  destruct (co_yield_spec (with_bytes f w1) cb l (running w)) as (w2 & e2 & Heq2 & Hm2 & Hok2 & Hcs2).
  - by apply (ud_ok w1), run_undisturbed.
  - done.
  - change (call_stack w1 = l ++ [Some (running w); Some (running w1)]).
    rewrite Hcs, Hl, Hr, <-app_assoc. done.
  - exists w2. split_and!; [done|done|apply Hm2|]. by rewrite Hcs2, Hl.
Qed.

(** C9. The two operations fail exactly at the limits of the call stack: a
    coroutine that is not active cannot be resumed when 128 are active, and
    only the bottom coroutine cannot yield.  (The code does not check either
    limit: it writes after the array, or reads before it.) *)
Theorem switch_fails_iff (w : world) (co ca : addr) (c : stCoRoutine_t) :
  thread_ok w → cos w !! co = Some c → Some co ∉ call_stack w → local_addr w ca →
  (co_resume co ca w = None ↔ iCallStackSize (env w) = 128) ∧
  (co_yield_env ca w = None ↔ call_stack w = [Some (running w)]).
Proof.
  intros Hok Hc Hni Hca. pose proof (eo_size _ (proj2 Hok)) as Hsz.
  pose proof (call_stack_length _ (proj2 Hok)) as Hl. split; split.
  - intros Hr. destruct (decide (iCallStackSize (env w) = 128)) as [|Hne]; [done|].
    destruct (co_resume_spec _ _ _ _ Hok Hca Hc Hni) as (w1 & e & Heq & _); [lia|congruence].
  - intros Hfull. unfold co_resume. rewrite (running_at _ (proj2 Hok)). simpl. rewrite Hc. simpl.
    unfold upd_co. rewrite Hc. simpl.
    assert (∀ e : stCoRoutineEnv_t, set_call_stack 128 (Some co) e = None) as Hn.
    { intros e. unfold set_call_stack. by rewrite option_guard_False by lia. }
    destruct (cStart c); simpl; by rewrite Hfull, Hn.
  - intros Hy. pose proof (eo_last _ (proj2 Hok)) as Hlast. apply last_Some in Hlast as [l Hcs].
    destruct (decide (iCallStackSize (env w) < 2)) as [Hlt|Hge].
    { rewrite Hcs, length_app in Hl. simpl in Hl. by destruct l; [|simpl in Hl; lia]. }
    destruct (yield_stack w) as (l' & next & Hcs'); [apply Hok|lia|].
    destruct (co_yield_spec _ _ _ _ Hok Hca Hcs') as (w1 & e & Heq & _). congruence.
  - intros Hcs. rewrite Hcs in Hl. unfold co_yield_env, call_stack_at. simpl in Hl.
    by rewrite (option_guard_False (0 ≤ iCallStackSize (env w) - 2 < 128)) by lia.
Qed.

(** A coroutine's values are its own: what a coroutine other than the
    main one stores under a key it reads back when it runs again, whatever the
    others stored meanwhile, and its hook flag is as it left it. *)
Theorem specific_values_kept (w0 w1 w2 w3 w4 : world) (ca : addr) (c : stCoRoutine_t)
    (set : Z → Z → unit → Z * unit) (get : Z → unit → Z) (key value : Z) :
  thread_ok w0 → cos w0 !! running w0 = Some c → cIsMain c = false → 0 ≤ key < 1024 →
  co_setspecific set key value w0 () = Some (0, w1, ()) →
  co_leave ca w1 w2 → co_steps_without (running w0) w2 w3 →
  co_step w3 w4 → running w4 = running w0 →
  co_getspecific get key w4 () = Some value ∧
  co_is_enable_sys_hook w4 = Some (cEnableSysHook c).
Proof.
  intros Hok Hc Hmain Hkey Hset Hl Hsts Hst Hr.
  assert (Hu0 : undisturbed w0 w1) by (eapply co_step_undisturbed, step_specific; done).
  unfold co_setspecific, upd_co in Hset. rewrite (GetCurrThreadCo_running _ (proj2 Hok)) in Hset.
  simpl in Hset. rewrite Hc in Hset. simpl in Hset.
  rewrite Hmain, option_guard_True in Hset by done. simpl in Hset. injection Hset as <-.
  set (c1 := set_aSpec (<[key:=value]> (aSpec c)) c) in *. set (w1 := with_cos _ w0) in *.
  assert (Hc1 : cos w1 !! running w0 = Some c1) by apply lookup_insert_eq.
  destruct (co_leave_undisturbed _ _ _ (ud_ok _ _ Hu0) Hl) as (Hu1 & Hne & starts & next & e & Hmv).
  destruct (steps_without_undisturbed _ _ _ Hsts (ud_ok _ _ Hu1) Hne) as (Hok2 & Hne2 & _ & Hc2 & _).
  pose proof (co_step_undisturbed _ _ Hok2 Hst) as Hu3.
  destruct (mv_cos _ _ _ _ _ _ Hmv _ _ Hc1) as (c2 & Hcc1 & Hs1). rewrite decide_True in Hs1 by done.
  destruct (Hc2 _ Hcc1) as (c3 & Hcc2 & Hs2).
  destruct (ud_cos _ _ Hu3 _ _ (not_eq_sym Hne2) Hcc2) as (c4 & Hc4 & Hs3).
  destruct Hs1 as (_ & _ & _ & _ & _ & _ & Hmn1 & Hhk1 & Hsp1 & _).
  destruct Hs2 as (_ & _ & Hmn2 & Hhk2 & Hsp2), Hs3 as (_ & _ & Hmn3 & Hhk3 & Hsp3).
  unfold co_getspecific, co_is_enable_sys_hook.
  rewrite (GetCurrThreadCo_running _ (proj2 (ud_ok _ _ Hu3))), Hr. simpl. rewrite Hc4. simpl.
  rewrite Hmn3, Hmn2, Hmn1, Hhk3, Hhk2, Hhk1, Hsp3, Hsp2, Hsp1. simpl.
  rewrite Hmain, option_guard_True by done. simpl. by rewrite lookup_insert_eq.
Qed.

(** A thread starts well formed: initialising the environment of a thread
    that has no coroutine yet, with shared stacks or without, gives a
    well-formed thread whose call stack is the main coroutine alone. *)
Theorem thread_starts_ok (self mem buf : addr) (w : world) :
  parked NULL w → shares_ok w → cos w = ∅ → fresh_stack w mem buf 131072 →
  ∃ w', co_init_curr_thread_env self mem buf w = Some w' ∧ thread_ok w' ∧ shares_ok w' ∧
    call_stack w' = [Some self] ∧ GetCurrThreadCo w' = Some self.
Proof.
  intros Hp Hs Hcos Hfr.
  destruct (co_init_spec self mem buf w Hp Hs Hcos Hfr) as (w' & Heq & Hok & Hs' & Hcs & _).
  exists w'. split_and!; try done. rewrite GetCurrThreadCo_running by apply Hok.
  pose proof (eo_last _ (proj2 Hok)) as Hl. rewrite Hcs in Hl. by injection Hl as <-.
Qed.

(** Creating a coroutine succeeds and keeps the thread well formed; the
    coroutine is not started, runs on the next stack of the shared stack in
    turn or on a stack of its own, of the requested size rounded up to a page
    between 4 kB and 8 MB, and the stacks of the suspended coroutines are
    intact. *)
Theorem co_create_env_correct (attr : option stCoRoutineAttr_t) (fn : ptr) (a : Z)
    (co mem buf : addr) (w : world) :
  let size := at_stack_size (default default_attr attr) in
  thread_ok w → shares_ok w → cos w !! co = None → attr_ok w attr →
  fresh_stack w mem buf (round_stack_size size) →
  ∃ w' c, co_create_env attr fn a co mem buf w = Some w' ∧
    created attr fn a co mem buf w w' c ∧ thread_ok w' ∧ shares_ok w' ∧
    (∀ x bs, kept w x bs → kept w' x bs) ∧
    round_stack_size size mod 4096 = 0 ∧ 4096 ≤ round_stack_size size ≤ 8388608 ∧
    (0 < size ≤ 8388608 → size ≤ round_stack_size size < size + 4096).
Proof.
  intros size Hok Hs Hco Hattr Hfr.
  destruct (co_create_env_spec attr fn a co mem buf w Hs Hco Hattr Hfr) as (w' & c & Heq & Hcr).
  destruct (thread_ok_created _ _ _ _ _ _ _ _ _ Hok Hs Hco Hfr Hcr) as (Hok' & Hs' & Hk).
  exists w', c. split_and!; try done; try apply round_stack_size_range.
  - apply round_stack_size_page.
  - by apply round_stack_size_fits.
Qed.

(** [co_free] of a coroutine that occupies a shared stack leaves the
    stack pointing at it: the next resume of another coroutine of that stack
    reads the freed coroutine. *)
Theorem free_then_resume_fails (w w' : world) (x y ca : addr) (cx cy : stCoRoutine_t)
    (sm : stStackMem_t) :
  thread_ok w → cos w !! x = Some cx → cIsShareStack cx = true →
  mems w !! stack_mem cx = Some sm → occupy_co sm = Some x → Some x ∉ call_stack w →
  cos w !! y = Some cy → cIsShareStack cy = true → stack_mem cy = stack_mem cx → y ≠ x →
  running w ≠ y → co_free x w = Some w' → co_resume y ca w' = None.
Proof.
  intros Hok Hx Hxs Hm Ho Hni Hy Hys Hmem Hyx Hry Hf.
  unfold co_free in Hf. rewrite Hx in Hf. simpl in Hf. rewrite Hxs in Hf. injection Hf as <-.
  destruct (running_live _ (proj2 Hok)) as [rc Hrc].
  assert (Hrx : running w ≠ x).
  { intros <-. apply Hni. eapply list_elem_of_lookup_2, last_nth_error, Hok. }
  unfold co_resume. simpl. rewrite (running_at _ (proj2 Hok)). simpl.
  rewrite lookup_delete_ne, Hy by done. simpl.
  set (cy' := if cStart cy then cy else set_cStart true cy).
  assert (∀ e, co_swap (negb (cStart cy)) (running w) y ca (with_env e
    (with_cos (<[y := cy']> (delete x (cos w))) w)) = None) as Hn.
  { intros e. unfold co_swap, co_swap_out, upd_co. simpl.
    rewrite lookup_insert_ne, lookup_delete_ne, Hrc by done. simpl.
    unfold co_take_stack. simpl. rewrite (lookup_insert_ne _ (running w)), lookup_insert_eq by done. simpl.
    assert (cIsShareStack cy' = true ∧ stack_mem cy' = stack_mem cx) as [E1 E2]
      by (unfold cy'; by destruct (cStart cy)).
    rewrite E1, E2, Hm. simpl. rewrite Ho, decide_False by done.
    unfold save_stack_buffer. simpl.
    by rewrite !lookup_insert_ne, lookup_delete_eq by done. }
  unfold upd_co. simpl. rewrite lookup_delete_ne, Hy by done. simpl.
  destruct (cStart cy) eqn:Hst; simpl.
  - destruct (set_call_stack _ _ _) as [e|]; simpl; [|done].
    rewrite <-(Hn (set_size (iCallStackSize e + 1) e)). subst cy'.
    unfold with_env, with_cos; simpl. by rewrite insert_id by (by rewrite lookup_delete_ne).
  - destruct (set_call_stack _ _ _) as [e|]; simpl; [|done].
    by rewrite <-(Hn (set_size (iCallStackSize e + 1) e)).
Qed.

Lemma shares_10_ok c : shares_10 c = true → cIsShareStack c = true ∧ stack_mem c = 10.
Proof. unfold shares_10. by intros [? ?%Z.eqb_eq]%andb_true_iff. Qed.

Lemma set_default (d : Z * world * unit) (x : option (Z * world * unit)) :
  such_b (λ '(r, _, _), r =? 0) x = true → x = Some (0, (default d x).1.2, ()).
Proof. destruct x as [[[r w] []]|]; [|done]. by intros ->%Z.eqb_eq. Qed.

Lemma shared_stack_restored_witness :
  ∃ c', cos demo_back !! running demo_wrote = Some c' ∧ stack_sp c' = 9000 ∧
    read_bytes (bytes demo_back) 9000 (9096 - 9000) = read_bytes (bytes demo_wrote) 9000 (9096 - 9000).
Proof.
  destruct demo_steps as (_ & _ & H1 & H2 & H3 & H4 & H5), demo_ok as (_ & H0 & _).
  destruct (such_b_some shares_10 (cos demo_wrote !! running demo_wrote)) as (c & Hc & [Hs Hm]%shares_10_ok);
    [evaluates|].
  apply (shared_stack_restored demo_wrote demo_yield demo_yield3 demo_back 9000 c
    (StackMem (Some 2) 4096 9096 5000)); [exact H0|exact Hc|exact Hs|rewrite Hm; evaluates|exact H1| |
    exact (step_leave _ _ _ H5)|evaluates].
  apply (without_step _ _ demo_start3); [exact (step_leave _ _ _ H2)|decides|].
  apply (without_step _ _ demo_wrote3); [exact H3|decides|].
  apply (without_step _ _ demo_yield3); [exact (step_leave _ _ _ H4)|decides|].
  apply without_refl.
Defined.

Lemma resume_then_yield_witness :
  ∃ w1, co_resume 3 100100 demo_yield = Some w1 ∧ running w1 = 3 ∧
    call_stack w1 = [Some 1; Some 3] ∧
    (local_addr w1 8990 → writes_own w1 (bytes demo_start3) →
     ∃ w2, co_yield_env 8990 (with_bytes (bytes demo_start3) w1) = Some w2 ∧ thread_ok w2 ∧
       running w2 = 1 ∧ call_stack w2 = [Some 1]).
Proof.
  destruct (such_b_some shares_10 (cos demo_yield !! 3)) as (c & Hc & _); [evaluates|].
  assert (R : running demo_yield = 1) by evaluates.
  assert (S : call_stack demo_yield = [Some 1]) by evaluates.
  destruct (resume_then_yield demo_yield 3 100100 8990 c (bytes demo_start3))
    as (w1 & E1 & _ & E3 & E4 & _ & H);
    [exact (proj1 (proj2 (proj2 demo_ok)))|exact Hc|decides|decides|apply local_addr_b_ok; evaluates|].
  rewrite R, S in H. rewrite S in E4. exists w1. split_and!; [exact E1|exact E3|exact E4|exact H].
Defined.

Lemma switch_fails_iff_witness :
  co_resume 2 100100 demo_yield ≠ None ∧ co_yield_env 100100 demo_yield = None.
Proof.
  destruct (such_b_some shares_10 (cos demo_yield !! 2)) as (c & Hc & _); [evaluates|].
  destruct (switch_fails_iff demo_yield 2 100100 c) as [H1 H2];
    [exact (proj1 (proj2 (proj2 demo_ok)))|exact Hc|decides|apply local_addr_b_ok; evaluates|].
  assert (N : negb (iCallStackSize (env demo_yield) =? 128) = true) by evaluates.
  apply negb_true_iff, Z.eqb_neq in N.
  split; [intros E; exact (N (proj1 H1 E))|apply H2; evaluates].
Defined.

(** 2 stores a value, yields, 3 runs, and 2 runs again. *)
Lemma specific_values_kept_witness :
  ∃ w4, running w4 = 2 ∧ co_getspecific (λ _ _, 0) 5 w4 () = Some 77 ∧
    is_Some (co_is_enable_sys_hook w4).
Proof.
  set (w1 := (default (0, demo_wrote, ()) (co_setspecific demo_set 5 77 demo_wrote ())).1.2).
  set (w2 := default w1 (co_yield_env 9000 w1)).
  set (w3 := default w2 (co_resume 3 100100 w2)).
  set (w4 := default w3 (co_yield_env 8990 w3)).
  set (w5 := default w4 (co_resume 2 100100 w4)).
  destruct (such_b_some (λ c, negb (cIsMain c)) (cos demo_wrote !! running demo_wrote))
    as (c & Hc & M%negb_true_iff); [evaluates|].
  assert (R : running w5 = running demo_wrote) by evaluates.
  exists w5.
  destruct (specific_values_kept demo_wrote w1 w2 w4 w5 9000 c demo_set (λ _ _, 0) 5 77) as [G1 G2];
    [exact (proj1 (proj2 demo_ok))|exact Hc|exact M|lia|apply set_default; evaluates|demo_yields| |
     apply (step_leave _ 100100); demo_resumes 2|exact R|].
  - apply (without_step _ _ w3); [apply (step_leave _ 100100); demo_resumes 3|decides|].
    apply (without_step _ _ w4); [apply (step_leave _ 8990); demo_yields|decides|].
    apply without_refl.
  - split; [evaluates|]. split; [exact G1|]. rewrite G2. eexists. reflexivity.
Defined.

Lemma thread_starts_ok_witness :
  ∃ w', co_init_curr_thread_env 1 11 100000 demo_empty = Some w' ∧ thread_ok w' ∧ shares_ok w' ∧
    call_stack w' = [Some 1] ∧ GetCurrThreadCo w' = Some 1.
Proof.
  destruct demo_empty_ok as (H1 & H2 & H3).
  exact (thread_starts_ok 1 11 100000 demo_empty H1 H2 eq_refl H3).
Defined.

Lemma co_create_env_correct_witness :
  ∃ w' c, co_create_env (Some (CoAttr 5000 NULL)) NULL 0 4 14 700000 demo_three = Some w' ∧
    stack_mem c = 14 ∧ ss_size c = 8192 ∧ thread_ok w'.
Proof.
  destruct demo_three_ok as [H1 H2].
  destruct (co_create_env_correct (Some (CoAttr 5000 NULL)) NULL 0 4 14 700000 demo_three)
    as (w' & c & E & Hcr & Hok & _); [exact H1|exact H2|evaluates|exact I| |].
  - split; [evaluates|]. apply (map_Forall_lookup (λ _ sm, 700000 + 8192 ≤ stack_buffer sm ∨ stack_bp sm ≤ 700000)).
    decides.
  - exists w', c. split; [exact E|]. destruct (cIsShareStack c) eqn:Hsh.
    + apply (cr_new _ _ _ _ _ _ _ _ _ Hcr) in Hsh as [? Hs]. discriminate Hs.
    + destruct (cr_own _ _ _ _ _ _ _ _ _ Hcr Hsh) as (E1 & _ & E2 & _).
      split; [exact E1|]. split; [rewrite E2; evaluates|exact Hok].
Defined.

Lemma free_then_resume_fails_witness :
  ∃ w', co_free 2 demo_yield = Some w' ∧ co_resume 3 100100 w' = None.
Proof.
  assert (co_free 2 demo_yield = Some (default demo_yield (co_free 2 demo_yield))) as E by succeeds.
  destruct (such_b_some shares_10 (cos demo_yield !! 2)) as (c2 & H2 & [S2 M2]%shares_10_ok); [evaluates|].
  destruct (such_b_some shares_10 (cos demo_yield !! 3)) as (c3 & H3 & [S3 M3]%shares_10_ok); [evaluates|].
  eexists. split; [exact E|].
  apply (free_then_resume_fails demo_yield _ 2 3 100100 c2 c3 (StackMem (Some 2) 4096 9096 5000));
    [exact (proj1 (proj2 (proj2 demo_ok)))|exact H2|exact S2|rewrite M2; evaluates|evaluates|decides|exact H3|
     exact S3|congruence|lia|decides|exact E].
Defined.
