(* ===== verification/CoLife.v ===== *)
(** * The life of a coroutine (libco/co_routine.cpp)

    [co_create], which prepares the thread when it is the first call,
    [CoRoutineFunc], in which every coroutine begins and ends, and the two forms
    of [co_yield]. *)

From S2P Require Import Prelude Coroutine.

Local Open Scope Z_scope.

(** ** Operations *)

(** [ready]: the thread has an environment.  [self], [mem0] and [buf0] are the
    addresses for its main coroutine if it has none. *)
Definition co_create (ready : bool) (self mem0 buf0 : addr) (attr : option stCoRoutineAttr_t) (fn : ptr) (a : Z)
    (co mem buf : addr) (w : world) : option (addr * world) :=
  w ← (if ready then Some w else co_init_curr_thread_env self mem0 buf0 w);
  w ← co_create_env attr fn a co mem buf w;
  Some (co, w).

Definition co_yield_ct (c_addr : addr) (w : world) : option world := co_yield_env c_addr w.

(** [co->env] is the environment of this thread. *)
Definition co_yield (co c_addr : addr) (w : world) : option world :=
  _ ← cos w !! co;
  co_yield_env c_addr w.

(** [body f a] is what happens until the call [f(a)] returns. *)
Definition CoRoutineFunc (body : addr → Z → world → option world) (co c_addr : addr) (w : world) : option world :=
  c ← cos w !! co;
  w ← match pfn c with Some f => body f (arg c) w | None => Some w end;
  CoRoutineFunc_end co c_addr w.

(** The thread [w0] in which the coroutine is created: [w], or what
    [co_init_curr_thread_env] makes of it. *)
Definition prepared (ready : bool) (self mem0 buf0 : addr) (w w0 : world) : Prop :=
  if ready then w0 = w ∧ thread_ok w ∧ shares_ok w
  else co_init_curr_thread_env self mem0 buf0 w = Some w0 ∧
    parked NULL w ∧ shares_ok w ∧ cos w = ∅ ∧ fresh_stack w mem0 buf0 131072.

(** A thread whose first call creates the coroutine 2, which runs [70(5)], writes
    on its stack and returns. *)
Definition demo_born : addr * world :=
  default (0, demo_empty) (co_create false 1 11 100000 demo_attr (Some 70) 5 2 12 500000 demo_empty).
Definition demo_entered : world := default demo_empty (co_resume 2 100100 demo_born.2).
Definition demo_returned : world := with_bytes (write_bytes (bytes demo_entered) 9000 [1; 2; 3]) demo_entered.
Definition demo_work (f : addr) (a : Z) (w : world) : option world :=
  Some (with_bytes (write_bytes (bytes w) 9000 [1; 2; 3]) w).

(** ** The bottom of the call stack *)

Lemma co_leave_head ca w w' : thread_ok w → co_leave ca w w' → head (call_stack w') = head (call_stack w).
Proof.
  intros Hok [co Hca Hni Hsz E|Hca Hsz E].
  - assert (is_Some (cos w !! co)) as [c Hc].
    { unfold co_resume in E. rewrite (running_at _ (proj2 Hok)) in E. simpl in E. by destruct (cos w !! co). }
    destruct (co_resume_spec w co ca c Hok Hca Hc Hni Hsz) as (w1 & e & E1 & _ & _ & Hcs). simplify_eq.
    rewrite Hcs. pose proof (eo_last _ (proj2 Hok)) as Hl. by destruct (call_stack w).
  - destruct (yield_stack w) as (l & next & Hcs); [apply Hok|done|].
    destruct (co_yield_spec w ca l next Hok Hca Hcs) as (w1 & e & E1 & _ & _ & Hcs1). simplify_eq.
    rewrite Hcs, Hcs1. by destruct l.
Qed.

Lemma co_step_head w w' : thread_ok w → co_step w w' → head (call_stack w') = head (call_stack w).
Proof.
  intros Hok [f _|w1 E|w1 E|set key value r w1 E|ca w1 E]; [done| | | |by apply (co_leave_head ca)].
  1, 2: unfold co_enable_hook_sys, co_disable_hook_sys, upd_co in E;
    apply bind_Some in E as (co & _ & E); destruct (cos w !! co); by simplify_eq/=.
  unfold co_setspecific, upd_co in E. apply bind_Some in E as (co & _ & E).
  apply bind_Some in E as (c & Hc & E). rewrite Hc in E. destruct (cIsMain c).
  - destruct (set key value ()) as [r' p]. by simplify_eq/=.
  - case_guard; by simplify_eq/=.
Qed.

Lemma co_steps_ok w w' : thread_ok w → rtc co_step w w' → thread_ok w' ∧ head (call_stack w') = head (call_stack w).
Proof.
  intros Hok. induction 1 as [w|w w1 w' Hst _ IH]; [done|].
  destruct (IH (ud_ok _ _ (co_step_undisturbed _ _ Hok Hst))) as [Hok' Hh]. split; [done|].
  rewrite Hh. by apply co_step_head.
Qed.

(** A coroutine that is not at the bottom of the call stack has been resumed. *)
Lemma resumed_stack w m : thread_ok w → head (call_stack w) = Some (Some m) → m ≠ running w →
  ∃ l next, call_stack w = l ++ [Some next; Some (running w)].
Proof.
  intros Hok Hh Hne. apply yield_stack; [apply Hok|]. pose proof (eo_last _ (proj2 Hok)) as Hl.
  pose proof (call_stack_length _ (proj2 Hok)) as Hlen. destruct (call_stack w) as [|x [|y l]]; simplify_eq/=; lia.
Qed.

Lemma prepared_ok ready self mem0 buf0 w w0 : prepared ready self mem0 buf0 w w0 →
  (if ready then Some w else co_init_curr_thread_env self mem0 buf0 w) = Some w0 ∧ thread_ok w0 ∧ shares_ok w0.
Proof.
  destruct ready; [by intros (-> & ? & ?)|]. intros (E & Hp & Hs & Hcos & Hfr).
  destruct (co_init_spec self mem0 buf0 w Hp Hs Hcos Hfr) as (w1 & E1 & Hok & Hs1 & _). by simplify_eq.
Qed.

Lemma CoRoutineFunc_end_spec co ca w c l next : thread_ok w → running w = co → cos w !! co = Some c →
  local_addr w ca → call_stack w = l ++ [Some next; Some co] →
  ∃ w' c', CoRoutineFunc_end co ca w = Some w' ∧ thread_ok w' ∧ running w' = next ∧ call_stack w' = l ++ [Some next] ∧
    cos w' !! co = Some c' ∧ cEnd c' = true ∧ ∀ x bs, x ≠ co → kept w x bs → kept w' x bs.
Proof.
  intros Hok <- Hc Hca Hcs. unfold CoRoutineFunc_end, upd_co. rewrite Hc. cbn [mbind option_bind].
  set (w1 := with_cos (<[running w := set_cEnd true c]> (cos w)) w).
  pose proof (own_undisturbed w c (set_cEnd true) Hok Hc eq_refl eq_refl eq_refl) as Hu. fold w1 in Hu.
  destruct (co_yield_spec w1 ca l next (ud_ok _ _ Hu)) as (w2 & e & E & Hm & Hok2 & Hcs2); [|done|].
  { intros c1 sm. unfold w1. simpl. rewrite lookup_insert_eq. intros [= <-]. simpl. by apply Hca. }
  assert (cos w1 !! running w = Some (set_cEnd true c)) as Hc1 by apply lookup_insert_eq.
  destruct (mv_cos _ _ _ _ _ _ Hm _ _ Hc1) as (c' & Hc' & Hsame). rewrite decide_True in Hsame by done.
  exists w2, c'. split_and!; [exact E|done|apply Hm|done|done|by destruct Hsame as (_ & _ & _ & _ & _ & -> & _)|].
  intros x bs Hx Hk. apply (mv_kept _ _ _ _ _ _ Hm); [done|]. by apply (ud_kept _ _ Hu).
Qed.

(** [CoRoutineFunc], in a thread where [co] is not at the bottom. *)
Lemma CoRoutineFunc_spec co c m body w w' cb : thread_ok w → cos w !! co = Some c →
  head (call_stack w) = Some (Some m) → m ≠ co →
  (if pfn c is Some f then body f (arg c) w = Some w' else w' = w) →
  rtc co_step w w' → running w' = co → local_addr w' cb →
  ∃ l next w4 c4, call_stack w' = l ++ [Some next; Some co] ∧
    CoRoutineFunc body co cb w = Some w4 ∧ thread_ok w4 ∧ running w4 = next ∧
    call_stack w4 = l ++ [Some next] ∧ cos w4 !! co = Some c4 ∧ cEnd c4 = true ∧
    (∀ x bs, x ≠ co → kept w' x bs → kept w4 x bs) ∧ ∀ cd, local_addr w4 cd → is_Some (co_resume co cd w4).
Proof.
  intros Hok Hc Hh Hne Hbody Hsteps Hr Hcb. destruct (co_steps_ok w w' Hok Hsteps) as [Hok' Hh'].
  destruct (resumed_stack w' m) as (l & next & Hcs); [done|congruence|congruence|].
  destruct (running_live _ (proj2 Hok')) as [c' Hc']. rewrite Hr in Hcs, Hc'.
  destruct (CoRoutineFunc_end_spec co cb w' c' l next Hok' Hr Hc' Hcb Hcs) as (w4 & c4 & E & Hok4 & Hr4 & Hcs4 & Hc4 & Hend & Hk).
  exists l, next, w4, c4. split; [done|]. split.
  { unfold CoRoutineFunc. rewrite Hc. cbn [mbind option_bind].
    destruct (pfn c) as [f|]; [rewrite Hbody|rewrite <-Hbody]; exact E. }
  split_and!; [done..|]. intros cd Hcd.
  pose proof (eo_nodup _ (proj2 Hok')) as Hn. rewrite Hcs in Hn.
  change [Some next; Some co] with ([Some next] ++ [Some co]) in Hn. rewrite app_assoc in Hn. apply NoDup_app in Hn as (_ & Hn & _).
  pose proof (eo_size _ (proj2 Hok')) as Hsz. pose proof (call_stack_length _ (proj2 Hok4)) as L4.
  rewrite <-(call_stack_length _ (proj2 Hok')), Hcs, length_app in Hsz. rewrite Hcs4, length_app in L4. simpl in Hsz, L4.
  destruct (co_resume_spec w4 co cd c4 Hok4 Hcd Hc4) as (w5 & e & E5 & _); [|lia|by exists w5].
  rewrite Hcs4. intros Hin. apply (Hn _ Hin). by left.
Qed.

(** C19. The life of a coroutine: [co_create] gives a coroutine in a well-formed
    thread, also when it is the first call in the thread.  The first resume
    enters the coroutine's function, and when this returns, after any number of
    steps of this coroutine and of others, the coroutine is marked as ended and
    control goes to the one that resumed it last: there always is one.  Nothing
    that another coroutine keeps on a shared stack is lost.  The ended coroutine
    is not active; [co_resume] does not refuse it. *)
Theorem coroutine_life ready self mem0 buf0 attr fn a co mem buf w w0 :
  prepared ready self mem0 buf0 w w0 → cos w0 !! co = None → attr_ok w0 attr →
  fresh_stack w0 mem buf (round_stack_size (at_stack_size (default default_attr attr))) →
  iCallStackSize (env w0) < 128 →
  ∃ w1, co_create ready self mem0 buf0 attr fn a co mem buf w = Some (co, w1) ∧ thread_ok w1 ∧
    running w1 = running w0 ∧ (∀ x bs, kept w0 x bs → kept w1 x bs) ∧
    ∀ ca, local_addr w1 ca →
    ∃ w2 c, co_resume co ca w1 = Some w2 ∧ thread_ok w2 ∧ running w2 = co ∧
      cos w2 !! co = Some c ∧ pfn c = fn ∧ arg c = a ∧
      ∀ body w3 cb, (if fn is Some f then body f a w2 = Some w3 else w3 = w2) →
        rtc co_step w2 w3 → running w3 = co → local_addr w3 cb →
        ∃ l next w4 c4, call_stack w3 = l ++ [Some next; Some co] ∧
          CoRoutineFunc body co cb w2 = Some w4 ∧ thread_ok w4 ∧ running w4 = next ∧
          call_stack w4 = l ++ [Some next] ∧ cos w4 !! co = Some c4 ∧ cEnd c4 = true ∧
          (∀ x bs, x ≠ co → kept w3 x bs → kept w4 x bs) ∧
          ∀ cd, local_addr w4 cd → is_Some (co_resume co cd w4).
Proof.
  intros (E0 & Hok0 & Hs0)%prepared_ok Hco Hattr Hfr Hsz.
  destruct (co_create_env_spec attr fn a co mem buf w0 Hs0 Hco Hattr Hfr) as (w1 & c & E1 & Hcr).
  destruct (thread_ok_created _ _ _ _ _ _ _ _ _ Hok0 Hs0 Hco Hfr Hcr) as (Hok1 & _ & Hk1).
  destruct (cr_rest _ _ _ _ _ _ _ _ _ Hcr) as (_ & Henv & Hr1). destruct (cr_new _ _ _ _ _ _ _ _ _ Hcr) as (Hfn & Ha & Hst & _).
  exists w1. unfold co_create. rewrite E0. cbn [mbind option_bind]. rewrite E1. split_and!; [done..|]. intros ca Hca.
  assert (cos w1 !! co = Some c) as Hc1 by by rewrite (cr_cos _ _ _ _ _ _ _ _ _ Hcr), lookup_insert_eq.
  assert (Some co ∉ call_stack w1) as Hni.
  { unfold call_stack. rewrite Henv. intros Hin. destruct (eo_live _ (proj2 Hok0) _ Hin) as (x & y & [= <-] & Hx & _). by rewrite Hco in Hx. }
  destruct (co_resume_spec w1 co ca c Hok1 Hca Hc1 Hni) as (w2 & e & E2 & Hm & Hok2 & Hcs2); [by rewrite Henv|].
  destruct (mv_cos _ _ _ _ _ _ Hm _ _ Hc1) as (c2 & Hc2 & Hsame).
  assert (co ≠ running w1) as Hne.
  { intros ->. apply Hni. eapply list_elem_of_lookup_2, last_nth_error, Hok1. }
  rewrite decide_False, Hst, bool_decide_eq_true_2 in Hsame by done. destruct Hsame as (Ep & Ea & _). simpl in Ep, Ea.
  exists w2, c2. split_and!; [done|done|apply Hm|done|congruence|congruence|]. intros body w3 cb Hbody.
  destruct (call_stack w1) as [|p cs] eqn:Hcs1; [by pose proof (eo_last _ (proj2 Hok1)) as Hl; rewrite Hcs1 in Hl|].
  destruct (eo_live _ (proj2 Hok1) p) as (m & y & -> & _); [rewrite Hcs1; left|].
  apply (CoRoutineFunc_spec co c2 m body w2 w3 cb); [done|done|by rewrite Hcs2| |].
  - intros ->. apply Hni. left.
  - by rewrite Ep, Ea, Hfn, Ha.
Qed.

Lemma stack_two (l : list ptr) n x y : [Some x; Some y] = l ++ [Some n; Some y] → l = [] ∧ n = x.
Proof. intros Hl. by destruct l as [|? [|? [|? l]]]; simplify_eq/=. Qed.

Lemma coroutine_life_witness : ∃ w4 c4,
  CoRoutineFunc demo_work 2 9000 demo_entered = Some w4 ∧ running w4 = 1 ∧ call_stack w4 = [Some 1] ∧
  cos w4 !! 2 = Some c4 ∧ cEnd c4 = true.
Proof.
  destruct demo_empty_ok as (H1 & H2 & H3).
  assert (co_resume 2 100100 demo_born.2 = Some demo_entered) as R by succeeds.
  destruct (coroutine_life false 1 11 100000 demo_attr (Some 70) 5 2 12 500000 demo_empty demo_main)
    as (w1 & E1 & _ & _ & _ & Hrun);
    [|evaluates|eexists; evaluates|apply demo_fresh; auto|decides|].
  { split; [succeeds|]. exact (conj H1 (conj H2 (conj eq_refl H3))). }
  assert (w1 = demo_born.2) as -> by (unfold demo_born; rewrite E1; reflexivity). clear E1.
  destruct (Hrun 100100) as (w2 & c & E2 & _ & _ & _ & _ & _ & Hend); [apply local_addr_b_ok; evaluates|].
  rewrite R in E2. injection E2 as <-.
  destruct (Hend demo_work demo_returned 9000 eq_refl) as (l & next & w4 & c4 & Hcs & E4 & _ & Hr & Hcs4 & Hc4 & He & _);
    [|evaluates|apply local_addr_b_ok; evaluates|].
  { apply rtc_once. apply step_run, in_own_stack_ok. evaluates. }
  assert (call_stack demo_returned = [Some 1; Some 2]) as S by evaluates. rewrite S in Hcs.
  apply stack_two in Hcs as [-> ->].
  exists w4, c4. exact (conj E4 (conj Hr (conj Hcs4 (conj Hc4 He)))).
Defined.
