(* ===== verification/CoCond.v ===== *)
(** * Condition variables of coroutines (libco/co_routine.cpp)

    [stCoCond_t] with [co_cond_pop], [co_cond_signal], [co_cond_broadcast] and
    [co_cond_timedwait], over any implementation of the intrusive lists.  An
    [stCoCondItem_t] at [p] is two nodes: the item itself, which is in the list
    of the condition variable while its coroutine waits, and the
    [stTimeoutItem_t] inside it, at [tmo p], which is in the time wheel while
    the wait can expire and in the list of active items once it is over. *)

From S2P Require Import Prelude LinkList Timeout.

Local Open Scope Z_scope.
Local Open Scope cint_scope.

(** ** Operations *)

(** [&p->timeout], after three pointers. *)
Definition tmo (p : addr) : addr := p + 24.

Section ops.
Context {H : Type} `{LinkOps H}.

Definition co_cond_pop (lnk : addr) (h : H) : option (ptr * H) :=
  p ← op_head lnk h;
  match p with
  | Some _ => h ← op_pop_head lnk h; Some (p, h)
  | None => Some (p, h)
  end.

(** [act] is the [pstActiveList] of the thread. *)
Definition co_cond_signal (si act : addr) (h : H) : option H :=
  '(sp, h) ← co_cond_pop si h;
  match sp with
  | None => Some h
  | Some p => h ← op_remove (tmo p) h; op_add_tail act (tmo p) h
  end.

(** The loop has no bound in the code; the fuel counts its iterations. *)
Fixpoint co_cond_broadcast (fuel : nat) (si act : addr) (h : H) : option H :=
  match fuel with
  | O => None
  | S fuel =>
      '(sp, h) ← co_cond_pop si h;
      match sp with
      | None => Some h
      | Some p =>
          h ← op_remove (tmo p) h;
          h ← op_add_tail act (tmo p) h;
          co_cond_broadcast fuel si act h
      end
  end.

(** [co_cond_timedwait] up to its yield, with the item that [calloc] gave at
    [p]; a result other than 0 is returned without waiting. *)
Definition co_cond_timedwait (lnk p : addr) (ms now : Z) (t : stTimeout_t) (h : H)
    : option (Z * stTimeout_t * H) :=
  h ← op_new_node p h;
  h ← op_new_node (tmo p) h;
  '(ret, t, h) ← (if decide (0 < ms) then AddTimeout t (tmo p) (u64 (now + ms)) now h
                  else Some (0, t, h));
  if decide (ret ≠ 0) then Some (ret, t, h)
  else h ← op_add_tail lnk p h; Some (0, t, h).

(** What it does once the coroutine is resumed; [free] leaves the store. *)
Definition co_cond_timedwait_end (p : addr) (h : H) : option H := op_remove p h.
End ops.

(** ** The abstract condition variable *)

Definition signal_spec (si act : addr) (s : lists) : lists :=
  match ls s !! si with
  | Some (p :: _) => add_tail_spec act (tmo p) (remove_spec (tmo p) (pop_head_spec si s))
  | _ => s
  end.

(** The items [ws] wait at [si]; none is the timeout part of another. *)
Definition waits (si act : addr) (ws : list Z) (s : lists) : Prop :=
  ls s !! si = Some ws ∧ act ∈ dom (ls s) ∧ si ≠ act ∧
  ∀ p, p ∈ ws → tmo p ∈ its s ∧ tmo p ∉ ws.

(** ** The interface of the scheduler

    What a scheduler of coroutines needs of a condition variable and of the
    list of active items: [q_wait i] is coroutine [i] waiting without a time
    limit, [q_signal] wakes the first waiter, [q_raise i] is the event of
    coroutine [i] blocked in [poll] having become active, and [q_next] takes
    the next coroutine to resume.  [q_rep q ws qs]: the coroutines [ws] wait
    and [qs] are active, both in order. *)
Class CondOps (Q : Type) := {
  q_wait : nat → Q → option Q;
  q_signal : Q → option Q;
  q_raise : nat → Q → option Q;
  q_next : Q → option (option nat * Q);
}.

Class CondLaws (Q : Type) `{CondOps Q} := {
  q_rep : Q → list nat → list nat → Prop;
  q_wait_law : ∀ q ws qs i, q_rep q ws qs → ∃ q', q_wait i q = Some q' ∧ q_rep q' (ws ++ [i]) qs;
  q_signal_law : ∀ q ws qs, q_rep q ws qs →
    ∃ q', q_signal q = Some q' ∧ q_rep q' (tail ws) (qs ++ take 1 ws);
  q_raise_law : ∀ q ws qs i, q_rep q ws qs → ∃ q', q_raise i q = Some q' ∧ q_rep q' ws (qs ++ [i]);
  q_next_law : ∀ q ws qs, q_rep q ws qs →
    ∃ q', q_next q = Some (head qs, q') ∧ q_rep q' ws (tail qs);
}.

(** ** The scheduler's view of the store

    The condition variable is the list header 1 and the active list the
    header 2; [cq_arg] is the [pArg] of the active items and whether the item
    is part of an [stCoCondItem_t], and [cq_free] the next address of the
    allocator. *)
Record condq (H : Type) := CondQ {
  cq_heap : H;
  cq_arg : gmap Z (nat * bool);
  cq_free : addr;
}.
Arguments CondQ {_} _ _ _.
Arguments cq_heap {_} _.
Arguments cq_arg {_} _.
Arguments cq_free {_} _.

Definition COND : addr := 1.
Definition ACTIVE : addr := 2.

(** The wheel is not used by a wait without a limit. *)
Definition no_wheel : stTimeout_t := Wheel 0 0 0 0.

Section condq.
Context {H : Type} `{LinkOps H}.

Definition cq_wait (i : nat) (q : condq H) : option (condq H) :=
  let p := cq_free q in
  '(_, _, h) ← co_cond_timedwait COND p (-1) 0 no_wheel (cq_heap q);
  Some (CondQ h (<[tmo p := (i, true)]> (cq_arg q)) (p + 48)).

Definition cq_signal (q : condq H) : option (condq H) :=
  h ← co_cond_signal COND ACTIVE (cq_heap q);
  Some (CondQ h (cq_arg q) (cq_free q)).

(** The item of [poll] is allocated here and goes to the active list. *)
Definition cq_raise (i : nat) (q : condq H) : option (condq H) :=
  let p := cq_free q in
  h ← op_new_node p (cq_heap q);
  h ← op_add_tail ACTIVE p h;
  Some (CondQ h (<[p := (i, false)]> (cq_arg q)) (p + 48)).

(** [PopHead], and the end of the wait in the coroutine that is resumed. *)
Definition cq_next (q : condq H) : option (option nat * condq H) :=
  lp ← op_head ACTIVE (cq_heap q);
  match lp with
  | None => Some (None, q)
  | Some a =>
      h ← op_pop_head ACTIVE (cq_heap q);
      '(i, is_cond) ← cq_arg q !! a;
      h ← (if is_cond : bool then co_cond_timedwait_end (a - 24) h else Some h);
      Some (Some i, CondQ h (cq_arg q) (cq_free q))
  end.

#[export] Instance condq_ops : CondOps (condq H) := {
  q_wait := cq_wait;
  q_signal := cq_signal;
  q_raise := cq_raise;
  q_next := cq_next;
}.
End condq.

(** [CondQ h arg free] represents the waiting and the active coroutines. *)
Record condq_rep {H : Type} `{LinkLaws H} (q : condq H) (ws qs : list nat) : Prop := {
  cr_view : ∃ s ps ts, rep (cq_heap q) s ∧ ls s !! COND = Some ps ∧ ls s !! ACTIVE = Some ts ∧
    dom (cq_arg q) ⊆ its s ∧ (∀ x, x ∈ its s → x < cq_free q) ∧
    (∀ p, p ∈ ps → p ∉ dom (cq_arg q)) ∧
    Forall2 (λ p i, cq_arg q !! tmo p = Some (i, true)) ps ws ∧
    Forall2 (λ a i, ∃ b, cq_arg q !! a = Some (i, b) ∧
      (b = true → a - 24 ∈ its s ∧ a - 24 ∉ ps ∧ a - 24 ∉ dom (cq_arg q))) ts qs;
}.

(** Two coroutines wait with the items 1000 and 1048, and the item 2000 is
    active. *)
Definition demo_cond_cmds : list cmd :=
  [CNewLink COND; CNewLink ACTIVE; CNewNode 1000; CNewNode 1024; CNewNode 1048; CNewNode 1072;
   CNewNode 2000; CAddTail COND 1000; CAddTail COND 1048; CAddTail ACTIVE 2000].
Definition demo_cond : heap := default empty_heap (run_cmds demo_cond_cmds empty_heap).
Definition demo_cond_lists : lists := spec_cmds demo_cond_cmds empty_lists.

(** The store with nothing but the two list headers. *)
Definition empty_condq : condq heap :=
  CondQ (default empty_heap (run_cmds [CNewLink COND; CNewLink ACTIVE] empty_heap)) ∅ 1000.

(** ** Moving an item *)

Lemma remove_spec_lookup x s l :
  ls (remove_spec x s) !! l = filter (λ y, y ≠ x) <$> ls s !! l.
Proof. apply lookup_fmap. Qed.

Lemma remove_spec_free x s : ¬ linked (remove_spec x s) x.
Proof.
  intros (l & xs & Hl & Hx)%linked_spec. rewrite remove_spec_lookup in Hl.
  destruct (ls s !! l) as [ys|]; [|done]. simplify_eq/=.
  by apply list_elem_of_filter in Hx as [? _].
Qed.

Lemma move_spec_lookup x act s l :
  ls (add_tail_spec act x (remove_spec x s)) !! l =
    (λ xs, filter (λ y, y ≠ x) xs ++ (if decide (l = act) then [x] else [])) <$> ls s !! l.
Proof.
  unfold add_tail_spec. rewrite decide_False by apply remove_spec_free. simpl.
  destruct (decide (l = act)) as [->|Hne].
  - rewrite lookup_alter_eq, lookup_fmap. by destruct (ls s !! act).
  - rewrite lookup_alter_ne, lookup_fmap by done. destruct (ls s !! l); simpl; [|done].
    by rewrite app_nil_r.
Qed.

Lemma move_spec_its x act s : its (add_tail_spec act x (remove_spec x s)) = its s.
Proof. unfold add_tail_spec. by rewrite decide_False by apply remove_spec_free. Qed.

Lemma signal_spec_lookup si act p ws s l :
  waits si act (p :: ws) s →
  ls (signal_spec si act s) !! l =
    if decide (l = si) then Some ws
    else (λ xs, filter (λ y, y ≠ tmo p) xs ++ (if decide (l = act) then [tmo p] else [])) <$> ls s !! l.
Proof.
  intros (Hsi & Hact & Hne & Hp). unfold signal_spec. rewrite Hsi, move_spec_lookup. simpl.
  destruct (decide (l = si)) as [->|Hl].
  - rewrite lookup_alter_eq, Hsi, decide_False by done. simpl. f_equal.
    rewrite app_nil_r. apply filter_ne_notin. destruct (Hp p); set_solver.
  - by rewrite lookup_alter_ne.
Qed.

Lemma signal_spec_its si act s : its (signal_spec si act s) = its s.
Proof.
  unfold signal_spec. destruct (ls s !! si) as [[|p ws]|]; [done| |done].
  by rewrite move_spec_its.
Qed.

Lemma signal_spec_waits si act p ws s :
  waits si act (p :: ws) s → waits si act ws (signal_spec si act s).
Proof.
  intros Hw. pose proof Hw as (Hsi & Hact & Hne & Hp).
  split_and!; [by rewrite (signal_spec_lookup _ _ _ _ _ _ Hw), decide_True| |done|].
  - apply elem_of_dom. rewrite (signal_spec_lookup _ _ _ _ _ _ Hw), decide_False by done.
    apply elem_of_dom in Hact as [xs ->]. by eexists.
  - rewrite signal_spec_its. intros p' Hp'. destruct (Hp p'); set_solver.
Qed.

Section laws.
Context {H : Type} `{LinkLaws H}.

Lemma co_cond_pop_rep h s lnk xs :
  rep h s → ls s !! lnk = Some xs →
  ∃ h', co_cond_pop lnk h = Some (head xs, h') ∧ rep h' (pop_head_spec lnk s).
Proof.
  intros Hr Hl. unfold co_cond_pop. rewrite (op_head_law _ _ _ _ Hr Hl). simpl.
  destruct xs as [|x xs]; simpl.
  - exists h. split; [done|]. unfold pop_head_spec. 
    replace (alter tail lnk (ls s)) with (ls s); [by destruct s|].
    apply map_eq. intros k. destruct (decide (k = lnk)) as [->|].
    + by rewrite lookup_alter_eq, Hl. + by rewrite lookup_alter_ne.
  - destruct (op_pop_head_law h s lnk Hr) as (h' & -> & Hr'); [by apply elem_of_dom|]. eauto.
Qed.

Lemma co_move_rep h s act x :
  rep h s → act ∈ dom (ls s) → x ∈ its s →
  ∃ h1 h', op_remove x h = Some h1 ∧ op_add_tail act x h1 = Some h' ∧
    rep h' (add_tail_spec act x (remove_spec x s)).
Proof.
  intros Hr Ha Hx. destruct (op_remove_law h s x Hr Hx) as (h1 & Hh1 & Hr1).
  destruct (op_add_tail_law h1 (remove_spec x s) act x Hr1) as (h' & ? & ?); [|done|by eauto].
  unfold remove_spec. simpl. by rewrite dom_fmap_L.
Qed.

Lemma co_cond_signal_rep h s si act ws :
  rep h s → waits si act ws s →
  ∃ h', co_cond_signal si act h = Some h' ∧ rep h' (signal_spec si act s).
Proof.
  intros Hr Hw. pose proof Hw as (Hsi & Hact & Hne & Hp). unfold co_cond_signal, signal_spec.
  destruct (co_cond_pop_rep _ _ _ _ Hr Hsi) as (h1 & -> & Hr1). simpl. rewrite Hsi.
  destruct ws as [|p ws]; simpl.
  - exists h1. split; [done|]. unfold pop_head_spec in Hr1.
    replace (alter tail si (ls s)) with (ls s) in Hr1; [by destruct s|].
    apply map_eq. intros k. destruct (decide (k = si)) as [->|].
    + by rewrite lookup_alter_eq, Hsi. + by rewrite lookup_alter_ne.
  - destruct (co_move_rep _ _ act (tmo p) Hr1) as (h2 & h3 & E1 & E2 & Hr3); simpl.
    + by rewrite dom_alter_L.
    + apply Hp. set_solver.
    + rewrite E1. simpl. eauto.
Qed.

Lemma co_cond_broadcast_rep ws fuel h s si act :
  rep h s → waits si act ws s → (length ws < fuel)%nat →
  ∃ h' s', co_cond_broadcast fuel si act h = Some h' ∧ rep h' s' ∧ its s' = its s ∧
    ls s' !! si = Some [] ∧
    (∀ l, l ≠ si → ls s' !! l =
       (λ xs, filter (λ y, y ∉ tmo <$> ws) xs ++ (if decide (l = act) then tmo <$> ws else []))
       <$> ls s !! l).
Proof.
  revert fuel h s. induction ws as [|p ws IH]; intros fuel h s Hr Hw Hf;
    (destruct fuel as [|fuel]; [simpl in Hf; lia|]); pose proof Hw as (Hsi & Hact & Hne & Hp); simpl.
  - destruct (co_cond_pop_rep _ _ _ _ Hr Hsi) as (h1 & -> & Hr1). simpl.
    exists h1, (pop_head_spec si s). split_and!; [done..| |]; simpl.
    + by rewrite lookup_alter_eq, Hsi.
    + intros l Hl. rewrite lookup_alter_ne by done. destruct (ls s !! l) as [xs|]; simpl; [|done].
      rewrite filter_all by (intros; set_solver). by case_decide; rewrite app_nil_r.
  - destruct (co_cond_signal_rep _ _ _ _ _ Hr Hw) as (h3 & Hh3 & Hr3).
    unfold co_cond_signal in Hh3.
    destruct (co_cond_pop_rep _ _ _ _ Hr Hsi) as (h1 & Heq & Hr1). rewrite Heq in *. simpl in *.
    destruct (op_remove (tmo p) h1) as [h2|]; [|done]. simpl in *. rewrite Hh3. simpl.
    destruct (IH fuel h3 (signal_spec si act s) Hr3) as (h' & s' & -> & Hr' & Hits & Hs & Hl);
      [by eapply signal_spec_waits|simpl in Hf; lia|].
    exists h', s'. split_and!; [done|done|by rewrite Hits, signal_spec_its|done|].
    intros l Hne'. rewrite (Hl l Hne'), (signal_spec_lookup _ _ _ _ _ _ Hw), (decide_False (P := l = si)) by done.
    destruct (ls s !! l) as [xs|]; simpl; [|done]. f_equal.
    rewrite filter_app, filter_filter, <-app_assoc. f_equal.
    + apply list_filter_iff. intros y. rewrite not_elem_of_cons. naive_solver.
    + case_decide; [|done]. rewrite filter_cons_True; [done|].
      intros (q & Heq' & Hq)%list_elem_of_fmap. unfold tmo in Heq'.
      assert (p = q) as -> by lia. pose proof (rep_nodup _ _ _ _ Hr Hsi) as Hnd.
      by apply NoDup_cons in Hnd as [? _].
Qed.
End laws.

Section timedwait.
Context {H : Type} `{LinkLaws H}.

Lemma calloc_rep h s p :
  rep h s → p ∉ its s → tmo p ∉ its s →
  ∃ h1 h2, op_new_node p h = Some h1 ∧ op_new_node (tmo p) h1 = Some h2 ∧
    rep h2 (Lists (ls s) ({[tmo p; p]} ∪ its s)).
Proof.
  intros Hr Hp Ht. destruct (op_new_node_law h s p Hr Hp) as (h1 & ? & Hr1).
  destruct (op_new_node_law h1 (new_node_spec p s) (tmo p) Hr1) as (h2 & ? & Hr2).
  { simpl. unfold tmo in *. rewrite elem_of_union, elem_of_singleton. intros [?|?]; [lia|done]. }
  exists h1, h2. split_and!; [done..|]. unfold new_node_spec in Hr2. simpl in Hr2.
  by rewrite union_assoc_L in Hr2.
Qed.

Lemma unlinked_fresh h s p X : rep h s → p ∉ its s → ¬ linked (Lists (ls s) X) p.
Proof.
  intros Hr Hp (l & xs & Hl & Hx)%linked_spec. simpl in Hl.
  by apply Hp, (rep_its _ _ _ _ _ Hr Hl).
Qed.

(** The last step of the first half, and lists other than the waiters'. *)
Lemma wait_link h s lnk p ws :
  rep h s → p ∈ its s → ls s !! lnk = Some ws → ¬ linked s p →
  ∃ h', op_add_tail lnk p h = Some h' ∧ rep h' (add_tail_spec lnk p s) ∧
    ls (add_tail_spec lnk p s) = <[lnk := ws ++ [p]]> (ls s).
Proof.
  intros Hr Hp Hl Hn. destruct (op_add_tail_law h s lnk p Hr) as (h' & ? & Hr'); [by apply elem_of_dom|done|].
  exists h'. split_and!; [done|done|]. unfold add_tail_spec. rewrite decide_False by done. simpl.
  apply map_eq. intros k. destruct (decide (k = lnk)) as [->|].
  - by rewrite lookup_alter_eq, Hl, lookup_insert_eq.
  - by rewrite lookup_alter_ne, lookup_insert_ne.
Qed.

Lemma wheel_other t s s' lnk xs x :
  ls s' = <[lnk := xs]> (ls s) → ¬ is_slot t lnk → in_wheel t s' x ↔ in_wheel t s x.
Proof.
  intros Heq Hn. unfold in_wheel. rewrite Heq.
  split; intros (a & ys & Ha & Hl & Hx); exists a, ys; split_and!; try done.
  - by rewrite lookup_insert_ne in Hl by (by intros ->).
  - by rewrite lookup_insert_ne by (by intros ->).
Qed.

Lemma remove_spec_linked_ne p s x : x ≠ p → linked (remove_spec p s) x ↔ linked s x.
Proof.
  intros Hx. rewrite !linked_spec. split.
  - intros (l & xs & Hl & Hin). rewrite remove_spec_lookup in Hl.
    destruct (ls s !! l) as [ys|] eqn:Hy; simplify_eq/=.
    apply list_elem_of_filter in Hin as [_ ?]. eauto.
  - intros (l & xs & Hl & Hin). exists l, (filter (λ y, y ≠ p) xs).
    rewrite remove_spec_lookup, Hl. split; [done|]. by apply list_elem_of_filter.
Qed.

(** The second half of a wait takes the item off every list. *)
Lemma co_cond_timedwait_end_spec p h1 s1 :
  rep h1 s1 → p ∈ its s1 →
  ∃ h2 s2, co_cond_timedwait_end p h1 = Some h2 ∧ rep h2 s2 ∧ ¬ linked s2 p ∧
    ∀ x, x ≠ p → linked s2 x ↔ linked s1 x.
Proof.
  intros Hr1 Hin. destruct (op_remove_law h1 s1 p Hr1 Hin) as (h2 & ? & ?).
  exists h2, (remove_spec p s1). split_and!; [done|done|apply remove_spec_free|].
  intros x Hx. by apply remove_spec_linked_ne.
Qed.

(** Joining the condition variable with the timeout already in the wheel. *)
Lemma wait_link_timed h s h3 slot lnk p ws :
  rep h s → p ∉ its s → tmo p ∉ its s → ls s !! lnk = Some ws → lnk ≠ slot →
  let s2 := Lists (ls s) ({[tmo p; p]} ∪ its s) in
  let s3 := add_tail_spec slot (tmo p) s2 in
  rep h3 s3 →
  ∃ h', op_add_tail lnk p h3 = Some h' ∧ rep h' (add_tail_spec lnk p s3) ∧
    ls (add_tail_spec lnk p s3) = <[lnk := ws ++ [p]]> (ls s3).
Proof.
  intros Hr Hp Ht Hl Hne s2 s3 Hr3.
  assert (Hnew : ¬ linked s2 (tmo p)) by by eapply unlinked_fresh.
  assert (Hs3 : s3 = Lists (alter (λ xs, xs ++ [tmo p]) slot (ls s)) (its s2)).
  { unfold s3, add_tail_spec. by rewrite decide_False. }
  apply wait_link; [done|rewrite Hs3; set_solver|by rewrite Hs3; simpl; rewrite lookup_alter_ne|].
  rewrite linked_spec, Hs3. intros (l & xs & Hx & Hinx). simpl in Hx.
  apply lookup_alter_Some in Hx as [(<- & ys & Hy & ->)|[_ Hx]].
  - apply elem_of_app in Hinx as [Hinx|Hinx%list_elem_of_singleton].
    + by apply Hp, (rep_its _ _ _ _ _ Hr Hy).
    + unfold tmo in Hinx. lia.
  - by apply Hp, (rep_its _ _ _ _ _ Hr Hx).
Qed.

(** [co_cond_signal] wakes the coroutine that has waited longest and
    no other: its item leaves the condition variable, its timeout leaves the
    time wheel (or whatever list it is in) and becomes the last active item;
    without a waiter nothing changes. *)
Theorem co_cond_signal_correct h s si act ws acts :
  rep h s → waits si act ws s → ls s !! act = Some acts →
  ∃ h' s', co_cond_signal si act h = Some h' ∧ rep h' s' ∧
    match ws with
    | [] => s' = s
    | p :: ws' =>
        ls s' !! si = Some ws' ∧
        ls s' !! act = Some (filter (λ y, y ≠ tmo p) acts ++ [tmo p]) ∧
        (∀ l, l ≠ si → l ≠ act → ls s' !! l = filter (λ y, y ≠ tmo p) <$> ls s !! l)
    end.
Proof.
  intros Hr Hw Ha. destruct (co_cond_signal_rep _ _ _ _ _ Hr Hw) as (h' & Heq & Hr').
  exists h', (signal_spec si act s). split_and!; [done|done|].
  pose proof Hw as (Hsi & _ & Hne & _). destruct ws as [|p ws].
  { unfold signal_spec. by rewrite Hsi. }
  pose proof (λ l, signal_spec_lookup si act p ws s l Hw) as Hlk. split_and!.
  - by rewrite Hlk, decide_True.
  - by rewrite Hlk, decide_False, Ha, decide_True by done.
  - intros l Hl Hl'. rewrite Hlk, decide_False by done. destruct (ls s !! l) as [xs|]; simpl; [|done].
    by rewrite decide_False, app_nil_r by done.
Qed.

(** [co_cond_broadcast] ends after waking every waiter, in the order in
    which they waited. *)
Theorem co_cond_broadcast_correct h s si act ws acts :
  rep h s → waits si act ws s → ls s !! act = Some acts →
  ∃ h' s', co_cond_broadcast (S (length ws)) si act h = Some h' ∧ rep h' s' ∧
    ls s' !! si = Some [] ∧
    ls s' !! act = Some (filter (λ y, y ∉ tmo <$> ws) acts ++ (tmo <$> ws)) ∧
    (∀ l, l ≠ si → l ≠ act → ls s' !! l = filter (λ y, y ∉ tmo <$> ws) <$> ls s !! l).
Proof.
  intros Hr Hw Ha. pose proof Hw as (_ & _ & Hne & _).
  destruct (co_cond_broadcast_rep ws (S (length ws)) _ _ _ _ Hr Hw) as (h' & s' & ? & ? & _ & ? & Hl);
    [lia|]. exists h', s'. split_and!; try done.
  - by rewrite Hl, Ha, decide_True by done.
  - intros l Hs Hl'. rewrite Hl by done. destruct (ls s !! l) as [xs|]; simpl; [|done].
    by rewrite decide_False, app_nil_r by done.
Qed.

(** [co_cond_timedwait] on every branch: without a limit the coroutine
    becomes the last waiter; with one that the wheel covers its timeout is
    in the wheel as well; with a longer one it returns the line number 478 of
    [AddTimeout], waiting nowhere.  When the coroutine is resumed, its item
    leaves whatever list it is in and all other items stay, so that the
    [free] leaves no dangling pointer behind. *)
Theorem co_cond_timedwait_correct h s lnk p ms now t exp ws :
  rep h s → p ∉ its s → tmo p ∉ its s → ls s !! lnk = Some ws → ¬ is_slot t lnk →
  wheel_inv t exp s → exp (tmo p) = now + ms → ullStart t ≤ now →
  now + ms < ullStart t + 2 ^ 31 → ms < 2 ^ 31 →
  ∃ ret h' s', co_cond_timedwait lnk p ms now t h = Some (ret, t, h') ∧ rep h' s' ∧
    (ret = if decide (0 < ms ∧ ullStart t + iItemSize t ≤ now + ms) then 478 else 0) ∧
    ls s' !! lnk = Some (if decide (ret = 0) then ws ++ [p] else ws) ∧
    (in_wheel t s' (tmo p) ↔ ret = 0 ∧ 0 < ms) ∧
    (∀ h1 s1, rep h1 s1 → p ∈ its s1 →
      ∃ h2 s2, co_cond_timedwait_end p h1 = Some h2 ∧ rep h2 s2 ∧ ¬ linked s2 p ∧
        ∀ x, x ≠ p → linked s2 x ↔ linked s1 x).
Proof.
  intros Hr Hp Ht Hl Hsl Hw Hexp Hnow Hbig Hms.
  pose proof (wi_size _ _ _ Hw). pose proof (wi_start _ _ _ Hw).
  assert (Hnew : ∀ x X, x ∉ its s → ¬ linked (Lists (ls s) X) x)
    by (intros; by eapply unlinked_fresh).
  assert (Hend := co_cond_timedwait_end_spec p).
  assert (Hnw : ∀ s', ls s' = ls s → ¬ in_wheel t s' (tmo p)).
  { intros s' Hs' (a & xs & _ & Ha & Hx). rewrite Hs' in Ha. by apply Ht, (rep_its _ _ _ _ _ Hr Ha). }
  unfold co_cond_timedwait.
  destruct (calloc_rep _ _ _ Hr Hp Ht) as (h1 & h2 & -> & E2 & Hr2). simpl. rewrite E2. simpl.
  set (s2 := Lists _ _) in Hr2.
  assert (Hw2 : wheel_inv t exp s2) by (split; apply Hw).
  destruct (AddTimeout_spec t exp h2 s2 (tmo p) now Hr2 Hw2) as (_ & _ & Hfar & Hok);
    [set_solver|by apply Hnew|lia|]. rewrite Hexp in Hfar, Hok.
  destruct (decide (0 < ms)) as [Hpos|Hneg].
  2:{ simpl. destruct (wait_link h2 s2 lnk p ws Hr2) as (h' & -> & Hr' & Hlk);
      [set_solver|done|by apply Hnew|].
    eexists 0, h', _. split; [done|]. split; [exact Hr'|]. rewrite !decide_False by lia.
    rewrite decide_True by done. split_and!; [done|by rewrite Hlk, lookup_insert_eq| |exact Hend].
    split; [|lia]. intros Hin. exfalso.
    apply (Hnw s2); [done|]. exact (proj1 (wheel_other t s2 _ lnk _ _ Hlk Hsl) Hin). }
  rewrite wrapu_id by lia.
  destruct (decide (ullStart t + iItemSize t ≤ now + ms)) as [Hf|Hc].
  - rewrite Hfar by lia. simpl. eexists 478, h2, s2. rewrite decide_True by lia.
    split_and!; [done|done|done|done| |exact Hend]. split; [|lia].
    intros Hin. by apply Hnw in Hin.
  - destruct Hok as (h3 & -> & Hr3 & Hw3 & Hin3); [lia..|]. simpl.
    set (s3 := add_tail_spec (slot_of t (now + ms)) (tmo p) s2) in *.
    destruct (wait_link_timed h s h3 (slot_of t (now + ms)) lnk p ws) as (h' & -> & Hr' & Hlk); [done..| |done|].
    { intros ->. apply Hsl, slot_of_is_slot. lia. }
    eexists 0, h', _. split; [done|]. split; [exact Hr'|]. rewrite decide_False by lia.
    rewrite decide_True by done. split_and!; [done|by rewrite Hlk, lookup_insert_eq| |exact Hend].
    split; [done|]. intros _.
    apply (proj2 (wheel_other t s3 _ lnk _ _ Hlk Hsl)), Hin3. by left.
Qed.
End timedwait.

(** ** The store implements the interface *)

Section instance.
Context {H : Type} `{LinkLaws H}.

Lemma cq_wait_law q ws qs i :
  condq_rep q ws qs → ∃ q', cq_wait i q = Some q' ∧ condq_rep q' (ws ++ [i]) qs.
Proof.
  intros [(s & ps & ts & Hr & Hc & Ha & Hdom & Hlt & Hps & Hws & Hqs)].
  unfold cq_wait, co_cond_timedwait. set (p := cq_free q).
  assert (Hp : p ∉ its s) by (intros ?%Hlt; unfold p in *; lia).
  assert (Ht : tmo p ∉ its s) by (intros ?%Hlt; unfold tmo, p in *; lia).
  destruct (calloc_rep _ _ _ Hr Hp Ht) as (h1 & h2 & -> & E2 & Hr2). simpl. rewrite E2. simpl.
  set (s2 := Lists _ _) in Hr2.
  destruct (wait_link h2 s2 COND p ps Hr2) as (h' & -> & Hr' & Hlk);
    [set_solver|done|by eapply unlinked_fresh|].
  eexists. split; [done|]. split. simpl.
  assert (Hits : its (add_tail_spec COND p s2) = its s2).
  { unfold add_tail_spec. by case_decide. }
  assert (Hnd : ∀ x, x ∈ dom (cq_arg q) → tmo p ≠ x).
  { intros x Hx <-. by apply Ht, Hdom. }
  exists (add_tail_spec COND p s2), (ps ++ [p]), ts. rewrite Hits, Hlk. simpl. split_and!; [done|..].
  - by rewrite lookup_insert_eq.
  - by rewrite lookup_insert_ne.
  - rewrite dom_insert_L. set_solver.
  - intros x. rewrite !elem_of_union, !elem_of_singleton. intros [[Hx|Hx]|Hx%Hlt]; unfold tmo, p in *; lia.
  - intros x. rewrite dom_insert_L, elem_of_union, elem_of_singleton.
    intros [Hx|Hx%list_elem_of_singleton]%elem_of_app [Heq|Hd].
    + subst x. by apply Ht, (rep_its _ _ _ _ _ Hr Hc).
    + by apply (Hps x).
    + unfold tmo in Heq. lia.
    + subst x. by apply Hp, Hdom.
  - apply Forall2_app; [|constructor; [by rewrite lookup_insert_eq|constructor]].
    eapply Forall2_impl; [exact Hws|]. simpl. intros x j Hx. rewrite lookup_insert_ne; [done|].
    apply Hnd. by eapply elem_of_dom_2.
  - eapply Forall2_impl; [exact Hqs|]. simpl. intros a j (b & Hb & Hd). exists b.
    rewrite lookup_insert_ne by (apply Hnd; by eapply elem_of_dom_2). split; [done|].
    intros E. destruct (Hd E) as (? & ? & ?). rewrite dom_insert_L, elem_of_app, list_elem_of_singleton.
    split_and!; [set_solver|intros [?|Heq]; [done|congruence]|].
    rewrite elem_of_union, elem_of_singleton. intros [Heq|?]; [congruence|done].
Qed.

Lemma tmo_sub p : tmo p - 24 = p.
Proof. unfold tmo. lia. Qed.

Lemma Forall2_lookup_elem {A B} (P : A → B → Prop) xs ys x :
  Forall2 P xs ys → x ∈ xs → ∃ y, P x y.
Proof. intros HF (i & Hi)%list_elem_of_lookup_1. destruct (Forall2_lookup_l _ _ _ _ _ HF Hi) as (y & _ & ?). eauto. Qed.

Lemma cq_signal_law q ws qs :
  condq_rep q ws qs →
  ∃ q', cq_signal q = Some q' ∧ condq_rep q' (tail ws) (qs ++ take 1 ws).
Proof.
  intros [(s & ps & ts & Hr & Hc & Ha & Hdom & Hlt & Hps & Hws & Hqs)]. unfold cq_signal.
  assert (Hw : waits COND ACTIVE ps s).
  { split_and!; [done|by apply elem_of_dom|done|]. intros p Hp.
    destruct (Forall2_lookup_elem _ _ _ _ Hws Hp) as (i & Hi).
    apply elem_of_dom_2 in Hi. split; [by apply Hdom|]. intros Hin. by apply (Hps _ Hin). }
  destruct (co_cond_signal_rep _ _ _ _ _ Hr Hw) as (h' & -> & Hr'). simpl.
  eexists. split; [done|]. split. simpl. rewrite <-(signal_spec_its COND ACTIVE s) in Hdom, Hlt.
  destruct Hws as [|p i ps ws Hp Hws]; simpl.
  { rewrite app_nil_r. exists s, [], ts. unfold signal_spec in *. rewrite Hc in *. eauto 10 using Forall2_nil. }
  pose proof (λ l, signal_spec_lookup COND ACTIVE p ps s l Hw) as Hlk.
  assert (Hpts : tmo p ∉ ts).
  { intros Hin. destruct (Forall2_lookup_elem _ _ _ _ Hqs Hin) as (j & b & Hb & Hd).
    rewrite Hp in Hb. injection Hb as <- <-. destruct (Hd eq_refl) as (_ & Hni & _).
    rewrite tmo_sub in Hni. apply Hni. left. }
  pose proof (rep_nodup _ _ _ _ Hr Hc) as Hnd. apply NoDup_cons in Hnd as [Hni Hnd].
  eexists _, ps, (ts ++ [tmo p]). split_and!; [done|by rewrite Hlk| |done|done|..].
  - rewrite Hlk, Ha. simpl. by rewrite filter_ne_notin.
  - intros x Hx. apply Hps. by right.
  - done.
  - rewrite signal_spec_its. apply Forall2_app.
    + eapply Forall2_impl; [exact Hqs|]. simpl. intros a j (b & Hb & Hd). exists b. split; [done|].
      intros E. destruct (Hd E) as (? & ? & ?). split_and!; [done|set_solver|done].
    + constructor; [|constructor]. exists true. split; [done|]. intros _. rewrite tmo_sub.
      split_and!; [|done|apply Hps; left]. apply (rep_its _ _ _ _ _ Hr Hc). left.
Qed.

Lemma cq_raise_law q ws qs i :
  condq_rep q ws qs → ∃ q', cq_raise i q = Some q' ∧ condq_rep q' ws (qs ++ [i]).
Proof.
  intros [(s & ps & ts & Hr & Hc & Ha & Hdom & Hlt & Hps & Hws & Hqs)].
  unfold cq_raise. set (p := cq_free q).
  assert (Hp : p ∉ its s) by (intros ?%Hlt; unfold p in *; lia).
  destruct (op_new_node_law (cq_heap q) s p Hr Hp) as (h1 & -> & Hr1). simpl.
  destruct (wait_link h1 (new_node_spec p s) ACTIVE p ts Hr1) as (h' & -> & Hr' & Hlk);
    [set_solver|done|by eapply unlinked_fresh|].
  assert (Hits : its (add_tail_spec ACTIVE p (new_node_spec p s)) = {[p]} ∪ its s).
  { unfold add_tail_spec. by case_decide. }
  assert (Hnd : ∀ x, x ∈ dom (cq_arg q) → p ≠ x).
  { intros x Hx <-. by apply Hp, Hdom. }
  eexists. split; [done|]. split. simpl.
  eexists _, ps, (ts ++ [p]). rewrite Hits, Hlk. simpl. split_and!; [done|..].
  - by rewrite lookup_insert_ne.
  - by rewrite lookup_insert_eq.
  - rewrite dom_insert_L. set_solver.
  - intros x. rewrite elem_of_union, elem_of_singleton. intros [Hx|Hx%Hlt]; unfold p in *; lia.
  - intros x Hx. rewrite dom_insert_L, elem_of_union, elem_of_singleton.
    intros [->|Hd]; [|by apply (Hps x)]. by apply Hp, (rep_its _ _ _ _ _ Hr Hc).
  - eapply Forall2_impl; [exact Hws|]. simpl. intros x j Hx. rewrite lookup_insert_ne; [done|].
    apply Hnd. by eapply elem_of_dom_2.
  - apply Forall2_app.
    + eapply Forall2_impl; [exact Hqs|]. simpl. intros a j (b & Hb & Hd). exists b.
      rewrite lookup_insert_ne by (apply Hnd; by eapply elem_of_dom_2). split; [done|].
      intros E. destruct (Hd E) as (? & ? & ?). rewrite dom_insert_L.
      split; [set_solver|]. split; [done|].
      intros [Heq%elem_of_singleton|?]%elem_of_union; [congruence|done].
    + constructor; [|constructor]. exists false. rewrite lookup_insert_eq. done.
Qed.

Lemma cq_next_law q ws qs :
  condq_rep q ws qs → ∃ q', cq_next q = Some (head qs, q') ∧ condq_rep q' ws (tail qs).
Proof.
  intros [(s & ps & ts & Hr & Hc & Ha & Hdom & Hlt & Hps & Hws & Hqs)]. unfold cq_next.
  rewrite (op_head_law _ _ _ _ Hr Ha). simpl.
  destruct Hqs as [|a i ts qs (b & Hb & Hd) Hqs]; simpl.
  { exists q. split; [done|]. split. exists s, ps, []. eauto 10 using Forall2_nil. }
  destruct (op_pop_head_law _ _ ACTIVE Hr) as (h1 & -> & Hr1); [by apply elem_of_dom|]. simpl.
  rewrite Hb. simpl.
  set (s1 := pop_head_spec ACTIVE s) in Hr1.
  assert (Hgo : ∃ h2 s2, (if b then co_cond_timedwait_end (a - 24) h1 else Some h1) = Some h2 ∧
    rep h2 s2 ∧ its s2 = its s ∧ ls s2 !! COND = Some ps ∧ ls s2 !! ACTIVE = Some ts).
  { assert (H1c : ls s1 !! COND = Some ps) by (simpl; by rewrite lookup_alter_ne).
    assert (H1a : ls s1 !! ACTIVE = Some ts) by (simpl; by rewrite lookup_alter_eq, Ha).
    destruct b; [|by exists h1, s1].
    destruct (Hd eq_refl) as (Hin & Hni & Hnd).
    destruct (op_remove_law h1 s1 (a - 24) Hr1 Hin) as (h2 & ? & ?).
    exists h2, (remove_spec (a - 24) s1). split_and!; [done|done|done|..].
    - rewrite remove_spec_lookup, H1c. simpl. by rewrite filter_ne_notin.
    - rewrite remove_spec_lookup, H1a. simpl. rewrite filter_ne_notin; [done|].
      intros Hts. destruct (Forall2_lookup_elem _ _ _ _ Hqs Hts) as (j & b' & Hj & _).
      by apply Hnd, (elem_of_dom_2 _ _ _ Hj). }
  destruct Hgo as (h2 & s2 & -> & Hr2 & Hits & Hc2 & Ha2). simpl.
  eexists. split; [done|]. split. exists s2, ps, ts. simpl. rewrite Hits. auto 10.
Qed.

#[export] Instance condq_laws : CondLaws (condq H) := {
  q_rep := condq_rep;
  q_wait_law := cq_wait_law;
  q_signal_law := cq_signal_law;
  q_raise_law := cq_raise_law;
  q_next_law := cq_next_law;
}.
End instance.

Lemma empty_condq_rep : q_rep empty_condq [] [].
Proof.
  destruct (run_cmds_rep [CNewLink COND; CNewLink ACTIVE] empty_heap empty_lists) as (h & Hh & Hr);
    [apply empty_represents|decides|].
  split. unfold empty_condq. rewrite Hh. eexists _, [], []. simpl.
  split_and!; [exact Hr|done|done|set_solver..|constructor|constructor].
Qed.

(** ** A condition variable with two waiters *)

Lemma demo_cond_rep : rep demo_cond demo_cond_lists.
Proof.
  destruct (run_cmds_rep demo_cond_cmds empty_heap empty_lists) as (h & Hh & Hr);
    [apply empty_represents|by vm_compute|].
  unfold demo_cond. rewrite Hh. exact Hr.
Qed.

Lemma demo_cond_waits : waits COND ACTIVE [1000; 1048] demo_cond_lists.
Proof.
  split_and!; [evaluates|decides|done|].
  intros p [->|[->|[]%not_elem_of_nil]%elem_of_cons]%elem_of_cons; split; decides.
Qed.

Lemma co_cond_signal_correct_witness :
  ∃ h' s', co_cond_signal COND ACTIVE demo_cond = Some h' ∧ rep h' s' ∧
    ls s' !! COND = Some [1048] ∧ ls s' !! ACTIVE = Some [2000; 1024].
Proof.
  destruct (co_cond_signal_correct (H:=heap) demo_cond demo_cond_lists COND ACTIVE [1000; 1048] [2000]
    demo_cond_rep demo_cond_waits) as (h' & s' & E & Hr & E1 & E2 & _); [evaluates|].
  exists h', s'. split; [exact E|]. split; [exact Hr|]. split; [exact E1|exact E2].
Defined.

Lemma co_cond_broadcast_correct_witness :
  ∃ h' s', co_cond_broadcast 3 COND ACTIVE demo_cond = Some h' ∧ rep h' s' ∧
    ls s' !! COND = Some [] ∧ ls s' !! ACTIVE = Some [2000; 1024; 1072].
Proof.
  destruct (co_cond_broadcast_correct (H:=heap) demo_cond demo_cond_lists COND ACTIVE [1000; 1048] [2000]
    demo_cond_rep demo_cond_waits) as (h' & s' & E & Hr & E1 & E2 & _); [evaluates|].
  exists h', s'. split; [exact E|]. split; [exact Hr|]. split; [exact E1|exact E2].
Defined.

Lemma co_cond_timedwait_correct_witness :
  ∃ ret h' s', co_cond_timedwait 100 500 2 1000 demo_wheel demo_heap = Some (ret, demo_wheel, h') ∧
    rep h' s' ∧ ret = 0 ∧ ls s' !! 100 = Some [500].
Proof.
  destruct (co_cond_timedwait_correct (H:=heap) demo_heap demo_lists 100 500 2 1000 demo_wheel (demo_exp 1002) [])
    as (ret & h' & s' & E & Hr & E1 & E2 & _);
    [exact demo_rep|decides|decides|evaluates|unfold is_slot; simpl; lia|apply demo_inv|evaluates|simpl; lia..|].
  rewrite decide_False in E1 by (simpl; lia). rewrite E1, decide_True in E2 by done.
  exists ret, h', s'. split; [exact E|]. split; [exact Hr|]. split; [exact E1|exact E2].
Defined.
