(* ===== verification/Poll.v ===== *)
(** * poll for coroutines (libco/co_routine.cpp)

    [co_poll_inner], which registers descriptors with the epoll of the thread
    and an item in the time wheel and then yields, [OnPollPreparePfn], which the
    event loop calls for each reported event, and the part of [co_eventloop]
    that fills the list of active items.  An [stPoll_t] at [arg] is a node of the
    intrusive lists; its items are numbered. *)

From S2P Require Import Prelude LinkList Timeout CoCond.

Local Open Scope Z_scope.
Local Open Scope cint_scope.

(** ** Events

    The flags of [poll.h] and of [sys/epoll.h]. *)
Definition POLLIN : Z := 1.
Definition POLLOUT : Z := 4.
Definition POLLERR : Z := 8.
Definition POLLHUP : Z := 16.
Definition POLLRDNORM : Z := 64.
Definition POLLWRNORM : Z := 256.
Definition EPOLLIN : Z := 1.
Definition EPOLLOUT : Z := 4.
Definition EPOLLERR : Z := 8.
Definition EPOLLHUP : Z := 16.
Definition EPOLLRDNORM : Z := 64.
Definition EPOLLWRNORM : Z := 256.

Definition has (events flag : Z) : bool := bool_decide (Z.land events flag ≠ 0).

Definition PollEvent2Epoll (events : Z) : Z :=
  let e := 0 in
  let e := if has events POLLIN then Z.lor e EPOLLIN else e in
  let e := if has events POLLOUT then Z.lor e EPOLLOUT else e in
  let e := if has events POLLHUP then Z.lor e EPOLLHUP else e in
  let e := if has events POLLERR then Z.lor e EPOLLERR else e in
  let e := if has events POLLRDNORM then Z.lor e EPOLLRDNORM else e in
  let e := if has events POLLWRNORM then Z.lor e EPOLLWRNORM else e in
  e.

Definition EpollEvent2Poll (events : Z) : Z :=
  let e := 0 in
  let e := if has events EPOLLIN then Z.lor e POLLIN else e in
  let e := if has events EPOLLOUT then Z.lor e POLLOUT else e in
  let e := if has events EPOLLHUP then Z.lor e POLLHUP else e in
  let e := if has events EPOLLERR then Z.lor e POLLERR else e in
  let e := if has events EPOLLRDNORM then Z.lor e POLLRDNORM else e in
  let e := if has events EPOLLWRNORM then Z.lor e POLLWRNORM else e in
  e.

(** ** Data *)

Record pollfd := Pollfd { pf_fd : Z; pf_events : Z; pf_revents : Z }.

(** [p_revents] is the [revents] of [arg.fds], whose other fields stay 0. *)
Record stPoll_t := Poll {
  p_revents : list Z;
  iAllEventDetach : bool;
  iRaiseCnt : Z;
  pArg : nat;
}.

(** [stCoEpoll_t], with the store of the lists, the live [stPoll_t] and the
    interest list of the kernel: descriptor, events and [data.ptr]. *)
Record stCoEpoll_t (H : Type) := CoEpoll {
  pTimeout : stTimeout_t;
  store : H;
  polls : gmap addr stPoll_t;
  interest : gmap Z (Z * (addr * nat));
  pstActiveList : addr;
  pstTimeoutList : addr;
}.
Arguments CoEpoll {_} _ _ _ _ _ _.
Arguments pTimeout {_} _.
Arguments store {_} _.
Arguments polls {_} _.
Arguments interest {_} _.
Arguments pstActiveList {_} _.
Arguments pstTimeoutList {_} _.

Definition eMaxTimeout : Z := 40 * 1000.
Definition EPERM : Z := 1.
Definition EEXIST : Z := 17.
Definition LINE_poll_fails : Z := 1248.

(** What the first half of [co_poll_inner] does: it calls the system's [poll],
    returns an error, or yields. *)
Inductive started (H : Type) :=
  | UsePoll (c : stCoEpoll_t H)
  | Fails (ret : Z) (c : stCoEpoll_t H)
  | Waits (c : stCoEpoll_t H).
Arguments UsePoll {_} _.
Arguments Fails {_} _ _.
Arguments Waits {_} _.

(** ** Operations *)

Section ops.
Context {H : Type} `{LinkOps H}.

(** The error with which the system refuses to watch a descriptor. *)
Context (refuse : Z → option Z).

Notation ctx := (stCoEpoll_t H).

Definition set_polls (p : gmap addr stPoll_t) (c : ctx) : ctx :=
  CoEpoll (pTimeout c) (store c) p (interest c) (pstActiveList c) (pstTimeoutList c).
Definition set_interest (k : gmap Z (Z * (addr * nat))) (c : ctx) : ctx :=
  CoEpoll (pTimeout c) (store c) (polls c) k (pstActiveList c) (pstTimeoutList c).
Definition set_lists (t : stTimeout_t) (h : H) (c : ctx) : ctx :=
  CoEpoll t h (polls c) (interest c) (pstActiveList c) (pstTimeoutList c).

Definition AllocEpoll (base active timeouts now : Z) (h : H) : option ctx :=
  '(t, h) ← AllocTimeout base (60 * 1000) now h;
  h ← op_new_link active h;
  h ← op_new_link timeouts h;
  Some (CoEpoll t h ∅ ∅ active timeouts).

(** [co_epoll_ctl(EPOLL_CTL_ADD)]: the error, if any. *)
Definition epoll_add (fd events : Z) (ptr : addr * nat) (k : gmap Z (Z * (addr * nat)))
    : option Z * gmap Z (Z * (addr * nat)) :=
  match refuse fd, k !! fd with
  | Some e, _ => (Some e, k)
  | None, Some _ => (Some EEXIST, k)
  | None, None => (None, <[fd := (events, ptr)]> k)
  end.

(** The loop that registers the descriptors from number [i] on; [inl] is the
    return through [pollfunc]. *)
Fixpoint add_fds (arg : addr) (nfds : nat) (pollfunc : bool) (i : nat) (fds : list pollfd)
    (k : gmap Z (Z * (addr * nat))) : gmap Z (Z * (addr * nat)) + gmap Z (Z * (addr * nat)) :=
  match fds with
  | [] => inr k
  | f :: fds =>
      if decide (-1 < pf_fd f) then
        let '(e, k) := epoll_add (pf_fd f) (PollEvent2Epoll (pf_events f)) (arg, i) k in
        if bool_decide (e = Some EPERM) && bool_decide (nfds = 1%nat) && pollfunc then inl k
        else add_fds arg nfds pollfunc (S i) fds k
      else add_fds arg nfds pollfunc (S i) fds k
  end.

(** [co_poll_inner] up to its yield: [arg] is what [malloc] gave, [self] the
    coroutine and [now] the time.  The items that are freed on an error stay
    registered if they were. *)
Definition co_poll_inner (self : nat) (arg : addr) (fds : list pollfd) (timeout now : Z)
    (pollfunc : bool) (c : ctx) : option (started H) :=
  let timeout := if decide (eMaxTimeout < timeout) then eMaxTimeout else timeout in
  h ← op_new_node arg (store c);
  let c := set_lists (pTimeout c) h c in
  match add_fds arg (length fds) pollfunc 0 fds (interest c) with
  | inl k => Some (UsePoll (set_interest k c))
  | inr k =>
      let c := set_interest k c in
      '(ret, t, h) ← AddTimeout (pTimeout c) arg (u64 (now + timeout)) now (store c);
      let c := set_lists t h c in
      if decide (ret ≠ 0) then Some (Fails (- LINE_poll_fails) c)
      else Some (Waits (set_polls
             (<[arg := Poll (replicate (length fds) 0) false 0 self]> (polls c)) c))
  end.

(** The hooked [poll], and [co_poll], which has no system function to fall back
    on. *)
Definition poll (on : bool) (self : nat) (arg : addr) (fds : list pollfd) (timeout now : Z) (c : ctx)
    : option (started H) :=
  if on then co_poll_inner self arg fds timeout now true c else Some (UsePoll c).

Definition co_poll (self : nat) (arg : addr) (fds : list pollfd) (timeout now : Z) (c : ctx)
    : option (started H) :=
  co_poll_inner self arg fds timeout now false c.

(** A call for an item that was freed is a use after free. *)
Definition OnPollPreparePfn (ap : addr * nat) (events : Z) (c : ctx) : option ctx :=
  let '(arg, i) := ap in
  p ← polls c !! arg;
  guard (i < length (p_revents p))%nat;;
  let p' := Poll (<[i := EpollEvent2Poll events]> (p_revents p)) true (iRaiseCnt p + 1) (pArg p) in
  let c' := set_polls (<[arg := p']> (polls c)) c in
  if iAllEventDetach p then Some c'
  else
    h ← op_remove arg (store c');
    h ← op_add_tail (pstActiveList c') arg h;
    Some (set_lists (pTimeout c') h c').

Fixpoint prepare_all (evs : list ((addr * nat) * Z)) (c : ctx) : option ctx :=
  match evs with
  | [] => Some c
  | (ap, e) :: evs => c ← OnPollPreparePfn ap e c; prepare_all evs c
  end.

(** An iteration of [co_eventloop] up to the loop over the active items: [evs]
    is what [epoll_wait] reports.  The [memset] of the list of timeouts, which
    is empty then, would lose its items. *)
Definition gather (evs : list ((addr * nat) * Z)) (now : Z) (c : ctx) : option ctx :=
  o ← op_head (pstTimeoutList c) (store c);
  guard (o = None);;
  c ← prepare_all evs c;
  '(t, h) ← TakeAllTimeout (pTimeout c) now (pstTimeoutList c) (store c);
  h ← op_join (pstActiveList c) (pstTimeoutList c) h;
  Some (set_lists t h c).

(** One round of that loop: the coroutine that [OnPollProcessEvent] resumes. *)
Definition next_active (c : ctx) : option (option nat * ctx) :=
  o ← op_head (pstActiveList c) (store c);
  match o with
  | None => Some (None, c)
  | Some arg =>
      h ← op_pop_head (pstActiveList c) (store c);
      p ← polls c !! arg;
      Some (Some (pArg p), set_lists (pTimeout c) h c)
  end.

Definition delete_fds (fds : list pollfd) (k : gmap Z (Z * (addr * nat))) : gmap Z (Z * (addr * nat)) :=
  foldl (λ k f, if decide (-1 < pf_fd f) then delete (pf_fd f) k else k) k fds.

(** The second half of [co_poll_inner], when the coroutine is resumed: its
    result and [fds]. *)
Definition co_poll_inner_end (arg : addr) (fds : list pollfd) (c : ctx)
    : option (Z * list pollfd * ctx) :=
  p ← polls c !! arg;
  h ← op_remove arg (store c);
  let c := set_lists (pTimeout c) h c in
  let fds' := zip_with (λ f r, Pollfd (pf_fd f) (pf_events f) r) fds (p_revents p) in
  Some (iRaiseCnt p, fds', set_polls (delete arg (polls c)) (set_interest (delete_fds fds (interest c)) c)).
End ops.

(** The descriptors that [fds] watches. *)
Definition watched (fds : list pollfd) : list Z := filter (λ g, -1 < g) (pf_fd <$> fds).

(** The polls that the events [evs] concern, in the order of their first event,
    and the events of the items of [arg]. *)
Definition firsts (evs : list ((addr * nat) * Z)) : list addr :=
  foldl (λ l '((a, _), _), if decide (a ∈ l) then l else l ++ [a]) [] evs.
Definition events_of (arg : addr) (evs : list ((addr * nat) * Z)) : list (nat * Z) :=
  omap (λ '((a, i), e), if decide (a = arg) then Some (i, e) else None) evs.

(** A poll after its events. *)
Definition raise1 (p : stPoll_t) (ev : nat * Z) : stPoll_t :=
  Poll (<[ev.1 := Z.land ev.2 349]> (p_revents p)) true (iRaiseCnt p + 1) (pArg p).
Definition raised (arg : addr) (evs : list ((addr * nat) * Z)) (p : stPoll_t) : stPoll_t :=
  foldl raise1 p (events_of arg evs).

(** The events belong to polls that wait. *)
Definition waiting (P : gmap addr stPoll_t) (s : lists) (evs : list ((addr * nat) * Z)) : Prop :=
  Forall (λ '((a, i), _), a ∈ its s ∧ ∃ p, P !! a = Some p ∧ iAllEventDetach p = false ∧
    (i < length (p_revents p))%nat) evs.

(** The context represents the lists [s]. *)
Definition ctx_rep {H : Type} `{LinkLaws H} (c : stCoEpoll_t H) (exp : addr → Z) (s : lists) : Prop :=
  rep (store c) s ∧ wheel_inv (pTimeout c) exp s ∧ pstActiveList c ≠ pstTimeoutList c ∧
  ¬ is_slot (pTimeout c) (pstActiveList c) ∧ ¬ is_slot (pTimeout c) (pstTimeoutList c) ∧
  ls s !! pstTimeoutList c = Some [] ∧ pstActiveList c ∈ dom (ls s).

(** Two coroutines that poll: the items 7 and 8 of the wheel of [demo_lists]; 100
    is the active list and 200 the list of timeouts. *)
Definition demo_poll_cmds : list cmd := demo_setup ++ [CNewLink 200].
Definition demo_poll_heap : heap := default empty_heap (run_cmds demo_poll_cmds empty_heap).
Definition demo_poll_lists : lists := spec_cmds demo_poll_cmds empty_lists.
Definition demo_ctx : stCoEpoll_t heap :=
  CoEpoll demo_wheel demo_poll_heap
    {[7 := Poll [0; 0] false 0 3%nat; 8 := Poll [0] false 0 4%nat]} ∅ 100 200.

(** ** Events *)

Lemma has_testbit e k : 0 ≤ k → has e (2 ^ k) = Z.testbit e k.
Proof.
  intros Hk. unfold has. destruct (Z.testbit e k) eqn:E.
  - apply bool_decide_eq_true_2. intros Hz. apply (f_equal (λ z, Z.testbit z k)) in Hz.
    rewrite Z.land_spec, E, Z.pow2_bits_true, Z.bits_0 in Hz by done. done.
  - apply bool_decide_eq_false_2. intros Hz. apply Hz. apply Z.bits_inj'. intros j Hj.
    rewrite Z.land_spec, Z.bits_0. destruct (decide (j = k)) as [->|]; [by rewrite E|].
    by rewrite Z.pow2_bits_false, andb_false_r.
Qed.

Lemma land_pow2 e k : 0 ≤ k → Z.land e (2 ^ k) = if Z.testbit e k then 2 ^ k else 0.
Proof.
  intros Hk. apply Z.bits_inj'. intros j Hj. rewrite Z.land_spec.
  destruct (decide (j = k)) as [->|].
  - rewrite Z.pow2_bits_true, andb_true_r by done. destruct (Z.testbit e k); [by rewrite Z.pow2_bits_true|by rewrite Z.bits_0].
  - rewrite Z.pow2_bits_false, andb_false_r by done. destruct (Z.testbit e k); [by rewrite Z.pow2_bits_false|by rewrite Z.bits_0].
Qed.

(** Both conversions keep the six flags and drop the rest. *)
Lemma event_mask e :
  PollEvent2Epoll e = Z.land e 349 ∧ EpollEvent2Poll e = Z.land e 349.
Proof.
  assert (E : Z.land e 349 = Z.lor (Z.lor (Z.lor (Z.lor (Z.lor (Z.land e (2 ^ 0)) (Z.land e (2 ^ 2))) (Z.land e (2 ^ 4)))
    (Z.land e (2 ^ 3))) (Z.land e (2 ^ 6))) (Z.land e (2 ^ 8))).
  { by rewrite <-!Z.land_lor_distr_r. }
  rewrite E, !land_pow2 by lia.
  assert (Hb : has e 1 = Z.testbit e 0 ∧ has e 4 = Z.testbit e 2 ∧ has e 16 = Z.testbit e 4 ∧
    has e 8 = Z.testbit e 3 ∧ has e 64 = Z.testbit e 6 ∧ has e 256 = Z.testbit e 8).
  { split_and!; [exact (has_testbit e 0 ltac:(lia))|exact (has_testbit e 2 ltac:(lia))|exact (has_testbit e 4 ltac:(lia))
      |exact (has_testbit e 3 ltac:(lia))|exact (has_testbit e 6 ltac:(lia))|exact (has_testbit e 8 ltac:(lia))]. }
  unfold PollEvent2Epoll, EpollEvent2Poll, POLLIN, POLLOUT, POLLHUP, POLLERR, POLLRDNORM, POLLWRNORM,
    EPOLLIN, EPOLLOUT, EPOLLHUP, EPOLLERR, EPOLLRDNORM, EPOLLWRNORM.
  destruct Hb as (-> & -> & -> & -> & -> & ->).
  split; destruct (Z.testbit e 0), (Z.testbit e 2), (Z.testbit e 4), (Z.testbit e 3), (Z.testbit e 6), (Z.testbit e 8);
    reflexivity.
Qed.

(** ** The interest list *)

Lemma watched_cons f fds : watched (f :: fds) = if decide (-1 < pf_fd f) then pf_fd f :: watched fds else watched fds.
Proof. unfold watched. csimpl. by rewrite filter_cons. Qed.

Lemma add_fds_spec refuse arg nfds pf fds : ∀ i k,
  NoDup (watched fds) → (∀ g, g ∈ watched fds → refuse g = None ∧ k !! g = None) →
  ∃ k', add_fds refuse arg nfds pf i fds k = inr k' ∧
    (∀ j f, fds !! j = Some f → -1 < pf_fd f →
      k' !! pf_fd f = Some (PollEvent2Epoll (pf_events f), (arg, (i + j)%nat))) ∧
    (∀ g, g ∉ watched fds → k' !! g = k !! g).
Proof.
  induction fds as [|f fds IH]; intros i k Hnd Hok; [by exists k|]. cbn [add_fds].
  rewrite watched_cons in *. case_decide as Hf.
  - destruct (Hok (pf_fd f)) as [Hr Hk]; [left|]. unfold epoll_add. rewrite Hr, Hk.
    rewrite bool_decide_eq_false_2 by done. cbn [andb].
    apply NoDup_cons in Hnd as [Hnf Hnd].
    destruct (IH (S i) (<[pf_fd f := (PollEvent2Epoll (pf_events f), (arg, i))]> k) Hnd) as (k' & -> & H1 & H2).
    { intros g Hg. destruct (Hok g) as [??]; [by right|]. rewrite lookup_insert_ne; [done|by intros <-]. }
    exists k'. split; [done|]. split.
    + intros [|j] f' Hj Hf'; simplify_eq/=.
      * rewrite H2, lookup_insert_eq by done. by rewrite Nat.add_0_r.
      * rewrite (H1 j f' Hj Hf'). do 3 f_equal. lia.
    + intros g [Hg1 Hg2]%not_elem_of_cons. rewrite H2, lookup_insert_ne by done. done.
  - destruct (IH (S i) k Hnd Hok) as (k' & -> & H1 & H2). exists k'. split; [done|]. split; [|done].
    intros [|j] f' Hj Hf'; simplify_eq/=; [done|]. rewrite (H1 j f' Hj Hf'). do 3 f_equal. lia.
Qed.

Lemma delete_fds_spec fds : ∀ k g,
  delete_fds fds k !! g = if decide (g ∈ watched fds) then None else k !! g.
Proof.
  induction fds as [|f fds IH]; intros k g; [done|].
  change (delete_fds (f :: fds) k) with (delete_fds fds (if decide (-1 < pf_fd f) then delete (pf_fd f) k else k)).
  rewrite IH, watched_cons. destruct (decide (-1 < pf_fd f)) as [Hf|Hf]; [|done].
  destruct (decide (g ∈ watched fds)) as [Hg|Hg].
  - by rewrite decide_True by (by right).
  - destruct (decide (g = pf_fd f)) as [->|Hne].
    + by rewrite lookup_delete_eq, decide_True by left.
    + rewrite lookup_delete_ne, decide_False; [done| |done]. by intros [?|?]%elem_of_cons.
Qed.

(** ** Raising events *)

Section laws.
Context {H : Type} `{LinkLaws H}.
Implicit Type c : stCoEpoll_t H.

Lemma in_wheel_move t act x s y :
  ¬ is_slot t act → in_wheel t (add_tail_spec act x (remove_spec x s)) y ↔ in_wheel t s y ∧ y ≠ x.
Proof.
  intros Ha. unfold in_wheel. split.
  - intros (a & xs & Hs & Hl & Hy). rewrite move_spec_lookup in Hl.
    destruct (ls s !! a) as [ys|] eqn:Hys; simplify_eq/=. rewrite decide_False in Hy by (by intros ->).
    rewrite app_nil_r in Hy. apply list_elem_of_filter in Hy as [Hne Hy]. split; [by exists a, ys|done].
  - intros [(a & xs & Hs & Hl & Hy) Hne]. exists a, (filter (λ z, z ≠ x) xs). split; [done|].
    rewrite move_spec_lookup, Hl, decide_False by (by intros ->). simpl. rewrite app_nil_r. split; [done|].
    by apply list_elem_of_filter.
Qed.

Lemma wheel_inv_move t exp act x s :
  ¬ is_slot t act → wheel_inv t exp s → wheel_inv t exp (add_tail_spec act x (remove_spec x s)).
Proof.
  intros Ha [? ? ? Hslots Hitems]. split; [done..| |].
  - intros a Hs. apply elem_of_dom. rewrite move_spec_lookup. apply Hslots, elem_of_dom in Hs as [ys ->]. by eexists.
  - intros a xs y Hs Hl Hy. rewrite move_spec_lookup in Hl.
    destruct (ls s !! a) as [ys|] eqn:Hys; simplify_eq/=. rewrite decide_False in Hy by (by intros ->).
    rewrite app_nil_r in Hy. apply list_elem_of_filter in Hy as [_ Hy]. by eapply Hitems.
Qed.

Lemma firsts_snoc evs a i e :
  firsts (evs ++ [((a, i), e)]) = if decide (a ∈ firsts evs) then firsts evs else firsts evs ++ [a].
Proof. unfold firsts. by rewrite foldl_app. Qed.

Lemma firsts_events a evs : a ∈ firsts evs ↔ events_of a evs ≠ [].
Proof.
  induction evs as [|[[b i] e] evs IH] using rev_ind; [set_solver|].
  rewrite firsts_snoc. unfold events_of in *. rewrite omap_app. simpl.
  destruct (decide (b = a)) as [->|Hne].
  - split; [intros _ Hn; by apply app_nil in Hn as [_ ?]|intros _]. case_decide; set_solver.
  - rewrite app_nil_r, <-IH. case_decide; set_solver.
Qed.

Lemma raised_snoc a b i e evs p :
  raised a (evs ++ [((b, i), e)]) p = if decide (b = a) then raise1 (raised a evs p) (i, e) else raised a evs p.
Proof.
  unfold raised, events_of. rewrite omap_app. simpl. case_decide; by rewrite foldl_app.
Qed.

Lemma raised_fields a evs p :
  length (p_revents (raised a evs p)) = length (p_revents p) ∧
  iAllEventDetach (raised a evs p) = (if decide (events_of a evs = []) then iAllEventDetach p else true) ∧
  iRaiseCnt (raised a evs p) = iRaiseCnt p + Z.of_nat (length (events_of a evs)) ∧
  pArg (raised a evs p) = pArg p.
Proof.
  unfold raised. generalize (events_of a evs). intros l. clear evs. revert p.
  induction l as [|x l IH]; intros p; [simpl; by rewrite Z.add_0_r|].
  change (foldl raise1 p (x :: l)) with (foldl raise1 (raise1 p x) l).
  destruct (IH (raise1 p x)) as (-> & -> & -> & ->). simpl. rewrite length_insert. split_and!; [done| |lia|done].
  by case_decide.
Qed.

Lemma prepare_app evs1 evs2 c :
  prepare_all (evs1 ++ evs2) c = c ← prepare_all evs1 c; prepare_all evs2 c.
Proof.
  revert c. induction evs1 as [|[ap e] evs1 IH]; intros c; [done|]. cbn [prepare_all app].
  destruct (OnPollPreparePfn ap e c); [apply IH|done].
Qed.

(** The data of the polls after one more event. *)
Lemma raised_insert evs a i e p (P : gmap addr stPoll_t) :
  P !! a = Some p →
  <[a := Poll (<[i := EpollEvent2Poll e]> (p_revents (raised a evs p))) true
           (iRaiseCnt (raised a evs p) + 1) (pArg (raised a evs p))]>
    (map_imap (λ a p, Some (raised a evs p)) P) =
  map_imap (λ b p, Some (raised b (evs ++ [((a, i), e)]) p)) P.
Proof.
  intros Hp. apply map_eq. intros b. rewrite map_lookup_imap. destruct (decide (b = a)) as [->|Hne].
  - rewrite lookup_insert_eq, Hp. cbn [mbind option_bind]. rewrite raised_snoc, decide_True by done.
    unfold raise1. by rewrite (proj2 (event_mask e)).
  - rewrite lookup_insert_ne, map_lookup_imap by done. destruct (_ !! b); [|done]. cbn [mbind option_bind].
    by rewrite raised_snoc, decide_False by done.
Qed.

(** What the reported events do: every poll they concern is moved to the active
    items once, and gets its events. *)
Lemma prepare_all_spec exp evs c s :
  rep (store c) s → wheel_inv (pTimeout c) exp s → ¬ is_slot (pTimeout c) (pstActiveList c) →
  pstActiveList c ∈ dom (ls s) → waiting (polls c) s evs →
  ∃ h' s', prepare_all evs c =
      Some (set_lists (pTimeout c) h' (set_polls (map_imap (λ a p, Some (raised a evs p)) (polls c)) c)) ∧
    rep h' s' ∧ wheel_inv (pTimeout c) exp s' ∧ its s' = its s ∧
    (∀ k, ls s' !! k = (λ xs, filter (.∉ firsts evs) xs ++
                          (if decide (k = pstActiveList c) then firsts evs else [])) <$> ls s !! k) ∧
    (∀ y, in_wheel (pTimeout c) s' y ↔ in_wheel (pTimeout c) s y ∧ y ∉ firsts evs).
Proof.
  intros Hr Hw Hna Hact. induction evs as [|[[a i] e] evs IH] using rev_ind; intros Hev.
  - exists (store c), s. split_and!; [|done..| |].
    + simpl. f_equal. destruct c. unfold set_lists, set_polls. simpl. f_equal.
      apply map_eq. intros a. rewrite map_lookup_imap. by destruct (_ !! a).
    + intros k. destruct (ls s !! k); [|done]. simpl. f_equal. rewrite filter_all; [by case_decide; rewrite app_nil_r|].
      set_solver.
    + set_solver.
  - apply Forall_app in Hev as [Hev [(Ha & p & Hp & Hd & Hi) _]%Forall_cons].
    destruct (IH Hev) as (h' & s' & E & Hr' & Hw' & Hits & Hls & Hin).
    rewrite prepare_app, E. cbn [mbind option_bind prepare_all]. unfold OnPollPreparePfn.
    simpl polls. rewrite map_lookup_imap, Hp. cbn [mbind option_bind].
    destruct (raised_fields a evs p) as (Hlen & Hdt & Hcnt & Harg).
    rewrite option_guard_True by by rewrite Hlen. cbn [mbind option_bind]. rewrite Hdt, Hd.
    pose proof (raised_insert evs a i e p (polls c) Hp) as Hpolls.
    destruct (decide (events_of a evs = [])) as [Hno|Hyes].
    + assert (Hnf : a ∉ firsts evs) by (rewrite firsts_events; tauto).
      destruct (co_move_rep h' s' (pstActiveList c) a Hr') as (h1 & h2 & E1 & E2 & Hr2).
      { apply elem_of_dom. rewrite Hls. apply elem_of_dom in Hact as [xs ->]. by eexists. }
      { by rewrite Hits. }
      simpl. rewrite E1. simpl. rewrite E2. simpl. eexists h2, _. split_and!.
      * rewrite Hpolls. done.
      * exact Hr2.
      * by apply wheel_inv_move.
      * by rewrite move_spec_its.
      * intros k. rewrite move_spec_lookup, Hls, firsts_snoc, (decide_False (P := a ∈ firsts evs)) by exact Hnf.
        destruct (ls s !! k) as [xs|]; [|done]. simpl. f_equal.
        rewrite filter_app, list_filter_filter. case_decide; simpl.
        -- rewrite (filter_all _ (firsts evs)) by set_solver. rewrite <-app_assoc. f_equal.
           apply list_filter_iff. set_solver.
        -- rewrite !app_nil_r. apply list_filter_iff. set_solver.
      * intros y. rewrite (in_wheel_move _ _ _ _ _ Hna), Hin, firsts_snoc, (decide_False (P := a ∈ firsts evs)) by exact Hnf. set_solver.
    + assert (Hf : a ∈ firsts evs) by by rewrite firsts_events.
      eexists h', s'. rewrite firsts_snoc, (decide_True (P := a ∈ firsts evs)) by exact Hf. split_and!; [|done..].
      simpl. rewrite Hpolls. done.
Qed.

Lemma TakeAllTimeout_slots t now r h t' h' :
  TakeAllTimeout t now r h = Some (t', h') → pItems t' = pItems t ∧ iItemSize t' = iItemSize t.
Proof.
  unfold TakeAllTimeout, wheel_init. cbv zeta. intros E.
  repeat case_decide; simplify_option_eq; done.
Qed.

(** The index of the wheel moves by no more than the time. *)
Lemma TakeAllTimeout_index t now r h t' h' : 0 < ullStart t ≤ now → now < ullStart t + 2 ^ 31 - 1 → 0 < iItemSize t →
  0 ≤ llStartIdx t → llStartIdx t + iItemSize t ≤ 2 ^ 62 →
  TakeAllTimeout t now r h = Some (t', h') → llStartIdx t' ≤ llStartIdx t + (now - ullStart t).
Proof.
  intros Hs Hn Hz Hi Hb. unfold TakeAllTimeout. rewrite wheel_init_id by lia. cbv zeta. rewrite decide_False by lia.
  rewrite (wrapu_id 64 (now - ullStart t)), (wrapu_id 64), (wraps_id 32) by lia.
  set (cnt := if decide (iItemSize t < now - ullStart t + 1) then _ else _). assert (0 ≤ cnt ≤ iItemSize t ∧ cnt ≤ now - ullStart t + 1) as (? & ?) by (unfold cnt; case_decide; lia).
  rewrite decide_False by lia. intros E. destruct (take_slots _ _ _ _ _); [|done]. cbn [mbind option_bind] in E. injection E as <- _.
  simpl. rewrite wraps_id by lia. lia.
Qed.

Lemma prepare_all_wheel evs : ∀ c c', prepare_all evs c = Some c' → pTimeout c' = pTimeout c.
Proof.
  induction evs as [|[[arg i] e] evs IH]; intros c c' E; cbn [prepare_all] in E; [by injection E as <-|].
  destruct (OnPollPreparePfn _ _ _) as [c1|] eqn:E1; [|done]. rewrite (IH c1 c' E). clear IH E.
  unfold OnPollPreparePfn in E1. by repeat (case_match || case_guard || simplify_option_eq).
Qed.

Lemma gather_index evs now c c' : 0 < ullStart (pTimeout c) ≤ now → now < ullStart (pTimeout c) + 2 ^ 31 - 1 →
  0 < iItemSize (pTimeout c) → 0 ≤ llStartIdx (pTimeout c) → llStartIdx (pTimeout c) + iItemSize (pTimeout c) ≤ 2 ^ 62 →
  gather evs now c = Some c' → llStartIdx (pTimeout c') ≤ llStartIdx (pTimeout c) + (now - ullStart (pTimeout c)).
Proof.
  intros Hs Hn Hz Hi Hb E. unfold gather in E. destruct (op_head _ _) as [o|]; [|done]. cbn [mbind option_bind] in E.
  case_guard; [|done]. cbn [mbind option_bind] in E. destruct (prepare_all evs c) as [c1|] eqn:E1; [|done]. cbn [mbind option_bind] in E.
  apply prepare_all_wheel in E1. destruct (TakeAllTimeout _ _ _ _) as [[t h]|] eqn:E2; [|done]. cbn [mbind option_bind] in E.
  destruct (op_join _ _ _); [|done]. cbn [mbind option_bind] in E. injection E as <-. simpl. rewrite E1 in E2.
  by apply (TakeAllTimeout_index _ _ _ _ _ _ Hs Hn Hz Hi Hb E2).
Qed.

Lemma is_slot_eq t t' a : pItems t' = pItems t → iItemSize t' = iItemSize t → is_slot t' a ↔ is_slot t a.
Proof. unfold is_slot. by intros -> ->. Qed.

(** A file that cannot be watched is left to the system's [poll]; [co_poll]
    waits for its timeout only. *)
Lemma poll_regular_file refuse self arg f timeout now c s exp :
  ctx_rep c exp s → arg ∉ its s → -1 < pf_fd f → refuse (pf_fd f) = Some EPERM →
  (∃ c', poll refuse true self arg [f] timeout now c = Some (UsePoll c') ∧
    interest c' = interest c ∧ polls c' = polls c ∧ pTimeout c' = pTimeout c ∧
    rep (store c') (new_node_spec arg s)) ∧
  ∀ r, co_poll refuse self arg [f] timeout now c = Some r →
    match r with
    | UsePoll _ => False
    | Fails _ c' | Waits c' => interest c' = interest c
    end.
Proof.
  intros (Hr & _) Ha Hf Hp. unfold poll, co_poll, co_poll_inner.
  destruct (op_new_node_law (store c) s arg Hr Ha) as (h & E & Hr'). rewrite E. cbn [mbind option_bind add_fds].
  assert (Hadd : ∀ b, (if decide (-1 < pf_fd f) then
      let '(e, k) := epoll_add refuse (pf_fd f) (PollEvent2Epoll (pf_events f)) (arg, 0%nat) (interest c) in
      if bool_decide (e = Some EPERM) && bool_decide (length [f] = 1%nat) && b then inl k else inr k
    else inr (interest c)) = (if b then inl (interest c) else inr (interest c) : _ + _)).
  { intros b. rewrite decide_True by done. unfold epoll_add. rewrite Hp. by destruct b. }
  simpl interest. split.
  - rewrite Hadd. eexists. split; [done|]. done.
  - intros r. rewrite Hadd. cbn [mbind option_bind]. intros Hres.
    destruct (AddTimeout _ _ _ _ _) as [[[ret t] h2]|]; [|done]. cbn [mbind option_bind] in Hres.
    revert Hres. destruct (decide (ret ≠ 0)); intros [= <-]; done.
Qed.

Lemma set_items_spec s s' act tmo xs ys :
  act ≠ tmo → ls s !! act = Some xs → ls s !! tmo = Some ys → s' = join_spec act tmo s →
  ls s' !! act = Some (xs ++ ys) ∧ ls s' !! tmo = Some [] ∧
  (∀ k, k ≠ act → k ≠ tmo → ls s' !! k = ls s !! k) ∧ its s' = its s.
Proof.
  intros Hne Ha Ht ->. pose proof (join_spec_lookup act tmo xs ys s) as Hj. split_and!; [..|done].
  - rewrite Hj by done. by rewrite decide_False, decide_True by done.
  - rewrite Hj by done. by rewrite decide_True by done.
  - intros k ??. rewrite Hj by done. by rewrite !decide_False by done.
Qed.

(** Lists outside the wheel do not matter to it. *)
Lemma wheel_inv_frame t exp s s' :
  (∀ k, is_slot t k → ls s' !! k = ls s !! k) → wheel_inv t exp s →
  wheel_inv t exp s' ∧ ∀ y, in_wheel t s' y ↔ in_wheel t s y.
Proof.
  intros Hk [? ? ? Hslots Hitems]. split; [split; [done..| |]|].
  - intros a Ha. apply elem_of_dom. rewrite Hk by done. by apply elem_of_dom, Hslots.
  - intros a xs x Ha. rewrite Hk by done. by apply Hitems.
  - intros y. unfold in_wheel. split; intros (a & xs & Ha & Hl & Hy); exists a, xs; rewrite ?Hk in * by done; done.
Qed.

(** The resumed half of [co_poll_inner]. *)
Lemma co_poll_inner_end_spec arg fds c s p :
  rep (store c) s → arg ∈ its s → polls c !! arg = Some p → length (p_revents p) = length fds →
  ∃ c', co_poll_inner_end arg fds c =
      Some (iRaiseCnt p, zip_with (λ f r, Pollfd (pf_fd f) (pf_events f) r) fds (p_revents p), c') ∧
    rep (store c') (remove_spec arg s) ∧ ¬ linked (remove_spec arg s) arg ∧
    polls c' = delete arg (polls c) ∧
    (∀ g, interest c' !! g = if decide (g ∈ watched fds) then None else interest c !! g) ∧
    pTimeout c' = pTimeout c ∧ pstActiveList c' = pstActiveList c ∧ pstTimeoutList c' = pstTimeoutList c.
Proof.
  intros Hr Ha Hp Hlen. unfold co_poll_inner_end. rewrite Hp. cbn [mbind option_bind].
  destruct (op_remove_law (store c) s arg Hr Ha) as (h' & -> & Hr'). cbn [mbind option_bind].
  eexists. split; [done|]. split_and!; [done|apply remove_spec_free|done| |done..]. intros g. apply delete_fds_spec.
Qed.

Lemma co_poll_inner_spec refuse self arg fds timeout now pollfunc c s exp :
  ctx_rep c exp s → arg ∉ its s → NoDup (watched fds) →
  (∀ g, g ∈ watched fds → refuse g = None ∧ interest c !! g = None) →
  0 ≤ timeout → exp arg = now + Z.min timeout 40000 →
  ullStart (pTimeout c) ≤ now → exp arg < ullStart (pTimeout c) + 2 ^ 31 → now + 40000 < 2 ^ 64 →
  let fits := bool_decide (exp arg < ullStart (pTimeout c) + iItemSize (pTimeout c)) in
  ∃ c' s',
    co_poll_inner refuse self arg fds timeout now pollfunc c =
      Some (if fits then Waits c' else Fails (-1248) c') ∧
    ctx_rep c' exp s' ∧
    (∀ j f, fds !! j = Some f → -1 < pf_fd f →
      interest c' !! pf_fd f = Some (Z.land (pf_events f) 349, (arg, j))) ∧
    (∀ g, g ∉ watched fds → interest c' !! g = interest c !! g) ∧
    polls c' = (if fits then <[arg := Poll (replicate (length fds) 0) false 0 self]> (polls c) else polls c) ∧
    (∀ y, in_wheel (pTimeout c) s' y ↔ fits ∧ y = arg ∨ in_wheel (pTimeout c) s y) ∧
    pTimeout c' = pTimeout c ∧ pstActiveList c' = pstActiveList c ∧ pstTimeoutList c' = pstTimeoutList c ∧
    its s' = {[arg]} ∪ its s ∧
    (∀ k, ¬ is_slot (pTimeout c) k → ls s' !! k = ls s !! k).
Proof.
  intros (Hr & Hw & Hne & Hsa & Hst & Ht & Hact) Harg Hnd Hok Ht0 Hexp Hnow Hbig Hu fits.
  pose proof (wi_start _ _ _ Hw) as Hstart.
  unfold co_poll_inner. cbv zeta.
  destruct (op_new_node_law (store c) s arg Hr Harg) as (h1 & -> & Hr1). cbn [mbind option_bind].
  destruct (add_fds_spec refuse arg (length fds) pollfunc fds 0 (interest c) Hnd Hok) as (k' & E & Hk & Hk').
  simpl interest. rewrite E.
  assert (Hmin : (if decide (eMaxTimeout < timeout) then eMaxTimeout else timeout) = Z.min timeout 40000).
  { unfold eMaxTimeout. case_decide; lia. }
  rewrite Hmin, wrapu_id, <-Hexp by lia. simpl pTimeout. simpl store.
  assert (Hnl : ¬ linked (new_node_spec arg s) arg) by by apply (unlinked_fresh (store c)).
  destruct (AddTimeout_spec (pTimeout c) exp h1 (new_node_spec arg s) arg now Hr1) as (_ & _ & Hfar & Hfit);
    [by split; apply Hw|set_solver|done|done|].
  assert (Hev : ∀ j f, fds !! j = Some f → -1 < pf_fd f →
    k' !! pf_fd f = Some (Z.land (pf_events f) 349, (arg, j))).
  { intros j f Hj Hf. by rewrite (Hk j f Hj Hf), (proj1 (event_mask _)). }
  unfold fits. clear fits. case_bool_decide as Hb.
  - destruct Hfit as (h2 & -> & Hr2 & Hw2 & Hin); [lia|done|]. cbn [mbind option_bind].
    rewrite decide_False by lia. eexists _, (add_tail_spec _ arg (new_node_spec arg s)).
    assert (Hls : ∀ k, ¬ is_slot (pTimeout c) k →
      ls (add_tail_spec (slot_of (pTimeout c) (exp arg)) arg (new_node_spec arg s)) !! k = ls s !! k).
    { intros k Hk1. unfold add_tail_spec. rewrite decide_False by done. simpl.
      apply lookup_alter_ne. intros <-. apply Hk1, slot_of_is_slot. pose proof (wi_size _ _ _ Hw). lia. }
    split; [done|]. split_and!; [|done|done|done| |done|done|done| |exact Hls].
    + split_and!; simpl; [exact Hr2|exact Hw2|done..| |].
      * by rewrite Hls. * apply elem_of_dom. rewrite Hls by done. by apply elem_of_dom.
    + intros y. rewrite Hin. simpl. unfold in_wheel. simpl. naive_solver.
    + unfold add_tail_spec. by rewrite decide_False.
  - rewrite Hfar by lia. cbn [mbind option_bind]. rewrite decide_True by done.
    eexists _, (new_node_spec arg s). split; [done|]. split_and!; [|done..| |done|done|done|done|done].
    + split_and!; simpl; [exact Hr1|by split; apply Hw|done..].
    + intros y. unfold in_wheel. simpl. naive_solver.
Qed.

Lemma next_active_spec c s x xs p :
  rep (store c) s → ls s !! pstActiveList c = Some (x :: xs) → polls c !! x = Some p →
  ∃ h', next_active c = Some (Some (pArg p), set_lists (pTimeout c) h' c) ∧ rep h' (pop_head_spec (pstActiveList c) s).
Proof.
  intros Hr Hl Hp. unfold next_active. rewrite (op_head_law _ _ _ _ Hr Hl). cbn [mbind option_bind hd_or].
  destruct (op_pop_head_law (store c) s (pstActiveList c) Hr) as (h' & -> & Hr'); [by apply elem_of_dom; rewrite Hl|].
  cbn [mbind option_bind]. rewrite Hp. cbn [mbind option_bind]. by exists h'.
Qed.

Lemma gather_spec exp evs now c s acts :
  ctx_rep c exp s → waiting (polls c) s evs → ls s !! pstActiveList c = Some acts →
  ullStart (pTimeout c) ≤ now < ullStart (pTimeout c) + 2 ^ 31 - 1 → now < 2 ^ 63 →
  llStartIdx (pTimeout c) + iItemSize (pTimeout c) ≤ 2 ^ 62 →
  ∃ t' h' s' taken,
    let c' := set_lists t' h' (set_polls (map_imap (λ a p, Some (raised a evs p)) (polls c)) c) in
    gather evs now c = Some c' ∧ ctx_rep c' exp s' ∧ its s' = its s ∧
    ls s' !! pstActiveList c = Some (filter (.∉ firsts evs) acts ++ firsts evs ++ taken) ∧
    (∀ x, x ∈ taken ↔ in_wheel (pTimeout c) s x ∧ x ∉ firsts evs ∧ exp x ≤ now) ∧
    StronglySorted (λ x y, exp x ≤ exp y) taken ∧
    (∀ x, in_wheel t' s' x ↔ in_wheel (pTimeout c) s x ∧ x ∉ firsts evs ∧ now < exp x) ∧
    ullStart t' = now ∧ iItemSize t' = iItemSize (pTimeout c).
Proof.
  intros (Hr & Hw & Hne & Hsa & Hst & Ht & Hact) Hev Hacts Hnow Hn63 Hidx.
  destruct (prepare_all_spec exp evs c s Hr Hw Hsa Hact Hev) as (h1 & s1 & E1 & Hr1 & Hw1 & Hits1 & Hls1 & Hin1).
  assert (Ht1 : ls s1 !! pstTimeoutList c = Some []).
  { rewrite Hls1, Ht. simpl. by rewrite decide_False. }
  destruct (TakeAllTimeout_spec (pTimeout c) exp h1 s1 (pstTimeoutList c) [] now)
    as (t2 & h2 & s2 & taken & E2 & Hr2 & Hw2 & Hstart & Hits2 & Htk & Htaken & Hsort & Hin2 & Hls2); [done..|].
  destruct (TakeAllTimeout_slots _ _ _ _ _ _ E2) as [Ep Es].
  assert (Ha2 : ls s2 !! pstActiveList c = Some (filter (.∉ firsts evs) acts ++ firsts evs)).
  { rewrite Hls2, Hls1, Hacts by done. simpl. by rewrite decide_True. }
  destruct (op_join_law h2 s2 (pstActiveList c) (pstTimeoutList c) Hr2) as (h3 & E3 & Hr3);
    [by apply elem_of_dom; rewrite Ha2|by apply elem_of_dom; rewrite Htk|done|].
  destruct (set_items_spec s2 _ _ _ _ _ Hne Ha2 Htk eq_refl) as (Ha3 & Ht3 & Hk3 & Hits3).
  destruct (wheel_inv_frame t2 exp s2 (join_spec (pstActiveList c) (pstTimeoutList c) s2)) as [Hw3 Hin3]; [|done|].
  { intros k Hk. apply Hk3; intros ->; rewrite (is_slot_eq _ _ _ Ep Es) in Hk; done. }
  unfold gather. rewrite (op_head_law _ _ _ _ Hr Ht). cbn [mbind option_bind].
  rewrite option_guard_True by done. cbn [mbind option_bind]. rewrite E1. cbn [mbind option_bind].
  simpl pTimeout. simpl pstTimeoutList. simpl store. rewrite E2. cbn [mbind option_bind].
  simpl pstActiveList. rewrite E3. cbn [mbind option_bind].
  eexists _, _, _, taken. split; [done|]. split_and!.
  - split_and!; simpl; [exact Hr3|exact Hw3|done| | |exact Ht3|by apply elem_of_dom; rewrite Ha3];
      by rewrite (is_slot_eq _ _ _ Ep Es).
  - by rewrite Hits3, Hits2.
  - by rewrite Ha3, <-app_assoc.
  - intros x. rewrite Htaken, Hin1. tauto.
  - done.
  - intros x. simpl. rewrite Hin3, Hin2, Hin1. tauto.
  - done.
  - done.
Qed.

(** C10.  A call of [co_poll_inner] by the coroutine [self] registers every
    descriptor that is not negative, for exactly the requested events among
    the six it knows and with a pointer to its own item, and leaves the other
    registrations alone.  It then waits with its item in the time wheel for
    [timeout] ms, at most 40 s; only when that time is beyond the wheel's reach
    (the wheel has not turned for more than 20 s) does it return an error
    instead. *)
Theorem co_poll_registers refuse self arg fds timeout now pollfunc c s exp :
  ctx_rep c exp s → arg ∉ its s → NoDup (watched fds) →
  (∀ g, g ∈ watched fds → refuse g = None ∧ interest c !! g = None) →
  0 ≤ timeout → exp arg = now + Z.min timeout 40000 →
  ullStart (pTimeout c) ≤ now → exp arg < ullStart (pTimeout c) + 2 ^ 31 → now + 40000 < 2 ^ 64 →
  let fits := bool_decide (exp arg < ullStart (pTimeout c) + iItemSize (pTimeout c)) in
  ∃ c' s',
    co_poll_inner refuse self arg fds timeout now pollfunc c =
      Some (if fits then Waits c' else Fails (-1248) c') ∧
    ctx_rep c' exp s' ∧
    (∀ j f, fds !! j = Some f → -1 < pf_fd f →
      interest c' !! pf_fd f = Some (Z.land (pf_events f) 349, (arg, j))) ∧
    (∀ g, g ∉ watched fds → interest c' !! g = interest c !! g) ∧
    polls c' = (if fits then <[arg := Poll (replicate (length fds) 0) false 0 self]> (polls c) else polls c) ∧
    (∀ y, in_wheel (pTimeout c) s' y ↔ fits ∧ y = arg ∨ in_wheel (pTimeout c) s y) ∧
    pTimeout c' = pTimeout c ∧ its s' = {[arg]} ∪ its s ∧
    (∀ k, ¬ is_slot (pTimeout c) k → ls s' !! k = ls s !! k).
Proof.
  intros A1 H2 H3 H4 H5 H6 H7 H8 H9 fits.
  destruct (co_poll_inner_spec refuse self arg fds timeout now pollfunc c s exp A1 H2 H3 H4 H5 H6 H7 H8 H9)
    as (c' & s' & G1 & G2 & G3 & G4 & G5 & G6 & G7 & _ & _ & G8 & G9). by exists c', s'.
Qed.

(** An iteration of the event loop that receives the events [evs] at time
    [now] makes active, once each and in the order of the first events, exactly
    the polls that they concern, and after these, in order of expiry, the items
    whose time has come; a poll that an event has raised does not also time
    out.  An active item resumes the coroutine that waits in it.  When the coroutine of a poll is resumed, [co_poll_inner] returns the
    number of its events (0 after a timeout) with the events of each
    descriptor, and leaves nothing behind: its descriptors are no longer
    watched and its item is in no list. *)
Theorem poll_wakes_and_returns exp evs now c s acts :
  ctx_rep c exp s → waiting (polls c) s evs → ls s !! pstActiveList c = Some acts →
  ullStart (pTimeout c) ≤ now < ullStart (pTimeout c) + 2 ^ 31 - 1 → now < 2 ^ 63 →
  llStartIdx (pTimeout c) + iItemSize (pTimeout c) ≤ 2 ^ 62 →
  ∃ c' s' taken,
    gather evs now c = Some c' ∧ ctx_rep c' exp s' ∧ its s' = its s ∧ interest c' = interest c ∧
    ls s' !! pstActiveList c = Some (filter (.∉ firsts evs) acts ++ firsts evs ++ taken) ∧
    (∀ x, x ∈ taken ↔ in_wheel (pTimeout c) s x ∧ x ∉ firsts evs ∧ exp x ≤ now) ∧
    StronglySorted (λ x y, exp x ≤ exp y) taken ∧
    (∀ x, in_wheel (pTimeout c') s' x ↔ in_wheel (pTimeout c) s x ∧ x ∉ firsts evs ∧ now < exp x) ∧
    (∀ c3 s3 x xs p, rep (store c3) s3 → ls s3 !! pstActiveList c3 = Some (x :: xs) → polls c3 !! x = Some p →
      ∃ c4, next_active c3 = Some (Some (pArg p), c4) ∧
        rep (store c4) (pop_head_spec (pstActiveList c3) s3) ∧ polls c4 = polls c3 ∧ interest c4 = interest c3) ∧
    ∀ arg fds self c3 s3,
      polls c !! arg = Some (Poll (replicate (length fds) 0) false 0 self) →
      rep (store c3) s3 → arg ∈ its s3 → polls c3 !! arg = polls c' !! arg →
      ∃ c4, co_poll_inner_end arg fds c3 =
          Some (Z.of_nat (length (events_of arg evs)),
                zip_with (λ f r, Pollfd (pf_fd f) (pf_events f) r) fds
                  (p_revents (raised arg evs (Poll (replicate (length fds) 0) false 0 self))), c4) ∧
        rep (store c4) (remove_spec arg s3) ∧ ¬ linked (remove_spec arg s3) arg ∧
        polls c4 = delete arg (polls c3) ∧
        (∀ g, interest c4 !! g = if decide (g ∈ watched fds) then None else interest c3 !! g).
Proof.
  intros Hc Hev Hacts Hnow Hn63 Hidx.
  destruct (gather_spec exp evs now c s acts Hc Hev Hacts Hnow Hn63 Hidx)
    as (t' & h' & s' & taken & E & Hc' & Hits & Ha & Htaken & Hsort & Hin & _).
  eexists _, s', taken. split; [exact E|]. split_and!; [exact Hc'|done|done|done|done|done|done| |].
  - intros c3 s3 x xs p Hr3 Hl3 Hp3. destruct (next_active_spec c3 s3 x xs p Hr3 Hl3 Hp3) as (h3 & E3 & Hr4).
    by eexists.
  - intros arg fds self c3 s3 Hp Hr4 Harg Hp3. simpl in Hp3. rewrite map_lookup_imap, Hp in Hp3.
    cbn [mbind option_bind] in Hp3.
    destruct (raised_fields arg evs (Poll (replicate (length fds) 0) false 0 self)) as (Hlen & _ & Hcnt & _).
    destruct (co_poll_inner_end_spec arg fds c3 s3 _ Hr4 Harg Hp3) as (c4 & E4 & Hc4).
    { rewrite Hlen. apply length_replicate. }
    exists c4. split; [by rewrite E4, Hcnt|]. destruct Hc4 as (? & ? & ? & ? & _). done.
Qed.
End laws.

(** ** Witnesses *)

Lemma demo_poll_rep : rep demo_poll_heap demo_poll_lists.
Proof.
  destruct (run_cmds_rep demo_poll_cmds empty_heap empty_lists) as (h & Hh & Hr);
    [apply empty_represents|by vm_compute|].
  unfold demo_poll_heap. rewrite Hh. exact Hr.
Qed.

Lemma demo_poll_ctx e9 : ctx_rep demo_ctx (demo_exp e9) demo_poll_lists.
Proof.
  split; [exact demo_poll_rep|]. split.
  { apply (wheel_inv_frame demo_wheel (demo_exp e9) demo_lists); [|apply demo_inv].
    apply demo_slots; by vm_compute. }
  split; [done|]. split; [unfold is_slot; simpl; lia|]. split; [unfold is_slot; simpl; lia|].
  split; [evaluates|]. apply elem_of_dom. exists []. evaluates.
Qed.

Lemma co_poll_registers_witness :
  ∃ c' s', co_poll_inner (λ _, None) 3 500 [Pollfd 5 POLLIN 0; Pollfd (-1) 0 0] 2 1001 true demo_ctx =
      Some (Waits c') ∧ interest c' !! 5 = Some (1, (500, 0%nat)) ∧ in_wheel demo_wheel s' 500.
Proof.
  destruct (co_poll_registers (H:=heap) (λ _, None) 3 500 [Pollfd 5 POLLIN 0; Pollfd (-1) 0 0] 2 1001 true
    demo_ctx demo_poll_lists (demo_exp 1003) (demo_poll_ctx 1003))
    as (c' & s' & E & _ & Hi & _ & _ & Hin & _);
    [decides|decides| |done|evaluates|simpl; lia|evaluates|done|].
  { intros g _. split; [done|apply lookup_empty]. }
  exists c', s'. split; [exact E|]. split; [exact (Hi 0%nat _ eq_refl eq_refl)|].
  apply Hin. left. split; [evaluates|done].
Defined.

Lemma poll_wakes_and_returns_witness :
  ∃ c' s' taken, gather [((7, 1%nat), 16)] 1003 demo_ctx = Some c' ∧
    ls s' !! 100 = Some (7 :: taken) ∧ 8 ∈ taken ∧ 7 ∉ taken ∧
    ∃ c4, co_poll_inner_end 7 [Pollfd 5 1 0; Pollfd 6 1 0] (set_lists demo_wheel demo_poll_heap c') =
      Some (1, [Pollfd 5 1 0; Pollfd 6 1 16], c4).
Proof.
  destruct (poll_wakes_and_returns (H:=heap) (demo_exp 1003) [((7, 1%nat), 16)] 1003 demo_ctx demo_poll_lists []
    (demo_poll_ctx 1003)) as (c' & s' & tk & E & _ & _ & _ & Ha & Htk & _ & _ & _ & Hend);
    [|evaluates|simpl; lia|lia|simpl; lia|].
  { constructor; [|constructor]. split; [decides|]. exists (Poll [0; 0] false 0 3).
    split; [evaluates|]. split; [done|simpl; lia]. }
  exists c', s', tk. split; [exact E|]. split; [exact Ha|]. split; [|split].
  - apply Htk. split; [|split; [decides|done]]. exists 1, [8].
    split; [unfold is_slot; simpl; lia|]. split; [evaluates|left].
  - intros Hx. apply Htk in Hx as (_ & Hx & _). apply Hx. decides.
  - destruct (Hend 7 [Pollfd 5 1 0; Pollfd 6 1 0] 3%nat (set_lists demo_wheel demo_poll_heap c') demo_poll_lists)
      as (c4 & E4 & _); [evaluates|exact demo_poll_rep|decides|done|].
    exists c4. exact E4.
Defined.
