(* ===== verification/CoroutinePool.v ===== *)
(** * The coroutine pool (CoroutinePool.cpp)

    [CoroutinePool] over any scheduler that implements [CondOps]: the task
    queue, the workers ([CoroutineFun]) that wait on the condition variable
    when the queue is empty, and [Run], which wakes a worker for each task and
    drives the event loop of libco until every worker waits again.  Workers are
    numbered in the order of their creation.

    The handler of a channel is given as a resumption: [start] runs
    [handle_event] until it returns or its coroutine yields, and [continue]
    runs the rest after a yield.  [epoll bs] is what [epoll_wait] reports when
    the workers [bs] are blocked; an iteration in which it reports nothing and
    no item is active changes no state and is left out. *)

From S2P Require Import Prelude LinkList CoCond.

Local Open Scope Z_scope.

(** [started] and [finished] record the history of the handlers. *)
Record pool (Q chan W K : Type) := Pool {
  co_num : Z;
  free_co_num : Z;
  task : list chan;
  coroutines : list nat;
  blocked : list (nat * (chan * K));
  cond : Q;
  world : W;
  hooked : bool;
  started : list chan;
  finished : list chan;
}.
Arguments Pool {_ _ _ _} _ _ _ _ _ _ _ _ _ _.
Arguments co_num {_ _ _ _} _.
Arguments free_co_num {_ _ _ _} _.
Arguments task {_ _ _ _} _.
Arguments coroutines {_ _ _ _} _.
Arguments blocked {_ _ _ _} _.
Arguments cond {_ _ _ _} _.
Arguments world {_ _ _ _} _.
Arguments hooked {_ _ _ _} _.
Arguments started {_ _ _ _} _.
Arguments finished {_ _ _ _} _.

Section pool.
Context {Q chan W K : Type} `{CondOps Q}.
Context (start : chan → W → W * option K) (continue : K → W → W * option K).
Context (epoll : list nat → W → list nat * W).

Notation pool := (pool Q chan W K).

(** [vector::reserve] throws for a negative size. *)
Definition CoroutinePool_new (coroutine_size : Z) (q : Q) (w : W) : option pool :=
  guard (0 ≤ coroutine_size);;
  Some (Pool coroutine_size 0 [] [] [] q w false [] []).

Definition PutTask (ch : chan) (st : pool) : pool :=
  Pool (co_num st) (free_co_num st) (task st ++ [ch]) (coroutines st) (blocked st)
    (cond st) (world st) (hooked st) (started st) (finished st).

(** [task.front] and [task.pop]. *)
Definition take_task (ch : chan) (ts : list chan) (st : pool) : pool :=
  Pool (co_num st) (free_co_num st) ts (coroutines st) (blocked st)
    (cond st) (world st) (hooked st) (started st ++ [ch]) (finished st).

(** The handler of [ch] has returned. *)
Definition handler_done (ch : chan) (w : W) (st : pool) : pool :=
  Pool (co_num st) (free_co_num st) (task st) (coroutines st) (blocked st)
    (cond st) w (hooked st) (started st) (finished st ++ [ch]).

(** The handler of [ch] has yielded in worker [i]. *)
Definition handler_yields (i : nat) (ch : chan) (k : K) (w : W) (st : pool) : pool :=
  Pool (co_num st) (free_co_num st) (task st) (coroutines st) (blocked st ++ [(i, (ch, k))])
    (cond st) w (hooked st) (started st) (finished st).

Definition unblock (i : nat) (st : pool) : pool :=
  Pool (co_num st) (free_co_num st) (task st) (coroutines st)
    (filter (λ b, b.1 ≠ i) (blocked st))
    (cond st) (world st) (hooked st) (started st) (finished st).

Definition set_cond (q : Q) (st : pool) : pool :=
  Pool (co_num st) (free_co_num st) (task st) (coroutines st) (blocked st)
    q (world st) (hooked st) (started st) (finished st).

Definition set_free (n : Z) (st : pool) : pool :=
  Pool (co_num st) n (task st) (coroutines st) (blocked st)
    (cond st) (world st) (hooked st) (started st) (finished st).

Definition set_world (w : W) (st : pool) : pool :=
  Pool (co_num st) (free_co_num st) (task st) (coroutines st) (blocked st)
    (cond st) w (hooked st) (started st) (finished st).

Definition set_hooked (b : bool) (st : pool) : pool :=
  Pool (co_num st) (free_co_num st) (task st) (coroutines st) (blocked st)
    (cond st) (world st) b (started st) (finished st).

(** The loop of worker [i] on the tasks of the queue, until it yields. *)
Fixpoint CoroutineFun (i : nat) (tasks : list chan) (st : pool) : option pool :=
  match tasks with
  | [] =>
      let st := set_free (free_co_num st + 1) st in
      q ← q_wait i (cond st);
      Some (set_cond q st)
  | ch :: tasks =>
      let st := take_task ch tasks st in
      match start ch (world st) with
      | (w, None) => CoroutineFun i tasks (handler_done ch w st)
      | (w, Some k) => Some (handler_yields i ch k w st)
      end
  end.

(** [co_resume] of worker [i]: it is in the middle of a handler or waits. *)
Definition resume (i : nat) (st : pool) : option pool :=
  match list_find (λ b, b.1 = i) (blocked st) with
  | Some (_, (_, (ch, k))) =>
      let st := unblock i st in
      match continue k (world st) with
      | (w, None) => CoroutineFun i (task st) (handler_done ch w st)
      | (w, Some k) => Some (handler_yields i ch k w st)
      end
  | None => CoroutineFun i (task st) st
  end.

(** The loop of [Start] from worker [i] on. *)
Fixpoint start_workers (n i : nat) (st : pool) : option pool :=
  match n with
  | O => Some st
  | S n =>
      st ← CoroutineFun i (task st)
             (Pool (co_num st) (free_co_num st) (task st) (coroutines st ++ [i]) (blocked st)
                (cond st) (world st) (hooked st) (started st) (finished st));
      start_workers n (S i) st
  end.

Definition Start (st : pool) : option pool := start_workers (Z.to_nat (co_num st)) 0 st.

Definition CheckFinish (st : pool) : Z :=
  if decide (free_co_num st ≠ co_num st) then 0 else -1.

(** [OnPollPreparePfn] on the reported events: a blocked worker becomes
    active once, however many of its events are reported. *)
Fixpoint raise_all (evs : list nat) (st : pool) : option pool :=
  match evs with
  | [] => Some st
  | i :: evs => q ← q_raise i (cond st); raise_all evs (set_cond q st)
  end.

Definition raised (evs : list nat) (st : pool) : list nat :=
  filter (λ i, i ∈ (blocked st).*1) (remove_dups evs).

(** The loop that resumes the active coroutines. *)
Fixpoint drain (fuel : nat) (st : pool) : option pool :=
  match fuel with
  | O => None
  | S fuel =>
      '(o, q) ← q_next (cond st);
      let st := set_cond q st in
      match o with
      | None => Some st
      | Some i => st ← resume i st; drain fuel st
      end
  end.

(** One iteration of [co_eventloop], up to its call of [pfn]. *)
Definition loop_once (fuel : nat) (st : pool) : option pool :=
  let '(evs, w) := epoll (blocked st).*1 (world st) in
  st ← raise_all (raised evs st) (set_world w st);
  drain fuel st.

(** [co_eventloop(ct, CheckFinish, this)]; the fuel bounds its iterations. *)
Fixpoint co_eventloop (drain_fuel fuel : nat) (st : pool) : option pool :=
  match fuel with
  | O => None
  | S fuel =>
      st ← loop_once drain_fuel st;
      if decide (CheckFinish st = -1) then Some st else co_eventloop drain_fuel fuel st
  end.

(** The inner loop of [Run]. *)
Fixpoint wake (task_size : nat) (st : pool) : option (nat * pool) :=
  match task_size with
  | O => Some (O, st)
  | S n =>
      if decide (0 < free_co_num st) then
        q ← q_signal (cond st);
        wake n (set_free (free_co_num st - 1) (set_cond q st))
      else Some (task_size, st)
  end.

(** Its outer loop. *)
Fixpoint run_loop (loop_fuel fuel task_size : nat) (st : pool) : option pool :=
  match task_size, fuel with
  | O, _ => Some st
  | _, O => None
  | _, S fuel =>
      '(task_size, st) ← wake task_size st;
      st ← (if decide (free_co_num st < co_num st)
            then co_eventloop loop_fuel loop_fuel st else Some st);
      run_loop loop_fuel fuel task_size st
  end.

Definition Run (fuel : nat) (st : pool) : option pool :=
  let st := set_hooked true st in
  st ← run_loop fuel fuel (length (task st)) st;
  Some (set_hooked false st).
End pool.

(** ** Well-formed pools

    [pool_inv n rs ws qs st]: of [n] workers those in [rs] run, those in [ws]
    wait in this order, those in [qs] are active in this order (woken, or
    blocked with an event), and the others are blocked in a handler. *)
Record pool_inv `{CondLaws Q} {chan W K : Type} (n : nat) (rs ws qs : list nat)
    (st : pool Q chan W K) : Prop := {
  pi_rep : q_rep (cond st) ws qs;
  pi_num : co_num st = Z.of_nat n;
  pi_free : free_co_num st = Z.of_nat (length ws);
  pi_part : rs ++ ws ++ filter (λ i, i ∉ (blocked st).*1) qs ++ (blocked st).*1 ≡ₚ seq 0 n;
  pi_nodup : NoDup qs;
  pi_done : finished st ++ (blocked st).*2.*1 ≡ₚ started st;
}.

(** Every worker waits. *)
Definition idle `{CondLaws Q} {chan W K : Type} (n : nat) (st : pool Q chan W K) : Prop :=
  ∃ ws, pool_inv n [] ws [] st ∧ blocked st = [].

(** The work left to the handlers that have yielded. *)
Definition work {Q chan W K : Type} (rank : K → nat) (st : pool Q chan W K) : nat :=
  sum_list ((λ b, S (rank b.2.2)) <$> blocked st).

(** [less rank st' st]: fewer tasks are left, or as many and less work. *)
Definition less {Q chan W K : Type} (rank : K → nat) (st' st : pool Q chan W K) : Prop :=
  (length (task st') < length (task st))%nat ∨
  length (task st') = length (task st) ∧ (work rank st' < work rank st)%nat.

(** The tasks keep their order, and the hook flag is not touched. *)
Definition same_run {Q chan W K : Type} (st' st : pool Q chan W K) : Prop :=
  started st' ++ task st' = started st ++ task st ∧ hooked st' = hooked st.

(** A worker that has stopped found no task or is blocked. *)
Definition drained {Q chan W K : Type} (st : pool Q chan W K) : Prop :=
  task st = [] ∨ blocked st ≠ [].

(** Nothing but the condition variable and the world changes. *)
Definition same_tasks {Q chan W K : Type} (st' st : pool Q chan W K) : Prop :=
  task st' = task st ∧ blocked st' = blocked st ∧ same_run st' st.

(** As much is left. *)
Definition same_left {Q chan W K : Type} (st' st : pool Q chan W K) : Prop :=
  length (task st') = length (task st) ∧ blocked st' = blocked st.

(** What a completed [co_eventloop] leaves. *)
Definition settled `{CondLaws Q} {chan W K : Type} (n : nat) (st' st : pool Q chan W K) : Prop :=
  idle n st' ∧ task st' = [] ∧ same_run st' st.

(** What the pool will have done when its queue is empty, if no handler yields:
    the world, and the handlers that have returned. *)
Definition outcome {Q chan W K : Type} (start : chan → W → W * option K) (st : pool Q chan W K)
    : W * list chan :=
  (foldl (λ w ch, (start ch w).1) (world st) (task st), finished st ++ task st).

(** A step that keeps the outcome and leaves nothing blocked. *)
Definition keeps {Q chan W K : Type} (start : chan → W → W * option K) (st' st : pool Q chan W K) : Prop :=
  blocked st = [] → blocked st' = [] ∧ outcome start st' = outcome start st.

(** A concrete pool: the handler of task [k] yields [k] times, and every
    blocked worker always has an event. *)
Definition demo_start (ch : nat) (w : list nat) : list nat * option nat :=
  (w ++ [ch], match ch with O => None | S k => Some k end).
Definition demo_continue (k : nat) (w : list nat) : list nat * option nat :=
  (w, match k with O => None | S k => Some k end).
Definition demo_epoll (bs : list nat) (w : list nat) : list nat * list nat := (bs, w).

Definition demo_direct (ch : nat) (w : list nat) : list nat * option nat := (w ++ [ch], None).

Definition demo_new : pool (condq heap) nat (list nat) nat :=
  Pool 2 0 [] [] [] empty_condq [] false [] [].
Definition demo_pool (tasks : list nat) : pool (condq heap) nat (list nat) nat :=
  foldl (λ st ch, PutTask ch st) (default demo_new (Start demo_start demo_new)) tasks.

(** ** Workers *)

Section workers.
Context `{CondLaws Q} {chan W K : Type}.
Context (start : chan → W → W * option K) (continue : K → W → W * option K).
Context (rank : K → nat).
Context (continue_rank : ∀ k w k', (continue k w).2 = Some k' → (rank k' < rank k)%nat).

Lemma fst_app_split {A B} (xs ys : list (A * B)) : (xs ++ ys).*1 = xs.*1 ++ ys.*1.
Proof. apply fmap_app. Qed.

Lemma CoroutineFun_spec n i tasks ws qs (st : pool Q chan W K) :
  pool_inv n [i] ws qs st → i ∉ qs → task st = tasks →
  ∃ st' ws', CoroutineFun start i tasks st = Some st' ∧ pool_inv n [] ws' qs st' ∧
    same_run st' st ∧ drained st' ∧
    ((length (task st') < length (task st))%nat ∨
     task st = [] ∧ task st' = [] ∧ blocked st' = blocked st).
Proof.
  revert st. induction tasks as [|ch tasks IH]; intros st Hi Hni Ht; simpl.
  - destruct (q_wait_law _ _ _ i (pi_rep _ _ _ _ _ Hi)) as (q & -> & Hq). simpl.
    eexists _, (ws ++ [i]). split; [done|].
    split; [|split; [done|split; [by left|right; done]]].
    split; simpl; try apply Hi; [done| |].
    + rewrite (pi_free _ _ _ _ _ Hi), length_app. simpl. lia.
    + rewrite <-(pi_part _ _ _ _ _ Hi). simpl. rewrite <-app_assoc. simpl.
      symmetry. apply Permutation_middle.
  - destruct (start ch (world st)) as [w [k|]] eqn:Hs.
    + eexists _, ws. split; [done|].
      split; [|split; [|split; [right; simpl; by destruct (blocked st)|left; simpl; rewrite Ht; simpl; lia]]].
      * split; simpl; try apply Hi.
        -- rewrite fmap_app. simpl. rewrite <-(pi_part _ _ _ _ _ Hi). simpl.
           assert (Hf : filter (λ j, j ∉ (blocked st).*1 ++ [i]) qs = filter (λ j, j ∉ (blocked st).*1) qs).
           { apply filter_ext_in. set_solver. }
           rewrite Hf, !app_assoc. symmetry. apply Permutation_cons_append.
        -- rewrite !fmap_app. simpl. rewrite app_assoc. by rewrite (pi_done _ _ _ _ _ Hi).
      * split; [|done]. simpl. by rewrite Ht, <-app_assoc.
    + destruct (IH (handler_done ch w (take_task ch tasks st))) as (st' & ws' & Heq & Hi' & Hr & Hd & Hm).
      * split; simpl; try apply Hi.
        rewrite <-app_assoc. simpl. rewrite (Permutation_cons_append _ ch), app_assoc.
        by rewrite (pi_done _ _ _ _ _ Hi).
      * done.
      * done.
      * exists st', ws'. split_and!; try done.
        -- destruct Hr as [Hr1 Hr2]. split; [|done]. rewrite Hr1. simpl. by rewrite Ht, <-app_assoc.
        -- left. rewrite Ht. simpl. simpl in Hm. destruct Hm as [?|(? & -> & ?)]; simpl; lia.
Qed.

Lemma blocked_nodup n rs ws qs (st : pool Q chan W K) :
  pool_inv n rs ws qs st → NoDup (rs ++ ws ++ filter (λ i, i ∉ (blocked st).*1) qs ++ (blocked st).*1).
Proof. intros Hi. rewrite (pi_part _ _ _ _ _ Hi). apply NoDup_seq. Qed.

Lemma unblock_middle i x (bs1 bs2 : list (nat * (chan * K))) :
  NoDup (bs1 ++ (i, x) :: bs2).*1 →
  filter (λ b, b.1 ≠ i) (bs1 ++ (i, x) :: bs2) = bs1 ++ bs2.
Proof.
  rewrite fmap_app. simpl. intros (Hn1 & Hd & Hn2)%NoDup_app.
  apply NoDup_cons in Hn2 as [Hn2 _].
  rewrite filter_app, filter_cons_False by naive_solver.
  rewrite !filter_all; [done|..]; intros [j y] Hj Hji; simpl in Hji; subst j.
  - apply Hn2. apply list_elem_of_fmap. by exists (i, y).
  - apply (Hd i); [|left]. apply list_elem_of_fmap. by exists (i, y).
Qed.

Lemma find_blocked i (bs : list (nat * (chan * K))) :
  i ∈ bs.*1 → ∃ bs1 x bs2, bs = bs1 ++ (i, x) :: bs2 ∧ i ∉ bs1.*1 ∧
    list_find (λ b, b.1 = i) bs = Some (length bs1, (i, x)).
Proof.
  induction bs as [|[j y] bs IH]; simpl; [intros []%not_elem_of_nil|].
  destruct (decide (j = i)) as [->|Hne].
  - intros _. exists [], y, bs. split_and!; [done|set_solver|]. done.
  - intros [Heq|Hin]%elem_of_cons; [congruence|].
    destruct (IH Hin) as (bs1 & x & bs2 & -> & Hni & Hf).
    exists ((j, y) :: bs1), x, bs2. split_and!; [done|set_solver|].
    by rewrite Hf.
Qed.

Lemma find_not_blocked i (bs : list (nat * (chan * K))) :
  i ∉ bs.*1 → list_find (λ b, b.1 = i) bs = None.
Proof.
  intros Hn. apply list_find_None, Forall_forall. intros [j y] Hj Hji. simpl in Hji. subst j. apply Hn.
  apply list_elem_of_fmap. by exists (i, y).
Qed.

Lemma work_app bs1 bs2 (st : pool Q chan W K) :
  blocked st = bs1 ++ bs2 →
  work rank st = (sum_list ((λ b, S (rank b.2.2)) <$> bs1) + sum_list ((λ b, S (rank b.2.2)) <$> bs2))%nat.
Proof. intros Hb. unfold work. rewrite Hb, fmap_app. by rewrite sum_list_app. Qed.

(** Resuming the first active worker. *)
(** The handler of the resumed worker yields again. *)
Lemma resume_yields_spec n ws i qs (st : pool Q chan W K) q bs1 ch k bs2 w k' :
  pool_inv n [] ws (i :: qs) st → q_rep q ws qs → blocked st = bs1 ++ (i, (ch, k)) :: bs2 →
  continue k (world st) = (w, Some k') → NoDup qs → NoDup (blocked st).*1 →
  let st' := handler_yields i ch k' w (unblock i (set_cond q st)) in
  pool_inv n [] ws qs st' ∧ same_run st' st ∧ drained st' ∧ less rank st' st.
Proof.
  intros Hi Hq Heq Hc Hnd Hbn. pose proof (pi_part _ _ _ _ _ Hi) as Hpart. simpl in Hpart.
  rewrite filter_cons_False in Hpart by (rewrite Heq, fmap_app; set_solver).
  rewrite Heq, fmap_app, fmap_cons in Hpart. cbn [fst] in Hpart.
  pose proof (pi_done _ _ _ _ _ Hi) as Hdone. rewrite Heq, !fmap_app in Hdone. simpl in Hdone.
  unfold unblock. simpl. rewrite Heq, unblock_middle by (by rewrite <-Heq).
  assert (Hp' : ws ++ filter (λ j, j ∉ ((bs1 ++ bs2) ++ [(i, (ch, k'))]).*1) qs ++ ((bs1 ++ bs2) ++ [(i, (ch, k'))]).*1 ≡ₚ seq 0 n).
  { rewrite <-Hpart. f_equiv. f_equiv.
    - rewrite (filter_ext_in _ (λ j, j ∉ bs1.*1 ++ i :: bs2.*1)); [done|].
      intros x Hx. rewrite !fmap_app. simpl. set_solver.
    - rewrite !fmap_app. csimpl. rewrite <-app_assoc. f_equiv. symmetry. apply Permutation_cons_append. }
  split; [|split; [done|split; [right; simpl; by destruct (bs1 ++ bs2)|right; split; [done|]]]].
  - split; simpl; try apply Hi; [done|done|done|].
    rewrite <-Hdone, !fmap_app. simpl. rewrite <-app_assoc. do 2 f_equiv.
    symmetry. apply Permutation_cons_append.
  - rewrite (work_app bs1 ((i, (ch, k)) :: bs2) st) by done.
    erewrite work_app by (simpl; reflexivity). rewrite fmap_app, sum_list_app. csimpl.
    assert (rank k' < rank k)%nat by (eapply continue_rank; by rewrite Hc). lia.
Qed.

(** The handler of the resumed worker returns, and the worker goes on. *)
Lemma resume_returns_spec n ws i qs (st : pool Q chan W K) q bs1 ch k bs2 w :
  pool_inv n [] ws (i :: qs) st → q_rep q ws qs → blocked st = bs1 ++ (i, (ch, k)) :: bs2 →
  NoDup qs → NoDup (blocked st).*1 → i ∉ qs →
  ∃ st' ws', CoroutineFun start i (task st) (handler_done ch w (unblock i (set_cond q st))) = Some st' ∧
    pool_inv n [] ws' qs st' ∧ same_run st' st ∧ drained st' ∧ less rank st' st.
Proof.
  intros Hi Hq Heq Hnd Hbn Hni. pose proof (pi_part _ _ _ _ _ Hi) as Hpart. simpl in Hpart.
  rewrite filter_cons_False in Hpart by (rewrite Heq, fmap_app; set_solver).
  rewrite Heq, fmap_app, fmap_cons in Hpart. cbn [fst] in Hpart.
  pose proof (pi_done _ _ _ _ _ Hi) as Hdone. rewrite Heq, !fmap_app in Hdone. simpl in Hdone.
  unfold unblock. simpl. rewrite Heq, unblock_middle by (by rewrite <-Heq). set (st0 := handler_done ch w _).
  assert (Hfe : filter (λ j, j ∉ (bs1 ++ bs2).*1) qs = filter (λ j, j ∉ bs1.*1 ++ i :: bs2.*1) qs).
  { apply filter_ext_in. intros x Hx. rewrite !fmap_app. set_solver. }
  destruct (CoroutineFun_spec n i (task st) ws qs st0) as (st' & ws' & -> & Hi' & [Hr1 Hr2] & Hd & Hm).
  - split; simpl; try apply Hi; [done| |done|].
    + rewrite Hfe, <-Hpart, fmap_app, !app_assoc. apply Permutation_middle.
    + rewrite <-Hdone, !fmap_app, <-!app_assoc. simpl. f_equiv. by rewrite Permutation_middle.
  - done.
  - done.
  - exists st', ws'. split_and!; [done|done|by split|done|]. simpl in Hm.
    destruct Hm as [?|(Ht & Ht' & Hb')]; [by left|right]. rewrite Ht, Ht'. split; [done|].
    rewrite (work_app bs1 ((i, (ch, k)) :: bs2) st) by done.
    rewrite (work_app bs1 bs2 st') by done. csimpl. lia.
Qed.

Lemma resume_spec n ws i qs (st : pool Q chan W K) q :
  pool_inv n [] ws (i :: qs) st → q_rep q ws qs →
  ∃ st' ws', resume start continue i (set_cond q st) = Some st' ∧ pool_inv n [] ws' qs st' ∧
    same_run st' st ∧ drained st' ∧
    (less rank st' st ∨ i ∉ (blocked st).*1 ∧ length (task st') = length (task st) ∧ blocked st' = blocked st).
Proof.
  intros Hi Hq. pose proof (pi_nodup _ _ _ _ _ Hi) as [Hni Hnd]%NoDup_cons.
  pose proof (blocked_nodup _ _ _ _ _ Hi) as Hbn. simpl in Hbn.
  apply NoDup_app in Hbn as (_ & _ & (_ & _ & Hbn)%NoDup_app). unfold resume.
  destruct (decide (i ∈ (blocked st).*1)) as [Hb|Hb].
  - destruct (find_blocked i (blocked st) Hb) as (bs1 & [ch k] & bs2 & Heq & _ & Hf). simpl. rewrite Hf.
    destruct (continue k (world st)) as [w [k'|]] eqn:Hc.
    + destruct (resume_yields_spec n ws i qs st q bs1 ch k bs2 w k') as (H1 & H2 & H3 & H4); [done..|].
      eexists _, ws. split; [done|]. split_and!; [done..|by left].
    + destruct (resume_returns_spec n ws i qs st q bs1 ch k bs2 w) as (st' & ws' & E & H1 & H2 & H3 & H4); [done..|].
      exists st', ws'. split_and!; [done..|by left].
  - simpl. rewrite (find_not_blocked i _ Hb).
    pose proof (pi_part _ _ _ _ _ Hi) as Hpart. simpl in Hpart.
    rewrite filter_cons_True in Hpart by done. simpl in Hpart.
    destruct (CoroutineFun_spec n i (task st) ws qs (set_cond q st)) as (st' & ws' & -> & Hi' & [Hr1 Hr2] & Hd & Hm).
    + split; simpl; try apply Hi; [done| |done]. rewrite <-Hpart. apply Permutation_middle.
    + done.
    + done.
    + exists st', ws'. split_and!; [done|done|by split|done|]. simpl in Hm.
      destruct Hm as [?|(Ht & Ht' & Hb')]; [left; by left|right]. by rewrite Ht, Ht'.
Qed.
End workers.

(** ** The event loop *)

Section loop.
Context `{CondLaws Q} {chan W K : Type}.
Context (start : chan → W → W * option K) (continue : K → W → W * option K).
Context (epoll : list nat → W → list nat * W) (rank : K → nat).
Context (continue_rank : ∀ k w k', (continue k w).2 = Some k' → (rank k' < rank k)%nat).
Context (epoll_wakes : ∀ bs w, bs ≠ [] → ∃ i, i ∈ (epoll bs w).1 ∧ i ∈ bs).

Lemma raise_all_spec n ws qs evs (st : pool Q chan W K) :
  pool_inv n [] ws qs st → NoDup (qs ++ evs) → (∀ i, i ∈ evs → i ∈ (blocked st).*1) →
  ∃ st', raise_all evs st = Some st' ∧ pool_inv n [] ws (qs ++ evs) st' ∧ same_tasks st' st.
Proof.
  revert qs st. induction evs as [|i evs IH]; intros qs st Hi Hnd Hb; simpl.
  - exists st. rewrite app_nil_r. by split_and!.
  - destruct (q_raise_law _ _ _ i (pi_rep _ _ _ _ _ Hi)) as (q & -> & Hq). simpl.
    assert (Hfi : filter (λ j, j ∉ (blocked st).*1) [i] = []).
    { rewrite filter_cons_False; [done|]. intros Hn. apply Hn, Hb. left. }
    destruct (IH (qs ++ [i]) (set_cond q st)) as (st' & Heq & Hi' & Hs).
    + split; simpl; try apply Hi; [done| |].
      * by rewrite filter_app, Hfi, app_nil_r, <-(pi_part _ _ _ _ _ Hi).
      * change (i :: evs) with ([i] ++ evs) in Hnd. rewrite app_assoc in Hnd. by apply NoDup_app in Hnd as [? _].
    + by rewrite <-app_assoc.
    + intros j Hj. apply Hb. by right.
    + exists st'. rewrite <-app_assoc in Hi'. split_and!; [done|done|exact Hs].
Qed.

Lemma less_trans st1 st2 st3 : less rank st1 st2 → less rank st2 st3 → less rank st1 (st3 : pool Q chan W K).
Proof. unfold less. lia. Qed.

Lemma less_left st1 st2 st3 : less rank st1 st2 → same_left st2 st3 → less rank st1 (st3 : pool Q chan W K).
Proof. unfold less, same_left, work. intros ? [<- <-]. done. Qed.

Lemma left_less st1 st2 st3 : same_left st1 st2 → less rank st2 st3 → less rank st1 (st3 : pool Q chan W K).
Proof. unfold less, same_left, work. by intros [-> ->]. Qed.

Lemma same_run_trans (st1 st2 st3 : pool Q chan W K) :
  same_run st1 st2 → same_run st2 st3 → same_run st1 st3.
Proof. unfold same_run. by intros [-> ->]. Qed.

Lemma drain_spec n ws qs fuel (st : pool Q chan W K) :
  pool_inv n [] ws qs st → (length qs < fuel)%nat →
  ∃ st' ws', drain start continue fuel st = Some st' ∧ pool_inv n [] ws' [] st' ∧
    same_run st' st ∧ (drained st ∨ qs ≠ [] → drained st') ∧
    (less rank st' st ∨ (∀ i, head qs = Some i → i ∉ (blocked st).*1) ∧ same_left st' st).
Proof.
  revert ws qs st. induction fuel as [|fuel IH]; intros ws qs st Hi Hf; [lia|]. simpl.
  destruct (q_next_law _ _ _ (pi_rep _ _ _ _ _ Hi)) as (q & -> & Hq). simpl.
  destruct qs as [|i qs]; simpl in *.
  { exists (set_cond q st), ws. split_and!; [done| |done| |right; by split_and!].
    - split; simpl; try apply Hi. done.
    - by intros [?|?]. }
  destruct (resume_spec start continue rank continue_rank _ _ _ _ _ _ Hi Hq)
    as (st1 & ws1 & -> & Hi1 & Hr1 & Hd1 & Hm1). simpl.
  destruct (IH ws1 qs st1 Hi1) as (st2 & ws2 & -> & Hi2 & Hr2 & Hd2 & Hm2); [lia|].
  exists st2, ws2. split_and!; [done|done|by eapply same_run_trans|by auto|].
  destruct Hm1 as [Hm1|(Hni & Hl1)], Hm2 as [Hm2|[_ Hl2]].
  - left. by eapply less_trans.
  - left. by eapply left_less.
  - left. by eapply less_left.
  - right. split; [by intros ? [= <-]|]. destruct Hl1, Hl2. split; congruence.
Qed.

(** An iteration with active workers outside their handlers, or none. *)
Lemma loop_once_spec n ws qs fuel (st : pool Q chan W K) :
  pool_inv n [] ws qs st → (∀ i, i ∈ qs → i ∉ (blocked st).*1) → (n < fuel)%nat →
  qs ≠ [] ∨ blocked st ≠ [] →
  ∃ st' ws', loop_once start continue epoll fuel st = Some st' ∧ pool_inv n [] ws' [] st' ∧
    same_run st' st ∧ drained st' ∧ (qs = [] → less rank st' st).
Proof.
  intros Hi Hq Hf Hne. unfold loop_once.
  destruct (epoll (blocked st).*1 (world st)) as [evs w] eqn:He.
  assert (Hr : ∀ i, i ∈ raised evs st ↔ i ∈ (blocked st).*1 ∧ i ∈ evs).
  { intros i. unfold raised. by rewrite list_elem_of_filter, elem_of_remove_dups. }
  set (rs := raised evs st) in *.
  assert (Hn : NoDup (qs ++ rs)).
  { apply NoDup_app. split_and!; [apply Hi| |apply NoDup_filter, NoDup_remove_dups].
    intros i Hiq (Hib & _)%Hr. by apply (Hq i). }
  destruct (raise_all_spec n ws qs rs (set_world w st)) as (st1 & -> & Hi1 & Ht1 & Hb1 & Hr1);
    [split; apply Hi|done|by intros i [? _]%Hr|]. simpl.
  assert (Hlen : (length (qs ++ rs) < fuel)%nat).
  { eapply Nat.le_lt_trans; [|exact Hf]. rewrite <-(length_seq n 0).
    apply submseteq_length, NoDup_submseteq; [done|]. intros i Hin.
    rewrite <-(pi_part _ _ _ _ _ Hi). simpl.
    apply elem_of_app in Hin as [Hin|[Hin _]%Hr]; rewrite !elem_of_app; [|by auto].
    right. left. apply list_elem_of_filter. auto. }
  destruct (drain_spec n ws (qs ++ rs) fuel st1 Hi1 Hlen) as (st2 & ws2 & -> & Hi2 & Hr2 & Hd2 & Hm2).
  assert (Hrs : blocked st ≠ [] → rs ≠ []).
  { intros Hb. destruct (epoll_wakes (blocked st).*1 (world st)) as (i & Hin & Hib).
    - by destruct (blocked st).
    - rewrite He in Hin. intros E. assert (i ∈ rs) as Hirs by (apply Hr; done).
      rewrite E in Hirs. by apply not_elem_of_nil in Hirs. }
  exists st2, ws2. split_and!; [done|done|by eapply same_run_trans| |].
  - apply Hd2. right. intros [? ?]%app_eq_nil. destruct Hne; [done|by apply Hrs].
  - intros ->. simpl in *. destruct Hne as [?|Hb]; [done|]. destruct Hm2 as [Hm2|[Hh _]].
    + eapply less_left; [done|]. by split; [rewrite Ht1|].
    + destruct rs as [|i rs'] eqn:Ers; [by destruct (Hrs Hb)|].
      exfalso. apply (Hh i); [done|]. rewrite Hb1. simpl. apply Hr. left.
Qed.

Lemma check_finish n ws (st : pool Q chan W K) :
  pool_inv n [] ws [] st → (CheckFinish st = -1 ↔ blocked st = []).
Proof.
  intros Hi. unfold CheckFinish. rewrite (pi_free _ _ _ _ _ Hi), (pi_num _ _ _ _ _ Hi).
  pose proof (Permutation_length (pi_part _ _ _ _ _ Hi)) as Hl.
  rewrite filter_nil in Hl. simpl in Hl. rewrite length_app, length_fmap, length_seq in Hl.
  case_decide as Hd; split; intros He; try done.
  - rewrite He in Hl. simpl in Hl. lia.
  - apply nil_length_inv. lia.
Qed.
Lemma less_ind (P : pool Q chan W K → Prop) :
  (∀ st, (∀ st', less rank st' st → P st') → P st) → ∀ st, P st.
Proof.
  intros Hstep st. remember (length (task st)) as t eqn:Ht. revert st Ht.
  induction t as [t IHt] using lt_wf_ind. intros st Ht.
  remember (work rank st) as k eqn:Hk. revert st Ht Hk.
  induction k as [k IHk] using lt_wf_ind. intros st Ht Hk. apply Hstep.
  intros st' [Hl|[Hl Hw]]; [eapply IHt|eapply IHk]; try done; lia.
Qed.

(** An iteration that leaves nothing blocked is the last. *)
Lemma loop_end n ws F f (st st1 : pool Q chan W K) :
  loop_once start continue epoll F st = Some st1 → pool_inv n [] ws [] st1 → drained st1 →
  same_run st1 st → blocked st1 = [] →
  co_eventloop start continue epoll F (S f) st = Some st1 ∧ settled n st1 st.
Proof.
  intros Heq Hi Hd Hr Hb. simpl. rewrite Heq. simpl.
  rewrite decide_True by (by eapply check_finish). split; [done|].
  split_and!; [by exists ws|by destruct Hd|done].
Qed.

Lemma eventloop_blocked n F (st : pool Q chan W K) :
  (n < F)%nat → ∀ ws, pool_inv n [] ws [] st → blocked st ≠ [] →
  ∃ N, ∃ st', (∀ f, (N ≤ f)%nat → co_eventloop start continue epoll F f st = Some st') ∧
    settled n st' st.
Proof.
  intros HF. induction st as [st IH] using less_ind. intros ws Hi Hb.
  destruct (loop_once_spec n ws [] F st Hi) as (st1 & ws1 & Heq & Hi1 & Hr1 & Hd1 & Hm1);
    [intros ? []%not_elem_of_nil|done|by right|].
  destruct (decide (blocked st1 = [])) as [Hb1|Hb1].
  - exists 1%nat, st1. split.
    + intros [|f] Hf; [lia|]. by eapply loop_end.
    + by apply (loop_end n ws1 F 0 st st1).
  - destruct (IH st1 (Hm1 eq_refl) ws1 Hi1 Hb1) as (N & st2 & Hrun & (Hid & Ht & Hr2)).
    exists (S N), st2. split.
    + intros [|f] Hf; [lia|]. simpl. rewrite Heq. simpl.
      rewrite decide_False by (by rewrite (check_finish n ws1 st1 Hi1)). apply Hrun. lia.
    + split_and!; [done|done|by eapply same_run_trans].
Qed.

Lemma eventloop_spec n ws qs F (st : pool Q chan W K) :
  (n < F)%nat → pool_inv n [] ws qs st → blocked st = [] → qs ≠ [] →
  ∃ N, ∃ st', (∀ f, (N ≤ f)%nat → co_eventloop start continue epoll F f st = Some st') ∧
    settled n st' st.
Proof.
  intros HF Hi Hb Hq.
  destruct (loop_once_spec n ws qs F st Hi) as (st1 & ws1 & Heq & Hi1 & Hr1 & Hd1 & _);
    [rewrite Hb; intros ? _ []%not_elem_of_nil|done|by left|].
  destruct (decide (blocked st1 = [])) as [Hb1|Hb1].
  - exists 1%nat, st1. split.
    + intros [|f] Hf; [lia|]. by eapply loop_end.
    + by apply (loop_end n ws1 F 0 st st1).
  - destruct (eventloop_blocked n F st1 HF ws1 Hi1 Hb1) as (N & st2 & Hrun & (Hid & Ht & Hr2)).
    exists (S N), st2. split.
    + intros [|f] Hf; [lia|]. simpl. rewrite Heq. simpl.
      rewrite decide_False by (by rewrite (check_finish n ws1 st1 Hi1)). apply Hrun. lia.
    + split_and!; [done|done|by eapply same_run_trans].
Qed.

Lemma wake_spec n k ws qs (st : pool Q chan W K) :
  pool_inv n [] ws qs st → blocked st = [] →
  let m := Nat.min k (length ws) in
  ∃ st', wake k st = Some ((k - m)%nat, st') ∧
    pool_inv n [] (drop m ws) (qs ++ take m ws) st' ∧ same_tasks st' st.
Proof.
  revert ws qs st. induction k as [|k IH]; intros ws qs st Hi Hb; simpl.
  { exists st. rewrite app_nil_r, drop_0. by split_and!. }
  destruct ws as [|i ws]; simpl.
  { rewrite decide_False by (rewrite (pi_free _ _ _ _ _ Hi); simpl; lia).
    exists st. rewrite app_nil_r. by split_and!. }
  rewrite decide_True by (rewrite (pi_free _ _ _ _ _ Hi); simpl; lia).
  destruct (q_signal_law _ _ _ (pi_rep _ _ _ _ _ Hi)) as (q & -> & Hq). simpl in *.
  rewrite take_0 in Hq.
  pose proof (blocked_nodup _ _ _ _ _ Hi) as Hn. rewrite Hb in Hn. simpl in Hn.
  rewrite filter_all, app_nil_r in Hn by (intros ? _ []%not_elem_of_nil).
  destruct (IH ws (qs ++ [i]) (set_free (free_co_num st - 1) (set_cond q st))) as (st' & Heq & Hi' & Ht).
  - split; simpl; try apply Hi; [done| | |].
    + rewrite (pi_free _ _ _ _ _ Hi). simpl. lia.
    + rewrite <-(pi_part _ _ _ _ _ Hi), Hb. simpl.
      rewrite !(filter_all _ (_ ++ _)), !app_nil_r by (intros ? _ []%not_elem_of_nil).
      rewrite (filter_all _ qs) by (intros ? _ []%not_elem_of_nil).
      rewrite app_assoc, <-Permutation_cons_append. done.
    + apply NoDup_app. split_and!; [apply Hi| |apply NoDup_singleton].
      intros j Hj ->%list_elem_of_singleton. apply NoDup_cons in Hn as [Hn _].
      apply Hn, elem_of_app. by right.
  - done.
  - exists st'. rewrite <-app_assoc in Hi'. split_and!; [done|done|exact Ht].
Qed.

(** More fuel does not change a result. *)
Lemma drain_mono F F' (st st' : pool Q chan W K) :
  (F ≤ F')%nat → drain start continue F st = Some st' → drain start continue F' st = Some st'.
Proof.
  revert F' st. induction F as [|F IH]; intros [|F'] st Hle Hd; try done; [lia|]. simpl in *.
  destruct (q_next (cond st)) as [[[i|] q]|]; simpl in *; [|done..].
  destruct (resume _ _ _ _) as [st1|]; simpl in *; [|done]. apply IH; [lia|done].
Qed.

Lemma eventloop_mono F F' f f' (st st' : pool Q chan W K) :
  (F ≤ F')%nat → (f ≤ f')%nat → co_eventloop start continue epoll F f st = Some st' →
  co_eventloop start continue epoll F' f' st = Some st'.
Proof.
  intros HF. revert f' st. induction f as [|f IH]; intros [|f'] st Hle Hd; try done; [lia|]. simpl in *.
  unfold loop_once in *. destruct (epoll _ _) as [evs w].
  destruct (raise_all _ _) as [st1|]; simpl in *; [|done].
  destruct (drain _ _ F st1) as [st2|] eqn:Hdr; simpl in *; [|done].
  rewrite (drain_mono F F' _ _ HF Hdr). simpl. case_decide; [done|]. apply IH; [lia|done].
Qed.

Lemma run_loop_S F f k (st : pool Q chan W K) :
  run_loop start continue epoll F (S f) (S k) st =
    ('(k', st) ← wake (S k) st;
     st ← (if decide (free_co_num st < co_num st) then co_eventloop start continue epoll F F st
           else Some st);
     run_loop start continue epoll F f k' st).
Proof. done. Qed.

Lemma run_loop_mono F F' f f' k (st st' : pool Q chan W K) :
  (F ≤ F')%nat → (f ≤ f')%nat → run_loop start continue epoll F f k st = Some st' →
  run_loop start continue epoll F' f' k st = Some st'.
Proof.
  intros HF. revert f' k st. induction f as [|f IH]; intros f' [|k] st Hle Hd; try done.
  { by destruct f'. } { by destruct f'. }
  destruct f' as [|f']; [lia|]. rewrite run_loop_S in *.
  destruct (wake _ _) as [[k1 st1]|]; simpl in *; [|done].
  case_decide; simpl in *; [|apply IH; [lia|done]].
  destruct (co_eventloop _ _ _ F F st1) as [st2|] eqn:He; simpl in *; [|done].
  rewrite (eventloop_mono F F' F F' _ _ HF HF He). simpl. apply IH; [lia|done].
Qed.

Lemma run_loop_step F f k k1 (st st1 st2 st3 : pool Q chan W K) :
  wake (S k) st = Some (k1, st1) → free_co_num st1 < co_num st1 →
  co_eventloop start continue epoll F F st1 = Some st2 →
  run_loop start continue epoll F f k1 st2 = Some st3 →
  run_loop start continue epoll F (S f) (S k) st = Some st3.
Proof. intros Hw Hc He Hr. rewrite run_loop_S, Hw. simpl. by rewrite decide_True, He. Qed.

Lemma run_loop_spec n k : ∀ (st : pool Q chan W K),
  (0 < n)%nat → idle n st → (k = 0%nat → task st = []) →
  ∃ N st', run_loop start continue epoll N N k st = Some st' ∧ settled n st' st.
Proof.
  induction k as [k IH] using lt_wf_ind. intros st Hn (ws & Hi & Hb) Hk.
  destruct k as [|k].
  { exists 0%nat, st. split; [done|]. split_and!; [by exists ws|by apply Hk|done]. }
  pose proof (Permutation_length (pi_part _ _ _ _ _ Hi)) as Hl.
  rewrite Hb, filter_nil in Hl. simpl in Hl. rewrite app_nil_r, length_seq in Hl.
  destruct (wake_spec n (S k) ws [] st Hi Hb) as (st1 & Hw & Hi1 & Ht1 & Hb1 & Hr1).
  set (m := Nat.min (S k) (length ws)) in *. simpl in Hi1.
  destruct ws as [|i ws]; [simpl in Hl; lia|].
  assert (Hm : (0 < m ≤ length (i :: ws))%nat) by (unfold m; simpl; lia).
  destruct (eventloop_spec n _ _ (S n) st1 ltac:(lia) Hi1) as (N1 & st2 & Hrun1 & (Hid & Ht2 & Hr2)).
  { by rewrite Hb1. }
  { by destruct m; [lia|]. }
  destruct (IH (S k - m)%nat ltac:(lia) st2 Hn Hid ltac:(done)) as (N2 & st3 & Hrun2 & (Hid3 & Ht3 & Hr3)).
  pose (M := (S n + N1 + N2)%nat). exists (S M), st3. split.
  - eapply run_loop_step; [exact Hw| | |].
    + rewrite (pi_free _ _ _ _ _ Hi1), (pi_num _ _ _ _ _ Hi1), length_drop. simpl in *. lia.
    + by apply (eventloop_mono (S n) _ N1); [unfold M; lia..|apply Hrun1].
    + by apply (run_loop_mono N2 _ N2); [unfold M; lia..|].
  - split_and!; [done|done|]. eapply same_run_trans; [exact Hr3|]. by eapply same_run_trans.
Qed.

Lemma same_left_idle n (st : pool Q chan W K) b : idle n st → idle n (set_hooked b st).
Proof. intros (ws & Hi & Hb). exists ws. split; [split; apply Hi|done]. Qed.

End loop.

(** ** Handlers that do not yield

    The workers do not enable the hooks of libco ([Run] enables those of the
    main coroutine), so that the system calls of a handler block the thread. *)

Section no_yield.
Context `{CondLaws Q} {chan W K : Type}.
Context (start : chan → W → W * option K) (continue : K → W → W * option K).
Context (epoll : list nat → W → list nat * W).
Context (no_yield : ∀ ch w, (start ch w).2 = None) (epoll_idle : ∀ w, epoll [] w = ([], w)).

Lemma CoroutineFun_keeps i tasks (st st' : pool Q chan W K) :
  task st = tasks → CoroutineFun start i tasks st = Some st' → keeps start st' st.
Proof.
  revert st. induction tasks as [|ch tasks IH]; simpl; intros st Ht Heq Hb.
  - destruct (q_wait i (cond st)); simplify_eq/=. done.
  - pose proof (no_yield ch (world st)) as Hn. 
    destruct (start ch (world st)) as [w [k|]] eqn:Hs; [done|].
    destruct (IH (handler_done ch w (take_task ch tasks st)) eq_refl Heq Hb) as [? Ho]. split; [done|]. rewrite Ho. unfold outcome. simpl.
    by rewrite Ht, <-app_assoc; simpl; rewrite Hs.
Qed.

Lemma drain_keeps F (st st' : pool Q chan W K) :
  drain start continue F st = Some st' → keeps start st' st.
Proof.
  revert st. induction F as [|F IH]; simpl; intros st Heq Hb; [done|].
  destruct (q_next (cond st)) as [[[i|] q]|]; simplify_eq/=; [|done].
  destruct (resume start continue i (set_cond q st)) as [st1|] eqn:Hr; simplify_eq/=.
  unfold resume in Hr. simpl in Hr. rewrite Hb in Hr. simpl in Hr.
  destruct (CoroutineFun_keeps i _ (set_cond q st) st1 eq_refl Hr Hb) as [Hb1 Ho1].
  destruct (IH st1 Heq Hb1) as [? ->]. done.
Qed.

Lemma eventloop_keeps F f (st st' : pool Q chan W K) :
  co_eventloop start continue epoll F f st = Some st' → keeps start st' st.
Proof.
  revert st. induction f as [|f IH]; simpl; intros st Heq Hb; [done|].
  unfold loop_once in Heq. rewrite Hb in Heq. simpl in Heq. rewrite epoll_idle in Heq. change (raised [] st) with (@nil nat) in Heq. simpl in Heq.
  destruct (drain start continue F (set_world (world st) st)) as [st1|] eqn:Hd; simplify_eq/=.
  destruct (drain_keeps _ _ _ Hd Hb) as [Hb1 Ho1].
  case_decide; [injection Heq as <-; by split|]. destruct (IH st1 Heq Hb1) as [? ->]. by split.
Qed.

Lemma wake_keeps k k' (st st' : pool Q chan W K) : wake k st = Some (k', st') → keeps start st' st.
Proof.
  revert st. induction k as [|k IH]; simpl; intros st Heq Hb; simplify_eq/=; [done|].
  case_decide; simplify_eq/=; [|done]. destruct (q_signal (cond st)); simplify_eq/=.
  by destruct (IH _ Heq Hb) as [? ->].
Qed.

Lemma run_loop_keeps F f k (st st' : pool Q chan W K) :
  run_loop start continue epoll F f k st = Some st' → keeps start st' st.
Proof.
  revert k st. induction f as [|f IH]; intros [|k] st Heq Hb; simplify_eq/=; [done..|].
  change (run_loop start continue epoll F (S f) (S k) st = Some st') in Heq.
  rewrite run_loop_S in Heq.
  destruct (wake (S k) st) as [[k1 st1]|] eqn:Hw; [|done]. cbn [mbind option_bind] in Heq.
  destruct (wake_keeps _ _ _ _ Hw Hb) as [Hb1 Ho1].
  case_decide.
  - destruct (co_eventloop start continue epoll F F st1) as [st2|] eqn:He; [|done]. simpl in Heq.
    destruct (eventloop_keeps _ _ _ _ He Hb1) as [Hb2 Ho2].
    destruct (IH _ _ Heq Hb2) as [? ->]. by rewrite Ho2, Ho1.
  - destruct (IH _ _ Heq Hb1) as [? ->]. by rewrite Ho1.
Qed.

Lemma Run_keeps fuel (st st' : pool Q chan W K) :
  Run start continue epoll fuel st = Some st' → keeps start st' st.
Proof.
  unfold Run. intros Heq Hb. destruct (run_loop _ _ _ _ _ _ _) as [st1|] eqn:Hr; simplify_eq/=.
  by apply (run_loop_keeps _ _ _ _ _ Hr).
Qed.
End no_yield.

(** ** Properties *)

Section properties.
Context `{CondLaws Q} {chan W K : Type}.
Context (start : chan → W → W * option K) (continue : K → W → W * option K).
Context (epoll : list nat → W → list nat * W) (rank : K → nat).

Lemma start_workers_spec m i (st : pool Q chan W K) :
  pool_inv i [] (seq 0 i) [] (Pool (Z.of_nat i) (free_co_num st) (task st) (coroutines st) (blocked st)
    (cond st) (world st) (hooked st) (started st) (finished st)) →
  task st = [] → blocked st = [] → co_num st = Z.of_nat (i + m) →
  ∃ st', start_workers start m i st = Some st' ∧ idle (i + m) st' ∧
    task st' = [] ∧ world st' = world st ∧ coroutines st' = coroutines st ++ seq i m ∧
    started st' = started st ∧ finished st' = finished st.
Proof.
  revert i st. induction m as [|m IH]; intros i st Hi Ht Hb Hn; simpl.
  - exists st. rewrite Nat.add_0_r, app_nil_r in *. split_and!; try done.
    exists (seq 0 i). split; [split; try apply Hi; done|done].
  - rewrite Ht. simpl. destruct (q_wait_law _ _ _ i (pi_rep _ _ _ _ _ Hi)) as (q & Heq & Hq).
    simpl in Heq. rewrite Heq. simpl.
    match goal with |- ∃ st', start_workers _ _ _ ?s = _ ∧ _ => set (st1 := s) end.
    destruct (IH (S i) st1) as (st' & -> & Hid & Ht' & Hw & Hc & Hs & Hf).
    + split; simpl; [|done| | |constructor|apply Hi].
      * change (0%nat :: seq 1 i) with (seq 0 (S i)). by rewrite seq_S.
      * pose proof (pi_free _ _ _ _ _ Hi) as Hfr. simpl in Hfr. rewrite Hfr, !length_seq. simpl. lia.
      * rewrite Hb. simpl. by rewrite app_nil_r.
    + done.
    + done.
    + simpl. rewrite Hn. lia.
    + exists st'. replace (i + S m)%nat with (S i + m)%nat by lia. split_and!; try done.
      rewrite Hc. simpl. by rewrite <-app_assoc.
Qed.

Lemma Start_spec n (q : Q) (w : W) :
  q_rep q [] [] →
  ∃ st st', CoroutinePool_new (chan := chan) (K := K) (Z.of_nat n) q w = Some st ∧
    Start start st = Some st' ∧ idle n st' ∧ task st' = [] ∧ world st' = w ∧
    coroutines st' = seq 0 n ∧ started st' = [] ∧ finished st' = [].
Proof.
  intros Hq. unfold CoroutinePool_new. rewrite option_guard_True by lia. simpl.
  exists (Pool (Z.of_nat n) 0 [] [] [] q w false [] []). unfold Start. simpl. rewrite Nat2Z.id.
  destruct (start_workers_spec n 0 (Pool (Z.of_nat n) 0 [] [] [] q w false [] [])) as (st' & ? & ?);
    [split; simpl; try done; constructor|done..|]. exists st'. destruct_and!. by split_and!.
Qed.

Context (continue_rank : ∀ k w k', (continue k w).2 = Some k' → (rank k' < rank k)%nat).
Context (epoll_wakes : ∀ bs w, bs ≠ [] → ∃ i, i ∈ (epoll bs w).1 ∧ i ∈ bs).

Lemma Run_in_order_spec n (st : pool Q chan W K) :
  (∀ ch w, (start ch w).2 = None) → (∀ w, epoll [] w = ([], w)) →
  (0 < n)%nat → idle n st →
  ∃ N st', (∀ fuel, (N ≤ fuel)%nat → Run start continue epoll fuel st = Some st') ∧
    idle n st' ∧ task st' = [] ∧
    world st' = foldl (λ w ch, (start ch w).1) (world st) (task st) ∧
    finished st' = finished st ++ task st.
Proof.
  intros Hny Hep Hn Hid. pose proof Hid as (ws & Hi & Hb).
  destruct (run_loop_spec start continue epoll rank continue_rank epoll_wakes n (length (task st))
    (set_hooked true st) Hn) as (N & st1 & Hrun & (Hid1 & Ht1 & _));
    [by apply same_left_idle|simpl; apply nil_length_inv|].
  exists N, (set_hooked false st1).
  assert (HR : Run start continue epoll N st = Some (set_hooked false st1))
    by (unfold Run; simpl; by rewrite Hrun).
  destruct (Run_keeps start continue epoll Hny Hep _ _ _ HR Hb) as [_ Ho].
  unfold outcome in Ho. simpl in Ho. rewrite Ht1, app_nil_r in Ho. simpl in Ho. injection Ho as Hw Hf.
  split_and!; [|by apply same_left_idle|done|done|done].
  intros fuel Hle. unfold Run. simpl.
  by rewrite (run_loop_mono start continue epoll N fuel N fuel _ _ st1).
Qed.
(** C17.  [Run] returns and leaves nothing undone: on a pool of [n] waiting
    workers it ends, with every worker waiting again and the queue empty;
    each task of the queue was started exactly once, in the order in which it
    was put there, and every handler that was started has returned, however
    the handlers yield, provided that each yields finitely often and that
    [epoll_wait] reports some event while a worker is blocked. *)
Theorem Run_correct n (st : pool Q chan W K) :
  (0 < n)%nat → idle n st →
  ∃ N st', (∀ fuel, (N ≤ fuel)%nat → Run start continue epoll fuel st = Some st') ∧
    idle n st' ∧ task st' = [] ∧ hooked st' = false ∧
    started st' = started st ++ task st ∧ finished st' ≡ₚ finished st ++ task st.
Proof.
  intros Hn Hid. pose proof Hid as (ws & Hi & Hb).
  destruct (run_loop_spec start continue epoll rank continue_rank epoll_wakes n (length (task st)) (set_hooked true st) Hn) as (N & st1 & Hrun & (Hid1 & Ht1 & Hr1 & _));
    [by apply same_left_idle|simpl; apply nil_length_inv|].
  exists N, (set_hooked false st1). simpl in *. rewrite Ht1, app_nil_r in Hr1.
  split_and!; [|by apply same_left_idle|done|done|done|].
  - intros fuel Hf. unfold Run. simpl. by rewrite (run_loop_mono start continue epoll N fuel N fuel _ _ st1).
  - destruct Hid1 as (ws1 & Hi1 & Hb1).
    pose proof (pi_done _ _ _ _ _ Hi1) as Hd1. pose proof (pi_done _ _ _ _ _ Hi) as Hd.
    rewrite Hb1, app_nil_r in Hd1. rewrite Hb, app_nil_r in Hd.
    by rewrite Hd1, Hr1, Hd.
Qed.
(** A pool of [n] coroutines starts idle: [Start] creates the workers
    0 to [n - 1] in order and each waits, no handler having run. *)
Theorem Start_correct n (q : Q) (w : W) :
  q_rep q [] [] →
  ∃ st st', CoroutinePool_new (chan := chan) (K := K) (Z.of_nat n) q w = Some st ∧
    Start start st = Some st' ∧ idle n st' ∧ task st' = [] ∧ world st' = w ∧
    coroutines st' = seq 0 n ∧ started st' = [] ∧ finished st' = [].
Proof. apply Start_spec. Qed.

(** With handlers that do not yield, as the system calls of the workers
    are not hooked, [Run] is a loop over the queue: the world is the one
    after the handlers of the tasks, run one after the other in the order of
    the queue. *)
Theorem Run_in_order n (st : pool Q chan W K) :
  (∀ ch w, (start ch w).2 = None) → (∀ w, epoll [] w = ([], w)) →
  (0 < n)%nat → idle n st →
  ∃ N st', (∀ fuel, (N ≤ fuel)%nat → Run start continue epoll fuel st = Some st') ∧
    idle n st' ∧ task st' = [] ∧
    world st' = foldl (λ w ch, (start ch w).1) (world st) (task st) ∧
    finished st' = finished st ++ task st.
Proof. by apply Run_in_order_spec. Qed.
End properties.

(** ** The concrete pool *)

Lemma PutTask_idle `{CondLaws Q} {chan W K : Type} n ch (st : pool Q chan W K) :
  idle n st → idle n (PutTask ch st).
Proof. intros (ws & Hi & Hb). exists ws. split; [split; apply Hi|done]. Qed.

Lemma demo_pool_idle tasks :
  idle 2 (demo_pool tasks) ∧ task (demo_pool tasks) = tasks ∧
  started (demo_pool tasks) = [] ∧ finished (demo_pool tasks) = [] ∧ world (demo_pool tasks) = [].
Proof.
  assert (Hput : ∀ st : pool (condq heap) nat (list nat) nat, idle 2 st →
    let st' := foldl (λ st ch, PutTask ch st) st tasks in
    idle 2 st' ∧ task st' = task st ++ tasks ∧ started st' = started st ∧ finished st' = finished st ∧
    world st' = world st).
  { induction tasks as [|ch tasks IH]; intros st Hid; simpl; [by rewrite app_nil_r|].
    destruct (IH (PutTask ch st) (PutTask_idle _ _ _ Hid)) as (? & -> & -> & -> & ->).
    split_and!; [done| |done..]. simpl. by rewrite <-app_assoc. }
  destruct (start_workers_spec demo_start 2 0 demo_new)
    as (st' & Heq & Hid & Ht & Hw & _ & Hs & Hf); [|done|done|done|].
  { split; simpl; try done; [apply empty_condq_rep|constructor]. }
  unfold demo_pool, Start. change (Z.to_nat (co_num demo_new)) with 2%nat. rewrite Heq. simpl.
  destruct (Hput st' Hid) as (Hid2 & -> & -> & -> & ->). rewrite Ht, Hs, Hf, Hw.
  split; [exact Hid2|]. repeat split.
Qed.

Lemma demo_rank k w k' : (demo_continue k w).2 = Some k' → (k' < k)%nat.
Proof. destruct k; simpl; [done|]. intros [= <-]. lia. Qed.

Lemma demo_wakes (bs w : list nat) : bs ≠ [] → ∃ i, i ∈ (demo_epoll bs w).1 ∧ i ∈ bs.
Proof. destruct bs as [|i bs]; [done|]. intros _. exists i. simpl. split; left. Qed.

Lemma Run_correct_witness :
  ∃ N st', (∀ fuel, (N ≤ fuel)%nat → Run demo_start demo_continue demo_epoll fuel (demo_pool [2; 0; 1]%nat) = Some st') ∧
    task st' = [] ∧ started st' = [2; 0; 1]%nat.
Proof.
  destruct (demo_pool_idle [2; 0; 1]%nat) as (Hid & Ht & Hs & _).
  destruct (Run_correct demo_start demo_continue demo_epoll id demo_rank demo_wakes 2
    (demo_pool [2; 0; 1]%nat)) as (N & st' & Hrun & _ & Ht' & _ & Hst & _); [lia|exact Hid|].
  rewrite Hs, Ht in Hst. exists N, st'. split; [exact Hrun|]. split; [exact Ht'|exact Hst].
Defined.

Lemma Start_correct_witness :
  ∃ st st', CoroutinePool_new (chan := nat) (K := nat) 3 empty_condq [] = Some st ∧
    Start demo_start st = Some st' ∧ coroutines st' = [0; 1; 2]%nat.
Proof.
  destruct (Start_correct demo_start 3 empty_condq [] empty_condq_rep)
    as (st & st' & E1 & E2 & _ & _ & _ & E3 & _).
  exists st, st'. split; [exact E1|]. split; [exact E2|exact E3].
Defined.

Lemma Run_in_order_witness :
  ∃ N st', (∀ fuel, (N ≤ fuel)%nat → Run demo_direct demo_continue demo_epoll fuel (demo_pool [2; 0; 1]%nat) = Some st') ∧
    world st' = [2; 0; 1]%nat.
Proof.
  destruct (demo_pool_idle [2; 0; 1]%nat) as (Hid & Ht & _ & _ & Hw).
  destruct (Run_in_order demo_direct demo_continue demo_epoll id demo_rank demo_wakes 2
    (demo_pool [2; 0; 1]%nat)) as (N & st' & Hrun & _ & _ & Hst & _);
    [reflexivity|reflexivity|lia|exact Hid|].
  rewrite Hw, Ht in Hst. exists N, st'. split; [exact Hrun|exact Hst].
Defined.

