(* ===== verification/Http.v ===== *)
(** * The HTTP handler (Httpdata.cpp)

    [handle_request_line] and [handle_request_head] over the bytes that were
    read, and [handle_http], which builds the response in [write_buff].  The
    directory listing and the file contents come from the operating system and
    are parameters. *)

From Stdlib Require Import Ascii.
From stdpp Require Import pretty.
From S2P Require Import Prelude.

Local Open Scope string_scope.

(** ** Bytes *)

Definition CR : ascii := "013"%char.
Definition LF : ascii := "010"%char.
Definition SP : ascii := " "%char.
Definition COLON : ascii := ":"%char.
(** The double quote. *)
Definition dq : string := String "034"%char "".
Definition crlf : string := String CR (String LF "").

Definition to_bytes (s : string) : list ascii := String.list_ascii_of_string s.
Definition of_bytes (l : list ascii) : string := String.string_of_list_ascii l.

Definition is_eol (c : ascii) : bool := bool_decide (c = CR) || bool_decide (c = LF).
Definition is_space (c : ascii) : bool := bool_decide (c = SP).
Definition is_colon (c : ascii) : bool := bool_decide (c = COLON).

(** ** Parsing *)

Record Http_Handle := Http {
  Req : string;
  version : string;
  URI : string;
  request_head : gmap string string;
}.

(** The bytes of [l] before the first one that [stop] accepts. *)
Fixpoint until (stop : ascii → bool) (l : list ascii) : list ascii :=
  match l with
  | [] => []
  | c :: l => if stop c then [] else c :: until stop l
  end.

(** The loop that collects bytes into a string; [buff] is the part of the
    buffer that was read, [read_length] bytes. *)
Definition scan (stop : ascii → bool) (buff : list ascii) (index : nat) : string * nat :=
  let s := until stop (drop index buff) in (of_bytes s, (index + length s)%nat).

Arguments scan : simpl never.

Definition handle_request_line (buff : list ascii) (index : nat) : Http_Handle * nat :=
  let '(req, index) := scan is_space buff index in
  let index := S index in
  let '(uri, index) := scan is_space buff index in
  let index := S index in
  let '(ver, index) := scan is_eol buff index in
  (Http req ver uri ∅, (index + 2)%nat).

(** The loop runs at most [read_length] times: see [handle_request_head_fuel]. *)
Fixpoint request_head_loop (fuel : nat) (buff : list ascii) (index : nat)
    (head : gmap string string) : option (gmap string string * nat) :=
  match fuel with
  | O => None
  | S fuel =>
      match buff !! index with
      | Some c =>
          if is_eol c then Some (head, index)
          else
            let '(key, index) := scan is_colon buff index in
            let index := (index + 2)%nat in
            let '(value, index) := scan is_eol buff index in
            request_head_loop fuel buff (index + 2) (<[key := value]> head)
      | None => Some (head, index)
      end
  end.

Definition handle_request_head (buff : list ascii) (index : nat) (h : Http_Handle)
    : option (Http_Handle * nat) :=
  '(head, index) ← request_head_loop (S (length buff)) buff index (request_head h);
  Some (Http (Req h) (version h) (URI h) head, S index).

(** Both, as [handle_http] calls them. *)
Definition parse_request (buff : list ascii) : option Http_Handle :=
  let '(h, index) := handle_request_line buff 0 in
  '(h, _) ← handle_request_head buff index h;
  Some h.

Definition wants_keep_alive (h : Http_Handle) : bool :=
  bool_decide (request_head h !! "Connection" = Some "keep-alive") ||
  bool_decide (request_head h !! "Connection" = Some "Keep-Alive").

(** ** Responses *)

(** [/source] as [readdir] lists it: [None] when it cannot be opened, and for
    each entry whether it counts as a directory.  [read_file] is the content
    that [mmap] shows of a file, up to its first NUL byte, if it can be opened
    and mapped. *)
Record os := Os {
  source_dir : option (list (string * bool));
  read_file : string → option string;
}.

Definition link (url text : string) : string :=
  "<br><a href=" ++ dq ++ url ++ dq ++ ">" ++ text ++ "</a>".

Definition source_entry (e : string * bool) : string :=
  if bool_decide (e.2 = false ∧ "." ≠ e.1 ∧ ".." ≠ e.1)
  then link ("/source/" ++ e.1) e.1 else "".

Definition body_index (o : os) : string :=
  "<html><title>Source Page</title>" ++
  "<body bgcolor=" ++ dq ++ "ffffff" ++ dq ++ ">" ++
  "!Thank for visiting MRWu_haha's Server!" ++
  "<meta http-equiv=" ++ dq ++ "Content-Type" ++ dq ++ " content=" ++ dq ++ "text/html; charset=utf-8" ++ dq ++ " />" ++
  link "http://www.baidu.com" "百度一下" ++
  link "https://join.qq.com" "腾讯招聘" ++
  link "https://campus.kuaishou.cn" "快手招聘" ++
  link "https://uniportal.huawei.com" "华为招聘" ++
  link "https://campus.163.com" "网易招聘" ++
  link "https://careers.pinduoduo.com" "拼多多招聘" ++
  link "https://campus.alibaba.com" "阿里巴巴招聘" ++
  link "https://campus.bigo.sg" "BIGO招聘" ++ "<br>" ++
  "<font size=" ++ dq ++ "5" ++ dq ++ "> MR-Wuhaha's Source Flie List: </font><br/>" ++
  match source_dir o with
  | Some entries => foldr (λ e s, source_entry e ++ s) "" entries
  | None => ""
  end ++
  "</body></html>".

Definition ending : string := "<hr><em> MR_Wuhaha's WebServer </em>" ++ String LF "</body></html>".

Definition body_hello : string :=
  "<html><title>Hello</title>" ++
  "<body bgcolor=" ++ dq ++ "ffffff" ++ dq ++ ">" ++
  "Thank for visiting this server!!!!" ++ ending.

Definition body_not_found : string :=
  "<html><title>Source Not Found</title>" ++
  "<body bgcolor=" ++ dq ++ "ffffff" ++ dq ++ ">" ++
  "404 NOT_FOUND" ++ ending.

(** [URI.substr(1)] throws when the URI is empty. *)
Definition body_file (uri content : string) : option string :=
  match uri with
  | "" => None
  | String _ name =>
      Some ("<html>" ++ "<title>" ++ name ++ "</title>" ++ "<head>" ++
        "<meta http-equiv=" ++ dq ++ "content-type" ++ dq ++ " content=" ++ dq ++ "text/html; charset=utf-8" ++ dq ++ ">" ++
        "</head>" ++ "<body bgcolor=" ++ dq ++ "ffffff" ++ dq ++ ">" ++ "MR_Wuhaha's WebServer" ++
        "<hr><pre style=" ++ dq ++ "word-wrap: break-word; white-space: pre-wrap; white-space: -moz-pre-wrap" ++ dq ++ ">" ++
        content ++ "</pre>" ++ String LF "</body></html>")
  end.

Definition response_head (ver status ctype : string) (body : string) : string :=
  ver ++ status ++ crlf ++
  "Connection: Keep-Alive" ++ crlf ++
  ctype ++ crlf ++
  "Content-Length: " ++ pretty (String.length body) ++ crlf ++
  crlf.

(** [head] and [body]; [None] is the exception of [substr]. *)
Definition respond (o : os) (h : Http_Handle) : option (string * string) :=
  if bool_decide (URI h = "/") then
    let body := body_index o in
    Some (response_head (version h) " 200 OK" "Content-type: text/html" body, body)
  else if bool_decide (URI h = "/hello") then
    Some (response_head (version h) " 200 OK" "Content-Type: text/html" body_hello, body_hello)
  else
    match read_file o (URI h) with
    | Some content =>
        body ← body_file (URI h) content;
        Some (response_head (version h) " 200 OK" "Content-Type: text/html" body, body)
    | None =>
        Some (response_head (version h) " 404 NOTFOUND" "Content-Type: text/html" body_not_found,
              body_not_found)
    end.

Definition BUFF_SIZE : nat := 4096.

(** What [handle_http] leaves for [HandleWrite]: [Keep_Alive], [write_buff] (as
    the bytes [sprintf] stores before its final NUL) and [write_length].
    [sprintf] stops at a NUL and does not check the size of [write_buff]: the
    model is [None] where it writes past the end. *)
Record written := Written { keep_alive : bool; write_buff : list ascii; write_length : nat }.

Definition NUL : ascii := "000"%char.

Definition handle_http (o : os) (keep : bool) (buff : list ascii) : option written :=
  h ← parse_request buff;
  '(head, body) ← respond o h;
  let send_str := to_bytes (head ++ body) in
  let text := until (λ c, bool_decide (c = NUL)) send_str in
  guard (S (length text) ≤ BUFF_SIZE)%nat;;
  Some (Written (keep || wants_keep_alive h) text (length send_str)).

Local Open Scope list_scope.

(** ** Well-formed requests *)

Definition header_bytes (kv : list ascii * list ascii) : list ascii :=
  kv.1 ++ COLON :: SP :: kv.2 ++ [CR; LF].

Definition headers_bytes (hs : list (list ascii * list ascii)) : list ascii := mjoin (header_bytes <$> hs).

Definition request_bytes (m u v : list ascii) (hs : list (list ascii * list ascii)) (body : list ascii)
    : list ascii :=
  m ++ SP :: u ++ SP :: v ++ CR :: LF :: headers_bytes hs ++ CR :: LF :: body.

Definition free_of (stop : ascii → bool) (l : list ascii) : Prop := Forall (λ c, stop c = false) l.

Definition header_ok (kv : list ascii * list ascii) : Prop :=
  free_of is_colon kv.1 ∧ match head kv.1 with Some c => is_eol c = false | None => True end ∧
  free_of is_eol kv.2.

(** The map that the headers build, the last value of a key winning. *)
Definition head_map (hs : list (list ascii * list ascii)) (m : gmap string string) : gmap string string :=
  foldl (λ m kv, <[of_bytes kv.1 := of_bytes kv.2]> m) m hs.

(** ** Framing

    What a client reads: the bytes up to the first empty line, and the rest. *)
Fixpoint split_head (l : list ascii) : option (list ascii * list ascii) :=
  match l with
  | [] => None
  | c :: l' =>
      match bool_decide (take 4 l = [CR; LF; CR; LF]) with
      | true => Some ([CR; LF; CR; LF], drop 4 l)
      | false => '(a, b) ← split_head l'; Some (c :: a, b)
      end
  end.

(** The response to a request for [/hello] by a client that names [v] as its
    version. *)
Definition hello_request (v : list ascii) : list ascii :=
  request_bytes (to_bytes "GET") (to_bytes "/hello") v [] [].

(** ** Parsing *)

Lemma until_stop stop s c post :
  free_of stop s → stop c = true → until stop (s ++ c :: post) = s.
Proof. intros Hs Hc. induction Hs as [|x s Hx Hs IH]; simpl; [by rewrite Hc|by rewrite Hx, IH]. Qed.

Lemma until_free stop l : free_of stop (until stop l).
Proof.
  induction l as [|c l IH]; simpl; [constructor|]. destruct (stop c) eqn:Hc; [constructor|].
  by constructor.
Qed.

Lemma scan_at stop pre s c post :
  free_of stop s → stop c = true →
  scan stop (pre ++ s ++ c :: post) (length pre) = (of_bytes s, length (pre ++ s)).
Proof. intros. unfold scan. rewrite drop_app_length, until_stop by done. by rewrite length_app. Qed.

Lemma scan_le stop buff index : (index ≤ (scan stop buff index).2)%nat.
Proof. unfold scan. simpl. lia. Qed.

Lemma request_head_loop_step fuel buff index m c key i1 value i2 :
  buff !! index = Some c → is_eol c = false →
  scan is_colon buff index = (key, i1) → scan is_eol buff (i1 + 2) = (value, i2) →
  request_head_loop (S fuel) buff index m = request_head_loop fuel buff (i2 + 2) (<[key := value]> m).
Proof. unfold scan. intros Hc He [= <- <-] [= <- <-]. simpl. by rewrite Hc, He. Qed.

Lemma request_head_loop_headers hs : ∀ fuel pre post m,
  Forall header_ok hs → (length hs < fuel)%nat →
  request_head_loop fuel (pre ++ headers_bytes hs ++ CR :: post) (length pre) m =
    Some (head_map hs m, length (pre ++ headers_bytes hs)).
Proof.
  induction hs as [|[k v] hs IH]; intros [|fuel] pre post m Hok Hf; simpl in Hf; try lia.
  { simpl. rewrite list_lookup_middle by done. by rewrite app_nil_r. }
  apply Forall_cons in Hok as [(Hk & Hh & Hv) Hok]. simpl in Hk, Hh, Hv.
  set (buff := pre ++ headers_bytes ((k, v) :: hs) ++ CR :: post).
  assert (E1 : buff = pre ++ k ++ COLON :: (SP :: v ++ CR :: LF :: headers_bytes hs ++ CR :: post)).
  { unfold buff, headers_bytes, header_bytes. simpl. rewrite <-!app_assoc. simpl. by rewrite <-?app_assoc. }
  assert (E2 : buff = (pre ++ k ++ [COLON; SP]) ++ v ++ CR :: (LF :: headers_bytes hs ++ CR :: post)).
  { rewrite E1, <-!app_assoc. done. }
  assert (E3 : buff = (pre ++ k ++ [COLON; SP] ++ v ++ [CR; LF]) ++ headers_bytes hs ++ CR :: post).
  { rewrite E1, <-!app_assoc. simpl. by rewrite <-?app_assoc. }
  assert (Hstart : ∃ c, buff !! length pre = Some c ∧ is_eol c = false).
  { rewrite E1, lookup_app_r, Nat.sub_diag by done. destruct k as [|c k]; simpl; eauto. }
  destruct Hstart as (c & Hc & Heol). 
  assert (S1 : scan is_colon buff (length pre) = (of_bytes k, length (pre ++ k))).
  { rewrite E1. by apply scan_at. }
  assert (S2 : scan is_eol buff (length (pre ++ k) + 2) =
    (of_bytes v, length ((pre ++ k ++ [COLON; SP]) ++ v))).
  { replace (length (pre ++ k) + 2)%nat with (length (pre ++ k ++ [COLON; SP]))
      by (rewrite !length_app; simpl; lia). rewrite E2. by apply scan_at. }
  rewrite (request_head_loop_step _ _ _ _ _ _ _ _ _ Hc Heol S1 S2).
  replace (length ((pre ++ k ++ [COLON; SP]) ++ v) + 2)%nat
    with (length (pre ++ k ++ [COLON; SP] ++ v ++ [CR; LF])) by (rewrite !length_app; simpl; lia).
  rewrite E3, IH by (done || lia). f_equal. f_equal. f_equal.
  unfold headers_bytes, header_bytes. simpl. by rewrite <-!app_assoc.
Qed.

(** The fuel of the header loop is enough. *)
Lemma request_head_loop_total fuel buff index m :
  (length buff - index < fuel)%nat → is_Some (request_head_loop fuel buff index m).
Proof.
  revert index m. induction fuel as [|fuel IH]; intros index m Hf; [lia|].
  destruct (buff !! index) as [c|] eqn:Hc; [|simpl; rewrite Hc; by eexists].
  destruct (is_eol c) eqn:Heol; [simpl; rewrite Hc, Heol; by eexists|].
  pose proof (lookup_lt_Some _ _ _ Hc). destruct (scan is_colon buff index) as [key i1] eqn:S1.
  destruct (scan is_eol buff (i1 + 2)) as [value i2] eqn:S2.
  pose proof (scan_le is_colon buff index) as L1. pose proof (scan_le is_eol buff (i1 + 2)) as L2.
  rewrite S1 in L1. rewrite S2 in L2. simpl in L1, L2.
  rewrite (request_head_loop_step _ _ _ _ _ _ _ _ _ Hc Heol S1 S2). apply IH. lia.
Qed.

Lemma parse_request_eq buff :
  ∃ head index, request_head_loop (S (length buff)) buff (handle_request_line buff 0).2 ∅ = Some (head, index) ∧
    let h := (handle_request_line buff 0).1 in
    parse_request buff = Some (Http (Req h) (version h) (URI h) head).
Proof.
  unfold parse_request, handle_request_head.
  destruct (handle_request_line buff 0) as [h index] eqn:Hl. cbn [fst snd].
  assert (request_head h = ∅) as Hh.
  { unfold handle_request_line in Hl. destruct (scan _ _ _), (scan _ _ _), (scan _ _ _). by simplify_eq. }
  destruct (request_head_loop_total (S (length buff)) buff index ∅) as [[head i] Heq]; [lia|].
  exists head, i. rewrite Hh, Heq. by split.
Qed.

Lemma headers_length hs : (length hs ≤ length (headers_bytes hs))%nat.
Proof.
  induction hs as [|[k v] hs IH]; [done|]. unfold headers_bytes in *. csimpl. rewrite length_app.
  unfold header_bytes at 1. csimpl. rewrite length_app. csimpl. lia.
Qed.

Lemma handle_request_line_step buff s1 i1 s2 i2 s3 i3 :
  scan is_space buff 0 = (s1, i1) → scan is_space buff (S i1) = (s2, i2) →
  scan is_eol buff (S i2) = (s3, i3) →
  handle_request_line buff 0 = (Http s1 s3 s2 ∅, (i3 + 2)%nat).
Proof. intros H1 H2 H3. unfold handle_request_line. by rewrite H1, H2, H3. Qed.

Lemma parse_request_bytes (m u v : list ascii) hs body :
  free_of is_space m → free_of is_space u → free_of is_eol v → Forall header_ok hs →
  parse_request (request_bytes m u v hs body) =
    Some (Http (of_bytes m) (of_bytes v) (of_bytes u) (head_map hs ∅)).
Proof.
  intros Hm Hu Hv Hhs. set (buff := request_bytes m u v hs body).
  assert (E1 : buff = [] ++ m ++ SP :: (u ++ SP :: v ++ CR :: LF :: headers_bytes hs ++ CR :: LF :: body)) by done.
  assert (E2 : buff = (m ++ [SP]) ++ u ++ SP :: (v ++ CR :: LF :: headers_bytes hs ++ CR :: LF :: body)).
  { by rewrite E1, <-!app_assoc. }
  assert (E3 : buff = (m ++ [SP] ++ u ++ [SP]) ++ v ++ CR :: (LF :: headers_bytes hs ++ CR :: LF :: body)).
  { rewrite E1, <-!app_assoc. done. }
  assert (E4 : buff = (m ++ [SP] ++ u ++ [SP] ++ v ++ [CR; LF]) ++ headers_bytes hs ++ CR :: LF :: body).
  { rewrite E1, <-!app_assoc. done. }
  assert (Hline : handle_request_line buff 0 =
    (Http (of_bytes m) (of_bytes v) (of_bytes u) ∅, length (m ++ [SP] ++ u ++ [SP] ++ v ++ [CR; LF]))).
  { erewrite (handle_request_line_step buff (of_bytes m) (length ([] ++ m)) (of_bytes u)
      (length ((m ++ [SP]) ++ u)) (of_bytes v)).
    - f_equal. instantiate (1 := length ((m ++ [SP] ++ u ++ [SP]) ++ v)). rewrite !length_app. simpl. lia.
    - rewrite E1. by apply (scan_at is_space []).
    - replace (S (length ([] ++ m))) with (length (m ++ [SP])) by (rewrite length_app; simpl; lia).
      rewrite E2. by apply scan_at.
    - replace (S (length ((m ++ [SP]) ++ u))) with (length (m ++ [SP] ++ u ++ [SP]))
        by (rewrite !length_app; simpl; lia).
      rewrite E3. by apply scan_at. }
  destruct (parse_request_eq buff) as (head & index & Hloop & ->). rewrite Hline in *. cbn [fst snd Req version URI] in *.
  assert (Hlen : (length hs < S (length buff))%nat).
  { rewrite E4, !length_app. pose proof (headers_length hs). simpl. lia. }
  revert Hloop. generalize (S (length buff)) Hlen. intros fuel Hf Hloop.
  rewrite E4, (request_head_loop_headers hs fuel _ (LF :: body)) in Hloop by done. by simplify_eq.
Qed.

(** ** Responses *)

Lemma append_assoc (s1 s2 s3 : string) : s1 +:+ (s2 +:+ s3) = (s1 +:+ s2) +:+ s3.
Proof. induction s1 as [|c s1 IH]; [done|]. exact (f_equal (String c) IH). Qed.

Lemma to_bytes_app s1 s2 : to_bytes (s1 +:+ s2) = to_bytes s1 ++ to_bytes s2.
Proof. induction s1 as [|c s1 IH]; [done|]. simpl. unfold to_bytes in *. simpl. by rewrite IH. Qed.

Lemma free_of_app stop l1 l2 : free_of stop (l1 ++ l2) ↔ free_of stop l1 ∧ free_of stop l2.
Proof. apply Forall_app. Qed.

Lemma digit_not_eol x : is_eol (pretty_N_char x) = false.
Proof. unfold pretty_N_char. by repeat case_match. Qed.

Lemma pretty_N_go_free x s : free_of is_eol (to_bytes s) → free_of is_eol (to_bytes (pretty_N_go x s)).
Proof.
  revert s. induction x as [x IH] using (well_founded_induction N.lt_wf_0). intros s Hs.
  destruct (decide (x = 0%N)) as [->|Hx]; [by rewrite pretty_N_go_0|].
  rewrite pretty_N_go_step by lia. apply IH; [by apply N.div_lt; lia|].
  constructor; [apply digit_not_eol|done].
Qed.

Lemma pretty_nat_free (n : nat) : free_of is_eol (to_bytes (pretty n)).
Proof.
  unfold pretty, pretty_nat, pretty, pretty_N. case_decide; [by repeat constructor|].
  apply pretty_N_go_free. constructor.
Qed.

Lemma split_head_free s l :
  free_of is_eol s → split_head (s ++ l) = '(a, b) ← split_head l; Some (s ++ a, b).
Proof.
  induction 1 as [|c s Hc Hs IH]; simpl; [by destruct (split_head l) as [[]|]|].
  rewrite bool_decide_eq_false_2 by (intros [= -> _]; done).
  rewrite IH. by destruct (split_head l) as [[]|].
Qed.

Lemma split_head_crlf l :
  match head l with Some c => is_eol c = false | None => False end →
  split_head (CR :: LF :: l) = '(a, b) ← split_head l; Some (CR :: LF :: a, b).
Proof.
  destruct l as [|c l]; [done|]. intros Hc. simpl in Hc.
  change (split_head (CR :: LF :: c :: l)) with
    (match bool_decide (take 4 (CR :: LF :: c :: l) = [CR; LF; CR; LF]) with
     | true => Some ([CR; LF; CR; LF], drop 4 (CR :: LF :: c :: l))
     | false => '(a, b) ← split_head (LF :: c :: l); Some (CR :: a, b) end).
  rewrite bool_decide_eq_false_2 by (intros Hh; apply (f_equal (λ k, k !! 2%nat)) in Hh; simpl in Hh; injection Hh as ->; done).
  change (split_head (LF :: c :: l)) with
    (match bool_decide (take 4 (LF :: c :: l) = [CR; LF; CR; LF]) with
     | true => Some ([CR; LF; CR; LF], drop 4 (LF :: c :: l))
     | false => '(a, b) ← split_head (c :: l); Some (LF :: a, b) end).
  rewrite bool_decide_eq_false_2 by (intros Hh; apply (f_equal head) in Hh; discriminate).
  by destruct (split_head (c :: l)) as [[]|].
Qed.

(** One line of the head. *)
Lemma split_head_line s l :
  free_of is_eol s → match head l with Some c => is_eol c = false | None => False end →
  split_head (s ++ CR :: LF :: l) = '(a, b) ← split_head l; Some (s ++ CR :: LF :: a, b).
Proof.
  intros Hs Hl. rewrite split_head_free, split_head_crlf by done.
  by destruct (split_head l) as [[]|].
Qed.

Lemma split_head_last s l :
  free_of is_eol s → split_head (s ++ CR :: LF :: CR :: LF :: l) = Some (s ++ [CR; LF; CR; LF], l).
Proof. intros Hs. rewrite split_head_free by done. done. Qed.

Lemma crlf_bytes : to_bytes crlf = [CR; LF].
Proof. done. Qed.

Lemma response_head_split ver status ctype body :
  free_of is_eol (to_bytes ver) → free_of is_eol (to_bytes status) → free_of is_eol (to_bytes ctype) →
  ctype ≠ "" →
  split_head (to_bytes (response_head ver status ctype body +:+ body)) =
    Some (to_bytes (response_head ver status ctype body), to_bytes body).
Proof.
  intros Hv Hs Hc Hne. unfold response_head.
  rewrite !to_bytes_app, !crlf_bytes, <-!app_assoc. cbn [app].
  set (bv := to_bytes ver) in *. set (bs := to_bytes status) in *.
  rewrite (app_assoc bv bs). rewrite split_head_line; [|by apply free_of_app|done].
  rewrite split_head_line; [|by repeat constructor|by destruct ctype; [|inversion Hc]].
  rewrite split_head_line; [|done|done].
  rewrite (app_assoc (to_bytes "Content-Length: ")), split_head_last.
  - simpl. by rewrite <-!app_assoc.
  - apply free_of_app. split; [by repeat constructor|apply pretty_nat_free].
Qed.

Lemma parse_request_version buff h : parse_request buff = Some h → free_of is_eol (to_bytes (version h)).
Proof.
  destruct (parse_request_eq buff) as (head & i & _ & ->). intros [= <-]. simpl.
  unfold handle_request_line.
  destruct (scan is_space buff 0) as [s1 i1]. destruct (scan is_space buff (S i1)) as [s2 i2]. simpl.
  unfold scan, to_bytes, of_bytes. simpl. rewrite String.list_ascii_of_string_of_list_ascii. apply until_free.
Qed.

(** ** Properties *)

(** C20.  A well-formed request is parsed into its parts: method, URI, version
    and the headers, of which the last with a given name counts; what follows
    the empty line is not looked at. *)
Theorem parse_request_roundtrip (m u v : list ascii) hs body :
  free_of is_space m → free_of is_space u → free_of is_eol v → Forall header_ok hs →
  parse_request (request_bytes m u v hs body) =
    Some (Http (of_bytes m) (of_bytes v) (of_bytes u) (head_map hs ∅)).
Proof. apply parse_request_bytes. Qed.

(** C21.  Whatever bytes a client sends, the request is parsed in at most as
    many rounds as there are bytes, and the response is framed so that the
    client can read it: the first empty line ends the head, the rest is the
    body, and the last line of the head is its exact [Content-Length]. *)
Theorem response_well_framed (o : os) (buff : list ascii) :
  ∃ h, parse_request buff = Some h ∧
    (respond o h = None ↔ URI h = "" ∧ is_Some (read_file o "")) ∧
    ∀ head body, respond o h = Some (head, body) →
      split_head (to_bytes (head +:+ body)) = Some (to_bytes head, to_bytes body) ∧
      ∃ lines, head = lines +:+ crlf +:+ "Content-Length: " +:+ pretty (String.length body) +:+ crlf +:+ crlf.
Proof.
  destruct (parse_request_eq buff) as (hd & i & _ & Hp). eexists. split; [exact Hp|].
  pose proof (parse_request_version _ _ Hp) as Hv.
  set (h := Http _ _ _ _) in *. clearbody h. clear Hp.
  assert (Hsplit : ∀ status ctype body, free_of is_eol (to_bytes status) → free_of is_eol (to_bytes ctype) →
    ctype ≠ "" →
    split_head (to_bytes (response_head (version h) status ctype body +:+ body)) =
      Some (to_bytes (response_head (version h) status ctype body), to_bytes body) ∧
    ∃ lines, response_head (version h) status ctype body =
      lines +:+ crlf +:+ "Content-Length: " +:+ pretty (String.length body) +:+ crlf +:+ crlf).
  { intros status ctype body Hs Hc Hne. split; [by apply response_head_split|].
    exists (version h +:+ status +:+ crlf +:+ "Connection: Keep-Alive" +:+ crlf +:+ ctype).
    unfold response_head. by rewrite !append_assoc. }
  unfold respond. case_bool_decide as H1.
  { split; [split; [done|intros [H _]; by rewrite H in H1]|]. intros head body [= <- <-].
    apply Hsplit; [by repeat constructor..|done]. }
  case_bool_decide as H2.
  { split; [split; [done|intros [H _]; by rewrite H in H2]|]. intros head body [= <- <-].
    apply Hsplit; [by repeat constructor..|done]. }
  destruct (read_file o (URI h)) as [content|] eqn:Hr.
  - destruct (URI h) as [|c name] eqn:Hu; simpl.
    + split; [split; [by rewrite Hr|done]|done].
    + split; [split; [done|by intros [? _]]|]. intros head body [= <- <-].
      apply Hsplit; [by repeat constructor..|done].
  - split; [split; [done|]|].
    + intros [Hu Hs]. rewrite Hu in Hr. rewrite Hr in Hs. by destruct Hs.
    + intros head body [= <- <-]. apply Hsplit; [by repeat constructor..|done].
Qed.

Lemma to_of_bytes l : to_bytes (of_bytes l) = l.
Proof. apply String.list_ascii_of_string_of_list_ascii. Qed.

Lemma until_all stop l : free_of stop l → until stop l = l.
Proof. induction 1 as [|c l Hc Hl IH]; simpl; [done|]. by rewrite Hc, IH. Qed.

(** C22.  [handle_http] does not check that the response fits in [write_buff]:
    a request for [/hello] is answered with the whole response if its version
    is shorter than 3881 bytes, and a longer one makes [sprintf] write past the
    end of the buffer. *)
Theorem hello_overflow (o : os) (keep : bool) (v : list ascii) :
  free_of (λ c, is_eol c || bool_decide (c = NUL)) v →
  handle_http o keep (hello_request v) =
    if decide (length v < 3881)%nat
    then Some (Written keep (v ++ to_bytes (response_head "" " 200 OK" "Content-Type: text/html" body_hello +:+ body_hello))
                (length v + 215))
    else None.
Proof.
  intros Hv. 
  assert (He : free_of is_eol v) by (eapply Forall_impl; [exact Hv|]; intros c [? _]%orb_false_iff; done).
  assert (Hn : free_of (λ c, bool_decide (c = NUL)) v)
    by (eapply Forall_impl; [exact Hv|]; intros c [_ ?]%orb_false_iff; done).
  unfold handle_http, hello_request. rewrite parse_request_bytes by (done || by repeat constructor).
  cbn [head_map foldl mbind option_bind]. unfold respond. cbn [URI version].
  rewrite bool_decide_eq_false_2 by done. rewrite bool_decide_eq_true_2 by done.
  cbn [mbind option_bind].
  set (rest := response_head "" " 200 OK" "Content-Type: text/html" body_hello +:+ body_hello).
  assert (Hb : to_bytes (response_head (of_bytes v) " 200 OK" "Content-Type: text/html" body_hello +:+ body_hello)
    = v ++ to_bytes rest).
  { transitivity (to_bytes (of_bytes v +:+ rest)).
    { f_equal. symmetry. apply (append_assoc (of_bytes v)). }
    by rewrite to_bytes_app, to_of_bytes. }
  rewrite Hb. rewrite until_all.
  2:{ apply free_of_app. split; [done|]. unfold free_of. apply Forall_forall. apply Forall_forall. decides. }
  assert (Hl : length (to_bytes rest) = 215%nat) by evaluates.
  rewrite length_app, Hl. unfold BUFF_SIZE. case_decide as Hd.
  - rewrite option_guard_True by lia. simpl. by rewrite orb_false_r.
  - by rewrite option_guard_False by lia.
Qed.


(** ** A concrete request *)

Lemma parse_request_roundtrip_witness :
  parse_request (to_bytes ("GET /hello HTTP/1.1" +:+ crlf +:+ "Host: a" +:+ crlf +:+
      "Connection: keep-alive" +:+ crlf +:+ crlf)) =
    Some (Http "GET" "HTTP/1.1" "/hello"
      (<["Connection" := "keep-alive"]> (<["Host" := "a"]> (∅ : gmap string string)))).
Proof.
  apply (parse_request_roundtrip (to_bytes "GET") (to_bytes "/hello") (to_bytes "HTTP/1.1")
    [(to_bytes "Host", to_bytes "a"); (to_bytes "Connection", to_bytes "keep-alive")] []);
    repeat constructor.
Defined.

Lemma response_well_framed_witness :
  ∃ head body, respond (Os None (λ _, None)) (Http "GET" "HTTP/1.1" "/x" ∅) = Some (head, body) ∧
    split_head (to_bytes (head +:+ body)) = Some (to_bytes head, to_bytes body).
Proof.
  destruct (response_well_framed (Os None (λ _, None)) (to_bytes ("GET /x HTTP/1.1" +:+ crlf +:+ crlf)))
    as (h & Hp & _ & Hr).
  assert (E : parse_request (to_bytes ("GET /x HTTP/1.1" +:+ crlf +:+ crlf)) =
    Some (Http "GET" "HTTP/1.1" "/x" ∅)) by evaluates.
  rewrite E in Hp. injection Hp as <-. eexists _, _. split; [reflexivity|]. by apply (Hr _ _).
Defined.

Lemma hello_overflow_witness :
  ∃ w, handle_http (Os None (λ _, None)) false (hello_request (to_bytes "HTTP/1.1")) = Some w ∧
    write_length w = 223%nat.
Proof.
  eexists. split.
  - rewrite (hello_overflow (Os None (λ _, None)) false (to_bytes "HTTP/1.1")) by (repeat constructor).
    rewrite decide_True by (simpl; lia). reflexivity.
  - reflexivity.
Defined.
