(* ===== verification/Io.v ===== *)
(** * Socket input and output (otherFun.cpp, channel.cpp)

    The loops around [recv], [read], [send] and [accept].  What the system
    calls return is given as the list of the results of the successive calls;
    a function that consumes the whole list without an end is [None]: it is
    still in its loop. *)

From Stdlib Require Import Ascii.
From S2P Require Import Prelude.

(** ** System calls *)

Inductive errno := EAGAIN | EINTR | EOTHER.

(** [recv] and [read] return some bytes, 0 at the end of the stream, or fail. *)
Inductive rres := Got (bs : list ascii) | Eof | RFails (e : errno).

(** [send] takes the first [n] bytes, returns 0, or fails. *)
Inductive wres := Sent (n : nat) | SentNothing | WFails (e : errno).

(** [accept] returns a descriptor or fails. *)
Inductive ares := Accepted (fd : Z) | AFails (e : errno).

(** ** Reading *)

(** The return value, [buff], and whether [handle_close] was called. *)
Record rout := Read { r_ret : nat; r_buff : list ascii; r_closed : bool }.

Definition zeros (n : nat) : list ascii := replicate n "000"%char.

(** The loop of [readn] and of [sysreadn], which differ in what they do at the
    end of the stream; [got] is what is in [buff] so far. *)
Fixpoint read_loop (close : bool) (rs : list rres) (length : nat) (got : list ascii)
    : option (rout * list rres) :=
  match length with
  | O => Some (Read (List.length got) got false, rs)
  | S _ =>
      match rs with
      | [] => None
      | Got bs :: rs =>
          guard (0 < List.length bs ≤ length);;
          read_loop close rs (length - List.length bs) (got ++ bs)
      | Eof :: rs => Some (Read 0 (got ++ zeros length) close, rs)
      | RFails EAGAIN :: rs => Some (Read (List.length got) (got ++ zeros length) false, rs)
      | RFails _ :: rs => read_loop close rs length got
      end
  end.

Definition readn (length : nat) (rs : list rres) : option (rout * list rres) :=
  read_loop true rs length [].

Definition sysreadn (length : nat) (rs : list rres) : option (rout * list rres) :=
  read_loop false rs length [].

(** [co_readn] calls [recv] once; [inl] is its -1. *)
Definition co_readn (length : nat) (r : rres) : option (unit + rout) :=
  match r with
  | Got bs =>
      guard (0 < List.length bs ≤ length);;
      Some (inr (Read (List.length bs) (bs ++ zeros (length - List.length bs)) false))
  | Eof => Some (inr (Read 0 (zeros length) true))
  | RFails _ => Some (inl ())
  end.

(** ** Writing *)

(** The return value, what was sent, and whether [handle_close] was called. *)
Record wout := Wrote { w_ret : Z; w_sent : list ascii; w_closed : bool }.

Fixpoint write_loop (rs : list wres) (buff sent : list ascii) : option (wout * list wres) :=
  match buff with
  | [] => Some (Wrote (-1) sent false, rs)
  | _ =>
      match rs with
      | [] => None
      | Sent n :: rs =>
          guard (0 < n ≤ length buff);;
          write_loop rs (drop n buff) (sent ++ take n buff)
      | SentNothing :: rs => Some (Wrote 0 sent true, rs)
      | WFails EAGAIN :: rs => Some (Wrote (Z.of_nat (length buff)) sent false, rs)
      | WFails _ :: rs => write_loop rs buff sent
      end
  end.

Definition writen (buff : list ascii) (rs : list wres) : option (wout * list wres) :=
  write_loop rs buff [].

(** [co_writen] calls [send] once. *)
Definition co_writen (buff : list ascii) (r : wres) : option (unit + wout) :=
  match r with
  | Sent n => guard (0 < n ≤ length buff);; Some (inr (Wrote (Z.of_nat n) (take n buff) false))
  | SentNothing => Some (inr (Wrote 0 [] true))
  | WFails _ => Some (inl ())
  end.

(** The bits of [epoll_event::events], and the events that a channel asks for. *)
Definition EPOLLIN : Z := 1.
Definition EPOLLOUT : Z := 4.
Definition EPOLLET : Z := 2 ^ 31.
Definition IN_ET : Z := Z.lor EPOLLIN EPOLLET.
Definition OUT_IN_ET : Z := Z.lor (Z.lor EPOLLOUT EPOLLIN) EPOLLET.

(** [HandleWrite] with [write_buff] and [write_length]: the events it sets, what
    is left to send, and the outcome of [writen].  [memcpy] on overlapping
    memory is undefined. *)
Definition HandleWrite (buff : list ascii) (rs : list wres)
    : option (Z * list ascii * wout * list wres) :=
  '(o, rs) ← writen buff rs;
  let wlen := w_ret o in
  if bool_decide (0 < wlen < Z.of_nat (length buff))%Z then
    let n := Z.to_nat wlen in
    guard (n ≤ length buff - n);;
    Some (OUT_IN_ET, drop (length buff - n) buff, o, rs)
  else Some (IN_ET, buff, o, rs).

(** ** Accepting *)

(** The loop of [Maccept]: the descriptors it hands on, in order.  A failure
    that is neither [EINTR] nor [EAGAIN] and the descriptor 0 (for which
    [errno] is left from an earlier call; here: neither of the two) make it
    call [accept] again. *)
Fixpoint Maccept (rs : list ares) : option (list Z * list ares) :=
  match rs with
  | [] => None
  | Accepted fd :: rs =>
      if decide (0 < fd)%Z then '(fds, rs) ← Maccept rs; Some (fd :: fds, rs)
      else Maccept rs
  | AFails EAGAIN :: rs => Some ([], rs)
  | AFails _ :: rs => Maccept rs
  end.

(** ** Flags *)

Definition O_NONBLOCK : Z := 2048.

(** [fcntl(F_GETFL)] gave [flags]; the result is what [F_SETFL] sets. *)
Definition set_noblock (sockfd flags : Z) : option Z :=
  if decide (sockfd < 0)%Z then None else Some (Z.lor flags O_NONBLOCK).

Definition set_block (sockfd flags : Z) : option Z :=
  if decide (sockfd < 0)%Z then None else Some (Z.land flags (Z.lnot O_NONBLOCK)).

(** ** What a peer sends

    A stream that delivers [bs] in any pieces, with any interruptions. *)
Inductive delivers : list ascii → list rres → Prop :=
  | delivers_nil : delivers [] []
  | delivers_got b bs rs : b ≠ [] → delivers bs rs → delivers (b ++ bs) (Got b :: rs)
  | delivers_fails e bs rs : e ≠ EAGAIN → delivers bs rs → delivers bs (RFails e :: rs).

(** A socket that takes [n] bytes in any pieces. *)
Inductive takes : nat → list wres → Prop :=
  | takes_nil : takes 0 []
  | takes_sent k n rs : 0 < k → takes n rs → takes (k + n) (Sent k :: rs)
  | takes_fails e n rs : e ≠ EAGAIN → takes n rs → takes n (WFails e :: rs).

(** ** The loops *)

Lemma read_loop_delivers close bs rs : delivers bs rs → ∀ rs' n got,
  length bs < n →
  read_loop close (rs ++ rs') n got = read_loop close rs' (n - length bs) (got ++ bs).
Proof.
  induction 1 as [|b bs rs Hb Hd IH|e bs rs He Hd IH]; intros rs' [|n] got Hn; try lia.
  - by rewrite Nat.sub_0_r, app_nil_r.
  - rewrite length_app in *. destruct b as [|x b]; [done|].
    change ((Got (x :: b) :: rs) ++ rs') with (Got (x :: b) :: (rs ++ rs')).
    simpl read_loop at 1. rewrite option_guard_True by (simpl in *; lia). simpl in *.
    rewrite IH by lia. f_equal; [lia|]. by rewrite <-app_assoc.
  - destruct e; [done|..]; simpl in *; by rewrite IH.
Qed.

Lemma read_loop_full close bs rs : delivers bs rs → ∀ rs' n got,
  length bs = n →
  ∃ rs'', read_loop close (rs ++ rs') n got = Some (Read (length (got ++ bs)) (got ++ bs) false, rs'').
Proof.
  induction 1 as [|b bs rs Hb Hd IH|e bs rs He Hd IH]; intros rs' n got Hn.
  - simpl in Hn. subst n. rewrite app_nil_r. eexists. by destruct rs'.
  - rewrite length_app in Hn. destruct b as [|x b]; [done|]. destruct n as [|n]; [done|].
    change ((Got (x :: b) :: rs) ++ rs') with (Got (x :: b) :: (rs ++ rs')).
    simpl read_loop. rewrite option_guard_True by (simpl in *; lia). simpl in *.
    destruct (IH rs' (n - length b) (got ++ x :: b)) as (rs'' & ->); [lia|].
    exists rs''. by rewrite <-app_assoc.
  - destruct n as [|n].
    + apply nil_length_inv in Hn as ->. rewrite app_nil_r. by eexists.
    + destruct e; [done|..]; simpl; by apply IH.
Qed.

Lemma write_loop_takes n rs : takes n rs → ∀ rs' buff sent,
  n < length buff →
  write_loop (rs ++ rs') buff sent = write_loop rs' (drop n buff) (sent ++ take n buff).
Proof.
  induction 1 as [|k n rs Hk Ht IH|e n rs He Ht IH]; intros rs' buff sent Hn.
  - by rewrite drop_0, take_0, app_nil_r.
  - destruct buff as [|x buff]; [simpl in Hn; lia|]. set (l := x :: buff) in *.
    change (write_loop ((Sent k :: rs) ++ rs') l sent) with
      (guard (0 < k ≤ length l);; write_loop (rs ++ rs') (drop k l) (sent ++ take k l)).
    rewrite option_guard_True by lia. simpl. rewrite IH by (rewrite length_drop; lia).
    by rewrite drop_drop, <-app_assoc, take_take_drop.
  - destruct buff as [|x buff]; [simpl in Hn; lia|]. destruct e; [done|..]; simpl; by rewrite IH.
Qed.

Lemma write_loop_all n rs : takes n rs → ∀ rs' buff sent,
  length buff = n → ∃ rs'', write_loop (rs ++ rs') buff sent = Some (Wrote (-1) (sent ++ buff) false, rs'').
Proof.
  induction 1 as [|k n rs Hk Ht IH|e n rs He Ht IH]; intros rs' buff sent Hn.
  - apply nil_length_inv in Hn as ->. rewrite app_nil_r. eexists. by destruct rs'.
  - destruct buff as [|x buff]; [simpl in Hn; lia|]. set (l := x :: buff) in *.
    change (write_loop ((Sent k :: rs) ++ rs') l sent) with
      (guard (0 < k ≤ length l);; write_loop (rs ++ rs') (drop k l) (sent ++ take k l)).
    rewrite option_guard_True by lia. simpl.
    destruct (IH rs' (drop k l) (sent ++ take k l)) as (rs'' & ->); [rewrite length_drop; lia|].
    exists rs''. by rewrite <-app_assoc, take_drop.
  - destruct buff as [|x buff]; [simpl; rewrite app_nil_r; by eexists|].
    destruct e; [done|..]; simpl; by apply IH.
Qed.

Lemma writen_partial n rs rs' buff :
  takes n rs → n < length buff →
  writen buff (rs ++ WFails EAGAIN :: rs') =
    Some (Wrote (Z.of_nat (length buff - n)) (take n buff) false, rs').
Proof.
  intros Ht Hn. unfold writen. rewrite (write_loop_takes n) by done. simpl.
  destruct (drop n buff) as [|x l] eqn:Hd; pose proof (length_drop buff n) as Hl; rewrite Hd in Hl; simpl in *; [lia|].
  by rewrite <-Hl.
Qed.

Lemma HandleWrite_sent n rs rs' buff :
  takes n rs → length buff = n →
  ∃ rs'', HandleWrite buff (rs ++ rs') = Some (IN_ET, buff, Wrote (-1) buff false, rs'').
Proof.
  intros Ht Hn. destruct (write_loop_all n rs Ht rs' buff [] Hn) as (rs'' & Heq).
  exists rs''. unfold HandleWrite, writen. by rewrite Heq.
Qed.

Lemma HandleWrite_rest buff rs i rest out rs' :
  HandleWrite buff rs = Some (i, rest, out, rs') → length rest ≤ length buff.
Proof.
  unfold HandleWrite. destruct (writen buff rs) as [[o rs1]|]; simpl; [|done].
  case_bool_decide; simpl; [|by intros [= _ <- _ _]].
  case_guard; simpl; [|done]. intros [= _ <- _ _]. rewrite length_drop. lia.
Qed.

Lemma Maccept_all fds rs rs' :
  Forall (λ r, match r with Accepted fd => True | AFails e => e ≠ EAGAIN end) rs →
  fds = omap (λ r, match r with Accepted fd => if decide (0 < fd)%Z then Some fd else None | _ => None end) rs →
  Maccept (rs ++ AFails EAGAIN :: rs') = Some (fds, rs').
Proof.
  intros Hok ->. induction Hok as [|r rs Hr Hok IH]; [done|].
  destruct r as [fd|e]; simpl.
  - case_decide; by rewrite IH.
  - by destruct e.
Qed.

(** ** Properties *)

(** C23.  [readn] reads what the peer sent, however the stream cuts it into
    pieces and whatever interruptions there are: all of it when the socket then
    has nothing more ([EAGAIN]), or as much as the buffer holds; the rest of
    the buffer is zero.  When the peer has closed its side after sending, the
    bytes are in the buffer but the connection is closed and 0 is returned, so
    that they are never handled. *)
Theorem readn_correct (bs : list ascii) (rs rs' : list rres) (n : nat) :
  delivers bs rs →
  (length bs < n →
    readn n (rs ++ RFails EAGAIN :: rs') =
      Some (Read (length bs) (bs ++ zeros (n - length bs)) false, rs') ∧
    readn n (rs ++ Eof :: rs') = Some (Read 0 (bs ++ zeros (n - length bs)) true, rs') ∧
    sysreadn n (rs ++ Eof :: rs') = Some (Read 0 (bs ++ zeros (n - length bs)) false, rs')) ∧
  (length bs = n → ∃ rs'', readn n (rs ++ rs') = Some (Read n bs false, rs'')).
Proof.
  intros Hd. split.
  - intros Hn. unfold readn, sysreadn. rewrite !(read_loop_delivers _ _ _ Hd) by done.
    destruct (n - length bs) as [|k] eqn:Hk; [lia|]. done.
  - intros Hn. destruct (read_loop_full true _ _ Hd rs' n [] Hn) as (rs'' & Heq).
    exists rs''. unfold readn. rewrite Heq. simpl. by rewrite Hn.
Qed.

(** [writen] sends the buffer in order: all of it, returning -1, when the
    socket takes it, however it is cut; otherwise the prefix that the socket
    took, returning the length of the rest. *)
Theorem writen_correct (n : nat) (rs rs' : list wres) (buff : list ascii) :
  takes n rs →
  (length buff = n → ∃ rs'', writen buff (rs ++ rs') = Some (Wrote (-1) buff false, rs'')) ∧
  (n < length buff → ∃ o, writen buff (rs ++ WFails EAGAIN :: rs') = Some (o, rs') ∧
    w_closed o = false ∧ w_ret o = Z.of_nat (length buff - n) ∧ w_sent o ++ drop n buff = buff).
Proof.
  intros Ht. split.
  - intros Hn. apply (write_loop_all n rs Ht rs' buff [] Hn).
  - intros Hn. eexists. split; [by apply writen_partial|]. simpl. by rewrite take_drop.
Qed.

(** C25.  [HandleWrite] on every outcome.  When everything is sent it asks for
    input only.  When a part is sent it keeps exactly the unsent rest and asks
    for output as well, if the rest is no longer than what was sent, and
    otherwise copies between overlapping memory.  When nothing can be sent it
    asks for input only, and nothing will send the response. *)
Theorem HandleWrite_correct (n : nat) (rs rs' : list wres) (buff : list ascii) :
  takes n rs → buff ≠ [] →
  (length buff = n → ∃ rs'', HandleWrite buff (rs ++ rs') =
    Some (IN_ET, buff, Wrote (-1) buff false, rs'')) ∧
  (0 < n < length buff → length buff - n ≤ n →
    HandleWrite buff (rs ++ WFails EAGAIN :: rs') =
      Some (OUT_IN_ET, drop n buff, Wrote (Z.of_nat (length buff - n)) (take n buff) false, rs')) ∧
  (0 < n < length buff → n < length buff - n →
    HandleWrite buff (rs ++ WFails EAGAIN :: rs') = None) ∧
  (n = 0 → HandleWrite buff (rs ++ WFails EAGAIN :: rs') =
    Some (IN_ET, buff, Wrote (Z.of_nat (length buff)) [] false, rs')).
Proof.
  intros Ht Hne. assert (0 < length buff) by (destruct buff; [done|simpl; lia]).
  split_and!; [by intros Hn; apply (HandleWrite_sent n)|unfold HandleWrite..].
  - intros Hn Hov. rewrite (writen_partial n) by (done || lia). simpl.
    rewrite bool_decide_eq_true_2 by lia. rewrite Nat2Z.id. rewrite option_guard_True by lia. simpl.
    by replace (length buff - (length buff - n)) with n by lia.
  - intros Hn Hov. rewrite (writen_partial n) by (done || lia). simpl.
    rewrite bool_decide_eq_true_2 by lia. rewrite Nat2Z.id. by rewrite option_guard_False by lia.
  - intros ->. rewrite (writen_partial 0) by (done || lia). simpl.
    rewrite bool_decide_eq_false_2 by lia. by rewrite Nat.sub_0_r.
Qed.

(** ** Concrete streams *)

Lemma readn_correct_witness :
  readn 8 ([Got ["a"; "b"]; RFails EINTR; Got ["c"]] ++ [RFails EAGAIN])%char =
    Some (Read 3 ["a"; "b"; "c"; "000"; "000"; "000"; "000"; "000"]%char false, []).
Proof.
  destruct (readn_correct ["a"; "b"; "c"]%char [Got ["a"; "b"]%char; RFails EINTR; Got ["c"]%char] [] 8)
    as [H _].
  - apply (delivers_got ["a"; "b"]%char ["c"]%char); [done|]. apply delivers_fails; [done|].
    apply (delivers_got ["c"]%char []); [done|]. apply delivers_nil.
  - destruct H as [H _]; [simpl; lia|]. exact H.
Defined.

Lemma writen_correct_witness :
  ∃ o, writen ["a"; "b"; "c"]%char ([WFails EINTR; Sent 2] ++ [WFails EAGAIN]) = Some (o, []) ∧
    w_ret o = 1%Z ∧ w_sent o ++ ["c"]%char = ["a"; "b"; "c"]%char.
Proof.
  destruct (writen_correct 2 [WFails EINTR; Sent 2] [] ["a"; "b"; "c"]%char) as [_ H].
  - apply takes_fails; [done|]. apply (takes_sent 2 0); [lia|apply takes_nil].
  - destruct H as (o & E & _ & E1 & E2); [simpl; lia|]. exists o.
    split; [exact E|]. split; [exact E1|exact E2].
Defined.

Lemma HandleWrite_correct_witness :
  HandleWrite ["a"; "b"; "c"]%char ([Sent 2] ++ [WFails EAGAIN]) =
    Some (OUT_IN_ET, ["c"]%char, Wrote 1 ["a"; "b"]%char false, []).
Proof.
  destruct (HandleWrite_correct 2 [Sent 2] [] ["a"; "b"; "c"]%char) as (_ & H & _ & _).
  - apply (takes_sent 2 0); [lia|apply takes_nil].
  - done.
  - apply H; simpl; lia.
Defined.
