(* ===== verification/Server.v ===== *)
(** * Connections of an event loop (Epoll.cpp, channel.cpp, Httpdata.cpp)

    [Epoll] keeps the channels of a thread by descriptor and mirrors them in
    the kernel's epoll instance; [Httpdata::handle_event] reads a request,
    answers it and decides whether the connection lives on.  A channel is
    closed when the last pointer to it goes: the ones of [Mmap] and of its
    timer, since the vector that [Poll] returned is gone by then. *)

From Stdlib Require Import Ascii.
From S2P Require Import Prelude Http Io.

Local Open Scope cint_scope.

(** ** Data *)

(** The function pointers that the program stores in [channel::read]. *)
Inductive handle := h_readn | h_co_readn | h_sysreadn | h_Maccept.

#[global] Instance handle_eq_dec : EqDecision handle.
Proof. solve_decision. Defined.

(** [events] is [epevent.events]; [wbuf] is the whole of [write_buff]; [timer] is the timeout in seconds of
    the [TimeRoundItem] that [wp_time_round_item] points to, if it is alive and
    holds the channel. *)
Record chan := Chan {
  fd : Z;
  events : Z;
  read : handle;
  Keep_Alive : bool;
  timer : option Z;
  wbuf : list ascii;
}.

(** [kernel] is the interest list of [epfd], and [opened] the descriptors that
    are open. *)
Record epoll := Epoll {
  Mmap : gmap Z chan;
  kernel : gmap Z Z;
  opened : gset Z;
  event_channel : option Z;
}.

Definition set_timer (t : option Z) (c : chan) : chan :=
  Chan (fd c) (events c) (read c) (Keep_Alive c) t (wbuf c).
Definition set_events (i : Z) (c : chan) : chan :=
  Chan (fd c) i (read c) (Keep_Alive c) (timer c) (wbuf c).
Definition set_keep (k : bool) (c : chan) : chan :=
  Chan (fd c) (events c) (read c) k (timer c) (wbuf c).
Definition set_wbuf (b : list ascii) (c : chan) : chan :=
  Chan (fd c) (events c) (read c) (Keep_Alive c) (timer c) b.

(** ** The registry *)

(** [epoll_ctl] fails, unnoticed, on a descriptor that is not open or is in the
    list already. *)
Definition Epoll_Add (c : chan) (e : epoll) : Z * epoll :=
  match Mmap e !! fd c with
  | Some _ => (-1, e)%Z
  | None =>
      (0%Z, Epoll (<[fd c := c]> (Mmap e))
         (if bool_decide (fd c ∈ opened e ∧ kernel e !! fd c = None)
          then <[fd c := events c]> (kernel e) else kernel e)
         (opened e) (event_channel e))
  end.

Definition Epoll_Del (f : Z) (e : epoll) : Z * epoll :=
  match Mmap e !! f with
  | None => (-1, e)%Z
  | Some _ => (0%Z, Epoll (delete f (Mmap e)) (delete f (kernel e)) (opened e) (event_channel e))
  end.

(** The channel object is the one in [Mmap], if it is there. *)
Definition Epoll_Mod (c : chan) (e : epoll) : epoll :=
  Epoll (Mmap e) (alter (λ _, events c) (fd c) (kernel e)) (opened e) (event_channel e).

Definition store (c : chan) (e : epoll) : epoll :=
  Epoll (alter (λ _, c) (fd c) (Mmap e)) (kernel e) (opened e) (event_channel e).

(** [reported] is what [epoll_wait] gave: descriptors with their events.  The
    result is the channels, by descriptor; without a positive count the function
    returns nothing at all. *)
Definition Poll (reported : list (Z * Z)) (e : epoll) : option (list Z * epoll) :=
  guard (reported ≠ []);;
  Some (filter (λ f, is_Some (Mmap e !! f)) reported.*1,
    Epoll (foldl (λ m r, alter (set_events r.2) r.1 m) (Mmap e) reported)
      (kernel e) (opened e) (event_channel e)).

(** [close], which also takes the descriptor off the kernel's list. *)
Definition close_fd (f : Z) (e : epoll) : epoll :=
  Epoll (Mmap e) (delete f (kernel e)) (opened e ∖ {[f]}) (event_channel e).

(** The last local pointer to [c] goes.  The channel of the event descriptor is
    held by [event_channel] as well. *)
Definition release (c : chan) (e : epoll) : epoll :=
  match Mmap e !! fd c, timer c with
  | None, None => if decide (event_channel e = Some (fd c)) then e else close_fd (fd c) e
  | _, _ => e
  end.

(** ** Distribution of connections (EventLoopThreadPool.cpp, otherFun.cpp) *)

(** [cur_event_epoll], and the counter of the event descriptor of each worker
    thread: [write] adds to it. *)
Record dispatcher := Dispatcher { cur_event_epoll : nat; counters : list Z }.

(** [start] with [n] threads: their event descriptors count from 0. *)
Definition thread_pool (n : nat) : dispatcher := Dispatcher 0 (replicate n 0%Z).

Definition GetNextEventEpollFd (d : dispatcher) : option (nat * dispatcher) :=
  guard (length (counters d) ≠ 0);;
  let cur := (cur_event_epoll d + 1) mod length (counters d) in
  Some (cur, Dispatcher cur (counters d)).

Definition dispatch (d : dispatcher) (connfd : Z) : option (nat * dispatcher) :=
  '(w, d) ← GetNextEventEpollFd d;
  Some (w, Dispatcher (cur_event_epoll d) (alter (λ n, (n + connfd)%Z) w (counters d))).

Fixpoint dispatch_all (d : dispatcher) (fds : list Z) : option (list nat * dispatcher) :=
  match fds with
  | [] => Some ([], d)
  | f :: fds => '(w, d) ← dispatch d f; '(ws, d) ← dispatch_all d fds; Some (w :: ws, d)
  end.

(** ** Events *)

(** What a thread works on: its epoll and, in the main thread of a program with
    several threads, [event_loop_thread_pool]. *)
Record loop_state := LoopState { ep : epoll; threads : option dispatcher }.

Definition set_ep (e : epoll) (s : loop_state) : loop_state := LoopState e (threads s).

(** What the system calls in one [handle_event] return; [io_wbuf] is what a
    fresh [write_buff] contains. *)
Record calls := Calls {
  io_reads : list rres;
  io_writes : list wres;
  io_accepts : list ares;
  io_wbuf : list ascii;
}.

(** A channel that is not added is destroyed, and its destructor closes the
    descriptor. *)
Definition Add_New_Connect (f : Z) (new_wbuf : list ascii) (e : epoll) : epoll :=
  let '(ret, e) := Epoll_Add (Chan f IN_ET h_readn false None new_wbuf) e in
  if decide (ret = -1)%Z then close_fd f e else e.

Definition add_all (fds : list Z) (new_wbuf : list ascii) (e : epoll) : epoll :=
  foldl (λ e f, Add_New_Connect f new_wbuf e) e fds.

Definition SeparateTimer (c : chan) : chan := set_timer None c.

Definition handle_close (c : chan) (e : epoll) : chan * epoll :=
  (SeparateTimer c, (Epoll_Del (fd c) (store (SeparateTimer c) e)).2).

(** [read_length], [read_buff] as far as it was read, and the channel. *)
Definition HandleRead (x : calls) (c : chan) (s : loop_state)
    : option (Z * list ascii * chan * loop_state) :=
  let after (r : rout) :=
    let '(c, e) := if r_closed r then handle_close c (ep s) else (c, ep s) in
    (Z.of_nat (r_ret r), take (r_ret r) (r_buff r), c, set_ep e s) in
  match read c with
  | h_readn => '(r, _) ← readn BUFF_SIZE (io_reads x); Some (after r)
  | h_sysreadn => '(r, _) ← sysreadn BUFF_SIZE (io_reads x); Some (after r)
  | h_co_readn =>
      r ← head (io_reads x);
      r ← co_readn BUFF_SIZE r;
      Some (match r with inl _ => (-1, [], c, s)%Z | inr r => after r end)
  | h_Maccept =>
      '(fds, _) ← Maccept (io_accepts x);
      match threads s with
      | None => Some (-1, [], c, set_ep (add_all fds (io_wbuf x) (ep s)) s)%Z
      | Some d => '(_, d) ← dispatch_all d fds; Some (-1, [], c, LoopState (ep s) (Some d))%Z
      end
  end.

(** [sprintf] of the response into [write_buff]. *)
Definition fill (text buf : list ascii) : list ascii := text ++ NUL :: drop (S (length text)) buf.

(** [handle_http] and the [HandleWrite] it ends with; the result is the channel,
    the epoll and the bytes that were sent. *)
Definition answer (o : os) (ws : list wres) (request : list ascii) (c : chan) (e : epoll)
    : option (chan * epoll * list ascii) :=
  w ← handle_http o (Keep_Alive c) request;
  let c := set_keep (keep_alive w) (set_wbuf (fill (write_buff w) (wbuf c)) c) in
  guard (write_length w ≤ length (wbuf c));;
  '(i, rest, out, _) ← HandleWrite (take (write_length w) (wbuf c)) ws;
  let c := set_wbuf (rest ++ drop (length rest) (wbuf c)) c in
  let '(c, e) := if w_closed out then handle_close c e else (c, e) in
  let c := set_events i c in
  Some (c, Epoll_Mod c (store c e), w_sent out).

(** What [handle_event] does after a request: a timer for the connection, or its
    end. *)
Definition keep_or_close (timed : bool) (c : chan) (e : epoll) : chan * epoll :=
  let c := SeparateTimer c in
  if timed && Keep_Alive c then let c := set_timer (Some 5)%Z c in (c, store c e)
  else if Keep_Alive c then (c, store c e)
  else handle_close c e.

(** A [uint64_t] in memory. *)
Definition le64 (bs : list ascii) : Z :=
  foldr (λ b n, Z.of_nat (nat_of_ascii b) + 256 * n)%Z 0%Z (take 8 bs).

(** The descriptors in what was read from the event descriptor, 8 bytes each;
    [buff] is zero after what was read. *)
Fixpoint event_fds (fuel : nat) (buff : list ascii) : list Z :=
  match fuel, buff with
  | S fuel, _ :: _ => s32 (le64 buff) :: event_fds fuel (drop 8 buff)
  | _, _ => []
  end.

(** [Httpdata::handle_event] of the channel [f]; [timed] says whether there is a
    time wheel.  The result is the state and the bytes sent to the client. *)
Definition handle_event (o : os) (timed : bool) (x : calls) (f : Z) (s : loop_state)
    : option (loop_state * list ascii) :=
  c ← Mmap (ep s) !! f;
  let is_event := bool_decide (event_channel (ep s) = Some f) in
  '(read_length, buff, c, s) ← HandleRead x c s;
  let done (c : chan) (e : epoll) (sent : list ascii) := Some (set_ep (release c e) s, sent) in
  if is_event then done c (add_all (event_fds (length buff) buff) (io_wbuf x) (ep s)) []
  else if bool_decide (read c = h_co_readn ∨ read c = h_readn) && bool_decide (0 < read_length)%Z then
    '(c, e, sent) ← answer o (io_writes x) buff c (ep s);
    let '(c, e) := keep_or_close timed c e in
    done c e sent
  else done c (ep s) [].

(** The timer of a channel fires: the destructor of the [TimeRoundItem] calls
    [Close] and lets go of the channel. *)
Definition time_out (c : chan) (e : epoll) : epoll :=
  release (SeparateTimer c) (Epoll_Del (fd c) (store (SeparateTimer c) e)).2.

(** ** Well-formed registries *)

(** The kernel watches exactly the registered descriptors, which are open. *)
Record epoll_ok (e : epoll) : Prop := {
  eo_dom : ∀ f, is_Some (kernel e !! f) ↔ is_Some (Mmap e !! f);
  eo_fd : ∀ f c, Mmap e !! f = Some c → fd c = f ∧ f ∈ opened e ∧ length (wbuf c) = BUFF_SIZE;
}.

(** [e'] differs from [e] in the descriptor [f] only. *)
Definition same_but (f : Z) (e e' : epoll) : Prop :=
  event_channel e' = event_channel e ∧
  ∀ g, g ≠ f → Mmap e' !! g = Mmap e !! g ∧ kernel e' !! g = kernel e !! g ∧
    (g ∈ opened e' ↔ g ∈ opened e).

(** [f] is neither registered nor open. *)
Definition gone (f : Z) (e : epoll) : Prop :=
  Mmap e !! f = None ∧ kernel e !! f = None ∧ f ∉ opened e.

(** [f] is registered with the channel [c] and watched for the events [i]. *)
Definition served (f : Z) (c : chan) (i : Z) (e : epoll) : Prop :=
  Mmap e !! f = Some c ∧ kernel e !! f = Some i ∧ f ∈ opened e.

(** What [read] returns on an event descriptor that counts [n]: the counter once,
    in the byte order of the machine, and then nothing. *)
Fixpoint to_le (k : nat) (n : Z) : list ascii :=
  match k with
  | O => []
  | S k => ascii_of_nat (Z.to_nat (n mod 256)) :: to_le k (n / 256)
  end.

Definition eventfd_read (n : Z) : list rres := [Got (to_le 8 n); RFails EAGAIN].

(** The descriptor [f] is well formed in [e]. *)
Definition fd_ok (f : Z) (e : epoll) : Prop :=
  (is_Some (kernel e !! f) ↔ is_Some (Mmap e !! f)) ∧
  ∀ c, Mmap e !! f = Some c → fd c = f ∧ f ∈ opened e ∧ length (wbuf c) = BUFF_SIZE.

(** The channel [c] of [f], registered or not. *)
Record conn (f : Z) (c : chan) (e : epoll) : Prop := {
  cn_fd : fd c = f;
  cn_wbuf : length (wbuf c) = BUFF_SIZE;
  cn_ok : epoll_ok e;
  cn_event : event_channel e ≠ Some f;
  cn_open : f ∈ opened e;
}.

Definition changed (f : Z) (c : chan) (e e' : epoll) : Prop := conn f c e' ∧ same_but f e e'.

(** What can become of a connection: it is registered, closed, or closed but for
    its timer. *)
Definition conn_state (f : Z) (timed : bool) (c : chan) (e : epoll) : Prop :=
  (∃ i, served f c i e) ∨ gone f e ∨
  (timed = true ∧ timer c = Some 5%Z ∧ Mmap e !! f = None ∧ kernel e !! f = None ∧ f ∈ opened e).

Definition total (fds : list Z) : Z := foldr Z.add 0%Z fds.

(** The descriptors that were written to worker [w]. *)
Definition given (w : nat) (ws : list nat) (fds : list Z) : list Z :=
  (filter (λ p, p.1 = w) (zip ws fds)).*2.

Definition demo_chan : chan := Chan 7 IN_ET h_readn false None (zeros BUFF_SIZE).
Definition demo_event : chan := Chan 4 IN_ET h_sysreadn false None (zeros BUFF_SIZE).
Definition demo_loop (b : bool) : loop_state :=
  LoopState (Epoll (<[4 := demo_event]> (if b then {[7 := demo_chan]} else ∅))%Z
    (<[4 := IN_ET]> (if b then {[7 := IN_ET]} else ∅))%Z {[4; 7; 8]}%Z (Some 4%Z)) None.

Definition demo_request : list ascii :=
  request_bytes (to_bytes "GET") (to_bytes "/hello") (to_bytes "HTTP/1.1")
    [(to_bytes "Connection", to_bytes "keep-alive")] [].

Definition demo_calls : calls :=
  Calls ([Got (take 10 demo_request); RFails EINTR; Got (drop 10 demo_request)] ++ [RFails EAGAIN])
    ([Sent 100; WFails EINTR; Sent 123] ++ []) [] (zeros BUFF_SIZE).

Definition demo_written : written :=
  default (Written false [] 0) (handle_http (Os None (λ _, None)) false demo_request).

(** ** One descriptor at a time *)

Lemma same_but_refl f e : same_but f e e.
Proof. by split. Qed.

Lemma same_but_trans f e1 e2 e3 : same_but f e1 e2 → same_but f e2 e3 → same_but f e1 e3.
Proof.
  intros [He1 H1] [He2 H2]. split; [by rewrite He2|]. intros g Hg.
  destruct (H1 g Hg) as (? & ? & ?), (H2 g Hg) as (? & ? & ?). split_and!; [congruence..|]. tauto.
Qed.

(** Solves [same_but] for an operation that is a few updates at [f]. *)
Ltac elsewhere :=
  split; [done|]; intros g Hg; simpl;
  rewrite ?lookup_alter_ne, ?lookup_delete_ne by congruence;
  split_and!; [done..|set_solver].

Lemma store_same_but c e : same_but (fd c) e (store c e).
Proof. elsewhere. Qed.

Lemma Epoll_Mod_same_but c e : same_but (fd c) e (Epoll_Mod c e).
Proof. elsewhere. Qed.

Lemma Epoll_Del_same_but f e : same_but f e (Epoll_Del f e).2.
Proof. unfold Epoll_Del. destruct (Mmap e !! f); [elsewhere|apply same_but_refl]. Qed.

Lemma close_fd_same_but f e : same_but f e (close_fd f e).
Proof. elsewhere. Qed.

Lemma release_same_but c e : same_but (fd c) e (release c e).
Proof.
  unfold release. destruct (Mmap e !! fd c), (timer c); try apply same_but_refl.
  case_decide; [apply same_but_refl|apply close_fd_same_but].
Qed.

Lemma handle_close_same_but c e : same_but (fd c) e (handle_close c e).2.
Proof. eapply same_but_trans; [apply (store_same_but (SeparateTimer c))|apply Epoll_Del_same_but]. Qed.

Lemma epoll_ok_fd e f : epoll_ok e → fd_ok f e.
Proof. intros [H1 H2]. split; [apply H1|by apply H2]. Qed.

Lemma same_but_ok f e e' : epoll_ok e → same_but f e e' → fd_ok f e' → epoll_ok e'.
Proof.
  intros [H1 H2] [_ Hs] [H3 H4]. split.
  - intros g. destruct (decide (g = f)) as [->|Hg]; [done|]. destruct (Hs g Hg) as (-> & -> & _). apply H1.
  - intros g c Hc. destruct (decide (g = f)) as [->|Hg]; [by apply H4|].
    destruct (Hs g Hg) as (E & _ & Ho). rewrite E in Hc. rewrite Ho. by apply H2.
Qed.

Lemma gone_ok f e : gone f e → fd_ok f e.
Proof. intros (E1 & E2 & _). split; [rewrite E1, E2|rewrite E1]; [by split|done]. Qed.

Lemma served_ok f c i e : served f c i e → fd c = f → length (wbuf c) = BUFF_SIZE → fd_ok f e.
Proof. intros (E1 & E2 & ?) ??. split; rewrite E1; [rewrite E2; by split; eauto|intros ? [= <-]; done]. Qed.

Lemma handle_close_served c c0 i e :
  served (fd c) c0 i e → handle_close c e = (SeparateTimer c, Epoll (delete (fd c) (Mmap e)) (delete (fd c) (kernel e)) (opened e) (event_channel e)).
Proof.
  intros (E1 & _). unfold handle_close, Epoll_Del. simpl. rewrite lookup_alter_eq, E1. simpl.
  do 2 f_equal. apply map_eq. intros g. destruct (decide (g = fd c)) as [->|]; [by rewrite !lookup_delete_eq|].
  by rewrite !lookup_delete_ne, lookup_alter_ne.
Qed.

Lemma store_served c c0 i e : served (fd c) c0 i e → served (fd c) c i (store c e).
Proof. intros (E1 & E2 & ?). split_and!; [|done..]. simpl. by rewrite lookup_alter_eq, E1. Qed.

Lemma Epoll_Mod_served c c0 i e : served (fd c) c0 i e → served (fd c) c0 (events c) (Epoll_Mod c e).
Proof. intros (E1 & E2 & ?). split_and!; [done| |done]. simpl. by rewrite lookup_alter_eq, E2. Qed.

Lemma release_served c c0 i e : served (fd c) c0 i e → release c e = e.
Proof. intros (E1 & _). unfold release. by rewrite E1. Qed.

(** A channel with no timer that was taken off the registry is closed. *)
Lemma handle_close_gone c c0 i e :
  served (fd c) c0 i e → event_channel e ≠ Some (fd c) →
  let '(c', e') := handle_close c e in gone (fd c) (release c' e').
Proof.
  intros Hs Hev. rewrite (handle_close_served _ _ _ _ Hs). unfold release. simpl.
  rewrite lookup_delete_eq, decide_False by done. unfold gone, close_fd. simpl.
  rewrite !lookup_delete_eq. set_solver.
Qed.

(** ** A connection during its handler *)

Lemma conn_served f c e : conn f c e → is_Some (Mmap e !! f) → ∃ c0 i, served (fd c) c0 i e.
Proof.
  intros Hc [c0 H0]. destruct (eo_dom e (cn_ok _ _ _ Hc) f) as [_ H]. destruct H as [i Hi]; [by eexists|].
  exists c0, i. rewrite (cn_fd _ _ _ Hc). split_and!; [done..|]. apply Hc.
Qed.

Lemma conn_intro f c e e' :
  conn f c e → same_but f e e' → fd_ok f e' → f ∈ opened e' → conn f c e'.
Proof.
  intros [] Hs Hf Ho. split; [done|done| |by rewrite (proj1 Hs)|done]. by eapply same_but_ok.
Qed.

Lemma store_conn f c e : conn f c e → changed f c e (store c e).
Proof.
  intros Hc. pose proof (store_same_but c e) as Hs. rewrite (cn_fd _ _ _ Hc) in Hs. split; [|done].
  apply (conn_intro f c e); [done..| |apply Hc].
  destruct (Mmap e !! f) as [c0|] eqn:E.
  - destruct (conn_served f c e Hc) as (c1 & i & H); [by rewrite E|]. apply store_served in H.
    rewrite (cn_fd _ _ _ Hc) in H. by apply (served_ok _ _ _ _ H); apply Hc.
  - pose proof (epoll_ok_fd e f (cn_ok _ _ _ Hc)) as [H1 H2]. split; simpl; rewrite (cn_fd _ _ _ Hc), lookup_alter_eq, E; [|done].
    by rewrite H1, E.
Qed.

Lemma Epoll_Mod_conn f c e : conn f c e → changed f c e (Epoll_Mod c e).
Proof.
  intros Hc. pose proof (Epoll_Mod_same_but c e) as Hs. rewrite (cn_fd _ _ _ Hc) in Hs. split; [|done].
  apply (conn_intro f c e); [done..| |apply Hc].
  pose proof (epoll_ok_fd e f (cn_ok _ _ _ Hc)) as [H1 H2]. split; simpl; [|done].
  rewrite (cn_fd _ _ _ Hc), lookup_alter_eq, fmap_is_Some. done.
Qed.

Lemma conn_with f c c' e : conn f c e → fd c' = fd c → length (wbuf c') = length (wbuf c) → conn f c' e.
Proof. intros [] E1 E2. split; congruence. Qed.

Lemma handle_close_conn f c e :
  conn f c e → let '(c', e') := handle_close c e in
  c' = SeparateTimer c ∧ changed f c' e e' ∧ Mmap e' !! f = None ∧ kernel e' !! f = None.
Proof.
  intros Hc. pose proof (cn_fd _ _ _ Hc) as Hf. pose proof (handle_close_same_but c e) as Hs.
  rewrite Hf in Hs.
  assert (E : let '(c', e') := handle_close c e in c' = SeparateTimer c ∧ Mmap e' !! f = None ∧ kernel e' !! f = None ∧ f ∈ opened e').
  { destruct (Mmap e !! f) as [c0|] eqn:E.
    - destruct (conn_served f c e Hc) as (c1 & i & H); [by rewrite E|].
      rewrite (handle_close_served _ _ _ _ H), Hf. simpl. rewrite !lookup_delete_eq. split_and!; [done..|apply Hc].
    - unfold handle_close, Epoll_Del. simpl. rewrite Hf, lookup_alter_eq, E. simpl. rewrite Hf, lookup_alter_eq, E.
      split_and!; [done..| |apply Hc]. apply eq_None_not_Some. rewrite (eo_dom e (cn_ok _ _ _ Hc)), E. by intros []. }
  destruct (handle_close c e) as [c' e']. destruct E as (-> & E1 & E2 & E3). simpl in Hs. split_and!; try done.
  split; [|done]. apply (conn_with f c); [|done..]. apply (conn_intro f c e); [done..| |done].
  split; rewrite E1; [by rewrite E2|done].
Qed.

Lemma changed_trans f c1 c2 e1 e2 e3 : changed f c1 e1 e2 → changed f c2 e2 e3 → changed f c2 e1 e3.
Proof. intros [_ H1] [? H2]. split; [done|]. by eapply same_but_trans. Qed.

Lemma changed_refl f c e : conn f c e → changed f c e e.
Proof. intros Hc. split; [done|apply same_but_refl]. Qed.

Lemma fill_length text buf : S (length text) ≤ length buf → length (fill text buf) = length buf.
Proof. intros. unfold fill. rewrite length_app. simpl. rewrite length_drop. lia. Qed.

Lemma handle_http_fits o keep request w : handle_http o keep request = Some w → S (length (write_buff w)) ≤ BUFF_SIZE.
Proof.
  unfold handle_http. destruct (parse_request request) as [h|]; simpl; [|done].
  destruct (respond o h) as [[head body]|]; simpl; [|done].
  set (text := until _ _). case_guard as Hg; simpl; [|done]. intros [= <-]. exact Hg.
Qed.

Lemma answer_changed o ws request f c e c' e' sent :
  conn f c e → answer o ws request c e = Some (c', e', sent) → changed f c' e e'.
Proof.
  intros Hc. unfold answer. destruct (handle_http o (Keep_Alive c) request) as [w|] eqn:Hw; simpl; [|done].
  apply handle_http_fits in Hw. rewrite <-(cn_wbuf _ _ _ Hc) in Hw. pose proof (fill_length _ _ Hw) as Hl.
  case_guard as Hg; simpl; [|done].
  destruct (HandleWrite _ _) as [[[[i rest] out] ?]|] eqn:HW; simpl; [|done].
  apply HandleWrite_rest in HW. rewrite length_take in HW.
  set (c1 := set_wbuf _ _).
  assert (H1 : conn f c1 e).
  { apply (conn_with f c); [done..|]. simpl. rewrite length_app, length_drop. lia. }
  assert (∃ c2 e2, (if w_closed out then handle_close c1 e else (c1, e)) = (c2, e2) ∧ changed f c2 e e2)
    as (c2 & e2 & -> & H2).
  { destruct (w_closed out); [|exists c1, e; split; [done|]; split; [done|apply same_but_refl]].
    pose proof (handle_close_conn f c1 e H1) as H2. destruct (handle_close c1 e) as [c2 e2].
    exists c2, e2. split; [done|]. apply H2. }
  intros [= <- <- <-].
  assert (H3 : conn f (set_events i c2) e2) by (by apply (conn_with f c2); [apply H2|..]).
  eapply changed_trans; [exact H2|]. eapply changed_trans; [by apply store_conn|].
  apply Epoll_Mod_conn. by apply store_conn.
Qed.

Lemma release_state f timed c e :
  conn f c e → Mmap e !! f = Some c ∨ Mmap e !! f = None →
  timer c = None ∨ timed = true ∧ timer c = Some 5%Z ∨ Mmap e !! f = Some c →
  epoll_ok (release c e) ∧ same_but f e (release c e) ∧ conn_state f timed c (release c e).
Proof.
  intros Hc HM Ht. pose proof (cn_fd _ _ _ Hc) as Hf.
  pose proof (release_same_but c e) as Hs. rewrite Hf in Hs.
  assert (conn_state f timed c (release c e) ∧ fd_ok f (release c e)) as [Hse Hok].
  { destruct HM as [HM|HM].
    - destruct (conn_served f c e Hc) as (c1 & i & H); [by rewrite HM|].
      rewrite (release_served _ _ _ _ H). split; [|apply epoll_ok_fd, Hc].
      left. exists i. destruct H as (_ & ? & ?). rewrite Hf in *. by split.
    - assert (HK : kernel e !! f = None).
      { apply eq_None_not_Some. rewrite (eo_dom e (cn_ok _ _ _ Hc)), HM. by intros []. }
      unfold release. rewrite Hf, HM. destruct (timer c) as [t|] eqn:E.
      + split; [|apply epoll_ok_fd, Hc]. right; right. destruct Ht as [?|[[??]|?]]; [done| |congruence].
        split_and!; [congruence..|apply Hc].
      + rewrite decide_False by apply Hc.
        assert (gone f (close_fd f e)) by (split_and!; simpl; [done|apply lookup_delete_eq|set_solver]).
        split; [by right; left|by apply gone_ok]. }
  split; [|done]. eapply same_but_ok; [apply Hc|done..].
Qed.

Lemma keep_or_close_eq timed c e :
  keep_or_close timed c e =
    if Keep_Alive c
    then let c' := set_timer (if timed then Some 5%Z else None) c in (c', store c' e)
    else handle_close (SeparateTimer c) e.
Proof. unfold keep_or_close. simpl. by destruct timed, (Keep_Alive c). Qed.

Lemma keep_or_close_state timed f c e :
  conn f c e →
  let '(c', e') := keep_or_close timed c e in
  epoll_ok (release c' e') ∧ same_but f e (release c' e') ∧ conn_state f timed c' (release c' e').
Proof.
  intros Hc. pose proof (cn_fd _ _ _ Hc) as Hf.
  assert (Hstore : ∀ t, timed = true ∨ t = None → t = None ∨ t = Some 5%Z → 
    let c' := set_timer t c in let e' := store c' e in
    epoll_ok (release c' e') ∧ same_but f e (release c' e') ∧ conn_state f timed c' (release c' e')).
  { intros t Ht1 Ht2. set (c' := set_timer t c).
    assert (H1 : conn f c' e) by by apply (conn_with f c).
    destruct (store_conn f c' e H1) as [H2 H3].
    destruct (release_state f timed c' (store c' e) H2) as (? & ? & ?).
    - simpl. rewrite Hf, lookup_alter_eq. destruct (Mmap e !! f); auto.
    - simpl. destruct Ht1 as [->| ->]; [|by left]. destruct Ht2 as [->| ->]; auto.
    - split_and!; [done| |done]. by eapply same_but_trans. }
  rewrite keep_or_close_eq. destruct (Keep_Alive c); [apply Hstore; destruct timed; auto|].
  assert (H1 : conn f (SeparateTimer c) e) by by apply (conn_with f c).
  pose proof (handle_close_conn f (SeparateTimer c) e H1) as H2.
  destruct (handle_close (SeparateTimer c) e) as [c' e']. destruct H2 as (-> & [H2 H3] & H4 & H5).
  destruct (release_state f timed _ e' H2) as (? & ? & ?); [by right|by left|].
  split_and!; [done| |done]. by eapply same_but_trans.
Qed.

(** Reading from a client touches only its channel. *)
Lemma HandleRead_client x f c s len buff c' s' :
  conn f c (ep s) → Mmap (ep s) !! f = Some c → read c = h_readn ∨ read c = h_co_readn →
  HandleRead x c s = Some (len, buff, c', s') →
  changed f c' (ep s) (ep s') ∧ threads s' = threads s ∧ read c' = read c ∧
  (Mmap (ep s') !! f = Some c' ∨ Mmap (ep s') !! f = None ∧ timer c' = None).
Proof.
  intros Hc HM Hr.
  assert (Hafter : ∀ r, (let '(c, e) := if r_closed r then handle_close c (ep s) else (c, ep s) in
      (Z.of_nat (r_ret r), take (r_ret r) (r_buff r), c, set_ep e s)) = (len, buff, c', s') →
    changed f c' (ep s) (ep s') ∧ threads s' = threads s ∧ read c' = read c ∧
    (Mmap (ep s') !! f = Some c' ∨ Mmap (ep s') !! f = None ∧ timer c' = None)).
  { intros r. destruct (r_closed r).
    - pose proof (handle_close_conn f c (ep s) Hc) as H. destruct (handle_close c (ep s)) as [c1 e1].
      destruct H as (-> & H1 & H2 & H3). intros [= <- <- <- <-]. split_and!; [apply H1..| | |]; auto.
    - intros [= <- <- <- <-]. split_and!; [exact (changed_refl f c (ep s) Hc)|..]; auto. }
  unfold HandleRead. destruct Hr as [Hr|Hr]; rewrite Hr in Hafter |- *.
  - destruct (readn BUFF_SIZE (io_reads x)) as [[r ?]|]; simpl; [|done]. intros [= H]. by apply (Hafter r).
  - destruct (head (io_reads x)) as [r|]; simpl; [|done].
    destruct (co_readn BUFF_SIZE r) as [[|r']|]; simpl; [| |done].
    + intros [= <- <- <- <-]. split_and!; [exact (changed_refl f c (ep s) Hc)|..]; auto.
    + intros [= H]. by apply (Hafter r').
Qed.

Lemma handle_event_client o timed x f c s s' sent :
  epoll_ok (ep s) → event_channel (ep s) ≠ Some f → Mmap (ep s) !! f = Some c →
  read c = h_readn ∨ read c = h_co_readn →
  handle_event o timed x f s = Some (s', sent) →
  epoll_ok (ep s') ∧ same_but f (ep s) (ep s') ∧ threads s' = threads s ∧ ∃ c', conn_state f timed c' (ep s').
Proof.
  intros Hok Hev HM Hr. destruct (eo_fd _ Hok f c HM) as (Hf & Ho & Hl).
  unfold handle_event. rewrite HM. simpl. rewrite bool_decide_eq_false_2 by done.
  destruct (HandleRead x c s) as [[[[len buff] c1] s1]|] eqn:HR; simpl; [|done].
  apply (HandleRead_client x f) in HR as ([H1 H2] & Ht & Hr1 & HM1); [|by split|done..].
  case_bool_decide; case_bool_decide; simpl.
  2,3,4: intros [= <- <-]; destruct (release_state f timed c1 (ep s1) H1) as (? & ? & ?);
    [tauto|tauto|]; split_and!; [done|by eapply same_but_trans|done|by eexists].
  destruct (answer o (io_writes x) buff c1 (ep s1)) as [[[c2 e2] out]|] eqn:HA; simpl; [|done].
  apply (answer_changed _ _ _ f) in HA as [H3 H4]; [|done].
  pose proof (keep_or_close_state timed f c2 e2 H3) as H5.
  destruct (keep_or_close timed c2 e2) as [c3 e3]. destruct H5 as (? & ? & ?).
  intros [= <- <-]. simpl. split_and!; [done| |done|by eexists].
  eapply same_but_trans; [done|]. by eapply same_but_trans.
Qed.

(** ** A request that is answered *)

Lemma readn_request request rs rs' :
  delivers request rs → length request < BUFF_SIZE →
  readn BUFF_SIZE (rs ++ RFails EAGAIN :: rs') =
    Some (Read (length request) (request ++ zeros (BUFF_SIZE - length request)) false, rs').
Proof.
  intros Hd Hn. unfold readn. rewrite (read_loop_delivers _ _ _ Hd) by done.
  destruct (BUFF_SIZE - length request) as [|k] eqn:Hk; [lia|]. done.
Qed.

Lemma answer_sent o ws ws' request c e w :
  length (wbuf c) = BUFF_SIZE → handle_http o (Keep_Alive c) request = Some w →
  write_length w = length (write_buff w) → takes (write_length w) ws →
  let c' := Chan (fd c) IN_ET (read c) (keep_alive w) (timer c) (fill (write_buff w) (wbuf c)) in
  answer o (ws ++ ws') request c e = Some (c', Epoll_Mod c' (store c' e), write_buff w).
Proof.
  intros Hl Hw Hn Ht. pose proof (handle_http_fits _ _ _ _ Hw) as Hfit. rewrite <-Hl in Hfit.
  pose proof (fill_length _ _ Hfit) as Hfl.
  assert (Htake : take (write_length w) (fill (write_buff w) (wbuf c)) = write_buff w).
  { rewrite Hn. unfold fill. by rewrite take_app_length. }
  unfold answer. rewrite Hw. cbn [mbind option_bind].
  change (wbuf (set_keep (keep_alive w) (set_wbuf (fill (write_buff w) (wbuf c)) c))) with (fill (write_buff w) (wbuf c)).
  rewrite option_guard_True by lia. cbn [mbind option_bind]. rewrite Htake.
  destruct (HandleWrite_sent _ _ ws' (write_buff w) Ht) as (rs'' & ->); [done|].
  cbn [mbind option_bind w_closed w_sent].
  assert (E : write_buff w ++ drop (length (write_buff w)) (fill (write_buff w) (wbuf c)) = fill (write_buff w) (wbuf c)).
  { rewrite <-Hn. rewrite <-Htake at 1. apply take_drop. }
  unfold set_events, set_keep, set_wbuf. simpl. by rewrite E.
Qed.

Lemma keep_or_close_served timed f c e i :
  served f c i e → fd c = f → event_channel e ≠ Some f →
  let '(c', e') := keep_or_close timed c e in
  if Keep_Alive c then served f (set_timer (if timed then Some 5%Z else None) c) i (release c' e') else gone f (release c' e').
Proof.
  intros Hs Hf Hev. rewrite keep_or_close_eq. subst f. destruct (Keep_Alive c).
  - set (c' := set_timer (if timed then Some 5%Z else None) c). pose proof (store_served c' _ _ _ Hs : served (fd c) c' _ _) as H.
    simpl. rewrite (release_served c' _ _ _ H). exact H.
  - exact (handle_close_gone (SeparateTimer c) _ _ _ Hs Hev).
Qed.

Lemma handle_event_request o (timed : bool) x f s c request rs rs' w ws ws' :
  epoll_ok (ep s) → event_channel (ep s) ≠ Some f →
  Mmap (ep s) !! f = Some c → read c = h_readn →
  delivers request rs → 0 < length request < BUFF_SIZE → io_reads x = rs ++ RFails EAGAIN :: rs' →
  handle_http o (Keep_Alive c) request = Some w → write_length w = length (write_buff w) →
  takes (write_length w) ws → io_writes x = ws ++ ws' →
  let c' := Chan f IN_ET h_readn (keep_alive w) (if timed then Some 5%Z else None) (fill (write_buff w) (wbuf c)) in
  ∃ e', handle_event o timed x f s = Some (set_ep e' s, write_buff w) ∧
    (if keep_alive w then served f c' IN_ET e' else gone f e').
Proof.
  intros Hok Hev HM Hr Hd Hn Hx Hw Hwl Ht Hxw c'. destruct (eo_fd _ Hok f c HM) as (Hf & Ho & Hl).
  destruct (eo_dom _ Hok f) as [_ [i Hi]]; [by rewrite HM|].
  unfold handle_event. rewrite HM. cbn [mbind option_bind]. rewrite bool_decide_eq_false_2 by done.
  unfold HandleRead. rewrite Hr, Hx, (readn_request request) by (done || lia). cbn [mbind option_bind r_closed r_ret r_buff].
  rewrite take_app_length. rewrite Hr, bool_decide_eq_true_2 by auto. rewrite bool_decide_eq_true_2 by lia.
  cbn [andb]. rewrite Hxw, (answer_sent _ _ ws' _ c (ep (set_ep (ep s) s)) w) by done.
  cbn [mbind option_bind]. set (c1 := Chan _ _ _ _ _ _).
  assert (Hs : served f c1 IN_ET (Epoll_Mod c1 (store c1 (ep (set_ep (ep s) s))))).
  { assert (H1 : served (fd c1) c i (ep s)) by (simpl; rewrite Hf; by split_and!).
    apply store_served, Epoll_Mod_served in H1. simpl in H1. rewrite Hf in H1. exact H1. }
  pose proof (keep_or_close_served timed f c1 _ IN_ET Hs Hf Hev) as Hk.
  destruct (keep_or_close timed c1 _) as [c2 e2]. eexists. split; [done|].
  unfold c1 in Hk. simpl in Hk. rewrite Hf, Hr in Hk. exact Hk.
Qed.

(** ** Handing on a connection *)

Lemma dispatch_eq d f (n := length (counters d)) (w := (cur_event_epoll d + 1) mod n) :
  n ≠ 0 → dispatch d f = Some (w, Dispatcher w (alter (λ m, (m + f)%Z) w (counters d))).
Proof. intros Hn. unfold dispatch, GetNextEventEpollFd. by rewrite option_guard_True by done. Qed.

Lemma dispatch_all_spec fds : ∀ d, length (counters d) ≠ 0 →
  ∃ ws d', dispatch_all d fds = Some (ws, d') ∧ length ws = length fds ∧
    length (counters d') = length (counters d) ∧
    (∀ k, k < length fds → ws !! k = Some ((cur_event_epoll d + 1 + k) mod length (counters d))) ∧
    ∀ w m, counters d !! w = Some m → counters d' !! w = Some (m + total (given w ws fds))%Z.
Proof.
  induction fds as [|f fds IH]; intros d Hn.
  { exists [], d. split_and!; [done..|simpl; lia|]. intros w m ->. simpl. f_equal. lia. }
  set (n := length (counters d)) in *. set (w0 := (cur_event_epoll d + 1) mod n).
  destruct (IH (Dispatcher w0 (alter (λ m, (m + f)%Z) w0 (counters d)))) as (ws & d' & Heq & Hl & Hc & Hws & Ht).
  { simpl. by rewrite length_alter. }
  simpl in Hc, Hws. rewrite length_alter in Hc, Hws.
  exists (w0 :: ws), d'. split_and!.
  - cbn [dispatch_all]. rewrite dispatch_eq by done. cbn [mbind option_bind]. fold n w0. by rewrite Heq.
  - simpl. by rewrite Hl.
  - done.
  - intros [|k] Hk; simpl in *; [by rewrite Nat.add_0_r|]. rewrite Hws by lia. f_equal. fold n. unfold w0.
    rewrite <-!Nat.add_assoc, Nat.Div0.add_mod_idemp_l. f_equal. lia.
  - intros w m Hm. unfold given. simpl. rewrite filter_cons. simpl. case_decide as Hw.
    + subst w. rewrite (Ht w0 (m + f)%Z) by (simpl; by rewrite list_lookup_alter_eq, Hm).
      simpl. f_equal. unfold given. rewrite <-Z.add_assoc. done.
    + rewrite (Ht w m) by (simpl; by rewrite list_lookup_alter_ne). done.
Qed.

Lemma to_le_spec k n : (0 ≤ n < 256 ^ Z.of_nat k)%Z →
  foldr (λ b m, Z.of_nat (nat_of_ascii b) + 256 * m)%Z 0%Z (to_le k n) = n ∧ length (to_le k n) = k.
Proof.
  revert n. induction k as [|k IH]; intros n Hn; simpl; [split; [lia|done]|].
  rewrite Nat2Z.inj_succ, Z.pow_succ_r in Hn by lia.
  pose proof (Z.mod_pos_bound n 256). pose proof (Z.div_mod n 256).
  destruct (IH (n / 256)%Z) as [E1 E2].
  { split; [apply Z.div_pos; lia|apply Z.div_lt_upper_bound; lia]. }
  rewrite E1, E2, nat_ascii_embedding by lia. split; [lia|done].
Qed.

Lemma event_fds_one n : (0 < n < 2 ^ 31)%Z → event_fds (length (to_le 8 n)) (to_le 8 n) = [n].
Proof.
  intros Hn. destruct (to_le_spec 8 n) as [E1 E2]; [simpl; lia|].
  rewrite E2. cbn [event_fds]. destruct (to_le 8 n) as [|b l] eqn:E; [done|].
  rewrite <-E, drop_ge by (rewrite E, E2; lia). unfold le64. rewrite take_ge by (rewrite E, E2; lia).
  rewrite E, E1. f_equal. apply wraps_id; lia.
Qed.

Lemma sysreadn_event n :
  (0 ≤ n < 2 ^ 64)%Z →
  sysreadn BUFF_SIZE (eventfd_read n) = Some (Read 8 (to_le 8 n ++ zeros (BUFF_SIZE - 8)) false, []).
Proof.
  intros Hn. destruct (to_le_spec 8 n) as [_ E]; [simpl; lia|]. unfold sysreadn, eventfd_read.
  generalize (to_le 8 n) E. intros l Hl.
  assert (Hd : delivers l [Got l]).
  { rewrite <-(app_nil_r l) at 1. apply delivers_got; [by destruct l|constructor]. }
  assert (Hlt : length l < BUFF_SIZE) by (rewrite Hl; unfold BUFF_SIZE; lia).
  change ([Got l; RFails EAGAIN]) with ([Got l] ++ [RFails EAGAIN]).
  rewrite (read_loop_delivers false _ _ Hd), Hl by done.
  change (BUFF_SIZE - 8) with (S 4087). cbn [read_loop app]. by rewrite Hl.
Qed.

Lemma Add_New_Connect_event f b e : event_channel (Add_New_Connect f b e) = event_channel e.
Proof. unfold Add_New_Connect, Epoll_Add. simpl. by destruct (Mmap e !! f). Qed.

Lemma handle_event_wakeup o timed x f c s n :
  event_channel (ep s) = Some f → Mmap (ep s) !! f = Some c → fd c = f → read c = h_sysreadn →
  (0 < n < 2 ^ 31)%Z → io_reads x = eventfd_read n →
  handle_event o timed x f s = Some (set_ep (Add_New_Connect n (io_wbuf x) (ep s)) s, []).
Proof.
  intros Hev HM Hf Hr Hn Hx. unfold handle_event. rewrite HM. cbn [mbind option_bind].
  rewrite bool_decide_eq_true_2 by done. unfold HandleRead. rewrite Hr, Hx, sysreadn_event by lia.
  cbn [mbind option_bind r_closed r_ret r_buff].
  destruct (to_le_spec 8 n) as [_ E]; [simpl; lia|].
  rewrite take_app_length' by done. rewrite event_fds_one by done. cbn [add_all foldl ep set_ep].
  assert (Hrel : release c (Add_New_Connect n (io_wbuf x) (ep s)) = Add_New_Connect n (io_wbuf x) (ep s)).
  { unfold release. rewrite Hf, Add_New_Connect_event, decide_True by done.
    by destruct (Mmap (Add_New_Connect n (io_wbuf x) (ep s)) !! f), (timer c). }
  by rewrite Hrel.
Qed.

Lemma Add_New_Connect_fresh f b e :
  epoll_ok e → f ∈ opened e → Mmap e !! f = None → length b = BUFF_SIZE →
  let e' := Add_New_Connect f b e in
  epoll_ok e' ∧ same_but f e e' ∧ served f (Chan f IN_ET h_readn false None b) IN_ET e'.
Proof.
  intros Hok Ho HM Hb.
  assert (HK : kernel e !! f = None).
  { apply eq_None_not_Some. rewrite (eo_dom e Hok), HM. by intros []. }
  unfold Add_New_Connect, Epoll_Add. simpl. rewrite HM, bool_decide_eq_true_2 by done.
  rewrite decide_False by done. set (e' := Epoll _ _ _ _).
  assert (H1 : served f (Chan f IN_ET h_readn false None b) IN_ET e')
    by (split_and!; simpl; [apply lookup_insert_eq..|done]).
  assert (H2 : same_but f e e').
  { split; [done|]. intros g Hg. simpl. by rewrite !lookup_insert_ne. }
  split_and!; [|done..]. eapply same_but_ok; [done..|]. by eapply served_ok.
Qed.

(** A descriptor that is registered already is closed behind the back of its
    channel. *)
Lemma Add_New_Connect_again f b e c :
  Mmap e !! f = Some c → Add_New_Connect f b e = close_fd f e.
Proof. intros HM. unfold Add_New_Connect, Epoll_Add. simpl. by rewrite HM. Qed.

Lemma Add_New_Connect_other f b e g :
  g ≠ f → let e' := Add_New_Connect f b e in
  Mmap e' !! g = Mmap e !! g ∧ (g ∈ opened e' ↔ g ∈ opened e).
Proof.
  intros Hg. unfold Add_New_Connect, Epoll_Add. simpl. destruct (Mmap e !! f); simpl.
  - set_solver.
  - by rewrite lookup_insert_ne.
Qed.

Lemma total_pos fds : Forall (λ f, 0 < f)%Z fds → (0 ≤ total fds)%Z.
Proof. induction 1; simpl; lia. Qed.

Lemma total_gt fds g : Forall (λ f, 0 < f)%Z fds → g ∈ fds → 2 ≤ length fds → (g < total fds)%Z.
Proof.
  intros Hp Hg Hl. apply list_elem_of_split in Hg as (l1 & l2 & ->).
  apply Forall_app in Hp as [H1 [Hg H2]%Forall_cons].
  assert (E : (total (l1 ++ g :: l2) = total l1 + g + total l2)%Z).
  { clear. induction l1 as [|x l1 IH]; simpl in *; lia. }
  rewrite E. pose proof (total_pos _ H1). pose proof (total_pos _ H2).
  rewrite length_app in Hl. simpl in Hl.
  destruct l1 as [|y l1]; [destruct l2 as [|y l2]; [simpl in Hl; lia|]|].
  - apply Forall_cons in H2 as [? H2]. pose proof (total_pos _ H2). simpl in *. lia.
  - apply Forall_cons in H1 as [? H1]. pose proof (total_pos _ H1). simpl in *. lia.
Qed.

Lemma given_spec w ws fds :
  Forall (λ f, 0 < f)%Z fds →
  Forall (λ f, 0 < f)%Z (given w ws fds) ∧ (total (given w ws fds) ≤ total fds)%Z.
Proof.
  intros Hp. revert ws. induction Hp as [|f fds Hf Hp IH]; intros ws; [by destruct ws|].
  destruct ws as [|v ws].
  - split; [constructor|]. pose proof (total_pos _ Hp). unfold given. simpl. lia.
  - destruct (IH ws) as [H1 H2]. unfold given in *. csimpl. rewrite filter_cons. csimpl.
    case_decide; csimpl; split; [by constructor| |done|]; unfold total in *; csimpl; lia.
Qed.

(** ** Properties *)

(** C26.  A request that is read whole and whose response the socket takes is
    answered with exactly the response of [handle_http], sent however the
    socket cuts it, and touches no other connection.  If the client has asked
    for it, now or in an earlier request, the connection stays registered for
    input and, with a time wheel, gets a fresh timer of 5 seconds; otherwise it
    is taken off both tables and closed. *)
Theorem handle_event_serves (o : os) (timed : bool) (x : calls) (f : Z) (s : loop_state) (c : chan)
    (request : list ascii) (rs rs' : list rres) (w : written) (ws ws' : list wres) :
  epoll_ok (ep s) → event_channel (ep s) ≠ Some f →
  Mmap (ep s) !! f = Some c → read c = h_readn →
  delivers request rs → 0 < length request < BUFF_SIZE → io_reads x = rs ++ RFails EAGAIN :: rs' →
  handle_http o (Keep_Alive c) request = Some w → write_length w = length (write_buff w) →
  takes (write_length w) ws → io_writes x = ws ++ ws' →
  ∃ e', handle_event o timed x f s = Some (set_ep e' s, write_buff w) ∧
    epoll_ok e' ∧ same_but f (ep s) e' ∧
    if keep_alive w
    then ∃ c', served f c' IN_ET e' ∧ read c' = h_readn ∧ Keep_Alive c' = true ∧
      timer c' = (if timed then Some 5%Z else None)
    else gone f e'.
Proof.
  intros Hok Hev HM Hr Hd Hn Hx Hw Hwl Ht Hxw.
  destruct (handle_event_request o timed x f s c request rs rs' w ws ws') as (e' & He & Hs); try done.
  exists e'. split; [done|].
  destruct (handle_event_client o timed x f c s _ _ Hok Hev HM (or_introl Hr) He) as (? & ? & _).
  split_and!; [done..|]. destruct (keep_alive w); [|done]. by eexists.
Qed.

(** C27.  Whatever the system calls return, a handler of a client that ends
    leaves the registry well formed, the kernel watching exactly the registered
    descriptors, and every other connection as it was; the connection itself is
    registered, or closed, or held by its timer only, which is alive. *)
Theorem handle_event_safe (o : os) (timed : bool) (x : calls) (f : Z) (c : chan) (s s' : loop_state)
    (sent : list ascii) :
  epoll_ok (ep s) → event_channel (ep s) ≠ Some f → Mmap (ep s) !! f = Some c →
  read c = h_readn ∨ read c = h_co_readn →
  handle_event o timed x f s = Some (s', sent) →
  epoll_ok (ep s') ∧ same_but f (ep s) (ep s') ∧ threads s' = threads s ∧ ∃ c', conn_state f timed c' (ep s').
Proof. apply handle_event_client. Qed.

(** C28.  [Maccept] hands the connections to the worker threads in turn, the
    first one to worker 1, or 0 if it is the only one.  A worker that got one
    connection since it last looked registers it.  But the descriptors are
    added up in the counter of the event descriptor: a worker that got several
    registers their sum, and none of them, which stay open. *)
Theorem connections_dispatched (o : os) (timed : bool) (n w : nat) (fds : list Z)
    (x : calls) (f : Z) (c : chan) (s : loop_state) :
  0 < n → w < n → Forall (λ g, 0 < g)%Z fds → (total fds < 2 ^ 31)%Z →
  epoll_ok (ep s) → event_channel (ep s) = Some f → Mmap (ep s) !! f = Some c → read c = h_sysreadn →
  length (io_wbuf x) = BUFF_SIZE →
  ∃ ws d, dispatch_all (thread_pool n) fds = Some (ws, d) ∧
    (∀ k, k < length fds → ws !! k = Some ((1 + k) mod n)) ∧
    let mine := given w ws fds in
    counters d !! w = Some (total mine) ∧
    (mine ≠ [] → io_reads x = eventfd_read (total mine) →
     ∃ e', handle_event o timed x f s = Some (set_ep e' s, []) ∧
       (∀ a, mine = [a] → a ∈ opened (ep s) → Mmap (ep s) !! a = None →
         epoll_ok e' ∧ same_but a (ep s) e' ∧
         served a (Chan a IN_ET h_readn false None (io_wbuf x)) IN_ET e') ∧
       (∀ g, 2 ≤ length mine → g ∈ mine → g ∈ opened (ep s) → Mmap (ep s) !! g = None →
         g ∈ opened e' ∧ Mmap e' !! g = None)).
Proof.
  intros Hn Hw Hp Hlt Hok Hev HM Hr Hb.
  destruct (dispatch_all_spec fds (thread_pool n)) as (ws & d & Heq & Hl & _ & Hws & Ht).
  { simpl. rewrite length_replicate. lia. }
  exists ws, d. split; [done|]. split.
  { intros k Hk. rewrite Hws by done. simpl. by rewrite length_replicate. }
  intros mine. destruct (given_spec w ws fds Hp) as [Hp1 Hle]. fold mine in Hp1, Hle.
  split; [by rewrite (Ht w 0%Z) by (by apply lookup_replicate_2)|]. intros Hne Hx.
  assert (0 < total mine)%Z.
  { destruct mine as [|a mine']; [done|]. apply Forall_cons in Hp1 as [? Hp1].
    pose proof (total_pos _ Hp1). simpl. lia. }
  eexists. split; [apply (handle_event_wakeup _ _ _ _ c _ (total mine)); try done; [apply (eo_fd _ Hok _ _ HM)|lia]|].
  split.
  - intros a -> Ha HMa. simpl. rewrite Z.add_0_r. by apply Add_New_Connect_fresh.
  - intros g H2 Hg Ho HMg. pose proof (total_gt _ _ Hp1 Hg H2).
    destruct (Add_New_Connect_other (total mine) (io_wbuf x) (ep s) g) as [-> ->]; [lia|done].
Qed.

(** ** A concrete loop *)

Lemma demo_loop_ok b : epoll_ok (ep (demo_loop b)).
Proof.
  assert (Hz : length (zeros BUFF_SIZE) = BUFF_SIZE) by apply length_replicate.
  split; simpl.
  - intros f. rewrite !lookup_insert_is_Some. destruct b; rewrite ?lookup_singleton_is_Some; [tauto|].
    rewrite !lookup_empty. split; intros [?|[_ []%is_Some_None]]; auto.
  - intros f c [[<- <-]|[Hf Hc]]%lookup_insert_Some; [split; [done|split; [set_solver|exact Hz]]|].
    destruct b; [|by rewrite lookup_empty in Hc]. apply lookup_singleton_Some in Hc as [<- <-].
    split; [done|split; [set_solver|exact Hz]].
Qed.

Lemma demo_delivers : delivers demo_request [Got (take 10 demo_request); RFails EINTR; Got (drop 10 demo_request)].
Proof.
  rewrite <-(take_drop 10 demo_request) at 1. apply delivers_got; [discriminate|].
  apply delivers_fails; [done|]. rewrite <-(app_nil_r (drop 10 demo_request)) at 1.
  apply delivers_got; [discriminate|constructor].
Qed.

Lemma demo_takes : takes 223 [Sent 100; WFails EINTR; Sent 123].
Proof.
  apply (takes_sent 100 123); [lia|]. apply takes_fails; [done|]. apply (takes_sent 123 0); [lia|constructor].
Qed.

Lemma demo_written_eq :
  handle_http (Os None (λ _, None)) false demo_request = Some demo_written ∧
  write_length demo_written = 223 ∧ length (write_buff demo_written) = 223 ∧ keep_alive demo_written = true.
Proof. repeat split; vm_compute; reflexivity. Qed.

Lemma handle_event_serves_witness :
  ∃ e', handle_event (Os None (λ _, None)) true demo_calls 7 (demo_loop true) =
      Some (set_ep e' (demo_loop true), write_buff demo_written) ∧
    ∃ c', Mmap e' !! 7%Z = Some c' ∧ timer c' = Some 5%Z.
Proof.
  destruct demo_written_eq as (E1 & E2 & E3 & E4).
  destruct (handle_event_serves (Os None (λ _, None)) true demo_calls 7 (demo_loop true) demo_chan
    demo_request [Got (take 10 demo_request); RFails EINTR; Got (drop 10 demo_request)] []
    demo_written [Sent 100; WFails EINTR; Sent 123] []) as (e' & H1 & _ & _ & H2).
  - apply demo_loop_ok.
  - discriminate.
  - reflexivity.
  - reflexivity.
  - apply demo_delivers.
  - vm_compute. lia.
  - reflexivity.
  - exact E1.
  - rewrite E2, E3. reflexivity.
  - rewrite E2. apply demo_takes.
  - reflexivity.
  - rewrite E4 in H2. destruct H2 as (c' & (H2 & _) & _ & _ & H3).
    exists e'. split; [exact H1|]. exists c'. split; [exact H2|exact H3].
Defined.

Lemma handle_event_safe_witness :
  ∃ s' sent, handle_event (Os None (λ _, None)) true (Calls [Eof] [] [] []) 7 (demo_loop true) = Some (s', sent) ∧
    epoll_ok (ep s').
Proof.
  destruct (handle_event (Os None (λ _, None)) true (Calls [Eof] [] [] []) 7 (demo_loop true))
    as [[s' sent]|] eqn:E; [|vm_compute in E; discriminate].
  exists s', sent. split; [reflexivity|].
  destruct (handle_event_safe (Os None (λ _, None)) true (Calls [Eof] [] [] []) 7 demo_chan (demo_loop true) s' sent)
    as [H _]; [apply demo_loop_ok|discriminate|reflexivity|left; reflexivity|exact E|exact H].
Defined.

Lemma connections_dispatched_witness :
  ∃ ws d, dispatch_all (thread_pool 2) [8; 9]%Z = Some (ws, d) ∧ ws !! 0 = Some 1 ∧
    ∃ e', handle_event (Os None (λ _, None)) true (Calls (eventfd_read 8) [] [] (zeros BUFF_SIZE)) 4 (demo_loop false) =
        Some (set_ep e' (demo_loop false), []) ∧ kernel e' !! 8%Z = Some IN_ET.
Proof.
  destruct (connections_dispatched (Os None (λ _, None)) true 2 1 [8; 9]%Z
    (Calls (eventfd_read 8) [] [] (zeros BUFF_SIZE)) 4 demo_event (demo_loop false))
    as (ws & d & H1 & H2 & H3 & H4).
  - lia.
  - lia.
  - repeat constructor.
  - reflexivity.
  - apply demo_loop_ok.
  - reflexivity.
  - reflexivity.
  - reflexivity.
  - apply length_replicate.
  - exists ws, d. split; [exact H1|]. split; [apply (H2 0); simpl; lia|].
    assert (E : ws = [1; 0]) by (vm_compute in H1; congruence). subst ws.
    destruct H4 as (e' & H4 & H5 & _); [discriminate|reflexivity|].
    exists e'. split; [exact H4|].
    destruct (H5 8%Z) as (_ & _ & _ & H6 & _); [reflexivity|set_solver|reflexivity|exact H6].
Defined.
