(* ===== verification/EventLoop.v ===== *)
(** * The event loops (Eventloop.cpp, main.cpp)

    [EventLoop::loop] and [EventLoop::MainLoop], which differ in a message only:
    an iteration polls the epoll and handles the channels that it reports, in the
    coroutine pool if there is one and one after the other otherwise. *)

From Stdlib Require Import Ascii.
From S2P Require Import Prelude LinkList CoCond CoroutinePool Http Io Server.

(** ** The handlers of a loop

    The state of the loop and what was sent so far, by descriptor; [None] when a
    handler does not return or its behaviour is undefined. *)
Definition handled : Type := option (loop_state * list (Z * list ascii)).

(** [channel->handle_event()], [x f] being what the system calls return. *)
Definition on_event (o : os) (timed : bool) (x : Z → calls) (w : handled) (f : Z) : handled :=
  '(s, sent) ← w;
  '(s, out) ← handle_event o timed (x f) f s;
  Some (s, sent ++ [(f, out)]).

(** The same for the pool.  A handler yields only in a hooked call of a coroutine
    that has called [co_enable_hook_sys]; no worker does ([CoroutinePool::Run]
    calls it in the main coroutine), and no other coroutine runs handlers. *)
Definition on_event_co (o : os) (timed : bool) (x : Z → calls) (f : Z) (w : handled)
    : handled * option Empty_set :=
  (on_event o timed x w f, None).

Definition no_continue (k : Empty_set) (w : handled) : handled * option Empty_set :=
  match k with end.

Definition no_events (bs : list nat) (w : handled) : list nat * handled := (bs, w).

(** ** The loops *)

Record event_loop (Q : Type) := EventLoop {
  mEpoll : loop_state;
  coroutine_num : Z;
  mCoroutinePool : pool Q Z handled Empty_set;
}.
Arguments EventLoop {_} _ _ _.
Arguments mEpoll {_} _.
Arguments coroutine_num {_} _.
Arguments mCoroutinePool {_} _.

(** What becomes of [main]: the arguments are refused, an assertion fails,
    [vector::reserve] throws, or the loops run, with the flags of the listening
    socket. *)
Inductive main_outcome (Q : Type) :=
  | Refused
  | AssertFails
  | Throws
  | Started (main_loop : event_loop Q) (workers : list (event_loop Q)) (ls_flags : Z).
Arguments Refused {_}.
Arguments AssertFails {_}.
Arguments Throws {_}.
Arguments Started {_} _ _ _.

Section loop.
Context `{CondOps Q}.
Context (o : os) (timed : bool).

(** What happens before the first iteration; [q] is a new condition variable. *)
Definition loop_start (n : Z) (q : Q) (s : loop_state) : option (event_loop Q) :=
  p ← CoroutinePool_new (W := handled) n q None;
  p ← Start (on_event_co o timed (λ _, Calls [] [] [] [])) p;
  Some (EventLoop s n p).

(** One iteration: [reported] is what [epoll_wait] gives.  The result is the loop
    and what was sent. *)
Definition iteration (fuel : nat) (x : Z → calls) (reported : list (Z * Z)) (l : event_loop Q)
    : option (event_loop Q * list (Z * list ascii)) :=
  '(results, e) ← Poll reported (ep (mEpoll l));
  let w : handled := Some (set_ep e (mEpoll l), []) in
  if decide (0 < coroutine_num l)%Z then
    p ← Run (on_event_co o timed x) no_continue no_events fuel
          (foldl (λ p f, PutTask f p) (set_world w (mCoroutinePool l)) results);
    '(s, sent) ← world p;
    Some (EventLoop s (coroutine_num l) p, sent)
  else
    '(s, sent) ← foldl (on_event o timed x) w results;
    Some (EventLoop s (coroutine_num l) (mCoroutinePool l), sent).

(** One thread of [EventLoopThreadPool::start]: [efd] is what [eventfd] returned;
    the number of coroutines is not handed on. *)
Definition thread_loop (b : list ascii) (q : Q) (efd : Z) : option (event_loop Q) :=
  guard (0 ≤ efd)%Z;;
  let e := (Epoll_Add (Chan efd IN_ET h_sysreadn false None b) (Epoll ∅ ∅ {[efd]} (Some efd))).2 in
  loop_start 0 q (LoopState e None).

(** [main] up to its loop.  Its arguments are those of the command line and what
    the system calls return: [socket], [fcntl(F_GETFL)], [bind], and [eventfd] for
    each worker.  An assertion that fails and an exception of [vector::reserve]
    end the program. *)
Definition args_ok (epoll_thread_num coroutine_num : Z) : bool :=
  negb (bool_decide (epoll_thread_num < 0 ∨ 10 < epoll_thread_num ∨ 50 < coroutine_num)%Z).

Definition main (epoll_thread_num coroutine_num lsfd flags bound : Z) (efds : nat → Z) (b : list ascii) (q : Q)
    : main_outcome Q :=
  if negb (args_ok epoll_thread_num coroutine_num) then Refused
  else if decide (lsfd < 0)%Z then AssertFails
  else match set_noblock lsfd flags with
  | None => AssertFails
  | Some ls_flags =>
    if decide (bound < 0)%Z then AssertFails
    else
      let e := (Epoll_Add (Chan lsfd IN_ET h_Maccept false None b) (Epoll ∅ ∅ {[lsfd]} None)).2 in
      if decide (epoll_thread_num - 1 < 0)%Z then Throws
      else
        let n := Z.to_nat (epoll_thread_num - 1) in
        match mapM (thread_loop b q) (efds <$> seq 0 n) with
        | None => AssertFails
        | Some workers =>
            let d := if decide (1 < epoll_thread_num)%Z then Some (thread_pool n) else None in
            match loop_start coroutine_num q (LoopState e d) with
            | None => Throws
            | Some l => Started l workers ls_flags
            end
        end
  end.
End loop.

(** [e'] differs from [e] in the descriptors [fs] only. *)
Definition same_outside (fs : list Z) (e e' : epoll) : Prop :=
  event_channel e' = event_channel e ∧
  ∀ g, g ∉ fs → Mmap e' !! g = Mmap e !! g ∧ kernel e' !! g = kernel e !! g ∧
    (g ∈ opened e' ↔ g ∈ opened e).

(** The descriptor of a client that is registered. *)
Definition client (e : epoll) (f : Z) : Prop :=
  event_channel e ≠ Some f ∧
  ∃ c, Mmap e !! f = Some c ∧ (read c = h_readn ∨ read c = h_co_readn).

(** A loop between two iterations: its coroutines, if it has any, all wait. *)
Definition loop_ready `{CondLaws Q} (l : event_loop Q) : Prop :=
  ∃ n, coroutine_num l = Z.of_nat n ∧
    (0 < n → idle n (mCoroutinePool l) ∧ task (mCoroutinePool l) = []).

(** Concrete states. *)
Definition demo_co_pool : pool (condq heap) Z handled Empty_set :=
  Pool 0 0 [] [] [] empty_condq None false [] [].

Definition demo_listen : loop_state :=
  LoopState (Epoll_Add (Chan 3 IN_ET h_Maccept false None (zeros BUFF_SIZE)) (Epoll ∅ ∅ {[3; 8]}%Z None)).2 None.

(** ** The pool and the loop *)

Section iteration.
Context `{CondLaws Q}.
Context (o : os) (timed : bool).

Lemma PutTask_all (p : pool Q Z handled Empty_set) n fs :
  idle n p → let p' := foldl (λ p f, PutTask f p) p fs in
  idle n p' ∧ task p' = task p ++ fs ∧ world p' = world p ∧ finished p' = finished p.
Proof.
  revert p. induction fs as [|f fs IH]; intros p Hid; simpl; [by rewrite app_nil_r|].
  destruct (IH (PutTask f p) (PutTask_idle _ _ _ Hid)) as (? & -> & -> & ->).
  split; [done|]. split; [|done]. simpl. by rewrite <-app_assoc.
Qed.

Lemma Poll_eq reported e : reported ≠ [] → is_Some (Poll reported e).
Proof. intros Hne. unfold Poll. rewrite option_guard_True by done. by eexists. Qed.

Lemma set_world_idle n w (p : pool Q Z handled Empty_set) : idle n p → idle n (set_world w p).
Proof. intros (ws & Hi & Hb). exists ws. split; [split; apply Hi|done]. Qed.

Lemma iteration_pool n x reported (l : event_loop Q) results e :
  (0 < n)%nat → coroutine_num l = Z.of_nat n → idle n (mCoroutinePool l) → task (mCoroutinePool l) = [] →
  Poll reported (ep (mEpoll l)) = Some (results, e) →
  ∃ N p, idle n p ∧ task p = [] ∧ finished p = finished (mCoroutinePool l) ++ results ∧
    ∀ fuel, (N ≤ fuel)%nat → iteration o timed fuel x reported l =
      '(s, sent) ← foldl (on_event o timed x) (Some (set_ep e (mEpoll l), [])) results;
      Some (EventLoop s (coroutine_num l) p, sent).
Proof.
  intros Hn Hnum Hid Ht HP.
  set (w := Some (set_ep e (mEpoll l), []) : handled).
  destruct (PutTask_all (set_world w (mCoroutinePool l)) n results (set_world_idle n w _ Hid))
    as (Hid1 & Ht1 & Hw1 & Hf1).
  destruct (Run_in_order_spec (on_event_co o timed x) no_continue no_events (λ _, 0%nat)
    (λ k, match k with end)) with (n := n)
    (st := foldl (λ p f, PutTask f p) (set_world w (mCoroutinePool l)) results)
    as (N & p & HR & Hidp & Htp & Hwp & Hfp).
  - intros [|i bs] w' Hbs; [done|]. exists i. split; left.
  - done.
  - done.
  - done.
  - done.
  - exists N, p. split_and!; [done|done|by rewrite Hfp, Hf1, Ht1; simpl; rewrite Ht|].
    intros fuel Hle. unfold iteration. rewrite HP. cbn [mbind option_bind].
    rewrite decide_True by lia. fold w. rewrite HR by done. cbn [mbind option_bind].
    rewrite Hwp, Hw1, Ht1. simpl. rewrite Ht. simpl.
    assert (E : ∀ fs w', foldl (λ w' f, (on_event_co o timed x f w').1) w' fs = foldl (on_event o timed x) w' fs)
      by done.
    by rewrite E.
Qed.
(** With a pool or without, an iteration handles the batch in order. *)
Lemma iteration_batch x reported (l : event_loop Q) results e :
  loop_ready l → Poll reported (ep (mEpoll l)) = Some (results, e) →
  ∃ N p, ∀ fuel, (N ≤ fuel)%nat →
    (∀ s, loop_ready (EventLoop s (coroutine_num l) p)) ∧
    iteration o timed fuel x reported l =
      '(s, sent) ← foldl (on_event o timed x) (Some (set_ep e (mEpoll l), [])) results;
      Some (EventLoop s (coroutine_num l) p, sent).
Proof.
  intros (n & Hn & Hp) HP. destruct (decide (0 < n)) as [Hpos|Hz].
  - destruct (Hp Hpos) as [Hid Ht].
    destruct (iteration_pool n x reported l results e Hpos Hn Hid Ht HP) as (N & p & Hid' & Ht' & _ & Hit).
    exists N, p. intros fuel Hle. split; [|by rewrite Hit, Hn].
    intros s. exists n. by split.
  - exists 0, (mCoroutinePool l). intros fuel _. split; [intros s; by exists n|].
    unfold iteration. rewrite HP. cbn [mbind option_bind]. by rewrite decide_False by lia.
Qed.
End iteration.

(** ** A batch of events *)

Lemma same_outside_refl fs e : same_outside fs e e.
Proof. by split. Qed.

Lemma same_outside_cons f fs e1 e2 e3 :
  same_but f e1 e2 → same_outside fs e2 e3 → same_outside (f :: fs) e1 e3.
Proof.
  intros [Hv1 H1] [Hv2 H2]. split; [by rewrite Hv2|]. intros g Hg.
  apply not_elem_of_cons in Hg as [Hgf Hg].
  destruct (H1 g Hgf) as (? & ? & ?), (H2 g Hg) as (? & ? & ?).
  split_and!; [congruence..|tauto].
Qed.

Lemma client_elsewhere f g e e' : same_but f e e' → g ≠ f → client e g → client e' g.
Proof.
  intros [Hv Hs] Hg (Hev & c & HM & Hr). destruct (Hs g Hg) as (E & _). split; [by rewrite Hv|].
  exists c. by rewrite E.
Qed.

Lemma batch_None o timed x fs : foldl (on_event o timed x) None fs = None.
Proof. by induction fs. Qed.

Lemma batch_clients o timed x fs : ∀ s sent s' sent',
  epoll_ok (ep s) → NoDup fs → Forall (client (ep s)) fs →
  foldl (on_event o timed x) (Some (s, sent)) fs = Some (s', sent') →
  epoll_ok (ep s') ∧ same_outside fs (ep s) (ep s') ∧ threads s' = threads s ∧
  sent'.*1 = sent.*1 ++ fs.
Proof.
  induction fs as [|f fs IH]; intros s sent s' sent' Hok Hnd Hcl; simpl.
  { intros [= <- <-]. rewrite app_nil_r. by split_and!. }
  apply NoDup_cons in Hnd as [Hf Hnd]. apply Forall_cons in Hcl as [(Hev & c & HM & Hr) Hcl].
  destruct (handle_event o timed (x f) f s) as [[s1 out]|] eqn:He; simpl; [|by rewrite batch_None].
  destruct (handle_event_client o timed (x f) f c s s1 out Hok Hev HM Hr He) as (Hok1 & Hs1 & Ht1 & _).
  intros Hfold. destruct (IH s1 (sent ++ [(f, out)]) s' sent') as (? & ? & Ht & Hsent); [done|done| |done|].
  - apply Forall_forall. intros g Hg. eapply client_elsewhere; [exact Hs1|by intros ->|].
    by eapply Forall_forall in Hcl.
  - split_and!; [done|by eapply same_outside_cons|congruence|].
    rewrite Hsent, fmap_app, <-app_assoc. done.
Qed.

Lemma Poll_same reported e fs e' :
  Poll reported e = Some (fs, e') →
  kernel e' = kernel e ∧ opened e' = opened e ∧ event_channel e' = event_channel e ∧
  (∀ f, f ∉ reported.*1 → Mmap e' !! f = Mmap e !! f) ∧
  (∀ f, Mmap e' !! f = None ↔ Mmap e !! f = None) ∧
  (∀ f c', Mmap e' !! f = Some c' → ∃ c, Mmap e !! f = Some c ∧
     fd c' = fd c ∧ read c' = read c ∧ wbuf c' = wbuf c ∧ Keep_Alive c' = Keep_Alive c ∧ timer c' = timer c).
Proof.
  unfold Poll. case_guard; simpl; [|done]. intros [= <- <-]. simpl. split_and!; try done.
  all: clear; generalize (Mmap e); induction reported as [|[g i] reported IH]; intros m; simpl.
  - done.
  - intros f [Hfg Hf]%not_elem_of_cons. rewrite IH, lookup_alter_ne by done. done.
  - done.
  - intros f. rewrite IH. destruct (decide (g = f)) as [->|].
    + rewrite lookup_alter_eq. by destruct (m !! f).
    + by rewrite lookup_alter_ne.
  - intros f c ->. by exists c.
  - intros f c' Hc'. apply IH in Hc' as (c & Hc & ?). destruct (decide (g = f)) as [->|].
    + rewrite lookup_alter_eq in Hc. destruct (m !! f) as [c0|]; simplify_eq/=. exists c0. by split.
    + rewrite lookup_alter_ne in Hc by done. by exists c.
Qed.

Lemma Poll_ok reported e fs e' :
  Poll reported e = Some (fs, e') → epoll_ok e → epoll_ok e' ∧ same_outside reported.*1 e e' ∧
  ∀ f, client e f → client e' f.
Proof.
  intros HP Hok. pose proof (Poll_same _ _ _ _ HP) as (HK & HO & HV & HM & HN & HS). split_and!.
  - split.
    + intros f. rewrite HK, (eo_dom _ Hok), <-!not_eq_None_Some. by rewrite HN.
    + intros f c' Hc'. destruct (HS f c' Hc') as (c & Hc & -> & _ & -> & _). rewrite HO. by apply (eo_fd _ Hok).
  - split; [done|]. intros g Hg. by rewrite HM, HK, HO.
  - intros f (Hev & c & Hc & Hr). split; [by rewrite HV|].
    destruct (Mmap e' !! f) as [c'|] eqn:E; [|apply HN in E; congruence].
    destruct (HS f c' E) as (c0 & Hc0 & _ & Hr0 & _). exists c'. split; [done|].
    assert (c0 = c) as -> by congruence. by rewrite Hr0.
Qed.

Lemma Poll_results reported e fs e' :
  Poll reported e = Some (fs, e') → NoDup reported.*1 →
  fs = filter (λ f, is_Some (Mmap e !! f)) reported.*1 ∧ NoDup fs.
Proof.
  unfold Poll. case_guard; simpl; [|done]. intros [= <- <-] Hnd. split; [done|]. by apply NoDup_filter.
Qed.

(** ** Accepting *)

Lemma add_all_fresh fds b e :
  epoll_ok e → NoDup fds → length b = BUFF_SIZE →
  (∀ f, f ∈ fds → f ∈ opened e ∧ Mmap e !! f = None) →
  epoll_ok (add_all fds b e) ∧ same_outside fds e (add_all fds b e) ∧
  ∀ f, f ∈ fds → served f (Chan f IN_ET h_readn false None b) IN_ET (add_all fds b e).
Proof.
  revert e. induction fds as [|f fds IH]; intros e Hok Hnd Hb Hfr; simpl.
  { split_and!; [done|apply same_outside_refl|]. intros f Hf. by apply not_elem_of_nil in Hf. }
  apply NoDup_cons in Hnd as [Hf Hnd]. destruct (Hfr f) as [Ho HM]; [left|].
  destruct (Add_New_Connect_fresh f b e Hok Ho HM Hb) as (Hok1 & Hs1 & Hsv1).
  destruct (IH (Add_New_Connect f b e) Hok1 Hnd Hb) as (Hok2 & Hs2 & Hsv2).
  { intros g Hg. destruct (proj2 Hs1 g) as (-> & _ & ->); [by intros ->|]. apply Hfr. by right. }
  split_and!; [done|by eapply same_outside_cons|].
  intros g [->|Hg]%elem_of_cons; [|by apply Hsv2].
  destruct (proj2 Hs2 f Hf) as (E1 & E2 & E3). destruct Hsv1 as (? & ? & ?).
  split_and!; [by rewrite E1|by rewrite E2|by apply E3].
Qed.

(** ** Starting *)

Lemma loop_start_ok `{CondLaws Q} o timed n (q : Q) s :
  q_rep q [] [] →
  ∃ l, loop_start o timed (Z.of_nat n) q s = Some l ∧ mEpoll l = s ∧ coroutine_num l = Z.of_nat n ∧
    idle n (mCoroutinePool l) ∧ task (mCoroutinePool l) = [].
Proof.
  intros Hq. destruct (Start_spec (on_event_co o timed (λ _, Calls [] [] [] [])) n q None Hq)
    as (st & st' & H1 & H2 & H3 & H4 & _).
  unfold loop_start. rewrite H1. simpl. rewrite H2. simpl. by eexists.
Qed.

Lemma loop_start_neg `{CondLaws Q} o timed n (q : Q) s : (n < 0)%Z → loop_start o timed n q s = None.
Proof. intros Hn. unfold loop_start, CoroutinePool_new. by case_guard; [lia|]. Qed.

Lemma Epoll_Add_first c fs v :
  length (wbuf c) = BUFF_SIZE → fd c ∈ fs →
  let e := (Epoll_Add c (Epoll ∅ ∅ fs v)).2 in epoll_ok e ∧ served (fd c) c (events c) e.
Proof.
  intros Hb Hin. unfold Epoll_Add. simpl. rewrite lookup_empty. simpl.
  rewrite bool_decide_eq_true_2 by done. split.
  - split; simpl.
    + intros f. rewrite !lookup_insert_is_Some, !lookup_empty. split; intros [?|[_ []%is_Some_None]]; auto.
    + intros f c' [[<- <-]|[Hf Hc]]%lookup_insert_Some; [done|].
      by rewrite lookup_empty in Hc.
  - split_and!; simpl; [apply lookup_insert_eq..|done].
Qed.

(** The registry of a worker. *)
Notation worker_epoll efd b :=
  (Epoll_Add (Chan efd IN_ET h_sysreadn false None b) (Epoll ∅ ∅ {[efd]} (Some efd))).2.

Lemma thread_loop_ok `{CondLaws Q} o timed b (q : Q) efd :
  q_rep q [] [] → (0 ≤ efd)%Z →
  ∃ w, thread_loop o timed b q efd = Some w ∧ coroutine_num w = 0%Z ∧
    mEpoll w = LoopState (worker_epoll efd b) None.
Proof.
  intros Hq Hf. destruct (loop_start_ok o timed 0 q (LoopState (worker_epoll efd b) None) Hq)
    as (w & Hs & Hw & Hn & _ & _).
  exists w. split; [|done]. unfold thread_loop. case_guard; [exact Hs|done].
Qed.

Lemma mapM_thread_loop `{CondLaws Q} o timed b (q : Q) efds :
  q_rep q [] [] → Forall (λ f, 0 ≤ f)%Z efds →
  ∃ ws, mapM (thread_loop o timed b q) efds = Some ws ∧ length ws = length efds ∧
    ∀ k w efd, ws !! k = Some w → efds !! k = Some efd →
      coroutine_num w = 0%Z ∧ mEpoll w = LoopState (worker_epoll efd b) None.
Proof.
  intros Hq. induction 1 as [|efd efds Hf Hfs IH]; [by exists []|].
  destruct IH as (ws & Hm & Hl & Hws).
  destruct (thread_loop_ok o timed b q efd Hq Hf) as (w & E & Hn & Hw).
  exists (w :: ws). split_and!.
  - cbn [mapM]. rewrite E. cbn [mbind option_bind]. by rewrite Hm.
  - simpl. by rewrite Hl.
  - intros [|k] w' efd' Hk1 Hk2; simplify_eq/=; [by split_and!|by eapply Hws].
Qed.

Lemma mapM_thread_loop_None `{CondOps Q} o timed b (q : Q) efds :
  Exists (λ f, f < 0)%Z efds → mapM (thread_loop o timed b q) efds = None.
Proof.
  induction 1 as [efd efds Hf|efd efds _ IH]; cbn [mapM].
  - assert (E : thread_loop o timed b q efd = None) by (unfold thread_loop; rewrite option_guard_False; [done|lia]).
    by rewrite E.
  - destruct (thread_loop o timed b q efd); [|done]. cbn [mbind option_bind]. by rewrite IH.
Qed.

(** The descriptors of [n] workers: all are there, or one is not. *)
Lemma efds_dec (efds : nat → Z) n :
  (Forall (λ f, 0 ≤ f)%Z (efds <$> seq 0 n) ∧ ∀ i, i < n → (0 ≤ efds i)%Z) ∨
  (Exists (λ f, f < 0)%Z (efds <$> seq 0 n) ∧ ∃ i, i < n ∧ (efds i < 0)%Z).
Proof.
  destruct (decide (Forall (λ f, 0 ≤ f)%Z (efds <$> seq 0 n))) as [Hall|Hex]; [left|right].
  - split; [done|]. intros i Hi. eapply Forall_forall; [exact Hall|]. apply list_elem_of_fmap.
    exists i. split; [done|]. apply elem_of_seq. lia.
  - apply not_Forall_Exists in Hex; [|apply _]. apply Exists_exists in Hex as (f & Hin & Hf). simpl in Hf. split.
    + apply Exists_exists. exists f. split; [done|lia].
    + apply list_elem_of_fmap in Hin as (i & -> & Hi%elem_of_seq). exists i. lia.
Qed.

(** ** Properties *)

(** C29.  The coroutine pool changes nothing of what an event loop does: an
    iteration of a loop with [n] coroutines that all wait ends, and it handles
    the same events in the same order, sends the same bytes and leaves the same
    registry as one without coroutines; the coroutines wait again after it. *)
Theorem coroutines_change_nothing `{CondLaws Q} (o : os) (timed : bool) (n : nat) (x : Z → calls)
    (reported : list (Z * Z)) (s : loop_state) (p p0 : pool Q Z handled Empty_set) :
  0 < n → idle n p → task p = [] → reported ≠ [] →
  ∃ N p', idle n p' ∧ task p' = [] ∧
    ∀ fuel fuel0, N ≤ fuel →
      iteration o timed fuel x reported (EventLoop s (Z.of_nat n) p) =
        '(l, sent) ← iteration o timed fuel0 x reported (EventLoop s 0 p0);
        Some (EventLoop (mEpoll l) (Z.of_nat n) p', sent).
Proof.
  intros Hn Hid Ht Hne. destruct (Poll_eq reported (ep s) Hne) as [[results e] HP].
  destruct (iteration_pool o timed n x reported (EventLoop s (Z.of_nat n) p) results e)
    as (N & p' & Hid' & Ht' & _ & Hit); try done.
  exists N, p'. split_and!; [done..|]. intros fuel fuel0 Hle. rewrite Hit by done.
  unfold iteration. simpl. rewrite HP. simpl.
  by destruct (foldl _ _ _) as [[s' sent]|].
Qed.

(** C30.  An iteration of any loop whose coroutines, if it has any, all wait, in
    which clients are reported, each once, ends unless [epoll_wait] reported
    nothing or a handler does not end; it keeps the registry well formed, handles
    every reported client that is registered once and in order, leaves all other
    connections and the worker threads alone, and its coroutines wait again. *)
Theorem iteration_safe `{CondLaws Q} (o : os) (timed : bool) (x : Z → calls)
    (reported : list (Z * Z)) (l : event_loop Q) :
  loop_ready l → epoll_ok (ep (mEpoll l)) → NoDup reported.*1 →
  (∀ f, f ∈ reported.*1 → is_Some (Mmap (ep (mEpoll l)) !! f) → client (ep (mEpoll l)) f) →
  ∃ N, ∀ fuel, N ≤ fuel →
    match iteration o timed fuel x reported l with
    | Some (l', sent) =>
        epoll_ok (ep (mEpoll l')) ∧ same_outside reported.*1 (ep (mEpoll l)) (ep (mEpoll l')) ∧
        threads (mEpoll l') = threads (mEpoll l) ∧
        sent.*1 = filter (λ f, is_Some (Mmap (ep (mEpoll l)) !! f)) reported.*1 ∧
        coroutine_num l' = coroutine_num l ∧ loop_ready l'
    | None => reported = [] ∨
        ∃ results e, Poll reported (ep (mEpoll l)) = Some (results, e) ∧
          foldl (on_event o timed x) (Some (set_ep e (mEpoll l), [])) results = None
    end.
Proof.
  intros Hrdy Hok Hnd Hcl.
  destruct (Poll reported (ep (mEpoll l))) as [[fs e]|] eqn:HP.
  2:{ exists 0. intros fuel _. unfold iteration. rewrite HP. left.
      destruct (decide (reported = [])) as [|Hne]; [done|].
      destruct (Poll_eq reported (ep (mEpoll l)) Hne) as [? ?]. congruence. }
  destruct (iteration_batch o timed x reported l fs e Hrdy HP) as (N & p & Hit).
  exists N. intros fuel Hle. destruct (Hit fuel Hle) as [Hrdy' ->].
  destruct (foldl _ _ _) as [[s' out]|] eqn:Hf; [|by right; exists fs, e]. cbn [mbind option_bind mEpoll coroutine_num].
  destruct (Poll_ok _ _ _ _ HP Hok) as (Hok1 & Hs1 & Hcl1).
  destruct (Poll_results _ _ _ _ HP Hnd) as [-> Hnd1].
  apply batch_clients in Hf as (Hok2 & Hs2 & Ht2 & Hsent); [|done|done|].
  - simpl in *. split_and!; [done| |done|done|done|done]. split; [by rewrite (proj1 Hs2), (proj1 Hs1)|].
    intros g Hg. destruct (proj2 Hs1 g Hg) as (? & ? & ?).
    destruct (proj2 Hs2 g) as (? & ? & ?); [rewrite list_elem_of_filter; tauto|].
    split_and!; [congruence..|tauto].
  - apply Forall_forall. intros f [Hs Hin]%list_elem_of_filter. apply Hcl1. by apply Hcl.
Qed.

(** The listening channel accepts every connection that is waiting, until
    [accept] has none.  With one thread each new connection is registered for
    input in the same loop, which keeps its other connections; with several
    they all go to the worker threads and this registry does not change. *)
Theorem accept_all (o : os) (timed : bool) (x : calls) (f : Z) (c : chan) (s : loop_state)
    (rs rs' : list ares) (fds : list Z) :
  Mmap (ep s) !! f = Some c → read c = h_Maccept → fd c = f → event_channel (ep s) ≠ Some f →
  epoll_ok (ep s) →
  Forall (λ r, match r with Accepted _ => True | AFails e => e ≠ EAGAIN end) rs →
  fds = omap (λ r, match r with Accepted fd => if decide (0 < fd)%Z then Some fd else None | _ => None end) rs →
  io_accepts x = rs ++ AFails EAGAIN :: rs' → NoDup fds → length (io_wbuf x) = BUFF_SIZE →
  (∀ g, g ∈ fds → g ∈ opened (ep s) ∧ Mmap (ep s) !! g = None) →
  (threads s = None →
    ∃ e', handle_event o timed x f s = Some (set_ep e' s, []) ∧ epoll_ok e' ∧ same_outside fds (ep s) e' ∧
      ∀ g, g ∈ fds → served g (Chan g IN_ET h_readn false None (io_wbuf x)) IN_ET e') ∧
  (∀ d, threads s = Some d → length (counters d) ≠ 0 →
    ∃ ws d', dispatch_all d fds = Some (ws, d') ∧
      handle_event o timed x f s = Some (LoopState (ep s) (Some d'), [])).
Proof.
  intros HM Hr Hf Hev Hok Hrs Hfds Hx Hnd Hb Hfr.
  unfold handle_event. rewrite HM. cbn [mbind option_bind]. rewrite bool_decide_eq_false_2 by done.
  unfold HandleRead. rewrite Hr, Hx, (Maccept_all fds) by done. cbn [mbind option_bind]. split.
  - intros Ht. rewrite Ht. cbn [mbind option_bind].
    rewrite bool_decide_eq_false_2 by (rewrite Hr; intros [?|?]; done). cbn [andb].
    destruct (add_all_fresh fds (io_wbuf x) (ep s) Hok Hnd Hb Hfr) as (Hok1 & Hs1 & Hsv1).
    eexists. split; [done|]. unfold release. simpl. rewrite Hf.
    destruct (proj2 Hs1 f) as (-> & _); [|by rewrite HM].
    intros Hin. destruct (Hfr f Hin) as [_ E]. congruence.
  - intros d Ht Hd. destruct (dispatch_all_spec fds d Hd) as (ws & d' & Heq & _).
    exists ws, d'. split; [done|]. rewrite Ht, Heq. cbn [mbind option_bind].
    rewrite bool_decide_eq_false_2 by (rewrite Hr; intros [?|?]; done). cbn [andb].
    unfold release. simpl. by rewrite Hf, HM.
Qed.

(** An outcome of [main] with its condition. *)
Ltac leaf :=
  unfold iff; repeat match goal with |- _ ∧ _ => split | |- ∀ _, _ => intro end;
  first [discriminate|done|tauto|lia|intuition (first [discriminate|lia])].


(** ** Concrete loops *)

Lemma coroutines_change_nothing_witness :
  ∃ p N p', ∀ fuel fuel0, N ≤ fuel →
    iteration (Os None (λ _, None)) true fuel (λ _, demo_calls) [(7, EPOLLIN)]%Z
      (EventLoop (demo_loop true) 2 p) =
    '(l, sent) ← iteration (Os None (λ _, None)) true fuel0 (λ _, demo_calls) [(7, EPOLLIN)]%Z
      (EventLoop (demo_loop true) 0 demo_co_pool);
    Some (EventLoop (mEpoll l) 2 p', sent).
Proof.
  destruct (loop_start_ok (Os None (λ _, None)) true 2 empty_condq (demo_loop true) empty_condq_rep)
    as (l & _ & _ & _ & Hid & Ht).
  destruct (coroutines_change_nothing (Os None (λ _, None)) true 2 (λ _, demo_calls) [(7, EPOLLIN)]%Z
    (demo_loop true) (mCoroutinePool l) demo_co_pool) as (N & p' & _ & _ & H);
    [lia|exact Hid|exact Ht|discriminate|].
  exists (mCoroutinePool l), N, p'. exact H.
Defined.

(** A loop with two coroutines in which one client is reported. *)
Lemma iteration_safe_witness :
  ∃ p l' sent fuel, iteration (Os None (λ _, None)) true fuel (λ _, demo_calls) [(7, EPOLLIN)]%Z
      (EventLoop (demo_loop true) 2 p) = Some (l', sent) ∧ epoll_ok (ep (mEpoll l')) ∧ sent.*1 = [7%Z] ∧
    loop_ready l'.
Proof.
  destruct (loop_start_ok (Os None (λ _, None)) true 2 empty_condq (demo_loop true) empty_condq_rep)
    as (l & _ & _ & _ & Hid & Ht).
  destruct (iteration_safe (Os None (λ _, None)) true (λ _, demo_calls) [(7, EPOLLIN)]%Z
      (EventLoop (demo_loop true) 2 (mCoroutinePool l))) as (N & HN).
  - exists 2. split; [reflexivity|]. intros _. split; [exact Hid|exact Ht].
  - apply demo_loop_ok.
  - apply NoDup_singleton.
  - intros f Hf _. apply list_elem_of_singleton in Hf. subst f. split; [discriminate|].
    exists demo_chan. split; [reflexivity|left; reflexivity].
  - specialize (HN N (le_n N)).
    destruct (iteration _ _ _ _ _ _) as [[l' sent]|] eqn:E.
    + destruct HN as (H1 & _ & _ & H2 & _ & H3). exists (mCoroutinePool l), l', sent, N.
      split; [exact E|]. split; [exact H1|]. split; [|exact H3]. rewrite H2. reflexivity.
    + exfalso. destruct HN as [HN|(results & e & HP & HN)]; [discriminate HN|].
      vm_compute in HP. injection HP as <- <-. vm_compute in HN. discriminate HN.
Defined.

Lemma accept_all_witness :
  ∃ e', handle_event (Os None (λ _, None)) true
      (Calls [] [] ([AFails EINTR; Accepted 8] ++ [AFails EAGAIN]) (zeros BUFF_SIZE)) 3 demo_listen =
        Some (set_ep e' demo_listen, []) ∧ kernel e' !! 8%Z = Some IN_ET.
Proof.
  assert (Hz : length (zeros BUFF_SIZE) = BUFF_SIZE) by apply length_replicate.
  assert (Hin : (3 ∈ ({[3; 8]} : gset Z))%Z) by (apply elem_of_union_l, elem_of_singleton; reflexivity).
  destruct (Epoll_Add_first (Chan 3 IN_ET h_Maccept false None (zeros BUFF_SIZE)) {[3; 8]}%Z None Hz Hin) as [Hok _].
  destruct (accept_all (Os None (λ _, None)) true
      (Calls [] [] ([AFails EINTR; Accepted 8] ++ [AFails EAGAIN]) (zeros BUFF_SIZE)) 3
      (Chan 3 IN_ET h_Maccept false None (zeros BUFF_SIZE)) demo_listen [AFails EINTR; Accepted 8] [] [8%Z]) as [H _].
  - reflexivity.
  - reflexivity.
  - reflexivity.
  - discriminate.
  - exact Hok.
  - repeat constructor; discriminate.
  - reflexivity.
  - reflexivity.
  - apply NoDup_singleton.
  - apply length_replicate.
  - intros g Hg. apply list_elem_of_singleton in Hg. subst g. split; [|reflexivity].
    apply elem_of_union_r, elem_of_singleton. reflexivity.
  - destruct H as (e' & H1 & _ & _ & H2); [reflexivity|]. exists e'. split; [exact H1|].
    destruct (H2 8%Z) as (_ & H3 & _); [left|exact H3].
Defined.

