(* ===== verification/Hook.v ===== *)
(** * Hooked system calls (co_hook_sys_call.cpp)

    The functions that stand in for the system calls of the same names.  In a
    coroutine that has enabled the hooks a call on a descriptor of the table
    [g_rpchook_socket_fd] waits in [poll], which switches to other coroutines,
    and only then enters the system.  A function is a program of system calls:
    what the system replies is an argument of [run]. *)

From Stdlib Require Import Ascii.
From S2P Require Import Prelude Poll Io.

Local Open Scope cint_scope.
Local Open Scope Z_scope.

(** ** Programs of system calls *)

Inductive syscall :=
  | CSocket (domain type protocol : Z)
  | CAccept (fd : Z)
  | CConnect (fd : Z) (address : list ascii)
  | CClose (fd : Z)
  | CRead (fd : Z) (n : nat)
  | CWrite (fd : Z) (buf : list ascii)
  | CSendto (fd : Z) (buf : list ascii) (flags : Z) (dest : list ascii)
  | CRecvfrom (fd : Z) (n : nat) (flags : Z)
  | CSend (fd : Z) (buf : list ascii) (flags : Z)
  | CRecv (fd : Z) (n : nat) (flags : Z)
  | CPoll (fd events timeout : Z)
  | CGetSoError (fd : Z)
  | CSetsockopt (fd level name : Z) (value : Z * Z)
  | CFcntl (fd cmd : Z) (arg : option Z).

(** What a system call returns: its value, [errno] if that is negative, and what
    it stores: bytes, [revents] or the error of the socket. *)
Record reply := Reply { r_val : Z; r_errno : Z; r_bytes : list ascii; r_word : Z }.

(** [CPoll] is the hooked [poll].  [Crash] is undefined behaviour. *)
Inductive prog (A : Type) :=
  | Done (a : A)
  | Crash
  | Sys (c : syscall) (k : reply → prog A)
  | SetErrno (e : Z) (p : prog A).
Arguments Done {_} _.
Arguments Crash {_}.
Arguments Sys {_} _ _.
Arguments SetErrno {_} _ _.

Fixpoint pbind {A B} (p : prog A) (f : A → prog B) : prog B :=
  match p with
  | Done a => f a
  | Crash => Crash
  | Sys c k => Sys c (λ r, pbind (k r) f)
  | SetErrno e p => SetErrno e (pbind p f)
  end.

(** [run step p k e]: the program in a system [step] in state [k], with [errno]
    [e]. *)
Fixpoint run {A K} (step : syscall → K → reply * K) (p : prog A) (k : K) (e : Z) : option (A * K * Z) :=
  match p with
  | Done a => Some (a, k, e)
  | Crash => None
  | Sys c f =>
      let '(r, k) := step c k in
      run step (f r) k (if decide (r_val r < 0) then r_errno r else e)
  | SetErrno e p => run step p k e
  end.

(** ** The table of sockets *)

Record rpchook_t := Rpchook {
  user_flag : Z;
  dest : list ascii;
  domain : Z;
  read_timeout : Z * Z;
  write_timeout : Z * Z;
}.

Notation table := (gmap Z rpchook_t).

Definition set_user_flag (f : Z) (lp : rpchook_t) : rpchook_t :=
  Rpchook f (dest lp) (domain lp) (read_timeout lp) (write_timeout lp).
Definition set_dest (d : list ascii) (lp : rpchook_t) : rpchook_t :=
  Rpchook (user_flag lp) d (domain lp) (read_timeout lp) (write_timeout lp).
Definition set_domain (d : Z) (lp : rpchook_t) : rpchook_t :=
  Rpchook (user_flag lp) (dest lp) d (read_timeout lp) (write_timeout lp).
Definition set_read_timeout (t : Z * Z) (lp : rpchook_t) : rpchook_t :=
  Rpchook (user_flag lp) (dest lp) (domain lp) t (write_timeout lp).
Definition set_write_timeout (t : Z * Z) (lp : rpchook_t) : rpchook_t :=
  Rpchook (user_flag lp) (dest lp) (domain lp) (read_timeout lp) t.

Definition FD_LIMIT : Z := 102400.

Definition in_table (fd : Z) : bool := bool_decide (-1 < fd ∧ fd < FD_LIMIT).

Definition get_by_fd (fd : Z) (t : table) : option rpchook_t :=
  if in_table fd then t !! fd else None.

(** [calloc] clears the entry; [dest] is a [sockaddr_in] of 16 bytes. *)
Definition new_entry : rpchook_t := Rpchook 0 (replicate 16 "000"%char) 0 (1, 0) (1, 0).

(** The boolean is false when the result is [NULL]. *)
Definition alloc_by_fd (fd : Z) (t : table) : bool * table :=
  if in_table fd then (true, <[fd := new_entry]> t) else (false, t).

Definition free_by_fd (fd : Z) (t : table) : table :=
  if in_table fd then delete fd t else t.

(** ** Constants of the system *)

Definition IN_EVENTS : Z := Z.lor (Z.lor POLLIN POLLERR) POLLHUP.
Definition OUT_EVENTS : Z := Z.lor (Z.lor POLLOUT POLLERR) POLLHUP.
Definition E_AGAIN : Z := 11.
Definition ETIMEDOUT : Z := 110.
Definition EINPROGRESS : Z := 115.
Definition SOL_SOCKET : Z := 1.
Definition SO_RCVTIMEO : Z := 20.
Definition SO_SNDTIMEO : Z := 21.
Definition F_DUPFD : Z := 0.
Definition F_GETFD : Z := 1.
Definition F_SETFD : Z := 2.
Definition F_GETFL : Z := 3.
Definition F_SETFL : Z := 4.
Definition F_GETLK : Z := 5.
Definition F_SETLK : Z := 6.
Definition F_SETLKW : Z := 7.
Definition F_SETOWN : Z := 8.
Definition F_GETOWN : Z := 9.

(** A [timeval] in milliseconds, as an [int]. *)
Definition millis (t : Z * Z) : Z := s32 (t.1 * 1000 + Z.quot t.2 1000).

(** ** The hooked functions

    [on] is [co_is_enable_sys_hook()].  The results carry the table. *)

(** The call as the system has it. *)
Definition direct (c : syscall) (t : table) : prog (reply * table) := Sys c (λ r, Done (r, t)).

(** The calls of a descriptor that is in the table and that its user has not
    made non-blocking are hooked. *)
Definition hooked (on : bool) (fd : Z) (t : table) : option rpchook_t :=
  guard on;;
  lp ← get_by_fd fd t;
  guard (Z.land O_NONBLOCK (user_flag lp) = 0);;
  Some lp.

Definition fcntl (on : bool) (fildes cmd : Z) (arg : option Z) (t : table) : prog (Z * table) :=
  if decide (fildes < 0) then Done (660, t)
  else
    let lp := get_by_fd fildes t in
    if decide (cmd = F_GETFD ∨ cmd = F_GETFL ∨ cmd = F_GETOWN) then
      Sys (CFcntl fildes cmd None) (λ r, Done (r_val r, t))
    else if decide (cmd = F_SETFL) then
      let param := default 0 arg in
      let flag := if on && bool_decide (is_Some lp) then Z.lor param O_NONBLOCK else param in
      Sys (CFcntl fildes cmd (Some flag)) (λ r,
        if decide (r_val r = 0) then Done (r_val r, alter (set_user_flag param) fildes t)
        else Done (r_val r, t))
    else if decide (cmd = F_DUPFD ∨ cmd = F_SETFD ∨ cmd = F_SETOWN ∨ cmd = F_GETLK ∨ cmd = F_SETLK ∨ cmd = F_SETLKW)
    then Sys (CFcntl fildes cmd arg) (λ r, Done (r_val r, t))
    else Done (-1, t).

(** [lp] is not checked: a descriptor outside the table is a [NULL] access. *)
Definition socket (on : bool) (dom type protocol : Z) (t : table) : prog (Z * table) :=
  Sys (CSocket dom type protocol) (λ r,
    let fd := r_val r in
    if negb on then Done (fd, t)
    else if decide (fd < 0) then Done (fd, t)
    else
      let '(ok, t) := alloc_by_fd fd t in
      if negb ok then Crash
      else
        let t := alter (set_domain dom) fd t in
        Sys (CFcntl fd F_GETFL None) (λ g,
          pbind (fcntl on fd F_SETFL (Some (r_val g)) t) (λ '(_, t), Done (fd, t)))).

Definition co_accept (fd : Z) (t : table) : prog (Z * table) :=
  Sys (CAccept fd) (λ r,
    let cli := r_val r in
    if decide (cli < 0) then Done (cli, t) else Done (cli, (alloc_by_fd cli t).2)).

(** The polls of [connect], 25 seconds each: the [revents] of the last one. *)
Fixpoint connect_wait (n : nat) (fd revents : Z) (k : Z → prog (Z * table)) : prog (Z * table) :=
  match n with
  | O => k revents
  | S n =>
      Sys (CPoll fd OUT_EVENTS 25000) (λ r,
        if decide (r_val r = 1) then k (r_word r) else connect_wait n fd (r_word r) k)
  end.

Definition connect (on : bool) (fd : Z) (address : list ascii) (t : table) : prog (Z * table) :=
  Sys (CConnect fd address) (λ r,
    let ret := r_val r in
    if negb on then Done (ret, t)
    else
      match get_by_fd fd t with
      | None => Done (ret, t)
      | Some lp =>
          let t := if decide (length address ≤ 16)%nat
                   then <[fd := set_dest (address ++ drop (length address) (dest lp)) lp]> t else t in
          if decide (Z.land O_NONBLOCK (user_flag lp) ≠ 0) then Done (ret, t)
          else if negb (bool_decide (ret < 0 ∧ r_errno r = EINPROGRESS)) then Done (ret, t)
          else connect_wait 3 fd 0 (λ revents,
            if decide (Z.land revents POLLOUT ≠ 0) then SetErrno 0 (Done (0, t))
            else Sys (CGetSoError fd) (λ g,
              SetErrno (if decide (r_word g ≠ 0) then r_word g else ETIMEDOUT) (Done (ret, t))))
      end).

Definition close (on : bool) (fd : Z) (t : table) : prog (reply * table) :=
  if negb on then direct (CClose fd) t else direct (CClose fd) (free_by_fd fd t).

(** The functions that read wait for input first. *)
Definition wait_then (on : bool) (fd : Z) (c : syscall) (t : table) : prog (reply * table) :=
  match hooked on fd t with
  | None => direct c t
  | Some lp => Sys (CPoll fd IN_EVENTS (millis (read_timeout lp))) (λ _, direct c t)
  end.

Definition read (on : bool) (fd : Z) (nbyte : nat) (t : table) : prog (reply * table) :=
  wait_then on fd (CRead fd nbyte) t.

Definition recvfrom (on : bool) (fd : Z) (length : nat) (flags : Z) (t : table) : prog (reply * table) :=
  wait_then on fd (CRecvfrom fd length flags) t.

Definition recv (on : bool) (fd : Z) (length : nat) (flags : Z) (t : table) : prog (reply * table) :=
  wait_then on fd (CRecv fd length flags) t.

Definition sendto (on : bool) (fd : Z) (message : list ascii) (flags : Z) (to : list ascii) (t : table)
    : prog (reply * table) :=
  match hooked on fd t with
  | None => direct (CSendto fd message flags to) t
  | Some lp =>
      Sys (CSendto fd message flags to) (λ r,
        if decide (r_val r < 0 ∧ r_errno r = E_AGAIN) then
          Sys (CPoll fd OUT_EVENTS (millis (write_timeout lp))) (λ _,
            direct (CSendto fd message flags to) t)
        else Done (r, t))
  end.

(** The loop of [write] and of [send], from [wrotelen] and [writeret] on.  [sys]
    is the system call on the rest of the buffer; each round but the last sends
    at least one byte, so that [length buf] rounds are enough. *)
Fixpoint write_rest (fuel : nat) (sys : list ascii → syscall) (fd timeout : Z) (buf : list ascii)
    (wrotelen : nat) (writeret : Z) (t : table) : prog (Z * table) :=
  let finish (wrotelen : nat) (writeret : Z) :=
    Done (if decide (writeret ≤ 0 ∧ wrotelen = 0%nat) then writeret else Z.of_nat wrotelen, t) in
  if decide (wrotelen < length buf)%nat then
    match fuel with
    | O => Crash
    | S fuel =>
        Sys (CPoll fd OUT_EVENTS timeout) (λ _,
          Sys (sys (drop wrotelen buf)) (λ r,
            if decide (r_val r ≤ 0) then finish wrotelen (r_val r)
            else write_rest fuel sys fd timeout buf (wrotelen + Z.to_nat (r_val r)) (r_val r) t))
    end
  else finish wrotelen writeret.

Definition write_hooked (sys : list ascii → syscall) (fd : Z) (lp : rpchook_t) (buf : list ascii) (t : table)
    : prog (Z * table) :=
  Sys (sys buf) (λ r,
    if decide (r_val r = 0) then Done (0, t)
    else write_rest (S (length buf)) sys fd (millis (write_timeout lp)) buf (Z.to_nat (r_val r)) (r_val r) t).

Definition write (on : bool) (fd : Z) (buf : list ascii) (t : table) : prog (Z * table) :=
  match hooked on fd t with
  | None => Sys (CWrite fd buf) (λ r, Done (r_val r, t))
  | Some lp => write_hooked (CWrite fd) fd lp buf t
  end.

Definition send (on : bool) (fd : Z) (buffer : list ascii) (flags : Z) (t : table) : prog (Z * table) :=
  match hooked on fd t with
  | None => Sys (CSend fd buffer flags) (λ r, Done (r_val r, t))
  | Some lp => write_hooked (λ b, CSend fd b flags) fd lp buffer t
  end.

Definition setsockopt (on : bool) (fd level name : Z) (value : Z * Z) (t : table) : prog (reply * table) :=
  let t :=
    if negb on then t
    else if bool_decide (is_Some (get_by_fd fd t)) && bool_decide (level = SOL_SOCKET) then
      if decide (name = SO_RCVTIMEO) then alter (set_read_timeout value) fd t
      else if decide (name = SO_SNDTIMEO) then alter (set_write_timeout value) fd t
      else t
    else t in
  direct (CSetsockopt fd level name value) t.

(** ** Systems

    A descriptor to which bytes are written: each attempt takes a prefix, or
    fails with -1 and takes nothing. *)
Record sink {K} (step : syscall → K → reply * K) (fd : Z) (stream : K → list ascii)
    (sys : list ascii → syscall) : Prop := {
  sink_takes : ∀ bs k, -1 ≤ r_val (step (sys bs) k).1 ≤ Z.of_nat (length bs) ∧
    stream (step (sys bs) k).2 = stream k ++ take (Z.to_nat (r_val (step (sys bs) k).1)) bs;
  sink_poll : ∀ ev tm k, stream (step (CPoll fd ev tm) k).2 = stream k;
}.

(** After a [poll] something can be written. *)
Definition writable {K} (step : syscall → K → reply * K) (fd : Z) (sys : list ascii → syscall) : Prop :=
  ∀ ev tm k bs, bs ≠ [] → 0 < r_val (step (sys bs) (step (CPoll fd ev tm) k).2).1.

(** A program returns the number of bytes that it has written, or -1. *)
Definition writes {K} (step : syscall → K → reply * K) (stream : K → list ascii) (buf : list ascii)
    (t : table) (p : prog (Z * table)) (Q : K → Z → Prop) : Prop :=
  ∀ k e, ∃ n k' e', run step p k e = Some ((n, t), k', e') ∧
    -1 ≤ n ≤ Z.of_nat (length buf) ∧ stream k' = stream k ++ take (Z.to_nat n) buf ∧ Q k n.

(** The entry of a socket that has been opened with the flags [fl]. *)
Definition opened_entry (dom fl : Z) : rpchook_t := set_user_flag fl (set_domain dom new_entry).

(** A system that records its calls, [rep] being what it replies. *)
Definition record (rep : list syscall → syscall → reply) (c : syscall) (k : list syscall)
    : reply * list syscall := (rep k c, k ++ [c]).

(** A pipe that takes [n] bytes at a time and blocks after each. *)
Definition demo_step (n : nat) (c : syscall) (k : list ascii * bool) : reply * (list ascii * bool) :=
  match c with
  | CWrite _ bs | CSend _ bs _ =>
      if k.2 then (Reply (Z.of_nat (min n (length bs))) 0 [] 0, (k.1 ++ take n bs, false))
      else (Reply (-1) E_AGAIN [] 0, k)
  | _ => (Reply 1 0 [] POLLOUT, (k.1, true))
  end.

Definition demo_rep (k : list syscall) (c : syscall) : reply :=
  match c with
  | CSocket _ _ _ => Reply 5 0 [] 0
  | CFcntl _ cmd _ => Reply (if decide (cmd = F_GETFL) then if decide (length k ≤ 2)%nat then 2 else 2050 else 0) 0 [] 0
  | _ => Reply 1 0 [] 0
  end.

(** A system that refuses a connection while it is polled for the second time. *)
Definition refused_rep (k : list syscall) (c : syscall) : reply :=
  match c with
  | CConnect _ _ => Reply (-1) EINPROGRESS [] 0
  | CPoll _ _ _ => if decide (length k ≤ 1)%nat then Reply 0 0 [] 0 else Reply 1 0 [] (Z.lor POLLOUT (Z.lor POLLERR POLLHUP))
  | _ => Reply 0 0 [] 111
  end.

(** ** Running *)

Lemma run_pbind {A B K} step (p : prog A) (f : A → prog B) (k : K) e :
  run step (pbind p f) k e = '(a, k, e) ← run step p k e; run step (f a) k e.
Proof.
  revert k e. induction p as [a| |c g IH|e' p IH]; intros k e; simpl; [done..| |apply IH].
  destruct (step c k) as [r k']. apply IH.
Qed.

Lemma run_sys {A K} step c (f : reply → prog A) (k : K) e :
  run step (Sys c f) k e =
    run step (f (step c k).1) (step c k).2 (if decide (r_val (step c k).1 < 0) then r_errno (step c k).1 else e).
Proof. simpl. by destruct (step c k). Qed.

(** ** Writing *)

Section write.
Context {K : Type} (step : syscall → K → reply * K) (fd : Z) (stream : K → list ascii).
Context (sys : list ascii → syscall) (Hsink : sink step fd stream sys).

Lemma write_rest_spec tm buf t fuel : ∀ w ret k e,
  (w ≤ length buf)%nat → (length buf - w < fuel)%nat → -1 ≤ ret → (w = 0%nat → ret ≤ 0) →
  ∃ n k' e', run step (write_rest fuel sys fd tm buf w ret t) k e = Some ((n, t), k', e') ∧
    -1 ≤ n ≤ Z.of_nat (length buf) ∧ (w ≤ Z.to_nat n)%nat ∧
    stream k' = stream k ++ take (Z.to_nat n - w) (drop w buf) ∧
    (writable step fd sys → (0 < w ∨ 0 < length buf)%nat → n = Z.of_nat (length buf)).
Proof.
  induction fuel as [|fuel IH]; intros w ret k e Hw Hf Hr H0; [lia|]. cbn [write_rest].
  case_decide as Hlt.
  - rewrite !run_sys. set (k1 := (step (CPoll fd OUT_EVENTS tm) k).2).
    destruct (sink_takes _ _ _ _ Hsink (drop w buf) k1) as [Hb Hs]. rewrite length_drop in Hb.
    assert (Hk1 : stream k1 = stream k) by apply (sink_poll _ _ _ _ Hsink).
    assert (Hne : drop w buf ≠ []) by (intros E; apply (f_equal length) in E; rewrite length_drop in E; simpl in E; lia).
    set (r := (step (sys (drop w buf)) k1).1) in *.
    case_decide as Hr0.
    + simpl. eexists _, _, _. split; [done|]. rewrite Hs, Hk1.
      replace (Z.to_nat (r_val r)) with 0%nat by lia. split; [|split; [|split]].
      * case_decide; lia.
      * case_decide; lia.
      * f_equal. case_decide as Hc; [|by rewrite Nat2Z.id, Nat.sub_diag].
        destruct Hc as [_ ->]. f_equal. lia.
      * intros Hwr. specialize (Hwr OUT_EVENTS tm k _ Hne). fold k1 in Hwr. fold r in Hwr. lia.
    + destruct (IH (w + Z.to_nat (r_val r))%nat (r_val r) (step (sys (drop w buf)) k1).2
        (if decide (r_val r < 0) then r_errno r
         else if decide (r_val (step (CPoll fd OUT_EVENTS tm) k).1 < 0)
              then r_errno (step (CPoll fd OUT_EVENTS tm) k).1 else e)) as (n & k' & e' & Hrun & Hn & Hwn & Hst & Hall);
        [lia..|].
      exists n, k', e'. split; [exact Hrun|]. split; [done|]. split; [lia|]. split.
      * rewrite Hst, Hs, Hk1, <-app_assoc, <-drop_drop. f_equal.
        replace (Z.to_nat n - w)%nat with (Z.to_nat (r_val r) + (Z.to_nat n - (w + Z.to_nat (r_val r))))%nat by lia.
        by rewrite take_take_drop.
      * intros Hwr _. apply Hall; [done|lia].
  - simpl. eexists _, k, e. split; [done|]. assert (w = length buf) as -> by lia.
    rewrite drop_ge, take_nil, app_nil_r by lia. case_decide; split_and!; try done; lia.
Qed.

Lemma write_hooked_spec lp buf t :
  writes step stream buf t (write_hooked sys fd lp buf t)
    (λ k n, writable step fd sys → buf ≠ [] → r_val (step (sys buf) k).1 ≠ 0 → n = Z.of_nat (length buf)).
Proof.
  intros k e. unfold write_hooked. rewrite run_sys.
  destruct (sink_takes _ _ _ _ Hsink buf k) as [Hb Hs]. set (r := (step (sys buf) k).1) in *.
  case_decide as Hr0.
  - simpl. eexists _, _, _. split; [done|]. rewrite Hs, Hr0. split_and!; [lia..|done|].
    intros _ _ ?; done.
  - destruct (write_rest_spec (millis (write_timeout lp)) buf t (S (length buf)) (Z.to_nat (r_val r)) (r_val r)
      (step (sys buf) k).2 (if decide (r_val r < 0) then r_errno r else e)) as (n & k' & e' & Hrun & Hn & Hwn & Hst & Hall);
      [lia..|].
    exists n, k', e'. split; [exact Hrun|]. split; [done|]. split.
    + rewrite Hst, Hs, <-app_assoc. f_equal.
      replace (Z.to_nat n) with (Z.to_nat (r_val r) + (Z.to_nat n - Z.to_nat (r_val r)))%nat at 2 by lia.
      by rewrite take_take_drop.
    + intros Hwr Hne _. apply Hall; [done|]. destruct buf; simpl in *; [done|lia].
Qed.
End write.

(** ** The life of a socket *)

Section record.
Context (rep : list syscall → syscall → reply).

Lemma run_record {A} c (f : reply → prog A) k e :
  run (record rep) (Sys c f) k e =
    run (record rep) (f (rep k c)) (k ++ [c]) (if decide (r_val (rep k c) < 0) then r_errno (rep k c) else e).
Proof. done. Qed.

Lemma in_table_true fd : 0 ≤ fd < FD_LIMIT → in_table fd = true.
Proof. intros. apply bool_decide_eq_true_2. lia. Qed.

Lemma recv_hooked fd n fl t lp k e :
  hooked true fd t = Some lp →
  ∃ a e', run (record rep) (recv true fd n fl t) k e =
    Some (a, k ++ [CPoll fd IN_EVENTS (millis (read_timeout lp)); CRecv fd n fl], e').
Proof.
  intros Hh. unfold recv, wait_then, direct. rewrite Hh, !run_record. simpl.
  rewrite <-app_assoc. by eexists _, _.
Qed.

Lemma recv_direct fd n fl t k e :
  hooked true fd t = None →
  ∃ a e', run (record rep) (recv true fd n fl t) k e = Some (a, k ++ [CRecv fd n fl], e').
Proof. intros Hh. unfold recv, wait_then, direct. rewrite Hh, run_record. simpl. by eexists _, _. Qed.

Lemma hooked_entry fd t lp :
  0 ≤ fd < FD_LIMIT → t !! fd = Some lp →
  hooked true fd t = if decide (Z.land O_NONBLOCK (user_flag lp) = 0) then Some lp else None.
Proof.
  intros Hfd Ht. unfold hooked, get_by_fd. rewrite in_table_true by done. simpl. rewrite Ht. simpl.
  case_decide; [by rewrite option_guard_True|by rewrite option_guard_False].
Qed.

Lemma fcntl_setfl fd f t lp k e :
  0 ≤ fd < FD_LIMIT → t !! fd = Some lp →
  r_val (rep k (CFcntl fd F_SETFL (Some (Z.lor f O_NONBLOCK)))) = 0 →
  run (record rep) (fcntl true fd F_SETFL (Some f) t) k e =
    Some ((0, <[fd := set_user_flag f lp]> t), k ++ [CFcntl fd F_SETFL (Some (Z.lor f O_NONBLOCK))], e).
Proof.
  intros Hfd Ht Hr. unfold fcntl. rewrite decide_False by lia.
  rewrite decide_False by (unfold F_SETFL, F_GETFD, F_GETFL, F_GETOWN; lia).
  rewrite decide_True by done. unfold get_by_fd. rewrite in_table_true, Ht by done.
  change (default 0 (Some f)) with f. rewrite bool_decide_eq_true_2 by done. cbn [andb]. rewrite run_record, Hr. simpl.
  do 4 f_equal. apply map_eq. intros g. destruct (decide (g = fd)) as [->|].
  - by rewrite lookup_alter_eq, lookup_insert_eq, Ht.
  - by rewrite lookup_alter_ne, lookup_insert_ne.
Qed.

Lemma fcntl_getfl fd t k e :
  0 ≤ fd → run (record rep) (fcntl true fd F_GETFL None t) k e =
    Some ((r_val (rep k (CFcntl fd F_GETFL None)), t), k ++ [CFcntl fd F_GETFL None],
      if decide (r_val (rep k (CFcntl fd F_GETFL None)) < 0) then r_errno (rep k (CFcntl fd F_GETFL None)) else e).
Proof. intros Hfd. unfold fcntl. rewrite decide_False by lia. by rewrite decide_True by (right; left; done). Qed.

Lemma run_socket dom type protocol e fd fl :
  let K := [CSocket dom type protocol; CFcntl fd F_GETFL None] in
  let fl' := Z.lor fl O_NONBLOCK in
  r_val (rep [] (CSocket dom type protocol)) = fd → 0 ≤ fd < FD_LIMIT →
  r_val (rep [CSocket dom type protocol] (CFcntl fd F_GETFL None)) = fl →
  r_val (rep K (CFcntl fd F_SETFL (Some fl'))) = 0 →
  ∃ e1, run (record rep) (socket true dom type protocol ∅) [] e =
    Some ((fd, {[fd := opened_entry dom fl]}), K ++ [CFcntl fd F_SETFL (Some fl')], e1).
Proof.
  intros K fl' Hfd Hr Hfl Hset. unfold socket. rewrite run_record, Hfd. cbn [negb].
  rewrite decide_False by lia. unfold alloc_by_fd. rewrite in_table_true by done. cbn [negb].
  rewrite run_record. cbn [app]. rewrite run_pbind, Hfl.
  rewrite (fcntl_setfl fd fl _ (set_domain dom new_entry)); [|done|by rewrite lookup_alter_eq, lookup_insert_eq|done].
  simpl. eexists. do 4 f_equal. apply map_eq. intros g. destruct (decide (g = fd)) as [->|].
  - by rewrite lookup_insert_eq, lookup_singleton_eq.
  - by rewrite lookup_insert_ne, lookup_alter_ne, lookup_insert_ne, lookup_singleton_ne.
Qed.
End record.

(** ** Connecting *)

Section connect.
Context (rep : list syscall → syscall → reply) (fd : Z).
Notation cpoll := (CPoll fd OUT_EVENTS 25000).

(** The polls of [connect], from the state [h] of the system on: they end with
    the first that returns 1, or with the last. *)
Lemma connect_wait_spec n (k : Z → prog (Z * table)) : ∀ revents h e,
  ∃ m e', (m ≤ n)%nat ∧ (∀ i, (i < m)%nat → r_val (rep (h ++ replicate i cpoll) cpoll) ≠ 1) ∧
    (r_val (rep (h ++ replicate m cpoll) cpoll) = 1 ∨ m = n) ∧
    run (record rep) (connect_wait (S n) fd revents k) h e =
      run (record rep) (k (r_word (rep (h ++ replicate m cpoll) cpoll))) (h ++ replicate (S m) cpoll) e'.
Proof.
  induction n as [|n IH]; intros revents h e.
  - exists 0%nat. eexists. split_and!; [done|lia|by right|]. cbn [connect_wait]. rewrite run_record, app_nil_r.
    by case_decide.
  - cbn [connect_wait]. rewrite run_record. case_decide as Hr.
    + exists 0%nat. eexists. rewrite app_nil_r. split_and!; [lia|lia|by left|done].
    + destruct (IH (r_word (rep h cpoll)) (h ++ [cpoll])
        (if decide (r_val (rep h cpoll) < 0) then r_errno (rep h cpoll) else e)) as (m & e' & Hm & Hbefore & Hlast & Hrun).
      assert (∀ i, (h ++ [cpoll]) ++ replicate i cpoll = h ++ replicate (S i) cpoll) as Hcons by (intros i; by rewrite <-app_assoc).
      rewrite !Hcons in *. exists (S m), e'. split_and!; [lia| |naive_solver|exact Hrun].
      intros [|i] Hi; [by rewrite app_nil_r|]. rewrite <-Hcons. apply Hbefore. lia.
Qed.
End connect.

(** ** Properties *)

(** C33.  [write] and [send] on a hooked descriptor always end and return how
    many bytes they have written, which are the first ones of the buffer in
    order, or -1 if none; where the descriptor takes something after each
    [poll] they write the whole buffer, unless the first attempt returns 0. *)
Theorem hooked_write_correct {K} (step : syscall → K → reply * K) (stream : K → list ascii)
    (fd flags : Z) (lp : rpchook_t) (buf : list ascii) (t : table) :
  hooked true fd t = Some lp →
  (sink step fd stream (CWrite fd) →
    writes step stream buf t (write true fd buf t) (λ k n,
      writable step fd (CWrite fd) → buf ≠ [] → r_val (step (CWrite fd buf) k).1 ≠ 0 → n = Z.of_nat (length buf))) ∧
  (sink step fd stream (λ b, CSend fd b flags) →
    writes step stream buf t (send true fd buf flags t) (λ k n,
      writable step fd (λ b, CSend fd b flags) → buf ≠ [] → r_val (step (CSend fd buf flags) k).1 ≠ 0 →
      n = Z.of_nat (length buf))).
Proof.
  intros Hh. unfold write, send. rewrite Hh. split; intros Hs.
  - apply (write_hooked_spec step fd stream (CWrite fd) Hs).
  - apply (write_hooked_spec step fd stream (λ b, CSend fd b flags) Hs).
Qed.

(** C34.  A socket that a hooked coroutine creates is non-blocking for the
    system and blocking for its user: after [setsockopt(SO_RCVTIMEO)] a [recv]
    first waits for input, with that timeout in milliseconds, and then enters
    the system.  But [fcntl(F_GETFL)] shows the flag of the system: when the
    user sets the flags that he has read the socket counts as non-blocking, and
    [recv] does not wait any more.  Nor does it after [close]. *)
Theorem socket_lifecycle (rep : list syscall → syscall → reply) (dom type protocol sec usec flags : Z)
    (n : nat) (rflags : Z) (e : Z) (fd fl : Z) (K := [CSocket dom type protocol; CFcntl fd F_GETFL None]) :
  let fl' := Z.lor fl O_NONBLOCK in
  let K1 := K ++ [CFcntl fd F_SETFL (Some fl')] in
  let K2 := K1 ++ [CSetsockopt fd SOL_SOCKET SO_RCVTIMEO (sec, usec)] in
  let K3 := K2 ++ [CFcntl fd F_GETFL None; CFcntl fd F_SETFL (Some fl')] in
  r_val (rep [] (CSocket dom type protocol)) = fd → 0 ≤ fd < FD_LIMIT →
  r_val (rep [CSocket dom type protocol] (CFcntl fd F_GETFL None)) = fl →
  Z.land O_NONBLOCK fl = 0 → r_val (rep K (CFcntl fd F_SETFL (Some fl'))) = 0 →
  r_val (rep K2 (CFcntl fd F_GETFL None)) = fl' →
  r_val (rep (K2 ++ [CFcntl fd F_GETFL None]) (CFcntl fd F_SETFL (Some fl'))) = 0 →
  ∃ t e1 t2 e2,
    run (record rep) (pbind (socket true dom type protocol ∅) (λ '(fd, t),
      pbind (setsockopt true fd SOL_SOCKET SO_RCVTIMEO (sec, usec) t) (λ '(_, t), Done (fd, t)))) [] e =
      Some ((fd, t), K2, e1) ∧
    (∀ k e, ∃ a e', run (record rep) (recv true fd n rflags t) k e =
      Some (a, k ++ [CPoll fd IN_EVENTS (millis (sec, usec)); CRecv fd n rflags], e')) ∧
    run (record rep) (pbind (fcntl true fd F_GETFL None t) (λ '(f, t), fcntl true fd F_SETFL (Some f) t)) K2 e1 =
      Some ((0, t2), K3, e2) ∧
    (∀ k e, ∃ a e', run (record rep) (recv true fd n rflags t2) k e = Some (a, k ++ [CRecv fd n rflags], e')) ∧
    (∀ k e, ∃ a e', run (record rep) (pbind (close true fd t) (λ '(_, t), recv true fd n rflags t)) k e =
      Some (a, k ++ [CClose fd; CRecv fd n rflags], e')).
Proof.
  intros fl' K1 K2 K3 Hfd Hr Hfl Hnb Hset Hget Hset2.
  set (lp := set_read_timeout (sec, usec) (opened_entry dom fl)).
  assert (Hl : ({[fd := lp]} : table) !! fd = Some lp) by apply lookup_singleton_eq.
  destruct (run_socket rep dom type protocol e fd fl Hfd Hr Hfl Hset) as (e1 & Hrun).
  assert (Halter : alter (set_read_timeout (sec, usec)) fd ({[fd := opened_entry dom fl]} : table) = {[fd := lp]})
    by apply alter_singleton_eq.
  assert (Hnb' : Z.land O_NONBLOCK fl' ≠ 0).
  { unfold fl'. rewrite Z.land_lor_distr_r, Hnb. done. }
  eexists {[fd := lp]}, _, (<[fd := set_user_flag fl' lp]> {[fd := lp]}), _. split_and!.
  - rewrite run_pbind, Hrun. cbn [mbind option_bind]. rewrite run_pbind. unfold setsockopt, direct. cbn [negb].
    unfold get_by_fd. rewrite in_table_true, lookup_singleton_eq by done.
    rewrite !bool_decide_eq_true_2 by done. rewrite decide_True by done. cbn [andb].
    rewrite run_record, Halter. done.
  - intros k e'. apply (recv_hooked rep fd n rflags _ lp). rewrite (hooked_entry _ _ lp) by done.
    by rewrite decide_True.
  - rewrite run_pbind, fcntl_getfl by lia. cbn [mbind option_bind].
    rewrite (fcntl_setfl rep fd _ _ lp); [|done..|].
    + rewrite Hget. unfold fl'. rewrite <-Z.lor_assoc, Z.lor_diag. unfold K3. by rewrite <-app_assoc.
    + rewrite Hget. unfold fl'. by rewrite <-Z.lor_assoc, Z.lor_diag.
  - intros k e'. apply recv_direct. rewrite (hooked_entry _ _ (set_user_flag fl' lp)) by (done || by rewrite lookup_insert_eq).
    by rewrite decide_False.
  - intros k e'. rewrite run_pbind. unfold close, direct. cbn [negb]. rewrite run_record. cbn [run mbind option_bind].
    destruct (recv_direct rep fd n rflags (free_by_fd fd {[fd := lp]}) (k ++ [CClose fd])
      (if decide (r_val (rep k (CClose fd)) < 0) then r_errno (rep k (CClose fd)) else e')) as (a & e2 & ->).
    + unfold free_by_fd, hooked, get_by_fd. rewrite in_table_true by done. simpl. by rewrite lookup_delete_eq.
    + rewrite <-app_assoc. by eexists _, _.
Qed.

(** C8.  [connect] on a hooked descriptor, on every branch.  It keeps the
    address; where the user asked for no blocking, or the connection is there or
    has failed at once, it returns what the system did.  Otherwise it polls
    until a poll reports one descriptor, at most three times 25 seconds, and
    returns 0 when this has reported that the descriptor can be written, else
    the error of the socket, or [ETIMEDOUT] if there is none.  The error is not
    asked for in the first case: where the system reports a refused connection
    as [POLLOUT|POLLERR|POLLHUP] the caller is told that it is connected. *)
Theorem hooked_connect_correct (rep : list syscall → syscall → reply) (fd : Z) (address : list ascii)
    (lp : rpchook_t) (t : table) (e : Z) :
  0 ≤ fd < FD_LIMIT → t !! fd = Some lp →
  let c := CConnect fd address in
  let r := rep [] c in
  let calls m := c :: replicate m (CPoll fd OUT_EVENTS 25000) in
  let poll m := rep (calls m) (CPoll fd OUT_EVENTS 25000) in
  let t' := if decide (length address ≤ 16)%nat
            then <[fd := set_dest (address ++ drop (length address) (dest lp)) lp]> t else t in
  if decide (Z.land O_NONBLOCK (user_flag lp) = 0 ∧ r_val r < 0 ∧ r_errno r = EINPROGRESS) then
    ∃ m, (m ≤ 2)%nat ∧ (∀ i, (i < m)%nat → r_val (poll i) ≠ 1) ∧ (r_val (poll m) = 1 ∨ m = 2%nat) ∧
      let err := r_word (rep (calls (S m)) (CGetSoError fd)) in
      run (record rep) (connect true fd address t) [] e = Some
        (if decide (Z.land (r_word (poll m)) POLLOUT ≠ 0) then ((0, t'), calls (S m), 0)
         else ((r_val r, t'), calls (S m) ++ [CGetSoError fd], if decide (err ≠ 0) then err else ETIMEDOUT))
  else run (record rep) (connect true fd address t) [] e =
    Some ((r_val r, t'), [c], if decide (r_val r < 0) then r_errno r else e).
Proof.
  intros Hfd Ht c r calls poll t'. unfold connect. rewrite run_record. cbn [negb]. fold c. fold r.
  unfold get_by_fd. rewrite in_table_true, Ht by done. fold t'. case_decide as Hc.
  - destruct Hc as (Hf & Hv & He). rewrite decide_False by lia. rewrite bool_decide_eq_true_2 by done. cbn [negb].
    destruct (connect_wait_spec rep fd 2 (λ revents,
      if decide (Z.land revents POLLOUT ≠ 0) then SetErrno 0 (Done (0, t'))
      else Sys (CGetSoError fd) (λ g,
        SetErrno (if decide (r_word g ≠ 0) then r_word g else ETIMEDOUT) (Done (r_val r, t')))) 0 [c]
      (if decide (r_val r < 0) then r_errno r else e)) as (m & e' & Hm & Hbefore & Hlast & Hrun).
    exists m. split_and!; [done|exact Hbefore|exact Hlast|].
    etransitivity; [exact Hrun|]. clear Hrun. change ([c] ++ replicate m (CPoll fd OUT_EVENTS 25000)) with (calls m).
    change ([c] ++ replicate (S m) (CPoll fd OUT_EVENTS 25000)) with (calls (S m)). fold (poll m).
    by case_decide.
  - case_decide as Hf; [done|]. rewrite bool_decide_eq_false_2 by (intros [??]; apply Hc; split; [lia|done]). done.
Qed.

(** ** Concrete systems *)

Lemma demo_sink n fd : sink (demo_step n) fd fst (CWrite fd).
Proof.
  split; [|done]. intros bs [out b]. simpl. destruct b; simpl; [|split; [lia|]; by rewrite app_nil_r].
  split; [lia|]. f_equal. rewrite Nat2Z.id. destruct (decide (n ≤ length bs)%nat).
  - by rewrite Nat.min_l.
  - by rewrite Nat.min_r, (take_ge bs n), firstn_all by lia.
Qed.

Lemma demo_writable n fd : (0 < n)%nat → writable (demo_step n) fd (CWrite fd).
Proof. intros Hn ev tm k bs Hbs. simpl. destruct bs; simpl; [done|lia]. Qed.

Lemma hooked_write_correct_witness :
  ∃ k' e', run (demo_step 2) (write true 5 ["a"; "b"; "c"]%char {[5 := new_entry]}) ([], true) 0 =
    Some ((3, {[5 := new_entry]}), k', e') ∧ k'.1 = ["a"; "b"; "c"]%char.
Proof.
  destruct (hooked_write_correct (demo_step 2) fst 5 0 new_entry ["a"; "b"; "c"]%char {[5 := new_entry]})
    as [H _]; [reflexivity|].
  destruct (H (demo_sink 2 5) ([], true) 0) as (n & k' & e' & H1 & _ & H2 & H3).
  assert (n = 3) as -> by (apply H3; [apply demo_writable; lia|discriminate|discriminate]).
  exists k', e'. split; [exact H1|]. rewrite H2. reflexivity.
Defined.

Lemma socket_lifecycle_witness :
  ∃ t, (∃ e1, run (record demo_rep) (pbind (socket true 2 1 0 ∅) (λ '(fd, t),
      pbind (setsockopt true fd SOL_SOCKET SO_RCVTIMEO (3, 500000) t) (λ '(_, t), Done (fd, t)))) [] 0 =
      Some ((5, t), [CSocket 2 1 0; CFcntl 5 F_GETFL None; CFcntl 5 F_SETFL (Some 2050);
                     CSetsockopt 5 SOL_SOCKET SO_RCVTIMEO (3, 500000)], e1)) ∧
    ∃ a e', run (record demo_rep) (recv true 5 10 0 t) [] 0 = Some (a, [CPoll 5 IN_EVENTS 3500; CRecv 5 10 0], e').
Proof.
  destruct (socket_lifecycle demo_rep 2 1 0 3 500000 0 10 0 0 5 2) as (t & e1 & t2 & e2 & H1 & H2 & _).
  - reflexivity.
  - unfold FD_LIMIT. lia.
  - reflexivity.
  - reflexivity.
  - reflexivity.
  - reflexivity.
  - reflexivity.
  - exists t. split; [exists e1; exact H1|]. exact (H2 [] 0).
Defined.

(** A connection that is refused while the second poll waits. *)
Lemma hooked_connect_correct_witness : ∃ t k,
  run (record refused_rep) (connect true 5 [] {[5 := new_entry]}) [] 0 = Some ((0, t), k, 0) ∧ length k = 3%nat ∧
  Forall (λ c, c ≠ CGetSoError 5) k.
Proof.
  pose proof (hooked_connect_correct refused_rep 5 [] new_entry {[5 := new_entry]} 0) as Hc.
  assert (0 ≤ 5 < FD_LIMIT) as A1 by (unfold FD_LIMIT; lia).
  specialize (Hc A1 eq_refl). cbv zeta in Hc. rewrite decide_True in Hc by decides.
  destruct Hc as (m & Hm & Hbefore & Hlast & Hrun).
  assert (m = 1%nat) as ->.
  { destruct m as [|[|m]]; [by destruct Hlast|done|]. exfalso. apply (Hbefore 1%nat); [lia|reflexivity]. }
  rewrite decide_True in Hrun by decides. eexists _, _. split; [exact Hrun|]. split; [reflexivity|].
  repeat constructor; discriminate.
Defined.
