(* ===== verification/CoEnv.v ===== *)
(** * Environment variables of coroutines (co_hook_sys_call.cpp)

    [co_set_env_list] names the variables that every coroutine has for itself;
    the hooked [setenv], [unsetenv] and [getenv] keep them in [pvEnv] and hand
    all other names to the system, whose functions are parameters. *)

From Stdlib Require Import String Ascii OrderedTypeEx.
From S2P Require Import Prelude.

Local Open Scope list_scope.

(** ** Arrays of variables *)

(** [stCoSysEnv_t]: name and value, which may be [NULL]; [stCoSysEnvArr_t]. *)
Notation sysenv := (string * option string)%type.
Notation sysenv_arr := (list sysenv).

(** [strcmp] of the names. *)
Definition co_sysenv_comp (a b : sysenv) : comparison := String.compare a.1 b.1.

(** The order that [qsort] sorts by. *)
Definition name_le (a b : sysenv) : Prop := co_sysenv_comp a b ≠ Gt.

#[global] Instance name_le_dec : RelDecision name_le.
Proof. intros a b. unfold name_le. destruct (co_sysenv_comp a b); [left; done|left; done|right; intros H; by apply H]. Defined.

(** The names that are not [NULL] and not empty. *)
Definition given_names (names : list (option string)) : sysenv_arr :=
  omap (λ o, match o with
             | Some n => if decide (n = ""%string) then None else Some (n, None)
             | None => None
             end) names.

(** The loop that removes repeated names from the sorted array, at [lq = i] with
    [n] rounds to go. *)
Fixpoint unique_loop (n i lp : nat) (data : sysenv_arr) : option (nat * sysenv_arr) :=
  match n with
  | O => Some (lp, data)
  | S n =>
      p ← data !! lp;
      q ← data !! i;
      if decide (p.1 ≠ q.1)
      then unique_loop n (S i) (S lp) (if decide (i ≠ S lp) then <[S lp := q]> data else data)
      else unique_loop n (S i) lp data
  end.

Definition unique (data : sysenv_arr) : option sysenv_arr :=
  '(lp, data) ← unique_loop (length data - 1) 1 0 data;
  Some (take (lp + 1) data).

(** [qsort] sorts by name; all values are still [NULL]. *)
Definition sorted_env (names : list (option string)) : option sysenv_arr :=
  let data := given_names names in
  if decide (1 < length data) then unique (merge_sort name_le data) else Some data.

(** [bsearch] as the C library has it: the entries [l .. u - 1] are left, and the
    comparator is called with the key and the middle one. *)
Fixpoint bsearch_loop (fuel l u : nat) (key : sysenv) (arr : sysenv_arr) : option (nat * sysenv) :=
  match fuel with
  | O => None
  | S fuel =>
      if decide (l < u) then
        let idx := Nat.div2 (l + u) in
        p ← arr !! idx;
        match co_sysenv_comp key p with
        | Lt => bsearch_loop fuel l idx key arr
        | Gt => bsearch_loop fuel (S idx) u key arr
        | Eq => Some (idx, p)
        end
      else None
  end.

Definition bsearch (n : string) (arr : sysenv_arr) : option (nat * sysenv) :=
  bsearch_loop (S (length arr)) 0 (length arr) (n, None) arr.

(** The order of the comparator, without repetitions. *)
Definition names_sorted (ns : list string) : Prop := StronglySorted (λ a b, String.compare a b = Lt) ns.

(** ** The state *)

Section env.
Context {E : Type}.
Context (sys_setenv : string → option string → bool → E → Z * E).
Context (sys_unsetenv : string → E → Z * E).
Context (sys_getenv : string → E → option string).

(** [g_co_sysenv] is [None] as long as its [data] is [NULL]; [pvEnv] of the
    coroutines that have one. *)
Record envs := Envs {
  g_co_sysenv : option sysenv_arr;
  pvEnv : gmap Z sysenv_arr;
  system : E;
}.

Definition co_set_env_list (names : list (option string)) (st : envs) : option envs :=
  match g_co_sysenv st with
  | Some _ => Some st
  | None => arr ← sorted_env names; Some (Envs (Some arr) (pvEnv st) (system st))
  end.

(** The array of coroutine [self], copied from [g_co_sysenv] if need be. *)
Definition own_env (g : sysenv_arr) (self : Z) (st : envs) : sysenv_arr :=
  default g (pvEnv st !! self).

Definition set_own (self : Z) (arr : sysenv_arr) (st : envs) : envs :=
  Envs (g_co_sysenv st) (<[self := arr]> (pvEnv st)) (system st).

Definition set_system (e : E) (st : envs) : envs := Envs (g_co_sysenv st) (pvEnv st) e.

(** [self] is [co_self()], which may be [NULL]. *)
Definition setenv (on : bool) (self : option Z) (n : string) (value : option string) (overwrite : bool)
    (st : envs) : Z * envs :=
  let sys (st : envs) :=
    let '(r, e) := sys_setenv n value overwrite (system st) in (r, set_system e st) in
  match on, g_co_sysenv st, self with
  | true, Some g, Some self =>
      let arr := own_env g self st in
      match bsearch n arr with
      | Some (i, e) =>
          let arr := if overwrite || bool_decide (e.2 = None) then <[i := (e.1, value)]> arr else arr in
          (0%Z, set_own self arr st)
      | None => sys (set_own self arr st)
      end
  | _, _, _ => sys st
  end.

Definition unsetenv (on : bool) (self : option Z) (n : string) (st : envs) : Z * envs :=
  let sys (st : envs) :=
    let '(r, e) := sys_unsetenv n (system st) in (r, set_system e st) in
  match on, g_co_sysenv st, self with
  | true, Some g, Some self =>
      let arr := own_env g self st in
      match bsearch n arr with
      | Some (i, e) => (0%Z, set_own self (<[i := (e.1, None)]> arr) st)
      | None => sys (set_own self arr st)
      end
  | _, _, _ => sys st
  end.

(** [getenv] does not check [self]: [None] is the [NULL] access. *)
Definition getenv (on : bool) (self : option Z) (n : string) (st : envs) : option (option string * envs) :=
  match on, g_co_sysenv st with
  | true, Some g =>
      self ← self;
      let arr := own_env g self st in
      match bsearch n arr with
      | Some (_, e) => Some (e.2, set_own self arr st)
      | None => Some (sys_getenv n (system st), set_own self arr st)
      end
  | _, _ => Some (sys_getenv n (system st), st)
  end.

(** What [getenv] returns in coroutine [self] with the hooks enabled. *)
Definition value_of (self : Z) (n : string) (st : envs) : option string :=
  '(v, _) ← getenv true (Some self) n st; v.

(** Every coroutine has the variables [ns]. *)
Record env_ok (ns : list string) (st : envs) : Prop := {
  en_g : ∃ g, g_co_sysenv st = Some g ∧ g.*1 = ns ∧ Forall (λ e, e.2 = None) g;
  en_own : ∀ self arr, pvEnv st !! self = Some arr → arr.*1 = ns;
  en_sorted : names_sorted ns;
}.
End env.
Arguments envs _ : clear implicits.
Arguments Envs {_} _ _ _.

(** The value that [bsearch] finds. *)
Definition bvalue (n : string) (arr : sysenv_arr) : option (option string) :=
  '(_, e) ← bsearch n arr; Some e.2.

#[global] Arguments bvalue : simpl never.

(** ** The reference of the loop *)

(** [push u x] adds [x] unless it repeats the last name. *)
Definition push (u : sysenv_arr) (x : sysenv) : sysenv_arr :=
  match last u with
  | Some p => if decide (p.1 ≠ x.1) then u ++ [x] else u
  | None => u ++ [x]
  end.

Definition uniq (l : sysenv_arr) : sysenv_arr := foldl push [] l.

(** A system whose variables are a map. *)
Definition map_setenv (n : string) (v : option string) (o : bool) (e : gmap string string)
    : Z * gmap string string :=
  match v, e !! n with
  | Some v, None => (0%Z, <[n := v]> e)
  | Some v, Some _ => (0%Z, if o then <[n := v]> e else e)
  | None, _ => ((-1)%Z, e)
  end.
Definition map_unsetenv (n : string) (e : gmap string string) : Z * gmap string string := (0%Z, delete n e).
Definition map_getenv (n : string) (e : gmap string string) : option string := e !! n.

Definition demo_names : list (option string) := [Some "B"; None; Some "A"; Some ""; Some "B"]%string.

(** ** The order of names *)

Lemma compare_lt_trans s1 s2 s3 :
  String.compare s1 s2 = Lt → String.compare s2 s3 = Lt → String.compare s1 s3 = Lt.
Proof.
  revert s2 s3. induction s1 as [|a s1 IH]; intros [|b s2] [|c s3]; simpl; try done.
  unfold Ascii.compare. intros H1 H2.
  destruct (N.compare_spec (N_of_ascii a) (N_of_ascii b)) as [E1|E1|E1],
    (N.compare_spec (N_of_ascii b) (N_of_ascii c)) as [E2|E2|E2]; try done;
    destruct (N.compare_spec (N_of_ascii a) (N_of_ascii c)) as [E3|E3|E3]; try done; try lia.
  by apply (IH s2).
Qed.

Lemma compare_refl s : String.compare s s = Eq.
Proof.
  induction s as [|a s IH]; simpl; [done|]. unfold Ascii.compare. by rewrite N.compare_refl.
Qed.

#[global] Instance name_le_trans : Transitive name_le.
Proof.
  intros [a va] [b vb] [c vc]. unfold name_le, co_sysenv_comp. simpl. intros H1 H2.
  destruct (String.compare a b) eqn:E1; [apply String.compare_eq_iff in E1 as ->; done| |done].
  destruct (String.compare b c) eqn:E2; [apply String.compare_eq_iff in E2 as <-; by rewrite E1| |done].
  by rewrite (compare_lt_trans _ _ _ E1 E2).
Qed.

#[global] Instance name_le_total : Total name_le.
Proof.
  intros [a va] [b vb]. unfold name_le, co_sysenv_comp. simpl. rewrite (String.compare_antisym a b).
  destruct (String.compare b a); simpl; auto.
Qed.

Lemma name_le_lt a b : name_le a b → a.1 ≠ b.1 → String.compare a.1 b.1 = Lt.
Proof.
  unfold name_le, co_sysenv_comp. destruct (String.compare a.1 b.1) eqn:E; [|done..].
  by apply String.compare_eq_iff in E.
Qed.

Lemma name_le_antisym a b : name_le a b → name_le b a → a.1 = b.1.
Proof.
  unfold name_le, co_sysenv_comp. rewrite (String.compare_antisym a.1 b.1).
  destruct (String.compare b.1 a.1) eqn:E; simpl; [|done..]. by apply String.compare_eq_iff in E.
Qed.

(** ** Searching *)

Lemma sorted_lookup (arr : sysenv_arr) i j a b :
  names_sorted arr.*1 → i < j → arr !! i = Some a → arr !! j = Some b → String.compare a.1 b.1 = Lt.
Proof.
  unfold names_sorted. revert i j. induction arr as [|x arr IH]; intros [|i] [|j] Hs Hij Ha Hb; simplify_eq/=; try lia;
    apply StronglySorted_inv in Hs as [Hs Hx].
  - rewrite Forall_forall in Hx. apply Hx. apply list_elem_of_fmap. exists b. split; [done|]. by eapply list_elem_of_lookup_2.
  - apply (IH i j); done || lia.
Qed.

Lemma names_sorted_NoDup ns : names_sorted ns → NoDup ns.
Proof.
  unfold names_sorted. induction 1 as [|x ns _ IH Hx]; constructor; [|done].
  rewrite Forall_forall in Hx. intros Hin%Hx. by rewrite compare_refl in Hin.
Qed.

(** The loop finds what a linear search would, as the entries outside of [l .. u - 1]
    are smaller and greater than the key. *)
Lemma bsearch_loop_spec arr n fuel l u :
  names_sorted arr.*1 → u ≤ length arr → u - l < fuel →
  (∀ i e, arr !! i = Some e → i < l → String.compare e.1 n = Lt) →
  (∀ i e, arr !! i = Some e → u ≤ i → String.compare n e.1 = Lt) →
  bsearch_loop fuel l u (n, None) arr = list_find (λ e, e.1 = n) arr.
Proof.
  intros Hs. revert l u. induction fuel as [|fuel IH]; intros l u Hu Hf Hlo Hhi; [lia|]. cbn [bsearch_loop].
  assert (Hir : ∀ m, String.compare m m ≠ Lt) by (intros m; by rewrite compare_refl).
  case_decide as Hlu.
  2:{ symmetry. apply list_find_None, Forall_lookup_2. intros i e Hi <-.
      destruct (decide (i < l)); [by apply (Hir e.1), (Hlo i)|apply (Hir e.1), (Hhi i); [done|lia]]. }
  cbv zeta. assert (Hidx : l ≤ Nat.div2 (l + u) < u).
  { rewrite Nat.div2_div. split; [apply Nat.div_le_lower_bound; lia|apply Nat.Div0.div_lt_upper_bound; lia]. }
  set (idx := Nat.div2 (l + u)) in *.
  destruct (lookup_lt_is_Some_2 arr idx) as [p Hp]; [lia|]. rewrite Hp. cbn [mbind option_bind].
  unfold co_sysenv_comp. cbn [fst]. destruct (String.compare n p.1) eqn:Hc.
  - apply String.compare_eq_iff in Hc. symmetry. apply list_find_Some. split_and!; [done|done|].
    intros j y Hy Hj Hn. pose proof (sorted_lookup arr j idx y p Hs Hj Hy Hp) as Hlt.
    rewrite Hn, <-Hc in Hlt. by apply (Hir n).
  - apply IH; [lia|lia|done|]. intros i e Hi Hge. destruct (decide (i = idx)) as [->|]; [by simplify_eq|].
    apply (compare_lt_trans _ p.1); [done|]. apply (sorted_lookup arr idx i); done || lia.
  - assert (Hpn : String.compare p.1 n = Lt) by (rewrite String.compare_antisym, Hc; done).
    apply IH; [lia|lia| |done]. intros i e Hi Hlt. destruct (decide (i = idx)) as [->|]; [by simplify_eq|].
    apply (compare_lt_trans _ p.1); [|done]. apply (sorted_lookup arr i idx); done || lia.
Qed.

Lemma bsearch_find n arr : names_sorted arr.*1 → bsearch n arr = list_find (λ e, e.1 = n) arr.
Proof.
  intros Hs. apply bsearch_loop_spec; [done|lia|lia|lia|]. intros i e Hi Hge.
  apply lookup_lt_Some in Hi. lia.
Qed.

(** ** Removing repetitions *)

Lemma uniq_snoc l x : uniq (l ++ [x]) = push (uniq l) x.
Proof. unfold uniq. by rewrite foldl_app. Qed.

Lemma push_last u x : ∃ y, last (push u x) = Some y ∧ y.1 = x.1.
Proof.
  unfold push. destruct (last u) as [p|] eqn:E; [|by rewrite last_snoc; eexists].
  case_decide as Hd; [by rewrite last_snoc; eexists|]. exists p. split; [done|].
  by destruct (decide (p.1 = x.1)).
Qed.

Lemma push_sub u x y : y ∈ push u x → y ∈ u ∨ y = x.
Proof. unfold push. destruct (last u); [case_decide|]; set_solver. Qed.

Lemma push_names u x n : n ∈ (push u x).*1 ↔ n ∈ u.*1 ∨ n = x.1.
Proof.
  unfold push. destruct (last u) as [p|] eqn:E; [case_decide as Hd|]; rewrite ?fmap_app; [set_solver| |set_solver].
  destruct (decide (p.1 = x.1)) as [<-|]; [|done]. split; [by left|]. intros [?| ->]; [done|].
  apply last_Some in E as [u' ->]. rewrite fmap_app. set_solver.
Qed.

Lemma uniq_spec l :
  StronglySorted name_le l →
  names_sorted (uniq l).*1 ∧ (∀ n, n ∈ (uniq l).*1 ↔ n ∈ l.*1) ∧ (∀ y, y ∈ uniq l → y ∈ l) ∧
  (∀ y, last (uniq l) = Some y → ∃ z, last l = Some z ∧ y.1 = z.1).
Proof.
  induction l as [|x l IH] using rev_ind; intros Hs.
  { split_and!; [constructor|done|done|done]. }
  apply StronglySorted_app in Hs as (Hcross & Hl & _).
  destruct (IH Hl) as (Hnd & Hin & Hsub & Hlast). rewrite uniq_snoc. split_and!.
  - unfold push. destruct (last (uniq l)) as [p|] eqn:Hp.
    + case_decide as Hd; [|done]. unfold names_sorted. rewrite fmap_app. apply StronglySorted_app_2; [|done|by repeat constructor].
      intros n m Hn Hm%list_elem_of_singleton. simpl in Hm. subst m.
      apply Hin, list_elem_of_fmap in Hn as (y & -> & Hy2).
      assert (Hyx : name_le y x) by (apply Hcross; [done|set_solver]). apply name_le_lt; [done|]. intros Hy1.
      destruct (Hlast p eq_refl) as (z & Hz & Hpz). apply Hd. rewrite Hpz.
      apply last_Some in Hz as [l' ->].
      apply name_le_antisym; [apply Hcross; set_solver|].
      apply elem_of_app in Hy2 as [Hy2|Hy2%list_elem_of_singleton].
      * apply StronglySorted_app in Hl as (Hc & _). unfold name_le, co_sysenv_comp. rewrite <-Hy1.
        apply (Hc y z); set_solver.
      * subst y. unfold name_le, co_sysenv_comp. by rewrite Hy1, compare_refl.
    + apply last_None in Hp. rewrite Hp. by repeat constructor.
  - intros n. rewrite push_names, Hin, fmap_app. set_solver.
  - intros y Hy. apply push_sub in Hy as [Hy| ->]; [apply Hsub in Hy|]; set_solver.
  - intros y Hy. destruct (push_last (uniq l) x) as (y' & Hy' & E). rewrite last_snoc. eexists. split; [done|].
    congruence.
Qed.

Lemma unique_loop_spec l n : ∀ i lp data,
  i + n = length l → 1 ≤ i → lp < i → length data = length l →
  take (S lp) data = uniq (take i l) → drop i data = drop i l →
  ∃ lp' data', unique_loop n i lp data = Some (lp', data') ∧ take (S lp') data' = uniq l.
Proof.
  induction n as [|n IH]; intros i lp data Hi H1 Hlp Hlen Htake Hdrop; cbn [unique_loop].
  { exists lp, data. split; [done|]. by rewrite Htake, take_ge by lia. }
  assert (Hq : ∃ q, l !! i = Some q ∧ data !! i = Some q).
  { destruct (lookup_lt_is_Some_2 l i) as [q Hq]; [lia|]. exists q. split; [done|].
    rewrite <-(Nat.add_0_r i), <-lookup_drop, Hdrop, lookup_drop, Nat.add_0_r. done. }
  destruct Hq as (q & Hq1 & Hq2).
  destruct (lookup_lt_is_Some_2 data lp) as [p Hp]; [lia|]. rewrite Hp, Hq2. cbn [mbind option_bind].
  assert (Hpush : uniq (take (S i) l) = if decide (p.1 ≠ q.1) then take (S lp) data ++ [q] else take (S lp) data).
  { rewrite (take_S_r l i q Hq1), uniq_snoc, <-Htake. unfold push.
    rewrite (take_S_r data lp p Hp), last_snoc. by case_decide. }
  assert (Hd : drop (S i) data = drop (S i) l).
  { pose proof (f_equal (drop 1) Hdrop) as Hx. rewrite !drop_drop, !Nat.add_1_r in Hx. done. }
  case_decide as Hne.
  - assert (Hx : data !! S lp = Some q ∧ i = S lp ∨ i ≠ S lp ∧ S lp < i) by (destruct (decide (i = S lp)) as [->|]; [left|right; lia]; done).
    destruct Hx as [[Hx ->]|[Hx Hlt]].
    + rewrite decide_False by (intros Hc; by apply Hc). apply IH; try lia; [|done].
      by rewrite (take_S_r data (S lp) q Hx), Hpush.
    + rewrite decide_True by done. apply IH; try lia; [by rewrite length_insert| |].
      * rewrite (take_S_r _ (S lp) q) by (apply list_lookup_insert_eq; lia).
        rewrite take_insert_ge by lia. by rewrite Hpush.
      * by rewrite drop_insert_lt by lia.
  - apply IH; try lia; [by rewrite Hpush|done].
Qed.

Lemma unique_eq l : 0 < length l → unique l = Some (uniq l).
Proof.
  intros Hl. unfold unique.
  destruct (unique_loop_spec l (length l - 1) 1 0 l) as (lp & data & -> & Ht); try lia; try done.
  - destruct l as [|x l]; [simpl in Hl; lia|done].
  - simpl. by rewrite Nat.add_1_r, Ht.
Qed.

Lemma given_names_spec names n :
  n ∈ (given_names names).*1 ↔ n ≠ ""%string ∧ Some n ∈ names.
Proof.
  unfold given_names. rewrite list_elem_of_fmap. split.
  - intros ([m v] & -> & Hin). apply list_elem_of_omap in Hin as (o & Ho & Heq).
    destruct o as [m'|]; [|done]. case_decide; simplify_eq. by split.
  - intros [Hne Hin]. exists (n, None). split; [done|]. apply list_elem_of_omap. exists (Some n). split; [done|].
    by rewrite decide_False.
Qed.

Lemma given_names_None names : Forall (λ e : sysenv, e.2 = None) (given_names names).
Proof.
  apply Forall_forall. intros [m v] Hin. apply list_elem_of_omap in Hin as (o & Ho & Heq).
  destruct o as [m'|]; [|done]. case_decide; by simplify_eq.
Qed.

Lemma sorted_env_spec names :
  ∃ arr, sorted_env names = Some arr ∧ names_sorted arr.*1 ∧ Forall (λ e : sysenv, e.2 = None) arr ∧
    ∀ n, n ∈ arr.*1 ↔ n ≠ ""%string ∧ Some n ∈ names.
Proof.
  unfold sorted_env. pose proof (given_names_None names) as HN. case_decide as Hl.
  - set (l := merge_sort name_le (given_names names)).
    assert (Hp : l ≡ₚ given_names names) by apply merge_sort_Permutation.
    assert (Hs : StronglySorted name_le l) by apply (StronglySorted_merge_sort _).
    destruct (uniq_spec l Hs) as (Hnd & Hin & Hsub & _). exists (uniq l).
    split; [apply unique_eq; rewrite Hp; lia|]. split; [done|]. split.
    + apply Forall_forall. intros y Hy. apply Hsub in Hy. rewrite Hp in Hy.
      by eapply Forall_forall in HN.
    + intros n. rewrite Hin, <-given_names_spec, Hp. done.
  - exists (given_names names). split_and!; [done| |done|apply given_names_spec].
    destruct (given_names names) as [|x [|y l]]; [constructor|by repeat constructor|simpl in Hl; lia].
Qed.

(** ** Reading and setting *)

Lemma find_insert m n v i e (arr : sysenv_arr) :
  arr !! i = Some e → e.1 = n → NoDup arr.*1 →
  snd <$> list_find (λ e, e.1 = m) (<[i := (n, v)]> arr) =
    if decide (m = n) then Some (n, v) else snd <$> list_find (λ e, e.1 = m) arr.
Proof.
  intros Hi <- Hnd. revert i Hi. induction arr as [|x arr IH]; intros [|i] Hi; simplify_eq/=.
  - by repeat case_decide; subst.
  - apply NoDup_cons in Hnd as [Hx Hnd]. specialize (IH Hnd i Hi). destruct (decide (x.1 = m)) as [Hxm|Hxm].
    + subst m. rewrite decide_False; [done|]. intros He. apply Hx. rewrite He. apply list_elem_of_fmap. exists e.
      split; [done|]. by eapply list_elem_of_lookup_2.
    + rewrite <-!option_fmap_compose in *.
      destruct (list_find _ (<[i:=(e.1, v)]> arr)) as [[]|], (list_find _ arr) as [[]|]; exact IH.
Qed.

Lemma insert_names i e n v arr : arr !! i = Some e → e.1 = n → (<[i := (n, v)]> arr : sysenv_arr).*1 = arr.*1.
Proof.
  intros Hi <-. rewrite list_fmap_insert. apply list_insert_id. by rewrite list_lookup_fmap, Hi.
Qed.

Lemma bvalue_find n arr : names_sorted arr.*1 → bvalue n arr = snd <$> (snd <$> list_find (λ e, e.1 = n) arr).
Proof. intros Hs. unfold bvalue. rewrite bsearch_find by done. by destruct (list_find _ arr) as [[]|]. Qed.

Lemma bvalue_insert m n v i e arr :
  arr !! i = Some e → e.1 = n → names_sorted arr.*1 →
  bvalue m (<[i := (n, v)]> arr) = if decide (m = n) then Some v else bvalue m arr.
Proof.
  intros Hi He Hs. rewrite !bvalue_find by (rewrite ?(insert_names i e); done).
  rewrite (find_insert m n v i e) by (done || by apply names_sorted_NoDup). by case_decide.
Qed.

Lemma bsearch_in n arr : names_sorted arr.*1 → n ∈ arr.*1 →
  ∃ i e, bsearch n arr = Some (i, e) ∧ e.1 = n ∧ arr !! i = Some e.
Proof.
  intros Hs Hn. rewrite bsearch_find by done. destruct (list_find _ arr) as [[i e]|] eqn:E.
  - apply list_find_Some in E as (? & ? & _). by exists i, e.
  - apply list_find_None in E. apply list_elem_of_fmap in Hn as (e & -> & He).
    eapply Forall_forall in E; [|exact He]. done.
Qed.

Lemma bsearch_not_in n arr : names_sorted arr.*1 → n ∉ arr.*1 → bsearch n arr = None.
Proof.
  intros Hs Hn. rewrite bsearch_find by done. apply list_find_None, Forall_forall. intros e He <-. apply Hn.
  apply list_elem_of_fmap. by exists e.
Qed.

Section spec.
Context {E : Type}.
Context (sys_setenv : string → option string → bool → E → Z * E).
Context (sys_unsetenv : string → E → Z * E).
Context (sys_getenv : string → E → option string).

Notation value_of := (value_of sys_getenv).

Lemma own_names ns (st : envs E) g self :
  env_ok ns st → g_co_sysenv st = Some g → (own_env g self st).*1 = ns.
Proof.
  intros Hok Hg. unfold own_env. destruct (pvEnv st !! self) as [arr|] eqn:Ha; simpl.
  - by eapply en_own.
  - destruct (en_g ns st Hok) as (g' & Hg' & <- & _). congruence.
Qed.

Lemma value_of_eq ns (st : envs E) g self n :
  env_ok ns st → g_co_sysenv st = Some g → n ∈ ns →
  bvalue n (own_env g self st) = Some (value_of self n st).
Proof.
  intros Hok Hg Hn. unfold CoEnv.value_of, getenv, bvalue. rewrite Hg. cbn [mbind option_bind].
  destruct (bsearch_in n (own_env g self st)) as (i & e & -> & _); [by rewrite (own_names ns); [apply Hok|..]|by rewrite (own_names ns)|]. done.
Qed.

Lemma set_own_ok ns (st : envs E) self arr : env_ok ns st → arr.*1 = ns → env_ok ns (set_own self arr st).
Proof.
  intros [Hg Ho Hn] Ha. split; [done| |done]. intros b arr' Hb. simpl in Hb.
  apply lookup_insert_Some in Hb as [[<- <-]|[_ Hb]]; [done|by eapply Ho].
Qed.

Lemma own_env_set self arr b g (st : envs E) :
  own_env g b (set_own self arr st) = if decide (b = self) then arr else own_env g b st.
Proof.
  unfold own_env. simpl. case_decide as Hb; [subst; by rewrite lookup_insert_eq|by rewrite lookup_insert_ne].
Qed.

(** A coroutine that sets one of its variables, or only copies its array. *)
Lemma set_value ns (st : envs E) g self i e n v :
  env_ok ns st → g_co_sysenv st = Some g → own_env g self st !! i = Some e → e.1 = n →
  let st' := set_own self (<[i := (n, v)]> (own_env g self st)) st in
  env_ok ns st' ∧ n ∈ ns ∧ ∀ b m, m ∈ ns →
    value_of b m st' = if decide (b = self ∧ m = n) then v else value_of b m st.
Proof.
  intros Hok Hg Hi Hn st'. pose proof (own_names ns st g self Hok Hg) as Hns.
  assert (Hok' : env_ok ns st') by (apply set_own_ok; [done|]; by rewrite (insert_names i e)).
  assert (Hin : n ∈ ns).
  { rewrite <-Hns, <-Hn. apply list_elem_of_fmap. exists e. split; [done|]. by eapply list_elem_of_lookup_2. }
  split_and!; [done..|]. intros b m Hm. apply (inj Some).
  rewrite <-(value_of_eq ns st' g b m Hok' Hg Hm). unfold st'. rewrite own_env_set. case_decide as Hb.
  - subst b. rewrite (bvalue_insert m n v i e) by (done || rewrite Hns; apply Hok).
    destruct (decide (m = n)) as [->|]; [by rewrite decide_True|]. rewrite decide_False by tauto.
    by rewrite (value_of_eq ns).
  - rewrite decide_False by tauto. by rewrite (value_of_eq ns).
Qed.

Lemma copy_own ns (st : envs E) g self :
  env_ok ns st → g_co_sysenv st = Some g →
  let st' := set_own self (own_env g self st) st in
  env_ok ns st' ∧ ∀ b m, m ∈ ns → value_of b m st' = value_of b m st.
Proof.
  intros Hok Hg st'. assert (Hok' : env_ok ns st') by (apply set_own_ok; [done|by apply own_names]).
  split; [done|]. intros b m Hm. apply (inj Some).
  rewrite <-(value_of_eq ns st' g b m Hok' Hg Hm), <-(value_of_eq ns st g b m Hok Hg Hm).
  unfold st'. rewrite own_env_set. by case_decide as Hb; [subst|].
Qed.

Lemma set_system_value ns (st : envs E) e b m :
  env_ok ns st → m ∈ ns → value_of b m (set_system e st) = value_of b m st ∧ env_ok ns (set_system e st).
Proof.
  intros Hok Hm. destruct (en_g ns st Hok) as (g & Hg & _). split; [|by destruct Hok].
  assert (Hok' : env_ok ns (set_system e st)) by by destruct Hok.
  apply (inj Some). by rewrite <-(value_of_eq ns _ g b m Hok' Hg Hm), <-(value_of_eq ns st g b m Hok Hg Hm).
Qed.

Lemma set_system_ok ns (st : envs E) e : env_ok ns st → env_ok ns (set_system e st).
Proof. by destruct 1. Qed.

Lemma setenv_spec ns (st : envs E) self n v o :
  env_ok ns st →
  let '(r, st') := setenv sys_setenv true (Some self) n v o st in
  env_ok ns st' ∧
  (n ∈ ns → r = 0%Z ∧ system st' = system st ∧ ∀ b m, m ∈ ns →
    value_of b m st' = if decide (b = self ∧ m = n ∧ (o = true ∨ value_of b m st = None)) then v else value_of b m st) ∧
  (n ∉ ns → (r, system st') = sys_setenv n v o (system st) ∧
    ∀ b m, m ∈ ns → value_of b m st' = value_of b m st).
Proof.
  intros Hok. destruct (en_g ns st Hok) as (g & Hg & _). unfold setenv. rewrite Hg.
  pose proof (own_names ns st g self Hok Hg) as Hns.
  destruct (decide (n ∈ ns)) as [Hn|Hn].
  - destruct (bsearch_in n (own_env g self st)) as (i & e & Hs & He & Hi); [rewrite Hns; apply Hok|by rewrite Hns|].
    pose proof (value_of_eq ns st g self n Hok Hg Hn) as Hv. unfold bvalue in Hv. rewrite Hs in *. simpl in Hv. injection Hv as Hv.
    rewrite He. destruct (o || bool_decide (e.2 = None)) eqn:Ho.
    + destruct (set_value ns st g self i e n v Hok Hg Hi He) as (H1 & _ & H2).
      split_and!; [done| |done]. intros _. split_and!; [done..|]. intros b m Hm. rewrite (H2 b m Hm).
      apply orb_true_iff in Ho. rewrite bool_decide_eq_true, Hv in Ho.
      destruct (decide (b = self ∧ m = n)) as [[-> ->]|].
      * by rewrite decide_True.
      * by rewrite decide_False by tauto.
    + apply orb_false_iff in Ho as [-> Ho%bool_decide_eq_false]. rewrite Hv in Ho.
      destruct (copy_own ns st g self Hok Hg) as [H1 H2].
      split_and!; [done| |done]. intros _. split_and!; [done..|]. intros b m Hm. rewrite (H2 b m Hm).
      rewrite decide_False; [done|]. intros (-> & -> & [?|?]); done.
  - rewrite bsearch_not_in by (rewrite Hns; done || apply Hok).
    destruct (copy_own ns st g self Hok Hg) as [H1 H2]. simpl.
    destruct (sys_setenv n v o (system st)) as [r e]. split_and!; [by apply set_system_ok|done|].
    intros _. split; [done|]. intros b m Hm. rewrite <-(H2 b m Hm). by apply (set_system_value ns).
Qed.

Lemma unsetenv_spec ns (st : envs E) self n :
  env_ok ns st →
  let '(r, st') := unsetenv sys_unsetenv true (Some self) n st in
  env_ok ns st' ∧
  (n ∈ ns → r = 0%Z ∧ system st' = system st ∧ ∀ b m, m ∈ ns →
    value_of b m st' = if decide (b = self ∧ m = n) then None else value_of b m st) ∧
  (n ∉ ns → (r, system st') = sys_unsetenv n (system st) ∧
    ∀ b m, m ∈ ns → value_of b m st' = value_of b m st).
Proof.
  intros Hok. destruct (en_g ns st Hok) as (g & Hg & _). unfold unsetenv. rewrite Hg.
  pose proof (own_names ns st g self Hok Hg) as Hns.
  destruct (decide (n ∈ ns)) as [Hn|Hn].
  - destruct (bsearch_in n (own_env g self st)) as (i & e & -> & He & Hi); [rewrite Hns; apply Hok|by rewrite Hns|].
    rewrite He. destruct (set_value ns st g self i e n None Hok Hg Hi He) as (H1 & _ & H2).
    by split_and!.
  - rewrite bsearch_not_in by (rewrite Hns; done || apply Hok).
    destruct (copy_own ns st g self Hok Hg) as [H1 H2]. simpl.
    destruct (sys_unsetenv n (system st)) as [r e]. split_and!; [by apply set_system_ok|done|].
    intros _. split; [done|]. intros b m Hm. rewrite <-(H2 b m Hm). by apply (set_system_value ns).
Qed.

Lemma getenv_spec ns (st : envs E) self n :
  env_ok ns st →
  ∃ v st', getenv sys_getenv true (Some self) n st = Some (v, st') ∧ env_ok ns st' ∧ system st' = system st ∧
    v = (if decide (n ∈ ns) then value_of self n st else sys_getenv n (system st)) ∧
    ∀ b m, m ∈ ns → value_of b m st' = value_of b m st.
Proof.
  intros Hok. destruct (en_g ns st Hok) as (g & Hg & _). unfold getenv. rewrite Hg. cbn [mbind option_bind].
  pose proof (own_names ns st g self Hok Hg) as Hns. destruct (copy_own ns st g self Hok Hg) as [H1 H2].
  destruct (decide (n ∈ ns)) as [Hn|Hn].
  - pose proof (value_of_eq ns st g self n Hok Hg Hn) as Hv. unfold bvalue in Hv.
    destruct (bsearch n (own_env g self st)) as [[i e]|]; [|done]. injection Hv as Hv.
    eexists _, _. by split_and!.
  - rewrite bsearch_not_in by (rewrite Hns; done || apply Hok). eexists _, _. by split_and!.
Qed.

(** ** Properties *)

End spec.

(** ** Concrete variables *)

