(* ===== verification/TimeRound.v ===== *)
(** * The time wheel of the server (TimeRound.h, TimeRoundItem.h)

    The wheel that closes idle connections: a vector of lists of nodes, whose
    index moves on by one slot each second, and the list of the nodes that have
    timed out, which are deleted outside the lock.  A list is given by its nodes
    in the order of their [next] pointers; [None] is a list that was never
    allocated. *)

From Stdlib Require Import Ascii.
From S2P Require Import Prelude Http Io Server.

Local Open Scope Z_scope.

(** ** Data *)

(** A [SP_TimeRoundItemNode] with its [TimeRoundItem]: the identity of the item,
    its index in the wheel and its timeout in seconds. *)
Record node := Node { item : Z; index : Z; time_threod : Z }.

#[global] Instance node_eq_dec : EqDecision node.
Proof. solve_decision. Defined.

Record wheel := Wheel {
  max_time : Z;
  slots : list (option (list node));
  time_out_list : list node;
  cur_time : Z;
  cur_index : Z;
}.

Definition set_index (i : Z) (n : node) : node := Node (item n) i (time_threod n).

Definition set_slots (v : list (option (list node))) (w : wheel) : wheel :=
  Wheel (max_time w) v (time_out_list w) (cur_time w) (cur_index w).
Definition set_time_out_list (l : list node) (w : wheel) : wheel :=
  Wheel (max_time w) (slots w) l (cur_time w) (cur_index w).
Definition set_cur_time (t : Z) (w : wheel) : wheel :=
  Wheel (max_time w) (slots w) (time_out_list w) t (cur_index w).
Definition set_cur_index (i : Z) (w : wheel) : wheel :=
  Wheel (max_time w) (slots w) (time_out_list w) (cur_time w) i.

(** The constructor; [resize] throws for a negative size. *)
Definition TimeRound_new (max : Z) : option wheel :=
  guard (0 ≤ max + 1);;
  Some (Wheel (max + 1) (replicate (Z.to_nat (max + 1)) None) [] 0 0).

(** The nodes of slot [i]; [None] outside the vector. *)
Definition slot (i : Z) (w : wheel) : option (option (list node)) :=
  guard (0 ≤ i);; slots w !! Z.to_nat i.

(** ** Operations *)

Definition AddToTimeOutList (i : Z) (w : wheel) : option wheel :=
  s ← slot i w;
  match s with
  | Some (n :: ns) =>
      Some (set_slots (<[Z.to_nat i := Some []]> (slots w))
        (set_time_out_list (time_out_list w ++ n :: ns) w))
  | _ => Some w
  end.

(** A timeout that is too long becomes the longest one. *)
Definition clamp (w : wheel) (time : Z) : Z :=
  if decide (max_time w ≤ time) then max_time w - 1 else time.

(** The result is the wheel and the nodes that were deleted at once. *)
Definition AddTimeRoundItemNode (o : option node) (w : wheel) : option (wheel * list node) :=
  match o with
  | None => Some (w, [])
  | Some n =>
      if decide (time_threod n ≤ 0) then Some (w, [n])
      else
        let i := Z.rem (cur_index w + clamp w (time_threod n)) (max_time w) in
        s ← slot i w;
        let n := set_index i n in
        Some (set_slots (<[Z.to_nat i := Some (default [] s ++ [n])]> (slots w)) w, [])
  end.

(** A list that was never allocated and a node that is not in its list are
    accesses to [NULL]. *)
Definition UpdateTimeRoundItemNode (n : node) (time : Z) (w : wheel) : option wheel :=
  let i := index n in
  let new_index := Z.rem (cur_index w + clamp w time) (max_time w) in
  if decide (new_index = i) then Some w
  else
    s ← slot i w;
    l ← s;
    guard (n ∈ l);;
    let w := set_slots (<[Z.to_nat i := Some (filter (λ m, m ≠ n) l)]> (slots w)) w in
    s ← slot new_index w;
    l ← s;
    Some (set_slots (<[Z.to_nat new_index := Some (l ++ [set_index new_index n])]> (slots w)) w).

(** One round of the inner loop of [fun]. *)
Definition advance (w : wheel) : option wheel :=
  w ← AddToTimeOutList (cur_index w) w;
  let i := cur_index w + 1 in
  Some (set_cur_index (if decide (max_time w ≤ i) then 0 else i) w).

Fixpoint advance_n (n : nat) (w : wheel) : option wheel :=
  match n with O => Some w | S n => w ← advance w; advance_n n w end.

(** The nodes are deleted in their order. *)
Definition HandleTimeOutList (w : wheel) : wheel * list node :=
  (set_time_out_list [] w, time_out_list w).

(** How far [fun] moves when it wakes at [now]. *)
Definition rounds (now : Z) (w : wheel) : nat :=
  let diff_time := now - cur_time w in
  if decide (1 ≤ diff_time)
  then Z.to_nat (if decide (max_time w ≤ diff_time) then max_time w - 1 else diff_time)
  else 0.

(** One iteration of [fun]: the wheel and the nodes that were deleted. *)
Definition fun_iteration (now : Z) (w : wheel) : option (wheel * list node) :=
  if decide (1 ≤ now - cur_time w) then
    w ← advance_n (rounds now w) (set_cur_time now w);
    Some (HandleTimeOutList w)
  else Some (w, []).

(** What is done to the wheel, by the event loops and by its own thread. *)
Inductive wheel_op := OAdd (n : node) | OFun (now : Z).

Definition wheel_do (op : wheel_op) (w : wheel) : option (wheel * list node) :=
  match op with
  | OAdd n => AddTimeRoundItemNode (Some n) w
  | OFun now => fun_iteration now w
  end.

(** Operations in sequence, the moves of the index and the deleted nodes. *)
Fixpoint wheel_run (ops : list wheel_op) (w : wheel) : option (wheel * nat * list node) :=
  match ops with
  | [] => Some (w, 0%nat, [])
  | op :: ops =>
      let k := match op with OFun now => rounds now w | OAdd _ => 0%nat end in
      '(w, d) ← wheel_do op w;
      '(w, k', d') ← wheel_run ops w;
      Some (w, (k + k')%nat, d ++ d')
  end.

(** The destructors of deleted items: [alive] maps the items that still hold a
    channel to it. *)
Definition expire (alive : gmap Z chan) (nodes : list node) (e : epoll) : epoll :=
  foldl (λ e n, match alive !! item n with Some c => time_out c e | None => e end) e nodes.

(** ** Well-formed wheels *)

(** A node is in the slot of its index. *)
Record wheel_mid (w : wheel) : Prop := {
  wm_len : Z.of_nat (length (slots w)) = max_time w;
  wm_cur : 0 ≤ cur_index w < max_time w;
  wm_index : ∀ j l n, slot j w = Some (Some l) → n ∈ l → index n = j;
}.

(** Between the operations nothing is left in the list of what timed out. *)
Definition wheel_ok (w : wheel) : Prop := wheel_mid w ∧ time_out_list w = [].

(** The node [n] waits in slot [index n], which is reached after [r] moves. *)
Definition waits (n : node) (r : Z) (w : wheel) : Prop :=
  (∃ l, slot (index n) w = Some (Some l) ∧ n ∈ l) ∧ 0 ≤ index n < max_time w ∧
  r = (index n - cur_index w) mod max_time w.

(** The nodes of the wheel, those that have timed out included. *)
Definition held (w : wheel) : list node := concat (default [] <$> slots w) ++ time_out_list w.

(** The nodes that are put in. *)
Definition added (ops : list wheel_op) : list node :=
  omap (λ op, match op with OAdd n => Some n | OFun _ => None end) ops.

(** How many of the nodes are of item [x]. *)
Definition times (x : Z) (ns : list node) : nat := length (filter (λ m, item m = x) ns).

(** A concrete wheel. *)
Definition demo_wheel : wheel := default (Wheel 0 [] [] 0 0) (TimeRound_new 15).

(** ** Slots *)

Lemma slot_in i w : 0 ≤ i < Z.of_nat (length (slots w)) → is_Some (slot i w).
Proof.
  intros Hi. unfold slot. rewrite option_guard_True by lia. simpl. apply lookup_lt_is_Some. lia.
Qed.

Lemma slot_set i j s w :
  0 ≤ i < Z.of_nat (length (slots w)) →
  slot j (set_slots (<[Z.to_nat i := s]> (slots w)) w) = if decide (j = i) then Some s else slot j w.
Proof.
  intros Hi. unfold slot. case_guard as Hj; simpl; [|by rewrite decide_False by lia].
  case_decide as He.
  - subst. apply list_lookup_insert_eq. lia.
  - apply list_lookup_insert_ne. lia.
Qed.

(** A slot may get other nodes of its index; the rest stays. *)
Lemma set_slot_mid i l w :
  wheel_mid w → 0 ≤ i < max_time w → (∀ n, n ∈ l → index n = i) →
  wheel_mid (set_slots (<[Z.to_nat i := Some l]> (slots w)) w).
Proof.
  intros [Hlen Hc Hi] Hr Hl. split; [simpl; by rewrite length_insert|done|].
  intros j l' n Hs Hn. rewrite slot_set in Hs by lia. case_decide; simplify_eq; [by apply Hl|by eapply Hi].
Qed.

Lemma set_slot_waits i l n r w :
  0 ≤ i < Z.of_nat (length (slots w)) → waits n r w → (index n = i → n ∈ l) →
  waits n r (set_slots (<[Z.to_nat i := Some l]> (slots w)) w).
Proof.
  intros Hr ((l' & Hs & Hn) & Hi & Hr') Hl. split; [|done]. rewrite slot_set by lia.
  case_decide; [exists l; auto|by exists l'].
Qed.

(** ** Moving the index *)

Lemma next_index w :
  0 ≤ cur_index w < max_time w →
  (if decide (max_time w ≤ cur_index w + 1) then 0 else cur_index w + 1) = (cur_index w + 1) mod max_time w.
Proof.
  intros Hc. case_decide; [|by rewrite Z.mod_small by lia].
  replace (cur_index w + 1) with (max_time w) by lia. by rewrite Z.mod_same by lia.
Qed.

Lemma mod_step a b m : 0 < m → 0 < (a - b) mod m → (a - (b + 1) mod m) mod m = (a - b) mod m - 1.
Proof.
  intros Hm Hp. rewrite Zminus_mod_idemp_r. replace (a - (b + 1)) with ((a - b) - 1) by lia.
  rewrite <-Zminus_mod_idemp_l. pose proof (Z.mod_pos_bound (a - b) m Hm). apply Z.mod_small. lia.
Qed.

Lemma advance_spec w :
  wheel_mid w →
  ∃ w' l, advance w = Some w' ∧ wheel_mid w' ∧ max_time w' = max_time w ∧ cur_time w' = cur_time w ∧
    time_out_list w' = time_out_list w ++ l ∧
    ∀ n r, waits n r w → if decide (r = 0) then n ∈ l else waits n (r - 1) w' ∧ n ∉ l.
Proof.
  intros Hm. pose proof Hm as [Hl Hc Hidx]. unfold advance, AddToTimeOutList.
  destruct (slot_in (cur_index w) w) as [s Hs]; [lia|]. rewrite Hs. cbn [mbind option_bind].
  set (next := λ w : wheel, set_cur_index (if decide (max_time w ≤ cur_index w + 1) then 0 else cur_index w + 1) w).
  assert (Hnext : ∀ w1, wheel_mid w1 → max_time w1 = max_time w → cur_index w1 = cur_index w →
    wheel_mid (next w1) ∧ ∀ n r, r ≠ 0 → waits n r w1 → waits n (r - 1) (next w1)).
  { intros w1 [Hl1 Hc1 Hi1] Hmt Hci. pose proof (Z.mod_pos_bound (cur_index w1 + 1) (max_time w1)). split.
    - split; simpl; [done|rewrite next_index by done; lia|exact Hi1].
    - intros n r Hr (Hn & Hi & ->). split; [exact Hn|]. split; [done|]. simpl. rewrite next_index by done.
      rewrite mod_step; [done|lia|]. pose proof (Z.mod_pos_bound (index n - cur_index w1) (max_time w1)). lia. }
  assert (Hat : ∀ n r, waits n r w → r = 0 ↔ index n = cur_index w).
  { intros n r (_ & Hi & ->). split; [|intros ->; rewrite Z.sub_diag; apply Z.mod_0_l; lia].
    intros Hz. apply Z.mod_divide in Hz as [q Hq]; [|lia]. assert (q = 0) by nia. lia. }
  assert (Hnone : (s = None ∨ s = Some []) → ∀ n r, waits n r w → r ≠ 0).
  { intros Hsn n r Hw Hz. apply (Hat n r Hw) in Hz. destruct Hw as ((l & Hsl & Hn) & _).
    rewrite Hz, Hs in Hsl. destruct Hsn as [->| ->]; simplify_eq; by apply not_elem_of_nil in Hn. }
  destruct s as [[|m ms]|].
  2: { set (w1 := set_slots (<[Z.to_nat (cur_index w) := Some []]> (slots w)) w).
    assert (H1 : wheel_mid w1) by (apply set_slot_mid; [done|lia|]; intros n Hn; by apply not_elem_of_nil in Hn).
    destruct (Hnext (set_time_out_list (time_out_list w ++ m :: ms) w1)) as [H2 H3]; [by destruct H1|done|done|].
    eexists _, (m :: ms). split; [done|]. split; [exact H2|]. split_and!; [done..|].
    intros n r Hw. case_decide as Hr.
    - destruct (Hat n r Hw) as [Hz _]. specialize (Hz Hr). destruct Hw as ((l & Hsl & Hn) & _).
      rewrite Hz, Hs in Hsl. by simplify_eq.
    - assert (Hne : index n ≠ cur_index w) by (intros Hz; apply Hr; by apply (Hat n r Hw)).
      split; [|intros Hn; apply Hne; by apply (Hidx _ _ _ Hs)].
      apply H3; [done|]. assert (Hw1 : waits n r w1) by (apply set_slot_waits; [lia|done|done]). exact Hw1. }
  all: destruct (Hnext w) as [H2 H3]; [done..|]; eexists _, []; split; [done|]; split; [exact H2|];
    split_and!; [done..|by rewrite app_nil_r|]; intros n r Hw;
    rewrite decide_False by (eapply Hnone; eauto); split; [|apply not_elem_of_nil];
    apply H3; [eapply Hnone; eauto|done].
Qed.

Lemma advance_n_spec k : ∀ w,
  wheel_mid w →
  ∃ w' l, advance_n k w = Some w' ∧ wheel_mid w' ∧ max_time w' = max_time w ∧ cur_time w' = cur_time w ∧
    time_out_list w' = time_out_list w ++ l ∧
    ∀ n r, waits n r w → if decide (r < Z.of_nat k) then n ∈ l else waits n (r - Z.of_nat k) w' ∧ n ∉ l.
Proof.
  induction k as [|k IH]; intros w Hm; cbn [advance_n].
  { exists w, []. split_and!; [done..|by rewrite app_nil_r|]. intros n r Hw. pose proof Hw as (_ & Hi & Hr).
    pose proof (Z.mod_pos_bound (index n - cur_index w) (max_time w)).
    rewrite decide_False by lia. rewrite Z.sub_0_r. split; [done|apply not_elem_of_nil]. }
  destruct (advance_spec w Hm) as (w1 & l1 & -> & Hm1 & Hmt1 & Hct1 & Ht1 & Hw1). cbn [mbind option_bind].
  destruct (IH w1 Hm1) as (w2 & l2 & -> & Hm2 & Hmt2 & Hct2 & Ht2 & Hw2).
  exists w2, (l1 ++ l2). split_and!; [done|done|congruence|congruence|by rewrite Ht2, Ht1, <-app_assoc|].
  intros n r Hw. pose proof (Hw1 n r Hw) as H1. pose proof Hw as (_ & Hi & Hr).
  pose proof (Z.mod_pos_bound (index n - cur_index w) (max_time w)).
  revert H1. destruct (decide (r = 0)) as [->|Hr0]; intros H1.
  - rewrite decide_True by lia. set_solver.
  - destruct H1 as [H1 Hn1]. specialize (Hw2 n (r - 1) H1). revert Hw2.
    destruct (decide (r - 1 < Z.of_nat k)); intros Hw2.
    + rewrite decide_True by lia. set_solver.
    + rewrite decide_False by lia. destruct Hw2 as [Hw2 Hn2].
      replace (r - Z.of_nat (S k)) with (r - 1 - Z.of_nat k) by lia. split; [done|set_solver].
Qed.

(** ** The operations *)

Lemma fun_spec now w :
  wheel_ok w →
  ∃ w' d, fun_iteration now w = Some (w', d) ∧ wheel_ok w' ∧ max_time w' = max_time w ∧
    ∀ n r, waits n r w →
      if decide (r < Z.of_nat (rounds now w)) then n ∈ d else waits n (r - Z.of_nat (rounds now w)) w' ∧ n ∉ d.
Proof.
  intros [Hm Ho]. unfold fun_iteration. case_decide as Hd.
  - destruct (advance_n_spec (rounds now w) (set_cur_time now w)) as (w' & l & -> & Hm' & Hmt & _ & Ht & Hw);
      [by destruct Hm|].
    simpl in Ht. rewrite Ho in Ht. simpl in Ht. eexists _, _. split; [done|]. rewrite Ht.
    split; [split; [by destruct Hm'|done]|]. split; [done|]. intros n r Hn. exact (Hw n r Hn).
  - exists w, []. split; [done|]. split; [done|]. split; [done|]. intros n r Hn.
    assert (rounds now w = 0%nat) as -> by (unfold rounds; by rewrite decide_False).
    pose proof Hn as (_ & Hi & Hr). pose proof (Z.mod_pos_bound (index n - cur_index w) (max_time w)).
    rewrite decide_False by lia. rewrite Z.sub_0_r. split; [done|apply not_elem_of_nil].
Qed.

Lemma clamp_range t w : wheel_mid w → 0 < t → 0 ≤ clamp w t < max_time w.
Proof. intros [_ Hc _] Ht. unfold clamp. case_decide; lia. Qed.

Lemma add_spec n w :
  wheel_ok w →
  ∃ w' d, AddTimeRoundItemNode (Some n) w = Some (w', d) ∧ wheel_ok w' ∧ max_time w' = max_time w ∧
    cur_time w' = cur_time w ∧
    (∀ m r, waits m r w → waits m r w') ∧
    (d = [] ∧ 0 < time_threod n ∧
       (∃ i, waits (set_index i n) (clamp w (time_threod n)) w') ∨ d = [n] ∧ time_threod n ≤ 0).
Proof.
  intros [Hm Ho]. pose proof Hm as [Hl Hc Hi]. unfold AddTimeRoundItemNode. case_decide as Ht.
  { exists w, [n]. split_and!; try done. by right. }
  pose proof (clamp_range (time_threod n) w Hm) as Hcl.
  rewrite Z.rem_mod_nonneg by lia. set (i := (cur_index w + clamp w (time_threod n)) mod max_time w).
  assert (Hir : 0 ≤ i < max_time w) by (apply Z.mod_pos_bound; lia).
  destruct (slot_in i w) as [s Hs]; [lia|]. rewrite Hs. cbn [mbind option_bind].
  eexists _, []. split; [done|]. split; [|split; [done|split; [done|split]]].
  - split; [|done]. apply set_slot_mid; [done|done|]. intros m [Hm'|Hm']%elem_of_app.
    + destruct s as [l|]; [by apply (Hi i l)|by apply not_elem_of_nil in Hm'].
    + by apply list_elem_of_singleton in Hm' as ->.
  - intros m r Hw. apply set_slot_waits; [lia|done|]. intros He. destruct Hw as ((l & Hsl & Hn) & _).
    rewrite He, Hs in Hsl. simplify_eq. simpl. set_solver.
  - left. split; [done|]. split; [lia|]. exists i. split.
    + exists (default [] s ++ [set_index i n]). split; [|set_solver]. simpl index. rewrite slot_set by lia.
      by rewrite decide_True.
    + split; [done|]. simpl. unfold i. rewrite Zminus_mod_idemp_l.
      replace (cur_index w + clamp w (time_threod n) - cur_index w) with (clamp w (time_threod n)) by lia.
      by rewrite Z.mod_small by lia.
Qed.

Lemma wheel_run_total ops w : wheel_ok w → ∃ w' k d, wheel_run ops w = Some (w', k, d) ∧ wheel_ok w'.
Proof.
  revert w. induction ops as [|op ops IH]; intros w Hok; cbn [wheel_run]; [by eexists _, _, _|].
  assert (∃ w1 d1, wheel_do op w = Some (w1, d1) ∧ wheel_ok w1) as (w1 & d1 & -> & Hok1).
  { destruct op as [n|now]; simpl.
    - destruct (add_spec n w Hok) as (w1 & d1 & ? & ? & _). by eexists _, _.
    - destruct (fun_spec now w Hok) as (w1 & d1 & ? & ? & _). by eexists _, _. }
  destruct (IH w1 Hok1) as (w' & k' & d' & Heq & Hok'). cbn [mbind option_bind]. rewrite Heq. by eexists _, _, _.
Qed.

Lemma wheel_run_waits n ops : ∀ w r,
  wheel_ok w → waits n r w → 0 < time_threod n →
  ∃ w' k d, wheel_run ops w = Some (w', k, d) ∧ wheel_ok w' ∧
    (if decide (r < Z.of_nat k) then n ∈ d else waits n (r - Z.of_nat k) w' ∧ n ∉ d).
Proof.
  induction ops as [|op ops IH]; intros w r Hok Hw Htn; cbn [wheel_run].
  { eexists _, _, _. split; [done|]. split; [done|]. pose proof Hw as (_ & Hi & Hr).
    pose proof (Z.mod_pos_bound (index n - cur_index w) (max_time w)).
    rewrite decide_False by lia. rewrite Z.sub_0_r. split; [done|apply not_elem_of_nil]. }
  set (k := match op with OFun now => rounds now w | OAdd _ => 0%nat end).
  assert (∃ w1 d1, wheel_do op w = Some (w1, d1) ∧ wheel_ok w1 ∧
    (if decide (r < Z.of_nat k) then n ∈ d1 else waits n (r - Z.of_nat k) w1 ∧ n ∉ d1)) as (w1 & d1 & -> & Hok1 & H1).
  { destruct op as [m|now]; simpl.
    - destruct (add_spec m w Hok) as (w1 & d1 & Heq & Hok1 & _ & _ & Hkeep & Hd). exists w1, d1. split; [done|].
      split; [done|]. pose proof Hw as (_ & Hi & Hr).
      pose proof (Z.mod_pos_bound (index n - cur_index w) (max_time w)). unfold k.
      rewrite decide_False by lia. rewrite Z.sub_0_r. split; [by apply Hkeep|].
      destruct Hd as [[-> _]|[-> Hm]]; [apply not_elem_of_nil|]. intros ->%list_elem_of_singleton. lia.
    - destruct (fun_spec now w Hok) as (w1 & d1 & Heq & Hok1 & _ & Hd). exists w1, d1. split; [done|].
      split; [done|]. exact (Hd n r Hw). }
  cbn [mbind option_bind]. case_decide.
  - destruct (wheel_run_total ops w1 Hok1) as (w' & k' & d' & -> & Hok').
    eexists _, _, _. split; [done|]. split; [done|]. rewrite decide_True by lia. set_solver.
  - destruct H1 as [H1 Hn1]. destruct (IH w1 _ Hok1 H1 Htn) as (w' & k' & d' & -> & Hok' & H2).
    eexists _, _, _. split; [done|]. split; [done|]. case_decide.
    + rewrite decide_True by lia. set_solver.
    + rewrite decide_False by lia. destruct H2 as [H2 Hn2].
      replace (r - Z.of_nat (k + k')) with (r - Z.of_nat k - Z.of_nat k') by lia. split; [done|set_solver].
Qed.

(** ** No node is lost or doubled *)

Lemma concat_insert (l : list (option (list node))) i o y :
  l !! i = Some o →
  default [] o ++ concat (default [] <$> <[i := Some y]> l) ≡ₚ y ++ concat (default [] <$> l).
Proof.
  revert i. induction l as [|z l IH]; intros [|i] Hi; simplify_eq/=; [solve_Permutation|].
  specialize (IH i Hi). rewrite (Permutation_app_comm (default [] z)), app_assoc, IH. solve_Permutation.
Qed.

Lemma slot_lookup i w s : slot i w = Some s → slots w !! Z.to_nat i = Some s.
Proof. unfold slot. by case_guard. Qed.

Lemma AddToTimeOutList_held i w w' : AddToTimeOutList i w = Some w' → held w' ≡ₚ held w.
Proof.
  unfold AddToTimeOutList. destruct (slot i w) as [s|] eqn:Hs; [|done]. cbn [mbind option_bind].
  apply slot_lookup in Hs. destruct s as [[|n ns]|]; intros [= <-]; [done| |done].
  unfold held. cbn [set_slots set_time_out_list slots time_out_list].
  pose proof (concat_insert _ _ _ [] Hs) as Hc. cbn [default app] in Hc. rewrite <-Hc. simpl. solve_Permutation.
Qed.

Lemma advance_held w w' : advance w = Some w' → held w' ≡ₚ held w.
Proof.
  unfold advance. destruct (AddToTimeOutList (cur_index w) w) as [w1|] eqn:E; [|done]. intros [= <-].
  by apply AddToTimeOutList_held in E.
Qed.

Lemma advance_n_held k : ∀ w w', advance_n k w = Some w' → held w' ≡ₚ held w.
Proof.
  induction k as [|k IH]; intros w w'; cbn [advance_n]; [by intros [= <-]|].
  destruct (advance w) as [w1|] eqn:E; [|done]. intros H%IH. by rewrite H, (advance_held _ _ E).
Qed.

Lemma fun_held now w w' d : fun_iteration now w = Some (w', d) → d ++ held w' ≡ₚ held w.
Proof.
  unfold fun_iteration. case_decide; [|by intros [= <- <-]].
  destruct (advance_n _ _) as [w1|] eqn:E; [|done]. intros [= <- <-].
  apply advance_n_held in E. rewrite <-(E : _ ≡ₚ held w). unfold held. simpl. rewrite app_nil_r. solve_Permutation.
Qed.

Lemma add_held n w w' d :
  AddTimeRoundItemNode (Some n) w = Some (w', d) → item <$> (d ++ held w') ≡ₚ item n :: (item <$> held w).
Proof.
  unfold AddTimeRoundItemNode. case_decide; [by intros [= <- <-]|].
  destruct (slot _ w) as [s|] eqn:Hs; [|done]. cbn [mbind option_bind]. intros [= <- <-]. apply slot_lookup in Hs.
  unfold held. cbn [set_slots slots time_out_list app]. set (i := Z.rem _ _) in *.
  pose proof (concat_insert _ _ _ (default [] s ++ [set_index i n]) Hs) as Hc.
  rewrite <-app_assoc in Hc. apply Permutation_app_inv_l in Hc. rewrite Hc. done.
Qed.

Lemma wheel_do_held op w w' d :
  wheel_do op w = Some (w', d) → item <$> (d ++ held w') ≡ₚ (item <$> held w) ++ (item <$> added [op]).
Proof.
  destruct op as [n|now]; cbn [wheel_do].
  - intros Hd%add_held. rewrite Hd. simpl. solve_Permutation.
  - intros Hd%fun_held. rewrite Hd. simpl. by rewrite app_nil_r.
Qed.

Lemma wheel_run_held ops : ∀ w w' k d,
  wheel_run ops w = Some (w', k, d) → item <$> (d ++ held w') ≡ₚ (item <$> held w) ++ (item <$> added ops).
Proof.
  induction ops as [|op ops IH]; intros w w' k d; cbn [wheel_run]; [intros [= <- <- <-]; by rewrite app_nil_r|].
  destruct (wheel_do op w) as [[w1 d1]|] eqn:E; [|done]. cbn [mbind option_bind].
  destruct (wheel_run ops w1) as [[[w2 k2] d2]|] eqn:E2; [|done]. cbn [mbind option_bind]. intros [= <- <- <-].
  apply wheel_do_held in E. apply IH in E2. rewrite <-app_assoc, fmap_app, E2.
  assert (Ha : added (op :: ops) = added [op] ++ added ops) by (by destruct op).
  rewrite Ha, fmap_app, !app_assoc, <-E, fmap_app. solve_Permutation.
Qed.

Lemma times_app x l k : times x (l ++ k) = (times x l + times x k)%nat.
Proof. unfold times. by rewrite filter_app, length_app. Qed.

Lemma times_perm x l k : item <$> l ≡ₚ item <$> k → times x l = times x k.
Proof.
  assert (Hf : ∀ l, times x l = length (filter (λ y, y = x) (item <$> l))).
  { induction l0 as [|m l0 IH]; [done|]. unfold times in *. rewrite fmap_cons, !filter_cons.
    case_decide; simpl; by rewrite IH. }
  intros Hp. by rewrite !Hf, Hp.
Qed.

Lemma times_pos n l : n ∈ l → (0 < times (item n) l)%nat.
Proof.
  intros Hn. unfold times. assert (n ∈ filter (λ m, item m = item n) l) as Hin by (by apply list_elem_of_filter).
  destruct (filter _ l); [by apply not_elem_of_nil in Hin|simpl; lia].
Qed.

Lemma times_none x l : x ∉ item <$> l → times x l = 0%nat.
Proof.
  intros Hx. unfold times. destruct (filter (λ m, item m = x) l) as [|m ms] eqn:E; [done|].
  assert (m ∈ filter (λ m, item m = x) l) as [Hm Hin]%list_elem_of_filter by (rewrite E; left).
  destruct Hx. apply list_elem_of_fmap. by exists m.
Qed.

Lemma waits_held n r w : waits n r w → n ∈ held w.
Proof.
  intros ((l & Hs%slot_lookup & Hn) & _). apply elem_of_app. left. apply list_elem_of_In, in_concat.
  exists l. split; [|by apply list_elem_of_In]. apply list_elem_of_In, list_elem_of_fmap. exists (Some l).
  split; [done|]. by eapply list_elem_of_lookup_2.
Qed.

(** ** Connections that time out *)

Lemma time_out_gone c e :
  epoll_ok e → event_channel e ≠ Some (fd c) →
  epoll_ok (time_out c e) ∧ same_but (fd c) e (time_out c e) ∧ gone (fd c) (time_out c e).
Proof.
  intros Hok Hev. unfold time_out. set (c' := SeparateTimer c).
  assert (Hs : same_but (fd c) e (release c' (Epoll_Del (fd c) (store c' e)).2)).
  { eapply same_but_trans; [apply (store_same_but c')|].
    eapply same_but_trans; [apply Epoll_Del_same_but|]. apply (release_same_but c'). }
  assert (Hg : gone (fd c) (release c' (Epoll_Del (fd c) (store c' e)).2)).
  { assert (Hd : let e' := (Epoll_Del (fd c) (store c' e)).2 in
      Mmap e' !! fd c = None ∧ kernel e' !! fd c = None ∧ event_channel e' = event_channel e).
    { unfold Epoll_Del. simpl. rewrite lookup_alter_eq. destruct (Mmap e !! fd c) eqn:E; simpl.
      - by rewrite !lookup_delete_eq.
      - rewrite lookup_alter_eq, E. split_and!; [done| |done].
        apply eq_None_not_Some. rewrite (eo_dom e Hok), E. by intros []. }
    destruct Hd as (E1 & E2 & E3). unfold release. simpl in *. rewrite E1, decide_False by (by rewrite E3).
    split_and!; simpl; [done|apply lookup_delete_eq|set_solver]. }
  split_and!; [|done..]. eapply same_but_ok; [done..|]. by apply gone_ok.
Qed.

Lemma gone_elsewhere f g e e' : same_but f e e' → f ≠ g → gone g e → gone g e'.
Proof.
  intros [_ Hs] Hg (H1 & H2 & H3). destruct (Hs g) as (E1 & E2 & E3); [congruence|].
  unfold gone. by rewrite E1, E2, E3.
Qed.

Lemma expire_spec alive d : ∀ e,
  epoll_ok e → (∀ i c, alive !! i = Some c → event_channel e ≠ Some (fd c)) →
  epoll_ok (expire alive d e) ∧
  (∀ g, gone g e → gone g (expire alive d e)) ∧
  (∀ n c, n ∈ d → alive !! item n = Some c → gone (fd c) (expire alive d e)) ∧
  (∀ g, (∀ n c, n ∈ d → alive !! item n = Some c → fd c ≠ g) →
    Mmap (expire alive d e) !! g = Mmap e !! g ∧ kernel (expire alive d e) !! g = kernel e !! g).
Proof.
  induction d as [|n d IH]; intros e Hok Hev; simpl.
  { split_and!; [done|done| |done]. intros m c Hm. by apply not_elem_of_nil in Hm. }
  destruct (alive !! item n) as [c|] eqn:Ha.
  - destruct (time_out_gone c e Hok) as (Hok1 & Hs1 & Hg1); [by eapply Hev|].
    destruct (IH (time_out c e) Hok1) as (H1 & H2 & H3 & H4).
    { intros i c' Hc'. rewrite (proj1 Hs1). by eapply Hev. }
    split_and!; [done| | |].
    + intros g Hg. apply H2. destruct (decide (fd c = g)) as [<-|Hne]; [done|].
      by eapply gone_elsewhere.
    + intros m c' [->|Hm]%elem_of_cons Hc'; [|by eapply H3]. apply H2. rewrite Ha in Hc'. by simplify_eq.
    + intros g Hg. assert (Hne : fd c ≠ g) by (eapply Hg; [left|done]).
      destruct (H4 g) as [-> ->]; [intros m c' Hm; apply Hg; by right|].
      destruct (proj2 Hs1 g) as (-> & -> & _); [congruence|done].
  - destruct (IH e Hok Hev) as (H1 & H2 & H3 & H4). split_and!; [done..| |].
    + intros m c' [->|Hm]%elem_of_cons Hc'; [congruence|by eapply H3].
    + intros g Hg. apply H4. intros m c' Hm. apply Hg. by right.
Qed.

(** ** Properties *)

(** C36.  A node that is put into the wheel with a positive timeout of [t]
    seconds, or of the longest the wheel has, is deleted by the move number
    [t + 1] of the index and not before, whatever else is put in, however the
    thread of the wheel wakes; no operation ever leaves the vector.  The nodes that
    were deleted and those that are still held are together exactly those that
    were put in, none twice and none lost; so an item that is put in once is
    deleted exactly once, and the wheel holds it just as long.  When a
    deleted item still holds its channel the connection is taken off the
    registry and closed, and no others are. *)
Theorem idle_connection_closed (w : wheel) (n : node) :
  wheel_ok w → 0 < time_threod n →
  let t := clamp w (time_threod n) in
  ∃ w1 n1, AddTimeRoundItemNode (Some n) w = Some (w1, []) ∧ item n1 = item n ∧ wheel_ok w1 ∧
    ∀ ops, ∃ w' k d, wheel_run ops w1 = Some (w', k, d) ∧ wheel_ok w' ∧
      (Z.of_nat k ≤ t → n1 ∉ d) ∧ (t < Z.of_nat k → n1 ∈ d) ∧
      item <$> (d ++ held w') ≡ₚ item n :: (item <$> held w) ++ (item <$> added ops) ∧
      (item n ∉ item <$> held w → item n ∉ item <$> added ops →
        times (item n) d = (if decide (t < Z.of_nat k) then 1%nat else 0%nat) ∧
        times (item n) (held w') = (if decide (t < Z.of_nat k) then 0%nat else 1%nat)) ∧
      ∀ alive e, epoll_ok e → (∀ i c, alive !! i = Some c → event_channel e ≠ Some (fd c)) →
        epoll_ok (expire alive d e) ∧
        (∀ c, t < Z.of_nat k → alive !! item n = Some c → gone (fd c) (expire alive d e)) ∧
        (∀ g, (∀ m c, m ∈ d → alive !! item m = Some c → fd c ≠ g) →
          Mmap (expire alive d e) !! g = Mmap e !! g ∧ kernel (expire alive d e) !! g = kernel e !! g).
Proof.
  intros Hok Ht t. destruct (add_spec n w Hok) as (w1 & d1 & Heq & Hok1 & _ & _ & _ & Hd).
  destruct Hd as [(-> & _ & i & Hw)|[_ ?]]; [|lia].
  exists w1, (set_index i n). split_and!; [done..|]. intros ops.
  destruct (wheel_run_waits (set_index i n) ops w1 t Hok1 Hw Ht) as (w' & k & d & Hrun & Hok' & Hk).
  assert (Hheld : item <$> (d ++ held w') ≡ₚ item n :: (item <$> held w) ++ (item <$> added ops)).
  { rewrite (wheel_run_held _ _ _ _ _ Hrun). by rewrite (add_held _ _ _ _ Heq : item <$> held w1 ≡ₚ _). }
  exists w', k, d. split_and!; [done|done| | |done| |].
  - intros Hle. rewrite decide_False in Hk by lia. apply Hk.
  - intros Hlt. by rewrite decide_True in Hk by lia.
  - intros Hn1 Hn2. pose proof (times_perm (item n) (d ++ held w') (n :: held w ++ added ops)) as Hone.
    rewrite fmap_cons, (fmap_app _ (held w)) in Hone. specialize (Hone Hheld).
    change (n :: held w ++ added ops) with ([n] ++ held w ++ added ops) in Hone.
    rewrite !times_app, (times_none _ (held w)), (times_none _ (added ops)) in Hone by done.
    unfold times at 3 in Hone. rewrite filter_cons, decide_True in Hone by done. simpl in Hone.
    case_decide; [apply times_pos in Hk|destruct Hk as [Hk%waits_held%times_pos _]]; simpl in Hk; lia.
  - intros alive e He Hev. destruct (expire_spec alive d e He Hev) as (H1 & _ & H3 & H4).
    split_and!; [done| |done]. intros c Hlt Hc. rewrite decide_True in Hk by lia. by apply (H3 _ c Hk).
Qed.

(** ** A concrete wheel *)

Lemma demo_wheel_ok : wheel_ok demo_wheel.
Proof.
  split; [|done]. split; [done|by split|]. intros j l n. unfold slot. case_guard; simpl; [|done].
  intros Hs. exfalso. assert (Hr : replicate 16 None !! Z.to_nat j = Some (Some l)) by exact Hs.
  by apply lookup_replicate in Hr as [? _].
Qed.

Lemma idle_connection_closed_witness :
  ∃ w1 n1 w' d, AddTimeRoundItemNode (Some (Node 1 0 5)) demo_wheel = Some (w1, []) ∧
    wheel_run [OFun 3; OAdd (Node 2 0 9); OFun 6] w1 = Some (w', 6%nat, d) ∧ n1 ∈ d ∧
    times 1 d = 1%nat ∧ times 1 (held w') = 0%nat ∧
    gone 7 (expire {[1 := demo_chan]} d (ep (demo_loop true))).
Proof.
  destruct (idle_connection_closed demo_wheel (Node 1 0 5) demo_wheel_ok) as (w1 & n1 & H1 & _ & _ & H2); [reflexivity|].
  destruct (H2 [OFun 3; OAdd (Node 2 0 9); OFun 6]) as (w' & k & d & H3 & _ & _ & H4 & _ & H7 & H5).
  assert (k = 6%nat) as ->.
  { vm_compute in H1. injection H1 as <-. vm_compute in H3. injection H3 as _ <- _. reflexivity. }
  destruct H7 as [H7 H8]; [decides|decides|].
  exists w1, n1, w', d. split; [exact H1|]. split; [exact H3|]. split; [apply H4; reflexivity|].
  split; [exact H7|]. split; [exact H8|].
  destruct (H5 {[1 := demo_chan]} (ep (demo_loop true)) (demo_loop_ok true)) as (_ & H6 & _).
  - intros i c Hc. apply lookup_singleton_Some in Hc as [_ <-]. discriminate.
  - apply (H6 demo_chan); [reflexivity|apply lookup_singleton_eq].
Defined.
