(* ===== verification/LogFile.v ===== *)
(** * The log (Log.h, LogFile.h, LogFile.cpp)

    A message is put together in a buffer of 2048 bytes ([LogMessage]) and
    handed to the [LogFile]: the threads of the program put messages into one
    queue, a thread swaps it with a second queue when that is empty, and a third
    thread writes the second queue to the file.  The steps of the threads are
    those between two operations on a mutex or a condition variable. *)

From Stdlib Require Import Ascii.
From S2P Require Import Prelude.

Local Open Scope cint_scope.

(** ** Messages *)

Notation msg := (list ascii).

(** [LogMessage]: [length] and the bytes before [cur], which a zero follows. *)
Record LogMessage := Message { lm_length : Z; lm_text : msg }.

Definition max_length : Z := 2048.

Definition LogMessage_new : LogMessage := Message 0 [].

(** [Append] of [buff], whose length becomes an [int]; [None] is a write outside
    the buffer or an overflow of the sum of two [int]s. *)
Definition Append (buff : option msg) (lm : LogMessage) : option LogMessage :=
  match buff with
  | None => Some lm
  | Some b =>
      let _length := s32 (Z.of_nat (length b)) in
      guard (- 2 ^ 31 ≤ _length + lm_length lm < 2 ^ 31)%Z;;
      if decide (max_length ≤ _length + lm_length lm)%Z then Some lm
      else
        let text := lm_text lm ++ take (Z.to_nat _length) b in
        guard (Z.of_nat (length text) < max_length)%Z;;
        Some (Message (_length + lm_length lm) text)
  end.

(** The life of a [Log]: the pieces that are appended. *)
Fixpoint append_all (pieces : list (option msg)) (lm : LogMessage) : option LogMessage :=
  match pieces with
  | [] => Some lm
  | b :: pieces => lm ← Append b lm; append_all pieces lm
  end.

(** What is left of the pieces when the message has [n] bytes: each one that still
    fits, whole. *)
Fixpoint kept (n : Z) (pieces : list msg) : list msg :=
  match pieces with
  | [] => []
  | b :: pieces =>
      let n' := (n + Z.of_nat (length b))%Z in
      if decide (n' < 2048)%Z then b :: kept n' pieces else kept n pieces
  end.

(** What [strlen] sees of a message. *)
Fixpoint c_str (m : msg) : msg :=
  match m with
  | [] => []
  | c :: m => if decide (c = "000"%char) then [] else c :: c_str m
  end.

(** ** Threads

    The program counters are named after the operation that comes next. *)

Inductive thread := Writer | Swapper | Producer (i : nat).

#[global] Instance thread_eq_dec : EqDecision thread.
Proof. solve_decision. Defined.

(** A message with the number of the thread that has put it. *)
Notation put := (nat * msg)%type.

(** [write_file]: [W_Write] holds the message that was popped. *)
Inductive writer_pc :=
  | W_Lock | W_Test | W_Broadcast | W_CondWait | W_Wait | W_Woken | W_Drain | W_Write (buff : put).

(** [swap]: [S_Wait_get] is the wait with [get_Mutex], [S_Wait_put] the one with
    [put_Mutex]. *)
Inductive swapper_pc :=
  | S_Lock | S_Test | S_Wait_get | S_Woken_get | S_LockPut | S_TestPut | S_Wait_put | S_Woken_put
  | S_Swap | S_Broadcast | S_UnlockGet | S_UnlockPut.

(** [put_write_string]. *)
Inductive producer_pc := P_Idle | P_Push (buff : msg) | P_Broadcast | P_Unlock.

(** [written] is the messages for which [write] has been called; [prods] is the
    threads of the program, each with the messages it will still put. *)
Record log := LogState {
  Wait_WriteTask : list put;
  WriteTask : list put;
  written : list put;
  put_Mutex : option thread;
  get_Mutex : option thread;
  writer : writer_pc;
  swapper : swapper_pc;
  prods : list (producer_pc * list msg);
}.

Definition set_wait (q : list put) (s : log) : log :=
  LogState q (WriteTask s) (written s) (put_Mutex s) (get_Mutex s) (writer s) (swapper s) (prods s).
Definition set_task (q : list put) (s : log) : log :=
  LogState (Wait_WriteTask s) q (written s) (put_Mutex s) (get_Mutex s) (writer s) (swapper s) (prods s).
Definition set_written (q : list put) (s : log) : log :=
  LogState (Wait_WriteTask s) (WriteTask s) q (put_Mutex s) (get_Mutex s) (writer s) (swapper s) (prods s).
Definition set_put (m : option thread) (s : log) : log :=
  LogState (Wait_WriteTask s) (WriteTask s) (written s) m (get_Mutex s) (writer s) (swapper s) (prods s).
Definition set_get (m : option thread) (s : log) : log :=
  LogState (Wait_WriteTask s) (WriteTask s) (written s) (put_Mutex s) m (writer s) (swapper s) (prods s).
Definition set_writer (p : writer_pc) (s : log) : log :=
  LogState (Wait_WriteTask s) (WriteTask s) (written s) (put_Mutex s) (get_Mutex s) p (swapper s) (prods s).
Definition set_swapper (p : swapper_pc) (s : log) : log :=
  LogState (Wait_WriteTask s) (WriteTask s) (written s) (put_Mutex s) (get_Mutex s) (writer s) p (prods s).
Definition set_prod (i : nat) (p : producer_pc * list msg) (s : log) : log :=
  LogState (Wait_WriteTask s) (WriteTask s) (written s) (put_Mutex s) (get_Mutex s) (writer s) (swapper s)
    (<[i := p]> (prods s)).

(** [pthread_cond_broadcast] of [Swap_Cond] and of [get_Cond]. *)
Definition broadcast_swap (s : log) : log :=
  match swapper s with
  | S_Wait_get => set_swapper S_Woken_get s
  | S_Wait_put => set_swapper S_Woken_put s
  | _ => s
  end.

Definition broadcast_get (s : log) : log :=
  match writer s with W_Wait => set_writer W_Woken s | _ => s end.

(** A lock succeeds when the mutex is free. *)
Definition lock_get (t : thread) (s : log) : option log :=
  guard (get_Mutex s = None);; Some (set_get (Some t) s).
Definition lock_put (t : thread) (s : log) : option log :=
  guard (put_Mutex s = None);; Some (set_put (Some t) s).

(** The next step of each thread; [None] when it is blocked. *)
Definition write_file (s : log) : option log :=
  match writer s with
  | W_Lock | W_Woken => s ← lock_get Writer s; Some (set_writer W_Test s)
  | W_Test =>
      match WriteTask s with
      | [] => Some (set_writer W_Broadcast s)
      | _ => Some (set_writer W_Drain s)
      end
  | W_Broadcast => Some (set_writer W_CondWait (broadcast_swap s))
  | W_CondWait => Some (set_writer W_Wait (set_get None s))
  | W_Wait => None
  | W_Drain =>
      match WriteTask s with
      | [] => Some (set_writer W_Lock (set_get None s))
      | b :: q => Some (set_writer (W_Write b) (set_task q s))
      end
  | W_Write b => Some (set_writer W_Drain (set_written (written s ++ [b]) s))
  end.

Definition swap (s : log) : option log :=
  match swapper s with
  | S_Lock | S_Woken_get => s ← lock_get Swapper s; Some (set_swapper S_Test s)
  | S_Test =>
      match WriteTask s with
      | [] => Some (set_swapper S_LockPut s)
      | _ => Some (set_swapper S_Wait_get (set_get None s))
      end
  | S_LockPut | S_Woken_put => s ← lock_put Swapper s; Some (set_swapper S_TestPut s)
  | S_TestPut =>
      match Wait_WriteTask s with
      | [] => Some (set_swapper S_Wait_put (set_put None s))
      | _ => Some (set_swapper S_Swap s)
      end
  | S_Swap => Some (set_swapper S_Broadcast (set_task (Wait_WriteTask s) (set_wait (WriteTask s) s)))
  | S_Broadcast => Some (set_swapper S_UnlockGet (broadcast_get s))
  | S_UnlockGet => Some (set_swapper S_UnlockPut (set_get None s))
  | S_UnlockPut => Some (set_swapper S_Lock (set_put None s))
  | S_Wait_get | S_Wait_put => None
  end.

Definition put_write_string (i : nat) (s : log) : option log :=
  '(pc, todo) ← prods s !! i;
  match pc, todo with
  | P_Idle, [] => None
  | P_Idle, b :: todo => s ← lock_put (Producer i) s; Some (set_prod i (P_Push b, todo) s)
  | P_Push b, _ => Some (set_prod i (P_Broadcast, todo) (set_wait (Wait_WriteTask s ++ [(i, b)]) s))
  | P_Broadcast, _ => Some (set_prod i (P_Unlock, todo) (broadcast_swap s))
  | P_Unlock, _ => Some (set_prod i (P_Idle, todo) (set_put None s))
  end.

Definition thread_step (t : thread) (s : log) : option log :=
  match t with
  | Writer => write_file s
  | Swapper => swap s
  | Producer i => put_write_string i s
  end.

(** After [Start_Log], with the messages that the threads will put. *)
Definition Start_Log (todo : list (list msg)) : log :=
  LogState [] [] [] None None W_Lock S_Lock ((λ ms, (P_Idle, ms)) <$> todo).

(** A schedule of steps. *)
Fixpoint run (ts : list thread) (s : log) : option log :=
  match ts with [] => Some s | t :: ts => s ← thread_step t s; run ts s end.

(** A step of some thread, and the wake-ups for no reason that
    [pthread_cond_wait] may have. *)
Inductive step (s : log) : log → Prop :=
  | step_thread t s' : thread_step t s = Some s' → step s s'.

Inductive spurious (s : log) : log → Prop :=
  | spurious_swap : spurious s (broadcast_swap s)
  | spurious_get : spurious s (broadcast_get s).

Definition any_step (s s' : log) : Prop := step s s' ∨ spurious s s'.

(** ** What is stated of them *)

(** The messages in the order in which they were put. *)
Definition in_hand (p : writer_pc) : list put := match p with W_Write b => [b] | _ => [] end.
Definition sequence (s : log) : list put :=
  written s ++ in_hand (writer s) ++ WriteTask s ++ Wait_WriteTask s.

(** The messages of thread [i] among [l], and the ones it has still to put. *)
Definition of_thread (i : nat) (l : list put) : list msg := (filter (λ x, x.1 = i) l).*2.
Definition to_put (p : producer_pc * list msg) : list msg :=
  (match p.1 with P_Push b => [b] | _ => [] end) ++ p.2.

(** What is in the file. *)
Definition file (s : log) : msg := mjoin ((λ x, c_str x.2) <$> written s).

(** Who holds a mutex where. *)
Definition w_holds (p : writer_pc) : bool :=
  match p with W_Test | W_Broadcast | W_CondWait | W_Drain | W_Write _ => true | _ => false end.
Definition s_holds_get (p : swapper_pc) : bool :=
  match p with S_Lock | S_Wait_get | S_Woken_get | S_UnlockPut => false | _ => true end.
Definition s_holds_put (p : swapper_pc) : bool :=
  match p with S_TestPut | S_Swap | S_Broadcast | S_UnlockGet | S_UnlockPut => true | _ => false end.
Definition p_holds (p : producer_pc) : bool := match p with P_Idle => false | _ => true end.

(** The invariant of the locks. *)
Record locks (s : log) : Prop := {
  l_get : get_Mutex s = if w_holds (writer s) then Some Writer
                        else if s_holds_get (swapper s) then Some Swapper else None;
  l_excl : w_holds (writer s) && s_holds_get (swapper s) = false;
  l_put_s : put_Mutex s = Some Swapper ↔ s_holds_put (swapper s);
  l_put_p : ∀ j, put_Mutex s = Some (Producer j) ↔ ∃ p, prods s !! j = Some p ∧ p_holds p.1;
  l_put_w : put_Mutex s ≠ Some Writer;
}.

(** No wake-up is lost. *)
Record signals (s : log) : Prop := {
  g_writer : match writer s with
             | W_Broadcast | W_CondWait => WriteTask s = []
             | W_Wait => WriteTask s = [] ∨ swapper s = S_Broadcast
             | _ => True
             end;
  g_swapper : match writer s with W_CondWait | W_Wait => swapper s ≠ S_Wait_get | _ => True end;
  g_put : match swapper s with
          | S_LockPut | S_TestPut | S_Woken_put => WriteTask s = []
          | S_Swap => WriteTask s = [] ∧ Wait_WriteTask s ≠ []
          | S_Wait_put => WriteTask s = [] ∧
              (Wait_WriteTask s = [] ∨ ∃ i todo, prods s !! i = Some (P_Broadcast, todo))
          | _ => True
          end;
}.

(** The work that is left: an upper bound of the number of steps. *)
Definition writer_work (p : writer_pc) (q : list put) : nat :=
  match p with
  | W_Wait => 0 | W_CondWait => 1 | W_Broadcast => 6 | W_Test => 7 | W_Lock | W_Woken => 8
  | W_Drain => match q with [] => 9 | _ => 6 end
  | W_Write _ => 10
  end.
Definition swapper_work (p : swapper_pc) : nat :=
  match p with
  | S_Wait_get | S_Wait_put | S_Swap => 0 | S_TestPut => 1 | S_Woken_put | S_LockPut => 2 | S_Test => 3
  | S_Woken_get | S_Lock => 4 | S_UnlockPut => 5 | S_UnlockGet => 6 | S_Broadcast => 15
  end.
Definition producer_work (p : producer_pc * list msg) : nat :=
  match p.1 with P_Idle => 1 | P_Push _ => 29 | P_Broadcast => 7 | P_Unlock => 2 end + 29 * length p.2.
Definition work (s : log) : nat :=
  writer_work (writer s) (WriteTask s) + swapper_work (swapper s) + 5 * length (WriteTask s) +
  21 * length (Wait_WriteTask s) + sum_list (producer_work <$> prods s).

(** What thread [i] has still to put. *)
Definition still (i : nat) (s : log) : list msg := default [] (to_put <$> prods s !! i).

(** What holds at every step. *)
Definition good (s : log) : Prop := locks s ∧ signals s.

(** Two threads that put three messages, and a schedule in two parts: the writer
    waits, a message is swapped and the other thread puts one; then the writer
    writes the first. *)
Definition demo_todo : list (list msg) := [[["a"%char]; ["b"%char]]; [["c"%char; "000"%char; "d"%char]]].
Definition demo_first : list thread :=
  replicate 4 Writer ++ replicate 4 (Producer 1) ++ replicate 8 Swapper ++ replicate 4 (Producer 0).
Definition demo_then : list thread := replicate 4 Writer.
Definition demo_log : log := default (Start_Log []) (run demo_first (Start_Log demo_todo)).
Definition demo_log' : log := default (Start_Log []) (run demo_then demo_log).

(** ** Steps *)

Lemma write_file_locks s s' : locks s → write_file s = Some s' → locks s'.
Proof.
  intros [H1 H2 H3 H4 H5] Hs. destruct s as [wq tq wr pm gm w sw ps].
  unfold write_file, lock_get in Hs. simpl in *.
  destruct w, tq, sw; simplify_option_eq; simpl in *; by split.
Qed.

Lemma swap_locks s s' : locks s → swap s = Some s' → locks s'.
Proof.
  intros [H1 H2 H3 H4 H5] Hs. destruct s as [wq tq wr pm gm w sw ps].
  unfold swap, lock_get, lock_put in Hs. simpl in *.
  destruct sw; [|destruct tq| | | |destruct wq| | | |destruct w| |]; simplify_option_eq; simpl in *.
  all: try destruct w; simpl in *; try done; split; simpl; try done; naive_solver.
Qed.

Lemma put_write_string_locks i s s' : locks s → put_write_string i s = Some s' → locks s'.
Proof.
  intros [H1 H2 H3 H4 H5] Hs. destruct s as [wq tq wr pm gm w sw ps].
  unfold put_write_string, lock_put in Hs. simpl in *.
  destruct (ps !! i) as [[pc todo]|] eqn:Hi; [|done]. cbn [mbind option_bind] in Hs.
  pose proof (H4 i) as Hown. rewrite Hi in Hown. 
  assert (Hins : ∀ q (pm' : option thread),
    (pm' = if p_holds q then Some (Producer i) else None) → (pm = Some (Producer i) ∨ pm = None) →
    ∀ todo' j, pm' = Some (Producer j) ↔ ∃ p, <[i := (q, todo')]> ps !! j = Some p ∧ p_holds p.1).
  { intros q pm' -> Hpm todo' j. destruct (decide (j = i)) as [->|Hne].
    - rewrite list_lookup_insert_eq by by eapply lookup_lt_Some. destruct (p_holds q) eqn:E; simpl.
      + split; [|done]. intros _. eexists. split; [done|]. simpl. by rewrite E.
      + split; [done|]. intros (p & [= <-] & Hp). simpl in Hp. by rewrite E in Hp.
    - rewrite list_lookup_insert_ne, <-H4 by done. destruct (p_holds q); destruct Hpm; naive_solver. }
  assert (Hpm : p_holds pc → pm = Some (Producer i)) by naive_solver.
  destruct pc; [destruct todo as [|b todo]; [done|]|..]; simplify_option_eq; simpl in *.
  - split; simpl; [done|done|naive_solver| |done]. by apply Hins; [|right].
  - rewrite (Hpm I) in *. split; simpl; [done|done|naive_solver| |done]. by apply Hins; [|left].
  - rewrite (Hpm I) in *. destruct sw; split; simpl; try done; by apply Hins; [|left].
  - rewrite (Hpm I) in *. split; simpl; [done|done|naive_solver| |done]. by apply Hins; [|left].
Qed.

Lemma step_locks s s' : locks s → any_step s s' → locks s'.
Proof.
  intros Hl [[[] ? Hs]|[]].
  - by eapply write_file_locks. - by eapply swap_locks. - by eapply put_write_string_locks.
  - destruct Hl. destruct s as [? ? ? ? ? w sw ?]. unfold broadcast_swap. simpl in *. destruct w, sw; by split.
  - destruct Hl. destruct s as [? ? ? ? ? w sw ?]. unfold broadcast_get. simpl in *. destruct w, sw; by split.
Qed.

(** ** Signals *)

Lemma write_file_signals s s' : locks s → signals s → write_file s = Some s' → signals s'.
Proof.
  intros [H1 H2 _ _ _] [G1 G2 G3] Hs. destruct s as [wq tq wr pm gm w sw ps].
  unfold write_file, lock_get in Hs. simpl in *.
  destruct w, tq, sw; simplify_option_eq; simpl in *; split; simpl; try done; naive_solver.
Qed.

Lemma swap_signals s s' : locks s → signals s → swap s = Some s' → signals s'.
Proof.
  intros [H1 H2 _ _ _] [G1 G2 G3] Hs. destruct s as [wq tq wr pm gm w sw ps].
  unfold swap, lock_get, lock_put in Hs. simpl in *.
  destruct sw, w, tq, wq; simplify_option_eq; simpl in *; split; simpl; try done; naive_solver.
Qed.

Lemma put_write_string_signals i s s' : locks s → signals s → put_write_string i s = Some s' → signals s'.
Proof.
  intros [H1 H2 H3 H4 H5] [G1 G2 G3] Hs. destruct s as [wq tq wr pm gm w sw ps].
  unfold put_write_string, lock_put in Hs. simpl in *.
  destruct (ps !! i) as [[pc todo]|] eqn:Hi; [|done]. cbn [mbind option_bind] in Hs.
  assert (Hlen : (i < length ps)%nat) by by eapply lookup_lt_Some.
  assert (Hpm : p_holds pc → pm = Some (Producer i)).
  { intros ?. apply H4. by eexists. }
  assert (Hps : p_holds pc → ¬ s_holds_put sw) by (intros Hp%Hpm; naive_solver).
  assert (Hother : ∀ j t, ps !! j = Some (P_Broadcast, t) → pm = None → False).
  { intros j t Hj Hn. assert (Some (Producer j) = None); [|done]. rewrite <-Hn. symmetry. apply H4. by eexists. }
  destruct pc; [destruct todo as [|b todo]; [done|]|..]; simplify_option_eq; simpl in *.
  - split; simpl; [done|done|]. destruct sw; try done. destruct G3 as [? [?|(j & t & Hj)]]; [by split; [|left]|].
    by destruct (Hother j t Hj).
  - split; simpl; [done|done|]. destruct sw; try done; try (by destruct (Hps I)).
    destruct G3 as [? _]. split; [done|]. right. exists i. eexists. by rewrite list_lookup_insert_eq.
  - destruct w, sw; split; simpl; try done; naive_solver.
  - split; simpl; [done|done|]. destruct sw; try done. destruct G3 as [? [?|(j & t & Hj)]]; [by split; [|left]|].
    assert (j = i) as ->; [|by rewrite Hi in Hj].
    assert (Some (Producer j) = Some (Producer i)) as [= ?]; [|done]. rewrite <-(Hpm I). symmetry. apply H4. by eexists.
Qed.

Lemma step_signals s s' : locks s → signals s → any_step s s' → signals s'.
Proof.
  intros Hl Hg [[[] ? Hs]|[]].
  - by eapply write_file_signals. - by eapply swap_signals. - by eapply put_write_string_signals.
  - destruct Hg as [G1 G2 G3]. destruct s as [? ? ? ? ? w sw ?]. unfold broadcast_swap. simpl in *.
    destruct w, sw; split; simpl; try done; naive_solver.
  - destruct Hg as [G1 G2 G3]. destruct s as [? ? ? ? ? w sw ?]. unfold broadcast_get. simpl in *. destruct w, sw; by split.
Qed.

(** ** The order of the messages *)

Lemma of_thread_app i l1 l2 : of_thread i (l1 ++ l2) = of_thread i l1 ++ of_thread i l2.
Proof. unfold of_thread. by rewrite filter_app, fmap_app. Qed.

(** A step adds nothing to the messages that were put, or the next message of
    the thread that steps. *)
Lemma step_sequence s s' : signals s → any_step s s' →
  ∃ l, sequence s' = sequence s ++ l ∧
    ∀ i, of_thread i (sequence s') ++ still i s' = of_thread i (sequence s) ++ still i s.
Proof.
  intros [_ _ G3] Hs.
  assert (Hsame : ∀ s2, sequence s2 = sequence s → prods s2 = prods s → ∃ l, sequence s2 = sequence s ++ l ∧
    ∀ i, of_thread i (sequence s2) ++ still i s2 = of_thread i (sequence s) ++ still i s).
  { intros s2 E Ep. exists []. rewrite E, app_nil_r. split; [done|]. intros i. unfold still. by rewrite Ep. }
  destruct s as [wq tq wr pm gm w sw ps]. destruct Hs as [[[| |i] ? Hs]|[]].
  - unfold thread_step, write_file, lock_get in Hs. simpl in *.
    destruct w; simplify_option_eq; try (by apply Hsame).
    + destruct tq; simplify_option_eq; by apply Hsame.
    + destruct sw; by apply Hsame.
    + destruct tq; simplify_option_eq; by apply Hsame.
    + apply Hsame; [|done]. unfold sequence. simpl. by rewrite <-app_assoc.
  - unfold thread_step, swap, lock_get, lock_put in Hs. simpl in *.
    destruct sw; simplify_option_eq; try (by apply Hsame).
    + destruct tq; simplify_option_eq; by apply Hsame.
    + destruct wq; simplify_option_eq; by apply Hsame.
    + apply Hsame; [|done]. unfold sequence. simpl. destruct G3 as [-> _]. by rewrite app_nil_r.
    + apply Hsame; by destruct w.
  - unfold thread_step, put_write_string, lock_put in Hs. simpl in *.
    destruct (ps !! i) as [[pc todo]|] eqn:Hi; [|done]. cbn [mbind option_bind] in Hs.
    assert (Hlen : (i < length ps)%nat) by by eapply lookup_lt_Some.
    assert (Hkeep : ∀ s2 q, to_put q = to_put (pc, todo) → sequence s2 = sequence (LogState wq tq wr pm gm w sw ps) →
      prods s2 = <[i := q]> ps → ∃ l, sequence s2 = sequence (LogState wq tq wr pm gm w sw ps) ++ l ∧
        ∀ j, of_thread j (sequence s2) ++ still j s2 =
          of_thread j (sequence (LogState wq tq wr pm gm w sw ps)) ++ still j (LogState wq tq wr pm gm w sw ps)).
    { intros s2 q Hq E Ep. exists []. rewrite E, app_nil_r. split; [done|]. intros j. unfold still. rewrite Ep. simpl.
      destruct (decide (j = i)) as [->|]; [|by rewrite list_lookup_insert_ne].
      rewrite list_lookup_insert_eq, Hi by done. simpl. by rewrite Hq. }
    destruct pc; [destruct todo as [|b todo]; [done|]|..]; simplify_option_eq; simpl in *.
    + by eapply (Hkeep _ (P_Push b, todo)).
    + clear Hkeep Hsame. unfold sequence. simpl. exists [(i, buff)]. split; [by rewrite <-!app_assoc|]. intros j.
      rewrite !app_assoc, (of_thread_app j _ [(i, buff)]), <-(app_assoc (of_thread j _)).
      f_equal. unfold still, of_thread. simpl. destruct (decide (j = i)) as [->|].
      * rewrite list_lookup_insert_eq, Hi by done. unfold to_put. simpl. by rewrite filter_cons_True by done.
      * rewrite list_lookup_insert_ne by done. by rewrite filter_cons_False by (simpl; congruence).
    + eapply (Hkeep _ (P_Unlock, todo)); [|by destruct sw..]. done.
    + by eapply (Hkeep _ (P_Idle, todo)).
  - apply Hsame; by destruct sw.
  - apply Hsame; by destruct w.
Qed.

Lemma step_written s s' : any_step s s' → written s `prefix_of` written s'.
Proof.
  intros Hs. destruct s as [wq tq wr pm gm w sw ps]. destruct Hs as [[[| |i] ? Hs]|[]].
  - unfold thread_step, write_file, lock_get in Hs. simpl in *.
    destruct w; simplify_option_eq; try done;
      [by destruct tq; simplify_option_eq|by destruct sw|by destruct tq; simplify_option_eq|by eexists].
  - unfold thread_step, swap, lock_get, lock_put in Hs. simpl in *.
    destruct sw; simplify_option_eq; try done; [by destruct tq; simplify_option_eq|by destruct wq; simplify_option_eq|by destruct w].
  - unfold thread_step, put_write_string, lock_put in Hs. simpl in *.
    destruct (ps !! i) as [[pc todo]|]; [|done]. cbn [mbind option_bind] in Hs.
    destruct pc, todo, sw; by simplify_option_eq.
  - by destruct sw.
  - by destruct w.
Qed.

Lemma steps_good s s' : good s → rtc any_step s s' → good s'.
Proof.
  intros Hg Hs. induction Hs as [|s1 s2 s3 Hs _ IH]; [done|]. apply IH. destruct Hg.
  split; [by eapply step_locks|by eapply step_signals].
Qed.

Lemma steps_sequence s s' : good s → rtc any_step s s' →
  sequence s `prefix_of` sequence s' ∧ written s `prefix_of` written s' ∧
  ∀ i, of_thread i (sequence s') ++ still i s' = of_thread i (sequence s) ++ still i s.
Proof.
  intros Hg Hs. induction Hs as [|s1 s2 s3 Hs Hss IH]; [done|].
  destruct IH as (IH1 & IH2 & IH3).
  { eapply steps_good; [done|by eapply rtc_once]. }
  destruct Hg as [Hl Hg]. destruct (step_sequence s1 s2 Hg Hs) as (l & E & Hi). split_and!.
  - etrans; [|exact IH1]. rewrite E. by eexists.
  - etrans; [by eapply step_written|done].
  - intros i. by rewrite IH3, Hi.
Qed.

Lemma Start_Log_good todo : good (Start_Log todo).
Proof.
  split; split; simpl; try done. intros j. split; [done|]. intros (p & Hp & Hh).
  rewrite list_lookup_fmap in Hp. destruct (todo !! j); naive_solver.
Qed.

Lemma Start_Log_still todo i : still i (Start_Log todo) = default [] (todo !! i).
Proof. unfold still. simpl. rewrite list_lookup_fmap. by destruct (todo !! i). Qed.

(** ** Termination *)

#[local] Arguments Nat.mul : simpl never.

Ltac sums Hsum :=
  repeat match type of Hsum with context [sum_list ?l] => generalize dependent (sum_list l); intros end;
  unfold producer_work in *; cbn [fst snd length] in *.

Lemma step_work s s' : good s → step s s' → (work s' < work s)%nat.
Proof.
  intros [[H1 H2 H3 H4 H5] [G1 G2 G3]] [[| |i] ? Hs]; destruct s as [wq tq wr pm gm w sw ps].
  - unfold thread_step, write_file, lock_get, work in *. simpl in *.
    destruct w; simplify_option_eq; simpl in *; try lia.
    + destruct tq; simplify_option_eq; simpl in *; lia.
    + destruct sw; simpl; lia.
    + destruct tq as [|x [|y tq]]; simplify_option_eq; simpl in *; lia.
    + destruct tq; simpl; lia.
  - unfold thread_step, swap, lock_get, lock_put, work in *. simpl in *.
    destruct sw; simplify_option_eq; simpl in *; try lia.
    + destruct tq; simplify_option_eq; simpl in *; lia.
    + destruct wq; simplify_option_eq; simpl in *; lia.
    + destruct G3 as [-> Hne]. destruct wq as [|x wq]; [done|]. destruct w; simpl; lia.
    + destruct w; simpl; lia.
  - unfold thread_step, put_write_string, lock_put, work in *. cbn -[Nat.mul] in *.
    destruct (ps !! i) as [[pc todo]|] eqn:Hi; [|done]. cbn [mbind option_bind] in Hs.
    pose proof (λ q, sum_list_insert producer_work ps i _ q Hi) as Hsum.
    destruct pc; [destruct todo as [|b todo]; [done|]|..]; simplify_option_eq; cbn -[Nat.mul] in *.
    + specialize (Hsum (P_Push b, todo)). sums Hsum. lia.
    + specialize (Hsum (P_Broadcast, todo)). sums Hsum. rewrite length_app. cbn -[Nat.mul]. lia.
    + specialize (Hsum (P_Unlock, todo)). destruct sw; cbn -[Nat.mul]; sums Hsum; lia.
    + specialize (Hsum (P_Idle, todo)). sums Hsum. lia.
Qed.

Lemma step_good s s' : good s → step s s' → good s'.
Proof. intros Hg Hs. eapply steps_good; [done|]. apply rtc_once. by left. Qed.

Lemma Start_Log_work todo :
  work (Start_Log todo) = (12 + sum_list ((λ ms, 1 + 29 * length ms) <$> todo))%nat.
Proof. unfold work. simpl. by rewrite <-list_fmap_compose. Qed.

(** When no thread can go on everything is written. *)
Lemma stuck_prods s : locks s → (∀ t, thread_step t s = None) →
  (∀ j, put_Mutex s ≠ Some (Producer j)) ∧ put_Mutex s = None ∧ ∀ i, still i s = [].
Proof.
  intros [_ _ H3 H4 H5] Hn.
  assert (Hp : ∀ j, put_Mutex s ≠ Some (Producer j)).
  { intros j Hj. destruct (proj1 (H4 j) Hj) as ([pc todo] & Hl & Hh). specialize (Hn (Producer j)).
    unfold thread_step, put_write_string in Hn. rewrite Hl in Hn. by destruct pc. }
  assert (Hfree : put_Mutex s = None).
  { destruct (put_Mutex s) as [[| |j]|] eqn:E; [done| |by destruct (Hp j)|done].
    assert (Hsw : s_holds_put (swapper s)) by by apply H3. specialize (Hn Swapper). unfold thread_step, swap in Hn.
    destruct (swapper s); try done. by destruct (Wait_WriteTask s). }
  split; [done|]. split; [done|]. intros i. unfold still.
  destruct (prods s !! i) as [[pc todo]|] eqn:Hl; [|done]. specialize (Hn (Producer i)).
  unfold thread_step, put_write_string, lock_put in Hn. rewrite Hl, Hfree in Hn. by destruct pc, todo.
Qed.

Lemma stuck_done s : good s → (∀ t, thread_step t s = None) →
  writer s = W_Wait ∨ writer s = W_Lock ∨ writer s = W_Woken →
  swapper s = S_Wait_put ∧ sequence s = written s.
Proof.
  intros [Hl [_ G2 G3]] Hn Hw. destruct (stuck_prods s Hl Hn) as (Hp & Hfree & _). destruct Hl as [H1 _ H3 H4 _].
  assert (Hw' : w_holds (writer s) = false) by (by destruct Hw as [->|[->| ->]]). rewrite Hw' in H1.
  pose proof (Hn Swapper) as Hs. unfold thread_step, swap, lock_get, lock_put in Hs.
  rewrite H1, Hfree in Hs. simpl in Hs.
  destruct (swapper s) eqn:Esw; simpl in Hs; try done; try (by destruct (WriteTask s)); try (by destruct (Wait_WriteTask s)).
  - pose proof (Hn Writer) as Hwr. unfold thread_step, write_file, lock_get in Hwr. rewrite H1 in Hwr. simpl in Hwr.
    destruct Hw as [Hw|[Hw|Hw]]; rewrite Hw in *; done.
  - split; [done|]. destruct G3 as [Ht [Hq|(i & todo & Hi)]].
    + unfold sequence. rewrite Ht, Hq. destruct Hw as [->|[->| ->]]; by rewrite app_nil_r.
    + destruct (Hp i). apply H4. by eexists.
Qed.

Lemma stuck_writer s : (∀ t, thread_step t s = None) →
  writer s = W_Wait ∨ writer s = W_Lock ∨ writer s = W_Woken.
Proof.
  intros Hn. specialize (Hn Writer). unfold thread_step, write_file in Hn.
  destruct (writer s); auto; try done; by destruct (WriteTask s).
Qed.

Lemma step_or_stuck s : (∃ t s', thread_step t s = Some s') ∨ ∀ t, thread_step t s = None.
Proof.
  set (ts := Writer :: Swapper :: (Producer <$> seq 0 (length (prods s)))).
  destruct (decide (Exists (λ t, is_Some (thread_step t s)) ts)) as [He|He].
  - left. apply Exists_exists in He as (t & _ & s' & Hs). by eexists _, _.
  - right. intros t. destruct (thread_step t s) as [s'|] eqn:E; [|done]. destruct He. apply Exists_exists.
    exists t. split; [|by rewrite E]. destruct t as [| |i]; [left|right; left|]. right. right.
    apply list_elem_of_fmap. exists i. split; [done|]. apply elem_of_seq.
    unfold thread_step, put_write_string in E. destruct (prods s !! i) eqn:Hi; [|done].
    apply lookup_lt_Some in Hi. lia.
Qed.

Lemma runs_to_the_end s : good s → ∃ s', rtc step s s' ∧ ∀ t, thread_step t s' = None.
Proof.
  apply (reaches_end _ _ _ step_good step_work (λ s, ∀ t, thread_step t s = None)). intros s1.
  destruct (step_or_stuck s1) as [(t & s2 & Hs)|Hs]; [left; exists s2; by econstructor|by right].
Qed.

Lemma step_owner t s s' : locks s → thread_step t s = Some s' →
  (WriteTask s' ≠ WriteTask s → get_Mutex s = Some t) ∧
  (Wait_WriteTask s' ≠ Wait_WriteTask s → put_Mutex s = Some t).
Proof.
  intros [H1 H2 H3 H4 _] Hs. destruct s as [wq tq wr pm gm w sw ps]. destruct t as [| |i]; simpl in *.
  - unfold write_file, lock_get in Hs. simpl in *.
    destruct w; simplify_option_eq; try done; [by destruct tq; simplify_option_eq|by destruct sw|by destruct tq; simplify_option_eq].
  - unfold swap, lock_get, lock_put in Hs. simpl in *.
    destruct sw; simplify_option_eq; try done.
    + by destruct tq; simplify_option_eq. + by destruct wq; simplify_option_eq.
    + split; intros _; [by destruct w|by apply H3]. + by destruct w.
  - unfold put_write_string, lock_put in Hs. simpl in *.
    destruct (ps !! i) as [[pc todo]|] eqn:Hi; [|done]. cbn [mbind option_bind] in Hs.
    destruct pc; [destruct todo; [done|]|..]; simplify_option_eq; try done; [|by destruct sw].
    split; [done|]. intros _. apply H4. by eexists.
Qed.

Lemma file_prefix s s' : written s `prefix_of` written s' → file s `prefix_of` file s'.
Proof. intros [l Hl]. unfold file. rewrite Hl, fmap_app, join_app. by eexists. Qed.

(** ** Messages *)

Lemma Append_fits b lm :
  (0 ≤ lm_length lm < 2048)%Z → lm_length lm = Z.of_nat (length (lm_text lm)) →
  (Z.of_nat (length b) < 2 ^ 31 - 2048)%Z →
  Append (Some b) lm = Some (if decide (lm_length lm + Z.of_nat (length b) < 2048)%Z
    then Message (lm_length lm + Z.of_nat (length b)) (lm_text lm ++ b) else lm).
Proof.
  intros H0 H1 Hb. unfold Append, max_length. rewrite wraps_id, option_guard_True by lia.
  cbn [mbind option_bind]. destruct (decide (lm_length lm + _ < 2048)%Z) as [Hs|Hs].
  - rewrite decide_False, firstn_all2 by lia. rewrite option_guard_True by (rewrite length_app; lia).
    cbn [mbind option_bind]. do 2 f_equal. lia.
  - by rewrite decide_True by lia.
Qed.

Lemma append_all_kept pieces : ∀ lm,
  (0 ≤ lm_length lm < 2048)%Z → lm_length lm = Z.of_nat (length (lm_text lm)) →
  Forall (λ b, Z.of_nat (length b) < 2 ^ 31 - 2048)%Z pieces →
  ∃ lm', append_all (Some <$> pieces) lm = Some lm' ∧
    lm_text lm' = lm_text lm ++ mjoin (kept (lm_length lm) pieces) ∧ (Z.of_nat (length (lm_text lm')) < 2048)%Z.
Proof.
  induction pieces as [|b pieces IH]; intros lm H0 H1 Hp; cbn [append_all fmap list_fmap kept].
  { exists lm. split_and!; [done|by rewrite app_nil_r|lia]. }
  apply Forall_cons in Hp as [Hb Hp]. rewrite Append_fits by done. cbn [mbind option_bind]. cbv zeta.
  case_decide as Hs; [|by apply IH].
  destruct (IH (Message (lm_length lm + Z.of_nat (length b)) (lm_text lm ++ b))) as (lm' & E & Ht & Hl);
    [simpl; lia|simpl; rewrite length_app; lia|done|].
  exists lm'. split_and!; [done| |done]. rewrite Ht. cbn [lm_text lm_length]. by rewrite <-app_assoc.
Qed.

Lemma kept_sublist pieces : ∀ n, kept n pieces `sublist_of` pieces.
Proof.
  induction pieces as [|b pieces IH]; intros n; cbn [kept]; [constructor|].
  case_decide; [by apply sublist_skip|by apply sublist_cons].
Qed.

Lemma kept_all pieces : ∀ n,
  (n + Z.of_nat (length (mjoin pieces)) < 2048)%Z → kept n pieces = pieces.
Proof.
  induction pieces as [|b pieces IH]; intros n Hn; cbn [kept]; [done|].
  change (mjoin (b :: pieces)) with (b ++ mjoin pieces) in Hn. rewrite length_app in Hn.
  rewrite decide_True by lia. f_equal. apply IH. lia.
Qed.

(** ** Properties *)

(** C39.  Whatever the order in which the threads run, and even if they are woken
    for no reason, the messages keep the order in which they were put: the ones
    that were put are never lost, repeated or overtaken, those of each thread
    are the first of its messages in its order, and the file only grows, by the
    text of the beginning of this sequence.  Each queue is changed only by the thread that
    holds its mutex. *)
Theorem log_keeps_order (todo : list (list msg)) s s' :
  rtc any_step (Start_Log todo) s → rtc any_step s s' →
  sequence s `prefix_of` sequence s' ∧ written s `prefix_of` written s' ∧ written s `prefix_of` sequence s ∧
  file s `prefix_of` file s' ∧
  (∀ i, of_thread i (sequence s) ++ still i s = default [] (todo !! i)) ∧
  ∀ t s2, thread_step t s = Some s2 →
    (WriteTask s2 ≠ WriteTask s → get_Mutex s = Some t) ∧
    (Wait_WriteTask s2 ≠ Wait_WriteTask s → put_Mutex s = Some t).
Proof.
  intros Hs Hs'. pose proof (Start_Log_good todo) as Hg.
  destruct (steps_sequence _ _ Hg Hs) as (_ & _ & Hi). pose proof (steps_good _ _ Hg Hs) as Hg'.
  destruct (steps_sequence _ _ Hg' Hs') as (H1 & H2 & _). split_and!; [done|done|by eexists|by apply file_prefix| |].
  - intros i. by rewrite Hi, Start_Log_still.
  - intros t s2 Hst. apply step_owner; [apply Hg'|done].
Qed.

(** C40.  The log never hangs: wherever the threads are, without further wake-ups
    for no reason they can make only a bounded number of steps, and when none
    can make another one everything that was to be put has been written, the
    messages of each thread in its order, and the two threads of the log wait
    for more.  Such an end can always be reached. *)
Theorem log_gets_written (todo : list (list msg)) s :
  rtc any_step (Start_Log todo) s →
  (∀ n s', nsteps step n s s' → (n ≤ work s)%nat) ∧
  (∃ s', rtc step s s' ∧ ∀ t, thread_step t s' = None) ∧
  ∀ s', rtc step s s' → (∀ t, thread_step t s' = None) →
    (∀ i, of_thread i (written s') = default [] (todo !! i)) ∧
    sequence s `prefix_of` written s' ∧ swapper s' = S_Wait_put.
Proof.
  intros Hs. pose proof (Start_Log_good todo) as Hg. pose proof (steps_good _ _ Hg Hs) as Hg'.
  split; [|split; [by apply runs_to_the_end|]].
  { intros n s' Hn. pose proof (nsteps_work _ _ _ step_good step_work n s s' Hg' Hn). lia. }
  intros s' Hss Hn.
  assert (Hss' : rtc any_step s s') by (apply (rtc_subrel step); [by left|done]).
  pose proof (steps_good _ _ Hg' Hss') as Hg2.
  destruct (stuck_done s' Hg2 Hn (stuck_writer s' Hn)) as [Hsw Heq].
  destruct (stuck_prods s' (proj1 Hg2) Hn) as (_ & _ & Hstill).
  destruct (steps_sequence s s' Hg' Hss') as (Hpre & _ & Hi).
  destruct (steps_sequence _ _ Hg Hs) as (_ & _ & Hi0).
  split_and!; [|by rewrite <-Heq|done].
  intros i. specialize (Hi i). rewrite Hstill, app_nil_r, Heq in Hi. by rewrite Hi, Hi0, Start_Log_still.
Qed.

(** ** Witnesses *)

Lemma run_steps ts s s' : run ts s = Some s' → rtc any_step s s'.
Proof.
  revert s. induction ts as [|t ts IH]; intros s Hr; simplify_eq/=; [done|].
  destruct (thread_step t s) as [s1|] eqn:E; [|done]. eapply rtc_l; [left; by econstructor|by apply IH].
Qed.

Lemma demo_log_reached : rtc any_step (Start_Log demo_todo) demo_log.
Proof. apply (run_steps demo_first). vm_compute. reflexivity. Qed.

Lemma log_keeps_order_witness :
  written demo_log' = [(1%nat, ["c"%char; "000"%char; "d"%char])] ∧ file demo_log' = ["c"%char] ∧
  sequence demo_log `prefix_of` sequence demo_log' ∧
  of_thread 0 (sequence demo_log) ++ still 0 demo_log = [["a"%char]; ["b"%char]].
Proof.
  destruct (log_keeps_order demo_todo demo_log demo_log' demo_log_reached) as (H1 & _ & _ & _ & H2 & _).
  { apply (run_steps demo_then). vm_compute. reflexivity. }
  split; [vm_compute; reflexivity|]. split; [vm_compute; reflexivity|]. split; [exact H1|exact (H2 0%nat)].
Defined.

Lemma log_gets_written_witness :
  ∃ s', rtc step demo_log s' ∧ of_thread 0 (written s') = [["a"%char]; ["b"%char]] ∧
    [(1%nat, ["c"%char; "000"%char; "d"%char]); (0%nat, ["a"%char])] `prefix_of` written s'.
Proof.
  destruct (log_gets_written demo_todo demo_log demo_log_reached) as (_ & (s' & Hs & Hn) & Hend).
  destruct (Hend s' Hs Hn) as (H1 & H2 & _). exists s'. split; [exact Hs|]. split; [exact (H1 0%nat)|exact H2].
Defined.
