(* ===== verification/LogLine.v ===== *)
(** * A line of the log (Log.h, Log.cpp)

    What a statement [LOG << a << b;] writes: the constructor of [Log] puts the
    time into the message, the operators append, and the destructor adds the
    place and hands the message to the [LogFile]. *)

From Stdlib Require Import Ascii.
From stdpp Require Import pretty.
From S2P Require Import Prelude LogFile.

Local Open Scope Z_scope.
Local Open Scope cint_scope.

(** ** Operations *)

Definition bytes_of (s : string) : msg := String.list_ascii_of_string s.

(** [to_string], and [sprintf] of [%0wd]. *)
Definition to_string (n : Z) : msg := bytes_of (pretty n).
Definition zero_pad (w : nat) (m : msg) : msg := replicate (w - length m) "0"%char ++ m.
Definition format_0d (w : nat) (n : Z) : msg :=
  if decide (n < 0) then "-"%char :: zero_pad (w - 1) (to_string (- n)) else zero_pad w (to_string n).

Record tm := Tm { tm_year : Z; tm_mon : Z; tm_mday : Z; tm_hour : Z; tm_min : Z; tm_sec : Z }.

Definition GetSystemTime (t : tm) : msg :=
  ["["%char] ++ format_0d 4 (s32 (tm_year t + 1900)) ++ ["-"%char] ++ format_0d 2 (s32 (tm_mon t + 1)) ++
  ["-"%char] ++ format_0d 2 (tm_mday t) ++ [" "%char] ++ format_0d 2 (tm_hour t) ++ [":"%char] ++
  format_0d 2 (tm_min t) ++ [":"%char] ++ format_0d 2 (tm_sec t) ++ ["]"%char].

(** What is put into a message: a C string, an [int] or a [string].  The operator
    for [int] keeps the pointer to the bytes of a [string] that is gone when they
    are read: [found] is what is in that memory then. *)
Inductive piece := PChars (p : option msg) | PInt (n : Z) (found : msg) | PString (s : msg).

Record Log := LOG { log_message : LogMessage; line : Z; filename : msg }.

(** [strlen(NULL)] is an access of [NULL]. *)
Definition put_piece (p : piece) (lm : LogMessage) : option LogMessage :=
  match p with
  | PChars None => None
  | PChars (Some m) => Append (Some (c_str m)) lm
  | PInt _ found => Append (Some (c_str found)) lm
  | PString s => Append (Some s) lm
  end.

Fixpoint put_pieces (ps : list piece) (lm : LogMessage) : option LogMessage :=
  match ps with
  | [] => Some lm
  | p :: ps => lm ← put_piece p lm; put_pieces ps lm
  end.

Definition Log_new (t : tm) (line : Z) (filename : msg) : option Log :=
  lm ← put_piece (PString (GetSystemTime t)) LogMessage_new;
  Some (LOG lm line filename).

(** What the destructor appends; [found] is what it reads for the line number. *)
Definition place (line : Z) (found filename : msg) : list piece :=
  [PChars (Some (bytes_of "     [FileName:")); PString filename; PChars (Some (bytes_of " "));
   PChars (Some (bytes_of "Line:")); PInt line found; PChars (Some (bytes_of "]" ++ ["010"%char]))].

(** [~Log]: the message that [put_write_string] gets, if there is a log file. *)
Definition Log_end (log_file : bool) (found : msg) (l : Log) : option (option msg) :=
  lm ← put_pieces (place (line l) found (filename l)) (log_message l);
  Some (if log_file then Some (lm_text lm) else None).

Definition log_statement (log_file : bool) (t : tm) (line : Z) (found filename : msg) (ps : list piece)
    : option (option msg) :=
  l ← Log_new t line filename;
  lm ← put_pieces ps (log_message l);
  Log_end log_file found (LOG lm line filename).

(** ** Reading a line *)

Definition digits (m : msg) : Z := foldl (λ n c, n * 10 + (Z.of_nat (nat_of_ascii c) - 48)) 0 m.
Definition slice (i n : nat) (m : msg) : msg := take n (drop i m).

Definition parse_time (m : msg) : tm :=
  Tm (digits (slice 1 4 m) - 1900) (digits (slice 6 2 m) - 1) (digits (slice 9 2 m)) (digits (slice 12 2 m))
     (digits (slice 15 2 m)) (digits (slice 18 2 m)).

(** A time that [localtime] gives before the year 10000. *)
Definition tm_ok (t : tm) : Prop :=
  -1900 ≤ tm_year t ≤ 8099 ∧ 0 ≤ tm_mon t ≤ 11 ∧ 1 ≤ tm_mday t ≤ 31 ∧ 0 ≤ tm_hour t ≤ 23 ∧
  0 ≤ tm_min t ≤ 59 ∧ 0 ≤ tm_sec t ≤ 60.

(** The text of a piece as it is read. *)
Definition text_of (p : piece) : msg :=
  match p with PChars m => default [] (c_str <$> m) | PInt _ found => c_str found | PString s => s end.

(** The memory of a temporary still holds the number. *)
Definition intact (p : piece) : Prop :=
  match p with PInt n found => c_str found = to_string n | _ => True end.

(** The pieces that the program can hand over: no [NULL], and so short that the
    length of the message stays an [int]. *)
Definition short (m : msg) : Prop := Z.of_nat (length m) < 2 ^ 31 - 2048.
Definition piece_ok (p : piece) : Prop :=
  match p with
  | PChars None => False
  | PChars (Some m) => short m
  | PInt _ found => short found
  | PString m => short m
  end.

(** The texts of a line after its time. *)
Definition texts (found filename : msg) (ps : list piece) : list msg :=
  (text_of <$> ps) ++ [bytes_of "     [FileName:"; filename; bytes_of " "; bytes_of "Line:"; c_str found;
    bytes_of "]" ++ ["010"%char]].

(** The text of a piece as it is meant. *)
Definition meant (p : piece) : msg := match p with PInt n _ => to_string n | _ => text_of p end.

Definition whole_line (t : tm) (line : Z) (filename : msg) (ps : list piece) : msg :=
  GetSystemTime t ++ mjoin (meant <$> ps) ++ bytes_of "     [FileName:" ++ filename ++ bytes_of " Line:" ++
  to_string line ++ bytes_of "]" ++ ["010"%char].

(** ** Numbers *)

(** Numbers of a fixed width are read back. *)
Definition reads_back (w : nat) (n : Z) : bool :=
  (length (format_0d w n) =? w)%nat && (digits (format_0d w n) =? n).

Lemma read_back_year n : 0 ≤ n < 10000 → length (format_0d 4 n) = 4%nat ∧ digits (format_0d 4 n) = n.
Proof.
  intros Hn. assert (forallb (reads_back 4) (seqZ 0 10000) = true) as Hall by evaluates.
  rewrite forallb_forall in Hall. specialize (Hall n). unfold reads_back in Hall.
  rewrite andb_true_iff, Nat.eqb_eq, Z.eqb_eq in Hall. apply Hall, list_elem_of_In, elem_of_seqZ. lia.
Qed.

Lemma read_back n : 0 ≤ n < 100 → length (format_0d 2 n) = 2%nat ∧ digits (format_0d 2 n) = n.
Proof.
  intros Hn. assert (forallb (reads_back 2) (seqZ 0 100) = true) as Hall by evaluates.
  rewrite forallb_forall in Hall. specialize (Hall n). unfold reads_back in Hall.
  rewrite andb_true_iff, Nat.eqb_eq, Z.eqb_eq in Hall. apply Hall, list_elem_of_In, elem_of_seqZ. lia.
Qed.

(** ** The time *)

(** The stamp is six numbers of known width. *)
Lemma parse_fields (y mo d h mi s rest : msg) :
  length y = 4%nat → length mo = 2%nat → length d = 2%nat → length h = 2%nat → length mi = 2%nat → length s = 2%nat →
  parse_time ((["["%char] ++ y ++ ["-"%char] ++ mo ++ ["-"%char] ++ d ++ [" "%char] ++ h ++ [":"%char] ++ mi ++
    [":"%char] ++ s ++ ["]"%char]) ++ rest) = Tm (digits y - 1900) (digits mo - 1) (digits d) (digits h) (digits mi) (digits s).
Proof.
  intros A1 A2 A3 A4 A5 A6.
  destruct y as [|? [|? [|? [|? [|? ?]]]]]; try discriminate A1.
  destruct mo as [|? [|? [|? ?]]]; try discriminate A2. destruct d as [|? [|? [|? ?]]]; try discriminate A3.
  destruct h as [|? [|? [|? ?]]]; try discriminate A4. destruct mi as [|? [|? [|? ?]]]; try discriminate A5.
  destruct s as [|? [|? [|? ?]]]; try discriminate A6. reflexivity.
Qed.

Lemma parse_time_stamp t rest : tm_ok t → parse_time (GetSystemTime t ++ rest) = t ∧ length (GetSystemTime t) = 21%nat.
Proof.
  intros (Hy & Hmo & Hd & Hh & Hmi & Hs). unfold GetSystemTime.
  rewrite !wraps_id by lia.
  destruct (read_back_year (tm_year t + 1900)) as [L1 E1]; [lia|].
  destruct (read_back (tm_mon t + 1)) as [L2 E2]; [lia|].
  destruct (read_back (tm_mday t)) as [L3 E3]; [lia|]. destruct (read_back (tm_hour t)) as [L4 E4]; [lia|].
  destruct (read_back (tm_min t)) as [L5 E5]; [lia|]. destruct (read_back (tm_sec t)) as [L6 E6]; [lia|].
  split.
  - rewrite parse_fields, E1, E2, E3, E4, E5, E6 by done. destruct t; simpl. f_equal; lia.
  - rewrite !length_app, L1, L2, L3, L4, L5, L6. done.
Qed.

(** ** The message *)

Lemma c_str_length m : (length (c_str m) ≤ length m)%nat.
Proof. induction m as [|c m IH]; simpl; [lia|]. case_decide; simpl; lia. Qed.

Lemma put_pieces_append ps : ∀ lm, Forall piece_ok ps →
  put_pieces ps lm = append_all (Some <$> (text_of <$> ps)) lm.
Proof.
  induction ps as [|p ps IH]; intros lm Hp; [done|]. apply Forall_cons in Hp as [Hp1 Hp].
  cbn [put_pieces fmap list_fmap append_all].
  assert (put_piece p lm = Append (Some (text_of p)) lm) as -> by (by destruct p as [[m|]|n found|m]).
  destruct (Append _ lm) as [lm'|]; [by apply IH|done].
Qed.

Lemma put_pieces_app l1 l2 lm : put_pieces (l1 ++ l2) lm = lm ← put_pieces l1 lm; put_pieces l2 lm.
Proof.
  revert lm. induction l1 as [|b l1 IH]; intros lm; [done|]. cbn [put_pieces app].
  destruct (put_piece b lm) as [lm'|]; [apply IH|done].
Qed.

Lemma texts_short ps : Forall piece_ok ps → Forall short (text_of <$> ps).
Proof.
  intros Hps. apply Forall_fmap. eapply Forall_impl; [exact Hps|]. unfold compose, short. intros p Hp.
  destruct p as [[m|]|n m|m]; simpl in *; unfold short in Hp; [|done| |done]; pose proof (c_str_length m); lia.
Qed.

Lemma texts_eq line found filename ps : texts found filename ps = text_of <$> (ps ++ place line found filename).
Proof. by rewrite fmap_app. Qed.

Lemma place_ok line found filename : short found → short filename → Forall piece_ok (place line found filename).
Proof. intros. unfold place. repeat apply Forall_cons_2; try apply Forall_nil_2; unfold piece_ok, short in *; simpl; lia. Qed.

(** The statement up to the handing over. *)
Lemma log_statement_eq log_file t line found filename ps :
  length (GetSystemTime t) = 21%nat →
  log_statement log_file t line found filename ps =
    lm ← put_pieces (ps ++ place line found filename) (Message 21 (GetSystemTime t));
    Some (if log_file then Some (lm_text lm) else None).
Proof.
  intros H21. unfold log_statement, Log_new. cbn [put_piece].
  unfold LogMessage_new. rewrite Append_fits by (cbn [lm_length lm_text length]; rewrite ?H21; lia).
  cbn [lm_length lm_text app]. rewrite decide_True by (rewrite H21; lia). cbn [mbind option_bind log_message]. rewrite H21, put_pieces_app.
  by destruct (put_pieces ps _) as [lm|].
Qed.

Lemma meant_line t line found filename ps :
  Forall intact ps → c_str found = to_string line →
  GetSystemTime t ++ mjoin (texts found filename ps) = whole_line t line filename ps.
Proof.
  intros Hps Hfound. unfold texts, whole_line. rewrite join_app. f_equal.
  assert (text_of <$> ps = meant <$> ps) as ->.
  { apply list_fmap_ext. intros i p Hp. eapply Forall_lookup_1 in Hps; [|exact Hp]. by destruct p. }
  f_equal. by rewrite Hfound.
Qed.

(** ** Properties *)

(** C38.  What a log statement hands to the log.  After the time come the pieces
    and the place, in order, as many of them as fit: a piece is left out, whole,
    exactly if it would take the message to the 2048 bytes of the buffer, and no
    byte is written outside it.  The time can be read back in any case.  What is
    appended for a number is what is found in the memory of a temporary [string]
    that is gone; only if that is still the number's text, and if the line is
    shorter than the buffer, does the log get the line that is meant. *)
Theorem log_line t line found filename ps :
  tm_ok t → Forall piece_ok ps → short found → short filename →
  ∃ m, log_statement true t line found filename ps = Some (Some m) ∧
    log_statement false t line found filename ps = Some None ∧
    m = GetSystemTime t ++ mjoin (kept 21 (texts found filename ps)) ∧
    kept 21 (texts found filename ps) `sublist_of` texts found filename ps ∧
    parse_time m = t ∧ Z.of_nat (length m) < 2048 ∧
    (21 + Z.of_nat (length (mjoin (texts found filename ps))) < 2048 →
      m = GetSystemTime t ++ mjoin (texts found filename ps)) ∧
    (Forall intact ps → c_str found = to_string line →
      Z.of_nat (length (whole_line t line filename ps)) < 2048 → m = whole_line t line filename ps).
Proof.
  intros Ht Hps Hfound Hfile. pose proof (proj2 (parse_time_stamp t [] Ht)) as H21.
  assert (Forall piece_ok (ps ++ place line found filename)) as Hall by (apply Forall_app; split; [done|by apply place_ok]).
  destruct (append_all_kept (texts found filename ps) (Message 21 (GetSystemTime t)))
    as (lm & E & Htext & Hlen); [simpl; lia|by cbn [lm_length lm_text]; rewrite H21|rewrite (texts_eq line); by apply texts_short|].
  cbn [lm_text lm_length] in Htext. exists (lm_text lm).
  assert (Hwhole : 21 + Z.of_nat (length (mjoin (texts found filename ps))) < 2048 →
    lm_text lm = GetSystemTime t ++ mjoin (texts found filename ps)) by (intros Hs; by rewrite Htext, kept_all).
  rewrite !log_statement_eq, put_pieces_append by done. rewrite (texts_eq line) in E. rewrite E. split_and!; try done.
  - apply kept_sublist.
  - rewrite Htext. by apply parse_time_stamp.
  - intros Hi Hf. rewrite <-(meant_line t line found filename ps Hi Hf). intros Hs. apply Hwhole.
    rewrite length_app in Hs. lia.
Qed.

(** A line, and one whose second piece does not fit. *)
Lemma log_line_witness :
  (∃ m, log_statement true (Tm 124 4 17 9 5 3) 30 (bytes_of "30") (bytes_of "main.cpp")
      [PChars (Some (bytes_of "fd: ")); PInt 7 (bytes_of "7")] = Some (Some m) ∧
    m = bytes_of "[2024-05-17 09:05:03]fd: 7     [FileName:main.cpp Line:30]" ++ ["010"%char] ∧
    parse_time m = Tm 124 4 17 9 5 3) ∧
  (∃ m, log_statement true (Tm 124 4 17 9 5 3) 30 (bytes_of "?") (bytes_of "main.cpp")
      [PChars (Some (bytes_of "fd: ")); PString (replicate 2023 "x"%char); PInt 7 (bytes_of "7")] = Some (Some m) ∧
    m = bytes_of "[2024-05-17 09:05:03]fd: 7     [FileName:main.cpp Line:?]" ++ ["010"%char]).
Proof.
  split.
  - destruct (log_line (Tm 124 4 17 9 5 3) 30 (bytes_of "30") (bytes_of "main.cpp")
      [PChars (Some (bytes_of "fd: ")); PInt 7 (bytes_of "7")])
      as (m & E & _ & _ & _ & Hp & _ & _ & Hm); [unfold tm_ok; simpl; lia| |unfold short; simpl; lia..|].
    + repeat apply Forall_cons_2; try apply Forall_nil_2; unfold piece_ok, short; simpl; lia.
    + exists m. split; [exact E|]. split; [|exact Hp].
      rewrite Hm; [evaluates| |evaluates|apply Z.ltb_lt; evaluates].
      repeat apply Forall_cons_2; try apply Forall_nil_2; [exact Logic.I|evaluates].
  - destruct (log_line (Tm 124 4 17 9 5 3) 30 (bytes_of "?") (bytes_of "main.cpp")
      [PChars (Some (bytes_of "fd: ")); PString (replicate 2023 "x"%char); PInt 7 (bytes_of "7")])
      as (m & E & _ & Hm & _); [unfold tm_ok; simpl; lia| |unfold short; simpl; lia..|].
    + repeat apply Forall_cons_2; try apply Forall_nil_2; unfold piece_ok, short; simpl; lia.
    + exists m. split; [exact E|]. rewrite Hm. evaluates.
Defined.
