(* ===== verification/KQueue.v ===== *)
(** * epoll on top of kqueue (libco/co_epoll.cpp)

    The variant of co_epoll.cpp for systems without epoll: [clsFdMap], a table of
    1024 rows of 1024 pointers by descriptor, and [co_epoll_ctl], [co_epoll_del]
    and [co_epoll_wait], which keep one [kevent_pair_t] for the up to two
    filters of a descriptor.  The kernel's kqueue is a parameter: what [kevent]
    does with one change, and the filters that are registered. *)

From S2P Require Import Prelude.

Local Open Scope Z_scope.

(** ** The table of descriptors *)

Definition row_size : Z := 1024.
Definition col_size : Z := 1024.

Notation fdmap := (list (option (list ptr))).

(** [m_pp], whose rows are [NULL] at first. *)
Definition clsFdMap : fdmap := replicate 1024 None.

(** The row of a descriptor; [None] when there is none. *)
Definition fd_row (fd : Z) : option nat :=
  let idx := Z.quot fd row_size in
  guard (0 ≤ idx < 1024);; Some (Z.to_nat idx).

(** The column; a negative one is an access outside the row. *)
Definition fd_col (fd : Z) : option nat :=
  let col := Z.rem fd col_size in
  guard (0 ≤ col);; Some (Z.to_nat col).

(** [set]; the assertion fails for a descriptor without a row. *)
Definition fdmap_set (fd : Z) (p : ptr) (m : fdmap) : option fdmap :=
  idx ← fd_row fd;
  lp ← m !! idx;
  col ← fd_col fd;
  Some (<[idx := Some (<[col := p]> (default (replicate 1024 NULL) lp))]> m).

Definition fdmap_get (fd : Z) (m : fdmap) : option ptr :=
  match fd_row fd with
  | None => Some NULL
  | Some idx =>
      lp ← m !! idx;
      match lp with
      | None => Some NULL
      | Some lp => col ← fd_col fd; lp !! col
      end
  end.

Definition fdmap_clear (fd : Z) (m : fdmap) : option fdmap := fdmap_set fd NULL m.

(** ** Events *)

Definition EPOLLIN : Z := 1.
Definition EPOLLOUT : Z := 4.
Definition EPOLLERR : Z := 8.
Definition EPOLLHUP : Z := 16.
Definition EPOLL_CTL_ADD : Z := 1.
Definition EPOLL_CTL_DEL : Z := 2.
Definition EPOLL_CTL_MOD : Z := 3.
Definition ENOENT : Z := 2.
Definition EEXIST : Z := 17.

(** The events that [co_epoll_ctl] accepts. *)
Definition ctl_flags : Z := Z.lor (Z.lor (Z.lor EPOLLIN EPOLLOUT) EPOLLERR) EPOLLHUP.

Inductive kfilter := EVFILT_READ | EVFILT_WRITE.

#[global] Instance kfilter_eq_dec : EqDecision kfilter.
Proof. solve_decision. Defined.
#[global] Instance kfilter_countable : Countable kfilter.
Proof.
  refine (inj_countable' (λ f, if f is EVFILT_READ then true else false)
            (λ b : bool, if b then EVFILT_READ else EVFILT_WRITE) _).
  by intros [].
Defined.

(** A change of the filters; [udata] is the [kevent_pair_t]. *)
Inductive change :=
  | EV_ADD (ident : Z) (filter : kfilter) (udata : addr)
  | EV_DELETE (ident : Z) (filter : kfilter).

Definition flag (f : kfilter) : Z := match f with EVFILT_READ => EPOLLIN | EVFILT_WRITE => EPOLLOUT end.

Definition wants (f : kfilter) (events : Z) : bool := bool_decide (Z.land events (flag f) ≠ 0).

Record kevent_pair_t := Pair { fire_idx : Z; p_events : Z; p_u64 : Z }.
Record epoll_event := Event { ev_events : Z; ev_data : Z }.

(** [events] of a fresh [co_epoll_res]. *)
Definition co_epoll_res_alloc (n : nat) : list epoll_event := replicate n (Event 0 0).

(** ** Registration *)

Section ctl.
Context {K : Type} (kevent : change → K → Z * K).

(** [s_fd_map], the allocated pairs and the kernel. *)
Record kstate := KState { m_pp : fdmap; pairs : gmap addr kevent_pair_t; kq : K }.

Definition set_map (m : fdmap) (st : kstate) : kstate := KState m (pairs st) (kq st).
Definition set_pairs (ps : gmap addr kevent_pair_t) (st : kstate) : kstate := KState (m_pp st) ps (kq st).

(** [kevent] with one change: its result and the new state. *)
Definition kev (c : change) (st : kstate) : Z * kstate :=
  let '(r, k) := kevent c (kq st) in (r, KState (m_pp st) (pairs st) k).

(** A filter is deleted if it is among [events]; the result is [ret] otherwise. *)
Definition del_filter (fd events : Z) (f : kfilter) (ret : Z) (st : kstate) : Z * kstate :=
  if wants f events then kev (EV_DELETE fd f) st else (ret, st).

(** It is added if it is among [events] and nothing has failed. *)
Definition add_filter (fd events : Z) (f : kfilter) (p : addr) (r : Z * kstate) : Z * kstate :=
  let '(ret, st) := r in
  if wants f events then kev (EV_ADD fd f p) st else (ret, st).

(** The end of the life of a pair. *)
Definition drop_pair (fd : Z) (p : addr) (st : kstate) : option kstate :=
  m ← fdmap_clear fd (m_pp st); Some (KState m (delete p (pairs st)) (kq st)).

Definition co_epoll_del (fd : Z) (st : kstate) : option (Z * kstate) :=
  o ← fdmap_get fd (m_pp st);
  match o with
  | None => Some (0, st)
  | Some p =>
      pr ← pairs st !! p;
      let st := (del_filter fd (p_events pr) EVFILT_READ 0 st).2 in
      let st := (del_filter fd (p_events pr) EVFILT_WRITE 0 st).2 in
      st ← drop_pair fd p st;
      Some (0, st)
  end.

(** The [do] loop, which runs once. *)
Definition add_filters (fd events : Z) (p : addr) (ret : Z) (st : kstate) : Z * kstate :=
  let '(ret, st) := add_filter fd events EVFILT_READ p (ret, st) in
  if wants EVFILT_READ events && bool_decide (ret ≠ 0) then (ret, st)
  else add_filter fd events EVFILT_WRITE p (ret, st).

(** The result of [co_epoll_ctl], the [errno] that it sets itself, and the state;
    [mem] is what [calloc] returns. *)
Definition co_epoll_ctl (op fd events data : Z) (mem : addr) (st : kstate) : option (Z * option Z * kstate) :=
  if decide (op = EPOLL_CTL_DEL) then
    '(ret, st) ← co_epoll_del fd st; Some (ret, None, st)
  else if decide (Z.land events (Z.lnot ctl_flags) ≠ 0) then Some (-1, None, st)
  else
    o ← fdmap_get fd (m_pp st);
    if decide (op = EPOLL_CTL_ADD ∧ o ≠ NULL) then Some (-1, Some EEXIST, st)
    else if decide (op = EPOLL_CTL_MOD ∧ o = NULL) then Some (-1, Some ENOENT, st)
    else
      '(p, st) ← (match o with
                  | Some p => Some (p, st)
                  | None =>
                      m ← fdmap_set fd (Some mem) (m_pp st);
                      Some (mem, KState m (<[mem := Pair 0 0 0]> (pairs st)) (kq st))
                  end);
      pr ← pairs st !! p;
      let '(ret, st) :=
        if decide (op = EPOLL_CTL_MOD) then
          del_filter fd (p_events pr) EVFILT_WRITE 0 (del_filter fd (p_events pr) EVFILT_READ 0 st).2
        else (0, st) in
      let '(ret, st) := add_filters fd events p ret st in
      if decide (ret ≠ 0) then st ← drop_pair fd p st; Some (ret, None, st)
      else
        let st := set_pairs (<[p := Pair (fire_idx pr) events data]> (pairs st)) st in
        Some (ret, None, st).

(** Calls in sequence: operation, descriptor, events and data; [calloc] is the
    address of a new pair when the others are [ps]. *)
Fixpoint ctl_all (calloc : gmap addr kevent_pair_t → addr) (calls : list (Z * Z * Z * Z)) (st : kstate)
    : option (list (Z * option Z) * kstate) :=
  match calls with
  | [] => Some ([], st)
  | (op, fd, events, data) :: calls =>
      '(ret, e, st) ← co_epoll_ctl op fd events data (calloc (pairs st)) st;
      '(rs, st) ← ctl_all calloc calls st;
      Some ((ret, e) :: rs, st)
  end.
End ctl.
Arguments kstate : clear implicits.
Arguments KState {_} _ _ _.
Arguments m_pp {_} _.
Arguments pairs {_} _.
Arguments kq {_} _.

(** ** Waiting *)

(** The time that [kevent] waits, in seconds and nanoseconds; [None] is for ever. *)
Definition wait_time (timeout : Z) : option (Z * Z) :=
  if decide (timeout = -1) then None else Some (if decide (0 < timeout) then (timeout, 0) else (0, 0)).

(** The first loop, from event [i] on: [j] is the number of results so far, [evs]
    is [events->events]. *)
Fixpoint fire (i : nat) (kevs : list (kfilter * addr)) (j : Z) (ps : gmap addr kevent_pair_t)
    (evs : list epoll_event) : option (Z * gmap addr kevent_pair_t * list epoll_event) :=
  match kevs with
  | [] => Some (j, ps, evs)
  | (f, p) :: kevs =>
      pr ← ps !! p;
      let '(k, pr, evs, j) :=
        if decide (fire_idx pr = 0)
        then (i, Pair (Z.of_nat i + 1) (p_events pr) (p_u64 pr), <[i := Event 0 0]> evs, j + 1)
        else (Z.to_nat (fire_idx pr - 1), pr, evs, j) in
      ev ← evs !! k;
      fire (S i) kevs j (<[p := pr]> ps) (<[k := Event (Z.lor (ev_events ev) (flag f)) (p_u64 pr)]> evs)
  end.

(** The second loop. *)
Fixpoint unfire (kevs : list (kfilter * addr)) (ps : gmap addr kevent_pair_t) : option (gmap addr kevent_pair_t) :=
  match kevs with
  | [] => Some ps
  | (_, p) :: kevs =>
      pr ← ps !! p;
      unfire kevs (<[p := Pair 0 (p_events pr) (p_u64 pr)]> ps)
  end.

(** [kevs] is what [kevent] has stored in [events->eventlist], the filter and the
    [udata] of each event. *)
Definition co_epoll_wait (kevs : list (kfilter * addr)) (ps : gmap addr kevent_pair_t) (evs : list epoll_event)
    : option (Z * gmap addr kevent_pair_t * list epoll_event) :=
  '(j, ps, evs) ← fire 0 kevs 0 ps evs;
  ps ← unfire kevs ps;
  Some (j, ps, evs).

(** ** What epoll promises *)

(** The interest list: events and data of the registered descriptors. *)
Definition epoll_ctl (op fd events data : Z) (L : gmap Z (Z * Z)) : (Z * option Z) * gmap Z (Z * Z) :=
  if decide (op = EPOLL_CTL_DEL) then ((0, None), delete fd L)
  else if decide (Z.land events (Z.lnot ctl_flags) ≠ 0) then ((-1, None), L)
  else if decide (op = EPOLL_CTL_ADD ∧ is_Some (L !! fd)) then ((-1, Some EEXIST), L)
  else if decide (op = EPOLL_CTL_MOD ∧ L !! fd = None) then ((-1, Some ENOENT), L)
  else ((0, None), <[fd := (events, data)]> L).

Fixpoint epoll_all (calls : list (Z * Z * Z * Z)) (L : gmap Z (Z * Z)) : list (Z * option Z) * gmap Z (Z * Z) :=
  match calls with
  | [] => ([], L)
  | (op, fd, events, data) :: calls =>
      let '(r, L) := epoll_ctl op fd events data L in
      let '(rs, L) := epoll_all calls L in (r :: rs, L)
  end.

Definition valid_op (op : Z) : Prop := op = EPOLL_CTL_ADD ∨ op = EPOLL_CTL_DEL ∨ op = EPOLL_CTL_MOD.

(** Descriptors that have a place in the table. *)
Definition in_map (fd : Z) : Prop := 0 ≤ fd < 1024 * 1024.

Record fdmap_ok (m : fdmap) : Prop := {
  fm_rows : length m = 1024%nat;
  fm_cols : ∀ i lp, m !! i = Some (Some lp) → length lp = 1024%nat;
}.

(** The pointer of a descriptor. *)
Definition entry (m : fdmap) (fd : Z) : ptr := default NULL (fdmap_get fd m).

(** What a kernel does with a change, as kevent(2) documents it: an added filter is
    registered with its [udata] or refused, a deleted one is gone. *)
Class Kqueue (K : Type) (kevent : change → K → Z * K) := {
  registered : K → gmap (Z * kfilter) addr;
  kevent_add : ∀ fd f p k, let '(r, k') := kevent (EV_ADD fd f p) k in
    registered k' = if decide (r = 0) then <[(fd, f) := p]> (registered k) else registered k;
  kevent_delete : ∀ fd f k, let '(r, k') := kevent (EV_DELETE fd f) k in
    registered k' = delete (fd, f) (registered k) ∧
    (is_Some (registered k !! (fd, f)) → r = 0);
}.

(** What is left in the kernel when filter [f] of [fd] is refused: the first
    filter, if it was added, with the pair that is freed. *)
Definition left_behind (fd ev : Z) (f : kfilter) (p : addr) (D : gmap (Z * kfilter) addr) : gmap (Z * kfilter) addr :=
  match f with
  | EVFILT_READ => D
  | EVFILT_WRITE => if wants EVFILT_READ ev then <[(fd, EVFILT_READ) := p]> D else D
  end.

(** The wanted filters of [fd] replace what was left behind. *)
Definition replaced (fd ev : Z) (D : gmap (Z * kfilter) addr) : gmap (Z * kfilter) addr :=
  filter (λ e, ¬ (e.1.1 = fd ∧ wants e.1.2 ev = true)) D.

(** A call that adds filters. *)
Definition adds (op fd events : Z) (L : gmap Z (Z * Z)) : Prop :=
  op ≠ EPOLL_CTL_DEL ∧ (epoll_ctl op fd events 0 L).1 = (0, None).

(** What a call does to the interest list and to the filters that were left
    behind, and its result: what epoll does, unless the kernel refuses a filter;
    then the descriptor is no longer listed and the result is the kernel's. *)
Inductive ctl_step {K : Type} (kevent : change → K → Z * K) (op fd events data : Z) (D : gmap (Z * kfilter) addr)
    (L : gmap Z (Z * Z)) : Z * option Z → gmap (Z * kfilter) addr → gmap Z (Z * Z) → Prop :=
  | step_plain : ¬ adds op fd events L →
      ctl_step kevent op fd events data D L
        (epoll_ctl op fd events data L).1 D (epoll_ctl op fd events data L).2
  | step_taken : adds op fd events L →
      ctl_step kevent op fd events data D L
        (epoll_ctl op fd events data L).1 (replaced fd events D) (epoll_ctl op fd events data L).2
  | step_refused f p k ret : adds op fd events L → wants f events = true →
      (kevent (EV_ADD fd f p) k).1 = ret → ret ≠ 0 →
      ctl_step kevent op fd events data D L (ret, None) (left_behind fd events f p D) (delete fd L).

Inductive ctl_steps {K : Type} (kevent : change → K → Z * K) : list (Z * Z * Z * Z) →
    gmap (Z * kfilter) addr → gmap Z (Z * Z) →
    list (Z * option Z) → gmap (Z * kfilter) addr → gmap Z (Z * Z) → Prop :=
  | steps_nil D L : ctl_steps kevent [] D L [] D L
  | steps_cons op fd events data calls D L r D1 L1 rs D2 L2 :
      ctl_step kevent op fd events data D L r D1 L1 → ctl_steps kevent calls D1 L1 rs D2 L2 →
      ctl_steps kevent ((op, fd, events, data) :: calls) D L (r :: rs) D2 L2.

(** The state represents the interest list [L]; besides the filters that it asks
    for, the kernel has those of [D]. *)
Record kq_rep_with {K : Type} {kevent : change → K → Z * K} `{!Kqueue K kevent} (D : gmap (Z * kfilter) addr)
    (st : kstate K) (L : gmap Z (Z * Z)) : Prop := {
  kr_map : fdmap_ok (m_pp st);
  kr_range : ∀ fd, is_Some (L !! fd) → in_map fd;
  kr_pairs : ∀ fd, in_map fd → match L !! fd with
    | None => entry (m_pp st) fd = NULL
    | Some (ev, d) => ∃ p, entry (m_pp st) fd = Some p ∧ pairs st !! p = Some (Pair 0 ev d)
    end;
  kr_inj : ∀ fd g p, in_map fd → in_map g → entry (m_pp st) fd = Some p → entry (m_pp st) g = Some p → fd = g;
  kr_filters : ∀ fd f, registered (kq st) !! (fd, f) = match L !! fd with
    | Some (ev, _) => if wants f ev then entry (m_pp st) fd else D !! (fd, f)
    | None => D !! (fd, f)
    end;
  kr_left : ∀ fd f ev d, L !! fd = Some (ev, d) → wants f ev = true → D !! (fd, f) = None;
}.
Arguments kq_rep_with {_} _ {_} _ _ _.

(** The state represents [L], and the kernel has nothing else. *)
Definition kq_rep {K : Type} (kevent : change → K → Z * K) `{!Kqueue K kevent} (st : kstate K) (L : gmap Z (Z * Z)) : Prop :=
  kq_rep_with kevent ∅ st L.

(** ** What a wait should report *)

(** [p] is a pair between two waits. *)
Definition idle (ps : gmap addr kevent_pair_t) (p : addr) : Prop := ∃ pr, ps !! p = Some pr ∧ fire_idx pr = 0.

(** The events of [p]. *)
Definition fired (p : addr) (kevs : list (kfilter * addr)) : Z :=
  Z.lor (if decide ((EVFILT_READ, p) ∈ kevs) then EPOLLIN else 0)
        (if decide ((EVFILT_WRITE, p) ∈ kevs) then EPOLLOUT else 0).

(** [fire_idx] of [p] after the events [kevs]. *)
Definition idx_of (p : addr) (kevs : list (kfilter * addr)) : Z :=
  match list_find (λ k, k.2 = p) kevs with Some (i, _) => Z.of_nat i + 1 | None => 0 end.

(** The pairs between two events. *)
Definition mark (kevs : list (kfilter * addr)) (ps : gmap addr kevent_pair_t) : gmap addr kevent_pair_t :=
  map_imap (λ p pr, Some (if decide (p ∈ kevs.*2) then Pair (idx_of p kevs) (p_events pr) (p_u64 pr) else pr)) ps.

(** The events of [fd]. *)
Definition ready_bits (fd : Z) (ready : list (Z * kfilter)) : Z :=
  Z.lor (if decide ((fd, EVFILT_READ) ∈ ready) then EPOLLIN else 0)
        (if decide ((fd, EVFILT_WRITE) ∈ ready) then EPOLLOUT else 0).

(** Event [i] is the first one of its pair. *)
Definition first_at (kevs : list (kfilter * addr)) (i : nat) (p : addr) : Prop :=
  kevs.*2 !! i = Some p ∧ p ∉ take i (kevs.*2).

(** The array of events: an entry is written at the first event of each pair. *)
Definition report (ps : gmap addr kevent_pair_t) (kevs : list (kfilter * addr)) (evs : list epoll_event)
    : list epoll_event :=
  imap (λ i e, match kevs.*2 !! i with
    | Some p => if decide (p ∈ take i (kevs.*2)) then e
                else Event (fired p kevs) (from_option p_u64 0 (ps !! p))
    | None => e
    end) evs.

(** The number of pairs that have fired. *)
Definition count (kevs : list (kfilter * addr)) : Z := Z.of_nat (size (list_to_set kevs.*2 : gset Z)).

(** What [kevent] stores for the filters that are ready: their [udata]. *)
Definition reports {K : Type} `{!Kqueue K kevent} (k : K) (ready : list (Z * kfilter)) (kevs : list (kfilter * addr)) : Prop :=
  Forall2 (λ r e, r.2 = e.1 ∧ registered k !! r = Some e.2) ready kevs.

(** A kernel that accepts everything. *)
Definition demo_kernel (c : change) (k : gmap (Z * kfilter) addr) : Z * gmap (Z * kfilter) addr :=
  match c with
  | EV_ADD fd f p => (0, <[(fd, f) := p]> k)
  | EV_DELETE fd f => (if decide (is_Some (k !! (fd, f))) then 0 else -1, delete (fd, f) k)
  end.

#[global, program] Instance demo_kqueue : Kqueue (gmap (Z * kfilter) addr) demo_kernel := {
  registered := id;
}.
Next Obligation. done. Qed.
Next Obligation. intros fd f k. simpl. split; [done|]. intros ?. by rewrite decide_True. Qed.

(** One that takes no [EVFILT_WRITE]. *)
Definition demo_read_kernel (c : change) (k : gmap (Z * kfilter) addr) : Z * gmap (Z * kfilter) addr :=
  match c with
  | EV_ADD _ EVFILT_WRITE _ => (-1, k)
  | _ => demo_kernel c k
  end.

#[global, program] Instance demo_read_kqueue : Kqueue (gmap (Z * kfilter) addr) demo_read_kernel := {
  registered := id;
}.
Next Obligation. by intros fd [] p k. Qed.
Next Obligation. intros fd f k. simpl. split; [done|]. intros ?. by rewrite decide_True. Qed.

Definition demo_calloc (ps : gmap addr kevent_pair_t) : addr := fresh (dom ps : gset addr).

Definition demo_start : kstate (gmap (Z * kfilter) addr) := KState clsFdMap ∅ ∅.
Definition demo_calls : list (Z * Z * Z * Z) :=
  [(EPOLL_CTL_ADD, 5, 5, 50); (EPOLL_CTL_ADD, 2000, 1, 60); (EPOLL_CTL_ADD, 5, 1, 51);
   (EPOLL_CTL_MOD, 2000, 4, 61); (EPOLL_CTL_ADD, 7, 64, 70); (EPOLL_CTL_MOD, 7, 1, 70);
   (EPOLL_CTL_DEL, 5, 0, 0)].

(** The state after these calls with another descriptor. *)
Definition demo_more : list (Z * Z * Z * Z) := demo_calls ++ [(EPOLL_CTL_ADD, 9, 5, 90)].
Definition demo_state : kstate (gmap (Z * kfilter) addr) :=
  from_option snd demo_start (ctl_all demo_kernel demo_calloc demo_more demo_start).

(** Both filters of a descriptor are ready, then one of another. *)
Definition demo_ready : list (Z * kfilter) := [(9, EVFILT_READ); (9, EVFILT_WRITE); (2000, EVFILT_WRITE)].
Definition demo_kevs : list (kfilter * addr) :=
  (λ r, (r.2, default 0 (registered (kq demo_state) !! r))) <$> demo_ready.
Definition demo_evs : list epoll_event := co_epoll_res_alloc 3.

(** ** The table *)

Lemma in_map_place fd : in_map fd → ∃ r c, fd_row fd = Some r ∧ fd_col fd = Some c ∧
  (r < 1024)%nat ∧ (c < 1024)%nat ∧ fd = 1024 * Z.of_nat r + Z.of_nat c.
Proof.
  intros Hfd. unfold in_map in Hfd. exists (Z.to_nat (fd / 1024)), (Z.to_nat (fd mod 1024)).
  pose proof (Z.div_mod fd 1024). pose proof (Z.mod_pos_bound fd 1024).
  unfold fd_row, fd_col, row_size, col_size. rewrite Z.quot_div_nonneg, Z.rem_mod_nonneg by lia.
  rewrite !option_guard_True by lia. repeat split; lia.
Qed.

Lemma fdmap_get_entry fd m : in_map fd → fdmap_ok m → fdmap_get fd m = Some (entry m fd).
Proof.
  intros (r & c & Hr & Hc & Hr' & Hc' & _)%in_map_place [Hrows Hcols].
  unfold entry, fdmap_get. rewrite Hr. destruct (lookup_lt_is_Some_2 m r) as [[lp|] Hlp]; [lia| |];
    rewrite Hlp; cbn [mbind option_bind]; [|done].
  rewrite Hc. cbn [mbind option_bind]. apply Hcols in Hlp.
  destruct (lookup_lt_is_Some_2 lp c) as [o Ho]; [lia|]. by rewrite Ho.
Qed.

Lemma fdmap_set_spec fd p m : in_map fd → fdmap_ok m → ∃ m', fdmap_set fd p m = Some m' ∧ fdmap_ok m' ∧
  ∀ g, in_map g → entry m' g = if decide (g = fd) then p else entry m g.
Proof.
  intros (r & c & Hr & Hc & Hr' & Hc' & Hfd)%in_map_place [Hrows Hcols].
  destruct (lookup_lt_is_Some_2 m r) as [lp Hlp]; [lia|].
  assert (length (default (replicate 1024 NULL) lp) = 1024%nat) as Hlen.
  { destruct lp as [lp|]; [by eapply Hcols|exact (length_replicate 1024 NULL)]. }
  unfold fdmap_set. rewrite Hr. cbn [mbind option_bind]. rewrite Hlp. cbn [mbind option_bind].
  rewrite Hc. cbn [mbind option_bind]. eexists. split; [done|]. split.
  - split; [by rewrite length_insert|]. intros i l. rewrite list_lookup_insert.
    case_decide as Hi; [|by eauto]. intros [= <-]. by rewrite length_insert.
  - intros g (r2 & c2 & Hr2 & Hc2 & Hr2' & Hc2' & Hg)%in_map_place.
    unfold entry, fdmap_get. rewrite Hr2, Hc2. rewrite list_lookup_insert.
    destruct (decide (r = r2 ∧ (r < length m)%nat)) as [[<- _]|Hne].
    + cbn [mbind option_bind]. rewrite list_lookup_insert, Hlp. cbn [mbind option_bind].
      rewrite Hlen. destruct (decide (c = c2 ∧ (c < 1024)%nat)) as [[<- _]|Hc3].
      * by rewrite decide_True by lia.
      * rewrite decide_False by lia. destruct lp as [lp|]; [done|].
        change (default NULL (replicate 1024 NULL !! c2) = NULL). by rewrite lookup_replicate_2.
    + by rewrite decide_False by lia.
Qed.

(** ** Registration *)

Section refinement.
Context {K : Type} {kevent : change → K → Z * K} `{!Kqueue K kevent}.
Implicit Types (st : kstate K) (L : gmap Z (Z * Z)).

(** What the filters of a descriptor become. *)
Notation same_tables st st' := (m_pp st' = m_pp st ∧ pairs st' = pairs st).

Lemma add_lookup (fd ev : Z) (p : addr) (m : gmap (Z * kfilter) addr) (g : Z) (f : kfilter) :
  (let m1 := if wants EVFILT_READ ev then <[(fd, EVFILT_READ) := p]> m else m in
   if wants EVFILT_WRITE ev then <[(fd, EVFILT_WRITE) := p]> m1 else m1 : gmap (Z * kfilter) addr) !! (g, f) =
  if decide (g = fd ∧ wants f ev = true) then Some p else m !! (g, f).
Proof.
  cbv zeta. destruct (decide (g = fd)) as [->|Hg].
  - destruct f, (wants EVFILT_READ ev) eqn:E1, (wants EVFILT_WRITE ev) eqn:E2;
      repeat (rewrite lookup_insert_eq || rewrite lookup_insert_ne by done);
      first [rewrite decide_True by done|rewrite decide_False by naive_solver]; done.
  - rewrite decide_False by naive_solver.
    destruct (wants EVFILT_READ ev), (wants EVFILT_WRITE ev);
      repeat rewrite lookup_insert_ne by congruence; done.
Qed.

Lemma del_filter_spec fd ev f ret st :
  let '(r, st') := del_filter kevent fd ev f ret st in
  same_tables st st' ∧
  registered (kq st') = (if wants f ev then delete (fd, f) (registered (kq st)) else registered (kq st)) ∧
  (ret = 0 → (wants f ev = true → is_Some (registered (kq st) !! (fd, f))) → r = 0).
Proof.
  unfold del_filter, kev. destruct (wants f ev); [|done].
  pose proof (kevent_delete fd f (kq st)) as Hk. destruct (kevent _ _) as [r k]. simpl. naive_solver.
Qed.

Lemma add_filter_spec fd ev f p ret st :
  let '(r, st') := add_filter kevent fd ev f p (ret, st) in
  same_tables st st' ∧
  if wants f ev
  then r = (kevent (EV_ADD fd f p) (kq st)).1 ∧
    registered (kq st') = (if decide (r = 0) then <[(fd, f) := p]> (registered (kq st)) else registered (kq st))
  else r = ret ∧ registered (kq st') = registered (kq st).
Proof.
  unfold add_filter, kev. destruct (wants f ev); [|done].
  pose proof (kevent_add fd f p (kq st)) as Hk. destruct (kevent _ _) as [r k]. done.
Qed.

(** Both filters are added, or the kernel refuses one of them. *)
Lemma add_filters_spec fd ev p st :
  let '(r, st') := add_filters kevent fd ev p 0 st in
  same_tables st st' ∧
  ((r = 0 ∧ ∀ g f, registered (kq st') !! (g, f) =
      if decide (g = fd ∧ wants f ev = true) then Some p else registered (kq st) !! (g, f)) ∨
   (r ≠ 0 ∧ ∃ f k, wants f ev = true ∧ (kevent (EV_ADD fd f p) k).1 = r ∧
      registered (kq st') = left_behind fd ev f p (registered (kq st)))).
Proof.
  unfold add_filters.
  pose proof (add_filter_spec fd ev EVFILT_READ p 0 st) as H1.
  destruct (add_filter _ _ _ _ _ _) as [r1 st1]. destruct H1 as ((Hm1 & Hp1) & Hk1).
  destruct (wants EVFILT_READ ev && bool_decide (r1 ≠ 0)) eqn:Hbreak.
  { apply andb_true_iff in Hbreak as [Hw Hr%bool_decide_eq_true_1]. rewrite Hw in Hk1.
    destruct Hk1 as [Hr1 Hk1]. rewrite decide_False in Hk1 by done. split; [done|]. right.
    split; [done|]. by exists EVFILT_READ, (kq st). }
  pose proof (add_filter_spec fd ev EVFILT_WRITE p r1 st1) as H2.
  destruct (add_filter _ _ _ _ _ _) as [r2 st2]. destruct H2 as ((Hm2 & Hp2) & Hk2).
  split; [by rewrite Hm2, Hp2|].
  assert (r1 = 0 ∧ registered (kq st1) =
    (if wants EVFILT_READ ev then <[(fd, EVFILT_READ) := p]> (registered (kq st)) else registered (kq st))) as [-> Hst1].
  { destruct (wants EVFILT_READ ev); [|done]. destruct Hk1 as [_ Hk1].
    apply bool_decide_eq_false_1, dec_stable in Hbreak. by rewrite decide_True in Hk1. }
  destruct (wants EVFILT_WRITE ev) eqn:Hw; destruct Hk2 as [Hr2 Hk2].
  - destruct (decide (r2 = 0)) as [->|Hne].
    + left. split; [done|]. intros g f. rewrite Hk2, Hst1. rewrite <-add_lookup. by rewrite Hw.
    + right. split; [done|]. exists EVFILT_WRITE, (kq st1). unfold left_behind. by rewrite Hk2, Hst1.
  - left. split; [done|]. intros g f. rewrite Hk2, Hst1. rewrite <-add_lookup. by rewrite Hw.
Qed.

(** The filters that [co_epoll_del] and a modification take away. *)
Lemma del_filters_spec fd ev st :
  (∀ f, wants f ev = true → is_Some (registered (kq st) !! (fd, f))) →
  let '(r, st') := del_filter kevent fd ev EVFILT_WRITE 0 (del_filter kevent fd ev EVFILT_READ 0 st).2 in
  same_tables st st' ∧ r = 0 ∧
  ∀ g f, registered (kq st') !! (g, f) =
    if decide (g = fd ∧ wants f ev = true) then None else registered (kq st) !! (g, f).
Proof.
  intros Hreg. pose proof (del_filter_spec fd ev EVFILT_READ 0 st) as H1.
  destruct (del_filter _ _ _ _ _ _) as [r1 st1]. destruct H1 as ((Hm1 & Hp1) & Hk1 & _). cbn [snd].
  pose proof (del_filter_spec fd ev EVFILT_WRITE 0 st1) as H2.
  destruct (del_filter _ _ _ _ _ _) as [r2 st2]. destruct H2 as ((Hm2 & Hp2) & Hk2 & Hr2).
  split; [by rewrite Hm2, Hp2|]. split.
  - apply Hr2; [done|]. intros Hw. rewrite Hk1.
    destruct (wants EVFILT_READ ev); [rewrite lookup_delete_ne by done|]; by apply Hreg.
  - intros g f. rewrite Hk2, Hk1. destruct (decide (g = fd)) as [->|Hg].
    + destruct f, (wants EVFILT_READ ev) eqn:E1, (wants EVFILT_WRITE ev) eqn:E2;
        repeat (rewrite lookup_delete_eq || rewrite lookup_delete_ne by done);
        first [rewrite decide_True by done|rewrite decide_False by naive_solver]; done.
    + rewrite decide_False by naive_solver.
      destruct (wants EVFILT_READ ev), (wants EVFILT_WRITE ev);
        repeat rewrite lookup_delete_ne by congruence; done.
Qed.

(** Away from [fd] the filters that were left behind stay. *)
Notation same_but D D' fd := (∀ g f, g ≠ fd → D' !! (g, f) = D !! (g, f)).

Lemma kq_rep_insert D D' st st' L fd ev d p :
  kq_rep_with kevent D st L → in_map fd → fdmap_ok (m_pp st') →
  (∀ g, in_map g → entry (m_pp st') g = if decide (g = fd) then Some p else entry (m_pp st) g) →
  (∀ g, in_map g → entry (m_pp st) g = Some p → g = fd) →
  (∀ q, pairs st' !! q = if decide (q = p) then Some (Pair 0 ev d) else pairs st !! q) →
  same_but D D' fd → (∀ f, wants f ev = true → D' !! (fd, f) = None) →
  (∀ g f, registered (kq st') !! (g, f) =
    if decide (g = fd) then (if wants f ev then Some p else D' !! (g, f)) else registered (kq st) !! (g, f)) →
  kq_rep_with kevent D' st' (<[fd := (ev, d)]> L).
Proof.
  intros [Hok Hrange Hpairs Hinj Hfil Hleft] Hfd Hok' Hent Hp Hps HD HDf Hreg. split.
  - done.
  - intros g [->|[_ ?]]%lookup_insert_is_Some; [done|by apply Hrange].
  - intros g Hg. rewrite Hent by done. destruct (decide (g = fd)) as [->|Hne].
    + rewrite lookup_insert_eq. exists p. by rewrite Hps, decide_True.
    + rewrite lookup_insert_ne by done. specialize (Hpairs g Hg).
      destruct (L !! g) as [[e c]|]; [|done]. destruct Hpairs as (q & Hq & Hqp). exists q. split; [done|].
      rewrite Hps, decide_False; [done|]. intros ->. by apply Hne, Hp.
  - intros g1 g2 q Hg1 Hg2. rewrite !Hent by done.
    destruct (decide (g1 = fd)) as [->|], (decide (g2 = fd)) as [->|]; intros; simplify_eq; [done| | |by eauto].
    + symmetry. by apply Hp.
    + by apply Hp.
  - intros g f. rewrite Hreg. destruct (decide (g = fd)) as [->|Hne].
    + rewrite lookup_insert_eq. by rewrite Hent, decide_True.
    + rewrite lookup_insert_ne, Hfil, HD by done. destruct (L !! g) as [[e c]|] eqn:E; [|done].
      rewrite Hent, decide_False by (try apply Hrange; by rewrite ?E). done.
  - intros g f e c. destruct (decide (g = fd)) as [->|Hne].
    + rewrite lookup_insert_eq. intros [= <- <-]. apply HDf.
    + rewrite lookup_insert_ne, HD by done. apply Hleft.
Qed.

Lemma kq_rep_delete D D' st st' L fd :
  kq_rep_with kevent D st L → in_map fd → fdmap_ok (m_pp st') →
  (∀ g, in_map g → entry (m_pp st') g = if decide (g = fd) then NULL else entry (m_pp st) g) →
  (∀ g p, in_map g → g ≠ fd → entry (m_pp st) g = Some p → pairs st' !! p = pairs st !! p) →
  same_but D D' fd →
  (∀ g f, registered (kq st') !! (g, f) =
    if decide (g = fd) then D' !! (g, f) else registered (kq st) !! (g, f)) →
  kq_rep_with kevent D' st' (delete fd L).
Proof.
  intros [Hok Hrange Hpairs Hinj Hfil Hleft] Hfd Hok' Hent Hps HD Hreg. split.
  - done.
  - intros g [_ ?]%lookup_delete_is_Some. by apply Hrange.
  - intros g Hg. rewrite Hent by done. destruct (decide (g = fd)) as [->|Hne].
    + by rewrite lookup_delete_eq.
    + rewrite lookup_delete_ne by done. specialize (Hpairs g Hg).
      destruct (L !! g) as [[e c]|]; [|done]. destruct Hpairs as (q & Hq & Hqp). exists q. split; [done|].
      by rewrite (Hps g).
  - intros g1 g2 q Hg1 Hg2. rewrite !Hent by done. repeat case_decide; naive_solver.
  - intros g f. rewrite Hreg. destruct (decide (g = fd)) as [->|Hne].
    + by rewrite lookup_delete_eq.
    + rewrite lookup_delete_ne, Hfil, HD by done. destruct (L !! g) as [[e c]|] eqn:E; [|done].
      rewrite Hent, decide_False by (try apply Hrange; by rewrite ?E). done.
  - intros g f e c. destruct (decide (g = fd)) as [->|Hne].
    + by rewrite lookup_delete_eq.
    + rewrite lookup_delete_ne, HD by done. apply Hleft.
Qed.

(** A registered descriptor has its pair and its filters. *)
Lemma kq_rep_Some D st L fd ev d : kq_rep_with kevent D st L → L !! fd = Some (ev, d) →
  ∃ p, entry (m_pp st) fd = Some p ∧ pairs st !! p = Some (Pair 0 ev d) ∧
  ∀ f, registered (kq st) !! (fd, f) = if wants f ev then Some p else D !! (fd, f).
Proof.
  intros [Hok Hrange Hpairs Hinj Hfil _] HL. assert (in_map fd) as Hfd by (apply Hrange; by rewrite HL).
  specialize (Hpairs fd Hfd). rewrite HL in Hpairs. destruct Hpairs as (p & Hp & Hpp).
  exists p. split; [done|]. split; [done|]. intros f. by rewrite Hfil, HL, Hp.
Qed.

Lemma kq_rep_None D st L fd : kq_rep_with kevent D st L → in_map fd → L !! fd = None →
  entry (m_pp st) fd = NULL ∧ ∀ f, registered (kq st) !! (fd, f) = D !! (fd, f).
Proof.
  intros [Hok Hrange Hpairs Hinj Hfil _] Hfd HL. specialize (Hpairs fd Hfd). rewrite HL in Hpairs.
  split; [done|]. intros f. by rewrite Hfil, HL.
Qed.

Lemma kq_rep_fresh D st L g p : kq_rep_with kevent D st L → in_map g → pairs st !! p = None →
  entry (m_pp st) g ≠ Some p.
Proof.
  intros Hrep Hg Hp Hgp. destruct (L !! g) as [[e c]|] eqn:E.
  - destruct (kq_rep_Some _ _ _ _ _ _ Hrep E) as (q & ? & ? & _). by simplify_eq.
  - destruct (kq_rep_None _ _ _ _ Hrep Hg E) as (? & _). by simplify_eq.
Qed.

Lemma co_epoll_del_spec D st L fd : kq_rep_with kevent D st L → in_map fd →
  ∃ st', co_epoll_del kevent fd st = Some (0, st') ∧ kq_rep_with kevent D st' (delete fd L).
Proof.
  intros Hrep Hfd. pose proof (kr_map _ _ _ Hrep) as Hok. unfold co_epoll_del.
  rewrite fdmap_get_entry by done. cbn [mbind option_bind].
  destruct (L !! fd) as [[ev d]|] eqn:HL.
  - destruct (kq_rep_Some _ _ _ _ _ _ Hrep HL) as (p & Hp & Hpp & Hreg). rewrite Hp, Hpp.
    cbn [mbind option_bind p_events].
    pose proof (del_filters_spec fd ev st) as Hd.
    destruct (del_filter kevent fd ev EVFILT_WRITE 0 _) as [r st2].
    destruct Hd as ((Hm & Hps) & _ & Hk). { intros f Hw. rewrite Hreg, Hw. by eexists. }
    cbn [snd]. unfold drop_pair, fdmap_clear. rewrite Hm.
    destruct (fdmap_set_spec fd NULL (m_pp st)) as (m' & Hset & Hok' & Hent); [done..|].
    rewrite Hset. cbn [mbind option_bind]. eexists. split; [done|].
    apply (kq_rep_delete D D st); simpl; [done..| |done|].
    + intros g q Hg Hne Hq. rewrite Hps, lookup_delete_ne; [done|]. intros <-. apply Hne.
      by apply (kr_inj _ _ _ Hrep) with p.
    + intros g f. rewrite Hk. destruct (decide (g = fd)) as [->|]; [|by rewrite decide_False by naive_solver].
      case_decide as Hw; [symmetry; eapply (kr_left _ _ _ Hrep); [done|by destruct Hw]|].
      rewrite Hreg. destruct (wants f ev); [naive_solver|done].
  - destruct (kq_rep_None _ _ _ _ Hrep Hfd HL) as (Hp & _). rewrite Hp. eexists. split; [done|].
    by rewrite delete_id.
Qed.

Lemma lookup_replaced fd ev D g f :
  replaced fd ev D !! (g, f) = if decide (g = fd ∧ wants f ev = true) then None else D !! (g, f).
Proof.
  unfold replaced. case_decide as Hw.
  - apply map_lookup_filter_None. right. intros a _ Hn. by apply Hn.
  - rewrite map_lookup_filter. destruct (D !! (g, f)); [|done]. cbn [mbind option_bind].
    by rewrite option_guard_True.
Qed.

Lemma left_behind_same fd ev f p D : same_but D (left_behind fd ev f p D) fd.
Proof.
  intros g h Hne. destruct f; [done|]. unfold left_behind. destruct (wants _ ev); [|done].
  rewrite lookup_insert_ne; congruence.
Qed.

Lemma left_behind_lookup fd ev f p D D' h :
  D' !! (fd, h) = D !! (fd, h) → left_behind fd ev f p D' !! (fd, h) = left_behind fd ev f p D !! (fd, h).
Proof.
  intros Hh. destruct f; [done|]. unfold left_behind. destruct (wants _ ev); [|done].
  destruct h; [by rewrite !lookup_insert_eq|by rewrite !lookup_insert_ne].
Qed.

(** The end of [co_epoll_ctl], when [fd] has the pair [p] and the filters of its
    old events are gone. *)
Lemma ctl_end_spec D st st1 L fd ev d p pr :
  kq_rep_with kevent D st L → in_map fd → fdmap_ok (m_pp st1) →
  (∀ g, in_map g → entry (m_pp st1) g = if decide (g = fd) then Some p else entry (m_pp st) g) →
  (∀ g, in_map g → entry (m_pp st) g = Some p → g = fd) →
  (∀ q, q ≠ p → pairs st1 !! q = pairs st !! q) → fire_idx pr = 0 →
  (∀ g f, registered (kq st1) !! (g, f) = if decide (g = fd) then D !! (g, f) else registered (kq st) !! (g, f)) →
  ∃ (res : Z * option Z) st' D' L',
    (let '(ret, st) := add_filters kevent fd ev p 0 st1 in
     if decide (ret ≠ 0) then st ← drop_pair fd p st; Some (ret, None, st)
     else
       let st := set_pairs (<[p := Pair (fire_idx pr) ev d]> (pairs st)) st in
       Some (ret, None, st)) = Some (res, st') ∧ kq_rep_with kevent D' st' L' ∧
    ((res = (0, None) ∧ D' = replaced fd ev D ∧ L' = <[fd := (ev, d)]> L) ∨
     ∃ f k ret, wants f ev = true ∧ (kevent (EV_ADD fd f p) k).1 = ret ∧ ret ≠ 0 ∧
       res = (ret, None) ∧ D' = left_behind fd ev f p D ∧ L' = delete fd L).
Proof.
  intros Hrep Hfd Hok Hent Hp Hps Hidx Hreg.
  pose proof (add_filters_spec fd ev p st1) as Ha. destruct (add_filters _ _ _ _ _ _) as [r st2].
  destruct Ha as ((Hm & Hpp) & [[-> Hk]|(Hr & f & k & Hw & Hkv & Hk)]).
  - rewrite decide_False by naive_solver. eexists _, _, _, _. split; [done|]. split; [|by left].
    apply (kq_rep_insert D _ st _ _ _ _ _ p); cbn [set_pairs m_pp pairs kq]; rewrite ?Hm; [done..| | | |].
    + intros q. rewrite Hidx, Hpp. destruct (decide (q = p)) as [->|];
        [by rewrite lookup_insert_eq|by rewrite lookup_insert_ne, Hps].
    + intros g f Hne. by rewrite lookup_replaced, decide_False by naive_solver.
    + intros f Hw. by rewrite lookup_replaced, decide_True.
    + intros g f. rewrite Hk, Hreg, lookup_replaced.
      destruct (decide (g = fd)) as [->|]; [|by rewrite decide_False by naive_solver].
      destruct (wants f ev); [by rewrite decide_True|by rewrite !decide_False by naive_solver].
  - rewrite decide_True by done. unfold drop_pair, fdmap_clear. rewrite Hm.
    destruct (fdmap_set_spec fd NULL (m_pp st1)) as (m' & Hset & Hok' & Hent'); [done..|].
    rewrite Hset. cbn [mbind option_bind]. eexists _, _, _, _. split; [done|].
    split; [|right; by exists f, k, r].
    apply (kq_rep_delete D _ st); cbn [m_pp pairs kq]; [done..| | | |].
    + intros g Hg. rewrite Hent', Hent by done. by case_decide.
    + intros g q Hg Hne Hq. assert (q ≠ p) by (intros ->; by apply Hne, Hp).
      by rewrite lookup_delete_ne, Hpp, Hps.
    + apply left_behind_same.
    + intros g h. rewrite Hk. destruct (decide (g = fd)) as [->|Hne].
      * apply left_behind_lookup. by rewrite Hreg, decide_True.
      * by rewrite left_behind_same, Hreg, decide_False.
Qed.

Lemma ctl_add_spec D st L fd ev d mem :
  kq_rep_with kevent D st L → in_map fd → Z.land ev (Z.lnot ctl_flags) = 0 → L !! fd = None → pairs st !! mem = None →
  ∃ res st' D' L', co_epoll_ctl kevent EPOLL_CTL_ADD fd ev d mem st = Some (res, st') ∧
    ctl_step kevent EPOLL_CTL_ADD fd ev d D L res D' L' ∧ kq_rep_with kevent D' st' L'.
Proof.
  intros Hrep Hfd Hev HL Hmem. pose proof (kr_map _ _ _ Hrep) as Hok.
  assert (∀ d, epoll_ctl EPOLL_CTL_ADD fd ev d L = ((0, None), <[fd := (ev, d)]> L)) as Hepoll.
  { intros d'. unfold epoll_ctl. rewrite decide_False by done. rewrite decide_False by congruence.
    rewrite decide_False by (rewrite HL; intros [_ [? ?]]; done). by rewrite decide_False by (intros [? _]; done). }
  assert (adds EPOLL_CTL_ADD fd ev L) as Hadds by (split; [done|by rewrite Hepoll]).
  destruct (kq_rep_None _ _ _ _ Hrep Hfd HL) as (Hnone & Hreg).
  unfold co_epoll_ctl. rewrite decide_False by done. rewrite decide_False by congruence.
  rewrite fdmap_get_entry by done. cbn [mbind option_bind].
  rewrite Hnone. rewrite decide_False by naive_solver. rewrite decide_False by (intros [? _]; done).
  destruct (fdmap_set_spec fd (Some mem) (m_pp st)) as (m' & Hset & Hok' & Hent); [done..|].
  rewrite Hset. cbn [mbind option_bind pairs]. rewrite lookup_insert_eq. cbn [mbind option_bind].
  rewrite decide_False by done.
  destruct (ctl_end_spec D st (KState m' (<[mem:=Pair 0 0 0]> (pairs st)) (kq st)) L fd ev d mem (Pair 0 0 0))
    as (res & st' & D' & L' & Hend & Hrep' & Hout); cbn [m_pp pairs kq]; [done..| | |done| |].
  { intros g Hg Hgp. by destruct (kq_rep_fresh _ _ _ g mem Hrep Hg Hmem). }
  { intros q Hq. by rewrite lookup_insert_ne. }
  { intros g f. case_decide; [by subst|done]. }
  exists res, st', D', L'. split; [exact Hend|]. split; [|done].
  destruct Hout as [(-> & -> & ->)|(f & k & ret & Hw & Hkv & Hne & -> & -> & ->)].
  - pose proof (step_taken kevent EPOLL_CTL_ADD fd ev d D L Hadds) as Hs. by rewrite Hepoll in Hs.
  - by apply (step_refused kevent EPOLL_CTL_ADD fd ev d D L f mem k).
Qed.

Lemma ctl_mod_spec D st L fd ev d ev0 d0 mem :
  kq_rep_with kevent D st L → Z.land ev (Z.lnot ctl_flags) = 0 → L !! fd = Some (ev0, d0) →
  ∃ res st' D' L', co_epoll_ctl kevent EPOLL_CTL_MOD fd ev d mem st = Some (res, st') ∧
    ctl_step kevent EPOLL_CTL_MOD fd ev d D L res D' L' ∧ kq_rep_with kevent D' st' L'.
Proof.
  intros Hrep Hev HL. pose proof (kr_map _ _ _ Hrep) as Hok.
  assert (∀ d, epoll_ctl EPOLL_CTL_MOD fd ev d L = ((0, None), <[fd := (ev, d)]> L)) as Hepoll.
  { intros d'. unfold epoll_ctl. rewrite decide_False by done. rewrite decide_False by congruence.
    rewrite decide_False by (intros [? _]; done). by rewrite decide_False by (rewrite HL; naive_solver). }
  assert (adds EPOLL_CTL_MOD fd ev L) as Hadds by (split; [done|by rewrite Hepoll]).
  assert (in_map fd) as Hfd by (apply (kr_range _ _ _ Hrep); by rewrite HL).
  destruct (kq_rep_Some _ _ _ _ _ _ Hrep HL) as (p & Hp & Hpp & Hreg).
  unfold co_epoll_ctl. rewrite decide_False by done. rewrite decide_False by congruence.
  rewrite fdmap_get_entry by done. cbn [mbind option_bind].
  rewrite Hp. rewrite decide_False by (intros [? _]; done). rewrite decide_False by naive_solver.
  cbn [mbind option_bind]. rewrite Hpp. cbn [mbind option_bind p_events fire_idx].
  rewrite decide_True by done. pose proof (del_filters_spec fd ev0 st) as Hd.
  destruct (del_filter kevent fd ev0 EVFILT_WRITE 0 _) as [r st1].
  destruct Hd as ((Hm1 & Hps1) & -> & Hk1). { intros f Hw. rewrite Hreg, Hw. by eexists. }
  destruct (ctl_end_spec D st st1 L fd ev d p (Pair 0 ev0 d0))
    as (res & st' & D' & L' & Hend & Hrep' & Hout); rewrite ?Hm1, ?Hps1; [done..| | |done|done| |].
  { intros g Hg. case_decide; by subst. }
  { intros g Hg Hgp. by apply (kr_inj _ _ _ Hrep) with p. }
  { intros g f. rewrite Hk1. destruct (decide (g = fd)) as [->|]; [|by rewrite decide_False by naive_solver].
    case_decide as Hw; [symmetry; eapply (kr_left _ _ _ Hrep); [done|by destruct Hw]|].
    rewrite Hreg. destruct (wants f ev0); [naive_solver|done]. }
  exists res, st', D', L'. split; [exact Hend|]. split; [|done].
  destruct Hout as [(-> & -> & ->)|(f & k & ret & Hw & Hkv & Hne & -> & -> & ->)].
  - pose proof (step_taken kevent EPOLL_CTL_MOD fd ev d D L Hadds) as Hs. by rewrite Hepoll in Hs.
  - by apply (step_refused kevent EPOLL_CTL_MOD fd ev d D L f p k).
Qed.

(** Every call does what epoll promises, or what [ctl_step] says of a refusal. *)
Lemma co_epoll_ctl_refines D op fd ev d mem st L :
  kq_rep_with kevent D st L → valid_op op → in_map fd → pairs st !! mem = None →
  ∃ res st' D' L', co_epoll_ctl kevent op fd ev d mem st = Some (res, st') ∧
    ctl_step kevent op fd ev d D L res D' L' ∧ kq_rep_with kevent D' st' L'.
Proof.
  intros Hrep Hop Hfd Hmem. pose proof (kr_map _ _ _ Hrep) as Hok.
  assert (∀ st', ¬ adds op fd ev L →
    co_epoll_ctl kevent op fd ev d mem st = Some ((epoll_ctl op fd ev d L).1, st') →
    kq_rep_with kevent D st' (epoll_ctl op fd ev d L).2 →
    ∃ res st' D' L', co_epoll_ctl kevent op fd ev d mem st = Some (res, st') ∧
      ctl_step kevent op fd ev d D L res D' L' ∧ kq_rep_with kevent D' st' L') as Hplain.
  { intros st' Hna Hc Hr. eexists _, st', _, _. split; [exact Hc|]. split; [by apply step_plain|done]. }
  unfold adds, epoll_ctl in Hplain.
  destruct (decide (op = EPOLL_CTL_DEL)) as [->|Hdel].
  { destruct (co_epoll_del_spec _ _ _ _ Hrep Hfd) as (st' & Hd & Hrep').
    apply (Hplain st'); [naive_solver| |done].
    unfold co_epoll_ctl. rewrite decide_True by done. by rewrite Hd. }
  destruct (decide (Z.land ev (Z.lnot ctl_flags) ≠ 0)) as [Hev|Hev%dec_stable].
  { apply (Hplain st); [naive_solver| |done].
    unfold co_epoll_ctl. by rewrite decide_False, decide_True. }
  destruct (L !! fd) as [[ev0 d0]|] eqn:HL; destruct Hop as [-> | [-> | ->]]; try done.
  - destruct (kq_rep_Some _ _ _ _ _ _ Hrep HL) as (p & Hp & _).
    rewrite decide_True in Hplain by (split; [done|by eexists]). apply (Hplain st); [naive_solver| |done].
    unfold co_epoll_ctl. rewrite decide_False by done. rewrite decide_False by congruence.
    rewrite fdmap_get_entry by done. cbn [mbind option_bind].
    rewrite decide_True; [done|]. by rewrite Hp.
  - by eapply ctl_mod_spec.
  - by apply ctl_add_spec.
  - destruct (kq_rep_None _ _ _ _ Hrep Hfd HL) as (Hp & _).
    rewrite decide_False in Hplain by (intros [? _]; done). rewrite decide_True in Hplain by done.
    apply (Hplain st); [naive_solver| |done].
    unfold co_epoll_ctl. rewrite decide_False by done. rewrite decide_False by congruence.
    rewrite fdmap_get_entry by done. cbn [mbind option_bind].
    rewrite decide_False by (intros [? _]; done). by rewrite decide_True.
Qed.

Lemma ctl_all_refines calloc calls D st L :
  (∀ ps, ps !! calloc ps = None) → Forall (λ '(op, fd, _, _), valid_op op ∧ in_map fd) calls →
  kq_rep_with kevent D st L →
  ∃ rs st' D' L', ctl_all kevent calloc calls st = Some (rs, st') ∧
    ctl_steps kevent calls D L rs D' L' ∧ kq_rep_with kevent D' st' L'.
Proof.
  intros Hcalloc Hcalls. revert D st L.
  induction Hcalls as [|[[[op fd] ev] d] calls [Hop Hfd] _ IH]; intros D st L Hrep.
  { eexists _, st, _, _. split; [done|]. split; [apply steps_nil|done]. }
  destruct (co_epoll_ctl_refines D op fd ev d (calloc (pairs st)) st L)
    as ([r e] & st1 & D1 & L1 & Hc & Hs & Hrep1); [done..|].
  destruct (IH _ _ _ Hrep1) as (rs & st2 & D2 & L2 & Hall & Hss & Hrep2). simpl. rewrite Hc.
  cbn [mbind option_bind]. rewrite Hall. eexists _, st2, _, _. split; [done|]. split; [by eapply steps_cons|done].
Qed.

(** A kernel that refuses nothing. *)
Lemma ctl_steps_taken calls D L rs D' L' :
  (∀ fd f p k, (kevent (EV_ADD fd f p) k).1 = 0) → ctl_steps kevent calls D L rs D' L' → D = ∅ →
  D' = ∅ ∧ rs = (epoll_all calls L).1 ∧ L' = (epoll_all calls L).2.
Proof.
  intros Hacc. induction 1 as [|op fd ev d calls D L r D1 L1 rs D2 L2 Hs _ IH]; intros ->; [done|].
  assert (D1 = ∅ ∧ r = (epoll_ctl op fd ev d L).1 ∧ L1 = (epoll_ctl op fd ev d L).2) as (-> & -> & ->).
  { destruct Hs as [| |f p k ret _ _ Hr Hne]; [done|by rewrite <-map_filter_empty_iff_2 || done|].
    by rewrite Hacc in Hr. }
  destruct IH as (-> & -> & ->); [done|]. simpl. destruct (epoll_ctl op fd ev d L) as [r L1].
  cbn [fst snd]. by destruct (epoll_all calls L1).
Qed.

Lemma kq_rep_empty k : registered k = ∅ → kq_rep kevent (KState clsFdMap ∅ k) ∅.
Proof.
  intros Hk. assert (∀ fd, in_map fd → entry clsFdMap fd = NULL) as Hnone.
  { intros fd (r & c & Hr & _ & Hr' & _)%in_map_place. unfold entry, fdmap_get. rewrite Hr.
    unfold clsFdMap. by rewrite lookup_replicate_2. }
  split; simpl.
  - split; [done|]. intros i lp [? ?]%lookup_replicate. done.
  - intros fd [? ?]. done.
  - intros fd Hfd. rewrite lookup_empty. by apply Hnone.
  - intros fd g p Hfd Hg. rewrite Hnone by done. done.
  - intros fd f. by rewrite Hk, !lookup_empty.
  - done.
Qed.
End refinement.

(** ** Waiting *)

Lemma fired_snoc q d f p :
  fired q (d ++ [(f, p)]) = if decide (q = p) then Z.lor (fired q d) (flag f) else fired q d.
Proof.
  assert (∀ g, (g, q) ∈ d ++ [(f, p)] ↔ (g, q) ∈ d ∨ g = f ∧ q = p) as Hin.
  { intros g. rewrite elem_of_app, list_elem_of_singleton. naive_solver. }
  pose proof (Hin EVFILT_READ) as Hr. pose proof (Hin EVFILT_WRITE) as Hw. clear Hin. unfold fired.
  destruct (decide (q = p)) as [->|Hne].
  - destruct f; repeat case_decide; try reflexivity; exfalso; intuition congruence.
  - repeat case_decide; try reflexivity; exfalso; intuition congruence.
Qed.

Lemma fired_none p d : p ∉ d.*2 → fired p d = 0.
Proof.
  intros Hp. unfold fired.
  assert (∀ f, (f, p) ∉ d) as Hf by (intros f Hin; apply Hp; by apply (list_elem_of_fmap_2 snd) in Hin).
  by rewrite !decide_False.
Qed.

(** The first event of a pair. *)
Lemma first_at_exists p d : p ∈ d.*2 → ∃ k, first_at d k p ∧ idx_of p d = Z.of_nat k + 1 ∧ (k < length d)%nat.
Proof.
  intros Hp. unfold idx_of. destruct (list_find (λ k, k.2 = p) d) as [[i x]|] eqn:E.
  - apply list_find_Some in E as (Hi & Hx & Hmin). exists i. split; [split|].
    + by rewrite list_lookup_fmap, Hi, <-Hx.
    + intros Hin. apply list_elem_of_lookup in Hin as [j Hj].
      apply lookup_take_Some in Hj as [Hj Hlt]. rewrite list_lookup_fmap in Hj.
      destruct (d !! j) as [y|] eqn:Ey; simplify_eq/=. by apply (Hmin j y).
    + split; [done|]. by apply lookup_lt_Some in Hi.
  - apply list_find_None in E. apply list_elem_of_fmap in Hp as (x & -> & Hx).
    rewrite Forall_forall in E. by destruct (E x).
Qed.

Lemma idx_of_none p d : p ∉ d.*2 → idx_of p d = 0.
Proof.
  intros Hp. unfold idx_of. destruct (list_find (λ k, k.2 = p) d) as [[i x]|] eqn:E; [|done].
  apply list_find_Some in E as (Hi & <- & _). destruct Hp. apply list_elem_of_fmap. exists x. split; [done|].
  by eapply list_elem_of_lookup_2.
Qed.

Lemma first_at_inj d k k' p : first_at d k p → first_at d k' p → k = k'.
Proof.
  intros [Hk Hn] [Hk' Hn']. destruct (Nat.lt_trichotomy k k') as [Hlt|[?|Hlt]]; [|done|].
  - destruct Hn'. apply (list_elem_of_lookup_2 _ k). by apply lookup_take_Some.
  - destruct Hn. apply (list_elem_of_lookup_2 _ k'). by apply lookup_take_Some.
Qed.

Lemma first_at_snoc d e k p :
  first_at (d ++ [e]) k p ↔ first_at d k p ∨ k = length d ∧ p = e.2 ∧ p ∉ d.*2.
Proof.
  unfold first_at. rewrite fmap_app. destruct (decide (k < length d)%nat) as [Hlt|Hge].
  - rewrite lookup_app_l, take_app_le by (rewrite length_fmap; lia). split; [by left|].
    intros [?|[-> _]]; [done|lia].
  - assert (d.*2 !! k = None) as Hd by (apply lookup_ge_None; rewrite length_fmap; lia).
    rewrite Hd, lookup_app_r by (rewrite length_fmap; lia). rewrite length_fmap. split.
    + intros [Hk Hn]. right. apply list_lookup_singleton_Some in Hk as [Hk <-].
      assert (k = length d) as -> by lia. rewrite take_app_length' in Hn by (by rewrite length_fmap). done.
    + intros [[? _]|(-> & -> & Hn)]; [done|]. rewrite Nat.sub_diag.
      rewrite take_app_length' by (by rewrite length_fmap). done.
Qed.

Lemma idx_of_snoc q d f p : idx_of q (d ++ [(f, p)]) =
  if decide (q = p) then if decide (p ∈ d.*2) then idx_of p d else Z.of_nat (length d) + 1 else idx_of q d.
Proof.
  destruct (decide (q ∈ (d ++ [(f, p)]).*2)) as [Hq|Hq].
  - destruct (first_at_exists _ _ Hq) as (k & Hk & -> & _).
    apply first_at_snoc in Hk as [Hk|(-> & -> & Hn)].
    + assert (q ∈ d.*2) as Hqd by (destruct Hk as [Hk _]; by eapply list_elem_of_lookup_2).
      destruct (first_at_exists _ _ Hqd) as (k' & Hk' & Hidx & _).
      assert (k = k') as -> by (by eapply first_at_inj). rewrite <-Hidx.
      case_decide; [subst|done]. by rewrite decide_True.
    + simpl in Hn |- *. by rewrite decide_True, decide_False.
  - rewrite idx_of_none by done. rewrite fmap_app, not_elem_of_app in Hq. destruct Hq as [Hq Hp].
    rewrite decide_False by set_solver. by rewrite idx_of_none.
Qed.

Lemma count_snoc d f p : count (d ++ [(f, p)]) = if decide (p ∈ d.*2) then count d else count d + 1.
Proof.
  unfold count. rewrite fmap_app, list_to_set_app_L. simpl. case_decide as Hp.
  - do 2 f_equal. apply set_eq. set_solver.
  - rewrite union_empty_r_L, size_union by (by apply disjoint_singleton_r; rewrite elem_of_list_to_set).
    rewrite size_singleton. lia.
Qed.

Lemma lookup_mark d ps p : mark d ps !! p =
  (λ pr, if decide (p ∈ d.*2) then Pair (idx_of p d) (p_events pr) (p_u64 pr) else pr) <$> ps !! p.
Proof. unfold mark. rewrite map_lookup_imap. by destruct (ps !! p). Qed.

Lemma mark_snoc d f p ps pr : ps !! p = Some pr →
  mark (d ++ [(f, p)]) ps = <[p := Pair (if decide (p ∈ d.*2) then idx_of p d else Z.of_nat (length d) + 1)
                                     (p_events pr) (p_u64 pr)]> (mark d ps).
Proof.
  intros Hp. apply map_eq. intros q. rewrite lookup_mark, idx_of_snoc, fmap_app.
  destruct (decide (q = p)) as [->|Hne].
  - rewrite lookup_insert_eq, Hp. cbn [fmap option_fmap option_map].
    by rewrite (decide_True (P := p ∈ d.*2 ++ _)) by (apply elem_of_app; right; left).
  - rewrite lookup_insert_ne, lookup_mark by done. destruct (ps !! q); cbn [fmap option_fmap option_map]; [|done].
    f_equal. apply decide_ext. rewrite elem_of_app. cbn [list_fmap snd].
    rewrite list_elem_of_singleton. naive_solver.
Qed.

Lemma length_report ps d evs : length (report ps d evs) = length evs.
Proof. apply length_imap. Qed.

Lemma report_first ps d evs i p :
  first_at d i p → (i < length evs)%nat →
  report ps d evs !! i = Some (Event (fired p d) (from_option p_u64 0 (ps !! p))).
Proof.
  intros [Hi Hn] [e He]%lookup_lt_is_Some_2. unfold report. rewrite list_lookup_imap, He. simpl.
  by rewrite Hi, decide_False.
Qed.

Lemma report_other ps d evs i : (∀ p, ¬ first_at d i p) → report ps d evs !! i = evs !! i.
Proof.
  intros Hi. unfold report. rewrite list_lookup_imap. destruct (evs !! i) as [e|]; simpl; [|done].
  destruct (d.*2 !! i) as [p|] eqn:E; [|done]. rewrite decide_True; [done|].
  apply dec_stable. intros ?. by apply (Hi p).
Qed.

Lemma first_at_dec d i : {p | first_at d i p} + {∀ p, ¬ first_at d i p}.
Proof.
  unfold first_at. destruct (d.*2 !! i) as [p|] eqn:E.
  - destruct (decide (p ∈ take i (d.*2))); [right|left; by exists p]. intros q [??]. by simplify_eq.
  - right. by intros q [??].
Qed.

Lemma report_snoc ps d evs f p k pr :
  ps !! p = Some pr → first_at (d ++ [(f, p)]) k p → (k < length evs)%nat →
  report ps (d ++ [(f, p)]) evs = <[k := Event (Z.lor (fired p d) (flag f)) (p_u64 pr)]> (report ps d evs).
Proof.
  intros Hp Hk Hlt. apply list_eq. intros i. destruct (decide (i = k)) as [->|Hne].
  - rewrite list_lookup_insert_eq by (by rewrite length_report).
    rewrite (report_first _ _ _ _ p) by done. by rewrite fired_snoc, decide_True, Hp.
  - rewrite list_lookup_insert_ne by done. destruct (decide (i < length evs)%nat) as [Hi|Hi]; cycle 1.
    { rewrite !lookup_ge_None_2; rewrite ?length_report; auto with lia. }
    destruct (first_at_dec d i) as [(q & Hq)|Hno].
    + assert (first_at (d ++ [(f, p)]) i q) as Hq' by (apply first_at_snoc; by left).
      rewrite (report_first _ (d ++ [(f, p)]) _ i q), (report_first _ d _ i q), fired_snoc by done.
      rewrite decide_False; [done|].
      intros ->. by apply Hne, (first_at_inj _ _ _ _ Hq' Hk).
    + rewrite !report_other; [done|done|]. intros q Hq. assert (first_at (d ++ [(f, p)]) i p) as Hi'.
      { pose proof Hq as [?|(_ & Hqp & _)]%first_at_snoc; [by destruct (Hno q)|]. by rewrite Hqp in Hq. }
      by apply Hne, (first_at_inj _ _ _ _ Hi' Hk).
Qed.

Lemma fire_step d f p kevs ps evs pr :
  ps !! p = Some pr → fire_idx pr = 0 → (length d < length evs)%nat →
  fire (length d) ((f, p) :: kevs) (count d) (mark d ps) (report ps d evs) =
  fire (S (length d)) kevs (count (d ++ [(f, p)])) (mark (d ++ [(f, p)]) ps) (report ps (d ++ [(f, p)]) evs).
Proof.
  intros Hp Hidle Hlen. cbn [fire]. rewrite lookup_mark, Hp. cbn [fmap option_fmap option_map mbind option_bind].
  rewrite (mark_snoc _ _ _ _ _ Hp), count_snoc. destruct (decide (p ∈ d.*2)) as [Hin|Hin].
  - destruct (first_at_exists _ _ Hin) as (k & Hk & -> & Hlt). cbn [fire_idx p_u64]. rewrite decide_False by lia.
    replace (Z.to_nat (Z.of_nat k + 1 - 1)) with k by lia.
    rewrite (report_first _ _ _ _ p) by (try done; lia). cbn [mbind option_bind ev_events].
    rewrite (report_snoc _ _ _ f p k pr); [done|done| |lia]. apply first_at_snoc. by left.
  - rewrite Hidle, decide_True by done. rewrite list_lookup_insert_eq by (by rewrite length_report).
    cbn [mbind option_bind ev_events p_u64 p_events]. rewrite list_insert_insert_eq.
    rewrite (report_snoc _ _ _ f p (length d) pr); [|done| |done].
    + by rewrite fired_none.
    + apply first_at_snoc. by right.
Qed.

Lemma fire_all d kevs ps evs :
  Forall (idle ps) (kevs.*2) → (length (d ++ kevs) ≤ length evs)%nat →
  fire (length d) kevs (count d) (mark d ps) (report ps d evs) =
  Some (count (d ++ kevs), mark (d ++ kevs) ps, report ps (d ++ kevs) evs).
Proof.
  revert d. induction kevs as [|[f p] kevs IH]; intros d Hps Hlen; [by rewrite app_nil_r|].
  rewrite length_app in Hlen. simpl in Hlen, Hps. apply Forall_cons in Hps as [(pr & Hp & Hidle) Hps].
  rewrite (fire_step _ _ _ _ _ _ _ Hp Hidle) by lia.
  specialize (IH (d ++ [(f, p)]) Hps). rewrite !length_app in IH. simpl in IH.
  rewrite Nat.add_1_r in IH. rewrite IH by lia. by rewrite <-!(assoc_L (++)).
Qed.

Lemma unfire_spec kevs ps : (∀ p, p ∈ kevs.*2 → is_Some (ps !! p)) →
  unfire kevs ps = Some (map_imap (λ p pr, Some (if decide (p ∈ kevs.*2) then Pair 0 (p_events pr) (p_u64 pr) else pr)) ps).
Proof.
  revert ps. induction kevs as [|[f p] kevs IH]; intros ps Hps.
  { simpl. f_equal. apply map_eq. intros q. rewrite map_lookup_imap.
    by destruct (ps !! q). }
  destruct (Hps p) as [pr Hp]; [left|]. cbn [unfire]. rewrite Hp. cbn [mbind option_bind]. rewrite IH.
  - f_equal. apply map_eq. intros q. rewrite !map_lookup_imap.
    change (((f, p) :: kevs).*2) with (p :: kevs.*2). destruct (decide (q = p)) as [->|Hne].
    + rewrite lookup_insert_eq, Hp. cbn [mbind option_bind p_events p_u64].
      rewrite (decide_True (P := p ∈ p :: kevs.*2)) by left. by case_decide.
    + rewrite lookup_insert_ne by done. destruct (ps !! q); cbn [mbind option_bind]; [|done].
      f_equal. apply decide_ext. rewrite elem_of_cons. naive_solver.
  - intros q Hq. apply lookup_insert_is_Some'. right. apply Hps. by right.
Qed.

Lemma co_epoll_wait_spec kevs ps evs :
  Forall (idle ps) (kevs.*2) → (length kevs ≤ length evs)%nat →
  co_epoll_wait kevs ps evs = Some (count kevs, ps, report ps kevs evs).
Proof.
  intros Hps Hlen. pose proof (fire_all [] kevs ps evs Hps Hlen) as Hfire.
  assert (mark [] ps = ps) as Hm0.
  { apply map_eq. intros q. rewrite lookup_mark. by destruct (ps !! q). }
  assert (report ps [] evs = evs) as Hr0.
  { apply list_eq. intros i. apply report_other. intros p [Hi _]. done. }
  simpl in Hfire. rewrite Hm0, Hr0 in Hfire. unfold co_epoll_wait.
  change (count []) with 0 in Hfire. rewrite Hfire. cbn [mbind option_bind].
  rewrite Forall_forall in Hps. rewrite unfire_spec.
  - cbn [mbind option_bind]. do 3 f_equal. apply map_eq. intros q. rewrite map_lookup_imap, lookup_mark.
    destruct (ps !! q) as [pr|] eqn:Hq; cbn [fmap option_fmap option_map mbind option_bind]; [|done].
    case_decide as Hin; [|done]. destruct (Hps q Hin) as (pr' & ? & ?). simplify_eq. by destruct pr; simplify_eq/=.
  - intros p Hin. destruct (Hps p Hin) as (pr & Hp & _). rewrite lookup_mark, Hp. by eexists.
Qed.

Lemma size_list_to_set_le (l : list Z) : (size (list_to_set l : gset Z) ≤ length l)%nat.
Proof.
  induction l as [|x l IH]; simpl; [done|]. destruct (decide (x ∈ l)).
  - rewrite (subseteq_union_1_L {[x]}) by set_solver. lia.
  - rewrite size_union, size_singleton by set_solver. lia.
Qed.

Lemma size_list_to_set_NoDup (l : list Z) : size (list_to_set l : gset Z) = length l → NoDup l.
Proof.
  induction l as [|x l IH]; simpl; [by constructor|]. destruct (decide (x ∈ l)).
  - rewrite (subseteq_union_1_L {[x]}) by set_solver. pose proof (size_list_to_set_le l). lia.
  - rewrite size_union, size_singleton by set_solver. intros. constructor; [done|]. apply IH. lia.
Qed.

Lemma size_list_to_set_fmap (g : Z → Z) (l : list Z) :
  (∀ x y, x ∈ l → y ∈ l → g x = g y → x = y) →
  size (list_to_set (g <$> l) : gset Z) = size (list_to_set l : gset Z).
Proof.
  induction l as [|x l IH]; intros Hg; [done|]. rewrite fmap_cons, !list_to_set_cons.
  assert (size (list_to_set (g <$> l) : gset Z) = size (list_to_set l : gset Z)) as Heq.
  { apply IH. intros y z Hy Hz. apply Hg; by right. }
  destruct (decide (x ∈ l)) as [Hx|Hx].
  - rewrite !(subseteq_union_1_L {[_]}) by (apply singleton_subseteq_l, elem_of_list_to_set;
      (done || by apply list_elem_of_fmap_2)). done.
  - assert (g x ∉ g <$> l) as Hgx.
    { intros (y & Hy & Hyl)%list_elem_of_fmap. apply Hx. rewrite (Hg x y); [done|left|by right|done]. }
    rewrite !size_union by (apply disjoint_singleton_l; by rewrite elem_of_list_to_set).
    by rewrite !size_singleton, Heq.
Qed.

Lemma list_elem_first (p : Z) l : p ∈ l → ∃ i, l !! i = Some p ∧ p ∉ take i l.
Proof.
  induction l as [|x l IH]; [by intros ?%elem_of_nil|]. intros Hp. destruct (decide (p = x)) as [->|Hne].
  - exists 0%nat. split; [done|]. apply not_elem_of_nil.
  - apply elem_of_cons in Hp as [?|Hp]; [done|]. destruct (IH Hp) as (i & Hi & Hn). exists (S i).
    split; [done|]. simpl. by apply not_elem_of_cons.
Qed.

(** The results are at the front of the array as long as nothing repeats there. *)
Lemma reported_in_front (l : list Z) :
  let n := size (list_to_set l : gset Z) in
  (∀ p, p ∈ l → ∃ i, l !! i = Some p ∧ p ∉ take i l ∧ (i < n)%nat) ↔ NoDup (take n l).
Proof.
  intros n. pose proof (size_list_to_set_le l) as Hn. fold n in Hn. split; intros Hl.
  - apply size_list_to_set_NoDup. rewrite length_take_le by lia. unfold n. f_equal. apply set_eq. intros p.
    rewrite !elem_of_list_to_set. split; [apply subseteq_take|]. intros Hp.
    destruct (Hl p Hp) as (i & Hi & _ & Hlt). by apply (list_elem_of_lookup_2 _ i), lookup_take_Some.
  - intros p Hp. assert (p ∈ take n l) as Hin.
    { assert (list_to_set (take n l) = (list_to_set l : gset Z)) as Heq.
      - apply set_subseteq_size_eq;
          [|rewrite (size_list_to_set (C := gset Z) (take n l)), length_take_le by (done || lia); unfold n; lia].
        intros q. rewrite !elem_of_list_to_set. apply subseteq_take.
      - rewrite <-(elem_of_list_to_set (C := gset Z)), Heq. by apply elem_of_list_to_set. }
    destruct (list_elem_first _ _ Hp) as (i & Hi & Hfirst). exists i. split_and!; [done..|].
    apply list_elem_of_lookup in Hin as [j [Hj Hlt]%lookup_take_Some].
    destruct (decide (j < i)%nat); [|lia]. destruct Hfirst. apply (list_elem_of_lookup_2 _ j).
    by apply lookup_take_Some.
Qed.

Section wait.
Context {K : Type} {kevent : change → K → Z * K} `{!Kqueue K kevent}.
Context (st : kstate K) (L : gmap Z (Z * Z)) (Hrep : kq_rep kevent st L).
Context (ready : list (Z * kfilter)) (kevs : list (kfilter * addr)) (Hready : reports (kq st) ready kevs).

(** Event [i] is that of the pair of its descriptor. *)
Lemma reports_lookup i fd f : ready !! i = Some (fd, f) → ∃ p ev d,
  kevs !! i = Some (f, p) ∧ entry (m_pp st) fd = Some p ∧ L !! fd = Some (ev, d) ∧ pairs st !! p = Some (Pair 0 ev d).
Proof.
  intros Hi. destruct (Forall2_lookup_l _ _ _ _ _ Hready Hi) as ([f' p] & Hk & Hf & Hr). simpl in Hf, Hr. subst f'.
  rewrite (kr_filters _ _ _ Hrep), lookup_empty in Hr. destruct (L !! fd) as [[ev d]|] eqn:HL; [|done].
  destruct (kq_rep_Some _ _ _ _ _ _ Hrep HL) as (q & Hq & Hqp & _). rewrite Hq in Hr.
  destruct (wants f ev); [|done]. simplify_eq. by exists p, ev, d.
Qed.

Lemma reports_back i f p : kevs !! i = Some (f, p) → ∃ fd, ready !! i = Some (fd, f) ∧ entry (m_pp st) fd = Some p.
Proof.
  intros Hi. destruct (Forall2_lookup_r _ _ _ _ _ Hready Hi) as ([fd f'] & Hr & _).
  destruct (reports_lookup _ _ _ Hr) as (q & ev & d & Hk & He & _). simplify_eq. by exists fd.
Qed.

Lemma reports_idle : Forall (idle (pairs st)) (kevs.*2).
Proof.
  apply Forall_forall. intros p ([f q] & -> & [i Hi]%list_elem_of_lookup)%list_elem_of_fmap.
  destruct (reports_back _ _ _ Hi) as (fd & Hr & _).
  destruct (reports_lookup _ _ _ Hr) as (q' & ev & d & Hk & _ & _ & Hq). simplify_eq. by exists (Pair 0 ev d).
Qed.

Lemma in_map_of fd ev d : L !! fd = Some (ev, d) → in_map fd.
Proof. intros HL. apply (kr_range _ _ _ Hrep). by rewrite HL. Qed.

(** Different descriptors have different pairs. *)
Lemma same_pair i j fd g f h p : ready !! i = Some (fd, f) → ready !! j = Some (g, h) →
  kevs.*2 !! i = Some p → kevs.*2 !! j = Some p ↔ g = fd.
Proof.
  intros Hi Hj Hp. destruct (reports_lookup _ _ _ Hi) as (p1 & ev & d & Hk & He & HL & _).
  destruct (reports_lookup _ _ _ Hj) as (p2 & ev2 & d2 & Hk2 & He2 & HL2 & _).
  rewrite list_lookup_fmap, Hk in Hp. rewrite list_lookup_fmap, Hk2. simplify_eq/=. split.
  - intros [= ->]. symmetry. eapply (kr_inj _ _ _ Hrep); [| |done..]; by eapply in_map_of.
  - intros ->. congruence.
Qed.

Lemma fired_ready i fd f p : ready !! i = Some (fd, f) → kevs.*2 !! i = Some p → fired p kevs = ready_bits fd ready.
Proof.
  intros Hi Hp.
  assert (∀ h, (h, p) ∈ kevs ↔ (fd, h) ∈ ready) as Hin.
  { intros h. rewrite !list_elem_of_lookup. split; intros [j Hj]; exists j.
    - destruct (reports_back _ _ _ Hj) as (g & Hr & _).
      assert (g = fd) as ->; [|done]. apply (same_pair i j fd g f h p); [done..|]. by rewrite list_lookup_fmap, Hj.
    - destruct (reports_lookup _ _ _ Hj) as (q & ev & d & Hk & _).
      assert (kevs.*2 !! j = Some p) as Hq by (by apply (same_pair i j fd fd f h p)).
      rewrite list_lookup_fmap, Hk in Hq. by simplify_eq/=. }
  unfold fired, ready_bits. by rewrite !(decide_ext _ _ _ _ (Hin _)).
Qed.

Lemma first_ready i fd f : ready !! i = Some (fd, f) → fd ∉ take i (ready.*1) →
  ∃ p ev d, first_at kevs i p ∧ L !! fd = Some (ev, d) ∧ pairs st !! p = Some (Pair 0 ev d).
Proof.
  intros Hi Hn. destruct (reports_lookup _ _ _ Hi) as (p & ev & d & Hk & _ & HL & Hp).
  assert (kevs.*2 !! i = Some p) as Hip by (by rewrite list_lookup_fmap, Hk).
  exists p, ev, d. split_and!; [split; [done|]|done..].
  intros [j [Hj Hlt]%lookup_take_Some]%list_elem_of_lookup. destruct Hn.
  destruct (lookup_lt_is_Some_2 ready j) as [[g h] Hg]; [apply lookup_lt_Some in Hi; lia|].
  assert (g = fd) as -> by (by apply (same_pair i j fd g f h p)).
  apply (list_elem_of_lookup_2 _ j), lookup_take_Some. by rewrite list_lookup_fmap, Hg.
Qed.

Lemma not_first_ready i : (∀ fd, ready.*1 !! i = Some fd → fd ∈ take i (ready.*1)) → ∀ p, ¬ first_at kevs i p.
Proof.
  intros Hn p [Hi Hp]. rewrite list_lookup_fmap in Hi. destruct (kevs !! i) as [[f q]|] eqn:E; [|done].
  injection Hi as [= ->]. destruct (reports_back _ _ _ E) as (fd & Hr & He). destruct Hp.
  specialize (Hn fd). rewrite list_lookup_fmap, Hr in Hn. specialize (Hn eq_refl).
  apply list_elem_of_lookup in Hn as [j [Hj Hlt]%lookup_take_Some]. apply (list_elem_of_lookup_2 _ j), lookup_take_Some.
  rewrite list_lookup_fmap in Hj. destruct (ready !! j) as [[g h]|] eqn:Ej; simplify_eq/=. split; [|done].
  apply (same_pair i j fd fd f h p); [done|done| |done]. by rewrite list_lookup_fmap, E.
Qed.

Lemma count_ready : count kevs = Z.of_nat (size (list_to_set (ready.*1) : gset Z)).
Proof.
  unfold count. f_equal. rewrite <-(size_list_to_set_fmap (λ fd, default 0 (entry (m_pp st) fd)) (ready.*1)).
  - do 2 f_equal. apply list_eq. intros i. rewrite !list_lookup_fmap.
    destruct (ready !! i) as [[fd f]|] eqn:E; simpl.
    + destruct (reports_lookup _ _ _ E) as (p & ev & d & -> & He & _). simpl. by rewrite He.
    + apply lookup_ge_None in E. rewrite (proj2 (lookup_ge_None kevs i)); [done|].
      by rewrite <-(Forall2_length _ _ _ Hready).
  - intros x y ([fd f] & -> & [i Hi]%list_elem_of_lookup)%list_elem_of_fmap
      ([g h] & -> & [j Hj]%list_elem_of_lookup)%list_elem_of_fmap.
    destruct (reports_lookup _ _ _ Hi) as (p & ev & d & _ & He & HL & _).
    destruct (reports_lookup _ _ _ Hj) as (q & ev2 & d2 & _ & He2 & HL2 & _). simpl. rewrite He, He2. intros [= ->].
    eapply (kr_inj _ _ _ Hrep); [| |done..]; by eapply in_map_of.
Qed.
End wait.

(** When the kernel takes the first filter of a new descriptor and refuses the
    second, the pair is freed but the first filter keeps pointing to it. *)
Lemma refused_write_dangles {K : Type} {kevent : change → K → Z * K} `{!Kqueue K kevent} D (st : kstate K) L fd ev d mem k :
  kq_rep_with kevent D st L → in_map fd → Z.land ev (Z.lnot ctl_flags) = 0 → L !! fd = None →
  wants EVFILT_READ ev = true → wants EVFILT_WRITE ev = true →
  kevent (EV_ADD fd EVFILT_READ mem) (kq st) = (0, k) → (kevent (EV_ADD fd EVFILT_WRITE mem) k).1 ≠ 0 →
  ∃ r st', co_epoll_ctl kevent EPOLL_CTL_ADD fd ev d mem st = Some (r, None, st') ∧ r ≠ 0 ∧
    entry (m_pp st') fd = NULL ∧ pairs st' !! mem = None ∧ registered (kq st') !! (fd, EVFILT_READ) = Some mem.
Proof.
  intros Hrep Hfd Hev HL Hr Hw Hadd Hrefuse. pose proof (kr_map _ _ _ Hrep) as Hok.
  destruct (kq_rep_None _ _ _ _ Hrep Hfd HL) as (Hnone & _).
  unfold co_epoll_ctl. rewrite decide_False by done. rewrite decide_False by congruence.
  rewrite fdmap_get_entry by done. cbn [mbind option_bind].
  rewrite Hnone. rewrite decide_False by naive_solver. rewrite decide_False by (intros [? _]; done).
  destruct (fdmap_set_spec fd (Some mem) (m_pp st)) as (m' & Hset & Hok' & Hent); [done..|].
  rewrite Hset. cbn [mbind option_bind pairs]. rewrite lookup_insert_eq. cbn [mbind option_bind].
  rewrite decide_False by done. unfold add_filters, add_filter, kev. rewrite Hr, Hw. cbn [kq m_pp pairs]. rewrite Hadd.
  rewrite bool_decide_false by naive_solver. cbn [andb kq m_pp pairs].
  pose proof (kevent_add fd EVFILT_READ mem (kq st)) as Hk. rewrite Hadd, decide_True in Hk by done.
  pose proof (kevent_add fd EVFILT_WRITE mem k) as Hk2.
  destruct (kevent (EV_ADD fd EVFILT_WRITE mem) k) as [r k2]. simpl in Hrefuse. rewrite decide_False in Hk2 by done.
  rewrite decide_True by done. unfold drop_pair, fdmap_clear. cbn [kq m_pp pairs].
  destruct (fdmap_set_spec fd NULL m') as (m2 & Hset2 & _ & Hent2); [done..|]. rewrite Hset2.
  eexists r, _. split; [done|]. split; [done|]. cbn [kq m_pp pairs]. split_and!.
  - by rewrite Hent2, decide_True.
  - apply lookup_delete_eq.
  - by rewrite Hk2, Hk, lookup_insert_eq.
Qed.

(** ** Properties *)

(** C11.  On top of any kqueue, [co_epoll_ctl] keeps the interest list of an
    epoll: starting without descriptors, any sequence of additions, modifications
    and removals of descriptors below 2^20 makes no wild access and fails no
    assertion, and each call has the result, the [errno] and the effect of the
    interest list (where only removing an unknown descriptor succeeds instead of
    failing), unless the kernel refuses a filter, when the result is the
    kernel's and the descriptor is no longer listed.  In the end the table has
    exactly the listed descriptors, each with a pair of its own that holds its
    events and data, and the kernel has the filters that these events ask for,
    with these pairs as [udata], and besides exactly the first filters of the
    calls whose second one it refused.  Without a refusal there are none.  With
    one, what is left behind points to a pair that is freed. *)
Theorem co_epoll_ctl_is_epoll {K : Type} (kevent : change → K → Z * K) `{!Kqueue K kevent}
    (calloc : gmap addr kevent_pair_t → addr) (calls : list (Z * Z * Z * Z)) (k : K) :
  (∀ ps, ps !! calloc ps = None) →
  Forall (λ '(op, fd, _, _), valid_op op ∧ in_map fd) calls → registered k = ∅ →
  ∃ rs st D L, ctl_all kevent calloc calls (KState clsFdMap ∅ k) = Some (rs, st) ∧
    ctl_steps kevent calls ∅ ∅ rs D L ∧ kq_rep_with kevent D st L ∧
    ((∀ fd f p k, (kevent (EV_ADD fd f p) k).1 = 0) →
      rs = (epoll_all calls ∅).1 ∧ kq_rep kevent st (epoll_all calls ∅).2) ∧
    (∀ fd ev d k', in_map fd → Z.land ev (Z.lnot ctl_flags) = 0 → L !! fd = None →
      wants EVFILT_READ ev = true → wants EVFILT_WRITE ev = true →
      let mem := calloc (pairs st) in
      kevent (EV_ADD fd EVFILT_READ mem) (kq st) = (0, k') → (kevent (EV_ADD fd EVFILT_WRITE mem) k').1 ≠ 0 →
      ∃ r st', co_epoll_ctl kevent EPOLL_CTL_ADD fd ev d mem st = Some (r, None, st') ∧ r ≠ 0 ∧
        entry (m_pp st') fd = NULL ∧ pairs st' !! mem = None ∧
        registered (kq st') !! (fd, EVFILT_READ) = Some mem).
Proof.
  intros Hcalloc Hcalls Hk.
  destruct (ctl_all_refines calloc calls ∅ (KState clsFdMap ∅ k) ∅) as (rs & st & D & L & Hall & Hs & Hrep);
    [done|done|by apply kq_rep_empty|].
  exists rs, st, D, L. split_and!; [done..| |].
  - intros Hacc. destruct (ctl_steps_taken _ _ _ _ _ _ Hacc Hs eq_refl) as (-> & -> & ->). done.
  - intros fd ev d k' ? ? ? ? ? mem ? ?. by eapply refused_write_dangles.
Qed.

(** C31.  [co_epoll_wait] on top of kqueue: for the filters that are ready it counts
    the descriptors, leaves the pairs as they were, and at the position of the
    first event of each descriptor writes all its events and its data; other
    entries keep what they held.  So the caller, who looks at as many entries as
    were counted, sees every ready descriptor if and only if no descriptor
    has two events among the first ones: the array is not compacted. *)
Theorem co_epoll_wait_reports {K : Type} (kevent : change → K → Z * K) `{!Kqueue K kevent} (st : kstate K)
    (L : gmap Z (Z * Z)) (ready : list (Z * kfilter)) (kevs : list (kfilter * addr)) (evs : list epoll_event) :
  kq_rep kevent st L → reports (kq st) ready kevs → (length ready ≤ length evs)%nat →
  let n := size (list_to_set (ready.*1) : gset Z) in
  ∃ evs', co_epoll_wait kevs (pairs st) evs = Some (Z.of_nat n, pairs st, evs') ∧ length evs' = length evs ∧
    (∀ i fd f ev d, ready !! i = Some (fd, f) → fd ∉ take i (ready.*1) → L !! fd = Some (ev, d) →
      evs' !! i = Some (Event (ready_bits fd ready) d)) ∧
    (∀ i, (∀ fd, ready.*1 !! i = Some fd → fd ∈ take i (ready.*1)) → evs' !! i = evs !! i) ∧
    ((∀ fd, fd ∈ ready.*1 → ∃ i, ready.*1 !! i = Some fd ∧ fd ∉ take i (ready.*1) ∧ (i < n)%nat) ↔
     NoDup (take n (ready.*1))).
Proof.
  intros Hrep Hready Hlen n. exists (report (pairs st) kevs evs).
  pose proof (Forall2_length _ _ _ Hready) as Hlk. split_and!.
  - rewrite co_epoll_wait_spec; [by rewrite (count_ready st L Hrep ready kevs Hready)| |lia].
    by eapply reports_idle.
  - apply length_report.
  - intros i fd f ev d Hi Hn HL.
    destruct (first_ready st L Hrep ready kevs Hready i fd f Hi Hn) as (p & ev' & d' & Hp & HL' & Hpp).
    simplify_eq. rewrite (report_first _ _ _ _ _ Hp) by (apply lookup_lt_Some in Hi; lia).
    destruct Hp as [Hp _]. by rewrite (fired_ready st L Hrep ready kevs Hready i fd f p Hi Hp), Hpp.
  - intros i Hi. apply report_other. by eapply not_first_ready.
  - apply reported_in_front.
Qed.

(** ** Witnesses *)

Lemma demo_calloc_fresh ps : ps !! demo_calloc ps = None.
Proof. apply (not_elem_of_dom (D := gset addr)). exact (is_fresh (dom ps : gset addr)). Qed.

Lemma demo_more_ok : Forall (λ '(op, fd, _, _), valid_op op ∧ in_map fd) demo_more.
Proof.
  unfold demo_more, demo_calls, valid_op, in_map. simpl.
  repeat apply Forall_cons_2; [..|apply Forall_nil_2]; (split; [auto|lia]).
Qed.

Lemma demo_state_rep : kq_rep demo_kernel demo_state {[ 2000 := (4, 61); 9 := (5, 90) ]}.
Proof.
  destruct (ctl_all_refines (kevent := demo_kernel) demo_calloc demo_more ∅ demo_start ∅)
    as (rs & st & D & L & Hst & Hs & Hrep).
  { apply demo_calloc_fresh. }
  { apply demo_more_ok. }
  { by apply kq_rep_empty. }
  destruct (ctl_steps_taken (kevent := demo_kernel) _ _ _ _ _ _ ltac:(done) Hs eq_refl) as (-> & _ & ->).
  unfold demo_state. rewrite Hst. exact Hrep.
Qed.

(** The second part is about a kernel that takes no [EVFILT_WRITE]. *)
Lemma co_epoll_ctl_is_epoll_witness :
  (∃ st, ctl_all demo_kernel demo_calloc demo_more demo_start =
    Some ([(0, None); (0, None); (-1, Some EEXIST); (0, None); (-1, None); (-1, Some ENOENT); (0, None); (0, None)], st) ∧
    kq_rep demo_kernel st {[ 2000 := (4, 61); 9 := (5, 90) ]}) ∧
  (∃ st D, ctl_all demo_read_kernel demo_calloc [] demo_start = Some ([], st) ∧ kq_rep_with demo_read_kernel D st ∅ ∧
    ∃ r st', co_epoll_ctl demo_read_kernel EPOLL_CTL_ADD 9 5 90 (demo_calloc (pairs st)) st = Some (r, None, st') ∧
      pairs st' !! demo_calloc (pairs st) = None ∧
      registered (kq st') !! (9, EVFILT_READ) = Some (demo_calloc (pairs st))).
Proof.
  split.
  - destruct (co_epoll_ctl_is_epoll demo_kernel (Kqueue0 := demo_kqueue) demo_calloc demo_more ∅ demo_calloc_fresh demo_more_ok eq_refl)
      as (rs & st & D & L & Hall & _ & _ & Hacc & _).
    destruct (Hacc (λ fd f p k, eq_refl)) as [-> Hrep]. exists st. split; [exact Hall|exact Hrep].
  - destruct (co_epoll_ctl_is_epoll demo_read_kernel (Kqueue0 := demo_read_kqueue) demo_calloc [] ∅ demo_calloc_fresh (List.Forall_nil _) eq_refl)
      as (rs & st & D & L & Hall & Hs & Hrep & _ & Hdangle).
    inversion Hs; subst. exists st, ∅. split; [exact Hall|]. split; [exact Hrep|].
    destruct (Hdangle 9 5 90 (<[(9, EVFILT_READ) := demo_calloc (pairs st)]> (kq st)))
      as (r & st' & Hc & _ & _ & Hfree & Hreg); [unfold in_map; lia|done..|].
    exists r, st'. split; [exact Hc|]. split; [exact Hfree|exact Hreg].
Defined.

(** The third event, of descriptor 2000, is written behind the two that are counted. *)
Lemma co_epoll_wait_reports_witness :
  ∃ evs', co_epoll_wait demo_kevs (pairs demo_state) demo_evs = Some (2, pairs demo_state, evs') ∧
    evs' !! 0%nat = Some (Event 5 90) ∧ evs' !! 1%nat = Some (Event 0 0) ∧ evs' !! 2%nat = Some (Event 4 61).
Proof.
  destruct (co_epoll_wait_reports demo_kernel demo_state {[ 2000 := (4, 61); 9 := (5, 90) ]} demo_ready demo_kevs demo_evs)
    as (evs' & Hw & _ & Hfirst & Hother & _).
  - apply demo_state_rep.
  - repeat constructor; vm_compute; reflexivity.
  - vm_compute. lia.
  - exists evs'. split_and!.
    + exact Hw.
    + apply (Hfirst 0%nat 9 EVFILT_READ 5 90); [reflexivity|decides|reflexivity].
    + apply (Hother 1%nat). intros fd [= <-]. decides.
    + apply (Hfirst 2%nat 2000 EVFILT_WRITE 4 61); [reflexivity|decides|reflexivity].
Defined.
