(* ===== verification/Task.v ===== *)
(** * The task queue of the thread pool (Task.h, Task.cpp, ThreadPool.h, ThreadPool.cpp)

    [put_task] appends channels to a queue of at most [max_task_num] elements, a
    thread swaps it with a second queue when that is empty, and the threads of
    the pool take channels from the second queue and handle them.  The three
    condition variables and two mutexes are modelled as in [LogFile]: a step is
    what a thread does between two operations on them. *)

From S2P Require Import Prelude.

Local Open Scope cint_scope.

(** ** Threads

    The program counters are named after the operation that comes next. *)

Inductive thread := Swapper | Producer (i : nat) | Consumer (j : nat).

#[global] Instance thread_eq_dec : EqDecision thread.
Proof. solve_decision. Defined.

(** A channel with the number of the thread that has put it. *)
Notation task := (nat * Z)%type.

(** [swap_task]: [S_Wait_c] is the wait with [Comsumer_Mutex], [S_Wait_p] the one
    with [Product_Mutex]. *)
Inductive swapper_pc :=
  | S_Lock | S_Test | S_Wait_c | S_Woken_c | S_LockP | S_TestP | S_Wait_p | S_Woken_p
  | S_Swap | S_BroadcastC | S_BroadcastP | S_UnlockP | S_UnlockC.

(** [put_task], with the channels that are left of [new_task]. *)
Inductive producer_pc :=
  | P_Idle | P_Next (l : list Z) | P_Push (x : Z) (l : list Z) | P_Full (l : list Z) | P_CondWait (l : list Z)
  | P_Wait (l : list Z) | P_Woken (l : list Z) | P_Signal | P_Unlock.

(** [take_task] and the call of [handle_event] that follows it in [ThreadPool::loop]. *)
Inductive consumer_pc :=
  | C_Lock | C_Test | C_Signal | C_CondWait | C_Wait | C_Woken | C_Take | C_Unlock (x : task) | C_Handle (x : task).

(** [taken] and [handled] record which thread of the pool has taken and handled
    which task, in order; [prods] is the threads that put tasks, each with the
    vectors it will still put. *)
Record tasks := Tasks {
  max_task_num : Z;
  product_task : list task;
  consum_task : list task;
  taken : list (nat * task);
  handled : list (nat * task);
  Product_Mutex : option thread;
  Comsumer_Mutex : option thread;
  swapper : swapper_pc;
  prods : list (producer_pc * list (list Z));
  conss : list consumer_pc;
}.

Definition set_product q s := Tasks (max_task_num s) q (consum_task s) (taken s) (handled s) (Product_Mutex s)
  (Comsumer_Mutex s) (swapper s) (prods s) (conss s).
Definition set_consum q s := Tasks (max_task_num s) (product_task s) q (taken s) (handled s) (Product_Mutex s)
  (Comsumer_Mutex s) (swapper s) (prods s) (conss s).
Definition set_taken q s := Tasks (max_task_num s) (product_task s) (consum_task s) q (handled s) (Product_Mutex s)
  (Comsumer_Mutex s) (swapper s) (prods s) (conss s).
Definition set_handled q s := Tasks (max_task_num s) (product_task s) (consum_task s) (taken s) q (Product_Mutex s)
  (Comsumer_Mutex s) (swapper s) (prods s) (conss s).
Definition set_pm m s := Tasks (max_task_num s) (product_task s) (consum_task s) (taken s) (handled s) m
  (Comsumer_Mutex s) (swapper s) (prods s) (conss s).
Definition set_cm m s := Tasks (max_task_num s) (product_task s) (consum_task s) (taken s) (handled s) (Product_Mutex s)
  m (swapper s) (prods s) (conss s).
Definition set_swapper p s := Tasks (max_task_num s) (product_task s) (consum_task s) (taken s) (handled s)
  (Product_Mutex s) (Comsumer_Mutex s) p (prods s) (conss s).
Definition set_prods ps s := Tasks (max_task_num s) (product_task s) (consum_task s) (taken s) (handled s)
  (Product_Mutex s) (Comsumer_Mutex s) (swapper s) ps (conss s).
Definition set_conss cs s := Tasks (max_task_num s) (product_task s) (consum_task s) (taken s) (handled s)
  (Product_Mutex s) (Comsumer_Mutex s) (swapper s) (prods s) cs.
Definition set_prod (i : nat) p s := set_prods (<[i := p]> (prods s)) s.
Definition set_cons (j : nat) p s := set_conss (<[j := p]> (conss s)) s.

(** The mutexes. *)
Definition lock_product (t : thread) (s : tasks) : option tasks :=
  guard (Product_Mutex s = None);; Some (set_pm (Some t) s).
Definition lock_comsumer (t : thread) (s : tasks) : option tasks :=
  guard (Comsumer_Mutex s = None);; Some (set_cm (Some t) s).

(** [pthread_cond_signal] of [Swap_Cond], on which only [swap_task] waits, and
    [pthread_cond_broadcast] of the others. *)
Definition wake_swapper (p : swapper_pc) : swapper_pc :=
  match p with S_Wait_c => S_Woken_c | S_Wait_p => S_Woken_p | _ => p end.
Definition wake_producer (p : producer_pc * list (list Z)) : producer_pc * list (list Z) :=
  match p.1 with P_Wait l => (P_Woken l, p.2) | _ => p end.
Definition wake_consumer (p : consumer_pc) : consumer_pc := match p with C_Wait => C_Woken | _ => p end.

Definition signal_swap (s : tasks) : tasks := set_swapper (wake_swapper (swapper s)) s.
Definition broadcast_product (s : tasks) : tasks := set_prods (wake_producer <$> prods s) s.
Definition broadcast_comsum (s : tasks) : tasks := set_conss (wake_consumer <$> conss s) s.

(** [product_task.size() == max_task_num], a comparison of unsigned numbers. *)
Definition full (s : tasks) : bool := bool_decide (Z.of_nat (length (product_task s)) = u64 (max_task_num s)).

(** The next step of each thread; [None] when it is blocked. *)
Definition take_task (j : nat) (s : tasks) : option tasks :=
  pc ← conss s !! j;
  match pc with
  | C_Lock | C_Woken => s ← lock_comsumer (Consumer j) s; Some (set_cons j C_Test s)
  | C_Test =>
      match consum_task s with
      | [] => Some (set_cons j C_Signal s)
      | _ => Some (set_cons j C_Take s)
      end
  | C_Signal => Some (set_cons j C_CondWait (signal_swap s))
  | C_CondWait => Some (set_cons j C_Wait (set_cm None s))
  | C_Wait => None
  | C_Take =>
      match consum_task s with
      | [] => None
      | x :: q => Some (set_cons j (C_Unlock x) (set_taken (taken s ++ [(j, x)]) (set_consum q s)))
      end
  | C_Unlock x => Some (set_cons j (C_Handle x) (set_cm None s))
  | C_Handle x => Some (set_cons j C_Lock (set_handled (handled s ++ [(j, x)]) s))
  end.

Definition put_task (i : nat) (s : tasks) : option tasks :=
  '(pc, todo) ← prods s !! i;
  match pc, todo with
  | P_Idle, [] => None
  | P_Idle, new_task :: todo => s ← lock_product (Producer i) s; Some (set_prod i (P_Next new_task, todo) s)
  | P_Next [], _ => Some (set_prod i (P_Signal, todo) s)
  | P_Next (x :: l), _ => Some (set_prod i (if full s then P_Full (x :: l) else P_Push x l, todo) s)
  | P_Push x l, _ => Some (set_prod i (P_Next l, todo) (set_product (product_task s ++ [(i, x)]) s))
  | P_Full l, _ => Some (set_prod i (P_CondWait l, todo) (signal_swap s))
  | P_CondWait l, _ => Some (set_prod i (P_Wait l, todo) (set_pm None s))
  | P_Wait l, _ => None
  | P_Woken l, _ => s ← lock_product (Producer i) s; Some (set_prod i (P_Next l, todo) s)
  | P_Signal, _ => Some (set_prod i (P_Unlock, todo) (signal_swap s))
  | P_Unlock, _ => Some (set_prod i (P_Idle, todo) (set_pm None s))
  end.

Definition swap_task (s : tasks) : option tasks :=
  match swapper s with
  | S_Lock | S_Woken_c => s ← lock_comsumer Swapper s; Some (set_swapper S_Test s)
  | S_Test =>
      match consum_task s with
      | [] => Some (set_swapper S_LockP s)
      | _ => Some (set_swapper S_Wait_c (set_cm None s))
      end
  | S_LockP | S_Woken_p => s ← lock_product Swapper s; Some (set_swapper S_TestP s)
  | S_TestP =>
      match product_task s with
      | [] => Some (set_swapper S_Wait_p (set_pm None s))
      | _ => Some (set_swapper S_Swap s)
      end
  | S_Swap => Some (set_swapper S_BroadcastC (set_consum (product_task s) (set_product (consum_task s) s)))
  | S_BroadcastC => Some (set_swapper S_BroadcastP (broadcast_comsum s))
  | S_BroadcastP => Some (set_swapper S_UnlockP (broadcast_product s))
  | S_UnlockP => Some (set_swapper S_UnlockC (set_pm None s))
  | S_UnlockC => Some (set_swapper S_Lock (set_cm None s))
  | S_Wait_c | S_Wait_p => None
  end.

Definition thread_step (t : thread) (s : tasks) : option tasks :=
  match t with
  | Swapper => swap_task s
  | Producer i => put_task i s
  | Consumer j => take_task j s
  end.

(** The constructor of [Task], with the vectors that each thread will put and [n]
    threads of the pool ([start_thread]). *)
Definition Task_new (max : Z) (todo : list (list (list Z))) (n : nat) : tasks :=
  Tasks max [] [] [] [] None None S_Lock ((λ vs, (P_Idle, vs)) <$> todo) (replicate n C_Lock).

(** A schedule of steps. *)
Fixpoint run (ts : list thread) (s : tasks) : option tasks :=
  match ts with [] => Some s | t :: ts => s ← thread_step t s; run ts s end.

(** A step of some thread, and the wake-ups for no reason that
    [pthread_cond_wait] may have. *)
Inductive step (s : tasks) : tasks → Prop :=
  | step_thread t s' : thread_step t s = Some s' → step s s'.

Inductive spurious (s : tasks) : tasks → Prop :=
  | spurious_swap : spurious s (signal_swap s)
  | spurious_producer i p : prods s !! i = Some p → spurious s (set_prod i (wake_producer p) s)
  | spurious_consumer j p : conss s !! j = Some p → spurious s (set_cons j (wake_consumer p) s).

Definition any_step (s s' : tasks) : Prop := step s s' ∨ spurious s s'.

(** ** What is stated of them *)

(** The tasks in the order in which they were put. *)
Definition sequence (s : tasks) : list task := (taken s).*2 ++ consum_task s ++ product_task s.

(** The tasks that thread [i] has put among [l], and those it has still to put. *)
Definition of_thread (i : nat) (l : list task) : list Z := (filter (λ x, x.1 = i) l).*2.
Definition rest (p : producer_pc) : list Z :=
  match p with
  | P_Next l | P_Full l | P_CondWait l | P_Wait l | P_Woken l => l
  | P_Push x l => x :: l
  | P_Idle | P_Signal | P_Unlock => []
  end.
Definition to_put (p : producer_pc * list (list Z)) : list Z := rest p.1 ++ mjoin p.2.
Definition still (i : nat) (s : tasks) : list Z := default [] (to_put <$> prods s !! i).

(** The tasks of thread [j] of the pool among [l], and the one it is about to handle. *)
Definition of_consumer (j : nat) (l : list (nat * task)) : list task := (filter (λ x, x.1 = j) l).*2.
Definition hand (p : consumer_pc) : list task := match p with C_Unlock x | C_Handle x => [x] | _ => [] end.
Definition in_hand (j : nat) (s : tasks) : list task := default [] (hand <$> conss s !! j).

(** Who holds a mutex where. *)
Definition s_holds_c (p : swapper_pc) : bool :=
  match p with S_Lock | S_Wait_c | S_Woken_c => false | _ => true end.
Definition s_holds_p (p : swapper_pc) : bool :=
  match p with S_TestP | S_Swap | S_BroadcastC | S_BroadcastP | S_UnlockP => true | _ => false end.
Definition p_holds (p : producer_pc) : bool :=
  match p with P_Idle | P_Wait _ | P_Woken _ => false | _ => true end.
Definition c_holds (p : consumer_pc) : bool :=
  match p with C_Lock | C_Wait | C_Woken | C_Handle _ => false | _ => true end.

Definition holds_product (t : thread) (s : tasks) : bool :=
  match t with
  | Swapper => s_holds_p (swapper s)
  | Producer i => default false ((λ p, p_holds p.1) <$> prods s !! i)
  | Consumer _ => false
  end.
Definition holds_comsumer (t : thread) (s : tasks) : bool :=
  match t with
  | Swapper => s_holds_c (swapper s)
  | Producer _ => false
  | Consumer j => default false (c_holds <$> conss s !! j)
  end.

(** The invariant of the locks. *)
Record locks (s : tasks) : Prop := {
  l_product : ∀ t, Product_Mutex s = Some t ↔ holds_product t s;
  l_comsumer : ∀ t, Comsumer_Mutex s = Some t ↔ holds_comsumer t s;
}.

(** A producer that will still signal [Swap_Cond]. *)
Definition will_signal (p : producer_pc) : bool :=
  match p with P_Next _ | P_Push _ _ | P_Full _ | P_Signal => true | _ => false end.

(** What a thread may rely on where it is: no wake-up is lost. *)
Definition swapper_ok (s : tasks) : Prop :=
  match swapper s with
  | S_LockP | S_TestP | S_Woken_p => consum_task s = []
  | S_Swap => consum_task s = [] ∧ product_task s ≠ []
  | S_Wait_p => consum_task s = [] ∧
      (product_task s = [] ∨ ∃ i p, prods s !! i = Some p ∧ will_signal p.1)
  | _ => True
  end.

Definition consumer_ok (s : tasks) (p : consumer_pc) : Prop :=
  match p with
  | C_Signal => consum_task s = []
  | C_CondWait => consum_task s = [] ∧ swapper s ≠ S_Wait_c
  | C_Wait => (consum_task s = [] ∨ swapper s = S_BroadcastC) ∧ swapper s ≠ S_Wait_c
  | C_Take => consum_task s ≠ []
  | _ => True
  end.

Definition producer_ok (s : tasks) (p : producer_pc) : Prop :=
  match p with
  | P_Push _ _ => full s = false
  | P_Full _ | P_CondWait _ => full s = true
  | P_Wait _ => full s = true ∨ swapper s = S_BroadcastC ∨ swapper s = S_BroadcastP
  | _ => True
  end.

Record signals (s : tasks) : Prop := {
  g_swapper : swapper_ok s;
  g_consumer : ∀ j p, conss s !! j = Some p → consumer_ok s p;
  g_producer : ∀ i p, prods s !! i = Some p → producer_ok s p.1;
  g_size : (Z.of_nat (length (product_task s)) ≤ u64 (max_task_num s))%Z;
}.

Definition good (s : tasks) : Prop := locks s ∧ signals s.

(** The tasks that a thread of the pool has taken are those it has handled and
    the one in its hand. *)
Definition accounted (s : tasks) : Prop :=
  ∀ j, of_consumer j (taken s) = of_consumer j (handled s) ++ in_hand j s.

(** The work that is left: an upper bound of the number of steps.  [task_work] is
    that for one task that is in the first queue, [v] for one that is still to put. *)
Definition consumer_work (p : consumer_pc) : nat :=
  match p with
  | C_Wait => 0 | C_CondWait => 1 | C_Signal | C_Take => 6 | C_Test => 7 | C_Lock | C_Woken => 8
  | C_Handle _ => 9 | C_Unlock _ => 10
  end.
Definition swapper_work (np nc : nat) (p : swapper_pc) : nat :=
  match p with
  | S_Wait_c | S_Wait_p | S_Swap => 0 | S_TestP => 1 | S_LockP | S_Woken_p => 2 | S_Test => 3
  | S_Woken_c | S_Lock => 4 | S_UnlockC => 5 | S_UnlockP => 6 | S_BroadcastP => 7 + 8 * np
  | S_BroadcastC => 8 + 8 * np + 8 * nc
  end.
Fixpoint vectors_work (v : nat) (ls : list (list Z)) : nat :=
  match ls with [] => 0 | l :: ls => 8 + v * length l + vectors_work v ls end.
Definition producer_work (v : nat) (p : producer_pc * list (list Z)) : nat :=
  match p.1 with
  | P_Idle => 0 | P_Unlock => 1 | P_Signal => 6 | P_Wait l => v * length l | P_CondWait l => 1 + v * length l
  | P_Full l => 6 + v * length l | P_Next l => 7 + v * length l | P_Woken l => 8 + v * length l
  | P_Push _ l => 6 + v + v * length l
  end + vectors_work v p.2.
Definition task_work (np nc : nat) : nat := 14 + 8 * np + 8 * nc.
Definition put_work (np nc : nat) : nat := 2 + task_work np nc.
Definition work (s : tasks) : nat :=
  let np := length (prods s) in let nc := length (conss s) in
  swapper_work np nc (swapper s) + 5 * length (consum_task s) + task_work np nc * length (product_task s) +
  sum_list (producer_work (put_work np nc) <$> prods s) + sum_list (consumer_work <$> conss s).

(** Room for two tasks, two threads that put five and two threads of the pool; a
    schedule in two parts: the first producer fills the queue and waits, then its
    tasks are swapped and taken. *)
Definition demo_todo : list (list (list Z)) := [[[1; 2; 3]%Z]; [[4]%Z; [5]%Z]].
Definition demo_first : list thread := replicate 8 (Producer 0).
Definition demo_then : list thread := replicate 9 Swapper ++ replicate 5 (Consumer 1) ++ replicate 4 (Consumer 0).
Definition demo_start : tasks := Task_new 2 demo_todo 2.
Definition demo_tasks : tasks := default demo_start (run demo_first demo_start).
Definition demo_tasks' : tasks := default demo_start (run demo_then demo_tasks).

(** ** Locks *)

Lemma wake_holds_c p : s_holds_c (wake_swapper p) = s_holds_c p.
Proof. by destruct p. Qed.
Lemma wake_holds_p p : s_holds_p (wake_swapper p) = s_holds_p p.
Proof. by destruct p. Qed.

Lemma producer_wake_holds p : p_holds (wake_producer p).1 = p_holds p.1.
Proof. by destruct p as [[] ?]. Qed.
Lemma consumer_wake_holds p : c_holds (wake_consumer p) = c_holds p.
Proof. by destruct p. Qed.

(** What a step of one thread leaves to the others. *)
Lemma take_task_frame j s s' : take_task j s = Some s' →
  prods s' = prods s ∧ product_task s' = product_task s ∧ max_task_num s' = max_task_num s ∧
  Product_Mutex s' = Product_Mutex s ∧
  (swapper s' = swapper s ∨ swapper s' = wake_swapper (swapper s)) ∧
  ∃ p p', conss s !! j = Some p ∧ conss s' = <[j := p']> (conss s).
Proof.
  unfold take_task, lock_comsumer. intros Hs. destruct (conss s !! j) as [p|] eqn:E; [|done].
  cbn [mbind option_bind] in Hs. destruct p; simplify_option_eq;
    try (destruct (consum_task s); simplify_eq/=); split_and!; eauto.
Qed.

Lemma put_task_frame i s s' : put_task i s = Some s' →
  conss s' = conss s ∧ consum_task s' = consum_task s ∧ max_task_num s' = max_task_num s ∧
  Comsumer_Mutex s' = Comsumer_Mutex s ∧ taken s' = taken s ∧ handled s' = handled s ∧
  (swapper s' = swapper s ∨ swapper s' = wake_swapper (swapper s)) ∧
  ∃ p p', prods s !! i = Some p ∧ prods s' = <[i := p']> (prods s).
Proof.
  unfold put_task, lock_product. intros Hs. destruct (prods s !! i) as [[p todo]|] eqn:E; [|done].
  cbn [mbind option_bind] in Hs.
  destruct p as [|[]| | | | | | |]; [destruct todo|..]; simplify_option_eq; split_and!; eauto.
Qed.

Lemma swap_task_frame s s' : swap_task s = Some s' →
  max_task_num s' = max_task_num s ∧ taken s' = taken s ∧ handled s' = handled s ∧
  (prods s' = prods s ∨ swapper s = S_BroadcastP ∧ prods s' = wake_producer <$> prods s) ∧
  (conss s' = conss s ∨ swapper s = S_BroadcastC ∧ conss s' = wake_consumer <$> conss s).
Proof.
  unfold swap_task, lock_product, lock_comsumer. intros Hs.
  destruct (swapper s); simplify_option_eq;
    try (destruct (consum_task s); simplify_eq/=); try (destruct (product_task s); simplify_eq/=);
    split_and!; auto.
Qed.

Lemma others_hold t t' s s' : thread_step t s = Some s' → t' ≠ t →
  holds_product t' s' = holds_product t' s ∧ holds_comsumer t' s' = holds_comsumer t' s.
Proof.
  intros Hs Hne. destruct t as [|i|j]; simpl in Hs.
  - apply swap_task_frame in Hs as (_ & _ & _ & Hp & Hc). destruct t' as [|i'|j']; [done| |]; simpl.
    + destruct Hp as [->|[_ ->]]; [done|]. rewrite list_lookup_fmap. destruct (prods s !! i'); [|done].
      simpl. by rewrite producer_wake_holds.
    + destruct Hc as [->|[_ ->]]; [done|]. rewrite list_lookup_fmap. destruct (conss s !! j'); [|done].
      simpl. by rewrite consumer_wake_holds.
  - apply put_task_frame in Hs as (Hc & _ & _ & _ & _ & _ & Hsw & p & p' & _ & Hp). destruct t' as [|i'|j']; simpl.
    + by destruct Hsw as [->| ->]; rewrite ?wake_holds_c, ?wake_holds_p.
    + by rewrite Hp, list_lookup_insert_ne by congruence.
    + by rewrite Hc.
  - apply take_task_frame in Hs as (Hp & _ & _ & _ & Hsw & p & p' & _ & Hc). destruct t' as [|i'|j']; simpl.
    + by destruct Hsw as [->| ->]; rewrite ?wake_holds_c, ?wake_holds_p.
    + by rewrite Hp.
    + by rewrite Hc, list_lookup_insert_ne by congruence.
Qed.

(** A thread keeps what it holds, takes a free mutex or gives its own back. *)
Definition mutex_step (m m' : option thread) (h h' : bool) (t : thread) : Prop :=
  (m' = m ∧ h' = h) ∨ (m = None ∧ m' = Some t ∧ h' = true) ∨ (h = true ∧ m' = None ∧ h' = false).

Lemma step_mutex t s s' : thread_step t s = Some s' →
  mutex_step (Product_Mutex s) (Product_Mutex s') (holds_product t s) (holds_product t s') t ∧
  mutex_step (Comsumer_Mutex s) (Comsumer_Mutex s') (holds_comsumer t s) (holds_comsumer t s') t.
Proof.
  unfold mutex_step. intros Hs. destruct t as [|i|j]; simpl in *.
  - unfold swap_task, lock_product, lock_comsumer in Hs. destruct (swapper s) eqn:E; simplify_option_eq;
    try (destruct (consum_task s); simplify_eq/=); try (destruct (product_task s); simplify_eq/=);
    rewrite ?E; simpl; auto 10.
  - unfold put_task, lock_product in Hs. destruct (prods s !! i) as [[p todo]|] eqn:E; [|done].
    assert (i < length (prods s))%nat by by eapply lookup_lt_Some. cbn [mbind option_bind] in Hs.
    destruct p as [|[]| | | | | | |]; [destruct todo|..]; simplify_option_eq;
      rewrite ?list_lookup_insert_eq by done; simpl; try destruct (full s); auto 10.
  - unfold take_task, lock_comsumer in Hs. destruct (conss s !! j) as [p|] eqn:E; [|done].
    assert (j < length (conss s))%nat by by eapply lookup_lt_Some. cbn [mbind option_bind] in Hs.
    destruct p; simplify_option_eq; try (destruct (consum_task s); simplify_eq/=);
      rewrite ?list_lookup_insert_eq by done; simpl; auto 10.
Qed.

Lemma mutex_step_owner m m' (h h' : thread → bool) t :
  (∀ t', m = Some t' ↔ h t') → (∀ t', t' ≠ t → h' t' = h t') → mutex_step m m' (h t) (h' t) t →
  ∀ t', m' = Some t' ↔ h' t'.
Proof.
  intros Hm Hother Hstep t'. destruct (decide (t' = t)) as [->|Hne].
  - destruct Hstep as [[-> ->]|[(_ & -> & ->)|(_ & -> & ->)]]; [done| |]; by split.
  - rewrite Hother by done. destruct Hstep as [[-> _]|[(Hn & -> & _)|(Ht & -> & _)]]; [done| |].
    + rewrite <-Hm, Hn. split; congruence.
    + rewrite <-Hm. assert (m = Some t) as -> by (apply Hm; by rewrite Ht). split; congruence.
Qed.

Lemma task_step_locks t s s' : locks s → thread_step t s = Some s' → locks s'.
Proof.
  intros [H1 H2] Hs. destruct (step_mutex _ _ _ Hs) as [Hm1 Hm2].
  split.
  - apply (mutex_step_owner _ _ (λ t', holds_product t' s) (λ t', holds_product t' s') t H1); [|done].
    intros. by eapply others_hold.
  - apply (mutex_step_owner _ _ (λ t', holds_comsumer t' s) (λ t', holds_comsumer t' s') t H2); [|done].
    intros. by eapply others_hold.
Qed.

Lemma spurious_holds s s' t : spurious s s' →
  holds_product t s' = holds_product t s ∧ holds_comsumer t s' = holds_comsumer t s.
Proof.
  intros [|i p Hp|j p Hp]; destruct t as [|i'|j']; simpl; rewrite ?wake_holds_c, ?wake_holds_p; try done.
  - split; [|done]. destruct (decide (i = i')) as [->|]; [|by rewrite list_lookup_insert_ne].
    rewrite list_lookup_insert_eq, Hp by by eapply lookup_lt_Some. simpl. by rewrite producer_wake_holds.
  - split; [done|]. destruct (decide (j = j')) as [->|]; [|by rewrite list_lookup_insert_ne].
    rewrite list_lookup_insert_eq, Hp by by eapply lookup_lt_Some. simpl. by rewrite consumer_wake_holds.
Qed.

Lemma spurious_locks s s' : locks s → spurious s s' → locks s'.
Proof.
  intros [H1 H2] Hs. assert (Product_Mutex s' = Product_Mutex s ∧ Comsumer_Mutex s' = Comsumer_Mutex s) as [E1 E2].
  { by destruct Hs. }
  split; intros t; destruct (spurious_holds s s' t Hs) as [Hp Hc]; [by rewrite E1, Hp|by rewrite E2, Hc].
Qed.

(** One thread at a time holds a mutex. *)
Lemma product_excl s t t' : locks s → holds_product t s → holds_product t' s → t = t'.
Proof. intros [H1 _] Ht%H1 Ht'%H1. congruence. Qed.
Lemma comsumer_excl s t t' : locks s → holds_comsumer t s → holds_comsumer t' s → t = t'.
Proof. intros [_ H2] Ht%H2 Ht'%H2. congruence. Qed.

(** ** Signals *)

Lemma signal_swap_signals s : signals s → signals (signal_swap s).
Proof.
  intros [G1 G2 G3 G4]. split; [| | |done].
  - unfold swapper_ok in *. simpl. destruct (swapper s); simpl; naive_solver.
  - intros j p Hp. specialize (G2 j p Hp). destruct p; simpl in *; destruct (swapper s); naive_solver.
  - intros i p Hp. specialize (G3 i p Hp). destruct p as [[] ?]; simpl in *; destruct (swapper s); naive_solver.
Qed.

(** The mutexes and the records of the past do not matter. *)
Lemma set_pm_signals s m : signals s → signals (set_pm m s).
Proof. intros [G1 G2 G3 G4]. by split. Qed.
Lemma set_cm_signals s m : signals s → signals (set_cm m s).
Proof. intros [G1 G2 G3 G4]. by split. Qed.
Lemma set_handled_signals s l : signals s → signals (set_handled l s).
Proof. intros [G1 G2 G3 G4]. by split. Qed.
#[local] Hint Resolve signal_swap_signals set_pm_signals set_cm_signals set_handled_signals : core.

Lemma set_cons_signals s j p : signals s → consumer_ok s p → signals (set_cons j p s).
Proof.
  intros [G1 G2 G3 G4] Hp. split; [done| |done|done].
  intros k q [(_ & <- & _)|[_ Hq]]%list_lookup_insert_Some; [by destruct p|].
  specialize (G2 k q Hq). by destruct q.
Qed.

Lemma set_prod_signals s i p p' : signals s → prods s !! i = Some p → producer_ok s p'.1 →
  (will_signal p.1 → will_signal p'.1 ∨ swapper s ≠ S_Wait_p) → signals (set_prod i p' s).
Proof.
  intros [G1 G2 G3 G4] Hp Hok Hw. split; [|done| |done].
  - unfold swapper_ok in *. simpl. destruct (swapper s) eqn:E; try done. destruct G1 as [Hc [Hq|(k & q & Hk & Hq)]].
    + split; [done|]. by left.
    + split; [done|]. right. destruct (decide (i = k)) as [->|Hne].
      * exists k, p'. rewrite list_lookup_insert_eq by by eapply lookup_lt_Some. naive_solver.
      * exists k, q. by rewrite list_lookup_insert_ne.
  - intros k q [(_ & <- & _)|[_ Hq]]%list_lookup_insert_Some; [by destruct p' as [[] ?]|].
    specialize (G3 k q Hq). by destruct q as [[] ?].
Qed.

(** Nobody else holds a mutex that a consumer or a producer holds. *)
Lemma consumer_alone s j p : locks s → conss s !! j = Some p → c_holds p →
  s_holds_c (swapper s) = false ∧ ∀ k q, conss s !! k = Some q → c_holds q → k = j.
Proof.
  intros Hl Hj Hp. assert (holds_comsumer (Consumer j) s) as Hold by (simpl; by rewrite Hj). split.
  - destruct (s_holds_c (swapper s)) eqn:E; [|done]. by specialize (comsumer_excl s Swapper _ Hl (Is_true_true_2 _ E) Hold).
  - intros k q Hk Hq. assert (holds_comsumer (Consumer k) s) as Hold' by (simpl; by rewrite Hk).
    by specialize (comsumer_excl s _ _ Hl Hold' Hold) as [= ->].
Qed.

Lemma producer_alone s i p : locks s → prods s !! i = Some p → p_holds p.1 →
  s_holds_p (swapper s) = false ∧ ∀ k q, prods s !! k = Some q → p_holds q.1 → k = i.
Proof.
  intros Hl Hi Hp. assert (holds_product (Producer i) s) as Hold by (simpl; by rewrite Hi). split.
  - destruct (s_holds_p (swapper s)) eqn:E; [|done]. by specialize (product_excl s Swapper _ Hl (Is_true_true_2 _ E) Hold).
  - intros k q Hk Hq. assert (holds_product (Producer k) s) as Hold' by (simpl; by rewrite Hk).
    by specialize (product_excl s _ _ Hl Hold' Hold) as [= ->].
Qed.

Lemma swapper_alone s : locks s →
  (s_holds_c (swapper s) → ∀ j p, conss s !! j = Some p → c_holds p = false) ∧
  (s_holds_p (swapper s) → ∀ i p, prods s !! i = Some p → p_holds p.1 = false).
Proof.
  intros Hl. split; intros Hs k p Hk.
  - destruct (c_holds p) eqn:E; [|done]. assert (holds_comsumer (Consumer k) s) as Hold by (simpl; rewrite Hk; simpl; by rewrite E).
    by specialize (comsumer_excl s Swapper _ Hl Hs Hold).
  - destruct (p_holds p.1) eqn:E; [|done]. assert (holds_product (Producer k) s) as Hold by (simpl; rewrite Hk; simpl; by rewrite E).
    by specialize (product_excl s Swapper _ Hl Hs Hold).
Qed.

Lemma take_task_signals j s s' : good s → take_task j s = Some s' → signals s'.
Proof.
  intros [Hl Hg] Hs. unfold take_task, lock_comsumer in Hs. destruct (conss s !! j) as [p|] eqn:Hj; [|done].
  cbn [mbind option_bind] in Hs. pose proof (g_consumer _ Hg j p Hj) as Hok.
  destruct p; [|destruct (consum_task s) eqn:E| | | | |destruct (consum_task s) as [|x q] eqn:E| |];
    simplify_option_eq; try (apply set_cons_signals; by auto).
  - apply set_cons_signals; [done|]. simpl. by rewrite E.
  - apply set_cons_signals; [by auto|]. simpl in *. split; [done|]. by destruct (swapper s).
  - apply set_cons_signals; [by auto|]. simpl in *. destruct Hok. auto.
  - destruct (consumer_alone s j C_Take Hl Hj) as [Hsw Ho]; [done|].
    assert (signals (set_cons j (C_Unlock x) s)) as [G1 G2 G3 G4] by by apply set_cons_signals. split; [| |done|done].
    + unfold swapper_ok in *. simpl in *. by destruct (swapper s).
    + intros k r Hk. specialize (G2 k r Hk). simpl in *.
      apply list_lookup_insert_Some in Hk as [(_ & <- & _)|[Hne Hk]]; [done|].
      assert (c_holds r = false) as Hr by (destruct (c_holds r) eqn:Er; [destruct Hne; symmetry; apply (Ho k r Hk); by rewrite Er|done]).
      destruct r; simpl in *; try done. rewrite E in G2. by destruct G2 as [[?|Esw] ?]; [|rewrite Esw in Hsw].
Qed.

Lemma put_task_signals i s s' : good s → put_task i s = Some s' → signals s'.
Proof.
  intros [Hl Hg] Hs. unfold put_task, lock_product in Hs. destruct (prods s !! i) as [[p todo]|] eqn:Hi; [|done].
  cbn [mbind option_bind] in Hs. pose proof (g_producer _ Hg i _ Hi) as Hok. cbn [fst] in Hok.
  assert (p_holds p → swapper s ≠ S_Swap ∧ swapper s ≠ S_BroadcastC ∧ swapper s ≠ S_BroadcastP) as Hsw.
  { intros Hp. destruct (producer_alone s i _ Hl Hi Hp) as [Hsw _]. by destruct (swapper s). }
  destruct p as [|[|x l]|x l|l|l|l|l| |]; [destruct todo|..]; simplify_option_eq;
    try (eapply set_prod_signals; [by auto|exact Hi|done|by auto]).
  - destruct (full s) eqn:E; (eapply set_prod_signals; [done|exact Hi|exact E|by left]).
  - assert (signals (set_prod i (P_Next l, todo) s)) as [G1 G2 G3 G4].
    { eapply set_prod_signals; [done|exact Hi|done|by left]. }
    destruct (producer_alone s i _ Hl Hi I) as [_ Ho]. destruct (Hsw I) as (Hs1 & Hs2 & Hs3). split; [|done| |].
    + unfold swapper_ok in *. simpl in *. destruct (swapper s); try done. split; [by apply G1|]. right.
      exists i, (P_Next l, todo). by rewrite list_lookup_insert_eq by by eapply lookup_lt_Some.
    + intros k [r todo'] Hk. specialize (G3 k _ Hk). simpl in *.
      apply list_lookup_insert_Some in Hk as [(_ & [= <- <-] & _)|[Hne Hk]]; [done|].
      assert (p_holds r = false) as Hr.
      { destruct (p_holds r) eqn:Er; [|done]. destruct Hne. symmetry. apply (Ho k _ Hk). simpl; by rewrite Er. }
      destruct r; simpl in *; try done. destruct G3 as [G3|[G3|G3]]; [|done..].
      change (full (set_prod i (P_Next l, todo) s)) with (full s) in G3. congruence.
    + simpl in *. unfold full in Hok. apply bool_decide_eq_false in Hok. rewrite length_app. simpl. lia.
  - eapply set_prod_signals; [by auto|exact Hi|exact Hok|]. right. simpl. by destruct (swapper s).
  - eapply set_prod_signals; [by auto|exact Hi|by left|done].
  - eapply set_prod_signals; [by auto|exact Hi|done|]. right. simpl. by destruct (swapper s).
Qed.

Lemma set_swapper_signals s p : signals s → swapper s ≠ S_BroadcastC → swapper s ≠ S_BroadcastP →
  swapper_ok (set_swapper p s) → (p = S_Wait_c → ∀ j c, conss s !! j = Some c → c ≠ C_CondWait ∧ c ≠ C_Wait) →
  signals (set_swapper p s).
Proof.
  intros [G1 G2 G3 G4] Hc Hp Hok Hw. split; [done| | |done].
  - intros j c Hj. specialize (G2 j c Hj).
    assert (c = C_CondWait ∨ c = C_Wait → p ≠ S_Wait_c) as Hpw by (intros Hcw ->; destruct (Hw eq_refl j c Hj); naive_solver).
    destruct c; simpl in *; try done; naive_solver.
  - intros i r Hi. specialize (G3 i r Hi). destruct r as [[] ?]; simpl in *; try done. left. naive_solver.
Qed.

Lemma swap_queues_signals s : good s → swapper s = S_Swap →
  signals (set_swapper S_BroadcastC (set_consum (product_task s) (set_product (consum_task s) s))).
Proof.
  intros [Hl Hg] E. destruct (swapper_alone s Hl) as [Hc Hp]. rewrite E in Hc, Hp. specialize (Hc I). specialize (Hp I).
  destruct Hg as [G1 G2 G3 G4]. unfold swapper_ok in G1. rewrite E in G1. destruct G1 as [Hq Hne]. split; simpl.
  - done.
  - intros j c Hj. specialize (Hc j c Hj). destruct c; simpl in *; try done. split; [by right|done].
  - intros i r Hi. specialize (Hp i r Hi). destruct r as [[] ?]; simpl in *; try done. right. by left.
  - rewrite Hq. simpl. apply wrapu_range. lia.
Qed.

Lemma broadcast_signals s : good s →
  (swapper s = S_BroadcastC → signals (set_swapper S_BroadcastP (broadcast_comsum s))) ∧
  (swapper s = S_BroadcastP → signals (set_swapper S_UnlockP (broadcast_product s))).
Proof.
  intros [Hl Hg]. destruct (swapper_alone s Hl) as [Hc Hp]. destruct Hg as [G1 G2 G3 G4].
  split; intros E; rewrite E in Hc, Hp; specialize (Hc I); specialize (Hp I); split; simpl; try done.
  - intros j c Hj. rewrite list_lookup_fmap in Hj. destruct (conss s !! j) as [c'|] eqn:Hj'; [|done].
    specialize (Hc j c' Hj'). simpl in Hj. injection Hj as [= <-]. by destruct c'.
  - intros i r Hi. specialize (G3 i r Hi). specialize (Hp i r Hi). destruct r as [[] ?]; simpl in *; try done.
    rewrite E in G3. naive_solver.
  - intros j c Hj. specialize (G2 j c Hj). specialize (Hc j c Hj). destruct c; simpl in *; try done.
    rewrite E in G2. naive_solver.
  - intros i r Hi. rewrite list_lookup_fmap in Hi. destruct (prods s !! i) as [r'|] eqn:Hi'; [|done].
    specialize (Hp i r' Hi'). simpl in Hi. injection Hi as [= <-]. by destruct r' as [[] ?].
Qed.

Lemma swap_task_signals s s' : good s → swap_task s = Some s' → signals s'.
Proof.
  intros Hgood Hs. pose proof (swap_queues_signals s Hgood) as Hswap. destruct (broadcast_signals s Hgood) as [Hbc Hbp].
  destruct Hgood as [Hl Hg]. destruct (swapper_alone s Hl) as [Hc _].
  pose proof (g_swapper _ Hg) as G1. unfold swapper_ok in G1. unfold swap_task, lock_product, lock_comsumer in Hs.
  destruct (swapper s) eqn:E; [|destruct (consum_task s) eqn:Eq| | | |destruct (product_task s) eqn:Eq| | | | | | |];
    simplify_option_eq; try (by auto);
    try (apply set_swapper_signals; [by auto|simpl; by rewrite E..| |done]; unfold swapper_ok; simpl; by rewrite ?Eq; auto).
  apply set_swapper_signals; [by auto|simpl; by rewrite E..|done|]. intros _ j c Hj. specialize (Hc I j c Hj).
  pose proof (g_consumer _ Hg j c Hj) as Hok. destruct c; try done. simpl in Hok. rewrite Eq, E in Hok. naive_solver.
Qed.

Lemma spurious_signals s s' : signals s → spurious s s' → signals s'.
Proof.
  intros Hg [|i p Hp|j p Hp]; [by auto| |].
  - eapply set_prod_signals; [done|exact Hp| |].
    + pose proof (g_producer _ Hg i p Hp). by destruct p as [[] ?].
    + destruct p as [[] ?]; simpl; by auto.
  - apply set_cons_signals; [done|]. pose proof (g_consumer _ Hg j p Hp). by destruct p.
Qed.

Lemma any_step_good s s' : good s → any_step s s' → good s'.
Proof.
  intros Hg [[t ? Hs]|Hs].
  - split; [by eapply task_step_locks, Hs; apply Hg|].
    destruct t; [by eapply swap_task_signals|by eapply put_task_signals|by eapply take_task_signals].
  - destruct Hg. split; [by eapply spurious_locks|by eapply spurious_signals].
Qed.

Lemma task_steps_good s s' : good s → rtc any_step s s' → good s'.
Proof. intros Hg Hs. induction Hs as [|s1 s2 s3 Hs _ IH]; [done|]. apply IH. by eapply any_step_good. Qed.

Lemma Task_new_good max todo n : good (Task_new max todo n).
Proof.
  assert (∀ i p, ((λ vs, (P_Idle, vs)) <$> todo) !! i = Some p → p.1 = P_Idle) as Hp.
  { intros i p. rewrite list_lookup_fmap. destruct (todo !! i); naive_solver. }
  split; split.
  - intros [|i|j]; simpl; try done. destruct (_ !! i) as [p|] eqn:E; simpl; [|done].
    by rewrite (Hp i p E).
  - intros [|i|j]; simpl; try done. destruct (replicate n C_Lock !! j) as [p|] eqn:E; simpl; [|done].
    apply lookup_replicate in E as [-> _]. done.
  - done.
  - intros j p [-> _]%lookup_replicate. done.
  - intros i p Hi. by rewrite (Hp i p Hi).
  - simpl. apply wrapu_range. lia.
Qed.

(** ** Order *)

Lemma task_of_thread_app i l l' : of_thread i (l ++ l') = of_thread i l ++ of_thread i l'.
Proof. unfold of_thread. by rewrite filter_app, fmap_app. Qed.
Lemma of_consumer_app j l l' : of_consumer j (l ++ l') = of_consumer j l ++ of_consumer j l'.
Proof. unfold of_consumer. by rewrite filter_app, fmap_app. Qed.

Lemma still_insert s i p p' k : prods s !! i = Some p →
  still k (set_prod i p' s) = if decide (k = i) then to_put p' else still k s.
Proof.
  intros Hi. unfold still. simpl. case_decide as Hk.
  - subst k. by rewrite list_lookup_insert_eq by by eapply lookup_lt_Some.
  - by rewrite list_lookup_insert_ne.
Qed.

Lemma still_of s i p : prods s !! i = Some p → still i s = to_put p.
Proof. intros Hi. unfold still. by rewrite Hi. Qed.

Lemma still_wake s ps : ps = prods s ∨ ps = wake_producer <$> prods s → ∀ k, still k (set_prods ps s) = still k s.
Proof.
  intros [->| ->] k; [done|]. unfold still. simpl. rewrite list_lookup_fmap. by destruct (prods s !! k) as [[[] ?]|].
Qed.

Lemma same_sequence s s' (P : Prop) : sequence s' = sequence s ∧ (∀ k, still k s' = still k s) →
  ∃ l, sequence s' = sequence s ++ l ∧ (∀ k, of_thread k l ++ still k s' = still k s) ∧ (l = [] ∨ P).
Proof. intros [Hseq Hst]. exists []. rewrite app_nil_r. auto. Qed.

Lemma put_task_sequence i s s' : put_task i s = Some s' → ∃ l, sequence s' = sequence s ++ l ∧
  (∀ k, of_thread k l ++ still k s' = still k s) ∧ (l = [] ∨ product_task s' ≠ []).
Proof.
  intros Hs. unfold put_task, lock_product in Hs. destruct (prods s !! i) as [[p todo]|] eqn:Hi; [|done].
  cbn [mbind option_bind] in Hs.
  assert (∀ p' s1, prods s1 = prods s → sequence s1 = sequence s → to_put p' = to_put (p, todo) →
    sequence (set_prod i p' s1) = sequence s ∧ ∀ k, still k (set_prod i p' s1) = still k s) as Hsame.
  { intros p' s1 Hps Hseq Hput. split; [done|]. intros k.
    rewrite (still_insert s1 i (p, todo)) by (by rewrite Hps). unfold still at 1. rewrite Hps.
    case_decide; [|done]. subst. by rewrite Hput, (still_of _ _ _ Hi). }
  destruct p as [|[|x l]|x l|l|l|l|l| |]; [destruct todo|..]; simplify_option_eq; try (by apply same_sequence, Hsame).
  - apply same_sequence, Hsame; [done..|]. by destruct (full s).
  - exists [(i, x)]. split; [unfold sequence; simpl; by rewrite !(assoc_L (++))|].
    split; [|right; simpl; by destruct (product_task s)]. intros k. rewrite (still_insert (set_product _ s) _ _ _ k Hi). unfold of_thread. case_decide as Hk.
    + subst k. rewrite filter_cons_True by done. by rewrite (still_of _ _ _ Hi).
    + by rewrite filter_cons_False by naive_solver.
Qed.

Lemma any_step_sequence s s' : good s → any_step s s' → ∃ l, sequence s' = sequence s ++ l ∧
  (∀ k, of_thread k l ++ still k s' = still k s) ∧ (l = [] ∨ product_task s' ≠ []).
Proof.
  intros [Hl Hg] [[[|i|j] s2 Hs]|Hs]; [|by eapply put_task_sequence| |].
  - pose proof (swap_task_frame _ _ Hs) as (_ & Ht & _ & Hps & _). apply same_sequence; split.
    + pose proof (g_swapper _ Hg) as G1. unfold swapper_ok in G1. unfold thread_step, swap_task, lock_product, lock_comsumer in Hs.
      destruct (swapper s); simplify_option_eq; try done;
        try (destruct (consum_task s); by simplify_eq/=); try (destruct (product_task s); by simplify_eq/=).
      unfold sequence. simpl. destruct G1 as [-> _]. by rewrite app_nil_r.
    + intros k. assert (prods s2 = prods s ∨ prods s2 = wake_producer <$> prods s) as Hps' by naive_solver.
      exact (still_wake s _ Hps' k).
  - pose proof (take_task_frame _ _ _ Hs) as (Hps & _). apply same_sequence; split; [|intros k; unfold still; by rewrite Hps].
    unfold thread_step, take_task, lock_comsumer in Hs. destruct (conss s !! j) as [p|]; [|done]. cbn [mbind option_bind] in Hs.
    destruct p; [|destruct (consum_task s) eqn:E| | | | |destruct (consum_task s) as [|x q] eqn:E| |]; simplify_option_eq; try done.
    unfold sequence. simpl. by rewrite fmap_app, <-(assoc_L (++)), E.
  - apply same_sequence; split; destruct Hs as [|i p Hp|j p Hp]; try done. intros k. rewrite (still_insert _ _ _ _ _ Hp).
    case_decide; [|done]. subst. rewrite (still_of _ _ _ Hp). by destruct p as [[] ?].
Qed.

Lemma in_hand_insert s j p p' k : conss s !! j = Some p →
  in_hand k (set_cons j p' s) = if decide (k = j) then hand p' else in_hand k s.
Proof.
  intros Hj. unfold in_hand. simpl. case_decide as Hk.
  - subst k. by rewrite list_lookup_insert_eq by by eapply lookup_lt_Some.
  - by rewrite list_lookup_insert_ne.
Qed.

Lemma set_cons_accounted s j p p' : accounted s → conss s !! j = Some p → hand p' = hand p → accounted (set_cons j p' s).
Proof.
  intros Ha Hj Hh k. rewrite (in_hand_insert _ _ _ _ _ Hj). case_decide; [|apply Ha]. subst. rewrite Hh.
  specialize (Ha j). unfold in_hand in Ha. by rewrite Hj in Ha.
Qed.

Lemma take_task_accounted j s s' : accounted s → take_task j s = Some s' → accounted s'.
Proof.
  intros Ha Hs. unfold take_task, lock_comsumer in Hs. destruct (conss s !! j) as [p|] eqn:Hj; [|done].
  cbn [mbind option_bind] in Hs. pose proof (Ha j) as Haj. unfold in_hand in Haj. rewrite Hj in Haj. simpl in Haj.
  destruct p; [|destruct (consum_task s) eqn:E| | | | |destruct (consum_task s) as [|x q] eqn:E| |]; simplify_option_eq;
    try (by eapply set_cons_accounted).
  - intros k. rewrite (in_hand_insert (set_taken _ (set_consum q s)) _ _ _ _ Hj). simpl.
    rewrite of_consumer_app. case_decide as Hk.
    + subst k. rewrite Haj, app_nil_r. unfold of_consumer at 2. by rewrite filter_cons_True.
    + rewrite (Ha k). unfold of_consumer at 2. rewrite filter_cons_False by naive_solver. by rewrite app_nil_r.
  - intros k. rewrite (in_hand_insert (set_handled _ s) _ _ _ _ Hj). simpl.
    rewrite of_consumer_app. case_decide as Hk.
    + subst k. rewrite Haj, app_nil_r. unfold of_consumer at 3. by rewrite filter_cons_True.
    + rewrite (Ha k). unfold of_consumer at 3. rewrite filter_cons_False by naive_solver. by rewrite app_nil_r.
Qed.

Lemma any_step_accounted s s' : accounted s → any_step s s' → accounted s'.
Proof.
  intros Ha [[[|i|j] ? Hs]|Hs]; [| |by eapply take_task_accounted|].
  - apply swap_task_frame in Hs as (_ & Ht & Hh & _ & Hc). intros k. specialize (Ha k).
    rewrite Ht, Hh, Ha. f_equal. unfold in_hand. destruct Hc as [->|[_ ->]]; [done|].
    rewrite list_lookup_fmap. by destruct (conss s !! k) as [[]|].
  - apply put_task_frame in Hs as (Hc & _ & _ & _ & Ht & Hh & _). intros k. specialize (Ha k).
    unfold in_hand. by rewrite Ht, Hh, Hc.
  - destruct Hs as [|i p Hp|j p Hp]; [done..|]. eapply set_cons_accounted; [done|exact Hp|]. by destruct p.
Qed.

Lemma any_step_grows s s' : any_step s s' → taken s `prefix_of` taken s' ∧ handled s `prefix_of` handled s' ∧
  max_task_num s' = max_task_num s ∧ length (prods s') = length (prods s) ∧ length (conss s') = length (conss s).
Proof.
  intros [[[|i|j] ? Hs]|Hs].
  - apply swap_task_frame in Hs as (Hm & -> & -> & Hp & Hc). split_and!; [done..| |].
    + by destruct Hp as [->|[_ ->]]; rewrite ?length_fmap.
    + by destruct Hc as [->|[_ ->]]; rewrite ?length_fmap.
  - apply put_task_frame in Hs as (-> & _ & Hm & _ & -> & -> & _ & p & p' & _ & ->). by rewrite length_insert.
  - pose proof (take_task_frame _ _ _ Hs) as (-> & _ & Hm & _ & _ & p & p' & _ & ->). rewrite length_insert.
    unfold thread_step, take_task, lock_comsumer in Hs. destruct (conss s !! j) as [q|]; [|done]. cbn [mbind option_bind] in Hs.
    destruct q; [|destruct (consum_task s)| | | | |destruct (consum_task s)| |]; simplify_option_eq; split_and!; try done;
      by eexists.
  - destruct Hs; simpl; by rewrite ?length_insert.
Qed.

(** ** Termination *)

#[local] Arguments Nat.mul : simpl never.
#[local] Arguments task_work : simpl never.
#[local] Arguments put_work : simpl never.

Lemma wake_swapper_work np nc p : (swapper_work np nc (wake_swapper p) ≤ swapper_work np nc p + 4)%nat.
Proof. destruct p; simpl; lia. Qed.

Lemma wake_producer_work v p : (producer_work v (wake_producer p) ≤ producer_work v p + 8)%nat.
Proof. destruct p as [[] todo]; unfold producer_work; simpl; lia. Qed.

Lemma swap_task_work s s' : good s → swap_task s = Some s' → (work s' < work s)%nat.
Proof.
  intros [Hl Hg] Hs. pose proof (g_swapper _ Hg) as G1. unfold swapper_ok in G1.
  unfold swap_task, lock_product, lock_comsumer in Hs. unfold work.
  destruct (swapper s) eqn:E; [|destruct (consum_task s) eqn:Eq| | | |destruct (product_task s) eqn:Eq| | | | | | |];
    simplify_option_eq; simpl; rewrite ?E, ?Eq, ?length_fmap; simpl; try lia.
  - destruct G1 as [-> Hne]. destruct (product_task s) as [|x q]; [done|]. simpl.
    unfold task_work. nia.
  - assert (∀ p, (consumer_work (wake_consumer p) ≤ consumer_work p + 8)%nat) as Hw by (intros []; simpl; lia).
    pose proof (sum_list_fmap_le _ _ _ (conss s) Hw). lia.
  - pose proof (sum_list_fmap_le _ _ _ (prods s) (wake_producer_work (put_work (length (prods s)) (length (conss s))))). lia.
Qed.

Lemma take_task_work j s s' : take_task j s = Some s' → (work s' < work s)%nat.
Proof.
  intros Hs. unfold take_task, lock_comsumer in Hs. destruct (conss s !! j) as [p|] eqn:Hj; [|done].
  cbn [mbind option_bind] in Hs. pose proof (λ q, sum_list_insert consumer_work _ _ _ q Hj) as Hsum.
  pose proof (wake_swapper_work (length (prods s)) (length (conss s)) (swapper s)) as Hwake. unfold work.
  destruct p; [|destruct (consum_task s) eqn:E| | | | |destruct (consum_task s) as [|x q] eqn:E| |];
    simplify_option_eq; simpl; rewrite ?length_insert, ?E; simpl;
    match goal with |- context [<[j := ?q]> _] => specialize (Hsum q) end; simpl in Hsum; lia.
Qed.

Lemma put_task_work i s s' : put_task i s = Some s' → (work s' < work s)%nat.
Proof.
  intros Hs. unfold put_task, lock_product in Hs. destruct (prods s !! i) as [[p todo]|] eqn:Hi; [|done].
  cbn [mbind option_bind] in Hs. pose proof (λ v q, sum_list_insert (producer_work v) _ _ _ q Hi) as Hsum.
  pose proof (wake_swapper_work (length (prods s)) (length (conss s)) (swapper s)) as Hwake. unfold work.
  pose proof (eq_refl : put_work (length (prods s)) (length (conss s)) = 2 + task_work (length (prods s)) (length (conss s)))%nat as Hu.
  destruct p as [|[|x l]|x l|l|l|l|l| |]; [destruct todo|..]; simplify_option_eq; simpl; rewrite ?length_insert, ?length_app; simpl;
    match goal with |- context [<[i := ?q]> _] => specialize (Hsum (put_work (length (prods s)) (length (conss s))) q) end;
    match type of Hsum with (?a + _ = ?b + _)%nat => generalize dependent a; generalize dependent b; intros b' a' Hsum end;
    unfold producer_work in Hsum; generalize dependent (put_work (length (prods s)) (length (conss s)));
    generalize (task_work (length (prods s)) (length (conss s))); intros u v Hv Hsum;
    try destruct (full s); simpl in *; nia.
Qed.

Lemma task_step_work s s' : good s → step s s' → (work s' < work s)%nat.
Proof. intros Hg [[|i|j] ? Hs]; [by apply swap_task_work|by eapply put_task_work|by eapply take_task_work]. Qed.

Lemma task_step_good s s' : good s → step s s' → good s'.
Proof. intros Hg Hs. eapply any_step_good; [done|]. by left. Qed.

Lemma task_steps_sequence s s' : good s → rtc any_step s s' →
  sequence s `prefix_of` sequence s' ∧
  ∀ i, of_thread i (sequence s') ++ still i s' = of_thread i (sequence s) ++ still i s.
Proof.
  intros Hg Hs. induction Hs as [|s1 s2 s3 Hs Hss IH]; [done|].
  destruct (IH (any_step_good _ _ Hg Hs)) as (IH1 & IH2).
  destruct (any_step_sequence s1 s2 Hg Hs) as (l & E & Hi & _). split.
  - etrans; [|exact IH1]. rewrite E. by eexists.
  - intros i. by rewrite IH2, E, task_of_thread_app, <-(assoc_L (++)), Hi.
Qed.

Lemma steps_accounted s s' : accounted s → rtc any_step s s' → accounted s'.
Proof. intros Ha Hs. induction Hs as [|s1 s2 s3 Hs _ IH]; [done|]. apply IH. by eapply any_step_accounted. Qed.

Lemma steps_grow s s' : rtc any_step s s' → taken s `prefix_of` taken s' ∧ handled s `prefix_of` handled s' ∧
  max_task_num s' = max_task_num s ∧ length (prods s') = length (prods s) ∧ length (conss s') = length (conss s).
Proof.
  intros Hs. induction Hs as [|s1 s2 s3 Hs _ IH]; [done|]. destruct IH as (H1 & H2 & -> & -> & ->).
  destruct (any_step_grows _ _ Hs) as (H3 & H4 & -> & -> & ->). split_and!; [by etrans..|done|done|done].
Qed.

(** Without room no task is ever put. *)
Lemma steps_no_room s s' : good s → u64 (max_task_num s) = 0%Z → sequence s = [] → rtc any_step s s' → sequence s' = [].
Proof.
  intros Hg Hm Hseq Hs. induction Hs as [|s1 s2 s3 Hs _ IH]; [done|].
  pose proof (any_step_good _ _ Hg Hs) as Hg2. destruct (any_step_grows _ _ Hs) as (_ & _ & Hm2 & _).
  apply IH; [done|by rewrite Hm2|]. destruct (any_step_sequence _ _ Hg Hs) as (l & -> & _ & [->|Hne]); [by rewrite Hseq|].
  pose proof (g_size _ (proj2 Hg2)) as Hsize. rewrite Hm2, Hm in Hsize. by destruct (product_task s2); simpl in Hsize; [|lia].
Qed.

Lemma Task_new_still max todo n i : still i (Task_new max todo n) = mjoin (default [] (todo !! i)).
Proof. unfold still. simpl. rewrite list_lookup_fmap. by destruct (todo !! i). Qed.

Lemma Task_new_accounted max todo n : accounted (Task_new max todo n).
Proof.
  intros j. unfold in_hand. simpl. destruct (replicate n C_Lock !! j) as [p|] eqn:E; [|done].
  by apply lookup_replicate in E as [-> _].
Qed.

(** ** The end *)

Lemma task_step_or_stuck s : (∃ s', step s s') ∨ ∀ t, thread_step t s = None.
Proof.
  set (ts := Swapper :: (Producer <$> seq 0 (length (prods s))) ++ (Consumer <$> seq 0 (length (conss s)))).
  destruct (decide (Exists (λ t, is_Some (thread_step t s)) ts)) as [He|He].
  - left. apply Exists_exists in He as (t & _ & s' & Hs). exists s'. by econstructor.
  - right. intros t. destruct (thread_step t s) as [s'|] eqn:E; [|done]. destruct He. apply Exists_exists.
    exists t. split; [|by rewrite E]. destruct t as [|i|j]; [left|right..]; apply elem_of_app.
    + left. apply put_task_frame in E as (_ & _ & _ & _ & _ & _ & _ & p & _ & Hi & _).
      apply list_elem_of_fmap. exists i. split; [done|]. apply elem_of_seq. apply lookup_lt_Some in Hi. lia.
    + right. apply take_task_frame in E as (_ & _ & _ & _ & _ & p & _ & Hj & _).
      apply list_elem_of_fmap. exists j. split; [done|]. apply elem_of_seq. apply lookup_lt_Some in Hj. lia.
Qed.

Section stuck.
Context (s : tasks) (Hgood : good s) (Hstuck : ∀ t, thread_step t s = None).

Lemma stuck_producer i p todo : prods s !! i = Some (p, todo) →
  p_holds p = false ∧ (Product_Mutex s = None → p = P_Idle ∧ todo = [] ∨ ∃ l, p = P_Wait l).
Proof.
  intros Hi. pose proof (Hstuck (Producer i)) as Hs. simpl in Hs. unfold put_task, lock_product in Hs.
  rewrite Hi in Hs. cbn [mbind option_bind] in Hs.
  destruct p as [|[|x l]|x l|l|l|l|l| |]; [destruct todo|..]; try done;
    (split; [done|]); intros Hm; rewrite ?Hm in Hs; simpl in Hs; try done; [by left|right; by eexists].
Qed.

Lemma stuck_consumer j p : conss s !! j = Some p →
  c_holds p = false ∧ hand p = [] ∧ (Comsumer_Mutex s = None → p = C_Wait).
Proof.
  intros Hj. pose proof (Hstuck (Consumer j)) as Hs. pose proof (g_consumer _ (proj2 Hgood) j p Hj) as Hok.
  simpl in Hs. unfold take_task, lock_comsumer in Hs. rewrite Hj in Hs. cbn [mbind option_bind] in Hs.
  destruct p; simpl in Hok; try done; try (by destruct (consum_task s));
    split_and!; try done; intros Hm; by rewrite Hm in Hs.
Qed.

Lemma stuck_mutex : Product_Mutex s = None ∧ (Comsumer_Mutex s = None ∨ s_holds_c (swapper s)).
Proof.
  destruct Hgood as [[H1 H2] _]. split.
  - destruct (Product_Mutex s) as [t|] eqn:E; [|done]. pose proof (proj1 (H1 t) eq_refl) as Ht. destruct t as [|i|j]; simpl in Ht; try done.
    + pose proof (Hstuck Swapper) as Hs. simpl in Hs. unfold swap_task in Hs.
      destruct (swapper s); try done; by destruct (product_task s).
    + destruct (prods s !! i) as [[p todo]|] eqn:Hi; [|done]. simpl in Ht.
      by rewrite (proj1 (stuck_producer _ _ _ Hi)) in Ht.
  - destruct (Comsumer_Mutex s) as [t|] eqn:E; [|by left]. pose proof (proj1 (H2 t) eq_refl) as Ht. destruct t as [|i|j]; simpl in Ht; try done.
    + by right.
    + destruct (conss s !! j) as [p|] eqn:Hj; [|done]. simpl in Ht.
      by rewrite (proj1 (stuck_consumer _ _ Hj)) in Ht.
Qed.

Lemma stuck_swapper : (0 < length (conss s))%nat → swapper s = S_Wait_p.
Proof.
  intros Hn. destruct stuck_mutex as [Hp Hc]. pose proof (Hstuck Swapper) as Hs. simpl in Hs.
  unfold swap_task, lock_product, lock_comsumer in Hs. rewrite Hp in Hs.
  destruct (lookup_lt_is_Some_2 (conss s) 0 Hn) as [p Hj].
  assert (swapper s ≠ S_Wait_c) as Hw.
  { intros E. rewrite E in Hc. destruct Hc as [Hc|[]]. destruct (stuck_consumer _ _ Hj) as (_ & _ & Hpw).
    pose proof (g_consumer _ (proj2 Hgood) _ _ Hj) as Hok. rewrite (Hpw Hc) in Hok. by destruct Hok. }
  destruct (swapper s); try done; try (by destruct (consum_task s)); try (by destruct (product_task s)).
  - destruct Hc as [Hc|[]]. by rewrite Hc in Hs.
  - destruct Hc as [Hc|[]]. by rewrite Hc in Hs.
Qed.

Lemma task_stuck_done : (0 < length (conss s))%nat → u64 (max_task_num s) ≠ 0%Z →
  consum_task s = [] ∧ product_task s = [] ∧ (∀ i, still i s = []) ∧ ∀ j, in_hand j s = [].
Proof.
  intros Hn Hm. pose proof (stuck_swapper Hn) as Esw. destruct stuck_mutex as [Hp _].
  pose proof (g_swapper _ (proj2 Hgood)) as G1. unfold swapper_ok in G1. rewrite Esw in G1. destruct G1 as [Hc Hq].
  assert (product_task s = []) as Hq'.
  { destruct Hq as [?|(i & [p todo] & Hi & Hw)]; [done|]. destruct (stuck_producer _ _ _ Hi) as [Hh _]. by destruct p. }
  split_and!; [done|done| |].
  - intros i. unfold still. destruct (prods s !! i) as [[p todo]|] eqn:Hi; [|done].
    destruct (stuck_producer _ _ _ Hi) as [_ [[-> ->]|[l ->]]]; [done|done|].
    pose proof (g_producer _ (proj2 Hgood) _ _ Hi) as Hok. simpl in Hok. rewrite Esw in Hok.
    destruct Hok as [Hf|[?|?]]; [|done..]. unfold full in Hf. rewrite Hq' in Hf. apply bool_decide_eq_true in Hf.
    by rewrite <-Hf in Hm.
  - intros j. unfold in_hand. destruct (conss s !! j) as [p|] eqn:Hj; [|done].
    simpl. by destruct (stuck_consumer _ _ Hj) as (_ & -> & _).
Qed.
End stuck.

(** The same tasks of every thread are the same tasks. *)
Lemma of_consumer_perm l l' : (∀ j, of_consumer j l = of_consumer j l') → l ≡ₚ l'.
Proof.
  intros Hl. assert (∀ l j x, count_occ (λ x y, decide (x = y)) l (j, x) =
    count_occ (λ x y, decide (x = y)) (of_consumer j l) x) as Hc.
  { intros k j x. unfold of_consumer. induction k as [|[j' x'] k IH]; [done|]. cbn [count_occ].
    destruct (decide (j' = j)) as [->|Hne].
    - rewrite filter_cons_True by done. rewrite fmap_cons. cbn [count_occ snd]. rewrite IH.
      destruct (decide (x' = x)) as [->|]; [by rewrite decide_True|]. by rewrite decide_False by congruence.
    - rewrite filter_cons_False by done. by rewrite decide_False by congruence. }
  apply (Permutation_count_occ (λ x y, decide (x = y))). intros [j x]. by rewrite !Hc, Hl.
Qed.

Lemma task_step_owner t s s' : locks s → thread_step t s = Some s' →
  (product_task s' ≠ product_task s → Product_Mutex s = Some t) ∧
  (consum_task s' ≠ consum_task s → Comsumer_Mutex s = Some t).
Proof.
  intros [H1 H2] Hs. destruct t as [|i|j].
  - split; intros Hne; [apply H1|apply H2]; revert Hne; simpl in *; unfold swap_task, lock_product, lock_comsumer in Hs;
      destruct (swapper s); simplify_option_eq; try done;
      solve [by destruct (consum_task s); simplify_eq|by destruct (product_task s); simplify_eq].
  - pose proof (put_task_frame _ _ _ Hs) as (_ & -> & _). split; [|done]. intros Hne. apply H1. revert Hne. simpl in *.
    unfold put_task, lock_product in Hs. destruct (prods s !! i) as [[p todo]|]; [|done]. cbn [mbind option_bind] in Hs.
    destruct p as [|[|x l]|x l|l|l|l|l| |]; [destruct todo|..]; by simplify_option_eq.
  - pose proof (take_task_frame _ _ _ Hs) as (_ & -> & _). split; [done|]. intros Hne. apply H2. revert Hne. simpl in *.
    unfold take_task, lock_comsumer in Hs. destruct (conss s !! j) as [p|]; [|done]. cbn [mbind option_bind] in Hs.
    destruct p; [|destruct (consum_task s)| | | | |destruct (consum_task s)| |]; by simplify_option_eq.
Qed.

(** ** Properties *)

(** C24.  The task queue in any interleaving of its threads, even if they are woken
    for no reason: tasks keep the order in which they were put, none is lost,
    repeated or overtaken, those of each thread are the first of its tasks in
    its order; a thread of the pool handles exactly the tasks it takes, one at a
    time; the first queue never exceeds [max_task_num], so that nothing is ever
    put when this is 0; and only the holder of its mutex changes a queue. *)
Theorem tasks_keep_order max todo n s s' :
  rtc any_step (Task_new max todo n) s → rtc any_step s s' →
  sequence s `prefix_of` sequence s' ∧ taken s `prefix_of` taken s' ∧ handled s `prefix_of` handled s' ∧
  (∀ i, of_thread i (sequence s) ++ still i s = mjoin (default [] (todo !! i))) ∧
  (∀ j, of_consumer j (taken s) = of_consumer j (handled s) ++ in_hand j s) ∧
  (Z.of_nat (length (product_task s)) ≤ u64 max)%Z ∧ (u64 max = 0%Z → sequence s = []) ∧
  ∀ t s2, thread_step t s = Some s2 →
    (product_task s2 ≠ product_task s → Product_Mutex s = Some t) ∧
    (consum_task s2 ≠ consum_task s → Comsumer_Mutex s = Some t).
Proof.
  intros Hs Hs'. pose proof (Task_new_good max todo n) as Hg0. pose proof (task_steps_good _ _ Hg0 Hs) as Hg.
  destruct (task_steps_sequence _ _ Hg0 Hs) as [_ Hi]. destruct (task_steps_sequence _ _ Hg Hs') as [Hseq _].
  destruct (steps_grow _ _ Hs') as (Ht & Hh & _). destruct (steps_grow _ _ Hs) as (_ & _ & Hm & _). split_and!; try done.
  - intros i. by rewrite Hi, Task_new_still.
  - eapply steps_accounted; [apply Task_new_accounted|done].
  - pose proof (g_size _ (proj2 Hg)) as Hsize. by rewrite Hm in Hsize.
  - intros Hmax. by apply (steps_no_room (Task_new max todo n)).
  - intros t s2. apply task_step_owner, Hg.
Qed.

(** C18.  With a thread in the pool and room for a task the queue never hangs:
    wherever the threads are, without further wake-ups for no reason they make
    only a bounded number of steps, an end can be reached, and when no thread can
    go on every task has been taken in order and handled once, by the thread
    that took it. *)
Theorem tasks_get_handled max todo n s :
  (0 < n)%nat → u64 max ≠ 0%Z → rtc any_step (Task_new max todo n) s →
  (∀ k s', nsteps step k s s' → (k ≤ work s)%nat) ∧
  (∃ s', rtc step s s' ∧ ∀ t, thread_step t s' = None) ∧
  ∀ s', rtc step s s' → (∀ t, thread_step t s' = None) →
    sequence s `prefix_of` (taken s').*2 ∧
    (∀ i, of_thread i ((taken s').*2) = mjoin (default [] (todo !! i))) ∧
    (∀ j, of_consumer j (handled s') = of_consumer j (taken s')) ∧ handled s' ≡ₚ taken s'.
Proof.
  intros Hn Hmax Hs. pose proof (Task_new_good max todo n) as Hg0. pose proof (task_steps_good _ _ Hg0 Hs) as Hg.
  split; [|split].
  { intros k s' Hk. pose proof (nsteps_work _ _ _ task_step_good task_step_work k s s' Hg Hk). lia. }
  { apply (reaches_end _ _ _ task_step_good task_step_work (λ s, ∀ t, thread_step t s = None)); [apply task_step_or_stuck|done]. }
  intros s' Hss Hstuck. assert (rtc any_step s s') as Hss' by (apply (rtc_subrel step); [by left|done]).
  pose proof (task_steps_good _ _ Hg Hss') as Hg'. assert (rtc any_step (Task_new max todo n) s') as Hall by by etrans.
  destruct (steps_grow _ _ Hall) as (_ & _ & Hm & _ & Hc). simpl in Hm, Hc. rewrite length_replicate in Hc.
  destruct (task_stuck_done s' Hg' Hstuck) as (Hq & Hp & Hst & Hh); [by rewrite Hc|by rewrite Hm|].
  assert (sequence s' = (taken s').*2) as Hseq by (unfold sequence; by rewrite Hq, Hp, app_nil_r).
  assert (∀ j, of_consumer j (handled s') = of_consumer j (taken s')) as Hhand.
  { intros j. rewrite (steps_accounted _ _ (Task_new_accounted max todo n) Hall j), Hh. by rewrite app_nil_r. }
  rewrite <-Hseq. split_and!; [by apply task_steps_sequence| |done|by apply of_consumer_perm].
  intros i. destruct (task_steps_sequence _ _ Hg0 Hall) as [_ Hi]. specialize (Hi i).
  rewrite Hst, app_nil_r in Hi. by rewrite Hi, Task_new_still.
Qed.

(** ** Witnesses *)

Lemma task_run_steps ts s s' : run ts s = Some s' → rtc any_step s s'.
Proof.
  revert s. induction ts as [|t ts IH]; intros s Hr; simplify_eq/=; [done|].
  destruct (thread_step t s) as [s1|] eqn:E; [|done]. eapply rtc_l; [left; by econstructor|by apply IH].
Qed.

Lemma demo_tasks_reached : rtc any_step demo_start demo_tasks.
Proof. apply (task_run_steps demo_first). vm_compute. reflexivity. Qed.

Lemma demo_tasks_then : rtc any_step demo_tasks demo_tasks'.
Proof. apply (task_run_steps demo_then). vm_compute. reflexivity. Qed.

Lemma tasks_keep_order_witness :
  product_task demo_tasks = [(0%nat, 1%Z); (0%nat, 2%Z)] ∧ taken demo_tasks' = [(1%nat, (0%nat, 1%Z)); (0%nat, (0%nat, 2%Z))] ∧
  sequence demo_tasks `prefix_of` sequence demo_tasks' ∧
  of_thread 0 (sequence demo_tasks) ++ still 0 demo_tasks = [1; 2; 3]%Z.
Proof.
  destruct (tasks_keep_order 2 demo_todo 2 demo_tasks demo_tasks' demo_tasks_reached demo_tasks_then)
    as (H1 & _ & _ & H2 & _).
  split; [vm_compute; reflexivity|]. split; [vm_compute; reflexivity|]. split; [exact H1|exact (H2 0%nat)].
Defined.

Lemma tasks_get_handled_witness :
  ∃ s', rtc step demo_tasks s' ∧ of_thread 1 ((taken s').*2) = [4; 5]%Z ∧
    [(0%nat, 1%Z); (0%nat, 2%Z)] `prefix_of` (taken s').*2 ∧ handled s' ≡ₚ taken s'.
Proof.
  assert (H1 : (0 < 2)%nat) by lia. assert (H2 : wrapu 64 2 ≠ 0%Z) by (intros H; vm_compute in H; congruence).
  destruct (tasks_get_handled 2 demo_todo 2 demo_tasks H1 H2 demo_tasks_reached) as (_ & (s' & Hs & Hn) & Hend).
  destruct (Hend s' Hs Hn) as (H3 & H4 & _ & H5). exists s'. split; [exact Hs|]. split; [exact (H4 1%nat)|].
  split; [exact H3|exact H5].
Defined.
