(* ===== verification/Specific.v ===== *)
(** * Objects of a coroutine, and name resolution (co_routine_specific.h, co_hook_sys_call.cpp)

    [CO_ROUTINE_SPECIFIC] declares a variable of which every coroutine has its
    own object, made when it is first used.  libco keeps in such objects the
    state of the resolver ([__res_state]) and the buffer for the results of
    [co_gethostbyname], which is made larger until the answer fits. *)

From S2P Require Import Prelude Coroutine.

Local Open Scope Z_scope.
Local Open Scope cint_scope.

(** ** The objects *)

Section specific.
Context {P : Type} (pthread_get : Z → P → Z) (pthread_set : Z → Z → P → Z * P).
Context {T : Type} (zero : T) (created_key : Z).

(** [_routine_key_], set by the first use, the coroutines, the values of the
    thread itself, and the objects. *)
Record objects := Objects {
  routine_key : option Z;
  co_world : world;
  pthread : P;
  objs : gmap addr T;
}.

(** [operator->]; [mem] is the address that [calloc] gives. *)
Definition routine_data (mem : addr) (st : objects) : option (ptr * objects) :=
  let key := default created_key (routine_key st) in
  v ← co_getspecific pthread_get key (co_world st) (pthread st);
  if decide (v ≠ 0) then Some (Some v, Objects (Some key) (co_world st) (pthread st) (objs st))
  else
    '(ret, w, p) ← co_setspecific pthread_set key mem (co_world st) (pthread st);
    if decide (ret ≠ 0) then Some (NULL, Objects (Some key) w p (objs st))
    else Some (Some mem, Objects (Some key) w p (<[mem := zero]> (objs st))).

(** [__res_state]: the address of the state, the coroutine's own if it is hooked. *)
Definition __res_state (sys : addr) (mem : addr) (st : objects) : option (ptr * objects) :=
  on ← co_is_enable_sys_hook (co_world st);
  if on : bool then routine_data mem st else Some (Some sys, st).

(** The value of the thread ([None]) or of a coroutine. *)
Definition value (key : Z) (o : ptr) (st : objects) : Z :=
  match o with
  | None => pthread_get key (pthread st)
  | Some a => from_option (λ c, if cIsMain c then 0 else default 0 (aSpec c !! key)) 0 (cos (co_world st) !! a)
  end.

(** Every value is an object of its owner alone. *)
Record own_objects (key : Z) (st : objects) : Prop := {
  oo_key : routine_key st = None ∨ routine_key st = Some key;
  oo_live : ∀ o, value key o st ≠ 0 → is_Some (objs st !! value key o st);
  oo_own : ∀ o o', value key o st ≠ 0 → value key o st = value key o' st → o = o';
}.
End specific.
Arguments objects : clear implicits.
Arguments Objects {_ _} _ _ _ _.
Arguments routine_key {_ _} _.
Arguments co_world {_ _} _.
Arguments pthread {_ _} _.
Arguments objs {_ _} _.

(** ** Name resolution *)

Definition ERANGE : Z := 34.
Definition NETDB_INTERNAL : Z := -1.

Record hostbuf_wrap (Host : Type) := HostBuf {
  host : option Host;
  buffer : ptr;
  iBufferSize : Z;
  host_errno : Z;
}.
Arguments HostBuf {_} _ _ _ _.
Arguments host {_} _.
Arguments buffer {_} _.
Arguments iBufferSize {_} _.
Arguments host_errno {_} _.

Section resolve.
Context {Host R P : Type}.

(** What [gethostbyname_r] does with a name and a buffer of a size: its result,
    the entry that it writes if [result] becomes [host], and [*h_errnop]. *)
Context (gethostbyname_r : string → Z → R → (Z * option Host * Z) * R).

(** The allocator: the sizes of the allocated blocks. *)
Context (malloc : Z → gmap addr Z → ptr).
Notation blocks := (gmap addr Z).
Notation wrap := (hostbuf_wrap Host).

Definition alloc (n : Z) (bs : blocks) : ptr * blocks :=
  match malloc n bs with
  | Some b => (Some b, <[b := n]> bs)
  | None => (NULL, bs)
  end.

(** [free]; [None] when the block is not allocated. *)
Definition free (b : ptr) (bs : blocks) : option blocks :=
  match b with
  | None => Some bs
  | Some b => guard (is_Some (bs !! b));; Some (delete b bs)
  end.

Definition set_buffer (b : ptr) (n : Z) (hb : wrap) : wrap := HostBuf (host hb) b n (host_errno hb).

(** The two [if]s before the loop. *)
Definition small_buffer (hb : wrap) (bs : blocks) : option (wrap * blocks) :=
  '(hb, bs) ← (if decide (buffer hb ≠ NULL ∧ 1024 < iBufferSize hb)
               then bs ← free (buffer hb) bs; Some (set_buffer NULL (iBufferSize hb) hb, bs)
               else Some (hb, bs));
  if decide (buffer hb = NULL) then
    let '(b, bs) := alloc 1024 bs in Some (set_buffer b 1024 hb, bs)
  else Some (hb, bs).

(** The loop: [ret] is the value of the condition, so that it is 0 when the loop
    ends; the result is whether [result] is [host]. *)
Fixpoint resolve_loop (fuel : nat) (name : string) (hb : wrap) (bs : blocks) (r : R)
    : option (bool * wrap * blocks * R) :=
  match fuel with
  | O => None
  | S fuel =>
      b ← buffer hb;
      let '((ret, res, herr), r) := gethostbyname_r name (iBufferSize hb) r in
      let found := match res with Some _ => true | None => false end in
      let hb := HostBuf (if res is Some h then Some h else host hb) (Some b) (iBufferSize hb) herr in
      if decide (ret = ERANGE ∧ herr = NETDB_INTERNAL) then
        bs ← free (Some b) bs;
        let n := u64 (iBufferSize hb * 2) in
        let '(b, bs) := alloc n bs in
        resolve_loop fuel name (set_buffer b n hb) bs r
      else Some (found, hb, bs, r)
  end.

Context (pthread_get : Z → P → Z) (pthread_set : Z → Z → P → Z * P) (created_key : Z).
Notation state := (objects P wrap).

(** The zeros of [calloc]. *)
Definition no_wrap : wrap := HostBuf None NULL 0 0.

(** [mem] is where [calloc] makes the object of the coroutine, if it has none.
    The later uses of the variable give the same object. *)
Definition co_gethostbyname (fuel : nat) (name : option string) (mem : addr) (st : state) (bs : blocks) (r : R)
    : option (ptr * state * blocks * R) :=
  match name with
  | None => Some (NULL, st, bs, r)
  | Some name =>
      '(p, st) ← routine_data pthread_get pthread_set no_wrap created_key mem st;
      v ← p; hb ← objs st !! v;
      '(hb, bs) ← small_buffer hb bs;
      '(found, hb, bs, r) ← resolve_loop fuel name hb bs r;
      let st := Objects (routine_key st) (co_world st) (pthread st) (<[v := hb]> (objs st)) in
      Some (if found : bool then Some v else NULL, st, bs, r)
  end.

(** [gethostbyname] of a coroutine; [sys] is the answer of the system's own. *)
Definition gethostbyname (sys : ptr) (fuel : nat) (name : option string) (mem : addr) (st : state) (bs : blocks) (r : R)
    : option (ptr * state * blocks * R) :=
  on ← co_is_enable_sys_hook (co_world st);
  if on : bool then co_gethostbyname fuel name mem st bs r else Some (sys, st, bs, r).

(** The buffers: each object has a block of its own, of the size it records. *)
Record own_buffers (st : state) (bs : blocks) : Prop := {
  ob_live : ∀ v hb b, objs st !! v = Some hb → buffer hb = Some b → bs !! b = Some (iBufferSize hb);
  ob_own : ∀ v v' hb hb', objs st !! v = Some hb → objs st !! v' = Some hb' →
    buffer hb ≠ NULL → buffer hb = buffer hb' → v = v';
  ob_size : ∀ v hb, objs st !! v = Some hb → buffer hb ≠ NULL → 1024 ≤ iBufferSize hb;
}.

(** The buffer that the owner has had so far. *)
Definition old_buffer (key : Z) (o : ptr) (st : state) : ptr :=
  guard (value pthread_get key o st ≠ 0);; hb ← objs st !! value pthread_get key o st; buffer hb.

Definition without (b : ptr) (bs : blocks) : blocks := from_option (λ b, delete b bs) bs b.
End resolve.

(** Whose object the variable is: the thread's in its main coroutine. *)
Definition owner (w : world) : ptr :=
  match cos w !! running w with
  | Some c => if cIsMain c then None else Some (running w)
  | None => None
  end.

(** What a call of [co_gethostbyname] by the coroutine of [o] leaves: [hb] at
    [v] is its object, with a buffer [b] that is as large as needed and less than
    twice as large, or of 1024 bytes; nothing else has changed but for the
    coroutine's old buffer. *)
Record resolved {P Host : Type} (pthread_get : Z → P → Z) (key need : Z) (o : ptr)
    (st st' : objects P (hostbuf_wrap Host)) (bs bs' : gmap addr Z) (v : addr) (hb : hostbuf_wrap Host) (b : addr) : Prop := {
  re_value : value pthread_get key o st' = v ∧ objs st' !! v = Some hb;
  re_buffer : buffer hb = Some b ∧ bs' !! b = Some (iBufferSize hb) ∧ need ≤ iBufferSize hb ∧
    (iBufferSize hb = 1024 ∨ iBufferSize hb < 2 * need);
  re_own : own_objects pthread_get key st' ∧ own_buffers st' bs';
  re_values : ∀ o', o' ≠ o → value pthread_get key o' st' = value pthread_get key o' st;
  re_objects : ∀ v', v' ≠ v → objs st' !! v' = objs st !! v';
  re_blocks : delete b bs' = without (old_buffer pthread_get key o st) bs;
}.

(** Coroutine 2, hooked, and a resolver whose answer needs 3000 bytes and that
    counts its calls. *)
Definition demo_world : world := default demo_start (co_enable_hook_sys demo_start).
Definition demo_get (_ : Z) (p : Z) : Z := p.
Definition demo_put (_ v : Z) (_ : Z) : Z * Z := (0, v).
Definition demo_resolver (name : string) (n : Z) (r : nat) : (Z * option string * Z) * nat :=
  (if decide (n < 3000) then (ERANGE, None, NETDB_INTERNAL) else (0, Some "10.0.0.1"%string, 0), S r).
Definition demo_malloc (n : Z) (bs : gmap addr Z) : ptr := Some (fresh (dom bs : gset addr)).
Definition demo_objects : objects Z (hostbuf_wrap string) := Objects None demo_world 0 ∅.

(** ** Lemmas on the objects *)

Section objects.
Context {P : Type} (pthread_get : Z → P → Z) (pthread_set : Z → Z → P → Z * P).
Context {T : Type} (zero : T) (created_key key : Z).
Context (Hkey : 0 ≤ key < 1024).
Context (Hset : ∀ v p, (pthread_set key v p).1 = 0).
Context (Hget : ∀ v p, pthread_get key (pthread_set key v p).2 = v).
Notation value := (value pthread_get key).
Notation routine_data := (routine_data pthread_get pthread_set zero created_key).
Implicit Types (st : objects P T).

(** The key that the variable has, or gets now. *)
Notation has_key st := (default created_key (routine_key st) = key).

Lemma getspecific_value st : thread_ok (co_world st) → has_key st →
  co_getspecific pthread_get key (co_world st) (pthread st) = Some (value (owner (co_world st)) st).
Proof.
  intros Hok Hk. destruct (running_live _ (proj2 Hok)) as [c Hc].
  unfold co_getspecific, owner. rewrite (GetCurrThreadCo_running _ (proj2 Hok)). cbn [mbind option_bind].
  rewrite Hc. cbn [mbind option_bind]. destruct (cIsMain c) eqn:Hm; [done|].
  rewrite option_guard_True by done. simpl. rewrite Hc. simpl. by rewrite Hm.
Qed.

Lemma setspecific_value st v : thread_ok (co_world st) → ∃ w p,
  co_setspecific pthread_set key v (co_world st) (pthread st) = Some (0, w, p) ∧ running w = running (co_world st) ∧
  owner w = owner (co_world st) ∧ ∀ k (om : gmap addr T) o, value o (Objects k w p om) = if decide (o = owner (co_world st)) then v else value o st.
Proof.
  intros Hok. destruct (running_live _ (proj2 Hok)) as [c Hc].
  unfold co_setspecific, owner, upd_co. rewrite (GetCurrThreadCo_running _ (proj2 Hok)). cbn [mbind option_bind].
  rewrite Hc. cbn [mbind option_bind]. destruct (cIsMain c) eqn:Hm.
  - pose proof (Hset v (pthread st)) as Hs. pose proof (Hget v (pthread st)) as Hg.
    destruct (pthread_set key v (pthread st)) as [ret p]. simpl in Hs, Hg. subst ret. eexists _, p.
    split; [done|]. rewrite Hc, Hm. do 2 (split; [done|]). intros k om [a|]; simpl; [done|]. by rewrite Hg.
  - rewrite option_guard_True by done. cbn [mbind option_bind]. eexists _, _. split; [done|]. split; [done|].
    simpl. rewrite lookup_insert_eq. simpl. rewrite Hm. split; [done|]. intros k om [a|]; simpl; [|done].
    destruct (decide (Some a = Some (running (co_world st)))) as [[= ->]|Hne].
    + rewrite lookup_insert_eq. simpl. by rewrite Hm, lookup_insert_eq.
    + by rewrite lookup_insert_ne by congruence.
Qed.

(** The first use makes the object, later ones find it. *)
Lemma routine_data_spec mem st :
  thread_ok (co_world st) → has_key st → own_objects pthread_get key st → mem ≠ 0 → objs st !! mem = None →
  let o := owner (co_world st) in
  ∃ v st', routine_data mem st = Some (Some v, st') ∧ v ≠ 0 ∧ value o st' = v ∧ routine_key st' = Some key ∧
    own_objects pthread_get key st' ∧ owner (co_world st') = o ∧
    (∀ o', o' ≠ o → value o' st' = value o' st) ∧
    (value o st ≠ 0 ∧ v = value o st ∧ objs st' = objs st ∨ value o st = 0 ∧ v = mem ∧ objs st' = <[mem := zero]> (objs st)).
Proof.
  intros Hok Hk Hown Hmem Hfresh o. unfold routine_data. cbv zeta. rewrite Hk, getspecific_value by done.
  cbn [mbind option_bind]. fold o. destruct Hown as [_ Hlive Hown]. case_decide as Hv.
  - eexists _, _. split; [done|]. split_and!; try done; [|by left].
    split; [by right|exact Hlive|exact Hown].
  - destruct (setspecific_value st mem Hok) as (w & p & -> & Hrun & How & Hval).
    cbn [mbind option_bind]. rewrite decide_False by (intros []; done). eexists _, _. split; [done|]. fold o in Hval.
    split_and!; [done|by rewrite Hval, decide_True|done| |exact How| |by right].
    + split; [by right| |].
      * intros o'. rewrite Hval. simpl. case_decide; [intros _; by rewrite lookup_insert_eq|].
        intros Hne. destruct (decide (value o' st = mem)) as [->|]; [by rewrite lookup_insert_eq|].
        rewrite lookup_insert_ne by done. by apply Hlive.
      * intros o1 o2. rewrite !Hval.
        assert (∀ o', value o' st ≠ mem) as Hnm.
        { intros o' E. destruct (Hlive o') as [x Hx]; [by rewrite E|]. rewrite E in Hx. congruence. }
        repeat case_decide; subst; intros H1 H2; [done|by destruct (Hnm o2)|by destruct (Hnm o1)|by apply Hown].
    + intros o' Hne. by rewrite Hval, decide_False.
Qed.
End objects.

(** ** Lemmas on the buffers *)

Section buffers.
Context {Host R : Type} (gethostbyname_r : string → Z → R → (Z * option Host * Z) * R).
Context (malloc : Z → gmap addr Z → ptr) (need : Z).
Context (Hneed : need ≤ 2 ^ 62).
Context (Hreply : ∀ name n r, let '((ret, _, herr), _) := gethostbyname_r name n r in
  (ret = ERANGE ∧ herr = NETDB_INTERNAL) ↔ n < need).
Context (Hfresh : ∀ n bs b, malloc n bs = Some b → bs !! b = None).
Context (Hmalloc : ∀ n bs, n ≤ 1024 ∨ n < 2 * need → malloc n bs ≠ NULL).
Implicit Types (hb : hostbuf_wrap Host).

Lemma alloc_spec n bs : n ≤ 1024 ∨ n < 2 * need → ∃ b, alloc malloc n bs = (Some b, <[b := n]> bs) ∧ bs !! b = None.
Proof.
  intros Hn. unfold alloc. destruct (malloc n bs) as [b|] eqn:E; [|by destruct (Hmalloc n bs Hn)].
  exists b. split; [done|]. by eapply Hfresh.
Qed.

Lemma free_without b bs : (∀ b', b = Some b' → is_Some (bs !! b')) → free b bs = Some (without b bs).
Proof. intros Hb. destruct b as [b|]; [|done]. simpl. by rewrite option_guard_True by by apply Hb. Qed.

Lemma small_buffer_spec hb bs :
  (∀ b, buffer hb = Some b → bs !! b = Some (iBufferSize hb) ∧ 1024 ≤ iBufferSize hb) →
  ∃ b bs', small_buffer malloc hb bs = Some (set_buffer (Some b) 1024 hb, bs') ∧
    bs' !! b = Some 1024 ∧ delete b bs' = without (buffer hb) bs ∧ (bs !! b = None ∨ buffer hb = Some b).
Proof.
  intros Hb. unfold small_buffer. destruct (buffer hb) as [b0|] eqn:E.
  - destruct (Hb b0 eq_refl) as [Hb0 Hsize]. destruct (decide (Some b0 ≠ NULL ∧ 1024 < iBufferSize hb)) as [[_ Hlt]|Hle].
    + rewrite free_without by (intros b' [= <-]; by rewrite Hb0). cbn [mbind option_bind buffer set_buffer].
      rewrite decide_True by done. destruct (alloc_spec 1024 (without (Some b0) bs)) as (b & -> & Hnone); [by left|].
      eexists b, _. split; [done|]. rewrite lookup_insert_eq. split; [done|]. simpl in *.
      split; [by apply delete_insert_id|]. destruct (decide (b = b0)) as [->|Hne]; [by right|].
      left. by rewrite lookup_delete_ne in Hnone.
    + assert (iBufferSize hb = 1024) as Heq by (destruct (decide (1024 < iBufferSize hb)); [by destruct Hle|lia]).
      cbn [mbind option_bind]. rewrite E, decide_False by done. exists b0, bs. rewrite Heq in Hb0. split_and!; [|done|done|by right].
      destruct hb as [h bf sz e]; simpl in *. unfold set_buffer. simpl. by rewrite Heq, E.
  - rewrite decide_False by (intros [? _]; done). cbn [mbind option_bind]. rewrite E, decide_True by done.
    destruct (alloc_spec 1024 bs) as (b & -> & Hnone); [by left|]. eexists b, _. split; [done|].
    rewrite lookup_insert_eq. split; [done|]. split; [by apply delete_insert_id|by left].
Qed.

Lemma resolve_loop_spec name k : ∀ fuel hb b bs r,
  buffer hb = Some b → bs !! b = Some (iBufferSize hb) → 1024 ≤ iBufferSize hb →
  iBufferSize hb = 1024 ∨ iBufferSize hb < 2 * need → need ≤ iBufferSize hb * 2 ^ Z.of_nat k → (k < fuel)%nat →
  ∃ ret res herr r0 r' hb' b' bs',
    gethostbyname_r name (iBufferSize hb') r0 = ((ret, res, herr), r') ∧
    resolve_loop gethostbyname_r malloc fuel name hb bs r =
      Some (match res with Some _ => true | None => false end, hb', bs', r') ∧
    (∀ h, res = Some h → host hb' = Some h) ∧ buffer hb' = Some b' ∧ host_errno hb' = herr ∧
    bs' !! b' = Some (iBufferSize hb') ∧ 1024 ≤ iBufferSize hb' ∧ need ≤ iBufferSize hb' ∧
    (iBufferSize hb' = 1024 ∨ iBufferSize hb' < 2 * need) ∧
    delete b' bs' = delete b bs ∧ (bs !! b' = None ∨ b' = b).
Proof.
  induction k as [|k IH]; intros [|fuel] hb b bs r Hb Hbs Hsize Hlim Hk Hf; try lia; cbn [resolve_loop];
    rewrite Hb; cbn [mbind option_bind]; pose proof (Hreply name (iBufferSize hb) r) as Hrep;
    destruct (gethostbyname_r name (iBufferSize hb) r) as [[[ret res] herr] r'] eqn:E.
  - rewrite decide_False by (rewrite Hrep; lia). exists ret, res, herr, r, r', (HostBuf (if res is Some h then Some h else host hb) (Some b) (iBufferSize hb) herr), b, bs.
    split; [exact E|]. split; [done|]. cbn [iBufferSize host]. split_and!; try done; [by intros h ->|lia|by right].
  - case_decide as Hsmall; cycle 1.
    { exists ret, res, herr, r, r', (HostBuf (if res is Some h then Some h else host hb) (Some b) (iBufferSize hb) herr), b, bs. split; [exact E|]. split; [done|]. cbn [iBufferSize].
      rewrite Hrep in Hsmall. cbn [host]. split_and!; try done; [by intros h ->|lia|by right]. }
    apply Hrep in Hsmall. rewrite free_without by (intros b' [= <-]; by rewrite Hbs). cbn [mbind option_bind iBufferSize].
    rewrite wrapu_id by lia.
    destruct (alloc_spec (iBufferSize hb * 2) (without (Some b) bs)) as (b1 & -> & Hnone); [right; lia|]. simpl in Hnone.
    set (hb1 := HostBuf _ (Some b) (iBufferSize hb) herr).
    destruct (IH fuel (set_buffer (Some b1) (iBufferSize hb * 2) hb1) b1 (<[b1:=iBufferSize hb * 2]> (delete b bs)) r')
      as (ret2 & res2 & herr2 & r0 & r2 & hb2 & b2 & bs2 & H1 & H2 & H3 & H4 & H5 & H6 & H7 & H8 & H9 & H10 & H11); simpl;
      [done|by rewrite lookup_insert_eq|lia|right; lia| |lia|].
    { rewrite Nat2Z.inj_succ, Z.pow_succ_r in Hk by lia. lia. }
    exists ret2, res2, herr2, r0, r2, hb2, b2, bs2. split_and!; try done.
    + rewrite H10, delete_insert_id by done. done.
    + assert (∀ x, delete b bs !! x = None → bs !! x = None ∨ x = b) as Hd.
      { intros x Hx. destruct (decide (x = b)) as [->|]; [by right|]. left. by rewrite lookup_delete_ne in Hx. }
      destruct H11 as [[Hx _]%lookup_insert_None| ->]; by apply Hd.
Qed.
End buffers.

(** ** Name resolution by a coroutine *)

Section resolve_spec.
Context {P : Type} (pthread_get : Z → P → Z) (pthread_set : Z → Z → P → Z * P).
Context (created_key key : Z) (Hkey : 0 ≤ key < 1024).
Context (Hset : ∀ v p, (pthread_set key v p).1 = 0).
Context (Hget : ∀ v p, pthread_get key (pthread_set key v p).2 = v).
Context {Host R : Type} (gethostbyname_r : string → Z → R → (Z * option Host * Z) * R).
Context (malloc : Z → gmap addr Z → ptr) (need : Z) (Hneed : need ≤ 2 ^ 62).
Context (Hreply : ∀ name n r, let '((ret, _, herr), _) := gethostbyname_r name n r in
  (ret = ERANGE ∧ herr = NETDB_INTERNAL) ↔ n < need).
Context (Hfresh : ∀ n bs b, malloc n bs = Some b → bs !! b = None).
Context (Hmalloc : ∀ n bs, n ≤ 1024 ∨ n < 2 * need → malloc n bs ≠ NULL).
Notation value := (value pthread_get key).
Implicit Types (st : objects P (hostbuf_wrap Host)) (bs : gmap addr Z).

Lemma without_lookup b bs x : without b bs !! x = if decide (b = Some x) then None else bs !! x.
Proof.
  destruct b as [b|]; simpl; [|done]. destruct (decide (b = x)) as [->|Hne].
  - rewrite decide_True by done. apply lookup_delete_eq.
  - rewrite decide_False by congruence. by apply lookup_delete_ne.
Qed.

(** A new buffer for one object keeps all of them apart. *)
Lemma own_buffers_update st st' bs v hb hb' b bs' :
  own_buffers st bs → (objs st !! v = Some hb ∨ objs st !! v = None ∧ buffer hb = NULL) →
  objs st' !! v = Some hb' → (∀ u, u ≠ v → objs st' !! u = objs st !! u) →
  buffer hb' = Some b → bs' !! b = Some (iBufferSize hb') → 1024 ≤ iBufferSize hb' →
  delete b bs' = without (buffer hb) bs → (bs !! b = None ∨ buffer hb = Some b) → own_buffers st' bs'.
Proof.
  intros [Hlive Hown Hsize] Hv Hv' Hrest Hb Hbs Hge Hdel Hnew.
  assert (∀ u hu c, u ≠ v → objs st' !! u = Some hu → buffer hu = Some c →
    objs st !! u = Some hu ∧ c ≠ b ∧ buffer hb ≠ Some c) as Hother.
  { intros u hu c Hne Hu Hc. rewrite Hrest in Hu by done. pose proof (Hlive u hu c Hu Hc) as Hl.
    assert (buffer hb ≠ Some c) as Hhb.
    { intros E. destruct Hv as [Hv|[_ Hv]]; [|congruence]. apply Hne, (Hown u v hu hb); congruence. }
    split_and!; [done| |done]. intros ->. destruct Hnew; congruence. }
  split.
  - intros u hu c Hu Hc. destruct (decide (u = v)) as [->|Hne]; [by simplify_eq|].
    destruct (Hother u hu c) as (Hu' & Hcb & Hhb); [done..|]. rewrite <-(lookup_delete_ne bs' b) by done.
    rewrite Hdel, without_lookup, decide_False by done. by eapply Hlive.
  - intros u u' hu hu' Hu Hu' Hn Heq. destruct (buffer hu) as [c|] eqn:Ec; [|done].
    destruct (decide (u = v)) as [->|Hne], (decide (u' = v)) as [->|Hne']; [done| | |].
    + destruct (Hother u' hu' c) as (_ & ? & _); [done..|]. congruence.
    + destruct (Hother u hu c) as (_ & ? & _); [done..|]. congruence.
    + destruct (Hother u hu c) as (? & _); [done..|]. destruct (Hother u' hu' c) as (? & _); [done..|].
      apply (Hown u u' hu hu'); congruence.
  - intros u hu Hu Hn. destruct (decide (u = v)) as [->|Hne]; [by simplify_eq|]. rewrite Hrest in Hu by done. by eapply Hsize.
Qed.

Lemma co_gethostbyname_spec k fuel name mem st bs r :
  thread_ok (co_world st) → default created_key (routine_key st) = key → own_objects pthread_get key st → own_buffers st bs →
  mem ≠ 0 → objs st !! mem = None → need ≤ 1024 * 2 ^ Z.of_nat k → (k < fuel)%nat →
  ∃ ret res herr r0 r' st' bs' v hb b,
    gethostbyname_r name (iBufferSize hb) r0 = ((ret, res, herr), r') ∧
    co_gethostbyname gethostbyname_r malloc pthread_get pthread_set created_key fuel (Some name) mem st bs r =
      Some (match res with Some _ => Some v | None => NULL end, st', bs', r') ∧
    (∀ h, res = Some h → host hb = Some h) ∧
    resolved pthread_get key need (owner (co_world st)) st st' bs bs' v hb b.
Proof.
  intros Hok Hk Hown Hbuf Hmem Hnone Hfit Hfuel.
  destruct (routine_data_spec pthread_get pthread_set no_wrap created_key key Hkey Hset Hget mem st Hok Hk Hown Hmem Hnone)
    as (v & st1 & Hdata & Hv0 & Hval & Hrk & Hown1 & Ho & Hvals & Hcases).
  set (o := owner (co_world st)) in *.
  assert (∃ hb, objs st1 !! v = Some hb ∧ buffer hb = old_buffer pthread_get key o st ∧
    (objs st !! v = Some hb ∨ objs st !! v = None ∧ buffer hb = NULL) ∧
    ∀ v', v' ≠ v → objs st1 !! v' = objs st !! v') as (hb & Hhb & Hold & Hcase & Hrest).
  { unfold old_buffer. destruct Hcases as [(Hne & -> & ->)|(Hz & -> & ->)].
    - destruct (oo_live _ _ _ Hown o Hne) as [hb Hhb]. exists hb. rewrite option_guard_True by done. cbn [mbind option_bind].
      rewrite Hhb. split_and!; auto.
    - exists no_wrap. rewrite lookup_insert_eq, option_guard_False by (by rewrite Hz; intros []). split_and!; auto.
      intros v' Hne. by rewrite lookup_insert_ne. }
  destruct (small_buffer_spec malloc need Hfresh Hmalloc hb bs) as (b1 & bs1 & Hsmall & Hb1 & Hd1 & Hn1).
  { intros b Hb. destruct Hcase as [Hc|[_ Hc]]; [|congruence]. split; [by eapply (ob_live _ _ Hbuf)|].
    eapply (ob_size _ _ Hbuf); [done|]. by rewrite Hb. }
  destruct (resolve_loop_spec gethostbyname_r malloc need Hneed Hreply Hfresh Hmalloc name k fuel (set_buffer (Some b1) 1024 hb) b1 bs1 r)
    as (ret & res & herr & r0 & r' & hb' & b' & bs' & H1 & H2 & H3 & H4 & H5 & H6 & H7 & H8 & H9 & H10 & H11);
    [done|done|simpl; lia|by left|simpl; lia|done|].
  assert (bs !! b' = None ∨ buffer hb = Some b') as Hn'.
  { destruct H11 as [H11| ->]; [|done]. destruct (decide (b' = b1)) as [->|Hne]; [done|].
    rewrite <-(lookup_delete_ne bs1 b1) in H11 by done. rewrite Hd1, without_lookup in H11. case_decide; auto. }
  exists ret, res, herr, r0, r', (Objects (routine_key st1) (co_world st1) (pthread st1) (<[v := hb']> (objs st1))), bs', v, hb', b'.
  split; [exact H1|]. split.
  { unfold co_gethostbyname. rewrite Hdata. cbn [mbind option_bind]. rewrite Hhb. cbn [mbind option_bind].
    rewrite Hsmall. cbn [mbind option_bind]. rewrite H2. cbn [mbind option_bind]. by destruct res. }
  split; [exact H3|].
  assert (delete b' bs' = without (buffer hb) bs) as Hdel by (by rewrite H10, Hd1).
  split; simpl; rewrite ?lookup_insert_eq; try done.
  - split; [|by eapply (own_buffers_update st _ bs v hb hb' b'); simpl;
      [done|done|by rewrite lookup_insert_eq|intros u Hu; rewrite lookup_insert_ne by done; by apply Hrest|..]].
    destruct Hown1 as [G1 G2 G3]. split; [done| |done]. intros o' Ho'. specialize (G2 o' Ho'). simpl in *.
    rewrite lookup_insert_is_Some'. by right.
  - intros u Hu. rewrite lookup_insert_ne by done. by apply Hrest.
  - by rewrite Hdel, Hold.
Qed.
End resolve_spec.

(** ** Properties *)

(** C13.  Name resolution by a hooked coroutine or thread terminates for every
    resolver whose answers need at most 2^62 bytes, as soon as the memory
    suffices: after at most [k] doublings of the buffer, where 1024 * 2^k is
    enough, it returns the answer of the last call, in an object that belongs to the
    caller alone, made on first use, with a buffer that is large enough but less than
    twice too large and is its only one (the previous one is freed); objects
    and buffers of other coroutines stay as they are and stay apart.  Without the
    hook it is the system's own function. *)
Theorem gethostbyname_correct {P Host R : Type} (pthread_get : Z → P → Z) (pthread_set : Z → Z → P → Z * P)
    (created_key key : Z) (gethostbyname_r : string → Z → R → (Z * option Host * Z) * R)
    (malloc : Z → gmap addr Z → ptr) (need : Z) (k fuel : nat) (sys : ptr) (name : string) (mem : addr)
    (st : objects P (hostbuf_wrap Host)) (bs : gmap addr Z) (r : R) (on : bool) :
  0 ≤ key < 1024 → (∀ v p, (pthread_set key v p).1 = 0) → (∀ v p, pthread_get key (pthread_set key v p).2 = v) →
  need ≤ 2 ^ 62 →
  (∀ name n r, let '((ret, _, herr), _) := gethostbyname_r name n r in
    (ret = ERANGE ∧ herr = NETDB_INTERNAL) ↔ n < need) →
  (∀ n bs b, malloc n bs = Some b → bs !! b = None) →
  (∀ n bs, n ≤ 1024 ∨ n < 2 * need → malloc n bs ≠ NULL) →
  thread_ok (co_world st) → default created_key (routine_key st) = key → own_objects pthread_get key st →
  own_buffers st bs → mem ≠ 0 → objs st !! mem = None → need ≤ 1024 * 2 ^ Z.of_nat k → (k < fuel)%nat →
  co_is_enable_sys_hook (co_world st) = Some on →
  let result := gethostbyname gethostbyname_r malloc pthread_get pthread_set created_key sys fuel (Some name) mem st bs r in
  if on then ∃ ret res herr r0 r' st' bs' v hb b,
    gethostbyname_r name (iBufferSize hb) r0 = ((ret, res, herr), r') ∧
    result = Some (match res with Some _ => Some v | None => NULL end, st', bs', r') ∧
    (∀ h, res = Some h → host hb = Some h) ∧
    resolved pthread_get key need (owner (co_world st)) st st' bs bs' v hb b
  else result = Some (sys, st, bs, r).
Proof.
  intros Hkey Hset Hget Hneed Hreply Hfresh Hmalloc Hok Hk Hown Hbuf Hmem Hnone Hfit Hfuel Hon result.
  subst result. unfold gethostbyname. rewrite Hon. cbn [mbind option_bind]. destruct on; [|done].
  by apply (co_gethostbyname_spec pthread_get pthread_set created_key key Hkey Hset Hget
    gethostbyname_r malloc need Hneed Hreply Hfresh Hmalloc k).
Qed.

(** ** Witnesses *)

Lemma demo_world_ok : thread_ok demo_world.
Proof.
  apply (co_step_undisturbed demo_start); [apply demo_ok|]. apply step_enable. vm_compute. reflexivity.
Qed.

Lemma demo_objects_own : own_objects demo_get 7 demo_objects.
Proof.
  assert (∀ o, value demo_get 7 o demo_objects = 0) as Hz.
  { assert (map_Forall (λ _ c, aSpec c = ∅) (cos demo_world)) as Hc by decides. intros [a|]; [|done].
    unfold value, demo_objects. cbn [co_world]. destruct (cos demo_world !! a) as [c|] eqn:E; [|done].
    simpl. rewrite (Hc a c E). by destruct (cIsMain c). }
  split; [by left|intros o; by rewrite Hz|intros o o'; by rewrite !Hz].
Qed.

Lemma demo_reply name n r : let '((ret, _, herr), _) := demo_resolver name n r in
  (ret = ERANGE ∧ herr = NETDB_INTERNAL) ↔ n < 3000.
Proof. unfold demo_resolver. case_decide; naive_solver. Qed.

Lemma demo_malloc_fresh n bs b : demo_malloc n bs = Some b → bs !! b = None.
Proof. intros [= <-]. apply (not_elem_of_dom (D := gset addr)). exact (is_fresh (dom bs : gset addr)). Qed.

Lemma gethostbyname_correct_witness :
  ∃ st' bs' r' hb, gethostbyname demo_resolver demo_malloc demo_get demo_put 7 NULL 3 (Some "localhost"%string) 500 demo_objects ∅ 0%nat
    = Some (Some 500, st', bs', r') ∧ objs st' !! 500 = Some hb ∧ host hb = Some "10.0.0.1"%string ∧ iBufferSize hb = 4096.
Proof.
  destruct (gethostbyname_correct demo_get demo_put 7 7 demo_resolver demo_malloc 3000 2 3 NULL "localhost" 500 demo_objects ∅ 0%nat true)
    as (ret & res & herr & r0 & r' & st' & bs' & v & hb & b & H1 & H2 & H3 & [[H4 H5] _ _ _ _ _]);
    [lia|reflexivity|reflexivity|lia|exact demo_reply|exact demo_malloc_fresh|discriminate|exact demo_world_ok|reflexivity|
     exact demo_objects_own|split; intros v; discriminate|lia|reflexivity|lia|lia|vm_compute; reflexivity|].
  assert (C : such_b (λ x, bool_decide (x.1.1.1 = Some 500) && bool_decide (iBufferSize <$> objs x.1.1.2 !! 500 = Some 4096) &&
    bool_decide (host <$> objs x.1.1.2 !! 500 = Some (Some "10.0.0.1"%string)))
    (gethostbyname demo_resolver demo_malloc demo_get demo_put 7 NULL 3 (Some "localhost"%string) 500 demo_objects ∅ 0%nat) = true)
    by (vm_compute; reflexivity).
  rewrite H2 in C. apply andb_prop in C as [C C3]. apply andb_prop in C as [C1 C2].
  apply bool_decide_eq_true in C1, C2, C3. simpl in C1, C2, C3.
  assert (v = 500) as -> by (destruct res; congruence). rewrite H5 in C2, C3. injection C2 as C2. injection C3 as C3.
  exists st', bs', r', hb. split; [rewrite H2, C1; reflexivity|]. split; [exact H5|]. split; [exact C3|exact C2].
Defined.
