(* ===== verification/Scheduler.v ===== *)
(** * Coroutines that poll, and the event loop that resumes them

    The composition of [co_poll_inner], [co_resume] and [co_eventloop]
    (co_routine.cpp) for any coroutines that call [poll]: what a coroutine does
    between two calls is a function of its number, the state in its stack and
    the result of the last call.  The abstract scheduler below knows the
    pending calls only; the theorem says that the lists, the wheel and
    the interest list implement it. *)

From S2P Require Import Prelude LinkList Timeout CoCond Poll.

Local Open Scope Z_scope.

Section sched.
Context {H : Type} `{LinkOps H}.
Context (refuse : Z → option Z).
Context {K W : Type}.

(** What coroutine [i] does in state [k] after its call returned [ret] and [fds]:
    it calls [poll] with new arguments and a new state, or ends.  [tick] is the
    time, which passes while the coroutines act, and [sys_poll] the system's own
    [poll]. *)
Context (tick : W → Z).
Context (body : nat → K → Z → list pollfd → W → W * option (list pollfd * Z * K)).
Context (sys_poll : list pollfd → Z → W → (Z * list pollfd) * W).

(** The thread: the context of its loop, the stack frames of the coroutines that
    are in [co_poll_inner] (with the [stPoll_t] and [fds]), the next address of
    [malloc], and what the coroutines act on. *)
Record sched := Sched {
  context : stCoEpoll_t H;
  frames : gmap nat (addr * list pollfd * K);
  malloc_next : addr;
  outside : W;
}.

Definition set_context (c : stCoEpoll_t H) (s : sched) : sched := Sched c (frames s) (malloc_next s) (outside s).

(** Coroutine [i] runs until it yields in [co_poll_inner] or ends; the fuel
    bounds the calls that return at once.  The system's [poll] gets the timeout
    as [co_poll_inner] has bounded it. *)
Fixpoint run_coroutine (fuel : nat) (i : nat) (k : K) (ret : Z) (fds : list pollfd) (s : sched) : option sched :=
  match fuel with
  | O => None
  | S fuel =>
      match body i k ret fds (outside s) with
      | (w, None) => Some (Sched (context s) (frames s) (malloc_next s) w)
      | (w, Some (fds, timeout, k)) =>
          r ← co_poll_inner refuse i (malloc_next s) fds timeout (tick w) true (context s);
          match r with
          | Waits c => Some (Sched c (<[i := (malloc_next s, fds, k)]> (frames s)) (malloc_next s + 1) w)
          | Fails ret c => run_coroutine fuel i k ret fds (Sched c (frames s) (malloc_next s + 1) w)
          | UsePoll c =>
              let '((ret, fds), w) := sys_poll fds (Z.min timeout eMaxTimeout) w in
              run_coroutine fuel i k ret fds (Sched c (frames s) (malloc_next s + 1) w)
          end
      end
  end.

(** The loop over the active items: [OnPollProcessEvent] resumes the coroutine in
    the second half of [co_poll_inner]. *)
Fixpoint resume_active (fuel : nat) (s : sched) : option sched :=
  match fuel with
  | O => None
  | S fuel =>
      '(o, c) ← next_active (context s);
      match o with
      | None => Some (set_context c s)
      | Some i =>
          '(arg, fds, k) ← frames s !! i;
          '(ret, fds, c) ← co_poll_inner_end arg fds c;
          s ← run_coroutine fuel i k ret fds (Sched c (delete i (frames s)) (malloc_next s) (outside s));
          resume_active fuel s
      end
  end.

(** An iteration of [co_eventloop]: [evs] is what [epoll_wait] reports and [now] the
    time after it. *)
Definition iterate (fuel : nat) (evs : list ((addr * nat) * Z)) (now : Z) (s : sched) : option sched :=
  c ← gather evs now (context s);
  resume_active fuel (set_context c s).
End sched.
Arguments sched : clear implicits.
Arguments Sched {_ _ _} _ _ _ _.
Arguments context {_ _ _} _.
Arguments frames {_ _ _} _.
Arguments malloc_next {_ _ _} _.
Arguments outside {_ _ _} _.

(** ** The abstract scheduler

    A pending call of [poll]: the address that identifies it in events, its
    descriptors, the time at which it expires and the state of the caller. *)
Record pending (K : Type) := Pending { pd_arg : addr; pd_fds : list pollfd; pd_exp : Z; pd_k : K }.
Arguments Pending {_} _ _ _ _.
Arguments pd_arg {_} _.
Arguments pd_fds {_} _.
Arguments pd_exp {_} _.
Arguments pd_k {_} _.

Section spec.
Context (refuse : Z → option Z) {K W : Type} (tick : W → Z) (start reach : Z).
Context (body : nat → K → Z → list pollfd → W → W * option (list pollfd * Z * K)).

Record astate := AState { calls : gmap nat (pending K); next_arg : addr; aw : W }.

(** The call of coroutine [i] before any event. *)
Definition base (i : nat) (f : pending K) : stPoll_t := Poll (replicate (length (pd_fds f)) 0) false 0 i.

(** What its call returns after the events [evs]: their number, and the events of
    each descriptor. *)
Definition returned (evs : list ((addr * nat) * Z)) (i : nat) (f : pending K) : Z * list pollfd :=
  (Z.of_nat (length (events_of (pd_arg f) evs)),
   zip_with (λ g r, Pollfd (pf_fd g) (pf_events g) r) (pd_fds f) (p_revents (raised (pd_arg f) evs (base i f)))).

(** No call watches [g]. *)
Definition unwatched (cs : gmap nat (pending K)) (g : Z) : Prop := map_Forall (λ _ f, g ∉ watched (pd_fds f)) cs.

(** A new call that the scheduler accepts: no descriptor twice, none refused by
    the kernel or watched by another coroutine, and a time limit that the wheel
    reaches, which turned at [start]. *)
Definition polite (later : Z) (fds : list pollfd) (timeout : Z) (cs : gmap nat (pending K)) : Prop :=
  NoDup (watched fds) ∧ Forall (λ g, refuse g = None ∧ unwatched cs g) (watched fds) ∧ 0 ≤ timeout ∧
  start ≤ later ∧ later + Z.min timeout 40000 < reach ∧ later + 40000 < 2 ^ 63.

#[global] Instance polite_dec later fds timeout cs : Decision (polite later fds timeout cs).
Proof. unfold polite, unwatched. apply _. Defined.

(** The call of [i] returns and the coroutine goes on. *)
Definition resume_spec (evs : list ((addr * nat) * Z)) (i : nat) (st : astate) : option astate :=
  f ← calls st !! i;
  let '(ret, fds) := returned evs i f in
  let cs := delete i (calls st) in
  match body i (pd_k f) ret fds (aw st) with
  | (w, None) => Some (AState cs (next_arg st) w)
  | (w, Some (fds, timeout, k)) =>
      guard (polite (tick w) fds timeout cs);;
      Some (AState (<[i := Pending (next_arg st) fds (tick w + Z.min timeout 40000) k]> cs) (next_arg st + 1) w)
  end.

Fixpoint resume_all (evs : list ((addr * nat) * Z)) (js : list nat) (st : astate) : option astate :=
  match js with
  | [] => Some st
  | i :: js => st ← resume_spec evs i st; resume_all evs js st
  end.

(** The coroutines that an iteration resumes: those with events in the order of
    the first events, then those whose time has come, in the order of time. *)
Definition woken (evs : list ((addr * nat) * Z)) (now : Z) (st : astate) (js : list nat) : Prop :=
  ∃ es ts, js = es ++ ts ∧
    Forall2 (λ a i, pd_arg <$> calls st !! i = Some a) (firsts evs) es ∧
    (∀ i, i ∈ ts ↔ ∃ f, calls st !! i = Some f ∧ pd_arg f ∉ firsts evs ∧ pd_exp f ≤ now) ∧ NoDup ts ∧
    StronglySorted (λ i j, ∀ f g, calls st !! i = Some f → calls st !! j = Some g → pd_exp f ≤ pd_exp g) ts.

(** Events of registered descriptors. *)
Definition events_ok (evs : list ((addr * nat) * Z)) (st : astate) : Prop :=
  Forall (λ '((a, j), _), map_Exists (λ _ f, pd_arg f = a ∧ (j < length (pd_fds f))%nat) (calls st)) evs.
End spec.
Arguments astate : clear implicits.
Arguments AState {_ _} _ _ _.
Arguments calls {_ _} _.
Arguments next_arg {_ _} _.
Arguments aw {_ _} _.

(** ** The simulation *)

(** The interest list [k] holds exactly the descriptors that calls watch. *)
Record watch_rep {K : Type} (k : gmap Z (Z * (addr * nat))) (cs : gmap nat (pending K)) : Prop := {
  wr_calls : ∀ i f, cs !! i = Some f → NoDup (watched (pd_fds f)) ∧
    (∀ g, g ∈ watched (pd_fds f) → unwatched (delete i cs) g) ∧
    ∀ j p, pd_fds f !! j = Some p → -1 < pf_fd p → k !! pf_fd p = Some (Z.land (pf_events p) 349, (pd_arg f, j));
  wr_rest : ∀ g, unwatched cs g → k !! g = None;
}.

(** The thread represents the pending calls [st]; of these the ones in [act] are
    active after the events [evs]. *)
Record sched_rep {H K W : Type} `{LinkLaws H} (evs : list ((addr * nat) * Z)) (act : list nat)
    (s : sched H K W) (st : astate K W) : Prop := {
  sr_lists : ∃ exp l, ctx_rep (context s) exp l ∧ (∀ x, x ∈ its l → x < malloc_next s) ∧
    (∀ i f, calls st !! i = Some f → pd_arg f ∈ its l ∧ exp (pd_arg f) = pd_exp f) ∧
    ls l !! pstActiveList (context s) = mapM (λ i, pd_arg <$> calls st !! i) act ∧
    ∀ y, in_wheel (pTimeout (context s)) l y ↔ ∃ i f, calls st !! i = Some f ∧ pd_arg f = y ∧ i ∉ act;
  sr_frames : frames s = (λ f, (pd_arg f, pd_fds f, pd_k f)) <$> calls st;
  sr_same : malloc_next s = next_arg st ∧ outside s = aw st;
  sr_inj : ∀ i j f g, calls st !! i = Some f → calls st !! j = Some g → pd_arg f = pd_arg g → i = j;
  sr_act : NoDup act;
  sr_polls : ∀ i f, calls st !! i = Some f → polls (context s) !! pd_arg f =
    Some (if decide (i ∈ act) then raised (pd_arg f) evs (base i f) else base i f);
  sr_watched : watch_rep (interest (context s)) (calls st);
}.

(** Two coroutines: 3 waits for the descriptor 5, and then once more for another;
    4 waits for 1 ms.  They record their results. *)
Definition demo_body (i : nat) (again : bool) (ret : Z) (fds : list pollfd) (w : Z * list (nat * Z)) :
    (Z * list (nat * Z)) * option (list pollfd * Z * bool) :=
  ((w.1, w.2 ++ [(i, ret)]), if again then Some ([Pollfd 6 POLLIN 0], 2, false) else None).
Definition demo_sys_poll (fds : list pollfd) (timeout : Z) (w : Z * list (nat * Z)) : (Z * list pollfd) * (Z * list (nat * Z)) :=
  ((0, fds), w).
Definition idle_cmds : list cmd := [CNewLink 0; CNewLink 1; CNewLink 2; CNewLink 3; CNewLink 100; CNewLink 200].
Definition idle_ctx : stCoEpoll_t heap := CoEpoll demo_wheel (default empty_heap (run_cmds idle_cmds empty_heap)) ∅ ∅ 100 200.
Definition demo_calls : astate bool (Z * list (nat * Z)) :=
  AState {[4%nat := Pending 501 [] 1001 false; 3%nat := Pending 500 [Pollfd 5 POLLIN 0] 1002 true]} 502 (1001, []).

(** ** Lists of addresses and of coroutines *)

Lemma Forall2_choose {A B} (P : A → B → Prop) l : Forall (λ x, ∃ y, P x y) l → ∃ k, Forall2 P l k.
Proof. induction 1 as [|x l [y Hy] _ [k Hk]]; [by exists []|]. exists (y :: k). by constructor. Qed.

Section names.
Context {A B : Type} (f : B → option A).

Lemma names_NoDup xs ys : Forall2 (λ x y, f y = Some x) xs ys → NoDup xs → NoDup ys.
Proof.
  intros Hf. induction Hf as [|x y xs ys Hxy Hf IH]; intros Hn; [constructor|].
  apply NoDup_cons in Hn as [Hx Hn]. constructor; [|by apply IH]. intros [k Hk]%list_elem_of_lookup.
  destruct (Forall2_lookup_r _ _ _ _ _ Hf Hk) as (x' & Hx' & E). simplify_eq.
  apply Hx. by eapply list_elem_of_lookup_2.
Qed.

Lemma names_sorted (R : A → A → Prop) xs ys : Forall2 (λ x y, f y = Some x) xs ys → StronglySorted R xs →
  StronglySorted (λ i j, ∀ a b, f i = Some a → f j = Some b → R a b) ys.
Proof.
  intros Hf. induction Hf as [|x y xs ys Hxy Hf IH]; intros Hs; [constructor|].
  apply StronglySorted_inv in Hs as [Hs Hx]. constructor; [by apply IH|].
  rewrite Forall_forall in Hx. apply Forall_forall. intros j [k Hk]%list_elem_of_lookup a b Ha Hb.
  destruct (Forall2_lookup_r _ _ _ _ _ Hf Hk) as (x' & Hx' & E). simplify_eq.
  apply Hx. by eapply list_elem_of_lookup_2.
Qed.

Lemma names_elem xs ys x y : Forall2 (λ x y, f y = Some x) xs ys →
  (∀ y', f y' = Some x → y' = y) → f y = Some x → x ∈ xs ↔ y ∈ ys.
Proof.
  intros Hf Hinj Hy. split; intros [k Hk]%list_elem_of_lookup.
  - destruct (Forall2_lookup_l _ _ _ _ _ Hf Hk) as (y' & Hy' & E). apply Hinj in E as ->. by eapply list_elem_of_lookup_2.
  - destruct (Forall2_lookup_r _ _ _ _ _ Hf Hk) as (x' & Hx' & E). simplify_eq. by eapply list_elem_of_lookup_2.
Qed.
End names.

(** ** The end of the wait *)

Section laws.
Context {H : Type} `{LinkLaws H} {K W : Type}.
Implicit Types (s : sched H K W) (st : astate K W).

Notation arg_of st := (λ i, pd_arg <$> calls st !! i).

Lemma arg_of_inj evs act s st i f : sched_rep evs act s st → calls st !! i = Some f →
  ∀ j, arg_of st j = Some (pd_arg f) → j = i.
Proof.
  intros Hr Hi j Hj. apply fmap_Some in Hj as (g & Hg & Heq). by apply (sr_inj _ _ _ _ Hr j i g f).
Qed.

Lemma firsts_in a evs : a ∈ firsts evs → ∃ j e, ((a, j), e) ∈ evs.
Proof.
  induction evs as [|[[b i] e] evs IH] using rev_ind; [by intros ?%elem_of_nil|].
  rewrite firsts_snoc. intros Ha. assert (a ∈ firsts evs ∨ a = b) as [Hf| ->].
  { case_decide; [by left|]. apply elem_of_app in Ha as [?|?%list_elem_of_singleton]; auto. }
  - destruct (IH Hf) as (j & e' & Hin). exists j, e'. apply elem_of_app. by left.
  - exists i, e. apply elem_of_app. right. left.
Qed.

(** The active coroutines are among those with a pending call. *)
Lemma active_pending evs act s st i : sched_rep evs act s st → i ∈ act → is_Some (calls st !! i).
Proof.
  intros Hrep [n Hi]%list_elem_of_lookup. destruct (sr_lists _ _ _ _ Hrep) as (exp & l & Hc & _ & _ & Hact & _).
  destruct Hc as (_ & _ & _ & _ & _ & _ & [xs Hxs]%elem_of_dom). rewrite Hact in Hxs. apply mapM_Some in Hxs.
  destruct (Forall2_lookup_l _ _ _ _ _ Hxs Hi) as (y & _ & Hy). by destruct (calls st !! i).
Qed.

(** The events of an iteration belong to polls that wait. *)
Lemma events_waiting evs s st l : sched_rep [] [] s st → events_ok evs st →
  (∀ i f, calls st !! i = Some f → pd_arg f ∈ its l) → waiting (polls (context s)) l evs.
Proof.
  intros Hrep Hev Hits. eapply Forall_impl; [exact Hev|]. intros [[a j] e] (i & f & Hi & <- & Hj).
  split; [by apply (Hits i)|]. exists (base i f).
  rewrite (sr_polls _ _ _ _ Hrep i f Hi), decide_False by apply not_elem_of_nil.
  split; [done|]. split; [done|]. simpl. by rewrite length_replicate.
Qed.

(** The names of the items that an iteration makes active: [tk] are those whose
    time has come. *)
Lemma woken_names evs now st exp es ts tk :
  (∀ i f, calls st !! i = Some f → pd_arg f ∈ tk ↔ i ∈ ts) →
  Forall2 (λ a i, arg_of st i = Some a) (firsts evs) es →
  (∀ i f, calls st !! i = Some f → exp (pd_arg f) = pd_exp f) →
  Forall2 (λ a i, arg_of st i = Some a) tk ts → NoDup tk →
  (∀ i f, calls st !! i = Some f → pd_arg f ∈ tk ↔ pd_arg f ∉ firsts evs ∧ exp (pd_arg f) ≤ now) →
  StronglySorted (λ x y, exp x ≤ exp y) tk → woken evs now st (es ++ ts).
Proof.
  intros Hel Hes Hexp Hts Hnt Htk Hsort.
  exists es, ts. split_and!; [done|done| |exact (names_NoDup _ _ _ Hts Hnt)|].
  - intros i. split.
    + intros Hi. destruct (calls st !! i) as [f|] eqn:Hf.
      * exists f. rewrite <-(Hexp i f Hf). split; [done|]. by apply (Htk i f Hf), (Hel i f Hf).
      * apply list_elem_of_lookup in Hi as [k Hk]. destruct (Forall2_lookup_r _ _ _ _ _ Hts Hk) as (a & _ & Ha').
        by rewrite Hf in Ha'.
    + intros (f & Hf & Hno & Hle). apply (Hel i f Hf), (Htk i f Hf). by rewrite (Hexp i f Hf).
  - apply (names_sorted _ (λ x y, exp x ≤ exp y) tk ts Hts) in Hsort. clear Hts Hel.
    induction Hsort as [|x k _ IH Hx]; constructor; [done|]. eapply Forall_impl; [exact Hx|].
    intros y Hxy f g Hf Hg. rewrite <-(Hexp x f Hf), <-(Hexp y g Hg). apply Hxy; [by rewrite Hf|by rewrite Hg].
Qed.

Lemma iterate_gather evs now s st :
  sched_rep [] [] s st → events_ok evs st →
  ullStart (pTimeout (context s)) ≤ now < ullStart (pTimeout (context s)) + 2 ^ 31 - 1 → now < 2 ^ 63 →
  llStartIdx (pTimeout (context s)) + iItemSize (pTimeout (context s)) ≤ 2 ^ 62 →
  ∃ js c', woken evs now st js ∧ gather evs now (context s) = Some c' ∧ sched_rep evs js (set_context c' s) st ∧
    ullStart (pTimeout c') = now ∧ iItemSize (pTimeout c') = iItemSize (pTimeout (context s)).
Proof.
  intros Hrep Hev Hnow Hn63 Hidx. pose proof Hrep as [(exp & l & Hc & Hlt & Hits & Hact & Hin) Hfr Hsame Hinj _ Hpolls Hwat].
  destruct (gather_spec exp evs now (context s) l [] Hc) as (t' & h' & l' & tk & E & Hc' & Hits' & Ha & Htk & Hsort & Hin' & Hst & Hsz);
    [|by rewrite Hact|done..|].
  { apply (events_waiting evs s st l Hrep Hev). intros i f Hi. apply (Hits i f Hi). }
  change (filter (.∉ firsts evs) [] ++ firsts evs ++ tk) with (firsts evs ++ tk) in Ha.
  pose proof (rep_nodup _ _ _ _ (proj1 Hc') Ha) as Hnd. apply NoDup_app in Hnd as (Hnf & Hdisj & Hnt).
  destruct (Forall2_choose (λ a i, arg_of st i = Some a) (firsts evs)) as [es Hes].
  { apply Forall_forall. intros a (j & e & Hin1)%firsts_in. unfold events_ok in Hev. rewrite Forall_forall in Hev.
    destruct (Hev _ Hin1) as (i & f & Hi & <- & _). exists i. by rewrite Hi. }
  destruct (Forall2_choose (λ a i, arg_of st i = Some a) tk) as [ts Hts].
  { apply Forall_forall. intros a (Hw & _)%Htk. apply Hin in Hw as (i & f & Hi & <- & _). exists i. by rewrite Hi. }
  assert (∀ i f, calls st !! i = Some f → (pd_arg f ∈ firsts evs ↔ i ∈ es) ∧ (pd_arg f ∈ tk ↔ i ∈ ts)) as Hel.
  { intros i f Hi. split; apply (names_elem (arg_of st)); try done; try (by rewrite Hi);
      exact (arg_of_inj _ _ _ _ _ _ Hrep Hi). }
  assert (Forall2 (λ a i, arg_of st i = Some a) (firsts evs ++ tk) (es ++ ts)) as Hall by by apply Forall2_app.
  exists (es ++ ts), (set_lists t' h' (set_polls (map_imap (λ a p, Some (raised a evs p)) (polls (context s))) (context s))).
  split_and!; [|exact E| |exact Hst|exact Hsz].
  - apply (woken_names evs now st exp es ts tk); [|exact Hes| |exact Hts|exact Hnt| |exact Hsort].
    + intros i f Hf. apply (Hel i f Hf).
    + intros i f Hf. apply (Hits i f Hf).
    + intros i f Hf. rewrite Htk, Hin. split; [naive_solver|]. intros A1. split; [|done].
      exists i, f. split_and!; [done|done|apply not_elem_of_nil].
  - split; simpl.
    + exists exp, l'. split_and!; [exact Hc'|by rewrite Hits'|by rewrite Hits'| |].
      * rewrite Ha. symmetry. apply mapM_Some. by apply Forall2_flip.
      * intros y. rewrite Hin', Hin. split.
        -- intros ((i & f & Hf & <- & _) & Hno & Hlate). exists i, f. split_and!; [done|done|].
           rewrite elem_of_app, <-(proj1 (Hel i f Hf)), <-(proj2 (Hel i f Hf)), Htk. naive_solver lia.
        -- intros (i & f & Hf & <- & Hno). rewrite elem_of_app, <-(proj1 (Hel i f Hf)), <-(proj2 (Hel i f Hf)), Htk in Hno.
           assert (in_wheel (pTimeout (context s)) l (pd_arg f)) as Hw.
           { apply Hin. exists i, f. split_and!; [done|done|]. apply not_elem_of_nil. }
           split_and!; [exists i, f; split_and!; [done|done|apply not_elem_of_nil]|tauto|].
           destruct (decide (exp (pd_arg f) ≤ now)); [tauto|lia].
    + exact Hfr.
    + exact Hsame.
    + exact Hinj.
    + apply (names_NoDup _ _ _ Hall). apply NoDup_app. done.
    + intros i f Hf. rewrite map_lookup_imap, (Hpolls i f Hf). cbn [mbind option_bind].
      rewrite (decide_False (P := i ∈ [])) by apply not_elem_of_nil. case_decide as Hi; [done|].
      f_equal. unfold raised. destruct (decide (events_of (pd_arg f) evs = [])) as [->|Hne]; [done|].
      destruct Hi. apply elem_of_app. left. apply (Hel i f Hf). by apply firsts_events.
    + exact Hwat.
Qed.

Lemma watched_lookup fds j p : fds !! j = Some p → -1 < pf_fd p → pf_fd p ∈ watched fds.
Proof.
  intros Hj Hp. unfold watched. apply list_elem_of_filter. split; [done|]. apply list_elem_of_fmap.
  exists p. split; [done|]. by eapply list_elem_of_lookup_2.
Qed.

(** The names of the active calls do not depend on other calls. *)
Lemma names_change (cs cs' : gmap nat (pending K)) act :
  (∀ i, i ∈ act → cs' !! i = cs !! i) →
  mapM (λ i, pd_arg <$> cs' !! i) act = mapM (λ i, pd_arg <$> cs !! i) act.
Proof.
  induction act as [|i act IH]; intros Hcs; [done|]. simpl. rewrite Hcs by left.
  rewrite IH; [done|]. intros j Hj. apply Hcs. by right.
Qed.

(** With the new call of [i]: [P] holds of the calls if it does of the old ones
    and of the new one. *)
Lemma insert_ind {A} (P : nat → A → Prop) i x (m : gmap nat A) :
  P i x → (∀ j y, j ≠ i → m !! j = Some y → P j y) → ∀ j y, <[i := x]> m !! j = Some y → P j y.
Proof. intros Hi Hm j y [[<- <-]|[Hne Hj]]%lookup_insert_Some; [done|by apply Hm]. Qed.

Lemma unwatched_insert (cs : gmap nat (pending K)) i f g : cs !! i = None →
  unwatched (<[i := f]> cs) g ↔ g ∉ watched (pd_fds f) ∧ unwatched cs g.
Proof. intros Hi. unfold unwatched. by rewrite map_Forall_insert. Qed.

(** The interest list when a call begins and when it ends. *)
Lemma watch_rep_insert k k' (cs : gmap nat (pending K)) i f : watch_rep k cs → cs !! i = None → NoDup (watched (pd_fds f)) →
  (∀ j p, pd_fds f !! j = Some p → -1 < pf_fd p → k' !! pf_fd p = Some (Z.land (pf_events p) 349, (pd_arg f, j))) →
  Forall (unwatched cs) (watched (pd_fds f)) → (∀ g, g ∉ watched (pd_fds f) → k' !! g = k !! g) →
  watch_rep k' (<[i := f]> cs).
Proof.
  intros Hwat Hi Hn Hreg Hok Hother. rewrite Forall_forall in Hok. split.
  - apply insert_ind; simpl.
    + split_and!; [done| |done]. intros g Hg. rewrite delete_insert_id by done. by apply Hok.
    + intros j g Hji Hj. destruct (wr_calls _ _ Hwat j g Hj) as (A1 & A2 & A3). split_and!; [done| |].
      * intros x Hx. rewrite delete_insert_ne by done. apply unwatched_insert; [by rewrite lookup_delete_ne|].
        split; [|by apply A2]. intros Hx'. by apply (Hok x Hx' j g).
      * intros m p Hm Hp0. rewrite Hother; [by apply A3|]. intros Hx'.
        apply (Hok _ Hx' j g Hj). by eapply watched_lookup.
  - intros g [Hg1 Hg2]%unwatched_insert; [|done]. rewrite Hother by done. by apply (wr_rest _ _ Hwat).
Qed.

Lemma watch_rep_delete k k' (cs : gmap nat (pending K)) i f : watch_rep k cs → cs !! i = Some f →
  (∀ g, k' !! g = if decide (g ∈ watched (pd_fds f)) then None else k !! g) → watch_rep k' (delete i cs).
Proof.
  intros Hwat Hi Hk. split.
  - intros j g [Hji Hg]%lookup_delete_Some. destruct (wr_calls _ _ Hwat j g Hg) as (Hn & Hun & Hreg). split_and!; [done| |].
    + intros x Hx. specialize (Hun x Hx). intros m p Hm. apply (Hun m p).
      rewrite delete_delete in Hm. by apply lookup_delete_Some in Hm as [_ Hm].
    + intros m p Hm Hp0. rewrite Hk, decide_False; [by apply Hreg|]. intros Hin.
      destruct (wr_calls _ _ Hwat i f Hi) as (_ & Hun2 & _). apply (Hun2 _ Hin j g); [by rewrite lookup_delete_ne|].
      by eapply watched_lookup.
  - intros g Hg. rewrite Hk. case_decide as Hgw; [done|]. apply (wr_rest _ _ Hwat). intros j g' Hg'.
    destruct (decide (j = i)) as [->|Hji]; [by simplify_eq|]. apply (Hg j g'). by rewrite lookup_delete_ne.
Qed.

(** The lists after the head of [A] has been taken off, and off its other list. *)
Lemma pop_remove_lists (h : H) l A a xs : rep h l → ls l !! A = Some (a :: xs) →
  let l' := remove_spec a (pop_head_spec A l) in ls l' !! A = Some xs ∧ ∀ k, k ≠ A → ls l' !! k = ls l !! k.
Proof.
  intros Hr Hact l'. pose proof (rep_nodup _ _ _ _ Hr Hact) as [Hax Hxn]%NoDup_cons. split.
  - unfold l'. rewrite remove_spec_lookup. simpl. rewrite lookup_alter_eq, Hact. simpl. f_equal. by apply filter_ne_notin.
  - intros k Hk. unfold l'. rewrite remove_spec_lookup. simpl. rewrite lookup_alter_ne by done.
    destruct (ls l !! k) as [ys|] eqn:E; [|done]. simpl. f_equal. apply filter_ne_notin. intros Hay.
    apply Hk. symmetry. by apply (rep_disj _ _ A k (a :: xs) ys a Hr Hact E); [left|].
Qed.

Lemma poll_returns evs i act s st f : sched_rep evs (i :: act) s st → calls st !! i = Some f →
  ∃ c1 c2, next_active (context s) = Some (Some i, c1) ∧
    co_poll_inner_end (pd_arg f) (pd_fds f) c1 = Some ((returned evs i f).1, (returned evs i f).2, c2) ∧
    pTimeout c2 = pTimeout (context s) ∧
    sched_rep evs act (Sched c2 (delete i (frames s)) (malloc_next s) (outside s))
      (AState (delete i (calls st)) (next_arg st) (aw st)).
Proof.
  intros [(exp & l & (Hr & Hw & Hne & Hsa & Hst & Ht & Had) & Hlt & Hits & Hact & Hin) Hfr Hsame Hinj Hnd Hpolls Hwat] Hi.
  apply NoDup_cons in Hnd as [Hni Hnd]. simpl in Hact. rewrite Hi in Hact. cbn [fmap option_fmap option_map mbind option_bind] in Hact.
  destruct (mapM (λ i, pd_arg <$> calls st !! i) act) as [xs|] eqn:Hxs;
    [|apply elem_of_dom in Had as [? Had]; by rewrite Hact in Had]. cbn [mbind option_bind mret option_ret] in Hact.
  set (a := pd_arg f) in *. set (A := pstActiveList (context s)) in *.
  pose proof (Hpolls i f Hi) as Hp. rewrite decide_True in Hp by left. fold a in Hp.
  destruct (next_active_spec (context s) l a xs _ Hr Hact Hp) as (h1 & Hnext & Hr1).
  destruct (raised_fields a evs (base i f)) as (Hlen & _ & Hcnt & Harg). simpl in Hlen, Hcnt, Harg.
  rewrite length_replicate in Hlen. rewrite Harg in Hnext.
  set (c1 := set_lists (pTimeout (context s)) h1 (context s)) in *.
  destruct (co_poll_inner_end_spec a (pd_fds f) c1 (pop_head_spec A l) _ Hr1 (proj1 (Hits i f Hi)) Hp Hlen)
    as (c2 & Hend & Hr2 & _ & Hpolls2 & Hint2 & Htm2 & Hact2 & Htmo2).
  exists c1, c2. split; [exact Hnext|]. split; [by rewrite Hend, Hcnt|]. split; [exact Htm2|].
  destruct (pop_remove_lists (store (context s)) l A a xs Hr Hact) as [HA Hother].
  destruct (wheel_inv_frame (pTimeout (context s)) exp l (remove_spec a (pop_head_spec A l))) as [Hw2 Hin2]; [|done|].
  { intros k Hk. apply Hother. by intros ->. }
  assert (∀ j g, delete i (calls st) !! j = Some g → j ≠ i ∧ calls st !! j = Some g ∧ pd_arg g ≠ a) as Hdel.
  { intros j g [Hji Hg]%lookup_delete_Some. split_and!; [done|done|]. intros E. by apply Hji, (Hinj i j f g). }
  split; simpl.
  - exists exp, (remove_spec a (pop_head_spec A l)). split_and!; simpl; [unfold ctx_rep; rewrite Hact2, Htmo2, Htm2|..].
    + split_and!; [exact Hr2|exact Hw2|done..| |].
      * rewrite Hother by (intros E; by apply Hne). done.
      * apply elem_of_dom. exists xs. exact HA.
    + exact Hlt.
    + intros j g (_ & Hg & _)%Hdel. exact (Hits j g Hg).
    + rewrite Hact2. transitivity (Some xs); [exact HA|]. rewrite (names_change (calls st)); [by rewrite Hxs|]. intros j Hj.
      rewrite lookup_delete_ne; [done|]. by intros ->.
    + intros y. rewrite Htm2. unfold c1. simpl pTimeout. etransitivity; [exact (Hin2 y)|]. rewrite Hin. split.
      * intros (j & g & Hg & <- & Hj). apply not_elem_of_cons in Hj as [Hji Hj]. exists j, g.
        by rewrite lookup_delete_ne by done.
      * intros (j & g & (Hji & Hg & _)%Hdel & <- & Hj). exists j, g. split_and!; [done|done|]. by apply not_elem_of_cons.
  - by rewrite Hfr, fmap_delete.
  - exact Hsame.
  - intros j k g g' (_ & Hg & _)%Hdel (_ & Hg' & _)%Hdel. by apply Hinj.
  - exact Hnd.
  - intros j g (Hji & Hg & Hga)%Hdel. rewrite Hpolls2. simpl. rewrite lookup_delete_ne, (Hpolls j g Hg) by done.
    f_equal. destruct (decide (j ∈ act)); [by rewrite decide_True by (by right)|].
    rewrite decide_False; [done|]. by apply not_elem_of_cons.
  - apply (watch_rep_delete (interest (context s)) _ _ i f Hwat Hi). intros g. apply Hint2.
Qed.

(** ** A new call *)

Lemma wheel_inv_ext t exp exp' l : (∀ x, in_wheel t l x → exp' x = exp x) → wheel_inv t exp l → wheel_inv t exp' l.
Proof.
  intros He [? ? ? ? Hitems]. split; [done..|]. intros a xs x Ha Hl Hx.
  rewrite He; [by eapply Hitems|]. by exists a, xs.
Qed.

Context (refuse : Z → option Z).

Lemma poll_starts evs act s st (w : W) i fds timeout (k : K) later :
  let t := pTimeout (context s) in
  sched_rep evs act s st → calls st !! i = None →
  polite refuse (ullStart t) (ullStart t + iItemSize t) later fds timeout (calls st) →
  ∃ c', co_poll_inner refuse i (malloc_next s) fds timeout later true (context s) = Some (Waits c') ∧
    pTimeout c' = pTimeout (context s) ∧
    sched_rep evs act (Sched c' (<[i := (malloc_next s, fds, k)]> (frames s)) (malloc_next s + 1) w)
      (AState (<[i := Pending (next_arg st) fds (later + Z.min timeout 40000) k]> (calls st)) (next_arg st + 1) w).
Proof.
  intros t Hsr Hi (Hn & Hok & Ht0 & Hl & Hfit & Hb).
  pose proof Hsr as [(exp & l & Hc & Hlt & Hits & Hact & Hin) Hfr [Hsame _] Hinj Hnd Hpolls Hwat].
  fold t in Hin. set (a := malloc_next s) in *. set (e := later + Z.min timeout 40000) in *.
  set (exp' := λ x, if decide (x = a) then e else exp x).
  assert (∀ x, x ≠ a → exp' x = exp x) as Hexp by (intros x Hx; unfold exp'; by rewrite decide_False).
  assert (∀ j g, calls st !! j = Some g → pd_arg g ≠ a) as Hfresh.
  { intros j g Hj E. destruct (Hits j g Hj) as [Hx _]. apply Hlt in Hx. lia. }
  assert (ctx_rep (context s) exp' l) as Hc'.
  { destruct Hc as (Hr & Hw & Hrest). split; [done|]. split; [|done]. apply (wheel_inv_ext _ exp); [|done].
    intros x (j & g & Hj & <- & _)%Hin. apply Hexp. by apply (Hfresh j). }
  assert (a ∉ its l) as Ha by (intros Hx%Hlt; lia).
  destruct (co_poll_inner_spec refuse i a fds timeout later true (context s) l exp' Hc' Ha Hn)
    as (c' & l' & E & Hrep & Hreg & Hother & Hp & Hw & Htm & Hal & _ & Hits' & Hls); [|done| |done| |lia|].
  { intros g Hg. rewrite Forall_forall in Hok. destruct (Hok g Hg) as [A1 A2]. split; [done|by apply (wr_rest _ _ Hwat)]. }
  { unfold exp'. by rewrite decide_True. }
  { unfold exp'. rewrite decide_True by done. pose proof (wi_size _ _ _ (proj1 (proj2 Hc))). fold t. unfold t in *. lia. }
  assert (exp' a = e) as He by (unfold exp'; by rewrite decide_True).
  rewrite bool_decide_eq_true_2 in E, Hp by (rewrite He; fold t; lia).
  exists c'. split; [exact E|]. split; [exact Htm|]. rewrite <-Hsame. fold a.
  assert (i ∉ act) as Hia by (intros [f Hf]%(active_pending evs _ s st); [congruence|done]).
  split; simpl.
  - exists exp', l'. split_and!; [exact Hrep| | | |].
    + intros x. rewrite Hits'. intros [->%elem_of_singleton|Hx%Hlt]%elem_of_union; lia.
    + apply insert_ind; simpl; [split; [rewrite Hits'; set_solver|done]|]. intros j g _ Hj.
      destruct (Hits j g Hj) as [A1 <-]. split; [rewrite Hits'; set_solver|]. apply Hexp. by apply (Hfresh j).
    + rewrite Hal, Hls by apply Hc. rewrite Hact. symmetry. apply names_change. intros j Hj.
      apply lookup_insert_ne. by intros ->.
    + intros y. unfold t in Hin. rewrite Htm, Hw, Hin. split.
      * intros [[_ ->]|(j & g & Hj & <- & Hja)]; [exists i; eexists; rewrite lookup_insert_eq; done|].
        exists j, g. split_and!; [|done|done]. rewrite lookup_insert_ne; [done|]. intros ->. by rewrite Hi in Hj.
      * intros (j & g & Hj & <- & Hja). revert j g Hj Hja. apply (insert_ind (λ j g, j ∉ act → _)); simpl.
        -- intros _. left. split; [apply bool_decide_pack; rewrite He; fold t; lia|done].
        -- intros j g _ Hj Hja. right. by exists j, g.
  - by rewrite fmap_insert, Hfr.
  - by rewrite Hsame.
  - intros j m g g'. rewrite !lookup_insert_Some. intros [[<- <-]|[Hji Hj]] [[<- <-]|[Hmi Hm]] E'; simpl in E'; [done| | |].
    + destruct (Hfresh m g' Hm). by rewrite <-E', Hsame.
    + destruct (Hfresh j g Hj). by rewrite E', Hsame.
    + exact (Hinj j m g g' Hj Hm E').
  - done.
  - apply insert_ind; simpl.
    + by rewrite Hp, lookup_insert_eq, decide_False.
    + intros j g _ Hj. rewrite Hp, lookup_insert_ne; [by apply Hpolls|]. symmetry. by apply (Hfresh j).
  - apply (watch_rep_insert (interest (context s))); [done|done|done|done| |done].
    eapply Forall_impl; [exact Hok|]. by intros g [_ A1].
Qed.

(** ** The coroutines that an iteration resumes *)

Lemma sched_rep_outside evs act s st (w : W) : sched_rep evs act s st →
  sched_rep evs act (Sched (context s) (frames s) (malloc_next s) w) (AState (calls st) (next_arg st) w).
Proof. intros [? ? [? _] ? ? ? ?]. by split. Qed.

(** No more coroutines are active than calls are pending. *)
Lemma active_bound evs act s st : sched_rep evs act s st → (length act ≤ size (calls st))%nat.
Proof.
  intros Hrep. rewrite <-size_dom, <-(size_list_to_set (C := gset nat)) by apply (sr_act _ _ _ _ Hrep).
  apply subseteq_size. intros i Hi%elem_of_list_to_set. apply elem_of_dom. by apply (active_pending evs act s st).
Qed.

Lemma sched_rep_idle evs s st : sched_rep evs [] s st ↔ sched_rep [] [] s st.
Proof.
  split; intros [A1 A2 A3 A4 A5 A6 A7]; split; try done; intros i f Hi; rewrite (A6 i f Hi);
    by rewrite !decide_False by apply not_elem_of_nil.
Qed.

(** A thread that has just allocated its context. *)
Lemma sched_rep_start c exp l n (w : W) : ctx_rep c exp l → (∀ x, x ∈ its l → x < n) →
  ls l !! pstActiveList c = Some [] → (∀ y, ¬ in_wheel (pTimeout c) l y) → interest c = ∅ →
  sched_rep [] [] (Sched c ∅ n w) (AState (∅ : gmap nat (pending K)) n w).
Proof.
  intros Hc Hits Hact Hw Hint. split; simpl; try done.
  - exists exp, l. split_and!; [done|done|intros ?? Hf; by rewrite lookup_empty in Hf|done|].
    intros y. split; [by intros ?%Hw|]. intros (i & f & Hf & _). by rewrite lookup_empty in Hf.
  - constructor.
  - split; [intros i f Hf; by rewrite lookup_empty in Hf|]. intros g _. rewrite Hint. apply lookup_empty.
Qed.

Context (tick : W → Z) (body : nat → K → Z → list pollfd → W → W * option (list pollfd * Z * K)).
Context (sys_poll : list pollfd → Z → W → (Z * list pollfd) * W).

Lemma resume_one evs i act s st st' :
  let t := pTimeout (context s) in
  sched_rep evs (i :: act) s st →
  resume_spec refuse tick (ullStart t) (ullStart t + iItemSize t) body evs i st = Some st' →
  ∃ s', pTimeout (context s') = pTimeout (context s) ∧ sched_rep evs act s' st' ∧
    ∀ fuel, resume_active refuse tick body sys_poll (S (S fuel)) s = resume_active refuse tick body sys_poll (S fuel) s'.
Proof.
  intros t Hrep Hst. unfold resume_spec in Hst.
  destruct (calls st !! i) as [f|] eqn:Hi; [|done]. cbn [mbind option_bind] in Hst.
  destruct (poll_returns evs i act s st f Hrep Hi) as (c1 & c2 & E1 & E2 & Htm & Hrep2).
  destruct (sr_same _ _ _ _ Hrep) as [_ Hw].
  assert (frames s !! i = Some (pd_arg f, pd_fds f, pd_k f)) as Hf by by rewrite (sr_frames _ _ _ _ Hrep), lookup_fmap, Hi.
  destruct (returned evs i f) as [ret fds] eqn:Ha. simpl in E2.
  destruct (body i (pd_k f) ret fds (aw st)) as [w [[[fds' timeout] k]|]] eqn:Eb.
  - case_guard as Hg; [|done]. injection Hst as <-.
    destruct (poll_starts evs act _ _ w i fds' timeout k (tick w) Hrep2) as (c3 & E3 & Htm3 & Hrep3);
      [apply lookup_delete_eq|by simpl; rewrite Htm|].
    eexists. split; [|split; [exact Hrep3|]]; [simpl; by rewrite Htm3|]. intros fuel.
    cbn [resume_active]. rewrite E1. cbn [mbind option_bind]. rewrite Hf. cbn [mbind option_bind].
    rewrite E2. cbn [mbind option_bind run_coroutine outside context malloc_next frames]. rewrite Hw, Eb.
    simpl in E3. rewrite E3. done.
  - simplify_eq.
    exists (Sched c2 (delete i (frames s)) (malloc_next s) w). split; [exact Htm|]. split.
    + exact (sched_rep_outside _ _ _ _ w Hrep2).
    + intros fuel. cbn [resume_active]. rewrite E1. cbn [mbind option_bind]. rewrite Hf. cbn [mbind option_bind].
    rewrite E2. cbn [mbind option_bind run_coroutine outside context malloc_next frames]. rewrite Hw, Eb. done.
Qed.

Lemma resume_active_spec evs t js : ∀ s st st',
  sched_rep evs js s st → pTimeout (context s) = t →
  resume_all refuse tick (ullStart t) (ullStart t + iItemSize t) body evs js st = Some st' →
  ∃ s', sched_rep evs [] s' st' ∧ pTimeout (context s') = t ∧
    ∀ fuel, (length js < fuel)%nat → resume_active refuse tick body sys_poll fuel s = Some s'.
Proof.
  induction js as [|i js IH]; intros s st st' Hrep Ht Hall; cbn [resume_all] in Hall.
  - injection Hall as <-. exists s. split; [done|]. split; [done|]. intros [|fuel] Hfuel; [simpl in Hfuel; lia|].
    destruct (sr_lists _ _ _ _ Hrep) as (exp & l & (Hr & _) & _ & _ & Hact & _).
    cbn [resume_active]. unfold next_active. rewrite (op_head_law _ _ _ _ Hr Hact). by destruct s.
  - destruct (resume_spec _ _ _ _ _ _ _ _) as [st1|] eqn:E; [|done]. cbn [mbind option_bind] in Hall.
    destruct (resume_one evs i js s st st1 Hrep) as (s1 & Ht1 & Hrep1 & Hrun); [by rewrite Ht|].
    destruct (IH s1 st1 st' Hrep1) as (s' & Hrep' & Ht' & Hfuel'); [congruence|done|].
    exists s'. split; [done|]. split; [done|]. intros [|[|fuel]] Hfuel; [simpl in Hfuel; lia..|].
    rewrite Hrun. apply Hfuel'. simpl in Hfuel. lia.
Qed.

(** An iteration of [co_eventloop] implements the abstract scheduler, which
    knows of no list, wheel or interest list but only of the pending calls of
    [poll].  It resumes exactly the coroutines whose descriptors have events, in
    the order of the first events, and then those whose time has come, in order
    of time; each gets the number of its events with the events of every
    descriptor (0 after a timeout), runs, and ends or calls [poll] again,
    whatever the coroutines do, as long as they watch no descriptor twice.  A
    number of rounds that exceeds the pending calls is enough to end the loop, and
    the index of the wheel grows by the time at most. *)
Theorem iterate_refines evs now fuel s st :
  sched_rep [] [] s st → events_ok evs st →
  ullStart (pTimeout (context s)) ≤ now < ullStart (pTimeout (context s)) + 2 ^ 31 - 1 →
  llStartIdx (pTimeout (context s)) + iItemSize (pTimeout (context s)) ≤ 2 ^ 62 →
  now < 2 ^ 63 → (size (calls st) < fuel)%nat →
  let reach := now + iItemSize (pTimeout (context s)) in
  ∃ js, woken evs now st js ∧
    ∀ st', resume_all refuse tick now reach body evs js st = Some st' →
      ∃ s', iterate refuse tick body sys_poll fuel evs now s = Some s' ∧ sched_rep [] [] s' st' ∧
        ullStart (pTimeout (context s')) = now ∧ iItemSize (pTimeout (context s')) = iItemSize (pTimeout (context s)) ∧
        llStartIdx (pTimeout (context s')) ≤ llStartIdx (pTimeout (context s)) + (now - ullStart (pTimeout (context s))).
Proof.
  intros Hrep Hev Hnow Hidx Hn Hfuel reach. pose proof Hrep as [(exp & l & (_ & [Hz Hi Hs _ _] & _) & _) _ _ _ _ _ _].
  destruct (iterate_gather evs now s st Hrep Hev Hnow Hn Hidx) as (js & c & Hw & E & Hrep1 & Hst & Hsz).
  exists js. split; [done|]. intros st' Hall. unfold iterate. rewrite E. cbn [mbind option_bind].
  destruct (resume_active_spec evs (pTimeout c) js (set_context c s) st st' Hrep1 eq_refl) as (s' & Hrep' & Ht & Hrun);
    [by rewrite Hst, Hsz|].
  exists s'. split_and!; [|by apply sched_rep_idle in Hrep'|by rewrite Ht|by rewrite Ht|].
  2: { rewrite Ht. apply (gather_index evs); [lia..|exact E]. }
  apply Hrun. pose proof (active_bound _ _ _ _ Hrep1). lia.
Qed.
End laws.

(** ** Witness *)

Lemma idle_rep : ctx_rep idle_ctx (λ _, 0) (spec_cmds idle_cmds empty_lists).
Proof.
  destruct (run_cmds_rep idle_cmds empty_heap empty_lists) as (h & Hh & Hr); [apply empty_represents|by vm_compute|].
  assert (∀ a xs, ls (spec_cmds idle_cmds empty_lists) !! a = Some xs → xs = []) as Hnil.
  { apply map_Forall_lookup. decides. }
  split; [change (rep (default empty_heap (run_cmds idle_cmds empty_heap)) (spec_cmds idle_cmds empty_lists)); by rewrite Hh|]. split.
  - split; [done..| |].
    + intros a Ha. unfold is_slot in Ha. simpl in Ha.
      assert (a = 0 ∨ a = 1 ∨ a = 2 ∨ a = 3) as [-> | [-> | [-> | ->]]] by lia; decides.
    + intros a xs x _ Hl Hx. rewrite (Hnil a xs Hl) in Hx. by apply not_elem_of_nil in Hx.
  - split; [done|]. split; [unfold is_slot; simpl; lia|]. split; [unfold is_slot; simpl; lia|].
    split; [evaluates|decides].
Qed.

Lemma demo_calls_rep : ∃ s : sched heap bool (Z * list (nat * Z)),
  sched_rep [] [] s demo_calls ∧ pTimeout (context s) = demo_wheel.
Proof.
  assert (sched_rep [] [] (Sched idle_ctx ∅ 500 (1000, [] : list (nat * Z))) (AState (∅ : gmap nat (pending bool)) 500 (1000, [] : list (nat * Z)))) as Hrep.
  { apply (sched_rep_start idle_ctx _ _ 500 (1000, []) idle_rep); [|evaluates| |done].
    - intros x Hx. vm_compute in Hx. done.
    - intros y (a & xs & _ & Hl & Hy).
      assert (∀ a xs, ls (spec_cmds idle_cmds empty_lists) !! a = Some xs → xs = []) as Hnil by (apply map_Forall_lookup; decides).
      rewrite (Hnil a xs Hl) in Hy. by apply not_elem_of_nil in Hy. }
  destruct (poll_starts (λ _, None) _ _ _ _ (1000, []) 3%nat [Pollfd 5 POLLIN 0] 2 true 1000 Hrep) as (c1 & _ & Ht1 & Hrep1);
    [done|decides|].
  destruct (poll_starts (λ _, None) _ _ _ _ (1001, []) 4%nat [] 1 false 1000 Hrep1) as (c2 & _ & Ht2 & Hrep2);
    [done|simpl; rewrite Ht1; decides|].
  eexists. split; [exact Hrep2|]. simpl in *. by rewrite Ht2.
Qed.

(** The two coroutines that the demonstration wakes. *)
Lemma demo_woken js : woken [((500, 0%nat), 1)] 1001 demo_calls js → js = [3%nat; 4%nat].
Proof.
  intros (es & ts & -> & Hes & Hts & Hnd & _).
  assert (∀ i f, calls demo_calls !! i = Some f ↔
    (4%nat = i ∧ Pending 501 [] 1001 false = f) ∨ (4%nat ≠ i ∧ 3%nat = i ∧ Pending 500 [Pollfd 5 POLLIN 0] 1002 true = f)) as Hc.
  { intros i f. simpl calls. by rewrite lookup_insert_Some, lookup_singleton_Some. }
  assert (es = [3%nat]) as ->.
  { change (firsts [((500, 0%nat), 1)]) with [500] in Hes. apply Forall2_cons_inv_l in Hes as (i & l & Hi & Hl & ->).
    apply Forall2_nil_inv_l in Hl as ->. apply fmap_Some in Hi as (f & [[<- <-]|(_ & <- & <-)]%Hc & Hf); done. }
  assert (ts = [4%nat]) as ->; [|done].
  apply Permutation_singleton_r, NoDup_Permutation; [done|apply NoDup_singleton|]. intros i. rewrite Hts, list_elem_of_singleton. split.
  - intros (f & [[<- <-]|(_ & <- & <-)]%Hc & Hn & _); [done|]. destruct Hn. decides.
  - intros ->. eexists. split; [by apply Hc; left|]. split; [decides|done].
Qed.

Lemma iterate_refines_witness : ∃ s s' : sched heap bool (Z * list (nat * Z)),
  sched_rep [] [] s demo_calls ∧
  iterate (λ _, None) fst demo_body demo_sys_poll 3 [((500, 0%nat), 1)] 1001 s = Some s' ∧
  outside s' = (1001, [(3%nat, 1); (4%nat, 0)]).
Proof.
  destruct demo_calls_rep as (s & Hs & Ht). exists s.
  destruct (iterate_refines (λ _, None) fst demo_body demo_sys_poll [((500, 0%nat), 1)] 1001 3 s demo_calls Hs)
    as (js & Hw & Hrun);
    [decides|rewrite Ht; simpl; lia|rewrite Ht; simpl; lia|lia|apply (bool_decide_unpack _); evaluates|].
  apply demo_woken in Hw as ->. rewrite Ht in Hrun. destruct (Hrun _ ltac:(vm_compute; reflexivity)) as (s' & E & Hs' & _).
  exists s'. split; [exact Hs|]. split; [exact E|]. by destruct (sr_same _ _ _ _ Hs') as [_ ->].
Defined.
