(* ===== verification/Closure.v ===== *)
(** * Closures (libco/co_closure.h)

    The macros [co_ref] and [co_func], which generate classes that capture
    variables.  The first half of the model is the preprocessor: arguments are
    counted and visited by macros that are chosen by name.  The second half is
    what C++ makes of the generated class: the types of its members and what
    its constructor stores in them. *)

From S2P Require Import Prelude.

Local Open Scope string_scope.
Local Open Scope nat_scope.

(** ** The preprocessor *)

(** [comac_argc]: the arguments after a 0 push the numbers 7 to 0 to the right,
    and the argument [N] of [comac_arg_n] is the ninth. *)
Definition comac_args_seqs : list string := ["7"; "6"; "5"; "4"; "3"; "2"; "1"; "0"].
Definition comac_arg_n (args : list string) : option string := args !! 8.
Definition comac_argc (args : list string) : option string := comac_arg_n (("0" :: args) ++ comac_args_seqs).

(** The macros [repeat_0] to [repeat_6]: a name that is none of them is left as
    it is, an undeclared function. *)
Definition repeat_macros : list string :=
  ["repeat_0"; "repeat_1"; "repeat_2"; "repeat_3"; "repeat_4"; "repeat_5"; "repeat_6"].

Section repeat.
Context {A : Type} (fun_ : nat → string → list A).

(** [repeat_k( fun,a,... )]; a missing argument is empty. *)
Fixpoint repeat_ (k : nat) (args : list string) : list A :=
  match k with
  | O => []
  | S k' => fun_ k (default "" (head args)) ++ repeat_ k' (tail args)
  end.

Definition repeat (n : option string) (args : list string) : option (list A) :=
  n ← n;
  '(k, _) ← list_find (λ m, m = "repeat_" +:+ n) repeat_macros;
  Some (repeat_ k args).
End repeat.

(** ** Classes

    A type is a name, one that [decl_typeof] declares, or a reference. *)
Inductive ty := TName (t : string) | TTypeof (a : string) | TRef (t : ty).

#[export] Instance ty_eq_dec : EqDecision ty.
Proof. solve_decision. Defined.

(** What the macros [decl_typeof], [impl_typeof], [impl_typeof_cpy],
    [con_param_typeof] and [param_init_typeof] generate for an argument. *)
Definition decl_typeof (i : nat) (a : string) : list string := [a].
Definition impl_typeof (i : nat) (a : string) : list (string * ty) := [(a, TRef (TTypeof a))].
Definition impl_typeof_cpy (i : nat) (a : string) : list (string * ty) := [(a, TTypeof a)].
Definition con_param_typeof (i : nat) (a : string) : list (string * ty) := [(a +:+ "r", TRef (TTypeof a))].
Definition param_init_typeof (i : nat) (a : string) : list (string * string) := [(a, a +:+ "r")].

Record class := Class {
  c_name : string;
  c_base : option string;
  c_typedefs : list string;
  c_members : list (string * ty);
  c_params : list (string * ty);
  c_inits : list (string * string);
  c_member_cnt : string;
}.

(** The class that both macros generate; [impl] declares the members. *)
Definition generate (class_name : string) (base : option string) (impl : nat → string → list (string * ty))
    (args : list string) : option class :=
  let n := comac_argc args in
  typedefs ← repeat decl_typeof n args;
  members ← repeat impl n args;
  params ← repeat con_param_typeof n args;
  inits ← repeat param_init_typeof n args;
  cnt ← n;
  Some (Class class_name base typedefs members params inits cnt).

Definition co_ref (name : string) (args : list string) : option class :=
  generate ("type_" +:+ name) None impl_typeof args.

(** [stCoClosure_t] is the base, [exec] the body that follows. *)
Definition co_func (name : string) (args : list string) : option class :=
  generate name (Some "stCoClosure_t") impl_typeof_cpy args.

(** ** Types

    [cpp11]: the compiler has [decltype], which keeps a reference; [typeof] drops
    it.  [Γ] gives the declared types of variables. *)
Definition strip_ref (t : ty) : ty := match t with TRef t => t | t => t end.
Definition add_ref (t : ty) : ty := match t with TRef t => TRef t | t => TRef t end.
Definition is_ref (t : ty) : bool := match t with TRef _ => true | _ => false end.

Definition typeof (cpp11 : bool) (Γ : gmap string ty) (a : string) : option ty :=
  t ← Γ !! a; Some (if cpp11 then t else strip_ref t).

(** A type with its typedefs replaced; references to references collapse. *)
Fixpoint resolve (cpp11 : bool) (Γ : gmap string ty) (typedefs : list string) (t : ty) : option ty :=
  match t with
  | TName n => Some (TName n)
  | TTypeof a => guard (a ∈ typedefs);; typeof cpp11 Γ a
  | TRef t => t ← resolve cpp11 Γ typedefs t; Some (add_ref t)
  end.

Definition member_types (cpp11 : bool) (Γ : gmap string ty) (c : class) : option (list (string * ty)) :=
  mapM (λ '(m, t), t ← resolve cpp11 Γ (c_typedefs c) t; Some (m, t)) (c_members c).

(** ** Objects

    A member is bound to a place or holds a value of its own. *)
Section objects.
Context {V : Type}.

Inductive cell := Alias (place : Z) | Own (v : V).

(** The parameters are bound to the places of the arguments, in order. *)
Definition bind_params (params : list (string * ty)) (places : list Z) : list (string * Z) := zip params.*1 places.

Definition place_of (p : string) (bound : list (string * Z)) : option Z :=
  '(_, x) ← list_find (λ b, b.1 = p) bound; Some x.2.

(** A member is initialised with the parameter that its initialiser names; a
    member without one stays unset. *)
Definition init_member (cpp11 : bool) (Γ : gmap string ty) (c : class) (bound : list (string * Z)) (σ : Z → V)
    (m : string * ty) : option (string * cell) :=
  t ← resolve cpp11 Γ (c_typedefs c) m.2;
  '(_, i) ← list_find (λ i, i.1 = m.1) (c_inits c);
  x ← place_of i.2 bound;
  Some (m.1, if is_ref t then Alias x else Own (σ x)).

(** The constructor, called with variables that live at [places], in the store
    [σ]. *)
Definition construct (cpp11 : bool) (Γ : gmap string ty) (c : class) (places : list Z) (σ : Z → V) : option (list (string * cell)) :=
  guard (length places = length (c_params c));;
  mapM (init_member cpp11 Γ c (bind_params (c_params c) places) σ) (c_members c).

(** What the members read as in the store [σ]. *)
Definition read_cell (σ : Z → V) (x : cell) : V := match x with Alias p => σ p | Own v => v end.
Definition read_members (σ : Z → V) (o : list (string * cell)) : list (string * V) := prod_map id (read_cell σ) <$> o.
End objects.

(** Identifiers do not begin with a digit. *)
Definition digit (c : Ascii.ascii) : bool := let n := Ascii.nat_of_ascii c in ((48 <=? n) && (n <=? 57))%nat.
Definition identifier (a : string) : Prop :=
  match a with "" => False | String c _ => digit c = false end.

#[export] Instance identifier_dec a : Decision (identifier a).
Proof. unfold identifier. destruct a; apply _. Defined.

(** A declared type is a name or a reference to one. *)
Definition declared (Γ : gmap string ty) (a : string) (t : ty) : Prop :=
  Γ !! a = Some t ∧ ∃ n, t = TName n ∨ t = TRef (TName n).

(** The variables that [co_func] captures by reference. *)
Definition keeps_reference (cpp11 : bool) (Γ : gmap string ty) (a : string) : bool :=
  cpp11 && match Γ !! a with Some t => is_ref t | None => false end.

(** Two variables and a reference to a third, in the order [total], [v2], [m]. *)
Definition demo_types : gmap string ty :=
  {["total" := TName "int"; "v2" := TName "vector<int>"; "m" := TRef (TName "mutex")]}.
Definition demo_place (a : string) : Z :=
  if decide (a = "total") then 1%Z else if decide (a = "v2") then 2%Z else 3%Z.

(** ** Counting and visiting arguments *)

Lemma comac_argc_upto args : length args ≤ 7 →
  comac_argc args = ["0"; "1"; "2"; "3"; "4"; "5"; "6"; "7"] !! length args.
Proof.
  intros Hl. do 8 (destruct args as [|? args]; [reflexivity|]). simpl in Hl. lia.
Qed.

Lemma comac_argc_beyond args : 7 < length args → comac_argc args = args !! 7.
Proof.
  intros Hl. unfold comac_argc, comac_arg_n. simpl. by rewrite lookup_app_l.
Qed.

Lemma repeat_map {A} (f : nat → string → list A) (g : string → A) args :
  (∀ i a, f i a = [g a]) → repeat_ f (length args) args = g <$> args.
Proof. intros Hf. induction args as [|a args IH]; [done|]. simpl. by rewrite Hf, IH. Qed.

Lemma repeat_upto {A} (f : nat → string → list A) (g : string → A) args : length args ≤ 6 →
  (∀ i a, f i a = [g a]) → repeat f (comac_argc args) args = Some (g <$> args).
Proof.
  intros Hl Hf. rewrite comac_argc_upto by lia. rewrite <-(repeat_map f g args Hf).
  do 7 (destruct args as [|? args]; [reflexivity|]). simpl in Hl. lia.
Qed.

Lemma repeat_beyond {A} (f : nat → string → list A) args : 6 < length args → Forall identifier args →
  repeat f (comac_argc args) args = None.
Proof.
  intros Hl Hid. destruct (decide (length args = 7)) as [H7|H7].
  { rewrite comac_argc_upto, H7 by lia. reflexivity. }
  rewrite comac_argc_beyond by lia. destruct (args !! 7) as [a|] eqn:Ha; [|done].
  pose proof (Forall_lookup_1 _ _ _ _ Hid Ha) as Hi. unfold repeat. cbn [mbind option_bind].
  destruct (list_find _ _) as [[k m]|] eqn:E; [|done]. apply list_find_Some in E as (Hk & -> & _).
  exfalso. assert (Forall (λ m, ∀ a, m = "repeat_" +:+ a → ¬ identifier a) repeat_macros) as Hm.
  { unfold repeat_macros. do 7 (apply Forall_cons_2; [intros b Hb Hid'; injection Hb as Hb; match type of Hb with _ = ?x => change x with b in Hb end; subst b; vm_compute in Hid'; done|]). done. }
  exact (Forall_lookup_1 _ _ _ _ Hm Hk a eq_refl Hi).
Qed.

Lemma generate_upto name base impl g args : length args ≤ 6 → (∀ i a, impl i a = [g a]) →
  ∃ cnt, comac_argc args = Some cnt ∧ generate name base impl args =
    Some (Class name base args (g <$> args) ((λ a, (a +:+ "r", TRef (TTypeof a))) <$> args)
            ((λ a, (a, a +:+ "r")) <$> args) cnt).
Proof.
  intros Hl Hg. unfold generate. rewrite (repeat_upto decl_typeof id), (repeat_upto impl g) by done.
  rewrite (repeat_upto con_param_typeof (λ a, (a +:+ "r", TRef (TTypeof a)))) by done.
  rewrite (repeat_upto param_init_typeof (λ a, (a, a +:+ "r"))) by done.
  rewrite comac_argc_upto by lia. destruct (lookup_lt_is_Some_2 ["0"; "1"; "2"; "3"; "4"; "5"; "6"; "7"] (length args)) as [cnt E];
    [simpl; lia|]. rewrite E. exists cnt. split; [done|]. simpl. by rewrite list_fmap_id.
Qed.

Lemma generate_beyond name base impl args : 6 < length args → Forall identifier args → generate name base impl args = None.
Proof. intros Hl Hid. unfold generate. by rewrite (repeat_beyond decl_typeof args Hl Hid). Qed.

(** ** Binding *)

Lemma append_r_inj : Inj (=) (=) (λ a, a +:+ "r").
Proof.
  assert (∀ c s, String c s +:+ "r" = String c (s +:+ "r")) as Hcons by done.
  assert (∀ s, s +:+ "r" ≠ "") as Hne by (by intros []).
  intros a. induction a as [|c a IH]; intros [|d b]; [done|..]; rewrite ?Hcons; intros [= E1 E2].
  - by destruct (Hne b).
  - by destruct (Hne a).
  - subst d. f_equal. by apply IH.
Qed.

Lemma list_find_key {B} (key : string → string) (f : string → B) args a : Inj (=) (=) key → a ∈ args →
  ∃ i, list_find (λ x, x.1 = key a) ((λ a, (key a, f a)) <$> args) = Some (i, (key a, f a)).
Proof.
  intros Hinj. induction args as [|b args IH]; intros Ha; [by apply not_elem_of_nil in Ha|]. csimpl.
  case_decide as Hk; [apply Hinj in Hk as ->; by exists 0|].
  apply elem_of_cons in Ha as [->|Ha]; [done|]. destruct (IH Ha) as [i ->]. by exists (S i).
Qed.

Lemma mapM_map {B C D} (f : B → option C) (g : D → B) (h : D → C) l :
  (∀ x, x ∈ l → f (g x) = Some (h x)) → mapM f (g <$> l) = Some (h <$> l).
Proof.
  intros Hf. induction l as [|x l IH]; [done|].
  change (mapM f (g <$> x :: l)) with (y ← f (g x); k ← mapM f (g <$> l); Some (y :: k)).
  rewrite Hf by left. rewrite IH; [done|]. intros y Hy. apply Hf. by right.
Qed.

(** ** Objects of the generated classes *)

Section object.
Context (cpp11 : bool) (Γ : gmap string ty) (args : list string).
Context (Hdecl : ∀ a, a ∈ args → ∃ t, declared Γ a t).

(** The type that [typeof_a] stands for. *)
Definition var_type (a : string) : ty := default (TName "") (typeof cpp11 Γ a).

Lemma typeof_var a : a ∈ args → typeof cpp11 Γ a = Some (var_type a).
Proof. intros (t & Ht & _)%Hdecl. unfold var_type, typeof. by rewrite Ht. Qed.

Lemma resolve_typeof a : a ∈ args → resolve cpp11 Γ args (TTypeof a) = Some (var_type a).
Proof. intros Ha. simpl. rewrite option_guard_True by done. by apply typeof_var. Qed.

Lemma resolve_ref a : a ∈ args → resolve cpp11 Γ args (TRef (TTypeof a)) = Some (add_ref (var_type a)).
Proof. intros Ha. pose proof (resolve_typeof a Ha) as E. cbn [resolve] in E |- *. by rewrite E. Qed.

Lemma add_ref_is_ref t : is_ref (add_ref t) = true.
Proof. by destruct t. Qed.

(** The class with the members [m a] of the types [T a]. *)
Lemma construct_generated {V} (m : string → ty) (T : string → ty) name base cnt (ρ : string → Z) (σ : Z → V) :
  (∀ a, a ∈ args → resolve cpp11 Γ args (m a) = Some (T a)) →
  let c := Class name base args ((λ a, (a, m a)) <$> args) ((λ a, (a +:+ "r", TRef (TTypeof a))) <$> args)
             ((λ a, (a, a +:+ "r")) <$> args) cnt in
  member_types cpp11 Γ c = Some ((λ a, (a, T a)) <$> args) ∧
  construct cpp11 Γ c (ρ <$> args) σ = Some ((λ a, (a, if is_ref (T a) then Alias (ρ a) else Own (σ (ρ a)))) <$> args).
Proof.
  intros Hm c. split.
  - unfold member_types. simpl. apply mapM_map. intros a Ha. by rewrite Hm.
  - unfold construct. simpl c_params. rewrite !length_fmap, option_guard_True by done. cbn [mbind option_bind].
    simpl c_members. apply mapM_map. intros a Ha. unfold init_member. simpl. rewrite Hm by done. cbn [mbind option_bind].
    destruct (list_find_key id (λ a, a +:+ "r") args a) as [i E]; [apply _|done|]. unfold id in E. rewrite E. cbn [mbind option_bind].
    assert (bind_params ((λ a, (a +:+ "r", TRef (TTypeof a))) <$> args) (ρ <$> args) = (λ a, (a +:+ "r", ρ a)) <$> args) as ->.
    { unfold bind_params. clear. induction args as [|b l IH]; [done|]. csimpl. f_equal. exact IH. }
    unfold place_of. simpl. destruct (list_find_key (λ a, a +:+ "r") ρ args a) as [j E']; [apply append_r_inj|done|].
    rewrite E'. done.
Qed.
End object.

Lemma is_ref_var cpp11 Γ a t : declared Γ a t → is_ref (var_type cpp11 Γ a) = keeps_reference cpp11 Γ a.
Proof.
  intros (Ht & n & Hn). unfold var_type, typeof, keeps_reference. rewrite Ht. simpl.
  by destruct cpp11, Hn as [-> | ->].
Qed.

(** ** Properties *)

(** C16. For up to six variables both macros generate a class with one member per
    variable, in order, that their constructor initialises with the variable of
    the same name.  The members of [co_ref] are references: they read as the
    variables do at any later time.  Those of [co_func] have the type of the
    variable and read as it was when the object was made, except that a variable
    that is itself a reference is captured by reference where the compiler has
    [decltype].  For more variables the macros generate nothing that compiles:
    there is no [repeat_7], and from eight on the count is an argument. *)
Theorem closures_typed {V} (cpp11 : bool) (Γ : gmap string ty) (name : string) (args : list string)
    (ρ : string → Z) (σ : Z → V) :
  (∀ a, a ∈ args → ∃ t, declared Γ a t) → Forall identifier args →
  if decide (length args ≤ 6) then
    (∃ c o, co_ref name args = Some c ∧ Some (c_member_cnt c) = comac_argc args ∧
      member_types cpp11 Γ c = Some ((λ a, (a, add_ref (var_type cpp11 Γ a))) <$> args) ∧
      construct cpp11 Γ c (ρ <$> args) σ = Some o ∧ ∀ σ', read_members σ' o = (λ a, (a, σ' (ρ a))) <$> args) ∧
    (∃ c o, co_func name args = Some c ∧ c_base c = Some "stCoClosure_t" ∧
      member_types cpp11 Γ c = Some ((λ a, (a, var_type cpp11 Γ a)) <$> args) ∧
      construct cpp11 Γ c (ρ <$> args) σ = Some o ∧
      ∀ σ', read_members σ' o = (λ a, (a, if keeps_reference cpp11 Γ a then σ' (ρ a) else σ (ρ a))) <$> args)
  else co_ref name args = None ∧ co_func name args = None.
Proof.
  intros Hdecl Hid. case_decide as Hl.
  - split.
    + destruct (generate_upto ("type_" +:+ name) None impl_typeof (λ a, (a, TRef (TTypeof a))) args Hl) as (cnt & Hc & Hg); [done|].
      destruct (construct_generated cpp11 Γ args (λ a, TRef (TTypeof a)) (λ a, add_ref (var_type cpp11 Γ a)) ("type_" +:+ name) None cnt ρ σ)
        as [Ht Ho]; [intros a Ha; by apply resolve_ref|].
      eexists _, _. split; [exact Hg|]. split_and!; [done|exact Ht|exact Ho|]. intros σ'. unfold read_members.
      rewrite <-list_fmap_compose. apply list_fmap_ext. intros i a _. simpl. by rewrite add_ref_is_ref.
    + destruct (generate_upto name (Some "stCoClosure_t") impl_typeof_cpy (λ a, (a, TTypeof a)) args Hl) as (cnt & Hc & Hg); [done|].
      destruct (construct_generated cpp11 Γ args TTypeof (var_type cpp11 Γ) name (Some "stCoClosure_t") cnt ρ σ)
        as [Ht Ho]; [intros a Ha; by apply resolve_typeof|].
      eexists _, _. split; [exact Hg|]. split_and!; [done|exact Ht|exact Ho|]. intros σ'. unfold read_members.
      rewrite <-list_fmap_compose. apply list_fmap_ext. intros i a Ha. simpl.
      destruct (Hdecl a (list_elem_of_lookup_2 _ _ _ Ha)) as [t Hat]. rewrite (is_ref_var _ _ _ t Hat).
      by destruct (keeps_reference cpp11 Γ a).
  - unfold co_ref, co_func. rewrite !generate_beyond by (done || lia). done.
Qed.

(** ** Witness *)

(** After the object of [co_func] is made both variables change: it sees the
    change through the reference only. *)
Lemma closures_typed_witness : ∃ c o,
  co_func "f" ["total"; "m"] = Some c ∧ construct true demo_types c [1; 3]%Z (λ _, 10) = Some o ∧
  read_members (λ _, 20) o = [("total", 10); ("m", 20)].
Proof.
  destruct (closures_typed true demo_types "f" ["total"; "m"] demo_place (λ _, 10)) as [_ (c & o & Hc & _ & _ & Ho & Hr)].
  - intros a [->|[->|[]%not_elem_of_nil]%elem_of_cons]%elem_of_cons; [exists (TName "int")|exists (TRef (TName "mutex"))].
    + split; [evaluates|]. by exists "int"; left.
    + split; [evaluates|]. by exists "mutex"; right.
  - repeat (apply Forall_cons_2; [evaluates|]). apply Forall_nil_2.
  - exists c, o. split; [exact Hc|]. split; [exact Ho|]. exact (Hr (λ _, 20)).
Defined.
