(* ===== verification/EchoServer.v ===== *)
(** * The echo server (libco/example_echosvr.cpp)

    A process of the example: [accept_routine], the coroutines of
    [readwrite_routine], and the stack [g_readwrite] of those that are idle.  A
    coroutine runs until it yields in [co_poll], [poll] or [co_yield_ct]; the
    event loop decides who goes on, so that any sequence of steps is possible.
    What the system calls return is an argument of a step. *)

From Stdlib Require Import Ascii.
From S2P Require Import Prelude.

Local Open Scope Z_scope.

Definition EAGAIN : Z := 11.

(** ** One round of a connection *)

(** The replies of [read] and [write]; [errno] is changed by an error only. *)
Inductive rd_reply := RdData (b : list ascii) | RdEof | RdError (e : Z).
Inductive wr_reply := WrSome (n : nat) | WrError (e : Z).

(** [after_wait]: [errno] when [co_poll] returns, since other coroutines of the
    thread have run. *)
Record round := Round { after_wait : Z; rd : rd_reply; wr : wr_reply }.

Definition read_buf (r : round) : list ascii := match rd r with RdData b => b | _ => [] end.

(** [read] and, if it gave something, [write]: the result and [errno]. *)
Definition read_and_write (r : round) : Z * Z :=
  let '(ret, errno) :=
    match rd r with
    | RdData b => (Z.of_nat (length b), after_wait r)
    | RdEof => (0, after_wait r)
    | RdError e => (-1, e)
    end in
  if decide (0 < ret) then
    match wr r with
    | WrSome n => (Z.of_nat n, errno)
    | WrError e => (-1, e)
    end
  else (ret, errno).

(** What it has written. *)
Definition written (r : round) : list ascii :=
  match rd r, wr r with RdData b, WrSome n => take n b | _, _ => [] end.

(** The round ends the connection. *)
Definition closes (r : round) : bool :=
  let '(ret, errno) := read_and_write r in
  if decide (ret ≤ 0) then if decide (errno = EAGAIN) then false else true else false.

(** ** The process *)

(** [task_fd] are the [fd] of the [task_t]s, [serving] the local [fd] of the
    coroutines that are in their inner loop, and [conns] the open connections
    with what has been received and sent. *)
Record server := Server {
  g_readwrite : list nat;
  task_fd : gmap nat Z;
  serving : gmap nat Z;
  conns : gmap Z (list ascii * list ascii);
}.

(** [readwrite_routine] from the head of its outer loop to its next yield. *)
Definition readwrite_top (i : nat) (s : server) : option server :=
  fd ← task_fd s !! i;
  if decide (fd = -1) then Some (Server (i :: g_readwrite s) (task_fd s) (delete i (serving s)) (conns s))
  else Some (Server (g_readwrite s) (<[i := -1]> (task_fd s)) (<[i := fd]> (serving s)) (conns s)).

(** A round of its inner loop, when [co_poll] has returned. *)
Definition readwrite_round (i : nat) (r : round) (s : server) : option server :=
  fd ← serving s !! i;
  '(inp, out) ← conns s !! fd;
  let s := Server (g_readwrite s) (task_fd s) (serving s)
             (<[fd := (inp ++ read_buf r, out ++ written r)]> (conns s)) in
  if closes r then readwrite_top i (Server (g_readwrite s) (task_fd s) (serving s) (delete fd (conns s)))
  else Some s.

(** A pass of the loop of [accept_routine]; [inl] is a pass that waits, [inr]
    one after which the loop goes on at once.  [co_accept] does not wait. *)
Definition accept_pass (accepted : option Z) (s : server) : option (server + server) :=
  match g_readwrite s with
  | [] => Some (inl s)
  | _ :: _ =>
      match accepted with
      | None => Some (inl s)
      | Some fd =>
          let s := Server (g_readwrite s) (task_fd s) (serving s) (<[fd := ([], [])]> (conns s)) in
          match g_readwrite s with
          | [] => Some (inr (Server [] (task_fd s) (serving s) (delete fd (conns s))))
          | i :: rest =>
              s ← readwrite_top i (Server rest (<[i := fd]> (task_fd s)) (serving s) (conns s));
              Some (inr s)
          end
      end
  end.

(** The start of a process with [cnt] tasks: each coroutine runs up to its first
    yield. *)
Fixpoint start_tasks (is_ : list nat) (s : server) : option server :=
  match is_ with
  | [] => Some s
  | i :: is_ => s ← readwrite_top i (Server (g_readwrite s) (<[i := -1]> (task_fd s)) (serving s) (conns s)); start_tasks is_ s
  end.

Definition child (cnt : nat) : option server := start_tasks (seq 0 cnt) (Server [] ∅ ∅ ∅).

(** The kernel gives a descriptor that is not in use, and takes at most what it
    is given. *)
Definition read_ok (r : round) : Prop :=
  match rd r with RdData b => b ≠ [] ∧ match wr r with WrSome n => (n ≤ length b)%nat | WrError _ => True end | _ => True end.

Inductive step (s : server) : server → Prop :=
  | step_accept accepted o s' :
      (∀ fd, accepted = Some fd → 0 ≤ fd ∧ conns s !! fd = None) →
      accept_pass accepted s = Some o → (o = inl s' ∨ o = inr s') → step s s'
  | step_round i r s' : read_ok r → readwrite_round i r s = Some s' → step s s'.

(** Every task is idle and on the stack, once, or serves a connection of its
    own, and every connection is served. *)
Record server_ok (cnt : nat) (s : server) : Prop := {
  ok_tasks : ∀ i, task_fd s !! i = if decide (i < cnt)%nat then Some (-1) else None;
  ok_stack : NoDup (g_readwrite s);
  ok_idle : ∀ i, i ∈ g_readwrite s ↔ (i < cnt)%nat ∧ serving s !! i = None;
  ok_serving : ∀ i, is_Some (serving s !! i) → (i < cnt)%nat;
  ok_own : ∀ i j fd, serving s !! i = Some fd → serving s !! j = Some fd → i = j;
  ok_conns : ∀ fd, is_Some (conns s !! fd) ↔ ∃ i, serving s !! i = Some fd;
  ok_fds : ∀ i fd, serving s !! i = Some fd → 0 ≤ fd;
}.

(** A coroutine serves a connection for these rounds. *)
Fixpoint rounds (i : nat) (rs : list round) (s : server) : option server :=
  match rs with [] => Some s | r :: rs => s ← readwrite_round i r s; rounds i rs s end.

(** A round in which everything that was read is written, or nothing could be
    read for now. *)
Definition echoes (r : round) : Prop :=
  match rd r with
  | RdData b => b ≠ [] ∧ wr r = WrSome (length b)
  | RdEof => after_wait r = EAGAIN
  | RdError e => e = EAGAIN
  end.

(** A connection on which [abc] arrives, of which two bytes can be written. *)
Definition demo_rounds : list round :=
  [Round 0 (RdData ["a"; "b"; "c"]%char) (WrSome 2); Round EAGAIN (RdError EAGAIN) (WrSome 0)].
Definition demo_server : server :=
  match default (inl (Server [] ∅ ∅ ∅)) (accept_pass (Some 7) (default (Server [] ∅ ∅ ∅) (child 2))) with inl s | inr s => s end.

(** ** The start *)

(** Between the tasks [0 .. k-1], which are idle, and those that start next. *)
Definition started (k : nat) (s : server) : Prop :=
  (∀ i, task_fd s !! i = if decide (i < k)%nat then Some (-1) else None) ∧ NoDup (g_readwrite s) ∧
  (∀ i, i ∈ g_readwrite s ↔ (i < k)%nat) ∧ serving s = ∅ ∧ conns s = ∅.

Lemma start_tasks_spec n : ∀ k s, started k s → ∃ s', start_tasks (seq k n) s = Some s' ∧ started (k + n) s'.
Proof.
  induction n as [|n IH]; intros k s (Ht & Hn & Hi & Hs & Hc); cbn [seq start_tasks].
  { exists s. by rewrite Nat.add_0_r. }
  unfold readwrite_top. simpl. rewrite lookup_insert_eq. cbn [mbind option_bind]. rewrite decide_True by done.
  cbn [mbind option_bind]. destruct (IH (S k) (Server (k :: g_readwrite s) (<[k := -1]> (task_fd s)) (delete k (serving s)) (conns s)))
    as (s' & E & Hs'); [|exists s'; by rewrite Nat.add_succ_r in *].
  split_and!; simpl.
  - intros i. destruct (decide (i = k)) as [->|Hne]; [by rewrite lookup_insert_eq, decide_True by lia|].
    rewrite lookup_insert_ne, Ht by done. destruct (decide (i < k)%nat); [by rewrite decide_True by lia|by rewrite decide_False by lia].
  - constructor; [rewrite Hi; lia|done].
  - intros i. rewrite elem_of_cons, Hi. lia.
  - by rewrite Hs, delete_empty.
  - done.
Qed.

Lemma child_ok cnt : ∃ s, child cnt = Some s ∧ server_ok cnt s ∧ conns s = ∅ ∧ length (g_readwrite s) = cnt.
Proof.
  destruct (start_tasks_spec cnt 0 (Server [] ∅ ∅ ∅)) as (s & E & Ht & Hn & Hi & Hs & Hc).
  { split_and!; simpl; [done|constructor| |done|done]. intros i. split; [by intros ?%not_elem_of_nil|lia]. }
  exists s. split; [exact E|]. split; [|split; [done|]].
  - split; rewrite ?Hs, ?Hc; try done.
    + intros i. rewrite Hi, lookup_empty. naive_solver.
    + intros i [x Hx]. by rewrite lookup_empty in Hx.
    + intros fd. rewrite lookup_empty. split; [by intros [? ?]|]. intros [i Hx]. by rewrite lookup_empty in Hx.
  - assert (g_readwrite s ≡ₚ seq 0 cnt) as ->; [|apply length_seq].
    apply NoDup_Permutation; [done|apply NoDup_seq|]. intros i. rewrite Hi, elem_of_seq. simpl. lia.
Qed.

(** ** Steps *)

Lemma accept_pass_spec cnt accepted s : server_ok cnt s →
  (∀ fd, accepted = Some fd → 0 ≤ fd ∧ conns s !! fd = None) →
  match g_readwrite s, accepted with
  | i :: rest, Some fd => ∃ s', accept_pass accepted s = Some (inr s') ∧ server_ok cnt s' ∧
      g_readwrite s' = rest ∧ serving s' = <[i := fd]> (serving s) ∧ conns s' = <[fd := ([], [])]> (conns s)
  | _, _ => accept_pass accepted s = Some (inl s)
  end.
Proof.
  intros [Ht Hn Hi Hs Ho Hc Hf] Hfresh. unfold accept_pass. destruct (g_readwrite s) as [|i rest] eqn:Eg; [done|].
  destruct accepted as [fd|]; [|done]. destruct (Hfresh fd eq_refl) as [Hpos Hnew].
  apply NoDup_cons in Hn as [Hir Hn]. destruct (proj1 (Hi i) ltac:(left)) as [Hlt Hidle].
  unfold readwrite_top. simpl. rewrite ?Eg, lookup_insert_eq. cbn [mbind option_bind].
  rewrite decide_False by lia. cbn [mbind option_bind]. rewrite insert_insert_eq.
  assert (∀ j, serving s !! j ≠ Some fd) as Hfd.
  { intros j Hj. assert (is_Some (conns s !! fd)) as [? E] by (apply Hc; by exists j). by rewrite Hnew in E. }
  eexists. split; [done|]. split; [|done]. split; simpl.
  - intros j. destruct (decide (j = i)) as [->|Hne]; [by rewrite lookup_insert_eq, decide_True|by rewrite lookup_insert_ne].
  - done.
  - intros j. destruct (decide (j = i)) as [->|Hne]; [rewrite lookup_insert_eq; naive_solver|].
    rewrite lookup_insert_ne, <-Hi, elem_of_cons by done. naive_solver.
  - intros j. destruct (decide (j = i)) as [->|Hne]; [done|]. rewrite lookup_insert_ne by done. apply Hs.
  - intros j k g. rewrite !lookup_insert_Some. intros [[<- <-]|[? Hj]] [[<- Hg]|[? Hk]]; [done| | |by apply (Ho j k g)].
    + by destruct (Hfd k).
    + subst g. by destruct (Hfd j).
  - intros g. rewrite lookup_insert_is_Some, Hc. split.
    + intros [<-|[Hg [j Hj]]]; [exists i; by rewrite lookup_insert_eq|]. exists j. rewrite lookup_insert_ne; [done|].
      intros ->. by rewrite Hidle in Hj.
    + intros [j [[<- <-]|[Hj Hg]]%lookup_insert_Some]; [by left|]. destruct (decide (fd = g)) as [|]; [by left|right].
      split; [done|]. by exists j.
  - intros j g [[<- <-]|[_ Hg]]%lookup_insert_Some; [done|by apply (Hf j)].
Qed.

Lemma readwrite_round_spec cnt i r s fd : server_ok cnt s → serving s !! i = Some fd →
  ∃ inp out s', conns s !! fd = Some (inp, out) ∧ readwrite_round i r s = Some s' ∧ server_ok cnt s' ∧
    if closes r then g_readwrite s' = i :: g_readwrite s ∧ serving s' = delete i (serving s) ∧ conns s' = delete fd (conns s)
    else g_readwrite s' = g_readwrite s ∧ serving s' = serving s ∧
      conns s' = <[fd := (inp ++ read_buf r, out ++ written r)]> (conns s).
Proof.
  intros [Ht Hn Hi Hs Ho Hc Hf] Hserv. destruct (proj2 (Hc fd) (ex_intro _ i Hserv)) as [[inp out] Econn].
  assert (i < cnt)%nat as Hlt by (apply Hs; by eexists).
  unfold readwrite_round. rewrite Hserv. cbn [mbind option_bind]. rewrite Econn. cbn [mbind option_bind].
  destruct (closes r).
  - unfold readwrite_top. simpl. rewrite Ht, decide_True by done. cbn [mbind option_bind]. rewrite decide_True by done.
    rewrite delete_insert_eq. exists inp, out. eexists. split; [done|]. split; [done|]. split; [|done]. split; simpl.
    + done.
    + constructor; [|done]. rewrite Hi, Hserv. naive_solver.
    + intros j. rewrite elem_of_cons, Hi, lookup_delete_None. naive_solver.
    + intros j [x [_ Hx]%lookup_delete_Some]. apply Hs. by eexists.
    + intros j k g [_ Hj]%lookup_delete_Some [_ Hk]%lookup_delete_Some. by apply (Ho j k g).
    + intros g. rewrite lookup_delete_is_Some, Hc. split.
      * intros [Hg [j Hj]]. exists j. rewrite lookup_delete_ne; [done|]. intros ->. by rewrite Hserv in Hj; injection Hj.
      * intros [j [Hji Hj]%lookup_delete_Some]. split; [|by exists j]. intros <-. by apply Hji, (Ho i j fd).
    + intros j g [_ Hj]%lookup_delete_Some. by apply (Hf j).
  - exists inp, out. eexists. split; [done|]. split; [done|]. split; [|done]. split; simpl; try done.
    intros g. rewrite lookup_insert_is_Some, Hc. split; [intros [<-|[_ ?]]; [by exists i|done]|].
    intros Hg. destruct (decide (fd = g)); [by left|by right].
Qed.

Lemma step_ok cnt s s' : server_ok cnt s → step s s' → server_ok cnt s'.
Proof.
  intros Hok [accepted o s1 Hfresh E Ho|i r s1 _ E].
  - pose proof (accept_pass_spec cnt accepted s Hok Hfresh) as Hspec.
    destruct (g_readwrite s) as [|i rest]; [|destruct accepted as [fd|]].
    + rewrite Hspec in E. injection E as <-. by destruct Ho as [[= ->]|?].
    + destruct Hspec as (s2 & E2 & Hok2 & _). rewrite E2 in E. injection E as <-. by destruct Ho as [?|[= ->]].
    + rewrite Hspec in E. injection E as <-. by destruct Ho as [[= ->]|?].
  - destruct (serving s !! i) as [fd|] eqn:Hs; [|unfold readwrite_round in E; by rewrite Hs in E].
    destruct (readwrite_round_spec cnt i r s fd Hok Hs) as (inp & out & s2 & _ & E2 & Hok2 & _). congruence.
Qed.

Lemma reachable_ok cnt s0 s : child cnt = Some s0 → rtc step s0 s → server_ok cnt s.
Proof.
  intros Hs0 Hsteps. destruct (child_ok cnt) as (s1 & E & Hok & _). assert (s1 = s0) as -> by congruence. clear E Hs0.
  induction Hsteps as [|s1 s2 s3 Hstep _ IH]; [done|]. by apply IH, (step_ok cnt s1).
Qed.

Lemma echoes_spec r : echoes r → closes r = false ∧ written r = read_buf r.
Proof.
  destruct r as [e rd wr]. unfold echoes, closes, written, read_buf, read_and_write. simpl. destruct rd as [b| |e'].
  - intros [Hb ->]. destruct b as [|c b]; [done|]. rewrite decide_True by (simpl; lia).
    rewrite decide_False by (simpl; lia). by rewrite firstn_all.
  - intros ->. by destruct wr.
  - intros ->. by destruct wr.
Qed.

Lemma rounds_spec cnt i fd rs : ∀ s inp out, server_ok cnt s → serving s !! i = Some fd → conns s !! fd = Some (inp, out) →
  Forall (λ r, closes r = false) rs →
  ∃ s', rounds i rs s = Some s' ∧ serving s' = serving s ∧
    conns s' !! fd = Some (inp ++ concat (read_buf <$> rs), out ++ concat (written <$> rs)).
Proof.
  induction rs as [|r rs IH]; intros s inp out Hok Hs Hc Hrs; cbn [rounds].
  { exists s. split; [done|]. split; [done|]. by rewrite !app_nil_r. }
  apply Forall_cons in Hrs as [Hr Hrs].
  destruct (readwrite_round_spec cnt i r s fd Hok Hs) as (inp' & out' & s1 & Hc' & E & Hok1 & Hpost).
  rewrite Hc in Hc'. injection Hc' as <- <-. rewrite Hr in Hpost. destruct Hpost as (_ & Hs1 & Hc1).
  destruct (IH s1 (inp ++ read_buf r) (out ++ written r)) as (s' & E' & Hs' & Hc2); [done|by rewrite Hs1| |done|].
  { by rewrite Hc1, lookup_insert_eq. }
  exists s'. rewrite E. cbn [mbind option_bind]. split; [done|]. split; [by rewrite Hs'|].
  rewrite Hc2. cbn [fmap list_fmap concat]. by rewrite !(assoc_L app).
Qed.

(** C14. The echo server, whatever the order of the coroutines and whatever the
    system calls return: every task is idle and on the stack once, or serves a
    connection of its own, and every open connection is served by a task; with
    an idle task, a new connection is given to the one on top, and is never
    closed at once; a round of a connection keeps it, with what was read and
    written appended, or closes it and makes the task idle; when each write is
    complete, all that was received is sent back, in order.  But an end of
    stream found with [EAGAIN] left in [errno] is not noticed: any number of
    such rounds keep the task on the connection. *)
Theorem echo_server cnt s0 s : child cnt = Some s0 → rtc step s0 s →
  server_ok cnt s ∧
  (∀ accepted, (∀ fd, accepted = Some fd → 0 ≤ fd ∧ conns s !! fd = None) →
    match g_readwrite s, accepted with
    | i :: rest, Some fd => ∃ s', accept_pass accepted s = Some (inr s') ∧ g_readwrite s' = rest ∧
        serving s' = <[i := fd]> (serving s) ∧ conns s' = <[fd := ([], [])]> (conns s)
    | _, _ => accept_pass accepted s = Some (inl s)
    end) ∧
  (∀ i fd, serving s !! i = Some fd → ∃ inp out, conns s !! fd = Some (inp, out) ∧
    (∀ r, ∃ s', readwrite_round i r s = Some s' ∧
      if closes r then g_readwrite s' = i :: g_readwrite s ∧ serving s' = delete i (serving s) ∧ conns s' = delete fd (conns s)
      else g_readwrite s' = g_readwrite s ∧ serving s' = serving s ∧
        conns s' = <[fd := (inp ++ read_buf r, out ++ written r)]> (conns s)) ∧
    (∀ rs, Forall echoes rs → ∃ s', rounds i rs s = Some s' ∧ serving s' = serving s ∧
      conns s' !! fd = Some (inp ++ concat (read_buf <$> rs), out ++ concat (read_buf <$> rs))) ∧
    (∀ n w, ∃ s', rounds i (replicate n (Round EAGAIN RdEof w)) s = Some s' ∧ serving s' !! i = Some fd)).
Proof.
  intros Hs0 Hsteps. pose proof (reachable_ok cnt s0 s Hs0 Hsteps) as Hok. split; [done|]. split.
  { intros accepted Hfresh. pose proof (accept_pass_spec cnt accepted s Hok Hfresh) as Hspec.
    destruct (g_readwrite s), accepted; naive_solver. }
  intros i fd Hs. destruct (proj2 (ok_conns _ _ Hok fd) (ex_intro _ i Hs)) as [[inp out] Hc].
  exists inp, out. split; [done|]. split; [|split].
  - intros r. destruct (readwrite_round_spec cnt i r s fd Hok Hs) as (inp' & out' & s' & Hc' & E & _ & Hpost).
    rewrite Hc in Hc'. injection Hc' as <- <-. by exists s'.
  - intros rs Hrs. destruct (rounds_spec cnt i fd rs s inp out Hok Hs Hc) as (s' & E & Hs' & Hc').
    { eapply Forall_impl; [exact Hrs|]. by intros r [? _]%echoes_spec. }
    exists s'. split; [done|]. split; [done|]. rewrite Hc'. do 2 f_equal. f_equal. f_equal.
    clear -Hrs. induction Hrs as [|r rs [_ Hr]%echoes_spec _ IH]; [done|]. csimpl. by rewrite Hr, IH.
  - intros n w. destruct (rounds_spec cnt i fd (replicate n (Round EAGAIN RdEof w)) s inp out Hok Hs Hc) as (s' & E & Hs' & _).
    { apply Forall_replicate. by destruct w. }
    exists s'. by rewrite Hs'.
Qed.

(** Two tasks: descriptor 7 is accepted and [abc] arrives, two bytes of which
    are written; the peer then ends the stream, with [EAGAIN] in [errno]. *)
Lemma echo_server_witness :
  conns <$> rounds 1 demo_rounds demo_server = Some {[7 := (["a"; "b"; "c"], ["a"; "b"])%char]} ∧
  ∃ s', rounds 1 (replicate 3 (Round EAGAIN RdEof (WrSome 0))) demo_server = Some s' ∧ serving s' !! 1%nat = Some 7.
Proof.
  split; [vm_compute; reflexivity|].
  destruct (child 2) as [s0|] eqn:E; [|vm_compute in E; discriminate].
  destruct (echo_server 2 s0 demo_server E) as (_ & _ & H).
  - apply rtc_once. apply (step_accept s0 (Some 7) (inr demo_server) demo_server); [| |by right];
      vm_compute in E; injection E as <-; [|vm_compute; reflexivity].
    intros fd [= <-]. split; [lia|vm_compute; reflexivity].
  - destruct (H 1%nat 7) as (_ & _ & _ & _ & _ & Hstuck); [vm_compute; reflexivity|]. apply (Hstuck 3%nat (WrSome 0)).
Defined.
