(* ===== verification/CoLoop.v ===== *)
(** * The event loop of libco over time (libco/co_routine.cpp)

    [co_eventloop] as a whole: iterations of [Scheduler], one for each report of
    [epoll_wait] and the time after it, and the function [pfn] that is called at
    the end of each and may end the loop. *)

From S2P Require Import Prelude LinkList Timeout Poll Scheduler.

Local Open Scope Z_scope.

(** What an iteration is given: the events and the time. *)
Abbreviation input := (list ((addr * nat) * Z) * Z)%type.

Section loop.
Context {H : Type} `{LinkOps H}.
Context (refuse : Z → option Z) {K W : Type} (tick : W → Z).
Context (body : nat → K → Z → list pollfd → W → W * option (list pollfd * Z * K)).
Context (sys_poll : list pollfd → Z → W → (Z * list pollfd) * W).
Context (pfn : option (W → Z * W)).

(** [pfn( arg )]: whether the loop ends. *)
Definition call_pfn (w : W) : bool * W :=
  match pfn with
  | None => (false, w)
  | Some p => let '(r, w) := p w in (bool_decide (r = -1), w)
  end.

Definition set_outside (w : W) (s : sched H K W) : sched H K W := Sched (context s) (frames s) (malloc_next s) w.

(** Whether the loop has ended, and the thread; when the inputs are used up it is
    still running.  [fuel] bounds the coroutines that an iteration resumes. *)
Fixpoint co_eventloop (fuel : nat) (inputs : list input) (s : sched H K W) : option (bool * sched H K W) :=
  match inputs with
  | [] => Some (false, s)
  | (evs, now) :: inputs =>
      s ← iterate refuse tick body sys_poll fuel evs now s;
      let '(stop, w) := call_pfn (outside s) in
      if stop then Some (true, set_outside w s) else co_eventloop fuel inputs (set_outside w s)
  end.

(** ** The abstract loop *)

Definition set_aw (w : W) (st : astate K W) : astate K W := AState (calls st) (next_arg st) w.

(** [reach n]: how far the wheel reaches at the time [n]. *)
Context (reach : Z → Z).

Inductive runs : list input → astate K W → bool → astate K W → Prop :=
  | runs_nil st : runs [] st false st
  | runs_stop evs now inputs st js st' w : woken evs now st js →
      resume_all refuse tick now (reach now) body evs js st = Some st' → call_pfn (aw st') = (true, w) →
      runs ((evs, now) :: inputs) st true (set_aw w st')
  | runs_on evs now inputs st js st' w b st'' : woken evs now st js →
      resume_all refuse tick now (reach now) body evs js st = Some st' → call_pfn (aw st') = (false, w) →
      runs inputs (set_aw w st') b st'' → runs ((evs, now) :: inputs) st b st''.

(** The inputs are possible: events of registered descriptors, times that do not
    decrease, and coroutines whose calls the scheduler accepts, in whatever order
    those whose time has come are resumed. *)
Fixpoint possible (inputs : list input) (last : Z) (st : astate K W) : Prop :=
  match inputs with
  | [] => True
  | (evs, now) :: inputs =>
      events_ok evs st ∧ last ≤ now < last + 2 ^ 31 - 1 ∧
      ∀ js, woken evs now st js → ∃ st', resume_all refuse tick now (reach now) body evs js st = Some st' ∧
        let '(stop, w) := call_pfn (aw st') in if stop : bool then True else possible inputs now (set_aw w st')
  end.
End loop.

(** The two coroutines of the demonstration in [Scheduler]: an event for the first
    and the time limit of the second, and then the time limit of the first's
    second call; [pfn] ends the loop after three results. *)
Definition demo_inputs : list input := [([((500, 0%nat), 1)], 1001); ([], 1003)].
Definition demo_pfn (w : Z * list (nat * Z)) : Z * (Z * list (nat * Z)) := (if decide (length w.2 = 3%nat) then -1 else 0, w).
Definition demo_again : astate bool (Z * list (nat * Z)) :=
  AState {[3%nat := Pending 502 [Pollfd 6 POLLIN 0] 1003 false]} 503 (1001, [(3%nat, 1); (4%nat, 0)]).

(** ** Calls that are left *)

Section old.
Context (refuse : Z → option Z) {K W : Type} (tick : W → Z) (start reach : Z).
Context (body : nat → K → Z → list pollfd → W → W * option (list pollfd * Z * K)).

(** A call of [st'] that was made before [st] is a call of [st], and not of a
    coroutine in [js]. *)
Definition kept (js : list nat) (st st' : astate K W) : Prop :=
  next_arg st ≤ next_arg st' ∧ (size (calls st') ≤ size (calls st))%nat ∧
  ∀ j g, calls st' !! j = Some g → pd_arg g < next_arg st → j ∉ js ∧ calls st !! j = Some g.

Lemma kept_refl st : kept [] st st.
Proof. split; [lia|]. split; [lia|]. intros j g Hj _. split; [apply not_elem_of_nil|done]. Qed.

Lemma kept_trans js ks st1 st2 st3 : kept js st1 st2 → kept ks st2 st3 → kept (js ++ ks) st1 st3.
Proof.
  intros (Hn1 & Hs1 & H1) (Hn2 & Hs2 & H2). split; [lia|]. split; [lia|]. intros j g Hj Hg.
  destruct (H2 j g Hj) as [Hk Hj2]; [lia|]. destruct (H1 j g Hj2 Hg) as [Hjs Hj1]. split; [|done]. by rewrite elem_of_app; intros [?|?].
Qed.

Lemma resume_spec_kept evs i st st' : resume_spec refuse tick start reach body evs i st = Some st' → kept [i] st st'.
Proof.
  unfold resume_spec. intros E. destruct (calls st !! i) as [f|] eqn:Ef; [|done]. cbn [mbind option_bind] in E.
  destruct (returned evs i f) as [ret fds]. destruct (body i (pd_k f) ret fds (aw st)) as [w [[[fds' timeout] k]|]].
  - case_guard; [|done]. cbn [mbind option_bind] in E. injection E as <-. split; simpl; [lia|]. split.
    + rewrite insert_delete_eq, map_size_insert, Ef. simpl. lia.
    + intros j g Hj Hg. destruct (decide (j = i)) as [->|Hne].
      * rewrite lookup_insert_eq in Hj. injection Hj as <-. simpl in Hg. lia.
      * rewrite lookup_insert_ne, lookup_delete_ne in Hj by done. split; [by rewrite list_elem_of_singleton|done].
  - injection E as <-. split; simpl; [lia|]. split; [rewrite map_size_delete, Ef; simpl; lia|].
    intros j g [Hne Hj]%lookup_delete_Some _. split; [rewrite list_elem_of_singleton; congruence|done].
Qed.

Lemma resume_all_kept evs js : ∀ st st', resume_all refuse tick start reach body evs js st = Some st' → kept js st st'.
Proof.
  induction js as [|i js IH]; intros st st' E; cbn [resume_all] in E; [injection E as <-; apply kept_refl|].
  destruct (resume_spec _ _ _ _ _ _ _ _) as [st1|] eqn:E1; [|done]. apply (kept_trans [i] js st st1 st').
  - by apply (resume_spec_kept evs).
  - by apply IH.
Qed.
End old.

(** ** The simulation *)

Section laws.
Context {H : Type} `{LinkLaws H} {K W : Type} (refuse : Z → option Z) (tick : W → Z).
Context (body : nat → K → Z → list pollfd → W → W * option (list pollfd * Z * K)).
Context (sys_poll : list pollfd → Z → W → (Z * list pollfd) * W) (pfn : option (W → Z * W)).

(** Every call is identified by an address that was handed out. *)
Definition fresh_args (st : astate K W) : Prop :=
  (∀ i f, calls st !! i = Some f → pd_arg f < next_arg st) ∧
  (∀ i j f g, calls st !! i = Some f → calls st !! j = Some g → pd_arg f = pd_arg g → i = j).

Lemma sched_rep_fresh evs act (s : sched H K W) st : sched_rep evs act s st → fresh_args st.
Proof.
  intros [(exp & l & _ & Hlt & Hits & _) _ [Hsame _] Hinj _ _ _]. split; [|exact Hinj].
  intros i f Hi. rewrite <-Hsame. apply Hlt. by apply (Hits i f Hi).
Qed.

Lemma sched_rep_world evs act (s : sched H K W) st w : sched_rep evs act s st →
  sched_rep evs act (set_outside w s) (set_aw w st).
Proof. intros [A1 A2 [A3 _] A4 A5 A6 A7]. by split. Qed.

(** A call whose time has come is woken. *)
Lemma woken_due evs now st js i f : woken evs now st js → fresh_args st → calls st !! i = Some f → pd_exp f ≤ now → i ∈ js.
Proof.
  intros (es & ts & -> & Hes & Hts & _) [_ Hinj] Hi Hdue. rewrite elem_of_app.
  destruct (decide (pd_arg f ∈ firsts evs)) as [Hf|Hf]; [left|right; apply Hts; by exists f].
  apply list_elem_of_lookup in Hf as [k Hk]. destruct (Forall2_lookup_l _ _ _ _ _ Hes Hk) as (j & Hj & Ej).
  apply fmap_Some in Ej as (g & Hg & Eg). rewrite (Hinj i j f g) by done. by eapply list_elem_of_lookup_2.
Qed.

Lemma runs_kept reach inputs st b st' : runs refuse tick body pfn reach inputs st b st' → ∃ js, kept js st st'.
Proof.
  induction 1 as [st|evs now inputs st js st' w _ E _|evs now inputs st js st' w b st'' _ E _ _ [ks IH]].
  - exists []. apply kept_refl.
  - exists js. apply resume_all_kept in E. exact E.
  - exists (js ++ ks). apply resume_all_kept in E. exact (kept_trans js ks st (set_aw w st') st'' E IH).
Qed.

Lemma co_eventloop_spec (fuel : nat) (isz limit : Z) inputs : ∀ s st,
  let reach := λ now, now + isz in
  sched_rep [] [] s st → possible refuse tick body pfn reach inputs (ullStart (pTimeout (context s))) st →
  iItemSize (pTimeout (context s)) = isz → (size (calls st) < fuel)%nat →
  Forall (λ i, i.2 ≤ limit) inputs → limit < 2 ^ 63 →
  llStartIdx (pTimeout (context s)) + isz + (limit - ullStart (pTimeout (context s))) ≤ 2 ^ 62 →
  ∃ b s' st', co_eventloop refuse tick body sys_poll pfn fuel inputs s = Some (b, s') ∧
    runs refuse tick body pfn reach inputs st b st' ∧ sched_rep [] [] s' st' ∧
    (b = false → ∀ i f, calls st !! i = Some f → (∃ x, x ∈ inputs ∧ pd_exp f ≤ x.2) → calls st' !! i ≠ Some f).
Proof.
  induction inputs as [|[evs now] inputs IH]; intros s st reach Hrep Hpos Hsz Hfuel Hin Hlim Hidx; cbn [co_eventloop].
  { exists false, s, st. split; [done|]. split; [constructor|]. split; [done|]. intros _ i f _ (x & Hx & _). by apply not_elem_of_nil in Hx. }
  cbn [possible] in Hpos. destruct Hpos as (Hev & Hnow & Hall). apply Forall_cons in Hin as [Hnl Hin]. simpl in Hnl.
  destruct (iterate_refines refuse tick body sys_poll evs now fuel s st Hrep Hev) as (js & Hw & Hrun); [lia|lia|lia|done|].
  rewrite Hsz in Hrun. destruct (Hall js Hw) as (st1 & E1 & Hpos). destruct (Hrun st1 E1) as (s1 & -> & Hrep1 & Hst & Hsz1 & Hix). clear Hrun Hall.
  cbn [mbind option_bind]. destruct (sr_same _ _ _ _ Hrep1) as [_ Ho]. rewrite Ho. destruct (call_pfn pfn (aw st1)) as [[] w] eqn:Ep.
  { exists true, (set_outside w s1), (set_aw w st1). split; [done|]. split; [by eapply runs_stop|]. split; [by apply sched_rep_world|done]. }
  destruct (resume_all_kept refuse tick now (now + isz) body evs js st st1 E1) as (Hn & Hs & Hk).
  destruct (IH (set_outside w s1) (set_aw w st1)) as (b & s' & st' & E & Hr & Hrep' & Hlive).
  - by apply sched_rep_world.
  - simpl. by rewrite Hst.
  - done.
  - simpl. lia.
  - done.
  - done.
  - simpl. rewrite Hst. lia.
  - exists b, s', st'. split; [done|]. split; [by eapply runs_on|]. split; [done|]. intros Hb i f Hi (x & Hx & Hdue).
    pose proof (proj1 (sched_rep_fresh _ _ _ _ Hrep) i f Hi) as Hold. destruct (runs_kept _ _ _ _ _ Hr) as [ks (_ & _ & Hks)].
    intros Hi'. destruct (Hks i f Hi') as [_ Hi1]; [simpl; lia|]. destruct (Hk i f Hi1 Hold) as [Hjs _].
    apply elem_of_cons in Hx as [->|Hx].
    + apply Hjs. by apply (woken_due evs now st js i f Hw (sched_rep_fresh _ _ _ _ Hrep)).
    + by apply (Hlive Hb i f Hi1 (ex_intro _ x (conj Hx Hdue))).
Qed.

(** C12. [co_eventloop] implements the abstract scheduler, which knows of no list,
    wheel or interest list but only of the pending calls of [poll], for any
    number of iterations.  Each resumes exactly the coroutines whose descriptors
    have events, in the order of the first events, and then those whose time has
    come, in order of time; each gets the number of its events with the events
    of every descriptor (0 after a timeout), runs, and ends or calls [poll] again,
    whatever the coroutines do, as long as they watch no descriptor twice.  The
    loop ends when [pfn] returns -1.  And no call waits for ever: while the loop
    runs, a call is over when the loop has reached its time limit.  A fuel that
    exceeds the pending calls is enough, and the index of the wheel does not
    overflow. *)
Theorem co_eventloop_refines (fuel : nat) (inputs : list input) (limit : Z) (s : sched H K W) (st : astate K W) :
  let wheel := pTimeout (context s) in
  let reach := λ now, now + iItemSize wheel in
  sched_rep [] [] s st → possible refuse tick body pfn reach inputs (ullStart wheel) st → (size (calls st) < fuel)%nat →
  Forall (λ i, i.2 ≤ limit) inputs → limit < 2 ^ 63 → llStartIdx wheel + iItemSize wheel + (limit - ullStart wheel) ≤ 2 ^ 62 →
  ∃ b s' st', co_eventloop refuse tick body sys_poll pfn fuel inputs s = Some (b, s') ∧
    runs refuse tick body pfn reach inputs st b st' ∧ sched_rep [] [] s' st' ∧
    (b = false → ∀ i f, calls st !! i = Some f → (∃ x, x ∈ inputs ∧ pd_exp f ≤ x.2) → calls st' !! i ≠ Some f).
Proof.
  intros wheel reach Hrep Hpos Hfuel Hin Hlim Hidx.
  by apply (co_eventloop_spec fuel (iItemSize wheel) limit inputs s st Hrep Hpos).
Qed.
End laws.

(** ** Witness *)

Lemma demo_woken_again js : woken [] 1003 demo_again js → js = [3%nat].
Proof.
  intros (es & ts & -> & Hes & Hts & Hnd & _). apply Forall2_nil_inv_l in Hes as ->.
  apply Permutation_singleton_r, NoDup_Permutation; [done|apply NoDup_singleton|]. intros i. rewrite Hts, list_elem_of_singleton. split.
  - intros (f & Hi & _). unfold demo_again in Hi. simpl calls in Hi. by apply lookup_singleton_Some in Hi as [-> _].
  - intros ->. eexists. split; [apply lookup_singleton_eq|]. split; [apply not_elem_of_nil|done].
Qed.

Lemma demo_possible : possible (λ _, None) fst demo_body (Some demo_pfn) (λ now, now + 4) demo_inputs 1000 demo_calls.
Proof.
  split; [decides|]. split; [lia|]. intros js ->%demo_woken. exists demo_again. split; [evaluates|].
  change (possible (λ _, None) fst demo_body (Some demo_pfn) (λ now, now + 4) [([], 1003)] 1001 demo_again).
  split; [decides|]. split; [lia|]. intros js ->%demo_woken_again. eexists. split; [evaluates|]. exact I.
Qed.

Lemma demo_runs b st : runs (λ _, None) fst demo_body (Some demo_pfn) (λ now, now + 4) demo_inputs demo_calls b st →
  b = true ∧ aw st = (1001, [(3%nat, 1); (4%nat, 0); (3%nat, 0)]).
Proof.
  assert (resume_all (λ _, None) fst 1001 (1001 + 4) demo_body [((500, 0%nat), 1)] [3%nat; 4%nat] demo_calls = Some demo_again) as E1 by evaluates.
  assert (∃ st1, resume_all (λ _, None) fst 1003 (1003 + 4) demo_body [] [3%nat] demo_again = Some st1 ∧
    aw st1 = (1001, [(3%nat, 1); (4%nat, 0); (3%nat, 0)])) as (st1 & E2 & Hw) by (eexists; split; evaluates).
  intros Hr. inversion Hr as [|? ? ? ? ? ? ? Hj E Hp|? ? ? ? ? st0 w ? ? Hj E Hp Hr2]; subst; clear Hr; apply demo_woken in Hj as ->;
    pose proof (eq_trans (eq_sym E1) E) as E0; injection E0 as <-; [done|]. injection Hp as <-.
  change (set_aw (aw demo_again) demo_again) with demo_again in Hr2. clear E.
  inversion Hr2 as [|? ? ? ? ? ? ? Hj E Hp|? ? ? ? ? ? ? ? ? Hj E Hp _]; subst; clear Hr2; apply demo_woken_again in Hj as ->;
    pose proof (eq_trans (eq_sym E2) E) as E0; injection E0 as <-; unfold call_pfn, demo_pfn in Hp; rewrite Hw in Hp; [|done]. injection Hp as <-. by split.
Qed.

Lemma co_eventloop_refines_witness : ∃ s s' : sched heap bool (Z * list (nat * Z)),
  sched_rep [] [] s demo_calls ∧
  co_eventloop (λ _, None) fst demo_body demo_sys_poll (Some demo_pfn) 3 demo_inputs s = Some (true, s') ∧
  outside s' = (1001, [(3%nat, 1); (4%nat, 0); (3%nat, 0)]).
Proof.
  destruct demo_calls_rep as (s & Hs & Ht). exists s.
  destruct (co_eventloop_refines (λ _, None) fst demo_body demo_sys_poll (Some demo_pfn) 3 demo_inputs 1003 s demo_calls Hs)
    as (b & s' & st' & E & Hr & Hs' & _).
  - rewrite Ht. exact demo_possible.
  - apply (bool_decide_unpack _). evaluates.
  - repeat (apply Forall_cons_2; [simpl; lia|]). apply Forall_nil_2.
  - lia.
  - rewrite Ht. simpl. lia.
  - rewrite Ht in Hr. apply demo_runs in Hr as [-> Hw]. exists s'. split; [exact Hs|]. split; [exact E|].
    destruct (sr_same _ _ _ _ Hs') as [_ ->]. exact Hw.
Defined.
