(* ===== verification/ExamplePoll.v ===== *)
(** * Polling many descriptors (libco/example_poll.cpp)

    [poll_routine] after its descriptors are connected: it polls them, records
    those it takes for ready, and polls the others again.  [poll] is given as a
    function of the number of the round and of the entries it is called with; it
    returns its result and the [revents] of the entries. *)

From S2P Require Import Prelude.

Local Open Scope Z_scope.

Definition POLLOUT : Z := 4.
Definition POLLERR : Z := 8.
Definition POLLHUP : Z := 16.
Definition wanted : Z := Z.lor (Z.lor POLLOUT POLLERR) POLLHUP.

Record pollfd := Pollfd { fd : Z; events : Z; revents : Z }.

Definition want (x : Z) : pollfd := Pollfd x wanted 0.

(** The variables of the loop. *)
Record frame := Frame {
  v : list Z;
  pf : list pollfd;
  setRaiseFds : gset Z;
  iWaitCnt : nat;
}.

Definition frame_new (v : list Z) : frame := Frame v (want <$> v) ∅ (length v).

(** [poll] writes the [revents] of the entries it is given. *)
Fixpoint set_revents (rev : list Z) (pf : list pollfd) : list pollfd :=
  match rev, pf with
  | r :: rev, p :: pf => Pollfd (fd p) (events p) r :: set_revents rev pf
  | _, pf => pf
  end.

(** The loop that fills [pf] again, from [cnt] on. *)
Fixpoint refill (raised : gset Z) (vs : list Z) (pf : list pollfd) (cnt : nat) : option (list pollfd * nat) :=
  match vs with
  | [] => Some (pf, cnt)
  | x :: vs =>
      if decide (x ∈ raised) then refill raised vs pf cnt
      else
        p ← pf !! cnt;
        refill raised vs (<[cnt := Pollfd x wanted (revents p)]> pf) (S cnt)
  end.

Section poll.
Context (poll : nat → list pollfd → Z * list Z).

(** The loop from round [n] on: how [poll] returned last, and the variables. *)
Fixpoint poll_loop (fuel n : nat) (f : frame) : option (Z * frame) :=
  match fuel with
  | O => None
  | S fuel =>
      let '(ret, rev) := poll n (take (iWaitCnt f) (pf f)) in
      let pf := set_revents rev (pf f) in
      fired ← mapM (λ i, pf !! i) (seq 0 (Z.to_nat ret));
      let raised := setRaiseFds f ∪ list_to_set (fd <$> fired) in
      if decide (size raised = length (v f)) then Some (ret, Frame (v f) pf raised (iWaitCnt f))
      else if decide (ret ≤ 0) then Some (ret, Frame (v f) pf raised (iWaitCnt f))
      else
        '(pf, cnt) ← refill raised (v f) pf 0;
        poll_loop fuel (S n) (Frame (v f) pf raised cnt)
  end.

(** The loop and what follows: the descriptors that are taken for ready, those
    that are closed, in order, and [v] at the end. *)
Definition poll_routine (fuel : nat) (vs : list Z) : option (Z * gset Z * list Z * list Z) :=
  '(ret, f) ← poll_loop fuel 0 (frame_new vs);
  Some (ret, setRaiseFds f, v f, replicate (length (v f)) (-1)).
End poll.

(** What poll(2) promises: every entry gets its [revents], and the result is the
    number of entries with some, 0 or -1. *)
Definition poll_ok (poll : nat → list pollfd → Z * list Z) : Prop :=
  ∀ n fds, let '(ret, rev) := poll n fds in
    length rev = length fds ∧ ret ≤ Z.of_nat (length (filter (λ r, r ≠ 0) rev)).

(** Only the last entry is ever ready. *)
Definition last_ready (n : nat) (fds : list pollfd) : Z * list Z :=
  match fds with
  | [] => (0, [])
  | _ :: fds => (1, replicate (length fds) 0 ++ [POLLOUT])
  end.

(** Three descriptors, of which the last becomes ready, and then none: the first
    is taken for ready, and the routine gives up the other two. *)
Definition demo_poll (n : nat) (fds : list pollfd) : Z * list Z :=
  if decide (n = 0)%nat then last_ready n fds else (0, replicate (length fds) 0).

(** ** The loop

    After [k] descriptors have been taken for ready. *)
Record waiting (vs : list Z) (k : nat) (f : frame) : Prop := {
  w_v : v f = vs;
  w_le : (k ≤ length vs)%nat;
  w_raised : setRaiseFds f = list_to_set (take k vs);
  w_cnt : iWaitCnt f = (length vs - k)%nat;
  w_pf : length (pf f) = length vs;
  w_fds : fd <$> take (iWaitCnt f) (pf f) = drop k vs;
}.

Lemma set_revents_fd rev pf : fd <$> set_revents rev pf = fd <$> pf.
Proof.
  revert rev. induction pf as [|p pf IH]; intros [|r rev]; [done..|]. csimpl. by rewrite IH.
Qed.

Lemma frame_new_waiting vs : waiting vs 0 (frame_new vs).
Proof.
  split; simpl; [done|lia|done|lia|by rewrite length_fmap|].
  rewrite firstn_all2 by (by rewrite length_fmap). rewrite <-list_fmap_compose. apply list_fmap_id.
Qed.

Lemma refill_spec raised vs : ∀ pf cnt, (cnt + length vs ≤ length pf)%nat →
  ∃ pf', refill raised vs pf cnt = Some (pf', cnt + length (filter (λ x, x ∉ raised) vs))%nat ∧ length pf' = length pf ∧
    fd <$> take (cnt + length (filter (λ x, x ∉ raised) vs)) pf' = (fd <$> take cnt pf) ++ filter (λ x, x ∉ raised) vs.
Proof.
  induction vs as [|x vs IH]; intros pf cnt Hl; cbn [refill].
  { exists pf. rewrite filter_nil. simpl. by rewrite Nat.add_0_r, app_nil_r. }
  simpl in Hl. destruct (decide (x ∈ raised)) as [Hx|Hx].
  { rewrite filter_cons_False by (by intros ?). apply IH. lia. }
  rewrite filter_cons_True by done. destruct (lookup_lt_is_Some_2 pf cnt) as [p Hp]; [lia|]. rewrite Hp. cbn [mbind option_bind].
  destruct (IH (<[cnt := Pollfd x wanted (revents p)]> pf) (S cnt)) as (pf' & E & Hlen & Hfd); [rewrite length_insert; lia|].
  exists pf'. simpl length. rewrite Nat.add_succ_r. split; [exact E|]. split; [by rewrite Hlen, length_insert|].
  simpl in Hfd. rewrite Hfd. rewrite (take_S_r _ _ (Pollfd x wanted (revents p))) by (apply list_lookup_insert_eq; lia).
  rewrite take_insert by lia. rewrite decide_False by lia. by rewrite fmap_app, <-(assoc_L app).
Qed.

Lemma fired_spec (pf : list pollfd) n : (n ≤ length pf)%nat → mapM (λ i, pf !! i) (seq 0 n) = Some (take n pf).
Proof.
  intros Hn. apply mapM_Some. apply Forall2_same_length_lookup_2; [rewrite length_seq, length_take; lia|].
  intros i j p Hj Hp. apply lookup_seq in Hj as [-> Hi]. by rewrite lookup_take, decide_True in Hp by lia.
Qed.

Lemma not_taken vs k : NoDup vs → filter (λ x, x ∉@{gset Z} list_to_set (take k vs)) vs = drop k vs.
Proof.
  intros Hnd. rewrite <-(take_drop k vs) in Hnd. apply NoDup_app in Hnd as (_ & Hdis & _).
  trans (filter (λ x, x ∉@{gset Z} list_to_set (take k vs)) (take k vs ++ drop k vs)); [by rewrite take_drop|].
  rewrite filter_app, (filter_all _ (drop k vs)).
  - assert (∀ l, l ⊆ take k vs → filter (λ x, x ∉@{gset Z} list_to_set (take k vs)) l = []) as ->; [|done|done].
    intros l. induction l as [|x l IH]; intros Hl; [done|]. rewrite filter_cons_False; [apply IH; set_solver|set_solver].
  - intros x Hx. rewrite elem_of_list_to_set. intros Ht. by apply (Hdis x).
Qed.

(** A round in which [poll] returns [ret]: the first entries are taken for ready,
    whichever are. *)
Lemma take_ready vs k f rev ret : NoDup vs → waiting vs k f → (Z.to_nat ret ≤ iWaitCnt f)%nat →
  let pf' := set_revents rev (pf f) in
  let raised := list_to_set (take (k + Z.to_nat ret) vs) in
  mapM (λ i, pf' !! i) (seq 0 (Z.to_nat ret)) = Some (take (Z.to_nat ret) pf') ∧
  setRaiseFds f ∪ list_to_set (fd <$> take (Z.to_nat ret) pf') = raised ∧
  size raised = (k + Z.to_nat ret)%nat ∧
  ∃ pf'' cnt, refill raised vs pf' 0 = Some (pf'', cnt) ∧ waiting vs (k + Z.to_nat ret) (Frame vs pf'' raised cnt).
Proof.
  intros Hnd [Hv Hk Hr Hc Hp Hf] Hret pf' raised. set (m := Z.to_nat ret) in *.
  assert (length pf' = length vs) as Hl by (by unfold pf'; rewrite <-(length_fmap fd), set_revents_fd, length_fmap).
  assert (fd <$> take m pf' = take m (drop k vs)) as Hfired.
  { unfold pf'. rewrite <-Hf, !fmap_take, set_revents_fd, take_take. by rewrite Nat.min_l by lia. }
  split; [apply fired_spec; lia|]. split; [|split].
  - rewrite Hfired, Hr. unfold raised. by rewrite <-take_take_drop, list_to_set_app_L.
  - unfold raised. rewrite size_list_to_set; [rewrite length_take; lia|]. by apply (sublist_NoDup _ vs), sublist_take.
  - destruct (refill_spec raised vs pf' 0) as (pf'' & E & Hl'' & Hfd); [lia|]. unfold raised in E, Hfd. rewrite not_taken in E, Hfd by done.
    eexists _, _. split; [exact E|]. split; simpl; [done|lia|done|by rewrite length_drop|by rewrite Hl''|exact Hfd].
Qed.

Lemma poll_loop_spec poll vs : poll_ok poll → NoDup vs → ∀ fuel n k f,
  waiting vs k f → (length vs - k < fuel)%nat →
  ∃ ret k' f', poll_loop poll fuel n f = Some (ret, f') ∧ v f' = vs ∧ (k ≤ k' ≤ length vs)%nat ∧
    setRaiseFds f' = list_to_set (take k' vs) ∧ (k' = length vs ∨ ret ≤ 0 ∧ ∃ m fds, (poll m fds).1 = ret ∧ fd <$> fds = drop k' vs).
Proof.
  intros Hpoll Hnd fuel. induction fuel as [|fuel IH]; intros n k f Hw Hfuel; [lia|]. cbn [poll_loop].
  pose proof (Hpoll n (take (iWaitCnt f) (pf f))) as Hok. destruct (poll n (take (iWaitCnt f) (pf f))) as [ret rev] eqn:Epoll.
  destruct Hok as [Hlen Hret]. pose proof (length_filter (λ r, r ≠ 0) rev) as Hfil. rewrite length_take in Hlen.
  destruct (take_ready vs k f rev ret Hnd Hw) as (-> & Hr & Hs & pf'' & cnt & E & Hw'); [lia|].
  cbn [mbind option_bind]. rewrite Hr, Hs. destruct Hw as [Hv Hk _ Hc Hp Hf]. rewrite Hv.
  case_decide; [|case_decide; [|rewrite E; cbn [mbind option_bind]]].
  - exists ret, (k + Z.to_nat ret)%nat. eexists. split; [done|]. simpl. split_and!; [done|lia|lia|done|by left].
  - exists ret, (k + Z.to_nat ret)%nat. eexists. split; [done|]. simpl. split_and!; [done|lia|lia|done|]. right. split; [done|].
    exists n, (take (iWaitCnt f) (pf f)). rewrite Epoll. split; [done|]. replace (Z.to_nat ret) with 0%nat by lia. by rewrite Hf, Nat.add_0_r.
  - destruct (IH (S n) (k + Z.to_nat ret)%nat (Frame vs pf'' (list_to_set (take (k + Z.to_nat ret) vs)) cnt)) as (ret' & k' & f' & Hl & Hv' & Hk' & Hrest); [done|lia|].
    exists ret', k', f'. split_and!; [exact Hl|done|lia|lia|apply Hrest..].
Qed.

Lemma last_ready_ok : poll_ok last_ready.
Proof.
  intros n [|p fds]; simpl; [done|]. rewrite length_app, length_replicate, filter_app, length_app. simpl. lia.
Qed.

(** C37. [poll_routine] on distinct descriptors ends for every behaviour of
    [poll], after at most as many rounds as there are descriptors, and one.  It
    ends when all descriptors were taken for ready, or when [poll] returned 0 or
    an error for the others, and then closes every descriptor.  But those it
    takes for ready are the first ones of [v], as many as the results of [poll]
    add up to, and not those that are: when only the last is ever ready, it ends
    up with all. *)
Theorem poll_routine_correct (vs : list Z) : NoDup vs →
  (∀ poll fuel, poll_ok poll → (length vs < fuel)%nat → ∃ ret k,
    poll_routine poll fuel vs = Some (ret, list_to_set (take k vs), vs, replicate (length vs) (-1)) ∧ (k ≤ length vs)%nat ∧
    (k = length vs ∨ ret ≤ 0 ∧ ∃ n fds, (poll n fds).1 = ret ∧ fd <$> fds = drop k vs)) ∧
  (∃ ret, poll_routine last_ready (S (length vs)) vs = Some (ret, list_to_set vs, vs, replicate (length vs) (-1))).
Proof.
  intros Hnd. match goal with |- ?A ∧ _ => assert A as Hall end.
  { intros poll fuel Hpoll Hfuel.
    destruct (poll_loop_spec poll vs Hpoll Hnd fuel 0 0 (frame_new vs) (frame_new_waiting vs)) as (ret & k & f & E & Hv & Hk & Hr & Hend); [lia|].
    exists ret, k. unfold poll_routine. rewrite E. cbn [mbind option_bind]. rewrite Hr, Hv. split; [done|]. split; [lia|done]. }
  split; [exact Hall|]. destruct (Hall last_ready (S (length vs)) last_ready_ok) as (ret & k & E & Hk & Hend); [lia|].
  exists ret. rewrite E. assert (k = length vs) as ->; [|by rewrite firstn_all].
  destruct Hend as [->|[Hret (n & fds & Hp & Hfds)]]; [done|]. destruct fds as [|p fds]; [|simpl in Hp; lia].
  simpl in Hfds. apply (f_equal length) in Hfds. rewrite length_drop in Hfds. simpl in Hfds. lia.
Qed.


Lemma poll_routine_correct_witness : ∃ ret k,
  poll_routine demo_poll 4 [5; 6; 7] = Some (ret, list_to_set (take k [5; 6; 7]), [5; 6; 7], [-1; -1; -1]) ∧ ret = 0 ∧ k = 1%nat.
Proof.
  destruct (poll_routine_correct [5; 6; 7]) as [H _]; [decides|].
  destruct (H demo_poll 4%nat) as (ret & k & E & Hk & _); [|simpl; lia|].
  - intros n fds. unfold demo_poll. case_decide; [apply last_ready_ok|]. rewrite length_replicate. lia.
  - exists ret, k. split; [exact E|].
    assert (poll_routine demo_poll 4 [5; 6; 7] = Some (0, list_to_set [5], [5; 6; 7], [-1; -1; -1])) as E' by evaluates.
    rewrite E' in E. injection E as <- Ek. split; [reflexivity|].
    destruct k as [|[|[|[|k]]]]; [vm_compute in Ek; discriminate|reflexivity|vm_compute in Ek; discriminate..|simpl in Hk; lia].
Defined.
