(* ===== verification/EchoClient.v ===== *)
(** * The echo client (libco/example_echocli.cpp)

    A process of the example: its coroutines connect, send and receive without
    end, and count what succeeds and fails in variables that they share.  A pass
    of the loop of [readwrite_routine] touches these variables once, at its end,
    so that it can be taken as one step of the process; what the system calls
    return in a pass is an argument of the step. *)

From S2P Require Import Prelude.

Local Open Scope Z_scope.
Local Open Scope cint_scope.

(** ** The counters *)

(** [iTime], [iSuccCnt], [iFailCnt], and the lines that were printed. *)
Record stats := Stats {
  iTime : Z;
  iSuccCnt : Z;
  iFailCnt : Z;
  reports : list (Z * Z * Z);
}.

Definition report (now : Z) (s : stats) : stats :=
  Stats now 0 0 (reports s ++ [(iTime s, iSuccCnt s, iFailCnt s)]).

(** An increment beyond the range of [int] is undefined. *)
Definition incr (n : Z) : option Z := guard (n < 2 ^ 31 - 1);; Some (n + 1).

(** [time] is what [time( NULL )] returns. *)
Definition AddSuccCnt (time : Z) (s : stats) : option stats :=
  let now := s32 time in
  if decide (iTime s < now) then Some (report now s)
  else n ← incr (iSuccCnt s); Some (Stats (iTime s) n (iFailCnt s) (reports s)).

Definition AddFailCnt (time : Z) (s : stats) : option stats :=
  let now := s32 time in
  if decide (iTime s < now) then Some (report now s)
  else n ← incr (iFailCnt s); Some (Stats (iTime s) (iSuccCnt s) n (reports s)).

(** ** The coroutines *)

Definition EALREADY : Z := 114.
Definition EINPROGRESS : Z := 115.

(** What the calls of a pass return; [r_errno] is [errno] after [connect], and
    [r_error] what [getsockopt] stores. *)
Record replies := Replies {
  r_socket : Z;
  r_errno : Z;
  r_getsockopt : Z;
  r_error : Z;
  r_write : Z;
  r_read : Z;
  r_time : Z;
}.

(** The first half of a pass: [inl] if the socket is given up, [inr] if it is
    used. *)
Definition connect_socket (fd : Z) (r : replies) : Z + Z :=
  if decide (fd < 0) then
    let fd := r_socket r in
    if decide (r_errno r = EALREADY ∨ r_errno r = EINPROGRESS) then
      if decide (r_getsockopt r = -1) then inl fd
      else if decide (r_error r ≠ 0) then inl fd
      else inr fd
    else inr fd
  else inr fd.

(** A pass: the new [fd], the descriptors that are closed, and whether the pass
    has succeeded. *)
Definition readwrite_pass (fd : Z) (r : replies) : Z * list Z * bool :=
  match connect_socket fd r with
  | inl fd => (-1, [fd], false)
  | inr fd =>
      if decide (0 < r_write r) then
        if decide (r_read r ≤ 0) then (-1, [fd], false) else (fd, [], true)
      else (-1, [fd], false)
  end.

(** A coroutine, with all descriptors that [socket] has returned to it and those
    that it has closed. *)
Record client := Client { c_fd : Z; opened : list Z; closed : list Z }.

Record process := Process { clients : list client; counters : stats }.

Definition process_new (cnt : nat) : process := Process (replicate cnt (Client (-1) [] [])) (Stats 0 0 0 []).

Definition step (i : nat) (r : replies) (p : process) : option process :=
  c ← clients p !! i;
  let '(fd, gone, succ) := readwrite_pass (c_fd c) r in
  let new := if decide (c_fd c < 0) then [r_socket r] else [] in
  s ← (if succ : bool then AddSuccCnt else AddFailCnt) (r_time r) (counters p);
  Some (Process (<[i := Client fd (opened c ++ new) (closed c ++ gone)]> (clients p)) s).

Fixpoint run (steps : list (nat * replies)) (p : process) : option process :=
  match steps with
  | [] => Some p
  | (i, r) :: steps => p ← step i r p; run steps p
  end.

(** Nothing can be written where no socket could be made. *)
Definition replies_ok (r : replies) : Prop := r_socket r < 0 → r_write r ≤ 0.

(** The passes that the printed lines and the counters account for. *)
Definition reported (s : stats) : Z := Z.of_nat (sum_list_with (λ l, Z.to_nat (l.1.2 + l.2)) (reports s)).
Definition accounted (s : stats) : Z := reported s + iSuccCnt s + iFailCnt s.

(** Every descriptor is closed once, but for the one in use. *)
Definition closes_all (c : client) : Prop := opened c = closed c ++ (if decide (c_fd c < 0) then [] else [c_fd c]).

(** Two coroutines: in the second 5 one succeeds twice and the other fails, in
    the second 6 the first fails. *)
Definition demo_steps : list (nat * replies) :=
  [(0%nat, Replies 7 0 0 0 8 8 5); (1%nat, Replies 8 EINPROGRESS 0 111 0 0 5); (0%nat, Replies 0 0 0 0 8 8 5);
   (0%nat, Replies 0 0 0 0 8 0 6)].

(** ** Counting *)

Record stats_ok (n : nat) (s : stats) : Prop := {
  st_succ : 0 ≤ iSuccCnt s;
  st_fail : 0 ≤ iFailCnt s;
  st_sum : accounted s + Z.of_nat (length (reports s)) = Z.of_nat n;
}.

Lemma add_cnt_ok (succ : bool) n t s : stats_ok n s → Z.of_nat n < 2 ^ 31 - 1 →
  ∃ s', (if succ then AddSuccCnt else AddFailCnt) t s = Some s' ∧ stats_ok (S n) s'.
Proof.
  intros [Hs Hf Hsum] Hn. assert (0 ≤ reported s) as Hr by (unfold reported; lia). unfold accounted in Hsum.
  assert (stats_ok (S n) (report (s32 t) s)) as Hrep.
  { split; simpl; [done..|]. unfold accounted, reported in *. simpl. rewrite sum_list_with_app, length_app. simpl. lia. }
  destruct succ; [unfold AddSuccCnt|unfold AddFailCnt]; (case_decide; [by eexists|]); unfold incr;
    (rewrite option_guard_True by lia); eexists; (split; [reflexivity|]); (split; simpl; [lia..|]);
    unfold accounted, reported in *; simpl; lia.
Qed.

(** ** Descriptors *)

Lemma pass_closes_all c r fd gone succ : closes_all c → replies_ok r → readwrite_pass (c_fd c) r = (fd, gone, succ) →
  closes_all (Client fd (opened c ++ (if decide (c_fd c < 0) then [r_socket r] else [])) (closed c ++ gone)).
Proof.
  unfold closes_all, readwrite_pass, connect_socket, replies_ok. simpl. intros Hc Hr E.
  repeat case_decide; simplify_eq; rewrite Hc, ?app_nil_r; try done; try lia; by rewrite ?(decide_True (-1 < 0)).
Qed.

Lemma client_step_ok n i r p : (i < length (clients p))%nat → replies_ok r → Forall closes_all (clients p) → stats_ok n (counters p) →
  Z.of_nat n < 2 ^ 31 - 1 →
  ∃ p', step i r p = Some p' ∧ length (clients p') = length (clients p) ∧ Forall closes_all (clients p') ∧ stats_ok (S n) (counters p').
Proof.
  intros Hi Hr Hc Hs Hn. unfold step. destruct (lookup_lt_is_Some_2 _ _ Hi) as [c Ec]. rewrite Ec. cbn [mbind option_bind].
  destruct (readwrite_pass (c_fd c) r) as [[fd gone] succ] eqn:E.
  destruct (add_cnt_ok succ n (r_time r) (counters p) Hs Hn) as (s' & -> & Hs'). cbn [mbind option_bind].
  eexists. split; [done|]. simpl. rewrite length_insert. split; [done|]. split; [|done].
  apply Forall_insert; [done|]. apply (pass_closes_all c r fd gone succ); [|done..]. by apply (Forall_lookup_1 _ _ _ _ Hc Ec).
Qed.

Lemma client_run_ok steps : ∀ n p, Forall (λ s, (s.1 < length (clients p))%nat ∧ replies_ok s.2) steps →
  Forall closes_all (clients p) → stats_ok n (counters p) → Z.of_nat (n + length steps) < 2 ^ 31 →
  ∃ p', run steps p = Some p' ∧ Forall closes_all (clients p') ∧ stats_ok (n + length steps) (counters p').
Proof.
  induction steps as [|[i r] steps IH]; intros n p Hsteps Hc Hs Hn; cbn [run]; simpl length in *.
  { exists p. by rewrite Nat.add_0_r. }
  apply Forall_cons in Hsteps as [[Hi Hr] Hsteps]. destruct (client_step_ok n i r p) as (p1 & -> & Hl & Hc1 & Hs1); [done..|lia|].
  cbn [mbind option_bind]. rewrite Nat.add_succ_r. apply (IH (S n)); [by rewrite Hl|done|done|lia].
Qed.

(** The echo client with any number of coroutines, in any order of their
    passes and for all results of the system calls: each coroutine closes every
    socket once, but for the one it still uses.  The counters and the lines that
    were printed account for the passes except one for each line: the pass in
    which a line is printed is not counted. *)
Theorem echo_client (cnt : nat) (steps : list (nat * replies)) :
  Forall (λ s, (s.1 < cnt)%nat ∧ replies_ok s.2) steps → Z.of_nat (length steps) < 2 ^ 31 →
  ∃ p, run steps (process_new cnt) = Some p ∧
    (∀ i c, clients p !! i = Some c → closes_all c) ∧
    accounted (counters p) = Z.of_nat (length steps) - Z.of_nat (length (reports (counters p))).
Proof.
  intros Hsteps Hlen. destruct (client_run_ok steps 0 (process_new cnt)) as (p & E & Hc & [_ _ Hsum]).
  - simpl. by rewrite length_replicate.
  - by apply Forall_replicate.
  - by split.
  - done.
  - exists p. split; [done|]. split; [|simpl in Hsum; lia]. intros i c Hi. by apply (Forall_lookup_1 _ _ _ _ Hc Hi).
Qed.

Lemma echo_client_witness : ∃ p,
  run demo_steps (process_new 2) = Some p ∧ reports (counters p) = [(0, 0, 0); (5, 1, 1)] ∧ accounted (counters p) = 4 - 2.
Proof.
  destruct (echo_client 2 demo_steps) as (p & E & _ & Hsum); [|vm_compute; reflexivity|].
  - repeat (apply Forall_cons_2; [split; [simpl; lia|vm_compute; congruence]|]). apply Forall_nil_2.
  - exists p. split; [exact E|]. rewrite Hsum. clear Hsum. vm_compute in E. injection E as <-. split; reflexivity.
Defined.
