(* ===== verification/ExampleCond.v ===== *)
(** * A producer and a consumer (libco/example_cond.cpp)

    The two coroutines of the example over any scheduler that implements
    [CondOps]: coroutine 0 is the consumer, which waits on the condition variable
    when the queue is empty, and coroutine 1 the producer, which makes a task,
    signals and sleeps. *)

From S2P Require Import Prelude LinkList CoCond.

Local Open Scope Z_scope.

(** [id] is the next number of [Producer]; [consumed] records the tasks that have
    been consumed. *)
Record stEnv_t (Q : Type) := Env {
  cond : Q;
  task_queue : list Z;
  id : Z;
  consumed : list Z;
}.
Arguments Env {_} _ _ _ _.
Arguments cond {_} _.
Arguments task_queue {_} _.
Arguments id {_} _.
Arguments consumed {_} _.

Section example.
Context {Q : Type} `{CondOps Q}.

(** A round of [Producer] up to its [poll]; [id++] beyond the range of [int] is
    undefined. *)
Definition Producer (env : stEnv_t Q) : option (stEnv_t Q) :=
  guard (id env < 2 ^ 31 - 1);;
  let env := Env (cond env) (task_queue env ++ [id env]) (id env + 1) (consumed env) in
  q ← q_signal (cond env);
  Some (Env q (task_queue env) (id env) (consumed env)).

(** [Consumer] on the tasks of the queue, until it waits. *)
Fixpoint Consumer (tasks : list Z) (env : stEnv_t Q) : option (stEnv_t Q) :=
  match tasks with
  | [] => q ← q_wait 0 (cond env); Some (Env q (task_queue env) (id env) (consumed env))
  | t :: tasks => Consumer tasks (Env (cond env) tasks (id env) (consumed env ++ [t]))
  end.

(** The coroutines that are active, until none is. *)
Fixpoint drain (fuel : nat) (env : stEnv_t Q) : option (stEnv_t Q) :=
  match fuel with
  | O => None
  | S fuel =>
      '(o, q) ← q_next (cond env);
      let env := Env q (task_queue env) (id env) (consumed env) in
      match o with
      | None => Some env
      | Some i => env ← (if decide (i = 0)%nat then Consumer (task_queue env) env else Producer env); drain fuel env
      end
  end.

(** An iteration of [co_eventloop], in which the sleep of the producer has ended
    or not. *)
Definition iteration (fuel : nat) (expired : bool) (env : stEnv_t Q) : option (stEnv_t Q) :=
  q ← (if expired then q_raise 1 (cond env) else Some (cond env));
  drain fuel (Env q (task_queue env) (id env) (consumed env)).

Fixpoint iterations (fuel : nat) (ticks : list bool) (env : stEnv_t Q) : option (stEnv_t Q) :=
  match ticks with
  | [] => Some env
  | b :: ticks => env ← iteration fuel b env; iterations fuel ticks env
  end.

(** [main] up to its loop: each coroutine runs until it yields. *)
Definition main (q : Q) : option (stEnv_t Q) :=
  let env := Env q [] 0 [] in
  env ← Consumer (task_queue env) env;
  Producer env.
End example.

(** [n] tasks have been made; the queue holds none and the consumer waits, or
    one for which it was woken. *)
Definition between `{CondLaws Q} (woken : bool) (n : Z) (env : stEnv_t Q) : Prop :=
  id env = n ∧ 0 ≤ n ∧
  if woken then 0 < n ∧ task_queue env = [n - 1] ∧ consumed env = seqZ 0 (n - 1) ∧ q_rep (cond env) [] [0%nat]
  else task_queue env = [] ∧ consumed env = seqZ 0 n ∧ q_rep (cond env) [0%nat] [].

(** The tasks that are made in iterations. *)
Definition produced (ticks : list bool) : Z := Z.of_nat (length (filter (λ b, b = true) ticks)).

(** Three iterations, in the second of which the producer sleeps on. *)
Definition demo_ticks : list bool := [true; false; true].

(** ** The coroutines *)

Section laws.
Context {Q : Type} `{CondLaws Q}.

Lemma Consumer_spec tasks : ∀ env ws qs, q_rep (cond env) ws qs → task_queue env = tasks →
  ∃ q, Consumer tasks env = Some (Env q [] (id env) (consumed env ++ tasks)) ∧ q_rep q (ws ++ [0%nat]) qs.
Proof.
  induction tasks as [|t tasks IH]; intros env ws qs Hq Ht; cbn [Consumer].
  - destruct (q_wait_law _ ws qs 0%nat Hq) as (q & -> & Hq'). exists q. cbn [mbind option_bind]. by rewrite Ht, app_nil_r.
  - destruct (IH (Env (cond env) tasks (id env) (consumed env ++ [t])) ws qs Hq eq_refl) as (q & -> & Hq').
    exists q. simpl. by rewrite <-app_assoc.
Qed.

Lemma Producer_spec env ws qs : q_rep (cond env) ws qs → id env < 2 ^ 31 - 1 →
  ∃ q, Producer env = Some (Env q (task_queue env ++ [id env]) (id env + 1) (consumed env)) ∧ q_rep q (tail ws) (qs ++ take 1 ws).
Proof.
  intros Hq Hid. unfold Producer. rewrite option_guard_True by done. cbn [mbind option_bind]. simpl.
  destruct (q_signal_law _ ws qs Hq) as (q & -> & Hq'). by exists q.
Qed.

Lemma drain_consumer fuel env ws qs : q_rep (cond env) ws (0%nat :: qs) →
  ∃ q, drain (S fuel) env = drain fuel (Env q [] (id env) (consumed env ++ task_queue env)) ∧ q_rep q (ws ++ [0%nat]) qs.
Proof.
  intros Hq. cbn [drain]. destruct (q_next_law _ _ _ Hq) as (q & -> & Hq'). cbn [mbind option_bind head]. rewrite decide_True by done.
  destruct (Consumer_spec (task_queue env) (Env q (task_queue env) (id env) (consumed env)) ws qs Hq' eq_refl) as (q' & E & Hq2).
  simpl in E |- *. rewrite E. by exists q'.
Qed.

Lemma drain_producer fuel env ws qs : q_rep (cond env) ws (1%nat :: qs) → id env < 2 ^ 31 - 1 →
  ∃ q, drain (S fuel) env = drain fuel (Env q (task_queue env ++ [id env]) (id env + 1) (consumed env)) ∧ q_rep q (tail ws) (qs ++ take 1 ws).
Proof.
  intros Hq Hid. cbn [drain]. destruct (q_next_law _ _ _ Hq) as (q & -> & Hq'). cbn [mbind option_bind head]. rewrite decide_False by done.
  destruct (Producer_spec (Env q (task_queue env) (id env) (consumed env)) ws qs Hq' Hid) as (q' & E & Hq2).
  simpl in E |- *. rewrite E. by exists q'.
Qed.

Lemma drain_end fuel env ws : q_rep (cond env) ws [] →
  ∃ q, drain (S fuel) env = Some (Env q (task_queue env) (id env) (consumed env)) ∧ q_rep q ws [].
Proof. intros Hq. cbn [drain]. destruct (q_next_law _ _ _ Hq) as (q & -> & Hq'). by exists q. Qed.

Lemma seqZ_snoc n : 0 ≤ n → seqZ 0 n ++ [n] = seqZ 0 (n + 1).
Proof. intros Hn. rewrite seqZ_app by lia. f_equal. Qed.

(** The active coroutines when the consumer waits: the producer or none. *)
Lemma drain_awake fuel (b : bool) n env : (3 ≤ fuel)%nat → 0 ≤ n → n + (if b then 1 else 0) < 2 ^ 31 →
  id env = n → task_queue env = [] → consumed env = seqZ 0 n → q_rep (cond env) [0%nat] (if b then [1%nat] else []) →
  ∃ env', drain fuel env = Some env' ∧ between false (n + (if b then 1 else 0)) env'.
Proof.
  intros Hf Hpos Hn Hid Ht Hc Hq. destruct fuel as [|[|[|fuel]]]; [lia..|]. destruct b.
  - destruct (drain_producer (S (S fuel)) env _ _ Hq) as (q1 & -> & Hq1); [lia|]. rewrite Ht, Hid, Hc.
    destruct (drain_consumer (S fuel) (Env q1 ([] ++ [n]) (n + 1) (seqZ 0 n)) [] [] Hq1) as (q2 & -> & Hq2).
    destruct (drain_end fuel (Env q2 [] (n + 1) (seqZ 0 n ++ [n])) _ Hq2) as (q3 & E & Hq3).
    simpl in E |- *. rewrite E. eexists. split; [done|]. split; [done|]. split; [lia|]. simpl. by rewrite seqZ_snoc by lia.
  - destruct (drain_end (S (S fuel)) env _ Hq) as (q1 & -> & Hq1). eexists. split; [done|].
    rewrite Z.add_0_r. split; [done|]. split; [lia|]. done.
Qed.

Lemma iteration_spec fuel woken (b : bool) n env : (4 ≤ fuel)%nat → n + (if b then 1 else 0) < 2 ^ 31 → between woken n env →
  ∃ env', iteration fuel b env = Some env' ∧ between false (n + (if b then 1 else 0)) env'.
Proof.
  intros Hf Hn (Hid & Hpos & Hrest). unfold iteration.
  assert (∀ ws qs, q_rep (cond env) ws qs → ∃ q, (if b then q_raise 1 (cond env) else Some (cond env)) = Some q ∧
    q_rep q ws (qs ++ if b then [1%nat] else [])) as Hraise.
  { intros ws qs Hq. destruct b; [by apply q_raise_law|]. exists (cond env). by rewrite app_nil_r. }
  destruct woken.
  - destruct Hrest as (Hn0 & Ht & Hc & Hq). destruct (Hraise _ _ Hq) as (q & -> & Hq1). cbn [mbind option_bind].
    destruct fuel as [|fuel]; [lia|].
    destruct (drain_consumer fuel (Env q (task_queue env) (id env) (consumed env)) [] (if b then [1%nat] else []) Hq1) as (q2 & -> & Hq2).
    apply drain_awake; simpl; [lia|lia|done|done|done| |done]. rewrite Ht, Hc, seqZ_snoc by lia. f_equal. lia.
  - destruct Hrest as (Ht & Hc & Hq). destruct (Hraise _ _ Hq) as (q & -> & Hq1). cbn [mbind option_bind].
    apply drain_awake; simpl; [lia|lia|done|done|done|done|exact Hq1].
Qed.

Lemma produced_cons b ticks : produced (b :: ticks) = (if b then 1 else 0) + produced ticks.
Proof. unfold produced. rewrite filter_cons. destruct b; simpl; lia. Qed.

Lemma iterations_spec fuel ticks : (4 ≤ fuel)%nat → ∀ woken n env, between woken n env → n + produced ticks < 2 ^ 31 →
  ∃ env', iterations fuel ticks env = Some env' ∧ between (if decide (ticks = []) then woken else false) (n + produced ticks) env'.
Proof.
  intros Hf. induction ticks as [|b ticks IH]; intros woken n env Hb Hn; cbn [iterations].
  { exists env. change (produced []) with 0. by rewrite Z.add_0_r. }
  rewrite produced_cons, Z.add_assoc in Hn |- *. assert (0 ≤ produced ticks) by (unfold produced; lia).
  destruct (iteration_spec fuel woken b n env Hf) as (env1 & -> & Hb1); [destruct b; lia|done|]. cbn [mbind option_bind].
  destruct (IH false _ env1 Hb1 Hn) as (env' & -> & Hb'). exists env'. split; [done|]. rewrite decide_False by done.
  by destruct (decide (ticks = [])).
Qed.

Lemma main_spec q : q_rep q [] [] → ∃ env, main q = Some env ∧ between true 1 env.
Proof.
  intros Hq. unfold main. destruct (Consumer_spec [] (Env q [] 0 []) [] [] Hq eq_refl) as (q1 & E1 & Hq1).
  simpl in E1 |- *. rewrite E1. cbn [mbind option_bind].
  destruct (Producer_spec (Env q1 [] 0 []) _ _ Hq1) as (q2 & E2 & Hq2); [simpl; lia|]. simpl in E2. rewrite E2.
  eexists. split; [done|]. split; [done|]. split; [lia|]. split; [lia|]. done.
Qed.
End laws.

(** The producer and the consumer over any scheduler that keeps the laws of
    condition variables: the example runs for any number of iterations, however
    often the producer's sleep ends, up to 2^31 - 1 tasks; the tasks are consumed
    in the order in which they are made, each once, and at the end of every
    iteration all are consumed and the consumer waits, so that no signal is
    lost. *)
Theorem producer_consumer `{CondLaws Q} (q : Q) (ticks : list bool) (fuel : nat) :
  q_rep q [] [] → (4 ≤ fuel)%nat → 1 + produced ticks < 2 ^ 31 →
  ∃ env0 env, main q = Some env0 ∧ iterations fuel ticks env0 = Some env ∧
    id env = 1 + produced ticks ∧ consumed env ++ task_queue env = seqZ 0 (id env) ∧
    (ticks ≠ [] → task_queue env = [] ∧ q_rep (cond env) [0%nat] []).
Proof.
  intros Hq Hf Hn. destruct (main_spec q Hq) as (env0 & E0 & Hb0).
  destruct (iterations_spec fuel ticks Hf true 1 env0 Hb0 Hn) as (env & E & Hid & Hpos & Hb).
  exists env0, env. split; [done|]. split; [done|]. split; [done|]. rewrite Hid. case_decide as Ht.
  - destruct Hb as (? & -> & -> & _). split; [|done]. rewrite seqZ_snoc by lia. f_equal. lia.
  - destruct Hb as (-> & -> & Hq'). by rewrite app_nil_r.
Qed.

(** Over the lists of libco. *)
Lemma producer_consumer_witness : ∃ env0 env,
  main empty_condq = Some env0 ∧ iterations 4 demo_ticks env0 = Some env ∧ consumed env = [0; 1; 2] ∧ task_queue env = [].
Proof.
  destruct (producer_consumer empty_condq demo_ticks 4 empty_condq_rep) as (env0 & env & E0 & E & Hid & Hc & Hend);
    [lia|vm_compute; reflexivity|].
  destruct Hend as [Ht _]; [discriminate|]. exists env0, env. split; [exact E0|]. split; [exact E|].
  rewrite Ht, app_nil_r, Hid in Hc. split; [exact Hc|exact Ht].
Defined.
