(* ===== verification/ExampleSetenv.v ===== *)
(** * Variables of three coroutines (libco/example_setenv.cpp)

    The coroutines of the example over [CoEnv]: each sleeps, sets [CGINAME] to a
    value of its own, sleeps, and prints what it reads back.  The event loop may
    resume them in any order. *)

From stdpp Require Import pretty.
From S2P Require Import Prelude CoEnv.

Local Open Scope nat_scope.

Definition CGINAME : string := "CGINAME".

(** [sprintf( sBuf,"cgi_routine_%d",... )] into an array of 128 bytes. *)
Definition sBuf (iRoutineID : nat) : option string :=
  let s := "cgi_routine_" +:+ pretty iRoutineID in
  guard (String.length s < 128);; Some s.

(** Where a routine is: in its first sleep, in its second, or at its end, having
    printed a value or none. *)
Inductive phase := First | Second | Ended (printed : option string).

Section example.
Context {E : Type} (sys_setenv : string → option string → bool → E → Z * E) (sys_getenv : string → E → option string).

(** The address of the coroutine of a routine. *)
Context (self : nat → Z).

Record process := Process { env : envs E; routines : list phase }.

(** [SetAndGetEnv] from a sleep to the next, with the hooks enabled. *)
Definition SetAndGetEnv (i : nat) (p : process) : option process :=
  ph ← routines p !! i;
  match ph with
  | First =>
      s ← sBuf i;
      let '(ret, e) := setenv sys_setenv true (Some (self i)) CGINAME (Some s) true (env p) in
      Some (Process e (<[i := if decide (ret ≠ 0%Z) then Ended None else Second]> (routines p)))
  | Second =>
      '(v, e) ← getenv sys_getenv true (Some (self i)) CGINAME (env p);
      Some (Process e (<[i := Ended v]> (routines p)))
  | Ended _ => None
  end.

Fixpoint resume_in_order (schedule : list nat) (p : process) : option process :=
  match schedule with
  | [] => Some p
  | i :: schedule => p ← SetAndGetEnv i p; resume_in_order schedule p
  end.

(** [main]: the list is set, and the routines run to their first sleep. *)
Definition main (e : envs E) : option process :=
  e ← co_set_env_list [Some CGINAME] e;
  Some (Process e (replicate 3 First)).
End example.
Arguments process : clear implicits.
Arguments Process {_} _ _.
Arguments env {_} _.
Arguments routines {_} _.

(** Where a routine is that was resumed [k] times. *)
Definition after (i k : nat) : phase :=
  match k with O => First | 1 => Second | _ => Ended (sBuf i) end.

Definition resumed (i : nat) (schedule : list nat) : nat := length (filter (λ j, j = i) schedule).

(** The routines were resumed [k i] times; those in their second sleep have their
    values. *)
Record going {E : Type} (sys_getenv : string → E → option string) (self : nat → Z) (k : nat → nat) (p : process E) : Prop := {
  go_env : env_ok [CGINAME] (env p);
  go_routines : ∀ i, routines p !! i = if decide (i < 3) then Some (after i (k i)) else None;
  go_values : ∀ i, i < 3 → k i = 1 → value_of sys_getenv (self i) CGINAME (env p) = sBuf i;
}.

Definition demo_schedule : list nat := [2; 0; 1; 0; 2; 1].

(** ** Steps *)

Lemma sBuf_fits i : i < 3 → ∃ s, sBuf i = Some s.
Proof. intros Hi. destruct i as [|[|[|i]]]; [by eexists..|lia]. Qed.

Section laws.
Context {E : Type} (sys_setenv : string → option string → bool → E → Z * E) (sys_getenv : string → E → option string).
Context (self : nat → Z) (Hself : ∀ i j, i < 3 → j < 3 → self i = self j → i = j).

Lemma CGINAME_in : CGINAME ∈ [CGINAME].
Proof. left. Qed.

(** [getenv] reads the value and changes no variable. *)
Lemma getenv_own (e : envs E) a : env_ok [CGINAME] e → ∃ e', getenv sys_getenv true (Some a) CGINAME e = Some (value_of sys_getenv a CGINAME e, e') ∧
  env_ok [CGINAME] e' ∧ system e' = system e ∧ ∀ b, value_of sys_getenv b CGINAME e' = value_of sys_getenv b CGINAME e.
Proof.
  intros Hok. destruct (getenv_spec sys_getenv [CGINAME] e a CGINAME Hok) as (v & e' & E1 & ? & ? & -> & Hv).
  rewrite decide_True in E1 by apply CGINAME_in. exists e'. split_and!; [done..|]. intros b. apply Hv, CGINAME_in.
Qed.

Lemma going_step k i (p : process E) : going sys_getenv self k p → i < 3 → k i < 2 →
  ∃ p', SetAndGetEnv sys_setenv sys_getenv self i p = Some p' ∧ going sys_getenv self (λ j, if decide (j = i) then S (k j) else k j) p' ∧
    system (env p') = system (env p).
Proof.
  intros [He Hr Hv] Hi Hk. unfold SetAndGetEnv. rewrite Hr, decide_True by done. cbn [mbind option_bind].
  assert (∀ j (x : phase), <[i := x]> (routines p) !! j = if decide (j = i) then Some x else routines p !! j) as Hins.
  { intros j x. assert (i < length (routines p)) by (apply lookup_lt_is_Some; rewrite Hr, decide_True; eauto).
    case_decide as Hj; [subst; by apply list_lookup_insert_eq|by apply list_lookup_insert_ne]. }
  destruct (k i) as [|[|n]] eqn:Ek; [| |lia]; simpl after; cbv iota.
  - destruct (sBuf_fits i Hi) as [s Es]. rewrite Es. cbn [mbind option_bind].
    pose proof (setenv_spec sys_setenv (λ _ e, (0%Z, e)) sys_getenv [CGINAME] (env p) (self i) CGINAME (Some s) true He) as Hset.
    destruct (setenv _ _ _ _ _ _ _) as [ret e]. destruct Hset as (Hok & Hset & _). destruct (Hset CGINAME_in) as (-> & Hsys & Hval).
    eexists. split; [done|]. split; [|done]. split; simpl; [done| |]; intros j; destruct (decide (j = i)) as [->|Hj].
    + by rewrite Hins, !decide_True, Ek by done.
    + rewrite Hins, decide_False by done. apply Hr.
    + intros _ _. rewrite Hval by apply CGINAME_in. rewrite decide_True by auto. by rewrite Es.
    + intros Hj3 Hkj. rewrite Hval by apply CGINAME_in. rewrite decide_False; [by apply Hv|]. intros (Hself' & _). by apply Hj, Hself.
  - destruct (getenv_own (env p) (self i) He) as (e & -> & Hok & Hsys & Hval). cbn [mbind option_bind].
    eexists. split; [done|]. split; [|done]. split; simpl; [done| |]; intros j; destruct (decide (j = i)) as [->|Hj].
    + rewrite Hins, !decide_True, Ek by done. simpl. by rewrite Hv by done.
    + rewrite Hins, decide_False by done. apply Hr.
    + lia.
    + intros Hj3 Hkj. rewrite Hval. by apply Hv.
Qed.

Lemma going_run schedule : ∀ k (p : process E), going sys_getenv self k p → Forall (λ i, i < 3) schedule →
  (∀ i, k i + resumed i schedule ≤ 2) →
  ∃ p', resume_in_order sys_setenv sys_getenv self schedule p = Some p' ∧ going sys_getenv self (λ i, k i + resumed i schedule) p' ∧
    system (env p') = system (env p).
Proof.
  induction schedule as [|i schedule IH]; intros k p Hp Hs Hk; cbn [resume_in_order].
  { exists p. split; [done|]. split; [|done]. destruct Hp as [He Hr Hv]. split; [done| |].
    - intros j. rewrite Hr. unfold resumed. simpl. by rewrite Nat.add_0_r.
    - intros j Hj. unfold resumed. simpl. rewrite Nat.add_0_r. by apply Hv. }
  assert (∀ j, resumed j (i :: schedule) = (if decide (j = i) then 1 else 0) + resumed j schedule) as Hcons.
  { intros j. unfold resumed. rewrite filter_cons. repeat case_decide; simpl; congruence. }
  apply Forall_cons in Hs as [Hi Hs]. pose proof (Hk i) as Hki. rewrite Hcons, decide_True in Hki by done.
  destruct (going_step k i p Hp Hi) as (p1 & -> & Hp1 & Hsys1); [lia|]. cbn [mbind option_bind].
  destruct (IH _ p1 Hp1 Hs) as (p' & E1 & Hp' & Hsys'); [intros j; specialize (Hk j); rewrite Hcons in Hk; case_decide; lia|].
  exists p'. split; [exact E1|]. split; [|by rewrite Hsys']. destruct Hp' as [He Hr Hv].
  assert (∀ j, (if decide (j = i) then S (k j) else k j) + resumed j schedule = k j + resumed j (i :: schedule)) as Hsum.
  { intros j. rewrite Hcons. case_decide; lia. }
  split; [done| |].
  - intros j. by rewrite Hr, Hsum.
  - intros j Hj. rewrite <-Hsum. by apply Hv.
Qed.

Lemma main_going (e : envs E) : g_co_sysenv e = None → pvEnv e = ∅ →
  ∃ p, main e = Some p ∧ going sys_getenv self (λ _, 0) p ∧ system (env p) = system e.
Proof.
  intros Hg Hp. unfold main, co_set_env_list. rewrite Hg.
  assert (sorted_env [Some CGINAME] = Some [(CGINAME, None)]) as -> by evaluates. cbn [mbind option_bind].
  eexists. split; [done|]. split; [|done]. split; simpl; [|intros [|[|[|i]]]; done|done].
  split; simpl; [exists [(CGINAME, None)]; by rewrite Forall_singleton|intros a arr; by rewrite Hp, lookup_empty|by repeat constructor].
Qed.
End laws.

(** Whatever the order in which the event loop resumes the three routines, each
    that has been resumed twice has printed the value that it has set itself, and
    the environment of the process is not touched. *)
Theorem routines_print_their_own {E : Type} (sys_setenv : string → option string → bool → E → Z * E)
    (sys_getenv : string → E → option string) (self : nat → Z) (e : envs E) (schedule : list nat) :
  (∀ i j, i < 3 → j < 3 → self i = self j → i = j) → g_co_sysenv e = None → pvEnv e = ∅ →
  Forall (λ i, i < 3) schedule → (∀ i, resumed i schedule ≤ 2) →
  ∃ p0 p, main e = Some p0 ∧ resume_in_order sys_setenv sys_getenv self schedule p0 = Some p ∧
    (∀ i, i < 3 → routines p !! i = Some (after i (resumed i schedule))) ∧ system (env p) = system e.
Proof.
  intros Hself Hg Hp Hs Hk. destruct (main_going sys_getenv self e Hg Hp) as (p0 & E0 & Hp0 & Hsys0).
  destruct (going_run sys_setenv sys_getenv self Hself schedule (λ _, 0) p0 Hp0 Hs Hk) as (p & E1 & [_ Hr _] & Hsys).
  exists p0, p. split; [done|]. split; [done|]. split; [|by rewrite Hsys]. intros i Hi. by rewrite Hr, decide_True.
Qed.

Lemma routines_print_their_own_witness : ∃ p0 p,
  main (Envs None ∅ (∅ : gmap string string)) = Some p0 ∧
  resume_in_order map_setenv map_getenv Z.of_nat demo_schedule p0 = Some p ∧ routines p !! 1 = Some (Ended (Some "cgi_routine_1")).
Proof.
  destruct (routines_print_their_own map_setenv map_getenv Z.of_nat (Envs None ∅ ∅) demo_schedule) as (p0 & p & E0 & E1 & Hr & _).
  - intros i j _ _. lia.
  - done.
  - done.
  - repeat (apply Forall_cons_2; [lia|]). apply Forall_nil_2.
  - intros i. unfold resumed, demo_schedule. rewrite !filter_cons. repeat case_decide; simpl; lia.
  - exists p0, p. split; [exact E0|]. split; [exact E1|]. rewrite (Hr 1) by lia. evaluates.
Defined.
